(* ===== verification/_CoqProject ===== *)
-Q . S2P
Prelude.v
Lines.v
Names.v
Parser.v
ParserSpec.v
SendFormat.v
SendTime.v
Timestamp.v
Platform.v
Config.v
ConfigSpec.v
Escape.v
Admission.v
Backoff.v
FileSystem.v
LogFile.v
LogFileSpec.v
Rotation.v
Lifecycle.v
Sinks.v
Forwarder.v
OutputManager.v
Alarm.v
UdpServer.v
Linearization.v
SendOptions.v
SendMain.v
Preflight.v
WaitUntil.v
Service.v
Server.v
Startup.v
SystemLog.v
Isolation.v
Exceptions.v
Interleaving.v
Threads.v
Process.v
Shutdown.v
Delivery.v
Retention.v
DiskHistory.v
Outages.v
Readback.v
EndToEnd.v
Forwarding.v
Completion.v
ServiceControl.v
Main.v
