(* ===== verification/Prelude.v ===== *)
(** * Verification of minilog

    minilog is a syslog server: it receives UDP datagrams, parses them as RFC 5424
    or RFC 3164, writes each to the log files of the sections that want it, and
    may forward it to another server. minilog-send is the command that builds and
    sends one. This library models the C++ of both (src/src/server, src/src/send)
    and proves what makes it correct. Paths below are relative to src/src.

    ** The parts and where they are modelled

    The path of a datagram, from the socket to the disk:
    - [UdpServer] (server/udp_server.cpp): the receive handler and what surrounds
      it: admission, re-arming, errors, drop reports, and the task that parses and
      routes a datagram. A handler is a function on the record [UdpServer]; the
      socket and the timer are events, and [possible] says when each can happen.
    - [Admission] (server/admission.hpp): the charge against max_queue_bytes, as
      the atomic operations of any number of threads, interleaved.
      [Linearization] shows that to its callers each call is one operation.
    - [Backoff] (server/receive_backoff.hpp, server/output/sink_recovery.hpp): the
      pacing and reporting of receive errors ([Module ReceiveBackoff]) and of a
      sink's outages ([Module SinkRecovery]).
    - [Names], [Parser], [ParserSpec] (server/parser): the name tables, the parser
      with every access that could leave the string as undefined behaviour, and
      the grammar it is proved equal to.
    - [OutputManager] (server/output/output_manager.cpp): which sinks a message is
      posted to, and the strands, as queues of tasks.
    - [FileSystem], [LogFile] (server/output/log_file.cpp): the file system whose
      every call may fail, and every member function of [LogFile] in a monad over
      it; [Escape] has [sanitizeUtf8] and [escapeControlChars]. [LogFileSpec] is
      the program logic for that monad, [Rotation] the chain of generations,
      [Lifecycle] the invariant of a sink and its handlers, [Sinks] what they
      promise. [Timestamp] is the time stamp of a record and its calendar.
    - [Forwarder] (server/forwarder/forwarder.cpp): the lookup, its retries, and
      the datagrams sent.
    - [SystemLog] (server/platform/os_log_linux.cpp, os_log_win.cpp): standard
      error and the system's own log. What the parts log they keep as lines with
      their level ([LogLine]); a sink's lines have the time, too.

    The whole:
    - [Isolation]: a sink reads and writes the files of its own section only: its
      handlers are sequences of single calls ([sliced]), each of them confined to
      those files ([confined]).
    - [Exceptions]: a handler of a sink as the sequence of its calls, which an
      exception may cut short anywhere, and the catch blocks, which may be cut
      short, too.
    - [Interleaving]: the sinks of a server over one disk, their strands, timers and
      failures in any order ([manager_step]), a handler being one step; [Threads]
      lets the calls of handlers on different threads interleave and shows that
      this makes no difference.
    - [Process]: the running server as one state, from the socket to the strands
      and the forwarder, with the tokens that tie queued messages to their charges;
      [enabled] and [sys_step] are its steps, [path] its schedules, [PInv] its
      invariant. [Shutdown] bounds its memory and shows that it ends; [Delivery]
      follows every datagram to the files and [Forwarding] to the socket, and
      [Completion] shows that the backlog clears. [Retention] reads a file and its
      generations as one log and shows what each member function of [LogFile] does
      to it; [DiskHistory] follows that log over a whole run with failing calls,
      and [Outages] what is said of each sink meanwhile.
      [Lines] and [Readback] read the files of a run back, through an interface
      ([LineReader]) with an instance for each kind of file. [EndToEnd] follows a
      message from minilog-send to the fields of its record.

    Around it:
    - [Platform], [Config], [ConfigSpec] (server/config): the libraries the loader
      calls, as classes with their documented laws and an instance; the loader;
      what a loaded configuration is.
    - [Server] (server/main.cpp, server/run_loop.hpp): [runServer], which builds
      the parts in order, and the loop of a worker; [Alarm] shows that a sink which
      cannot be opened says so.
    - [Main] (server/main.cpp, server/platform/service_linux.cpp): [main], the
      command line and what each option does.
    - [Service], [ServiceControl] (server/platform/service_win.cpp,
      service_linux.cpp): what a running Windows service reports to the service
      manager, and the wait for a stop on both systems ([Watch]); stopping,
      installing and removing the service, each call of the manager taking time and
      failing at will.
    - [Preflight] (server/preflight.cpp): the [--check] mode; [Startup] compares its
      verdict with what [runServer] does on the machine that was checked.
    - [WaitUntil] (server/platform/wait_until.hpp): polling with a deadline.
    - [SendFormat], [SendTime], [SendOptions], [SendMain] (send): the datagrams and
      their timestamps, the command line and the run of minilog-send.

    ** How C++ is represented

    A string is a list of bytes. A call is a value of [M]: it returns, throws one
    of the exceptions of [exn], or is [UB]: an access out of bounds, a view
    shortened past its end, or a loop of the model without fuel. A theorem that a
    call returns ([= Ret _]) thus excludes all three. Fuel is one more than the
    length of what a loop consumes (parser, escaping, splitting), the digits of a
    PRI, or the rounds of [WaitUntil.rounds]; loops over a list or a count are
    structural. Unsigned members wrap where the code's do ([u64]). State is passed
    explicitly; a handler that reads and writes members and files is in [LogFile]'s
    monad [IO]. Time is an integer of nanoseconds that events and calls are given.
    Whatever the program is told by the world (a send that failed, a clock, a name
    that resolved) is an argument, so that a theorem holds for every answer.

    ** What is proved

    - End to end, for one datagram in any state of the server:
      [UdpServer.datagram_reaches_files]; for the whole server under every schedule: [Delivery.datagrams_delivered] (each
      datagram is parsed once and handled in order by the sinks that want it),
      [Delivery.disk_is_the_log] (while no call fails the files are what the
      handled messages make of them), [DiskHistory.log_retained] (whatever fails,
      nothing written is lost before its generation is the oldest),
      [Readback.log_reads_back] (what a reader of the files finds),
      [Outages.losses_announced] (a message that is not written falls into an
      outage the log announced, with its true length),
      [Forwarding.datagrams_forwarded], [Completion.backlog_clears],
      [Shutdown.memory_bounded] and [Shutdown.shutdown_drains].
    - Sinks whose files are apart do not disturb each other: [Isolation.sink_confined],
      [Interleaving.sinks_interleave], [sink_alone], and at the grain of single
      calls [Threads.threads_atomic]; [own_directories_apart] is a
      simple sufficient condition, and [generations_collide] shows that the loader
      accepts sections which are not apart.
    - The parser returns for every datagram, and exactly what the grammar says:
      [ParserSpec.parseSyslog_total], [parseSyslog_grammar], [parseSyslog_fields].
      What minilog-send writes is read back: [SendFormat.buildDatagram_roundtrip],
      [SendTime.localNow_timestamp], and recorded: [EndToEnd.sent_is_recorded].
    - A text line is one line, printable and reversible, and JSON is valid UTF-8:
      [Escape.escape_one_line], [escape_reversible], [sanitizeUtf8_exact],
      [sanitizeUtf8_valid].
    - A sink keeps its invariant whatever fails, writes exactly its records, keeps
      every rotated byte, bounds its files, comes back after an outage and stays
      closed after a shutdown: [Sinks], [Rotation]. An exception in the middle of a
      handler leaves the sink as its invariant says, out of service with a retry
      pending; one in the catch block may leave it silenced, closed without a
      retry: [Exceptions.exceptions_contained].
    - Every accepted message is handled once, in order: [OutputManager].
    - The memory budget holds under every interleaving, and every drop is counted in
      a line of the log or still to be, the counts being those a reader of the lines
      finds: [Admission], [Linearization.admit_linearizes], [UdpServer.udp_accounts];
      the server keeps listening unless memory runs out: [UdpServer.udp_listens],
      [oom_stops_listening].
    - Reports are rate limited and no error goes uncounted: [Backoff]. What is
      logged is seen: [SystemLog.system_log_exact].
    - The time stamps of records are dates of the Gregorian calendar and sort as
      the times do: [Timestamp.currentTimestamp_sorts].
    - Forwarding never gets stuck, sends what is selected in order once the
      destination is known, and then says how many messages came too early; a stop
      before that leaves them unannounced: [Forwarder],
      [Forwarding.datagrams_forwarded].
    - A configuration is accepted exactly when valid, with every bound the server
      relies on: [ConfigSpec].
    - A start succeeds exactly when every step does, and the exit statuses tell the
      truth: [Server], [Main], [SendMain], [SendOptions]; a service that cannot begin
      (no control handler, no stop event) is the one failure that logs nothing. What
      --check says of a start, and when it is wrong: [Startup]. --stop, --install,
      --uninstall and the reports to the service manager: [ServiceControl], [Service].

    The supporting theorems [Rotation.unlimited_keeps_1001] and
    [Rotation.beyond_limit_untouched] show where the rotation differs from its
    documentation, and [Retention.rotation_erodes] that an active file which can
    not be renamed costs all its older generations, one per attempt.
    [Exceptions.second_exception_silences]: a sink whose catch block throws in its
    turn, before the retry is armed, stays closed until the next start.
    [Startup.unbindable_passes]: a check that passes before a start that fails.

    ** What is not modelled

    The service manager's own behaviour, which appears as what its calls answer;
    the conversion of the executable's path from wide characters; the help texts;
    Boost's own code (property trees, JSON, Program_options, Asio), which appears
    through classes and arguments; the web viewer (Go) and the command-line viewer
    (Python), which are other programs. The readings of the system clock are
    arguments. In [Process] a handler runs to its end before the next: that the
    handlers of one strand do not overlap is Asio's promise; handlers of different
    sinks may, and [Threads] shows that they are atomic to each other; what the
    receive handler and the workers share is the atomic state of [Admission],
    where [Linearization] shows the same; the forwarder shares nothing. The clock
    does not move within one handler, and the order of the system log's lines
    between threads is not followed: each part keeps its own lines. A handler of
    [Process] runs whole; exceptions are those of [Exceptions], for each sink, and
    the memory that runs out in the receive handler. The end of the wait for a stop
    is one step of [Process] ([YShutdown]), which comes once
    ([Service.stop_called_once]). A failed start is what it logs and returns and the
    close handlers it posted, which nothing runs; the destructors that then close the
    files are not modelled. The atomics of [Admission] are sequentially consistent,
    while every operation of the code on them is relaxed: C++ orders the exchanges
    of one atomic, which is what the budget rests on, but that a load sees the latest
    value, and the order across the counters, are assumptions of the model. Paths
    have [/] between their elements and are not normalised ([rotatedPath],
    [parent_path]); std::filesystem knows the separators of Windows as well. *)

(** ** Shared vocabulary *)

From Stdlib Require Export ZArith Lia.
From Stdlib Require Export Strings.Byte.
From stdpp Require Export base tactics list numbers strings gmap.

#[global] Open Scope Z_scope.

#[global] Arguments Nat.ltb : simpl never.
#[global] Arguments Nat.leb : simpl never.
#[global] Arguments Z.mul : simpl never.
#[global] Arguments Z.add : simpl never.
#[global] Arguments Z.sub : simpl never.
#[global] Arguments Z.pow : simpl never.
#[global] Arguments Z.div : simpl never.
#[global] Arguments Z.modulo : simpl never.
#[global] Arguments Z.leb : simpl never.
#[global] Arguments Z.ltb : simpl never.
#[global] Arguments Z.eqb : simpl never.
#[global] Arguments Z.of_nat : simpl never.
#[global] Arguments Z.to_nat : simpl never.

(** ** Bytes and byte strings *)

(** [std::string] and [std::string_view] are both sequences of bytes. *)
Abbreviation bytes := (list byte).

#[export] Instance byte_eq_dec : EqDecision byte := Byte.byte_eq_dec.

#[export] Instance byte_countable : Countable byte :=
  inj_countable Byte.to_N Byte.of_N Byte.of_to_N.

(** A string literal of the source. *)
Definition lit (s : string) : bytes := String.list_byte_of_string s.
#[global] Arguments lit : simpl never.

(** [static_cast<unsigned char>(c)], as an integer. *)
Definition bval (c : byte) : Z := Z.of_N (Byte.to_N c).

(** The byte with a given code, modulo 256. *)
Definition byte_of_Z (z : Z) : byte :=
  match Byte.of_N (Z.to_N (z mod 256)) with Some c => c | None => x00 end.

(** The C++ lengths, as integers. *)
Definition zlen {A} (s : list A) : Z := Z.of_nat (length s).
Lemma zlen_nonneg {A} (s : list A) : 0 <= zlen s.
Proof. apply Nat2Z.is_nonneg. Qed.

(** [<cctype>] in the "C" locale. *)
Definition isdigit (c : byte) : bool := (48 <=? bval c) && (bval c <=? 57).
Definition isspace (c : byte) : bool :=
  (bval c =? 32) || ((9 <=? bval c) && (bval c <=? 13)).
Definition isupper (c : byte) : bool := (65 <=? bval c) && (bval c <=? 90).
Definition tolower (c : byte) : byte :=
  if isupper c then byte_of_Z (bval c + 32) else c.

(** A cons seen as the end of what precedes it, for a cursor that moves past it. *)
Lemma app_snoc {A} (l : list A) x k : l ++ x :: k = (l ++ [x]) ++ k.
Proof. by rewrite <- app_assoc. Qed.
Lemma length_snoc {A} (l : list A) x : length (l ++ [x]) = S (length l).
Proof. rewrite length_app. cbn. lia. Qed.

(** ** Outcomes of C++ code *)

(** [<cstdlib>] *)
Definition EXIT_SUCCESS : Z := 0.
Definition EXIT_FAILURE : Z := 1.

(** What is written to the system log: [osLogError] and [osLogInfo] (SystemLog.v). *)
Inductive LogLevel := LError | LInfo.
#[export] Instance LogLevel_eq_dec : EqDecision LogLevel.
Proof. solve_decision. Defined.
Abbreviation LogLine := (LogLevel * bytes)%type.

(** The exception classes the source throws or catches by name. *)
Inductive exn : Type :=
| RuntimeError (what : bytes)
| InvalidArgument (what : bytes)
| OutOfRange (what : bytes)
| UsageError (what : bytes).

(** [e.what()] *)
Definition exn_what (e : exn) : bytes :=
  match e with RuntimeError w | InvalidArgument w | OutOfRange w | UsageError w => w end.

(** A call returns, throws, or has undefined behaviour (an access outside a
    string, a [string_view] shortened past its end). A loop of the model that
    runs out of fuel is [UB] too, so that a theorem that a call returns covers
    both. *)
Inductive M (A : Type) : Type :=
| Ret (a : A)
| Throw (e : exn)
| UB.
Arguments Ret {A} a.
Arguments Throw {A} e.
Arguments UB {A}.

#[export] Instance M_ret : MRet M := @Ret.
#[export] Instance M_bind : MBind M := fun A B f m =>
  match m with Ret a => f a | Throw e => Throw e | UB => UB end.

(** [try { m } catch (...) { h }]. *)
Definition try_catch {A} (m : M A) (h : exn → M A) : M A :=
  match m with Ret a => Ret a | Throw e => h e | UB => UB end.

(** Short-circuit [a || b] and [a && b] where the right operand reads memory. *)
Declare Scope cpp_scope.
Delimit Scope cpp_scope with cpp.
Notation "a '||?' m" := (if a : bool then mret true else m)
  (at level 50, left associativity) : cpp_scope.
Notation "a '&&?' m" := (if a : bool then m else mret false)
  (at level 40, left associativity) : cpp_scope.
#[global] Open Scope cpp_scope.

(** [assert(cond)]: the process aborts when it fails. *)
Definition cpp_assert (b : bool) : M unit := if b then Ret tt else UB.

(** [while (cond) body], with fuel. *)
Fixpoint while_loop {S} (fuel : nat) (cond : S → M bool) (body : S → M S) (s : S) : M S :=
  match fuel with
  | O => UB
  | S f => b ← cond s;
           if (b : bool) then s' ← body s; while_loop f cond body s' else mret s
  end.

#[global] Arguments while_loop : simpl never.

Lemma while_loop_S {S} f (cond : S → M bool) body s :
  while_loop (Datatypes.S f) cond body s =
  (b ← cond s; if (b : bool) then s' ← body s; while_loop f cond body s' else mret s).
Proof. reflexivity. Qed.

Lemma bind_Ret_inv {A B} (m : M A) (f : A → M B) b :
  m ≫= f = Ret b → ∃ a, m = Ret a ∧ f a = Ret b.
Proof. destruct m; cbn; intros; simplify_eq; eauto. Qed.

Lemma bind_Throw_inv {A B} (m : M A) (f : A → M B) e :
  m ≫= f = Throw e → m = Throw e ∨ ∃ a, m = Ret a ∧ f a = Throw e.
Proof. destruct m; cbn; intros; simplify_eq; eauto. Qed.

(** [m] returns a value satisfying [P] or throws [std::runtime_error]. *)
Definition yields {A} (m : M A) (P : A → Prop) : Prop :=
  match m with
  | Ret a => P a
  | Throw (RuntimeError _) => True
  | _ => False
  end.

Lemma yields_ret {A} (a : A) P : P a → yields (mret a) P.
Proof. done. Qed.
Lemma yields_throw {A} what (P : A → Prop) : yields (Throw (RuntimeError what)) P.
Proof. done. Qed.
Lemma yields_bind {A B} (m : M A) (f : A → M B) P Q :
  yields m P → (∀ a, P a → yields (f a) Q) → yields (m ≫= f) Q.
Proof. destruct m as [a|[]|]; cbn; auto. Qed.
Lemma yields_impl {A} (m : M A) (P Q : A → Prop) : yields m P → (∀ a, P a → Q a) → yields m Q.
Proof. destruct m as [a|[]|]; cbn; auto. Qed.
Lemma yields_Ret {A} (m : M A) P a : yields m P → m = Ret a → P a.
Proof. by intros H ->. Qed.
Lemma yields_cases {A} (m : M A) P :
  yields m P → (∃ a, m = Ret a ∧ P a) ∨ (∃ what, m = Throw (RuntimeError what)).
Proof. destruct m as [a|[]|]; cbn; eauto; done. Qed.

(** A step made only when the optional is set. *)
Definition when_some {A} (o : option A) (k : A → M unit) : M unit :=
  match o with Some a => k a | None => mret tt end.
Definition opt_all {A} (P : A → Prop) (o : option A) : Prop :=
  match o with Some a => P a | None => True end.

(** [m] is a check of [P]: it returns when [P] holds and throws
    [std::runtime_error] when it does not. *)
Definition validates (m : M unit) (P : Prop) : Prop :=
  (m = Ret tt ∧ P) ∨ (∃ what, m = Throw (RuntimeError what) ∧ ¬ P).

Lemma validates_bind m k P Q :
  validates m P → (P → validates k Q) → validates (m;; k) (P ∧ Q).
Proof.
  intros [[-> HP]|(w & -> & HP)] Hk; [|right; exists w; tauto].
  destruct (Hk HP) as [[-> HQ]|(w & -> & HQ)]; [by left|right; exists w; tauto].
Qed.
Lemma validates_iff m P Q : validates m P → (P ↔ Q) → validates m Q.
Proof. intros [[-> HP]|(w & -> & HP)] H; [left|right; exists w]; tauto. Qed.
Lemma validates_throw (b : bool) what :
  validates (if b then Throw (RuntimeError what) else mret tt) (b = false).
Proof. destruct b; [right; by exists what|by left]. Qed.
Lemma validates_ok (b : bool) what :
  validates (if b then mret tt else Throw (RuntimeError what)) (b = true).
Proof. destruct b; [by left|right; by exists what]. Qed.
Lemma when_some_validates {A} (o : option A) k P :
  (∀ a, validates (k a) (P a)) → validates (when_some o k) (opt_all P o).
Proof. intros Hk. destruct o; [apply Hk|by left]. Qed.
Lemma validates_Ret m P : validates m P → (m = Ret tt ↔ P).
Proof. intros [[-> ?]|(w & -> & ?)]; split; done. Qed.

(** A check, seen as a call that yields its property. *)
Lemma validates_yields m P : validates m P → yields m (λ _, P).
Proof. by intros [[-> ?]|(w & -> & ?)]. Qed.
Lemma yields_check {B} m (k : M B) P Q :
  validates m P → (P → yields k Q) → yields (m;; k) Q.
Proof. intros Hm Hk. eapply yields_bind; [by apply validates_yields|]. auto. Qed.

Create HintDb validates.
#[export] Hint Extern 1 (validates (if _ then Throw _ else _) _) =>
  apply validates_throw : validates.
#[export] Hint Extern 1 (validates (if _ then _ else Throw _) _) =>
  apply validates_ok : validates.

(** Splits a sequence of checks; the leaves are closed by the [validates] hints. *)
Ltac split_checks :=
  repeat first
    [ apply validates_bind; [|intros _]
    | apply when_some_validates; intros ?
    | solve [eauto with validates] ].

(** Total correctness of a loop from an invariant and a decreasing measure. *)
Lemma while_loop_total {S} (I : S → Prop) (μ : S → nat) cond body :
  (∀ s, I s → ∃ b, cond s = Ret b ∧
     (b = true → ∃ s', body s = Ret s' ∧ I s' ∧ (μ s' < μ s)%nat)) →
  ∀ fuel s, (μ s < fuel)%nat → I s →
  ∃ s', while_loop fuel cond body s = Ret s' ∧ I s' ∧ cond s' = Ret false.
Proof.
  intros Hstep fuel; induction fuel as [|f IH]; intros s Hf HI; [lia|].
  destruct (Hstep s HI) as ([|] & Hc & Hb); rewrite while_loop_S, Hc; cbn.
  - destruct (Hb eq_refl) as (s' & -> & HI' & Hμ); cbn. apply IH; [lia|done].
  - eauto.
Qed.

(** ** Byte facts *)

Lemma bval_range c : 0 <= bval c <= 255.
Proof. unfold bval. pose proof (Byte.to_N_bounded c). lia. Qed.

Lemma bval_inj c d : bval c = bval d → c = d.
Proof.
  unfold bval. intros H. apply N2Z.inj in H.
  pose proof (Byte.of_to_N c) as Hc. rewrite H, Byte.of_to_N in Hc. congruence.
Qed.

Lemma byte_of_Z_bval c : byte_of_Z (bval c) = c.
Proof.
  unfold byte_of_Z. rewrite Z.mod_small by (pose proof (bval_range c); lia).
  unfold bval. by rewrite N2Z.id, Byte.of_to_N.
Qed.

Lemma bval_byte_of_Z z : 0 <= z <= 255 → bval (byte_of_Z z) = z.
Proof.
  intros Hz. unfold byte_of_Z. rewrite Z.mod_small by lia.
  destruct (Byte.of_N (Z.to_N z)) as [c|] eqn:E.
  - apply Byte.to_of_N in E. unfold bval. lia.
  - apply Byte.of_N_None_iff in E. lia.
Qed.

(** A decidable fact about one byte is checked on the 256 of them. *)
Lemma forall_byte (P : byte → Prop) {dec : ∀ c, Decision (P c)} :
  forallb (λ n, match Byte.of_N (N.of_nat n) with
                | Some c => bool_decide (P c) | None => false end)
          (seq 0 256) = true → ∀ c, P c.
Proof.
  intros H c. rewrite forallb_forall in H.
  specialize (H (Byte.to_nat c)). rewrite Byte.to_nat_via_N in H.
  rewrite N2Nat.id, Byte.of_to_N in H. eapply bool_decide_eq_true_1, H, in_seq.
  pose proof (Byte.to_N_bounded c). lia.
Qed.

(** Proves a goal [∀ c : byte, P c] by evaluation. *)
Ltac by_bytes := refine (forall_byte _ _); vm_compute; reflexivity.

Lemma tolower_idemp c : tolower (tolower c) = tolower c.
Proof. revert c. by_bytes. Qed.

(** ** Prefixes by predicate, and the [while (p < size && f(s[p])) ++p] loop *)

Fixpoint take_while {A} (f : A → bool) (l : list A) : list A :=
  match l with [] => [] | x :: l' => if f x then x :: take_while f l' else [] end.
Fixpoint drop_while {A} (f : A → bool) (l : list A) : list A :=
  match l with [] => [] | x :: l' => if f x then drop_while f l' else l end.

Section take_while.
Context {A : Type} (f : A → bool).
Implicit Types l k : list A.

Lemma take_drop_while l : take_while f l ++ drop_while f l = l.
Proof. induction l as [|x l IH]; cbn; [done|]. destruct (f x); cbn; congruence. Qed.

Lemma take_while_Forall l : Forall (λ x, f x = true) (take_while f l).
Proof. induction l as [|x l IH]; cbn; [done|]. destruct (f x) eqn:?; by constructor. Qed.

Lemma drop_while_head l x k : drop_while f l = x :: k → f x = false.
Proof.
  induction l as [|y l IH]; cbn; [done|].
  destruct (f y) eqn:E; [done|]. by intros [= -> ->].
Qed.

Lemma drop_while_drop l : drop_while f l = drop (length (take_while f l)) l.
Proof. induction l as [|x l IH]; cbn; [done|]. by destruct (f x). Qed.

Lemma take_while_take l : take_while f l = take (length (take_while f l)) l.
Proof. induction l as [|x l IH]; cbn; [done|]. destruct (f x); cbn; congruence. Qed.

Lemma length_take_while l : (length (take_while f l) ≤ length l)%nat.
Proof. induction l as [|x l IH]; cbn; [lia|]. destruct (f x); cbn; lia. Qed.

(** The longest prefix is found where it ends. *)
Lemma take_while_app l k :
  Forall (λ x, f x = true) l → (∀ x k', k = x :: k' → f x = false) →
  take_while f (l ++ k) = l.
Proof.
  intros Hl Hk. induction Hl as [|x l Hx Hl IH]; cbn; [|by rewrite Hx, IH].
  destruct k as [|y k]; cbn; [done|]. by rewrite (Hk y k eq_refl).
Qed.

Lemma drop_while_app l k :
  Forall (λ x, f x = true) l → (∀ x k', k = x :: k' → f x = false) →
  drop_while f (l ++ k) = k.
Proof.
  intros Hl Hk. rewrite drop_while_drop, take_while_app by done.
  by rewrite drop_app_length.
Qed.
End take_while.

Lemma forallb_Forall {A} (f : A → bool) l :
  forallb f l = true ↔ Forall (λ x, f x = true) l.
Proof.
  induction l as [|x l IH]; cbn; [by split|]. by rewrite andb_true_iff, Forall_cons, IH.
Qed.
Lemma existsb_Forall {A} (f : A → bool) l :
  existsb f l = false ↔ Forall (λ x, f x = false) l.
Proof.
  induction l as [|x l IH]; cbn; [by split|]. by rewrite orb_false_iff, Forall_cons, IH.
Qed.

(** ** [std::string_view] operations *)

Definition sv_at (sv : bytes) (i : nat) : M byte :=
  match sv !! i with Some c => Ret c | None => UB end.
Definition sv_back (sv : bytes) : M byte :=
  match last sv with Some c => Ret c | None => UB end.
Definition sv_empty (sv : bytes) : bool := match sv with [] => true | _ => false end.
Definition remove_prefix (n : nat) (sv : bytes) : M bytes :=
  if (n <=? length sv)%nat then Ret (drop n sv) else UB.
Definition remove_suffix (n : nat) (sv : bytes) : M bytes :=
  if (n <=? length sv)%nat then Ret (take (length sv - n) sv) else UB.
Definition substr (pos n : nat) (sv : bytes) : M bytes :=
  if (pos <=? length sv)%nat then Ret (take n (drop pos sv))
  else Throw (OutOfRange (lit "basic_string_view::substr")).

(** [a - b] on [size_t]; the model refuses a subtraction that would wrap. *)
Definition size_sub (a b : nat) : M nat := if (b <=? a)%nat then Ret (a - b)%nat else UB.

(** [sv.find(c)]; [None] is [npos]. *)
Fixpoint sv_find (c : byte) (sv : bytes) : option nat :=
  match sv with
  | [] => None
  | d :: sv' => if decide (d = c) then Some O else S <$> sv_find c sv'
  end.

(** The position after the bytes from [p] that satisfy [f]. *)
Definition scan (f : byte → bool) (sv : bytes) (p : nat) : M nat :=
  while_loop (S (length sv))
    (λ p, if (p <? length sv)%nat then c ← sv_at sv p; mret (f c) else mret false)
    (λ p, mret (S p)) p.

Lemma sv_at_drop sv p c k : drop p sv = c :: k → sv_at sv p = Ret c.
Proof.
  intros H. unfold sv_at. rewrite <- (take_drop p sv), H.
  assert (p < length sv)%nat.
  { destruct (decide (p < length sv)%nat); [done|]. rewrite drop_ge in H by lia. done. }
  by rewrite list_lookup_middle by (rewrite length_take; lia).
Qed.

Lemma sv_at_lt sv p : (p < length sv)%nat → ∃ c, sv_at sv p = Ret c ∧ sv !! p = Some c.
Proof.
  intros H. destruct (lookup_lt_is_Some_2 sv p H) as [c Hc].
  exists c. unfold sv_at. by rewrite Hc.
Qed.

Lemma remove_prefix_app l k : remove_prefix (length l) (l ++ k) = Ret k.
Proof.
  unfold remove_prefix. rewrite length_app. destruct (Nat.leb_spec (length l) (length l + length k)).
  - by rewrite drop_app_length.
  - lia.
Qed.

Lemma remove_prefix_1 c k : remove_prefix 1 (c :: k) = Ret k.
Proof. apply (remove_prefix_app [c] k). Qed.

Lemma substr_prefix l k : substr 0 (length l) (l ++ k) = Ret l.
Proof. unfold substr. cbn. by rewrite drop_0, take_app_length. Qed.

Lemma substr_middle l m k : substr (length l) (length m) (l ++ m ++ k) = Ret m.
Proof.
  unfold substr. rewrite length_app, drop_app_length, take_app_length.
  by destruct (Nat.leb_spec (length l) (length l + length (m ++ k))); [|lia].
Qed.

Lemma remove_prefix_le n l : (n ≤ length l)%nat → remove_prefix n l = Ret (drop n l).
Proof. unfold remove_prefix. intros. by destruct (Nat.leb_spec n (length l)); [|lia]. Qed.

Lemma substr_le p n l : (p ≤ length l)%nat → substr p n l = Ret (take n (drop p l)).
Proof. unfold substr. intros. by destruct (Nat.leb_spec p (length l)); [|lia]. Qed.

Lemma scan_spec f sv p :
  (p ≤ length sv)%nat →
  scan f sv p = Ret (p + length (take_while f (drop p sv)))%nat.
Proof.
  unfold scan. intros Hp.
  assert (∀ fuel p, (p ≤ length sv)%nat → (length sv - p < fuel)%nat →
    while_loop fuel
      (λ p, if (p <? length sv)%nat then c ← sv_at sv p; mret (f c) else mret false)
      (λ p, mret (S p)) p = Ret (p + length (take_while f (drop p sv)))%nat) as Hgen.
  2: { apply Hgen; lia. }
  clear p Hp. induction fuel as [|fuel IH]; intros p Hp Hf; [lia|].
  rewrite while_loop_S. destruct (Nat.ltb_spec p (length sv)) as [Hlt|Hge].
  - destruct (drop p sv) as [|c k] eqn:E.
    { apply (f_equal length) in E. rewrite length_drop in E. cbn in E. lia. }
    rewrite (sv_at_drop _ _ _ _ E). cbn. destruct (f c); cbn; [|f_equal; lia].
    rewrite IH by lia.
    assert (drop (S p) sv = k) as -> by (by rewrite <- Nat.add_1_r, <- drop_drop, E).
    f_equal. lia.
  - rewrite drop_ge by lia. cbn. f_equal. lia.
Qed.

Lemma sv_find_Some c sv i :
  sv_find c sv = Some i ↔ (∃ l k, sv = l ++ (c :: k) ∧ (c ∉ l) ∧ length l = i).
Proof.
  revert i. induction sv as [|d sv IH]; intros i; cbn.
  { split; [done|]. intros ([|??] & ? & ? & ?); simplify_list_eq. }
  destruct (decide (d = c)) as [->|Hne].
  - split.
    + intros [= <-]. exists [], sv. split_and!; [done| |done]. apply not_elem_of_nil.
    + intros ([|x l] & k & H & Hnin & <-); [done|]. simplify_list_eq.
      exfalso. apply Hnin. by left.
  - rewrite fmap_Some. split.
    + intros (j & Hj & ->). apply IH in Hj as (l & k & -> & Hnin & <-).
      exists (d :: l), k. split_and!; [done| |done]. by apply not_elem_of_cons.
    + intros ([|x l] & k & H & Hnin & <-); simplify_list_eq.
      apply not_elem_of_cons in Hnin as [? ?].
      exists (length l). split; [|done]. apply IH. eauto.
Qed.

(** [s.find(c) != npos] *)
Definition contains_byte (c : byte) (s : bytes) : bool := bool_decide (is_Some (sv_find c s)).

Lemma sv_find_None c sv : sv_find c sv = None ↔ c ∉ sv.
Proof.
  induction sv as [|d sv IH]; cbn.
  - split; [intros _; apply not_elem_of_nil|done].
  - rewrite not_elem_of_cons. destruct (decide (d = c)) as [->|Hne].
    + split; [done|]. intros [? _]. done.
    + rewrite fmap_None, IH. split; [by split|by intros [_ ?]].
Qed.

Lemma sv_find_app c l k : c ∉ l → sv_find c (l ++ c :: k) = Some (length l).
Proof. intros. apply sv_find_Some. eauto. Qed.

Lemma sv_find_lt c sv i : sv_find c sv = Some i → (i < length sv)%nat.
Proof.
  intros (l & k & -> & _ & <-)%sv_find_Some. rewrite length_app. cbn. lia.
Qed.

(** ** Decimal numbers *)

(** [std::to_string] of a non-negative integer. *)
Fixpoint to_string_go (fuel : nat) (n : Z) (acc : bytes) : bytes :=
  match fuel with
  | O => acc
  | S f => let acc' := byte_of_Z (48 + n mod 10) :: acc in
           if n <? 10 then acc' else to_string_go f (n / 10) acc'
  end.
Definition to_string_nat (n : Z) : bytes := to_string_go (S (Z.to_nat (Z.log2 n))) n [].

(** [std::to_string] of any integer. *)
Definition to_string (n : Z) : bytes :=
  if n <? 0 then "-"%byte :: to_string_nat (- n) else to_string_nat n.

(** The value accumulated over digits, [acc = acc * 10 + (c - '0')]. *)
Definition dec_step (acc : Z) (c : byte) : Z := acc * 10 + (bval c - 48).
Definition dec_value (ds : bytes) : Z := foldl dec_step 0 ds.

Lemma isdigit_bval c : isdigit c = true ↔ 48 <= bval c <= 57.
Proof. unfold isdigit. rewrite andb_true_iff, !Z.leb_le. lia. Qed.

Lemma foldl_dec_step ds a : foldl dec_step a ds = a * 10 ^ zlen ds + dec_value ds.
Proof.
  unfold dec_value. revert a. induction ds as [|c ds IH] using rev_ind; intros a.
  - cbn. change (zlen (@nil byte)) with 0. lia.
  - rewrite !foldl_app. cbn. rewrite IH. unfold dec_step at 1 3, zlen.
    rewrite length_app. cbn. rewrite Nat2Z.inj_add, Z.pow_add_r by lia.
    change (10 ^ Z.of_nat 1) with 10. unfold zlen. lia.
Qed.

Lemma dec_value_app ds es : dec_value (ds ++ es) = dec_value ds * 10 ^ zlen es + dec_value es.
Proof. unfold dec_value at 1. by rewrite foldl_app, foldl_dec_step. Qed.

Lemma dec_value_cons c ds : dec_value (c :: ds) = (bval c - 48) * 10 ^ zlen ds + dec_value ds.
Proof. change (c :: ds) with ([c] ++ ds). rewrite dec_value_app. f_equal. Qed.

Lemma dec_value_bound ds :
  Forall (λ c, isdigit c = true) ds → 0 <= dec_value ds < 10 ^ zlen ds.
Proof.
  induction 1 as [|c ds Hc _ IH]; [done|]. apply isdigit_bval in Hc.
  rewrite dec_value_cons. unfold zlen in *. cbn [length].
  rewrite Nat2Z.inj_succ, Z.pow_succ_r by lia. nia.
Qed.

Lemma to_string_go_spec fuel n acc :
  0 <= n < 10 ^ Z.of_nat fuel → (0 < fuel)%nat →
  ∃ ds, to_string_go fuel n acc = ds ++ acc ∧ ds ≠ [] ∧
    Forall (λ c, isdigit c = true) ds ∧ dec_value ds = n ∧
    (zlen ds = 1 ∨ 10 ^ (zlen ds - 1) <= n).
Proof.
  revert n acc. induction fuel as [|f IH]; intros n acc Hn Hf; [lia|]. cbn.
  assert (Hd : bval (byte_of_Z (48 + n mod 10)) = 48 + n mod 10).
  { apply bval_byte_of_Z. pose proof (Z.mod_pos_bound n 10). lia. }
  assert (Hdig : isdigit (byte_of_Z (48 + n mod 10)) = true).
  { apply isdigit_bval. rewrite Hd. pose proof (Z.mod_pos_bound n 10). lia. }
  destruct (Z.ltb_spec n 10) as [Hs|Hs].
  - exists [byte_of_Z (48 + n mod 10)]. split_and!; [done|done|by repeat constructor| |by left].
    cbn. unfold dec_step. rewrite Hd, Z.mod_small; lia.
  - rewrite Nat2Z.inj_succ, Z.pow_succ_r in Hn by lia.
    assert (0 < f)%nat by (destruct f; [cbn in Hn; lia|lia]).
    destruct (IH (n / 10) (byte_of_Z (48 + n mod 10) :: acc))
      as (ds & -> & Hne & Hds & Hv & Hl); [|done|].
    { split; [apply Z.div_pos; lia|apply Z.div_lt_upper_bound; lia]. }
    exists (ds ++ [byte_of_Z (48 + n mod 10)]). split_and!.
    + by rewrite <- app_assoc.
    + by destruct ds.
    + apply Forall_app; split; [done|by repeat constructor].
    + rewrite dec_value_app, Hv. cbn. unfold dec_step. rewrite Hd.
      change (10 ^ zlen [byte_of_Z (48 + n mod 10)]) with 10.
      pose proof (Z.div_mod n 10). lia.
    + right. unfold zlen in *. rewrite length_app. cbn.
      replace (Z.of_nat (length ds + 1) - 1) with (Z.of_nat (length ds)) by lia.
      assert (0 < length ds)%nat by (destruct ds; cbn; [done|lia]).
      pose proof (Z.div_mod n 10). pose proof (Z.mod_pos_bound n 10).
      destruct Hl as [Hl|Hl].
      * rewrite Hl. lia.
      * replace (Z.of_nat (length ds)) with (Z.succ (Z.of_nat (length ds) - 1)) by lia.
        rewrite Z.pow_succ_r by lia. lia.
Qed.

Lemma to_string_nat_spec n :
  0 <= n →
  to_string n ≠ [] ∧ Forall (λ c, isdigit c = true) (to_string n) ∧
  dec_value (to_string n) = n ∧ (zlen (to_string n) = 1 ∨ 10 ^ (zlen (to_string n) - 1) <= n).
Proof.
  intros Hn. unfold to_string, to_string_nat.
  destruct (Z.ltb_spec n 0); [lia|].
  destruct (to_string_go_spec (S (Z.to_nat (Z.log2 n))) n [])
    as (ds & -> & ?); [|lia|by rewrite app_nil_r].
  split; [done|]. rewrite Nat2Z.inj_succ, Z2Nat.id by apply Z.log2_nonneg.
  destruct (decide (n = 0)) as [->|]; [done|].
  pose proof (Z.log2_spec n). pose proof (Z.log2_nonneg n).
  eapply Z.lt_le_trans; [apply Z.log2_spec; lia|].
  apply Z.pow_le_mono_l. lia.
Qed.

(** A number below [10 ^ k] prints in at most [k] digits. *)
Lemma to_string_length n k : 0 <= n < 10 ^ k → 1 <= k → zlen (to_string n) <= k.
Proof.
  intros Hn Hk. destruct (to_string_nat_spec n) as (_ & _ & _ & [->|Hl]); [lia|done|].
  destruct (Z_le_gt_dec (zlen (to_string n)) k) as [|Hgt]; [done|].
  assert (10 ^ k <= 10 ^ (zlen (to_string n) - 1)) by (apply Z.pow_le_mono_r; lia). lia.
Qed.

(** A fact about the integers of a small range is checked on each of them. *)
Lemma forall_range (P : Z → bool) lo n :
  forallb (λ k, P (lo + Z.of_nat k)) (seq 0 n) = true →
  ∀ v, lo <= v < lo + Z.of_nat n → P v = true.
Proof.
  intros H v Hv. rewrite forallb_forall in H. specialize (H (Z.to_nat (v - lo))).
  rewrite Z2Nat.id in H by lia. replace (lo + (v - lo)) with v in H by lia.
  apply H, in_seq. lia.
Qed.

(** Every byte of a printed number is a digit or a sign. *)
Lemma to_string_bytes n :
  to_string n ≠ [] ∧ Forall (λ c, isdigit c = true ∨ c = "-"%byte) (to_string n).
Proof.
  destruct (Z_lt_le_dec n 0) as [Hn|Hn].
  - unfold to_string. rewrite (proj2 (Z.ltb_lt _ _)) by lia.
    destruct (to_string_nat_spec (- n)) as (_ & Hd & _); [lia|].
    unfold to_string in Hd. rewrite (proj2 (Z.ltb_ge _ _)) in Hd by lia.
    split; [done|]. constructor; [by right|]. eapply Forall_impl; [exact Hd|]. by left.
  - destruct (to_string_nat_spec n) as (Hne & Hd & _); [lia|].
    split; [done|]. eapply Forall_impl; [exact Hd|]. by left.
Qed.

(** ** Counts in lines of the system log *)

(** What follows [p] in [s]. *)
Fixpoint after_prefix (p s : bytes) : option bytes :=
  match p, s with
  | [], _ => Some s
  | c :: p', d :: s' => if bool_decide (c = d) then after_prefix p' s' else None
  | _ :: _, [] => None
  end.
(** The number a text gives between [before] and [after], as a reader of it would. *)
Definition count_between (before after text : bytes) : option Z :=
  rest ← after_prefix before text;
  let ds := take_while isdigit rest in
  _ ← after_prefix after (drop_while isdigit rest);
  if sv_empty ds then None else Some (dec_value ds).

Lemma after_prefix_app_l p q s : after_prefix (p ++ q) (p ++ s) = after_prefix q s.
Proof. induction p as [|c p IH]; [done|]. cbn. by rewrite bool_decide_eq_true_2. Qed.
Lemma after_prefix_app p s : after_prefix p (p ++ s) = Some s.
Proof. pose proof (after_prefix_app_l p [] s) as H. by rewrite app_nil_r in H. Qed.

(** What was printed is read. *)
Lemma count_between_printed before after n rest :
  0 <= n → match after with c :: _ => isdigit c = false | [] => False end →
  count_between before after (before ++ to_string n ++ after ++ rest) = Some n.
Proof.
  intros Hn Ha. destruct (to_string_nat_spec n Hn) as (Hne & Hd & Hv & _). unfold count_between.
  rewrite after_prefix_app. cbn [mbind option_bind].
  assert (Hstop : ∀ x k', after ++ rest = x :: k' → isdigit x = false)
    by (destruct after; [done|]; by intros x k' [= <- _]).
  rewrite take_while_app, drop_while_app by done. rewrite after_prefix_app. cbn [mbind option_bind].
  destruct (to_string n); [done|]. cbn [sv_empty]. by rewrite Hv.
Qed.

(** ** Splitting at a byte *)

(** The pieces of [s] between the occurrences of [c]; always at least one. *)
Fixpoint split_on (c : byte) (s : bytes) : list bytes :=
  match s with
  | [] => [[]]
  | d :: s' =>
      if decide (d = c) then [] :: split_on c s'
      else match split_on c s' with h :: t => (d :: h) :: t | [] => [[d]] end
  end.

Lemma split_on_none c s : c ∉ s → split_on c s = [s].
Proof.
  induction s as [|d s IH]; cbn; [done|]. intros [Hd Hs]%not_elem_of_cons.
  rewrite decide_False by congruence. by rewrite IH.
Qed.

Lemma split_on_app c l k : c ∉ l → split_on c (l ++ c :: k) = l :: split_on c k.
Proof.
  induction l as [|d l IH]; cbn; [by rewrite decide_True|]. intros [Hd Hl]%not_elem_of_cons.
  rewrite decide_False by congruence. by rewrite IH.
Qed.

(** ** Machine integers and sums *)

(** [uint64_t] arithmetic. *)
Definition u64 (z : Z) : Z := z mod 2 ^ 64.

Lemma u64_range z : 0 <= u64 z < 2 ^ 64.
Proof. apply Z.mod_pos_bound. lia. Qed.
Lemma u64_small z : 0 <= z < 2 ^ 64 → u64 z = z.
Proof. apply Z.mod_small. Qed.
Lemma u64_add_l a b : u64 (u64 a + b) = u64 (a + b).
Proof. apply Z.add_mod_idemp_l. lia. Qed.
Lemma u64_add_r a b : u64 (a + u64 b) = u64 (a + b).
Proof. apply Z.add_mod_idemp_r. lia. Qed.

(** The sum of a weight over a list, as the list is updated in place. *)
Fixpoint zsum {A} (f : A → Z) (l : list A) : Z :=
  match l with [] => 0 | x :: l' => f x + zsum f l' end.

Lemma zsum_app {A} (f : A → Z) l k : zsum f (l ++ k) = zsum f l + zsum f k.
Proof. induction l as [|x l IH]; cbn; [lia|]. rewrite IH. lia. Qed.
Lemma zsum_insert {A} (f : A → Z) l i x y :
  l !! i = Some x → zsum f (<[i := y]> l) = zsum f l - f x + f y.
Proof.
  revert i. induction l as [|z l IH]; intros [|i] Hi; simplify_eq/=; [lia|].
  rewrite IH by done. lia.
Qed.
Lemma zsum_delete {A} (f : A → Z) l i x :
  l !! i = Some x → zsum f (delete i l) = zsum f l - f x.
Proof.
  revert i. induction l as [|z l IH]; intros [|i] Hi; simplify_eq/=; [lia|].
  rewrite IH by done. lia.
Qed.
Lemma zsum_nonneg {A} (f : A → Z) l : (∀ x, x ∈ l → 0 <= f x) → 0 <= zsum f l.
Proof.
  induction l as [|x l IH]; cbn; intros H; [lia|].
  pose proof (H x ltac:(by left)). assert (0 <= zsum f l) by (apply IH; intros; apply H; by right). lia.
Qed.
Lemma zsum_zero {A} (f : A → Z) l : Forall (λ x, f x = 0) l → zsum f l = 0.
Proof. induction 1 as [|x l Hx _ IH]; cbn; [done|]. lia. Qed.
Lemma zsum_lookup_le {A} (f : A → Z) l i x :
  (∀ x, x ∈ l → 0 <= f x) → l !! i = Some x → f x <= zsum f l.
Proof.
  intros Hf Hi. pose proof (zsum_delete f l i x Hi).
  assert (0 <= zsum f (delete i l)); [|lia]. apply zsum_nonneg. intros y Hy. apply Hf.
  rewrite delete_take_drop in Hy. apply elem_of_app in Hy as [Hy|Hy].
  - apply list_elem_of_lookup in Hy as [j Hj]. apply lookup_take_Some in Hj as [Hj _].
    by eapply list_elem_of_lookup_2.
  - apply list_elem_of_lookup in Hy as [j Hj]. rewrite lookup_drop in Hj.
    by eapply list_elem_of_lookup_2.
Qed.
