(* ===== verification/Lines.v ===== *)
(** * Texts made of lines

    What reads a log file or a terminal line by line: the lines of a text, each
    ended by a newline. *)

From S2P Require Import Prelude.

Definition unlines (ls : list bytes) : bytes := concat ((λ l, l ++ [x0a]) <$> ls).

(** The lines of a text, if its last line is ended too. *)
Fixpoint read_lines (s : bytes) : option (list bytes) :=
  match s with
  | [] => Some []
  | b :: s' =>
      ls ← read_lines s';
      if decide (b = x0a) then Some ([] :: ls)
      else match ls with l :: ls' => Some ((b :: l) :: ls') | [] => None end
  end.

Lemma read_lines_line l s ls : x0a ∉ l → read_lines s = Some ls → read_lines (l ++ x0a :: s) = Some (l :: ls).
Proof.
  intros Hl Hs. induction l as [|b l IH]; cbn; [by rewrite Hs|]. apply not_elem_of_cons in Hl as [Hb Hl].
  rewrite (IH Hl). cbn. by rewrite decide_False by congruence.
Qed.
Lemma read_unlines ls : Forall (λ l, x0a ∉ l) ls → read_lines (unlines ls) = Some ls.
Proof.
  induction 1 as [|l ls Hl _ IH]; [done|]. unfold unlines in *. cbn. rewrite <- app_assoc. by apply read_lines_line.
Qed.
Lemma read_lines_Some s ls : read_lines s = Some ls ↔ s = unlines ls ∧ Forall (λ l, x0a ∉ l) ls.
Proof.
  split; [|intros [-> Hl]; by apply read_unlines]. revert ls.
  induction s as [|b s IH]; intros ls; cbn; [by intros [= <-]|].
  destruct (read_lines s) as [ls1|]; cbn; [|done]. destruct (IH ls1 eq_refl) as [-> Hl1].
  destruct (decide (b = x0a)) as [->|Hb]; [intros [= <-]; split; [done|]; constructor; [apply not_elem_of_nil|done]|].
  destruct ls1 as [|l ls1]; [done|]. intros [= <-]. apply Forall_cons in Hl1 as [Hl Hl1]. split; [done|].
  constructor; [|done]. apply not_elem_of_cons. split; [congruence|done].
Qed.
Lemma unlines_app ls ks : unlines (ls ++ ks) = unlines ls ++ unlines ks.
Proof. unfold unlines. by rewrite fmap_app, concat_app. Qed.
Lemma read_lines_app s t ls ks : read_lines s = Some ls → read_lines t = Some ks → read_lines (s ++ t) = Some (ls ++ ks).
Proof.
  intros [-> Hl]%read_lines_Some [-> Hk]%read_lines_Some. apply read_lines_Some. split; [by rewrite unlines_app|].
  by apply Forall_app.
Qed.
Lemma read_lines_inj s t ls : read_lines s = Some ls → read_lines t = Some ls → s = t.
Proof. by intros [-> _]%read_lines_Some [-> _]%read_lines_Some. Qed.
