(* ===== verification/Names.v ===== *)
(** * Facility and severity names (src/src/server/parser/syslog_names.hpp)

    The two number-to-name tables written to the JSONL, the two alias tables
    read from a config file or a command line, and the case-insensitive lookup
    shared by both. *)

From S2P Require Import Prelude.

(** [kFacilityNames]: index is the numeric code. *)
Definition kFacilityNames : list bytes := lit <$>
  [ "kern"; "user"; "mail"; "daemon"; "auth"; "syslog"; "lpr"; "news";
    "uucp"; "clock"; "authpriv"; "ftp"; "ntp"; "audit"; "alert"; "clock2";
    "local0"; "local1"; "local2"; "local3"; "local4"; "local5"; "local6"; "local7" ].

Definition kSeverityNames : list bytes := lit <$>
  [ "EMERGENCY"; "ALERT"; "CRITICAL"; "ERROR"; "WARNING"; "NOTICE"; "INFO"; "DEBUG" ].

Definition alias (p : string * Z) : bytes * Z := (lit p.1, p.2).

Definition kFacilityAliases : list (bytes * Z) := alias <$>
  [ ("kern", 0); ("kernel", 0); ("user", 1); ("mail", 2); ("daemon", 3);
    ("system", 3); ("auth", 4); ("security", 4); ("syslog", 5); ("lpr", 6);
    ("news", 7); ("uucp", 8); ("clock", 9); ("cron", 9); ("authpriv", 10);
    ("ftp", 11); ("ntp", 12); ("audit", 13); ("logaudit", 13); ("alert", 14);
    ("logalert", 14); ("clock2", 15); ("local0", 16); ("local1", 17); ("local2", 18);
    ("local3", 19); ("local4", 20); ("local5", 21); ("local6", 22); ("local7", 23) ].

Definition kSeverityAliases : list (bytes * Z) := alias <$>
  [ ("emergency", 0); ("emerg", 0); ("panic", 0); ("alert", 1); ("critical", 2);
    ("crit", 2); ("error", 3); ("err", 3); ("warning", 4); ("warn", 4);
    ("notice", 5); ("info", 6); ("debug", 7); ("informational", 6) ].

(** The sizes are compared first; the loop then runs over both strings. *)
Fixpoint equalsIgnoreCase_loop (a b : bytes) : bool :=
  match a, b with
  | x :: a', y :: b' =>
      if decide (tolower x ≠ tolower y) then false else equalsIgnoreCase_loop a' b'
  | _, _ => true
  end.
Definition equalsIgnoreCase (a b : bytes) : bool :=
  if decide (length a ≠ length b) then false else equalsIgnoreCase_loop a b.

(** [detail::lookup]: the first alias equal to the name, case folded. *)
Fixpoint lookup_name (table : list (bytes * Z)) (name : bytes) : option Z :=
  match table with
  | [] => None
  | (al, code) :: rest => if equalsIgnoreCase al name then Some code else lookup_name rest name
  end.

Definition facilityFromName (name : bytes) : option Z := lookup_name kFacilityAliases name.
Definition severityFromName (name : bytes) : option Z := lookup_name kSeverityAliases name.

(** ** Facts *)

(** Case-insensitive equality is equality after folding. *)
Lemma equalsIgnoreCase_fold a b :
  equalsIgnoreCase a b = true ↔ tolower <$> a = tolower <$> b.
Proof.
  unfold equalsIgnoreCase. destruct (decide (length a ≠ length b)) as [Hl|Hl].
  - split; [done|]. intros H%(f_equal length). by rewrite !length_fmap in H.
  - apply dec_stable in Hl. revert b Hl.
    induction a as [|x a IH]; intros [|y b] Hl; cbn; try done.
    injection Hl as Hl.
    destruct (decide (tolower x ≠ tolower y)) as [Hne|He%dec_stable].
    + split; [done|]. by intros [= ? ?].
    + rewrite IH by done. rewrite He. split; [congruence|]. by intros [=].
Qed.

(** A lookup does not see the case of the name. *)
Lemma lookup_name_fold table n n' :
  tolower <$> n = tolower <$> n' → lookup_name table n = lookup_name table n'.
Proof.
  intros Hn. induction table as [|[al code] rest IH]; cbn; [done|].
  assert (equalsIgnoreCase al n = equalsIgnoreCase al n') as ->.
  { apply eq_true_iff_eq. rewrite !equalsIgnoreCase_fold. by rewrite Hn. }
  by rewrite IH.
Qed.

(** What is found is in the table, under a name equal up to case. *)
Lemma lookup_name_Some table n code :
  lookup_name table n = Some code →
  ∃ al, (al, code) ∈ table ∧ tolower <$> al = tolower <$> n.
Proof.
  induction table as [|[al c] rest IH]; cbn; [done|].
  destruct (equalsIgnoreCase al n) eqn:E.
  - intros [= ->]. exists al. split; [by left|]. by apply equalsIgnoreCase_fold.
  - intros (al' & Hin & ?)%IH. exists al'. split; [by right|done].
Qed.

Lemma lookup_name_range table lo hi n code :
  Forall (λ p, lo <= p.2 <= hi) table → lookup_name table n = Some code → lo <= code <= hi.
Proof.
  intros Hf (al & Hin & _)%lookup_name_Some. rewrite Forall_forall in Hf. by apply (Hf (al, code)).
Qed.

Lemma facility_aliases_range : Forall (λ p, 0 <= p.2 <= 23) kFacilityAliases.
Proof. apply (bool_decide_unpack _). vm_compute. exact I. Qed.
Lemma severity_aliases_range : Forall (λ p, 0 <= p.2 <= 7) kSeverityAliases.
Proof. apply (bool_decide_unpack _). vm_compute. exact I. Qed.

Lemma facilityFromName_range n f : facilityFromName n = Some f → 0 <= f <= 23.
Proof. apply lookup_name_range, facility_aliases_range. Qed.
Lemma severityFromName_range n s : severityFromName n = Some s → 0 <= s <= 7.
Proof. apply lookup_name_range, severity_aliases_range. Qed.

(** Every entry of a number-to-name table is found back at its own index. *)
Definition names_back (names : list bytes) (back : bytes → option Z) : Prop :=
  ∀ i nm, names !! i = Some nm → back nm = Some (Z.of_nat i).

Lemma names_back_check names back :
  imap (λ i nm, back nm) names = imap (λ i _, Some (Z.of_nat i)) names → names_back names back.
Proof.
  intros H i nm Hi.
  assert (imap (λ i nm, back nm) names !! i = imap (λ i _, Some (Z.of_nat i)) names !! i) as Hl
    by by rewrite H.
  rewrite !list_lookup_imap, Hi in Hl. cbn in Hl. congruence.
Qed.

Lemma kFacilityNames_back : names_back kFacilityNames facilityFromName.
Proof. apply names_back_check. vm_compute. reflexivity. Qed.
Lemma kSeverityNames_back : names_back kSeverityNames severityFromName.
Proof. apply names_back_check. vm_compute. reflexivity. Qed.

(** With no two aliases equal up to case, the first match is the only one. *)
Lemma lookup_name_iff table n code :
  NoDup ((λ p : bytes * Z, tolower <$> p.1) <$> table) →
  lookup_name table n = Some code ↔ (∃ al, (al, code) ∈ table ∧ tolower <$> al = tolower <$> n).
Proof.
  intros Hnd. split; [apply lookup_name_Some|]. intros (al & Hin & Hal).
  induction table as [|[al' c'] rest IH]; cbn in *; [by apply not_elem_of_nil in Hin|].
  apply NoDup_cons in Hnd as [Hnin Hnd].
  destruct (equalsIgnoreCase al' n) eqn:E.
  - apply equalsIgnoreCase_fold in E. apply elem_of_cons in Hin as [[= -> ->]|Hin]; [done|].
    exfalso. apply Hnin, list_elem_of_fmap. exists (al, code). split; [cbn; congruence|done].
  - apply elem_of_cons in Hin as [[= -> ->]|Hin]; [|by apply IH].
    apply equalsIgnoreCase_fold in Hal. congruence.
Qed.

Lemma facility_aliases_NoDup : NoDup ((λ p : bytes * Z, tolower <$> p.1) <$> kFacilityAliases).
Proof. apply (bool_decide_unpack _). vm_compute. exact I. Qed.
Lemma severity_aliases_NoDup : NoDup ((λ p : bytes * Z, tolower <$> p.1) <$> kSeverityAliases).
Proof. apply (bool_decide_unpack _). vm_compute. exact I. Qed.

(** ** Theorem *)

(** The name tables agree: every facility and severity name the JSONL shows
    is accepted and maps back to its own code; a name is accepted exactly when
    it equals an alias up to case, and no name has two codes. *)
Theorem names_consistent :
  names_back kFacilityNames facilityFromName ∧ names_back kSeverityNames severityFromName ∧
  (∀ n f, facilityFromName n = Some f ↔
     (∃ al, (al, f) ∈ kFacilityAliases ∧ tolower <$> al = tolower <$> n)) ∧
  (∀ n s, severityFromName n = Some s ↔
     (∃ al, (al, s) ∈ kSeverityAliases ∧ tolower <$> al = tolower <$> n)).
Proof.
  split_and!; [apply kFacilityNames_back|apply kSeverityNames_back| |]; intros n c;
    apply lookup_name_iff; [apply facility_aliases_NoDup|apply severity_aliases_NoDup].
Qed.
