(* ===== verification/Parser.v ===== *)
(** * The syslog parser (src/src/server/parser/syslog_parser.cpp)

    [SyslogMessage] and [parseSyslog] with its helpers, at the level of the
    source: every read of a byte is an access that can be out of bounds, every
    shortening of a [string_view] can go past its end, and every loop is a loop
    over positions. *)

From S2P Require Import Prelude Names.

(** ** Data (syslog_message.hpp) *)

Inductive Protocol := RFC3164 | RFC5424 | Unknown.
#[export] Instance Protocol_eq_dec : EqDecision Protocol.
Proof. solve_decision. Defined.

Record SyslogMessage := mkMessage {
  protocol : Protocol;
  raw : bytes;
  srcIp : bytes;
  pri : option Z;
  facility : option Z;
  severity : option Z;
  facilityName : option bytes;
  severityName : option bytes;
  version : option Z;
  timestamp : option bytes;
  hostname : option bytes;
  appName : option bytes;
  procId : option bytes;
  msgId : option bytes;
  message : bytes;
  admission : option nat  (* the charge it carries; null until onReceive sets it *)
}.

(** [SyslogMessage msg;] *)
Definition emptyMessage : SyslogMessage :=
  mkMessage Unknown [] [] None None None None None None None None None None None [] None.

(** ** PRI *)

(** [kNames[i]], an access outside the array being undefined. *)
Definition name_at (names : list bytes) (i : Z) : M bytes :=
  match names !! Z.to_nat i with
  | Some n => if i <? 0 then UB else Ret n
  | None => UB
  end.

Definition applyPri (msg : SyslogMessage) (p : Z) : M SyslogMessage :=
  cpp_assert ((0 <=? p) && (p <=? 191));;
  let f := Z.quot p 8 in
  let s := Z.rem p 8 in
  fname ← (if f <? zlen kFacilityNames then n ← name_at kFacilityNames f; mret (Some n)
           else mret (facilityName msg));
  sname ← (if s <? zlen kSeverityNames then n ← name_at kSeverityNames s; mret (Some n)
           else mret (severityName msg));
  mret (mkMessage (protocol msg) (raw msg) (srcIp msg) (Some p) (Some f) (Some s)
          fname sname (version msg) (timestamp msg) (hostname msg) (appName msg)
          (procId msg) (msgId msg) (message msg) (admission msg)).

(** [!sv.empty() && isdigit(sv[0]) && digits < 3] *)
Definition pri_cond : Z * nat * bytes → M bool := λ '(_, digits, sv),
  negb (sv_empty sv) &&? (c ← sv_at sv 0; mret (isdigit c && (digits <? 3)%nat)).
Definition pri_body : Z * nat * bytes → M (Z * nat * bytes) := λ '(p, digits, sv),
  c ← sv_at sv 0;
  sv ← remove_prefix 1 sv;
  mret (p * 10 + (bval c - 48), S digits, sv).

(** Returns the PRI, -1 on failure, and what is left of [sv]. *)
Definition parsePri (sv : bytes) : M (Z * bytes) :=
  bad ← sv_empty sv ||? (c ← sv_at sv 0; mret (bool_decide (c ≠ "<"%byte)));
  if (bad : bool) then mret (-1, sv) else
  sv ← remove_prefix 1 sv;
  '(p, digits, sv) ← while_loop 4 pri_cond pri_body (0, O, sv);
  bad ← ((digits =? 0)%nat || sv_empty sv) ||?
        (c ← sv_at sv 0; mret (bool_decide (c ≠ ">"%byte)));
  if (bad : bool) then mret (-1, sv) else
  if 191 <? p then mret (-1, sv) else
  sv ← remove_prefix 1 sv;
  mret (p, sv).

(** ** Header fields *)

Definition parseNilable (sv : bytes) : M (option bytes * bytes) :=
  if sv_empty sv then mret (None, sv) else
  '(tok, sv) ← match sv_find " "%byte sv with
               | None => mret (sv, [])
               | Some e => tok ← substr 0 e sv; sv ← remove_prefix (e + 1) sv; mret (tok, sv)
               end;
  if decide (tok = lit "-") then mret (None, sv) else mret (Some tok, sv).

Definition kMonths : list bytes := lit <$>
  [ "Jan"; "Feb"; "Mar"; "Apr"; "May"; "Jun"; "Jul"; "Aug"; "Sep"; "Oct"; "Nov"; "Dec" ].

(** [sv[i] == m[i]] *)
Definition same_at (sv m : bytes) (i : nat) : M bool :=
  a ← sv_at sv i; b ← sv_at m i; mret (bool_decide (a = b)).

Fixpoint month_loop (months : list bytes) (sv : bytes) : M bool :=
  match months with
  | [] => mret false
  | m :: rest =>
      b0 ← same_at sv m 0;
      b1 ← (b0 : bool) &&? same_at sv m 1;
      b2 ← (b1 : bool) &&? same_at sv m 2;
      if (b2 : bool) then mret true else month_loop rest sv
  end.

Definition isMonthPrefix (sv : bytes) : M bool :=
  if (length sv <? 3)%nat then mret false else month_loop kMonths sv.

(** [sv[p] - '0'] *)
Definition digit_at (sv : bytes) (p : nat) : M Z := c ← sv_at sv p; mret (bval c - 48).

(** [t] is "dd:dd:dd". *)
Definition clock_shape (t : bytes) : M bool :=
  let digit i := (c ← sv_at t i; mret (isdigit c)) in
  let colon i := (c ← sv_at t i; mret (bool_decide (c = ":"%byte))) in
  b ← digit 0%nat;
  b ← (b : bool) &&? digit 1%nat; b ← (b : bool) &&? colon 2%nat;
  b ← (b : bool) &&? digit 3%nat; b ← (b : bool) &&? digit 4%nat;
  b ← (b : bool) &&? colon 5%nat;
  b ← (b : bool) &&? digit 6%nat; (b : bool) &&? digit 7%nat.

(** [p >= sv.size() || sv[p] != ' '] *)
Definition not_space_at (sv : bytes) (p : nat) : M bool :=
  (length sv <=? p)%nat ||? (c ← sv_at sv p; mret (bool_decide (c ≠ " "%byte))).

Definition is_space (c : byte) : bool := bool_decide (c = " "%byte).

Definition parse3164Timestamp (sv : bytes) : M (option bytes * bytes) :=
  month ← isMonthPrefix sv;
  if negb month then mret (None, sv) else
  bad ← not_space_at sv 3;
  if (bad : bool) then mret (None, sv) else
  day0 ← scan is_space sv 3;
  p ← scan isdigit sv day0;
  if ((p - day0 =? 0) || (2 <? p - day0))%nat then mret (None, sv) else
  day ← (if (p - day0 =? 1)%nat then digit_at sv day0
         else a ← digit_at sv day0; b ← digit_at sv (day0 + 1); mret (a * 10 + b));
  if (day <? 1) || (31 <? day) then mret (None, sv) else
  bad ← not_space_at sv p;
  if (bad : bool) then mret (None, sv) else
  p ← scan is_space sv p;
  if (length sv <? p + 8)%nat then mret (None, sv) else
  t ← substr p 8 sv;
  shape ← clock_shape t;
  if negb shape then mret (None, sv) else
  h1 ← digit_at t 0; h0 ← digit_at t 1;
  m1 ← digit_at t 3; m0 ← digit_at t 4;
  s1 ← digit_at t 6; s0 ← digit_at t 7;
  if (23 <? h1 * 10 + h0) || (59 <? m1 * 10 + m0) || (59 <? s1 * 10 + s0)
  then mret (None, sv) else
  let p := (p + 8)%nat in
  ts ← substr 0 p sv;
  sv ← remove_prefix p sv;
  sp ← negb (sv_empty sv) &&? (c ← sv_at sv 0; mret (is_space c));
  sv ← (if (sp : bool) then remove_prefix 1 sv else mret sv);
  mret (Some ts, sv).

(** [s.empty() ? nullopt : s] *)
Definition nonempty (s : bytes) : option bytes := if sv_empty s then None else Some s.

Definition parse3164Tag (sv : bytes) : M (option bytes * option bytes * bytes) :=
  match sv_find ":"%byte sv with
  | None => mret (None, None, sv)
  | Some colon =>
      if match sv_find " "%byte sv with Some space => (space <? colon)%nat | None => false end
      then mret (None, None, sv) else
      tagPart ← substr 0 colon sv;
      sv ← remove_prefix (colon + 1) sv;
      sp ← negb (sv_empty sv) &&? (c ← sv_at sv 0; mret (is_space c));
      sv ← (if (sp : bool) then remove_prefix 1 sv else mret sv);
      match sv_find "["%byte tagPart with
      | Some bracket =>
          last ← sv_back tagPart;
          if decide (last = "]"%byte) then
            app ← substr 0 bracket tagPart;
            n ← size_sub (length tagPart) (bracket + 2);
            pid ← substr (bracket + 1) n tagPart;
            mret (nonempty app, nonempty pid, sv)
          else mret (nonempty tagPart, None, sv)
      | None => mret (nonempty tagPart, None, sv)
      end
  end.

(** ** The two formats *)

(** [for (j = 0; j < vi; ++j) ver = ver * 10 + (sv[j] - '0')] *)
Fixpoint version_loop (n j : nat) (sv : bytes) (ver : Z) : M Z :=
  match n with
  | O => mret ver
  | S n' => d ← digit_at sv j; version_loop n' (S j) sv (ver * 10 + d)
  end.

(** Returns the message, or [None] for [false]. *)
Definition tryRfc5424 (data : bytes) (msg : SyslogMessage) : M (option SyslogMessage) :=
  '(p, sv) ← parsePri data;
  if p <? 0 then mret None else
  vi ← scan isdigit sv 0;
  bad ← ((vi =? 0)%nat || (2 <? vi)%nat) ||? not_space_at sv vi;
  if (bad : bool) then mret None else
  ver ← version_loop vi 0 sv 0;
  if negb (ver =? 1) then mret None else
  sv ← remove_prefix (vi + 1) sv;
  if (length (filter (λ c, is_space c) sv) <? 4)%nat then mret None else
  '(ts, sv) ← parseNilable sv;
  '(host, sv) ← parseNilable sv;
  '(app, sv) ← parseNilable sv;
  '(pid, sv) ← parseNilable sv;
  '(mid, sv) ← parseNilable sv;
  msg ← applyPri (mkMessage RFC5424 data (srcIp msg) (pri msg) (facility msg) (severity msg)
                    (facilityName msg) (severityName msg) (version msg) (timestamp msg)
                    (hostname msg) (appName msg) (procId msg) (msgId msg) (message msg)
                    (admission msg)) p;
  mret (Some (mkMessage (protocol msg) (raw msg) (srcIp msg) (pri msg) (facility msg)
                (severity msg) (facilityName msg) (severityName msg) (Some ver) ts host app
                pid mid sv (admission msg))).

(** The hostname: the next word, absent only when nothing is left. *)
Definition parse3164Host (sv : bytes) : M (option bytes * bytes) :=
  match sv_find " "%byte sv with
  | None => mret (if sv_empty sv then None else Some sv, [])
  | Some sp => h ← substr 0 sp sv; sv ← remove_prefix (sp + 1) sv; mret (Some h, sv)
  end.

Definition tryRfc3164 (data : bytes) (msg : SyslogMessage) : M (option SyslogMessage) :=
  '(p, sv) ← parsePri data;
  if p <? 0 then mret None else
  '(ts, sv) ← parse3164Timestamp sv;
  match ts with
  | None => mret None
  | Some ts =>
      '(host, sv) ← parse3164Host sv;
      '(app, pid, sv) ← parse3164Tag sv;
      msg ← applyPri (mkMessage RFC3164 data (srcIp msg) (pri msg) (facility msg)
                        (severity msg) (facilityName msg) (severityName msg) (version msg)
                        (timestamp msg) (hostname msg) (appName msg) (procId msg) (msgId msg)
                        (message msg) (admission msg)) p;
      mret (Some (mkMessage (protocol msg) (raw msg) (srcIp msg) (pri msg) (facility msg)
                    (severity msg) (facilityName msg) (severityName msg) (version msg)
                    (Some ts) host app pid (msgId msg) sv (admission msg)))
  end.

(** [while (!data.empty() && (data.back() == '\r' || data.back() == '\n'))] *)
Definition is_crlf (c : byte) : bool := bool_decide (c = x0d) || bool_decide (c = x0a).
Definition strip_crlf (data : bytes) : M bytes :=
  while_loop (S (length data))
    (λ d, negb (sv_empty d) &&? (c ← sv_back d; mret (is_crlf c)))
    (λ d, remove_suffix 1 d) data.

Definition parseSyslog (data : bytes) : M SyslogMessage :=
  data ← strip_crlf data;
  r ← tryRfc5424 data emptyMessage;
  match r with
  | Some msg => mret msg
  | None =>
      r ← tryRfc3164 data emptyMessage;
      match r with
      | Some msg => mret msg
      | None =>
          mret (mkMessage Unknown data [] None None None None None None None None None None
                  None data None)
      end
  end.

#[global] Arguments digit_at : simpl never.
#[global] Arguments not_space_at : simpl never.

Example parse_5424 :
  parseSyslog (lit "<34>1 2003-10-11T22:14:15.003Z host su - ID47 - hello" ++ [x0a]) =
  Ret (mkMessage RFC5424 (lit "<34>1 2003-10-11T22:14:15.003Z host su - ID47 - hello") []
         (Some 34) (Some 4) (Some 2) (Some (lit "auth")) (Some (lit "CRITICAL")) (Some 1)
         (Some (lit "2003-10-11T22:14:15.003Z")) (Some (lit "host")) (Some (lit "su")) None
         (Some (lit "ID47")) (lit "- hello") None).
Proof. vm_compute. reflexivity. Qed.

Example parse_3164 :
  parseSyslog (lit "<13>Oct  1 22:14:15 mymachine su[230]: fail") =
  Ret (mkMessage RFC3164 (lit "<13>Oct  1 22:14:15 mymachine su[230]: fail") []
         (Some 13) (Some 1) (Some 5) (Some (lit "user")) (Some (lit "NOTICE")) None
         (Some (lit "Oct  1 22:14:15")) (Some (lit "mymachine")) (Some (lit "su"))
         (Some (lit "230")) None (lit "fail") None).
Proof. vm_compute. reflexivity. Qed.
