(* ===== verification/ParserSpec.v ===== *)
(** * The grammar of a syslog datagram, and [parseSyslog] against it

    A declarative grammar of the two formats [parseSyslog] recognises, and the
    proofs that each helper of Parser.v returns for every input, accepts only
    what the grammar generates, and accepts all of it. *)

From S2P Require Import Prelude Names Parser.

Definition digits (ds : bytes) : Prop := Forall (λ c, isdigit c = true) ds.
Definition spaces (s : bytes) : Prop := s ≠ [] ∧ Forall (λ c, is_space c = true) s.
Definition word (s : bytes) : Prop := " "%byte ∉ s.

(** [<NNN>rest] *)
Definition PriPart (s : bytes) (p : Z) (rest : bytes) : Prop :=
  ∃ ds, s = "<"%byte :: ds ++ ">"%byte :: rest ∧ digits ds ∧
        (1 ≤ length ds ≤ 3)%nat ∧ p = dec_value ds ∧ p <= 191.

(** ** PRI *)

Lemma pri_loop n fuel acc d sv :
  (d + n = 3)%nat → (n < fuel)%nat →
  while_loop fuel pri_cond pri_body (acc, d, sv) =
  let ds := take_while isdigit (take n sv) in
  Ret (foldl dec_step acc ds, d + length ds, drop (length ds) sv)%nat.
Proof.
  revert fuel acc d sv. induction n as [|n IH]; intros [|fuel] acc d sv Hd Hf;
    try lia; rewrite while_loop_S; cbn.
  - destruct sv as [|c sv]; cbn; [by rewrite Nat.add_0_r|].
    destruct (Nat.ltb_spec d 3); [lia|]. rewrite andb_false_r. cbn. by rewrite Nat.add_0_r.
  - destruct sv as [|c sv]; cbn; [by rewrite Nat.add_0_r|].
    destruct (Nat.ltb_spec d 3); [|lia]. rewrite andb_true_r.
    destruct (isdigit c); cbn; [|by rewrite Nat.add_0_r].
    rewrite remove_prefix_1. cbn. rewrite IH by lia. cbn.
    by rewrite <- Nat.add_succ_comm.
Qed.

Lemma parsePri_complete s p rest : PriPart s p rest → parsePri s = Ret (p, rest).
Proof.
  intros (ds & -> & Hds & Hl & -> & Hp). unfold parsePri. cbn.
  rewrite bool_decide_eq_false_2 by (intros []; done). cbn. rewrite remove_prefix_1. cbn [mbind M_bind].
  rewrite (pri_loop 3) by lia.
  assert (take_while isdigit (take 3 (ds ++ ">"%byte :: rest)) = ds) as ->.
  { rewrite take_app, take_ge by lia. apply take_while_app; [done|].
    intros x k' H. destruct (3 - length ds)%nat; cbn in H; [done|].
    injection H as <- _. done. }
  cbn. rewrite drop_app_length. destruct ds as [|d ds]; [cbn in Hl; lia|].
  cbn. rewrite bool_decide_eq_false_2 by (intros []; done). cbn.
  change (foldl dec_step (dec_step 0 d) ds) with (dec_value (d :: ds)).
  destruct (Z.ltb_spec 191 (dec_value (d :: ds))); [lia|].
  by rewrite remove_prefix_1.
Qed.

Lemma parsePri_sound s :
  ∃ p rest, parsePri s = Ret (p, rest) ∧ (p = -1 ∨ PriPart s p rest).
Proof.
  unfold parsePri. destruct s as [|c s]; cbn; [eauto|].
  case_bool_decide as Hc; cbn; [eauto|subst c].
  rewrite remove_prefix_1. cbn [mbind M_bind]. rewrite (pri_loop 3) by lia.
  cbn zeta. set (ds := take_while isdigit (take 3 s)).
  assert (Hds : digits ds) by apply take_while_Forall.
  assert (Hpre : ds = take (length ds) s).
  { unfold ds at 1. rewrite take_while_take. fold ds. rewrite take_take, Nat.min_l; [done|].
    unfold ds. rewrite length_take_while, length_take. lia. }
  assert (Hlen : (length ds ≤ 3)%nat).
  { unfold ds. rewrite length_take_while, length_take. lia. }
  clearbody ds. cbn [mbind M_bind].
  destruct (Nat.eqb_spec (0 + length ds) 0); cbn [orb mbind M_bind]; [cbn; eauto|].
  assert (Hs : s = ds ++ drop (length ds) s) by (rewrite Hpre at 1; by rewrite take_drop).
  destruct (drop (length ds) s) as [|c rest]; cbn; [eauto|].
  case_bool_decide as Hc; cbn; [eauto|subst c].
  change (foldl dec_step 0 ds) with (dec_value ds).
  destruct (Z.ltb_spec 191 (dec_value ds)); [eauto|].
  rewrite remove_prefix_1. cbn. eexists _, _. split; [done|]. right.
  exists ds. rewrite Hs. split_and!; [done|done|lia|lia|done|lia].
Qed.

Lemma PriPart_range s p rest : PriPart s p rest → 0 <= p <= 191.
Proof. intros (ds & _ & Hds & _ & -> & ?). pose proof (dec_value_bound ds Hds). lia. Qed.

(** ** Words and the version *)

Lemma is_space_true c : is_space c = true ↔ c = " "%byte.
Proof. unfold is_space. by rewrite bool_decide_eq_true. Qed.

Lemma word_Forall s : word s ↔ Forall (λ c, negb (is_space c) = true) s.
Proof.
  unfold word. rewrite Forall_forall. split.
  - intros H c Hc. apply negb_true_iff, not_true_iff_false. rewrite is_space_true. by intros ->.
  - intros H Hin. by specialize (H _ Hin).
Qed.

(** Either no space is left, or the first word ends at one. *)
Lemma word_split s : word s ∨ ∃ tok rest, word tok ∧ s = tok ++ " "%byte :: rest.
Proof.
  destruct (sv_find " "%byte s) as [i|] eqn:E.
  - apply sv_find_Some in E as (l & k & -> & Hl & _). right. by exists l, k.
  - left. by apply sv_find_None.
Qed.

(** [-] is the NILVALUE. *)
Definition nil_field (tok : bytes) : option bytes :=
  if decide (tok = lit "-") then None else Some tok.

(** The fields before the last end at a space; the last one may end the
    datagram, and is then absent when it is empty. *)
Definition LastField (s : bytes) (f : option bytes) (rest : bytes) : Prop :=
  (s = [] ∧ f = None ∧ rest = []) ∨
  (s ≠ [] ∧ word s ∧ f = nil_field s ∧ rest = []) ∨
  (∃ tok, word tok ∧ s = tok ++ (" "%byte :: rest) ∧ f = nil_field tok).

Lemma parseNilable_word tok rest :
  word tok → parseNilable (tok ++ " "%byte :: rest) = Ret (nil_field tok, rest).
Proof.
  intros Hw. unfold parseNilable, nil_field.
  assert (sv_empty (tok ++ " "%byte :: rest) = false) as -> by by destruct tok.
  rewrite sv_find_app by done. rewrite substr_prefix. cbn [mbind M_bind].
  rewrite app_snoc. replace (length tok + 1)%nat with (length (tok ++ [" "%byte]))
    by (rewrite length_snoc; lia).
  rewrite remove_prefix_app. cbn. by destruct (decide (tok = lit "-")).
Qed.

Lemma parseNilable_complete s f rest : LastField s f rest → parseNilable s = Ret (f, rest).
Proof.
  intros [(-> & -> & ->)|[(Hne & Hw & -> & ->)|(tok & Hw & -> & ->)]].
  - done.
  - unfold parseNilable, nil_field. assert (sv_empty s = false) as -> by by destruct s.
    apply sv_find_None in Hw as ->. cbn. by destruct (decide (s = lit "-")).
  - by apply parseNilable_word.
Qed.

Lemma LastField_total s : ∃ f rest, LastField s f rest.
Proof.
  destruct (decide (s = [])) as [->|Hne]; [exists None, []; by left|].
  destruct (word_split s) as [Hw|(tok & rest & Hw & ->)].
  - exists (nil_field s), []. right; left. done.
  - exists (nil_field tok), rest. right; right. by exists tok.
Qed.

Definition nspaces (s : bytes) : nat := length (filter (λ c, is_space c) s).

Lemma nspaces_word s : word s → nspaces s = O.
Proof.
  intros Hw. unfold nspaces. induction s as [|c s IH]; [done|].
  apply not_elem_of_cons in Hw as [Hc Hw]. rewrite filter_cons_False; [by apply IH|].
  rewrite Is_true_true, is_space_true. congruence.
Qed.

Lemma nspaces_split tok rest : word tok → nspaces (tok ++ " "%byte :: rest) = S (nspaces rest).
Proof.
  intros Hw%nspaces_word. unfold nspaces in *. rewrite filter_app, length_app, Hw.
  by rewrite filter_cons_True.
Qed.

Lemma word_split_count s n :
  (n < nspaces s)%nat → ∃ tok rest, word tok ∧ s = tok ++ " "%byte :: rest ∧ (n ≤ nspaces rest)%nat.
Proof.
  intros Hn. destruct (word_split s) as [Hw%nspaces_word|(tok & rest & Hw & ->)]; [lia|].
  exists tok, rest. rewrite nspaces_split in Hn by done. split_and!; [done|done|lia].
Qed.

(** The version of a recognised message is written "1" or "01". *)
Definition VersionPart (s rest : bytes) : Prop :=
  ∃ ds, s = ds ++ " "%byte :: rest ∧ digits ds ∧ (1 ≤ length ds ≤ 2)%nat ∧ dec_value ds = 1.

Lemma version_loop_app pre ds suf v :
  version_loop (length ds) (length pre) (pre ++ ds ++ suf) v = Ret (foldl dec_step v ds).
Proof.
  revert pre v. induction ds as [|c ds IH]; intros pre v; cbn; [done|].
  unfold digit_at, sv_at. rewrite list_lookup_middle by done. cbn.
  rewrite (app_snoc pre), <- (length_snoc pre c). apply IH.
Qed.

(** ** Cursors: [p] is the length of what has been consumed *)

Lemma scan_app f pre suf :
  scan f (pre ++ suf) (length pre) = Ret (length (pre ++ take_while f suf)).
Proof.
  rewrite scan_spec by (rewrite length_app; lia). by rewrite drop_app_length, length_app.
Qed.

Lemma scan_0 f s : scan f s 0 = Ret (length (take_while f s)).
Proof. apply (scan_app f []). Qed.

Definition starts_with_space (s : bytes) : bool :=
  match s with c :: _ => is_space c | [] => false end.

Lemma not_space_at_app pre suf :
  not_space_at (pre ++ suf) (length pre) = Ret (negb (starts_with_space suf)).
Proof.
  unfold not_space_at. destruct suf as [|c suf].
  - rewrite app_nil_r. by destruct (Nat.leb_spec (length pre) (length pre)); [|lia].
  - rewrite length_app. cbn.
    destruct (Nat.leb_spec (length pre + S (length suf)) (length pre)); [lia|].
    unfold sv_at. rewrite list_lookup_middle by done. cbn. f_equal. unfold is_space.
    apply bool_decide_not.
Qed.

Lemma digit_at_app pre c suf p :
  p = length pre → digit_at (pre ++ c :: suf) p = Ret (bval c - 48).
Proof. intros ->. unfold digit_at, sv_at. by rewrite list_lookup_middle. Qed.

(** One optional space after a timestamp or a tag. *)
Definition skip_space (s : bytes) : bytes := if starts_with_space s then tail s else s.

Lemma skip_space_eval s :
  (sp ← negb (sv_empty s) &&? (c ← sv_at s 0; mret (is_space c));
   if (sp : bool) then remove_prefix 1 s else mret s) = Ret (skip_space s).
Proof.
  destruct s as [|c s]; cbn; [done|]. unfold skip_space. cbn.
  destruct (is_space c); cbn; [apply remove_prefix_1|done].
Qed.

(** ** The RFC 3164 timestamp *)

Lemma month_loop_spec months a b c r :
  Forall (λ m, length m = 3%nat) months →
  month_loop months (a :: b :: c :: r) = Ret (bool_decide ([a; b; c] ∈ months)).
Proof.
  induction 1 as [|m months Hm _ IH].
  - cbn. by rewrite bool_decide_eq_false_2 by apply not_elem_of_nil.
  - destruct m as [|x [|y [|z [|]]]]; try done. cbn. rewrite IH.
    assert (bool_decide ([a; b; c] ∈ [x; y; z] :: months) =
            (bool_decide (a = x) && bool_decide (b = y) && bool_decide (c = z)) ||
            bool_decide ([a; b; c] ∈ months)) as ->.
    { apply eq_true_iff_eq. rewrite orb_true_iff, !andb_true_iff, !bool_decide_eq_true.
      rewrite elem_of_cons.
      split; [intros [[= -> -> ->]|?]; auto|intros [[[-> ->] ->]|?]; auto]. }
    by destruct (bool_decide (a = x)), (bool_decide (b = y)), (bool_decide (c = z)).
Qed.

Lemma kMonths_length : Forall (λ m, length m = 3%nat) kMonths.
Proof. repeat constructor. Qed.

Lemma isMonthPrefix_spec sv : isMonthPrefix sv = Ret (bool_decide (take 3 sv ∈ kMonths)).
Proof.
  unfold isMonthPrefix. destruct sv as [|a [|b [|c r]]].
  4: { cbn [length]. destruct (Nat.ltb_spec (S (S (S (length r)))) 3); [lia|].
       by rewrite month_loop_spec by apply kMonths_length. }
  all: cbn; rewrite bool_decide_eq_false_2; [done|]; intros Hin;
    pose proof (proj1 (Forall_forall _ _) kMonths_length _ Hin); done.
Qed.

(** [hh:mm:ss] with each part in range. *)
Definition ClockPart (t : bytes) : Prop :=
  ∃ h1 h0 m1 m0 s1 s0, t = [h1; h0; ":"%byte; m1; m0; ":"%byte; s1; s0] ∧
    digits [h1; h0; m1; m0; s1; s0] ∧
    dec_value [h1; h0] <= 23 ∧ dec_value [m1; m0] <= 59 ∧ dec_value [s1; s0] <= 59.

Lemma dec_value_1 a : dec_value [a] = bval a - 48.
Proof. done. Qed.
Lemma dec_value_2 a b : dec_value [a; b] = (bval a - 48) * 10 + (bval b - 48).
Proof. done. Qed.

Definition clock_shapeb (t : bytes) : bool :=
  match t with
  | [h1; h0; c1; m1; m0; c2; s1; s0] =>
      isdigit h1 && isdigit h0 && bool_decide (c1 = ":"%byte) && isdigit m1 && isdigit m0 &&
      bool_decide (c2 = ":"%byte) && isdigit s1 && isdigit s0
  | _ => false
  end.

Lemma clock_shape_eval t : length t = 8%nat → clock_shape t = Ret (clock_shapeb t).
Proof.
  intros H. destruct t as [|h1 [|h0 [|c1 [|m1 [|m0 [|c2 [|s1 [|s0 [|]]]]]]]]]; try done. cbn.
  repeat (case_match; cbn; try done).
Qed.

(** What the checks on [t] decide. *)
Definition clock_ok (t : bytes) : bool :=
  clock_shapeb t &&
  match t with
  | [h1; h0; _; m1; m0; _; s1; s0] =>
      negb ((23 <? dec_value [h1; h0]) || (59 <? dec_value [m1; m0]) || (59 <? dec_value [s1; s0]))
  | _ => false
  end.

Lemma clock_ok_spec t : clock_ok t = true ↔ ClockPart t.
Proof.
  split.
  - destruct t as [|h1 [|h0 [|c1 [|m1 [|m0 [|c2 [|s1 [|s0 [|]]]]]]]]]; try done.
    unfold clock_ok, clock_shapeb. rewrite !andb_true_iff, !bool_decide_eq_true.
    rewrite negb_true_iff, !orb_false_iff, !Z.ltb_ge. intros Hc. destruct_and!. subst.
    exists h1, h0, m1, m0, s1, s0. split_and!; try done. by repeat constructor.
  - intros (h1 & h0 & m1 & m0 & s1 & s0 & -> & Hd & ? & ? & ?).
    unfold digits in Hd. rewrite !Forall_cons in Hd.
    unfold clock_ok, clock_shapeb. rewrite !andb_true_iff, !bool_decide_eq_true.
    rewrite negb_true_iff, !orb_false_iff, !Z.ltb_ge. destruct_and!. by split_and!.
Qed.

(** A timestamp and what follows it, less one optional space. *)
Definition TimestampPart (s ts rest : bytes) : Prop :=
  ∃ mon sp1 day sp2 clock r, s = ts ++ r ∧ ts = mon ++ sp1 ++ day ++ sp2 ++ clock ∧
    mon ∈ kMonths ∧ spaces sp1 ∧ digits day ∧ (1 ≤ length day ≤ 2)%nat ∧
    1 <= dec_value day <= 31 ∧ spaces sp2 ∧ ClockPart clock ∧ rest = skip_space r.

(** The parts the positions of [parse3164Timestamp] delimit, by maximal munch. *)
Definition ts_split (sv : bytes) : option (bytes * bytes) :=
  let mon := take 3 sv in let r1 := drop 3 sv in
  let sp1 := take_while is_space r1 in let r2 := drop_while is_space r1 in
  let day := take_while isdigit r2 in let r3 := drop_while isdigit r2 in
  let sp2 := take_while is_space r3 in let r4 := drop_while is_space r3 in
  let clock := take 8 r4 in
  if bool_decide (mon ∈ kMonths) && negb (sv_empty sp1) &&
     ((1 <=? length day) && (length day <=? 2))%nat &&
     ((1 <=? dec_value day) && (dec_value day <=? 31)) && negb (sv_empty sp2) && clock_ok clock
  then Some (mon ++ sp1 ++ day ++ sp2 ++ clock, drop 8 r4) else None.

Lemma starts_with_space_take s :
  starts_with_space s = negb (sv_empty (take_while is_space s)).
Proof. destruct s as [|c s]; cbn; [done|]. by destruct (is_space c). Qed.

(** The end of [parse3164Timestamp], from the position of the clock on. *)
Lemma ts_clock_eval pre r :
  (if (length (pre ++ r) <? length pre + 8)%nat then mret (None, pre ++ r) else
   t ← substr (length pre) 8 (pre ++ r);
   shape ← clock_shape t;
   if negb shape then mret (None, pre ++ r) else
   h1 ← digit_at t 0; h0 ← digit_at t 1;
   m1 ← digit_at t 3; m0 ← digit_at t 4;
   s1 ← digit_at t 6; s0 ← digit_at t 7;
   if (23 <? h1 * 10 + h0) || (59 <? m1 * 10 + m0) || (59 <? s1 * 10 + s0)
   then mret (None, pre ++ r) else
   let p := (length pre + 8)%nat in
   ts ← substr 0 p (pre ++ r);
   sv ← remove_prefix p (pre ++ r);
   sp ← negb (sv_empty sv) &&? (c ← sv_at sv 0; mret (is_space c));
   sv ← (if (sp : bool) then remove_prefix 1 sv else mret sv);
   mret (Some ts, sv)) =
  Ret (if clock_ok (take 8 r) then (Some (pre ++ take 8 r), skip_space (drop 8 r))
       else (None, pre ++ r)).
Proof.
  rewrite length_app. destruct (Nat.ltb_spec (length pre + length r) (length pre + 8)).
  - assert (clock_ok (take 8 r) = false) as ->; [|done].
    apply not_true_iff_false. rewrite clock_ok_spec. intros (?&?&?&?&?&?& Ht & _).
    apply (f_equal length) in Ht. rewrite length_take in Ht. cbn [length] in Ht. lia.
  - assert (Ht : length (take 8 r) = 8%nat) by (rewrite length_take; lia).
    rewrite substr_le by (rewrite length_app; lia). rewrite drop_app_length. cbn [mbind M_bind].
    rewrite clock_shape_eval by done. cbn [mbind M_bind]. unfold clock_ok.
    destruct (clock_shapeb (take 8 r)); cbn [negb andb]; [|done].
    assert (Hr : r = take 8 r ++ drop 8 r) by by rewrite take_drop.
    set (t := take 8 r) in *. set (r8 := drop 8 r) in *. clearbody t r8. subst r.
    destruct t as [|h1 [|h0 [|c1 [|m1 [|m0 [|c2 [|s1 [|s0 [|]]]]]]]]]; try done.
    rewrite !dec_value_2. unfold digit_at. cbn -[app]. case_match; cbn -[app]; [done|].
    set (t := [h1; h0; c1; m1; m0; c2; s1; s0]) in *.
    rewrite (app_assoc pre t). replace (length pre + 8)%nat with (length (pre ++ t)) by
      (by rewrite length_app).
    rewrite substr_prefix, remove_prefix_app. cbn [mbind M_bind].
    pose proof (skip_space_eval r8) as Hs.
    apply bind_Ret_inv in Hs as (b & Hb & Hs). cbn in Hb. rewrite Hb. cbn.
    cbn in Hs. by rewrite Hs.
Qed.

(** The day read at [length pre], whose digits are [ds]. *)
Lemma day_eval pre ds r :
  (1 ≤ length ds ≤ 2)%nat →
  (if (length ds =? 1)%nat then digit_at (pre ++ ds ++ r) (length pre)
   else a ← digit_at (pre ++ ds ++ r) (length pre);
        b ← digit_at (pre ++ ds ++ r) (length pre + 1); mret (a * 10 + b))
  = Ret (dec_value ds).
Proof.
  intros Hl. destruct ds as [|a [|b [|]]]; cbn [length] in Hl; try lia; cbn [length Nat.eqb app].
  - by rewrite digit_at_app.
  - rewrite (digit_at_app pre a _ (length pre)) by done. cbn [mbind M_bind].
    rewrite (app_snoc pre a), digit_at_app by (rewrite length_snoc; lia). done.
Qed.

(** Names the longest prefix of [r] satisfying [f] and the rest of [r]. *)
Ltac cut_while f r sp r' :=
  let H := fresh in
  assert (H : r = take_while f r ++ drop_while f r) by (by rewrite take_drop_while);
  set (sp := take_while f r) in *; set (r' := drop_while f r) in *;
  clearbody sp r'; subst r.

Lemma parse3164Timestamp_eval sv :
  parse3164Timestamp sv =
  Ret (match ts_split sv with Some (ts, r) => (Some ts, skip_space r) | None => (None, sv) end).
Proof.
  unfold parse3164Timestamp, ts_split. rewrite isMonthPrefix_spec. cbn [mbind M_bind].
  case_bool_decide as Hm; cbn [negb andb]; [|done].
  assert (Hl3 : length (take 3 sv) = 3%nat)
    by apply (proj1 (Forall_forall _ _) kMonths_length _ Hm).
  assert (Hsv : sv = take 3 sv ++ drop 3 sv) by by rewrite take_drop.
  set (mon := take 3 sv) in *. set (r1 := drop 3 sv) in *. clearbody mon r1. subst sv.
  assert (not_space_at (mon ++ r1) 3 = Ret (sv_empty (take_while is_space r1))) as ->.
  { rewrite <- Hl3, not_space_at_app, starts_with_space_take. by rewrite negb_involutive. }
  assert (scan is_space (mon ++ r1) 3 = Ret (length (mon ++ take_while is_space r1))) as ->.
  { rewrite <- Hl3. apply scan_app. }
  cbn [mbind M_bind].
  destruct (sv_empty (take_while is_space r1)); cbn [negb andb mbind M_bind]; [done|].
  cut_while is_space r1 sp1 r2. rewrite (app_assoc mon), scan_app. cbn [mbind M_bind].
  cut_while isdigit r2 day r3. set (pre := mon ++ sp1).
  assert (length (pre ++ day) - length pre = length day)%nat as ->
    by (rewrite length_app; lia).
  assert (((length day =? 0) || (2 <? length day))%nat =
          negb ((1 <=? length day) && (length day <=? 2))%nat) as ->.
  { destruct (Nat.eqb_spec (length day) 0), (Nat.ltb_spec 2 (length day)),
      (Nat.leb_spec 1 (length day)), (Nat.leb_spec (length day) 2); done || lia. }
  destruct (Nat.leb_spec 1 (length day)), (Nat.leb_spec (length day) 2); cbn [andb negb]; try done.
  rewrite day_eval by lia. cbn [mbind M_bind].
  assert ((dec_value day <? 1) || (31 <? dec_value day) =
          negb ((1 <=? dec_value day) && (dec_value day <=? 31))) as ->.
  { destruct (Z.ltb_spec (dec_value day) 1), (Z.ltb_spec 31 (dec_value day)),
      (Z.leb_spec 1 (dec_value day)), (Z.leb_spec (dec_value day) 31); done || lia. }
  destruct ((1 <=? dec_value day) && (dec_value day <=? 31)); cbn [negb andb]; [|done].
  rewrite (app_assoc pre), not_space_at_app, scan_app, starts_with_space_take, negb_involutive.
  cbn [mbind M_bind].
  destruct (sv_empty (take_while is_space r3)); cbn [negb andb]; [done|].
  cut_while is_space r3 sp2 r4. rewrite (app_assoc (pre ++ day)), ts_clock_eval.
  unfold pre. by destruct (clock_ok (take 8 r4)); rewrite <- ?app_assoc.
Qed.

Lemma sv_nonempty s : negb (sv_empty s) = true → s ≠ [].
Proof. by destruct s. Qed.

Lemma ts_split_sound sv ts r :
  ts_split sv = Some (ts, r) → TimestampPart sv ts (skip_space r).
Proof.
  unfold ts_split. intros H. case_match eqn:Hc; [|done]. injection H as <- <-.
  rewrite !andb_true_iff, !Nat.leb_le, !Z.leb_le, bool_decide_eq_true in Hc. destruct_and!.
  match goal with H : clock_ok _ = true |- _ => apply clock_ok_spec in H end.
  eexists (take 3 sv), _, _, _, _, _. split_and!; try reflexivity; try done; try lia.
  - rewrite <- !app_assoc, take_drop, !take_drop_while. by rewrite take_drop.
  - split; [by apply sv_nonempty|apply take_while_Forall].
  - apply take_while_Forall.
  - split; [by apply sv_nonempty|apply take_while_Forall].
Qed.

Lemma digit_not_space c : isdigit c = true → is_space c = false.
Proof. revert c. refine (forall_byte _ _). vm_compute. reflexivity. Qed.

(** The first byte after a run: of the other kind. *)
Lemma digits_head ds k c k' :
  digits ds → ds ≠ [] → ds ++ k = c :: k' → is_space c = false.
Proof. destruct 1 as [|d ds Hd]; [done|]. intros _ [= <- _]. by apply digit_not_space. Qed.
Lemma spaces_head sp k c k' : spaces sp → sp ++ k = c :: k' → isdigit c = false.
Proof.
  intros [Hne Hs] H. destruct Hs as [|d sp Hd]; [done|]. injection H as <- _.
  apply not_true_iff_false. intros ?%digit_not_space. congruence.
Qed.
Lemma clock_head clock k c k' : ClockPart clock → clock ++ k = c :: k' → is_space c = false.
Proof.
  intros (h1 & ? & ? & ? & ? & ? & -> & Hd & _) [= <- _].
  apply Forall_cons in Hd as [Hd _]. by apply digit_not_space.
Qed.

Lemma ts_split_complete s ts rest :
  TimestampPart s ts rest → ∃ r, ts_split s = Some (ts, r) ∧ rest = skip_space r.
Proof.
  intros (mon & sp1 & day & sp2 & clock & r & -> & -> & Hm & Hs1 & Hd & Hl & Hv & Hs2 & Hc & ->).
  exists r. split; [|done]. unfold ts_split. rewrite <- !app_assoc.
  pose proof (proj1 (Forall_forall _ _) kMonths_length _ Hm) as Hm3. cbn in Hm3.
  rewrite <- Hm3, take_app_length, drop_app_length, Hm3.
  assert (day ≠ []) by (intros ->; cbn in Hl; lia).
  rewrite take_while_app, drop_while_app; try apply Hs1; try by (intros; eapply digits_head).
  rewrite take_while_app, drop_while_app; try done; try by (intros; eapply spaces_head).
  rewrite take_while_app, drop_while_app; try apply Hs2; try by (intros; eapply clock_head).
  assert (length clock = 8%nat) as Hc8 by by (destruct Hc as (?&?&?&?&?&?& -> & _)).
  rewrite <- Hc8. rewrite take_app_length, drop_app_length.
  apply clock_ok_spec in Hc as ->. rewrite bool_decide_eq_true_2 by done.
  destruct Hs1 as [Hs1 _], Hs2 as [Hs2 _]. destruct sp1; [done|]. destruct sp2; [done|].
  rewrite !(proj2 (Nat.leb_le _ _)) by lia. by rewrite !(proj2 (Z.leb_le _ _)) by lia.
Qed.

Lemma parse3164Timestamp_sound sv :
  ∃ o rest, parse3164Timestamp sv = Ret (o, rest) ∧
            match o with Some ts => TimestampPart sv ts rest | None => True end.
Proof.
  rewrite parse3164Timestamp_eval. destruct (ts_split sv) as [[ts r]|] eqn:E;
    eexists _, _; (split; [done|]); [|done]. by apply ts_split_sound.
Qed.

Lemma parse3164Timestamp_complete s ts rest :
  TimestampPart s ts rest → parse3164Timestamp s = Ret (Some ts, rest).
Proof.
  intros (r & E & ->)%ts_split_complete. by rewrite parse3164Timestamp_eval, E.
Qed.

(** ** Hostname and tag *)

Definition HostPart (s : bytes) (host : option bytes) (rest : bytes) : Prop :=
  (s = [] ∧ host = None ∧ rest = []) ∨
  (s ≠ [] ∧ word s ∧ host = Some s ∧ rest = []) ∨
  (∃ h, word h ∧ s = h ++ (" "%byte :: rest) ∧ host = Some h).

(** [app] or [app[pid]]. *)
Definition Bracketed (tag a p : bytes) : Prop := tag = a ++ ("["%byte :: (p ++ ["]"%byte])).
Definition BracketPart (tag : bytes) (app pid : option bytes) : Prop :=
  (∃ a p, Bracketed tag a p ∧ ("["%byte ∉ a) ∧ app = nonempty a ∧ pid = nonempty p) ∨
  ((∀ a p, ¬ Bracketed tag a p) ∧ app = nonempty tag ∧ pid = None).

(** [app:] or [app[pid]:], one token; otherwise there is no tag and the text is
    left whole. *)
Definition TagPart (s : bytes) (app pid : option bytes) (rest : bytes) : Prop :=
  (∃ tag r, s = tag ++ (":"%byte :: r) ∧ (":"%byte ∉ tag) ∧ word tag ∧ rest = skip_space r ∧
            BracketPart tag app pid) ∨
  ((∀ tag r, s = tag ++ (":"%byte :: r) → ¬ word tag) ∧ app = None ∧ pid = None ∧ rest = s).

Lemma parse3164Host_complete s host rest :
  HostPart s host rest → parse3164Host s = Ret (host, rest).
Proof.
  unfold parse3164Host.
  intros [(-> & -> & ->)|[(Hne & Hw & -> & ->)|(h & Hw & -> & ->)]]; [done| |].
  - apply sv_find_None in Hw as ->. by destruct s.
  - rewrite sv_find_app, substr_prefix by done. cbn [mbind M_bind].
    rewrite app_snoc. replace (length h + 1)%nat with (length (h ++ [" "%byte]))
      by (rewrite length_snoc; lia).
    by rewrite remove_prefix_app.
Qed.

Lemma HostPart_total s : ∃ host rest, HostPart s host rest.
Proof.
  destruct (decide (s = [])) as [->|Hne]; [exists None, []; by left|].
  destruct (word_split s) as [Hw|(tok & rest & Hw & ->)].
  - exists (Some s), []. right; left. done.
  - exists (Some tok), rest. right; right. by exists tok.
Qed.

Lemma word_find_space tag c r :
  c ≠ " "%byte → word tag →
  match sv_find " "%byte (tag ++ c :: r) with
  | Some space => (space <? length tag)%nat | None => false end = false.
Proof.
  intros Hc Hw. destruct (sv_find _ _) as [i|] eqn:E; [|done].
  apply sv_find_Some in E as (l & k & E & _ & <-). apply Nat.ltb_ge.
  destruct (decide (length l < length tag)%nat) as [Hlt|]; [|lia]. exfalso. apply Hw.
  apply list_elem_of_lookup. exists (length l).
  rewrite <- (lookup_app_l tag (c :: r)), E by done. by apply list_lookup_middle.
Qed.

Lemma word_find_space_early tag c r :
  ¬ word tag →
  match sv_find " "%byte (tag ++ c :: r) with
  | Some space => (space <? length tag)%nat | None => false end = true.
Proof.
  intros Hw. destruct (word_split tag) as [?|(tok & rest & Hk & ->)]; [done|].
  rewrite <- app_assoc. cbn [app]. rewrite sv_find_app by done.
  apply Nat.ltb_lt. rewrite length_app. cbn. lia.
Qed.

(** The brackets of a tag, as the positions of [parse3164Tag] find them. *)
Definition tag_eval (tagPart sv : bytes) : M (option bytes * option bytes * bytes) :=
  match sv_find "["%byte tagPart with
  | Some bracket =>
      last ← sv_back tagPart;
      if decide (last = "]"%byte) then
        app ← substr 0 bracket tagPart;
        n ← size_sub (length tagPart) (bracket + 2);
        pid ← substr (bracket + 1) n tagPart;
        mret (nonempty app, nonempty pid, sv)
      else mret (nonempty tagPart, None, sv)
  | None => mret (nonempty tagPart, None, sv)
  end.

Lemma Bracketed_find tag a p :
  Bracketed tag a p → "["%byte ∉ a → sv_find "["%byte tag = Some (length a).
Proof. unfold Bracketed. intros ->. apply sv_find_app. Qed.

Lemma tag_eval_complete tag app pid sv :
  BracketPart tag app pid → tag_eval tag sv = Ret (app, pid, sv).
Proof.
  unfold tag_eval. intros [(a & p & Hb & Ha & -> & ->)|(Hno & -> & ->)].
  - rewrite (Bracketed_find _ _ _ Hb Ha). unfold Bracketed in Hb. subst tag.
    assert (sv_back (a ++ ("["%byte :: (p ++ ["]"%byte]))) = Ret "]"%byte) as ->.
    { unfold sv_back. by rewrite app_comm_cons, app_assoc, last_snoc. }
    cbn [mbind M_bind]. rewrite decide_True, substr_prefix by done.
    cbn [mbind M_bind]. unfold size_sub. rewrite length_app. cbn [length].
    rewrite length_app. cbn [length]. rewrite (proj2 (Nat.leb_le _ _)) by lia.
    cbn [mbind M_bind]. rewrite app_snoc.
    replace (length a + 1)%nat with (length (a ++ ["["%byte])) by (rewrite length_snoc; lia).
    replace (length a + S (length p + 1) - (length a + 2))%nat with (length p) by lia.
    by rewrite substr_middle.
  - destruct (sv_find "["%byte tag) as [i|] eqn:E; [|done].
    apply sv_find_Some in E as (a & q & -> & Ha & _).
    destruct q as [|d q _] using rev_ind.
    + unfold sv_back. rewrite last_snoc. done.
    + unfold sv_back. rewrite app_comm_cons, app_assoc, last_snoc. cbn [mbind M_bind].
      destruct (decide (d = "]"%byte)) as [->|]; [|done].
      by destruct (Hno a q).
Qed.

Lemma BracketPart_total tag : ∃ app pid, BracketPart tag app pid.
Proof.
  destruct (sv_find "["%byte tag) as [i|] eqn:E.
  - apply sv_find_Some in E as (a & q & -> & Ha & _).
    destruct q as [|d q _] using rev_ind.
    + exists (nonempty (a ++ ["["%byte])), None. right. split_and!; try done.
      intros a' p' H. unfold Bracketed in H. rewrite app_comm_cons, app_assoc in H.
      by apply app_inj_tail in H as [_ ?].
    + destruct (decide (d = "]"%byte)) as [->|Hd].
      * exists (nonempty a), (nonempty q). left. by exists a, q.
      * eexists _, None. right. split_and!; [|done|done].
        intros a' p' H. unfold Bracketed in H.
        rewrite !app_comm_cons, !app_assoc in H. by apply app_inj_tail in H as [_ ?].
  - apply sv_find_None in E. exists (nonempty tag), None. right. split_and!; [|done|done].
    intros a p ->. apply E, elem_of_app. right. by left.
Qed.

Lemma parse3164Tag_complete s app pid rest :
  TagPart s app pid rest → parse3164Tag s = Ret (app, pid, rest).
Proof.
  unfold parse3164Tag.
  intros [(tag & r & -> & Hc & Hw & -> & Hb)|(Hno & -> & -> & ->)].
  - rewrite sv_find_app, word_find_space by done. rewrite substr_prefix. cbn [mbind M_bind].
    rewrite app_snoc. replace (length tag + 1)%nat with (length (tag ++ [":"%byte]))
      by (rewrite length_snoc; lia).
    rewrite remove_prefix_app. cbn [mbind M_bind].
    pose proof (skip_space_eval r) as (b & Hb' & Hs)%bind_Ret_inv.
    change (M_bind _ _ ?f ?m) with (m ≫= f). rewrite Hb'. cbn [mbind M_bind].
    change (M_bind _ _ ?f ?m) with (m ≫= f). rewrite Hs. by apply tag_eval_complete.
  - destruct (sv_find ":"%byte s) as [i|] eqn:E; [|done].
    apply sv_find_Some in E as (tag & r & -> & Hc & <-).
    rewrite word_find_space_early; [done|]. by apply (Hno tag r).
Qed.

Lemma TagPart_total s : ∃ app pid rest, TagPart s app pid rest.
Proof.
  destruct (sv_find ":"%byte s) as [i|] eqn:E.
  - apply sv_find_Some in E as (tag & r & -> & Hc & _).
    destruct (decide (" "%byte ∈ tag)) as [Hw|Hw].
    + exists None, None, (tag ++ (":"%byte :: r)). right. split_and!; try done.
      intros tag' r' Heq Hw'. apply Hw'.
      apply app_eq_inv in Heq as [(k & Hk & Hk')|(k & -> & _)].
      * destruct k as [|c k]; [by rewrite app_nil_r in Hk; subst tag|].
        injection Hk' as <- _. exfalso. apply Hc. subst tag.
        apply elem_of_app. right. by left.
      * apply elem_of_app. by left.
    + destruct (BracketPart_total tag) as (app & pid & Hb).
      exists app, pid, (skip_space r). left. by exists tag, r.
  - apply sv_find_None in E. exists None, None, s. right. split_and!; try done.
    intros tag r -> _. apply E, elem_of_app. right. by left.
Qed.

(** ** The two formats *)

Definition priMessage (proto : Protocol) (d : bytes) (p : Z) (ver : option Z)
    (ts host app pid mid : option bytes) (text : bytes) : SyslogMessage :=
  mkMessage proto d [] (Some p) (Some (Z.quot p 8)) (Some (Z.rem p 8))
    (kFacilityNames !! Z.to_nat (Z.quot p 8)) (kSeverityNames !! Z.to_nat (Z.rem p 8))
    ver ts host app pid mid text None.

Definition Rfc5424 (d : bytes) (m : SyslogMessage) : Prop :=
  ∃ p r1 ts host app pid rest mid text,
    PriPart d p r1 ∧
    VersionPart r1 (ts ++ " "%byte :: host ++ " "%byte :: app ++ " "%byte :: pid
                       ++ " "%byte :: rest) ∧
    word ts ∧ word host ∧ word app ∧ word pid ∧ LastField rest mid text ∧
    m = priMessage RFC5424 d p (Some 1) (nil_field ts) (nil_field host) (nil_field app)
          (nil_field pid) mid text.

Definition Rfc3164 (d : bytes) (m : SyslogMessage) : Prop :=
  ∃ p r1 ts r2 host r3 app pid text,
    PriPart d p r1 ∧ TimestampPart r1 ts r2 ∧ HostPart r2 host r3 ∧ TagPart r3 app pid text ∧
    m = priMessage RFC3164 d p None (Some ts) host app pid None text.

(** What is left when neither format matches. *)
Definition unknownMessage (d : bytes) : SyslogMessage :=
  mkMessage Unknown d [] None None None None None None None None None None None d None.

(** The datagram less its trailing CR and LF bytes. *)
Definition Stripped (data d : bytes) : Prop :=
  ∃ eol, data = d ++ eol ∧ Forall (λ c, is_crlf c = true) eol ∧
         (∀ d' c, d = d' ++ [c] → is_crlf c = false).

(** The grammar [parseSyslog] implements: RFC 5424 first, then RFC 3164. *)
Definition Syslog (data : bytes) (m : SyslogMessage) : Prop :=
  ∃ d, Stripped data d ∧
    (Rfc5424 d m ∨
     (∀ m', ¬ Rfc5424 d m') ∧ (Rfc3164 d m ∨ (∀ m', ¬ Rfc3164 d m') ∧ m = unknownMessage d)).

Lemma name_at_eval names i :
  0 <= i < zlen names → ∃ n, names !! Z.to_nat i = Some n ∧ name_at names i = Ret n.
Proof.
  unfold zlen, name_at. intros Hi.
  destruct (lookup_lt_is_Some_2 names (Z.to_nat i)) as [n Hn]; [lia|].
  exists n. rewrite Hn. by destruct (Z.ltb_spec i 0); [lia|].
Qed.

Lemma applyPri_eval msg p :
  0 <= p <= 191 →
  applyPri msg p =
  Ret (mkMessage (protocol msg) (raw msg) (srcIp msg) (Some p) (Some (Z.quot p 8))
         (Some (Z.rem p 8)) (kFacilityNames !! Z.to_nat (Z.quot p 8))
         (kSeverityNames !! Z.to_nat (Z.rem p 8)) (version msg) (timestamp msg) (hostname msg)
         (appName msg) (procId msg) (msgId msg) (message msg) (admission msg)).
Proof.
  intros Hp. unfold applyPri, cpp_assert.
  rewrite !(proj2 (Z.leb_le _ _)) by lia. cbn [andb mbind M_bind].
  change (zlen kFacilityNames) with 24. change (zlen kSeverityNames) with 8.
  rewrite Z.quot_div_nonneg, Z.rem_mod_nonneg by lia.
  assert (0 <= p / 8 < 24) by (split; [apply Z.div_pos|apply Z.div_lt_upper_bound]; lia).
  pose proof (Z.mod_pos_bound p 8).
  rewrite !(proj2 (Z.ltb_lt _ _)) by lia.
  destruct (name_at_eval kFacilityNames (p / 8)) as (f & -> & ->); [done|].
  destruct (name_at_eval kSeverityNames (p mod 8)) as (s & -> & ->); [change (zlen _) with 8; lia|].
  done.
Qed.

Lemma version_eval s rest :
  VersionPart s rest →
  ∃ vi, scan isdigit s 0 = Ret vi ∧ (1 ≤ vi ≤ 2)%nat ∧ not_space_at s vi = Ret false ∧
        version_loop vi 0 s 0 = Ret 1 ∧ remove_prefix (vi + 1) s = Ret rest.
Proof.
  intros (ds & -> & Hd & Hl & Hv). exists (length ds).
  split_and!; try lia.
  - rewrite scan_0,  take_while_app; [done|done|]. by intros x k' [= <- _].
  - by rewrite not_space_at_app.
  - pose proof (version_loop_app [] ds (" "%byte :: rest) 0) as Hl0. cbn [app length] in Hl0.
    rewrite Hl0. by rewrite <- Hv.
  - rewrite app_snoc. replace (length ds + 1)%nat with (length (ds ++ [" "%byte]))
      by (rewrite length_snoc; lia). apply remove_prefix_app.
Qed.

(** The condition the code tests is that the version part is there. *)
Lemma version_sound s vi :
  scan isdigit s 0 = Ret vi → (1 ≤ vi ≤ 2)%nat → not_space_at s vi = Ret false →
  ∃ ds rest, s = ds ++ " "%byte :: rest ∧ digits ds ∧ length ds = vi.
Proof.
  rewrite scan_0. intros [= <-] Hvi Hns.
  exists (take_while isdigit s). pose proof (take_drop_while isdigit s) as Hs.
  pose proof (not_space_at_app (take_while isdigit s) (drop_while isdigit s)) as Hns'.
  rewrite Hs, Hns in Hns'. injection Hns' as Hns'.
  destruct (drop_while isdigit s) as [|c rest]; [done|]. symmetry in Hns'.
  apply negb_false_iff in Hns' as Hc.
  apply is_space_true in Hc as ->. exists rest. rewrite Hs. by split_and!; [|apply take_while_Forall|].
Qed.

Lemma tryRfc5424_complete d m : Rfc5424 d m → tryRfc5424 d emptyMessage = Ret (Some m).
Proof.
  intros (p & r1 & ts & host & app & pid & rest & mid & text & Hp & Hv & Hw1 & Hw2 & Hw3 & Hw4 &
          Hlast & ->).
  unfold tryRfc5424. rewrite (parsePri_complete _ _ _ Hp). cbn [mbind M_bind].
  pose proof (PriPart_range _ _ _ Hp). rewrite (proj2 (Z.ltb_ge _ _)) by lia.
  apply version_eval in Hv as (vi & -> & Hvi & Hns & Hver & Hrem). cbn [mbind M_bind].
  rewrite (proj2 (Nat.eqb_neq _ _)), (proj2 (Nat.ltb_ge _ _)), Hns by lia.
  cbn [orb mbind M_bind]. rewrite Hver. cbn [mbind M_bind Z.eqb negb].
  rewrite Hrem. change (1 =? 1) with true. cbn [negb mbind M_bind].
  fold (nspaces (ts ++ " "%byte :: host ++ " "%byte :: app ++ " "%byte :: pid ++ " "%byte :: rest)).
  rewrite !nspaces_split by done. rewrite (proj2 (Nat.ltb_ge _ _)) by lia.
  rewrite !parseNilable_word by done. cbn [mbind M_bind].
  rewrite !parseNilable_word by done. cbn [mbind M_bind].
  rewrite !parseNilable_word by done. cbn [mbind M_bind].
  rewrite !parseNilable_word by done. cbn [mbind M_bind].
  rewrite (parseNilable_complete _ _ _ Hlast). cbn [mbind M_bind].
  by rewrite applyPri_eval by lia.
Qed.

Lemma tryRfc5424_total d :
  ∃ o, tryRfc5424 d emptyMessage = Ret o ∧ match o with Some m => Rfc5424 d m | None => True end.
Proof.
  unfold tryRfc5424. destruct (parsePri_sound d) as (p & r1 & -> & Hp). cbn [mbind M_bind].
  destruct (Z.ltb_spec p 0); [by exists None|].
  destruct Hp as [->|Hp]; [lia|]. pose proof (PriPart_range _ _ _ Hp).
  rewrite scan_0. cbn [mbind M_bind]. set (vi := length (take_while isdigit r1)).
  destruct ((vi =? 0)%nat || (2 <? vi)%nat) eqn:Hvi; cbn [mbind M_bind]; [by exists None|].
  apply orb_false_iff in Hvi as [?%Nat.eqb_neq ?%Nat.ltb_ge].
  assert (∃ b, not_space_at r1 vi = Ret b) as [b Hns].
  { pose proof (not_space_at_app (take_while isdigit r1) (drop_while isdigit r1)) as H'.
    rewrite take_drop_while in H'. eauto. }
  rewrite Hns. cbn [mbind M_bind]. destruct b; [by exists None|].
  destruct (version_sound r1 vi) as (ds & body & Hs & Hds & Hl); [apply scan_0|lia|done|].
  clearbody vi. subst r1 vi.
  pose proof (version_loop_app [] ds (" "%byte :: body) 0) as Hv0. cbn [app length] in Hv0.
  rewrite Hv0. cbn [mbind M_bind]. fold (dec_value ds).
  destruct (Z.eqb_spec (dec_value ds) 1) as [Hv|]; cbn [negb]; [|by exists None].
  assert (VersionPart (ds ++ " "%byte :: body) body) as HV
    by (exists ds; split_and!; done || lia).
  pose proof HV as (vi & _ & _ & _ & _ & _)%version_eval.
  rewrite app_snoc. replace (length ds + 1)%nat with (length (ds ++ [" "%byte]))
    by (rewrite length_snoc; lia).
  rewrite remove_prefix_app. cbn [mbind M_bind]. fold (nspaces body).
  destruct (Nat.ltb_spec (nspaces body) 4) as [|Hn]; [by exists None|].
  apply word_split_count in Hn as (ts & b1 & Hw1 & -> & Hn).
  apply word_split_count in Hn as (host & b2 & Hw2 & -> & Hn).
  apply word_split_count in Hn as (app & b3 & Hw3 & -> & Hn).
  apply word_split_count in Hn as (pid & b4 & Hw4 & -> & _).
  destruct (LastField_total b4) as (mid & text & Hlast).
  assert (Rfc5424 d (priMessage RFC5424 d p (Some 1) (nil_field ts) (nil_field host)
            (nil_field app) (nil_field pid) mid text)) as HR.
  { exists p, (ds ++ " "%byte :: (ts ++ " "%byte :: host ++ " "%byte :: app ++ " "%byte ::
      pid ++ " "%byte :: b4)), ts, host, app, pid, b4, mid, text. by split_and!. }
  rewrite !parseNilable_word by done. cbn [mbind M_bind].
  rewrite !parseNilable_word by done. cbn [mbind M_bind].
  rewrite !parseNilable_word by done. cbn [mbind M_bind].
  rewrite !parseNilable_word by done. cbn [mbind M_bind].
  rewrite (parseNilable_complete _ _ _ Hlast). cbn [mbind M_bind].
  rewrite applyPri_eval by lia. eexists. split; [reflexivity|]. rewrite Hv. exact HR.
Qed.

Lemma tryRfc3164_complete d m : Rfc3164 d m → tryRfc3164 d emptyMessage = Ret (Some m).
Proof.
  intros (p & r1 & ts & r2 & host & r3 & app & pid & text & Hp & Ht & Hh & Hg & ->).
  unfold tryRfc3164. rewrite (parsePri_complete _ _ _ Hp). cbn [mbind M_bind].
  pose proof (PriPart_range _ _ _ Hp). rewrite (proj2 (Z.ltb_ge _ _)) by lia.
  rewrite (parse3164Timestamp_complete _ _ _ Ht). cbn [mbind M_bind].
  rewrite (parse3164Host_complete _ _ _ Hh). cbn [mbind M_bind].
  rewrite (parse3164Tag_complete _ _ _ _ Hg). cbn [mbind M_bind].
  by rewrite applyPri_eval by lia.
Qed.

Lemma tryRfc3164_total d :
  ∃ o, tryRfc3164 d emptyMessage = Ret o ∧ match o with Some m => Rfc3164 d m | None => True end.
Proof.
  unfold tryRfc3164. destruct (parsePri_sound d) as (p & r1 & -> & Hp). cbn [mbind M_bind].
  destruct (Z.ltb_spec p 0); [by exists None|].
  destruct Hp as [->|Hp]; [lia|]. pose proof (PriPart_range _ _ _ Hp).
  destruct (parse3164Timestamp_sound r1) as (ts & r2 & -> & Ht). cbn [mbind M_bind].
  destruct ts as [ts|]; [|by exists None].
  destruct (HostPart_total r2) as (host & r3 & Hh).
  rewrite (parse3164Host_complete _ _ _ Hh). cbn [mbind M_bind].
  destruct (TagPart_total r3) as (app & pid & text & Hg).
  rewrite (parse3164Tag_complete _ _ _ _ Hg). cbn [mbind M_bind].
  rewrite applyPri_eval by lia. eexists. split; [reflexivity|].
  exists p, r1, ts, r2, host, r3, app, pid, text. by split_and!.
Qed.

(** ** Stripping the end of the datagram *)

Lemma strip_crlf_loop fuel d eol :
  (length eol < fuel)%nat → Forall (λ c, is_crlf c = true) eol →
  (∀ d' c, d = d' ++ [c] → is_crlf c = false) →
  while_loop fuel (λ d, negb (sv_empty d) &&? (c ← sv_back d; mret (is_crlf c)))
    (λ d, remove_suffix 1 d) (d ++ eol) = Ret d.
Proof.
  revert eol. induction fuel as [|fuel IH]; intros eol Hf He Hd; [lia|].
  rewrite while_loop_S. destruct eol as [|c eol _] using rev_ind.
  - rewrite app_nil_r. destruct d as [|c d _] using rev_ind; [done|].
    assert (sv_empty (d ++ [c]) = false) as -> by by destruct d.
    unfold sv_back. rewrite last_snoc. cbn. by rewrite (Hd d c).
  - apply Forall_app in He as [He Hc]. apply Forall_cons in Hc as [Hc _].
    rewrite app_assoc. assert (sv_empty ((d ++ eol) ++ [c]) = false) as -> by by destruct (d ++ eol).
    unfold sv_back. rewrite last_snoc. cbn [negb mbind M_bind]. rewrite Hc. cbn.
    unfold remove_suffix. rewrite length_snoc. rewrite (proj2 (Nat.leb_le _ _)) by lia.
    replace (S (length (d ++ eol)) - 1)%nat with (length (d ++ eol)) by lia.
    rewrite take_app_length. cbn. apply IH; [|done|done]. rewrite length_snoc in Hf. lia.
Qed.

Lemma strip_crlf_complete data d : Stripped data d → strip_crlf data = Ret d.
Proof.
  intros (eol & -> & He & Hd). apply strip_crlf_loop; [|done|done]. rewrite length_app. lia.
Qed.

Lemma Stripped_total data : ∃ d, Stripped data d.
Proof.
  induction data as [|c data (d & eol & -> & He & Hd)] using rev_ind.
  - exists [], []. split_and!; [done|done|]. by intros [].
  - destruct (is_crlf c) eqn:Hc.
    + exists d, (eol ++ [c]). rewrite app_assoc. split_and!; [done| |done].
      apply Forall_app. by repeat constructor.
    + exists ((d ++ eol) ++ [c]), []. rewrite app_nil_r. split_and!; [done|done|].
      by intros d' c' [_ ->]%app_inj_tail.
Qed.

(** What [parseSyslog] returns, by case on the formats. *)
Lemma parseSyslog_cases data d :
  Stripped data d →
  (∃ m, parseSyslog data = Ret m ∧ Rfc5424 d m) ∨
  (∃ m, parseSyslog data = Ret m ∧ (∀ m', ¬ Rfc5424 d m') ∧ Rfc3164 d m) ∨
  (parseSyslog data = Ret (unknownMessage d) ∧ (∀ m', ¬ Rfc5424 d m') ∧ (∀ m', ¬ Rfc3164 d m')).
Proof.
  intros Hs. unfold parseSyslog. rewrite (strip_crlf_complete _ _ Hs). cbn [mbind M_bind].
  destruct (tryRfc5424_total d) as ([m|] & E & H5); rewrite E; cbn [mbind M_bind].
  { left. by exists m. }
  assert (∀ m', ¬ Rfc5424 d m') as Hno5 by (intros m' ?%tryRfc5424_complete; congruence).
  destruct (tryRfc3164_total d) as ([m|] & E' & H3); rewrite E'; cbn [mbind M_bind].
  { right; left. by exists m. }
  right; right. split_and!; [done|done|]. intros m' ?%tryRfc3164_complete. congruence.
Qed.

Lemma Stripped_fun data d d' : Stripped data d → Stripped data d' → d = d'.
Proof. intros H%strip_crlf_complete H'%strip_crlf_complete. congruence. Qed.

Lemma Stripped_app pre s s' :
  (∀ d' c, pre = d' ++ [c] → is_crlf c = false) → Stripped s s' → Stripped (pre ++ s) (pre ++ s').
Proof.
  intros Hp (eol & -> & He & Hs). exists eol. rewrite app_assoc. split_and!; [done|done|].
  intros d' c. destruct s' as [|x s' _] using rev_ind; [by rewrite app_nil_r; apply Hp|].
  rewrite app_assoc. intros [_ ->]%app_inj_tail. by eapply Hs.
Qed.

(** The PRI fields of a message, and the names they are logged under. *)
Definition PriFields (m : SyslogMessage) : Prop :=
  ∃ p f s fn sn,
    pri m = Some p ∧ facility m = Some f ∧ severity m = Some s ∧
    p = 8 * f + s ∧ 0 <= f <= 23 ∧ 0 <= s <= 7 ∧
    facilityName m = Some fn ∧ facilityFromName fn = Some f ∧
    severityName m = Some sn ∧ severityFromName sn = Some s.

Lemma priMessage_fields proto d p ver ts host app pid mid text :
  0 <= p <= 191 → PriFields (priMessage proto d p ver ts host app pid mid text).
Proof.
  intros Hp. assert (0 <= Z.quot p 8 < 24 ∧ 0 <= Z.rem p 8 < 8 ∧ p = 8 * Z.quot p 8 + Z.rem p 8)
    as (Hf & Hs & Heq).
  { rewrite Z.quot_div_nonneg, Z.rem_mod_nonneg by lia.
    pose proof (Z.mod_pos_bound p 8). pose proof (Z.div_mod p 8). lia. }
  destruct (name_at_eval kFacilityNames (Z.quot p 8)) as (fn & Hfn & _); [done|].
  destruct (name_at_eval kSeverityNames (Z.rem p 8)) as (sn & Hsn & _); [done|].
  exists p, (Z.quot p 8), (Z.rem p 8), fn, sn.
  pose proof (kFacilityNames_back _ _ Hfn). pose proof (kSeverityNames_back _ _ Hsn).
  rewrite Z2Nat.id in * by lia. split_and!; done || lia.
Qed.

Lemma Rfc5424_pri d m : Rfc5424 d m → PriFields m ∧ raw m = d ∧ protocol m = RFC5424.
Proof.
  intros (p & ? & ? & ? & ? & ? & ? & ? & ? & Hp%PriPart_range & _ & _ & _ & _ & _ & _ & ->).
  split; [by apply priMessage_fields|done].
Qed.
Lemma Rfc3164_pri d m : Rfc3164 d m → PriFields m ∧ raw m = d ∧ protocol m = RFC3164.
Proof.
  intros (p & ? & ? & ? & ? & ? & ? & ? & ? & Hp%PriPart_range & _ & _ & _ & ->).
  split; [by apply priMessage_fields|done].
Qed.

(** What the grammar reads is what is returned. *)
Lemma parseSyslog_returns data m : Syslog data m → parseSyslog data = Ret m.
Proof.
  intros (d & Hd & H).
  destruct (parseSyslog_cases data d Hd)
    as [(m' & -> & H5)|[(m' & -> & Hno5 & H3)|(-> & Hno5 & Hno3)]].
  - destruct H as [H|(Hno & _)]; [|by destruct (Hno m')].
    apply tryRfc5424_complete in H, H5. congruence.
  - destruct H as [H|(_ & [H|[Hno _]])]; [by destruct (Hno5 m)| |by destruct (Hno m')].
    apply tryRfc3164_complete in H, H3. congruence.
  - destruct H as [H|(_ & [H|[_ ->]])]; [by destruct (Hno5 m)|by destruct (Hno3 m)|done].
Qed.

(** The message of any datagram, and the text it keeps. *)
Lemma parseSyslog_raw data : ∃ m, parseSyslog data = Ret m ∧ Stripped data (raw m).
Proof.
  destruct (Stripped_total data) as [d Hd].
  destruct (parseSyslog_cases data d Hd) as [(m & ? & H)|[(m & ? & _ & H)|(? & _)]].
  - exists m. split; [done|]. by destruct (Rfc5424_pri _ _ H) as (_ & -> & _).
  - exists m. split; [done|]. by destruct (Rfc3164_pri _ _ H) as (_ & -> & _).
  - eexists. split; [done|]. done.
Qed.

(** ** Theorems *)

(** [parseSyslog] returns for every datagram: it never throws, never reads
    outside the datagram or a name table, never shortens a view past its end,
    never fails the assertion on the PRI, and its loops end. *)
Theorem parseSyslog_total data : ∃ m, parseSyslog data = Ret m.
Proof.
  destruct (Stripped_total data) as [d Hd].
  destruct (parseSyslog_cases data d Hd) as [(m & ? & _)|[(m & ? & _)|(? & _)]]; eauto.
Qed.

(** C8. [parseSyslog] implements the grammar: it returns [m] exactly when [m]
    is the reading of the datagram, less its trailing CR/LF, as RFC 5424, else
    as RFC 3164, else as an unrecognised message. *)
Theorem parseSyslog_grammar data m : parseSyslog data = Ret m ↔ Syslog data m.
Proof.
  split; [|apply parseSyslog_returns]. intros Hm.
  destruct (Stripped_total data) as [d Hd].
  destruct (parseSyslog_cases data d Hd) as [(m' & E & H)|[(m' & E & H)|(E & H)]];
    rewrite E in Hm; injection Hm as <-; exists d; tauto.
Qed.

(** A message that parsed as either RFC has a PRI in 0-191 that splits into
    its facility and severity, each logged under a name that the config and the
    sender map back to the same code; an unrecognised one has no PRI field at
    all and keeps its text whole. The raw text is the datagram, stripped. *)
Theorem parseSyslog_fields data m :
  parseSyslog data = Ret m →
  Stripped data (raw m) ∧ srcIp m = [] ∧
  match protocol m with
  | Unknown => pri m = None ∧ facility m = None ∧ severity m = None ∧
               facilityName m = None ∧ severityName m = None ∧ message m = raw m
  | _ => PriFields m
  end.
Proof.
  intros Hm. destruct (Stripped_total data) as [d Hd].
  destruct (parseSyslog_cases data d Hd) as [(m' & E & H)|[(m' & E & _ & H)|(E & _)]];
    rewrite E in Hm; injection Hm as <-.
  - pose proof (Rfc5424_pri _ _ H) as (? & -> & ->).
    destruct H as (? & ? & ? & ? & ? & ? & ? & ? & ? & H). destruct_and!. by subst.
  - pose proof (Rfc3164_pri _ _ H) as (? & -> & ->).
    destruct H as (? & ? & ? & ? & ? & ? & ? & ? & ? & H). destruct_and!. by subst.
  - by split_and!.
Qed.

Lemma parseSyslog_fields_witness :
  Stripped (lit "<34>1 - h a p m x" ++ [x0a]) (lit "<34>1 - h a p m x") ∧
  ∃ m, parseSyslog (lit "<34>1 - h a p m x" ++ [x0a]) = Ret m ∧ protocol m = RFC5424.
Proof.
  set (r := parseSyslog (lit "<34>1 - h a p m x" ++ [x0a])). vm_compute in r.
  match eval unfold r in r with
  | Ret ?m => pose proof (parseSyslog_fields (lit "<34>1 - h a p m x" ++ [x0a]) m eq_refl) as [H _];
              split; [exact H|exists m; split; reflexivity]
  end.
Defined.
