(* ===== verification/SendFormat.v ===== *)
(** * minilog-send: building a datagram (src/src/send/syslog_format.cpp, main.cpp)

    The fields of a message, their validation, the two wire formats, the two
    timestamps, the splitting of stdin into messages, and [buildDatagram]. *)

From S2P Require Import Prelude Names Parser ParserSpec.

(** ** Data (syslog_format.hpp) *)

Record SyslogFields := mkFields {
  sf_facility : Z;
  sf_severity : Z;
  sf_timestamp : bytes;
  sf_hostname : bytes;
  sf_app : bytes;
  sf_pid : option bytes;
  sf_msgid : option bytes;
  sf_message : bytes
}.

Record LocalTime := mkLocalTime {
  tm_year : Z; tm_mon : Z; tm_mday : Z; tm_hour : Z; tm_min : Z; tm_sec : Z;
  microseconds : Z;
  utcOffsetSeconds : Z
}.

Definition kMaxDatagramBytes : Z := 65507.

(** ** Formatting *)

Definition send_pri (f : SyslogFields) : bytes :=
  lit "<" ++ to_string (sf_facility f * 8 + sf_severity f) ++ lit ">".

Definition nilable (v : option bytes) : bytes := default (lit "-") v.

Definition padded (value : Z) (width : nat) (fill : byte) : bytes :=
  let s := to_string value in
  if (width <=? length s)%nat then s else replicate (width - length s) fill ++ s.

Definition formatRfc5424 (f : SyslogFields) : bytes :=
  send_pri f ++ lit "1 " ++ sf_timestamp f ++ lit " " ++ sf_hostname f ++ lit " " ++ sf_app f
    ++ lit " " ++ nilable (sf_pid f) ++ lit " " ++ nilable (sf_msgid f) ++ lit " - "
    ++ sf_message f.

Definition send_tag (f : SyslogFields) : bytes :=
  match sf_pid f with
  | Some pid => sf_app f ++ lit "[" ++ pid ++ lit "]"
  | None => sf_app f
  end.

Definition formatRfc3164 (f : SyslogFields) : bytes :=
  send_pri f ++ sf_timestamp f ++ lit " " ++ sf_hostname f ++ lit " " ++ send_tag f ++ lit ": "
    ++ sf_message f.

(** ** Validation *)

Fixpoint token_loop (s : bytes) : bool :=
  match s with
  | [] => true
  | c :: s' => if (bval c <? 33) || (126 <? bval c) then false else token_loop s'
  end.
Definition isPrintableAsciiToken (s : bytes) : bool :=
  if sv_empty s then false else token_loop s.

Definition requireToken (what value : bytes) : M unit :=
  if isPrintableAsciiToken value then mret tt else
  Throw (RuntimeError (what ++ lit " must be one word of printable ASCII, got '" ++ value
                         ++ lit "'")).

Definition requireAtMost (what value : bytes) (max : Z) (rfc : bytes) : M unit :=
  if max <? zlen value then
    Throw (RuntimeError (what ++ lit " is " ++ to_string (zlen value) ++ lit " characters; "
                           ++ rfc ++ lit " allows at most " ++ to_string max))
  else mret tt.

(** [value.find_first_of(forbidden) != npos] *)
Definition contains_any (value forbidden : bytes) : bool :=
  existsb (λ c, bool_decide (c ∈ forbidden)) value.

Definition requireNoneOf (what value forbidden : bytes) : M unit :=
  if contains_any value forbidden then
    Throw (RuntimeError (what ++ lit " cannot contain any of '" ++ forbidden
                           ++ lit "' in an RFC 3164 message, got '" ++ value ++ lit "'"))
  else mret tt.

Definition validateFields (f : SyslogFields) (rfc3164 : bool) : M unit :=
  (if (sf_facility f <? 0) || (23 <? sf_facility f) then
     Throw (RuntimeError (lit "facility must be 0-23, got " ++ to_string (sf_facility f)))
   else mret tt);;
  (if (sf_severity f <? 0) || (7 <? sf_severity f) then
     Throw (RuntimeError (lit "severity must be 0-7, got " ++ to_string (sf_severity f)))
   else mret tt);;
  requireToken (lit "hostname") (sf_hostname f);;
  requireToken (lit "app") (sf_app f);;
  when_some (sf_pid f) (requireToken (lit "pid"));;
  (if rfc3164 then
     requireNoneOf (lit "app") (sf_app f) (lit "[]:");;
     when_some (sf_pid f) (λ pid, requireNoneOf (lit "pid") pid (lit "[]:"));;
     (if bool_decide (is_Some (sf_msgid f)) then
        Throw (RuntimeError (lit "--msgid has no field to go in with --rfc3164"))
      else mret tt);;
     requireAtMost (lit "the tag APP[PID]") (send_tag f) 32 (lit "RFC 3164")
   else
     requireAtMost (lit "hostname") (sf_hostname f) 255 (lit "RFC 5424");;
     requireAtMost (lit "app") (sf_app f) 48 (lit "RFC 5424");;
     when_some (sf_pid f) (λ pid, requireAtMost (lit "pid") pid 128 (lit "RFC 5424"));;
     when_some (sf_msgid f) (λ mid,
       requireToken (lit "msgid") mid;;
       requireAtMost (lit "msgid") mid 32 (lit "RFC 5424")));;
  (if sv_empty (sf_message f) then Throw (RuntimeError (lit "the message is empty"))
   else mret tt).

(** ** Timestamps *)

Definition rfc5424Timestamp (t : LocalTime) : bytes :=
  let offset := utcOffsetSeconds t in
  let sign := if offset <? 0 then "-"%byte else "+"%byte in
  let absOff := if offset <? 0 then - offset else offset in
  padded (tm_year t + 1900) 4 "0" ++ lit "-" ++ padded (tm_mon t + 1) 2 "0" ++ lit "-" ++
  padded (tm_mday t) 2 "0" ++ lit "T" ++ padded (tm_hour t) 2 "0" ++ lit ":" ++
  padded (tm_min t) 2 "0" ++ lit ":" ++ padded (tm_sec t) 2 "0" ++ lit "." ++
  padded (microseconds t) 6 "0" ++ [sign] ++ padded (Z.quot absOff 3600) 2 "0" ++ lit ":" ++
  padded (Z.quot (Z.rem absOff 3600) 60) 2 "0".

Definition rfc3164Timestamp (t : LocalTime) : M bytes :=
  mon ← name_at kMonths (tm_mon t);
  mret (mon ++ lit " " ++ padded (tm_mday t) 2 " " ++ lit " " ++ padded (tm_hour t) 2 "0" ++
        lit ":" ++ padded (tm_min t) 2 "0" ++ lit ":" ++ padded (tm_sec t) 2 "0").

(** ** Splitting stdin *)

Definition split_body : list bytes * bytes → M (list bytes * bytes) := λ '(lines, text),
  let nl := sv_find x0a text in
  line ← substr 0 (match nl with Some i => i | None => length text end) text;
  text ← remove_prefix (match nl with Some i => i + 1 | None => length text end) text;
  cr ← negb (sv_empty line) &&? (c ← sv_back line; mret (bool_decide (c = x0d)));
  line ← (if (cr : bool) then remove_suffix 1 line else mret line);
  mret (if sv_empty line then lines else lines ++ [line], text).

Definition splitLines (text : bytes) : M (list bytes) :=
  '(lines, _) ← while_loop (S (length text)) (λ '(_, text), mret (negb (sv_empty text)))
                  split_body ([], text);
  mret lines.

(** ** One datagram (main.cpp) *)

Definition send_timestamp (rfc3164 : bool) (now : LocalTime) : M bytes :=
  if rfc3164 then rfc3164Timestamp now else mret (rfc5424Timestamp now).

Definition buildDatagram (base : SyslogFields) (msg : bytes) (rfc3164 : bool) (now : LocalTime)
    : M bytes :=
  ts ← send_timestamp rfc3164 now;
  let f := mkFields (sf_facility base) (sf_severity base) ts (sf_hostname base) (sf_app base)
             (sf_pid base) (sf_msgid base) msg in
  validateFields f rfc3164;;
  let datagram := if rfc3164 then formatRfc3164 f else formatRfc5424 f in
  if kMaxDatagramBytes <? zlen datagram then
    Throw (RuntimeError (lit "the message is " ++ to_string (zlen datagram) ++
             lit " bytes with its header; a UDP datagram holds at most " ++
             to_string kMaxDatagramBytes))
  else mret datagram.

Example timestamps :
  let t := mkLocalTime 126 8 23 14 7 31 123456 7200 in
  rfc5424Timestamp t = lit "2026-09-23T14:07:31.123456+02:00" ∧
  rfc3164Timestamp (mkLocalTime 126 8 3 14 7 31 123456 7200) = Ret (lit "Sep  3 14:07:31").
Proof. vm_compute. split; reflexivity. Qed.

Example split_ex :
  splitLines (lit "a" ++ [x0d; x0a; x0a] ++ lit "b") = Ret [lit "a"; lit "b"].
Proof. vm_compute. reflexivity. Qed.

(** ** What validation accepts *)

Definition token (s : bytes) : Prop := s ≠ [] ∧ Forall (λ c, 33 <= bval c <= 126) s.
Definition none_of (forbidden s : bytes) : Prop := Forall (λ c, c ∉ forbidden) s.

(** The grammar of each format, and its length limits. *)
Definition ValidFields (f : SyslogFields) (rfc3164 : bool) : Prop :=
  0 <= sf_facility f <= 23 ∧ 0 <= sf_severity f <= 7 ∧
  token (sf_hostname f) ∧ token (sf_app f) ∧ opt_all token (sf_pid f) ∧
  (if rfc3164
   then none_of (lit "[]:") (sf_app f) ∧ opt_all (none_of (lit "[]:")) (sf_pid f) ∧
        sf_msgid f = None ∧ zlen (send_tag f) <= 32
   else zlen (sf_hostname f) <= 255 ∧ zlen (sf_app f) <= 48 ∧
        opt_all (λ pid, zlen pid <= 128) (sf_pid f) ∧
        opt_all (λ mid, token mid ∧ zlen mid <= 32) (sf_msgid f)) ∧
  sf_message f ≠ [].

Lemma isPrintableAsciiToken_spec s : isPrintableAsciiToken s = true ↔ token s.
Proof.
  assert (Hl : token_loop s = true ↔ Forall (λ c, 33 <= bval c <= 126) s).
  { induction s as [|c s IH]; cbn; [by split|]. rewrite Forall_cons, <- IH.
    destruct ((bval c <? 33) || (126 <? bval c)) eqn:E.
    - split; [done|]. intros [? _]. apply orb_true_iff in E as [?%Z.ltb_lt|?%Z.ltb_lt]; lia.
    - apply orb_false_iff in E as [?%Z.ltb_ge ?%Z.ltb_ge]. split; [|tauto]. by split; [lia|]. }
  unfold isPrintableAsciiToken, token. rewrite <- Hl. destruct s; cbn; (split; [done|by intros []]).
Qed.

Lemma contains_any_false s forbidden : contains_any s forbidden = false ↔ none_of forbidden s.
Proof.
  unfold none_of, contains_any. induction s as [|c s IH]; cbn; [by split|].
  rewrite orb_false_iff, IH, Forall_cons, bool_decide_eq_false. done.
Qed.

Lemma requireToken_validates what s : validates (requireToken what s) (token s).
Proof. eapply validates_iff; [apply validates_ok|apply isPrintableAsciiToken_spec]. Qed.
Lemma requireAtMost_validates what s max rfc :
  validates (requireAtMost what s max rfc) (zlen s <= max).
Proof. eapply validates_iff; [apply validates_throw|apply Z.ltb_ge]. Qed.
Lemma requireNoneOf_validates what s forbidden :
  validates (requireNoneOf what s forbidden) (none_of forbidden s).
Proof. eapply validates_iff; [apply validates_throw|apply contains_any_false]. Qed.
#[export] Hint Extern 1 (validates (requireToken _ _) _) =>
  apply requireToken_validates : validates.
#[export] Hint Extern 1 (validates (requireAtMost _ _ _ _) _) =>
  apply requireAtMost_validates : validates.
#[export] Hint Extern 1 (validates (requireNoneOf _ _ _) _) =>
  apply requireNoneOf_validates : validates.

Lemma out_of_range_false z lo hi : (z <? lo) || (hi <? z) = false ↔ lo <= z <= hi.
Proof. rewrite orb_false_iff, !Z.ltb_ge. lia. Qed.
Lemma sv_empty_false s : sv_empty s = false ↔ s ≠ [].
Proof. by destruct s. Qed.
Lemma is_Some_false {A} (o : option A) : bool_decide (is_Some o) = false ↔ o = None.
Proof. rewrite bool_decide_eq_false. symmetry. apply eq_None_not_Some. Qed.

Lemma validateFields_validates f b : validates (validateFields f b) (ValidFields f b).
Proof.
  unfold validateFields, ValidFields. destruct b; eapply validates_iff.
  1, 3: split_checks.
  all: rewrite !out_of_range_false, sv_empty_false, ?is_Some_false; reflexivity.
Qed.

(** ** The parser on what the sender builds *)

Lemma token_word s : token s → word s.
Proof.
  intros [_ Hf] Hin. rewrite Forall_forall in Hf. specialize (Hf _ Hin).
  change (bval " "%byte) with 32 in Hf. lia.
Qed.

Lemma opt_token_word o : opt_all token o → word (nilable o).
Proof.
  destruct o as [s|]; cbn; [apply token_word|]. intros _.
  apply sv_find_None. vm_compute. reflexivity.
Qed.

Lemma word_app s t : word s → word t → word (s ++ t).
Proof. unfold word. rewrite elem_of_app. tauto. Qed.

Lemma padded_word v n : word (padded v n "0").
Proof.
  destruct (to_string_bytes v) as [_ Hf].
  assert (word (to_string v)) as Hw.
  { intros Hin. rewrite Forall_forall in Hf. by destruct (Hf _ Hin). }
  unfold padded. case_match; [done|]. apply word_app; [|done].
  intros Hin%elem_of_replicate. by destruct Hin.
Qed.

Lemma rfc5424Timestamp_field t :
  word (rfc5424Timestamp t) ∧ nil_field (rfc5424Timestamp t) = Some (rfc5424Timestamp t).
Proof.
  unfold rfc5424Timestamp. set (sign := if _ <? 0 then _ else _).
  assert (word [sign]) as Hs.
  { unfold sign. case_match; apply sv_find_None; vm_compute; reflexivity. }
  split.
  - repeat apply word_app; try apply padded_word; try done;
      apply sv_find_None; vm_compute; reflexivity.
  - unfold nil_field. rewrite decide_False; [done|]. intros H%(f_equal length).
    rewrite !length_app in H. cbn in H. lia.
Qed.

(** A field written by [nilable] comes back as the option, except that the
    value [-] is the receiver's NILVALUE. *)
Lemma nil_field_nilable o : nil_field (nilable o) = o ≫= nil_field.
Proof. destruct o; [done|]. vm_compute. reflexivity. Qed.

Lemma send_pri_part f rest :
  0 <= sf_facility f <= 23 → 0 <= sf_severity f <= 7 →
  PriPart (send_pri f ++ rest) (sf_facility f * 8 + sf_severity f) rest.
Proof.
  intros Hf Hs. set (p := sf_facility f * 8 + sf_severity f).
  assert (Hp : 0 <= p <= 191) by (unfold p; lia).
  destruct (to_string_nat_spec p) as (Hne & Hd & Hv & _); [lia|].
  assert (zlen (to_string p) <= 3) by (apply to_string_length; lia).
  exists (to_string p). unfold send_pri. fold p.
  split_and!; [by rewrite <- !app_assoc|done| | |done|lia].
  - destruct (to_string p); cbn; [done|lia].
  - unfold zlen in *. lia.
Qed.

Lemma pri_split f s :
  0 <= f <= 23 → 0 <= s <= 7 → Z.quot (f * 8 + s) 8 = f ∧ Z.rem (f * 8 + s) 8 = s.
Proof.
  intros. rewrite Z.quot_div_nonneg, Z.rem_mod_nonneg by lia.
  split; Z.div_mod_to_equations; lia.
Qed.

Lemma ends_not_crlf pre suf c :
  is_crlf c = false → suf = [c] ∨ (∃ s, suf = s ++ [c]) →
  ∀ d' c', pre ++ suf = d' ++ [c'] → is_crlf c' = false.
Proof.
  intros Hc [->|[s ->]] d' c'; rewrite ?app_assoc; by intros [_ <-]%app_inj_tail.
Qed.

Lemma formatRfc5424_reads f m' :
  ValidFields f false → word (sf_timestamp f) → Stripped (sf_message f) m' →
  ∃ d, parseSyslog (formatRfc5424 f) =
       Ret (priMessage RFC5424 d (sf_facility f * 8 + sf_severity f) (Some 1)
              (nil_field (sf_timestamp f)) (nil_field (sf_hostname f)) (nil_field (sf_app f))
              (sf_pid f ≫= nil_field) (sf_msgid f ≫= nil_field) (lit "- " ++ m')).
Proof.
  intros (Hf & Hs & Hh & Ha & Hp & (_ & _ & _ & Hm) & _) Ht Hstr.
  set (pre := send_pri f ++ lit "1 " ++ sf_timestamp f ++ lit " " ++ sf_hostname f ++ lit " " ++
    sf_app f ++ lit " " ++ nilable (sf_pid f) ++ lit " " ++ nilable (sf_msgid f) ++ lit " - ").
  assert (formatRfc5424 f = pre ++ sf_message f) as ->
    by (unfold formatRfc5424, pre; by rewrite <- !app_assoc).
  exists (pre ++ m'). apply parseSyslog_returns.
  exists (pre ++ m'). split.
  { apply Stripped_app; [|done]. unfold pre. rewrite !app_assoc.
    apply ends_not_crlf with (c := " "%byte); [done|]. right. by exists (lit " -"). }
  left. exists (sf_facility f * 8 + sf_severity f),
    (lit "1 " ++ sf_timestamp f ++ lit " " ++ sf_hostname f ++ lit " " ++ sf_app f ++ lit " " ++
     nilable (sf_pid f) ++ lit " " ++ nilable (sf_msgid f) ++ lit " - " ++ m'),
    (sf_timestamp f), (sf_hostname f), (sf_app f), (nilable (sf_pid f)),
    (nilable (sf_msgid f) ++ lit " - " ++ m'), (nil_field (nilable (sf_msgid f))),
    (lit "- " ++ m').
  split; [unfold pre; rewrite <- !app_assoc; by apply send_pri_part|].
  split.
  { exists (lit "1"). split; [reflexivity|]. split; [|split; [change (length (lit "1")) with 1%nat; lia|reflexivity]].
    apply Forall_singleton. reflexivity. }
  split_and!; [exact Ht|by apply token_word|by apply token_word|by apply opt_token_word| |].
  - right; right. exists (nilable (sf_msgid f)). split; [|split; reflexivity].
    apply opt_token_word. destruct (sf_msgid f); [apply Hm|done].
  - rewrite !nil_field_nilable. reflexivity.
Qed.

(** The clock and the day as printed. *)
Definition padded2_check (v : Z) : bool :=
  match padded v 2 "0" with
  | [a; b] => isdigit a && isdigit b && (dec_value [a; b] =? v)
  | _ => false
  end.
Lemma padded2 v :
  0 <= v <= 99 →
  ∃ a b, padded v 2 "0" = [a; b] ∧ isdigit a = true ∧ isdigit b = true ∧ dec_value [a; b] = v.
Proof.
  intros Hv. assert (padded2_check v = true) as H.
  { apply (forall_range padded2_check 0 100); [vm_compute; reflexivity|lia]. }
  unfold padded2_check in H. destruct (padded v 2 "0") as [|a [|b [|]]]; try done.
  rewrite !andb_true_iff, Z.eqb_eq in H. destruct_and!. by exists a, b.
Qed.

Definition day_check (v : Z) : bool :=
  let s := padded v 2 " " in
  let day := drop_while is_space s in
  forallb isdigit day && (1 <=? length day)%nat && (length day <=? 2)%nat && (dec_value day =? v).
Lemma padded_day v :
  1 <= v <= 31 →
  ∃ sp day, padded v 2 " " = sp ++ day ∧ Forall (λ c, is_space c = true) sp ∧ digits day ∧
            (1 ≤ length day ≤ 2)%nat ∧ dec_value day = v.
Proof.
  intros Hv. assert (day_check v = true) as H.
  { apply (forall_range day_check 1 31); [vm_compute; reflexivity|lia]. }
  unfold day_check in H. rewrite !andb_true_iff, Z.eqb_eq, !Nat.leb_le in H. destruct_and!.
  exists (take_while is_space (padded v 2 " ")), (drop_while is_space (padded v 2 " ")).
  rewrite take_drop_while. split_and!; [done|apply take_while_Forall| |done|done|done].
  apply Forall_forall. intros c Hc%list_elem_of_In.
  match goal with H : forallb _ _ = true |- _ => by apply (proj1 (forallb_forall _ _) H) end.
Qed.

(** A broken-down time within the ranges of [std::tm] (no leap second). *)
Definition ValidTime (t : LocalTime) : Prop :=
  0 <= tm_mon t <= 11 ∧ 1 <= tm_mday t <= 31 ∧ 0 <= tm_hour t <= 23 ∧ 0 <= tm_min t <= 59 ∧
  0 <= tm_sec t <= 59.

Lemma kMonths_alpha :
  Forall (λ m, match m with c :: _ => isdigit c = false | [] => False end) kMonths.
Proof. repeat constructor. Qed.

Lemma rfc3164Timestamp_part t r :
  ValidTime t →
  ∃ ts, rfc3164Timestamp t = Ret ts ∧ TimestampPart (ts ++ r) ts (skip_space r).
Proof.
  intros (Hmon & Hd & Hh & Hm & Hs). unfold rfc3164Timestamp.
  destruct (name_at_eval kMonths (tm_mon t)) as (mon & Hl & ->); [change (zlen kMonths) with 12; lia|].
  destruct (padded_day _ Hd) as (sp & day & -> & Hsp & Hday & Hlen & Hdv).
  destruct (padded2 (tm_hour t)) as (h1 & h0 & -> & Hh1 & Hh0 & Hhv); [lia|].
  destruct (padded2 (tm_min t)) as (m1 & m0 & -> & Hm1 & Hm0 & Hmv); [lia|].
  destruct (padded2 (tm_sec t)) as (s1 & s0 & -> & Hs1 & Hs0 & Hsv); [lia|].
  eexists. split; [reflexivity|].
  exists mon, (lit " " ++ sp), day, (lit " "), [h1; h0; ":"%byte; m1; m0; ":"%byte; s1; s0], r.
  split; [done|]. split; [by rewrite <- !app_assoc|]. split.
  { apply list_elem_of_lookup. eauto. }
  split_and!; try lia; try done.
  - split; [done|]. apply Forall_app. split; [|done]. by apply Forall_singleton.
  - split; [done|]. by apply Forall_singleton.
  - exists h1, h0, m1, m0, s1, s0. split_and!; [done| |lia|lia|lia].
    unfold digits. by repeat (apply Forall_cons; split; [done|]).
Qed.

Lemma send_tag_part f rest :
  token (sf_app f) → opt_all token (sf_pid f) →
  none_of (lit "[]:") (sf_app f) → opt_all (none_of (lit "[]:")) (sf_pid f) →
  TagPart (send_tag f ++ lit ": " ++ rest) (Some (sf_app f)) (sf_pid f) rest.
Proof.
  intros Ha Hp Hna Hnp.
  assert (Hno : ∀ c s, c ∈ lit "[]:" → none_of (lit "[]:") s → c ∉ s).
  { intros c s Hc Hf Hin. unfold none_of in Hf. rewrite Forall_forall in Hf. by apply (Hf c). }
  assert (Hb : "["%byte ∈ lit "[]:") by (apply (bool_decide_unpack _); vm_compute; exact I).
  assert (Hcol : ":"%byte ∈ lit "[]:") by (apply (bool_decide_unpack _); vm_compute; exact I).
  assert (Hne : nonempty (sf_app f) = Some (sf_app f)).
  { destruct Ha as [Ha _]. unfold nonempty. by destruct (sf_app f). }
  left. exists (send_tag f), (" "%byte :: rest). split; [done|].
  unfold send_tag. destruct (sf_pid f) as [pid|]; cbn [opt_all] in *.
  - split_and!; [| |done|].
    + rewrite !elem_of_app. intros [H|[H|[H|H]]].
      1: by apply (Hno ":"%byte (sf_app f)). 2: by apply (Hno ":"%byte pid).
      all: contradict H; apply sv_find_None; vm_compute; reflexivity.
    + apply word_app; [by apply token_word|]. apply word_app; [apply sv_find_None; by vm_compute|].
      apply word_app; [by apply token_word|apply sv_find_None; by vm_compute].
    + left. exists (sf_app f), pid. split_and!; [done|by apply Hno|done|].
      destruct Hp as [Hp _]. unfold nonempty. by destruct pid.
  - split_and!; [by apply Hno|by apply token_word|done|].
    right. split_and!; [|done|done]. intros a p Hbr. unfold Bracketed in Hbr.
    apply (Hno "["%byte (sf_app f)); [done|done|]. rewrite Hbr. apply elem_of_app. right. by left.
Qed.

Lemma formatRfc3164_reads f t m' :
  ValidFields f true → ValidTime t → rfc3164Timestamp t = Ret (sf_timestamp f) →
  Stripped (sf_message f) m' →
  ∃ d, parseSyslog (formatRfc3164 f) =
       Ret (priMessage RFC3164 d (sf_facility f * 8 + sf_severity f) None
              (Some (sf_timestamp f)) (Some (sf_hostname f)) (Some (sf_app f)) (sf_pid f) None m').
Proof.
  intros (Hf & Hs & Hh & Ha & Hp & (Hna & Hnp & _ & _) & _) Ht Hts Hstr.
  set (pre := send_pri f ++ sf_timestamp f ++ lit " " ++ sf_hostname f ++ lit " " ++ send_tag f
                ++ lit ": ").
  assert (formatRfc3164 f = pre ++ sf_message f) as ->
    by (unfold formatRfc3164, pre; by rewrite <- !app_assoc).
  set (r3 := send_tag f ++ lit ": " ++ m').
  set (r2 := sf_hostname f ++ lit " " ++ r3).
  set (r1 := sf_timestamp f ++ lit " " ++ r2).
  assert (Hd : pre ++ m' = send_pri f ++ r1)
    by (unfold pre, r1, r2, r3; by rewrite <- !app_assoc).
  exists (pre ++ m'). apply parseSyslog_returns. exists (pre ++ m'). split.
  { apply Stripped_app; [|done]. unfold pre. rewrite !app_assoc.
    apply ends_not_crlf with (c := " "%byte); [done|]. right. by exists (lit ":"). }
  rewrite Hd. pose proof (send_pri_part f r1 Hf Hs) as Hpri. right. split.
  - intros m (p & r1' & ? & ? & ? & ? & ? & ? & ? & Hpri' & Hver & _).
    apply parsePri_complete in Hpri, Hpri'. rewrite Hpri in Hpri'. injection Hpri' as <- <-.
    destruct Hver as (ds & Hr1 & Hds & Hl & _).
    destruct (rfc3164Timestamp_part t (lit " " ++ r2) Ht) as (ts & Hts' & Hpart).
    rewrite Hts in Hts'. injection Hts' as <-.
    destruct Hpart as (mon & ? & ? & ? & ? & ? & ? & Heq & Hmon & _).
    fold r1 in Hr1. destruct ds as [|c ds]; [cbn in Hl; lia|].
    apply Forall_cons in Hds as [Hc _].
    assert (Hm1 : ∃ c' mon', mon = c' :: mon' ∧ isdigit c' = false).
    { pose proof kMonths_alpha as Hal. rewrite Forall_forall in Hal. specialize (Hal _ Hmon).
      destruct mon as [|c' mon']; [done|]. by exists c', mon'. }
    destruct Hm1 as (c' & mon' & -> & Hc'). unfold r1 in Hr1. rewrite Heq in Hr1.
    injection Hr1 as -> _. congruence.
  - left. destruct (rfc3164Timestamp_part t (lit " " ++ r2) Ht) as (ts & Hts' & Hpart).
    rewrite Hts in Hts'. injection Hts' as <-.
    exists (sf_facility f * 8 + sf_severity f), r1, (sf_timestamp f), r2,
      (Some (sf_hostname f)), r3, (Some (sf_app f)), (sf_pid f), m'.
    split_and!; [done|exact Hpart| |by apply send_tag_part|done].
    right; right. exists (sf_hostname f). split_and!; [by apply token_word|done|done].
Qed.

(** ** Lines of stdin *)

(** A line less one trailing CR. *)
Definition drop_cr (line : bytes) : bytes :=
  match last line with
  | Some c => if decide (c = x0d) then take (length line - 1) line else line
  | None => line
  end.

Definition lines_spec (text : bytes) : list bytes :=
  filter (λ l, l ≠ []) (drop_cr <$> split_on x0a text).

Lemma drop_cr_eval line :
  (cr ← negb (sv_empty line) &&? (c ← sv_back line; mret (bool_decide (c = x0d)));
   if (cr : bool) then remove_suffix 1 line else mret line) = Ret (drop_cr line).
Proof.
  unfold drop_cr, sv_back. destruct line as [|c line _] using rev_ind; [done|].
  assert (sv_empty (line ++ [c]) = false) as -> by by destruct line.
  rewrite last_snoc. cbn. case_bool_decide; cbn; [|by rewrite decide_False].
  rewrite decide_True by done. unfold remove_suffix. rewrite length_snoc.
  by rewrite (proj2 (Nat.leb_le _ _)) by lia.
Qed.

(** One turn of the loop takes the text up to its first newline. *)
Lemma split_body_eval ls text :
  split_body (ls, text) =
  let '(line, rest) := match sv_find x0a text with
                       | Some i => (take i text, drop (i + 1) text)
                       | None => (text, []) end in
  Ret (if sv_empty (drop_cr line) then ls else ls ++ [drop_cr line], rest).
Proof.
  unfold split_body. destruct (sv_find x0a text) as [i|] eqn:E.
  - apply sv_find_lt in E. rewrite substr_le, drop_0, remove_prefix_le by lia.
    cbn [mbind M_bind].
    destruct (bind_Ret_inv _ _ _ (drop_cr_eval (take i text))) as (b & -> & Hb). cbn [mbind M_bind].
    by rewrite Hb.
  - rewrite substr_le, drop_0, take_ge, remove_prefix_le, drop_ge by lia. cbn [mbind M_bind].
    destruct (bind_Ret_inv _ _ _ (drop_cr_eval text)) as (b & -> & Hb). cbn [mbind M_bind].
    by rewrite Hb.
Qed.

Lemma lines_spec_cons l ls :
  filter (λ l, l ≠ []) (drop_cr <$> (l :: ls)) =
  (if sv_empty (drop_cr l) then [] else [drop_cr l]) ++ filter (λ l, l ≠ []) (drop_cr <$> ls).
Proof. rewrite fmap_cons, filter_cons. by destruct (drop_cr l). Qed.

Lemma split_loop fuel ls text :
  (length text < fuel)%nat →
  while_loop fuel (λ '(_, text), mret (negb (sv_empty text))) split_body (ls, text) =
  Ret (ls ++ lines_spec text, []).
Proof.
  revert ls text. induction fuel as [|fuel IH]; intros ls text Hf; [lia|].
  rewrite while_loop_S. destruct (sv_empty text) eqn:Hne.
  { destruct text; [|done]. cbn. by rewrite app_nil_r. }
  cbn [negb mbind M_bind]. change (mret true) with (Ret true). cbn [mbind M_bind].
  rewrite split_body_eval. unfold lines_spec. destruct (sv_find x0a text) as [i|] eqn:E.
  - apply sv_find_Some in E as (l & k & -> & Hl & <-). rewrite split_on_app by done.
    rewrite take_app_length, (app_snoc l x0a k). replace (length l + 1)%nat with (length (l ++ [x0a]))
      by (rewrite length_snoc; lia).
    rewrite drop_app_length. cbn [mbind M_bind]. rewrite IH.
    + rewrite lines_spec_cons. unfold lines_spec. do 2 f_equal.
      destruct (sv_empty (drop_cr l)); by rewrite <- ?app_assoc.
    + rewrite length_app in Hf. cbn in Hf. lia.
  - apply sv_find_None in E. rewrite split_on_none by done. cbn [mbind M_bind].
    rewrite IH by (destruct text; cbn in *; [done|lia]). rewrite lines_spec_cons.
    unfold lines_spec. cbn. do 2 f_equal. by destruct (sv_empty (drop_cr text)); rewrite ?app_nil_r.
Qed.

Lemma splitLines_eval text : splitLines text = Ret (lines_spec text).
Proof. unfold splitLines. rewrite split_loop by lia. reflexivity. Qed.

(** ** Theorems *)

(** [splitLines] returns for every input, and returns the pieces between
    newlines, each less one trailing CR, without the empty ones. *)
Theorem splitLines_lines text : splitLines text = Ret (lines_spec text).
Proof. apply splitLines_eval. Qed.

(** The fields validated and formatted by [buildDatagram]. *)
Definition with_message (base : SyslogFields) (ts msg : bytes) : SyslogFields :=
  mkFields (sf_facility base) (sf_severity base) ts (sf_hostname base) (sf_app base)
    (sf_pid base) (sf_msgid base) msg.

Lemma buildDatagram_eval base msg rfc3164 now ts :
  send_timestamp rfc3164 now = Ret ts →
  let f := with_message base ts msg in
  let d := if rfc3164 then formatRfc3164 f else formatRfc5424 f in
  (buildDatagram base msg rfc3164 now = Ret d ∧ ValidFields f rfc3164 ∧ zlen d <= 65507) ∨
  (∃ what : bytes, buildDatagram base msg rfc3164 now = Throw (RuntimeError what) ∧
           ¬ (ValidFields f rfc3164 ∧ zlen d <= 65507)).
Proof.
  intros Hts f d. unfold buildDatagram.
  rewrite Hts.
  cbn [mbind M_bind]. fold (with_message base ts msg). fold f. fold d.
  destruct (validateFields_validates f rfc3164) as [[-> HV]|(w & -> & HV)]; cbn [mbind M_bind].
  - unfold kMaxDatagramBytes. destruct (Z.ltb_spec 65507 (zlen d)).
    + right. eexists. split; [done|lia].
    + by left.
  - right. exists w. split; [done|tauto].
Qed.

(** The message a receiver parses a datagram to; [d] is the datagram less its trailing CR/LF. *)
Definition sent_message (base : SyslogFields) (ts d text : bytes) (rfc3164 : bool) : SyslogMessage :=
  let p := sf_facility base * 8 + sf_severity base in
  if rfc3164 then priMessage RFC3164 d p None (Some ts) (Some (sf_hostname base)) (Some (sf_app base)) (sf_pid base) None text
  else priMessage RFC5424 d p (Some 1) (nil_field ts) (nil_field (sf_hostname base)) (nil_field (sf_app base))
         (sf_pid base ≫= nil_field) (sf_msgid base ≫= nil_field) (lit "- " ++ text).

Lemma buildDatagram_reads base msg rfc3164 now d m' :
  ValidTime now → buildDatagram base msg rfc3164 now = Ret d → Stripped msg m' →
  zlen d <= 65507 ∧
  ∃ ts d', send_timestamp rfc3164 now = Ret ts ∧ ValidFields (with_message base ts msg) rfc3164 ∧
    parseSyslog d = Ret (sent_message base ts d' m' rfc3164).
Proof.
  intros Ht Hd Hm.
  assert (∃ ts, send_timestamp rfc3164 now = Ret ts) as [ts Hts].
  { destruct rfc3164; [|by eexists]. cbn.
    destruct (rfc3164Timestamp_part now [] Ht) as (ts & ? & _). eauto. }
  destruct (buildDatagram_eval base msg _ _ _ Hts) as [(E & HV & Hlen)|(w & E & _)];
    rewrite E in Hd; [|done]. injection Hd as <-. split; [done|].
  exists ts. set (f := with_message base ts msg) in *. destruct rfc3164.
  - destruct (formatRfc3164_reads f now m' HV Ht Hts Hm) as (d & ->). by exists d.
  - assert (sf_timestamp f = rfc5424Timestamp now) as Hts' by (unfold f; cbn in *; by injection Hts).
    destruct (rfc5424Timestamp_field now) as [Hw _].
    destruct (formatRfc5424_reads f m') as (d & ->); [done|by rewrite Hts'|done|]. by exists d.
Qed.

(** C16. What minilog-send builds, minilog reads back: if [buildDatagram] returns
    a datagram for a message and a broken-down time in range, it fits in one UDP
    payload and [parseSyslog] returns the format, facility, severity, timestamp,
    hostname, app, pid, msgid and text it was built from - the text less its
    trailing CR/LF, after the empty structured data in RFC 5424, whose NILVALUE
    [-] reads back as an absent field. *)
Theorem buildDatagram_roundtrip base msg rfc3164 now d m' :
  ValidTime now → buildDatagram base msg rfc3164 now = Ret d → Stripped msg m' →
  zlen d <= 65507 ∧
  ∃ m ts, parseSyslog d = Ret m ∧
    send_timestamp rfc3164 now = Ret ts ∧
    protocol m = (if rfc3164 then RFC3164 else RFC5424) ∧
    facility m = Some (sf_facility base) ∧ severity m = Some (sf_severity base) ∧
    timestamp m = Some ts ∧
    hostname m = (if rfc3164 then Some (sf_hostname base) else nil_field (sf_hostname base)) ∧
    appName m = (if rfc3164 then Some (sf_app base) else nil_field (sf_app base)) ∧
    procId m = (if rfc3164 then sf_pid base else sf_pid base ≫= nil_field) ∧
    msgId m = (if rfc3164 then None else sf_msgid base ≫= nil_field) ∧
    message m = (if rfc3164 then m' else lit "- " ++ m').
Proof.
  intros Ht Hd Hm. destruct (buildDatagram_reads _ _ _ _ _ _ Ht Hd Hm) as (Hl & ts & d' & Hts & HV & Hp).
  split; [done|]. exists (sent_message base ts d' m' rfc3164), ts. split; [done|]. split; [done|].
  assert (HFS : 0 <= sf_facility base <= 23 ∧ 0 <= sf_severity base <= 7) by (destruct HV; tauto).
  destruct (pri_split (sf_facility base) (sf_severity base) (proj1 HFS) (proj2 HFS)) as [Hq Hr].
  destruct rfc3164; cbn; rewrite Hq, Hr; split_and!; try done.
  injection Hts as <-. apply rfc5424Timestamp_field.
Qed.

Definition example_fields : SyslogFields :=
  mkFields 1 6 [] (lit "host") (lit "app") (Some (lit "12")) None [].
Definition example_time : LocalTime := mkLocalTime 126 8 3 14 7 31 123456 7200.

Lemma buildDatagram_roundtrip_witness :
  ∃ d, buildDatagram example_fields (lit "hello" ++ [x0a]) true example_time = Ret d ∧
       ∃ m, parseSyslog d = Ret m ∧ message m = lit "hello" ∧ procId m = Some (lit "12").
Proof.
  set (r := buildDatagram example_fields (lit "hello" ++ [x0a]) true example_time).
  vm_compute in r. match eval unfold r in r with
  | Ret ?d =>
      exists d; split; [reflexivity|];
      destruct (buildDatagram_roundtrip example_fields (lit "hello" ++ [x0a]) true example_time d
                  (lit "hello")) as (_ & m & ts & Hm & _ & _ & _ & _ & _ & _ & _ & Hp & _ & Ht)
  end.
  - repeat split; vm_compute; discriminate.
  - reflexivity.
  - exists [x0a]. split; [reflexivity|]. split; [apply Forall_singleton; reflexivity|].
    intros d' c. change (lit "hello") with (lit "hell" ++ ["o"%byte]).
    intros [_ <-]%app_inj_tail. reflexivity.
  - exists m. split; [exact Hm|]. split; [exact Ht|exact Hp].
Defined.

(** [buildDatagram] accepts exactly the fields of the format's grammar
    within its length limits whose datagram fits in one UDP payload, and throws
    [std::runtime_error] for every other - never anything else. *)
Theorem buildDatagram_accepts base msg rfc3164 now ts :
  send_timestamp rfc3164 now = Ret ts →
  let f := with_message base ts msg in
  let d := if rfc3164 then formatRfc3164 f else formatRfc5424 f in
  (buildDatagram base msg rfc3164 now = Ret d ↔ ValidFields f rfc3164 ∧ zlen d <= 65507) ∧
  (buildDatagram base msg rfc3164 now = Ret d ∨
   ∃ what, buildDatagram base msg rfc3164 now = Throw (RuntimeError what)).
Proof.
  intros Hts f d.
  destruct (buildDatagram_eval base msg _ _ _ Hts) as [(-> & HV & Hl)|(w & -> & HV)].
  - split; [by split|by left].
  - split; [by split|right; by exists w].
Qed.

Lemma buildDatagram_accepts_witness :
  buildDatagram example_fields (lit "hello") false example_time ≠ UB ∧
  (∃ what, buildDatagram example_fields [] false example_time = Throw (RuntimeError what)).
Proof.
  destruct (buildDatagram_accepts example_fields [] false example_time
              (rfc5424Timestamp example_time) eq_refl) as [[H _] [E|E]].
  - apply H in E as [(_ & _ & _ & _ & _ & _ & E) _]. by destruct E.
  - split; [vm_compute; discriminate|exact E].
Defined.
