(* ===== verification/SendTime.v ===== *)
(** * minilog-send: the time of a message (src/src/send/syslog_format.cpp)

    [localNow] and what its timestamp says. The system clock and the conversion to
    local time are what the machine answers; the timestamp of RFC 5424 is shown to
    be one of its grammar, from which the instant can be read back. *)

From S2P Require Import Prelude Names Parser ParserSpec SendFormat.

(** [std::tm], with the offset that glibc adds. *)
Record Tm := mkTm {
  tm_time : LocalTime;           (* its fields; the rest is not set *)
  tm_isdst : Z;
  tm_gmtoff : Z
}.

(** What the machine answers: nanoseconds since the epoch, and the C library. *)
Record Clock := mkClock {
  ck_now : Z;                    (* system_clock::now() *)
  ck_time_t : Z → Z;             (* system_clock::to_time_t *)
  ck_localtime : Z → Tm;         (* localtime_r, localtime_s *)
  ck_timezone : Z;               (* _get_timezone: seconds west *)
  ck_dstbias : Z                 (* _get_dstbias *)
}.

Definition localNow (windows : bool) (ck : Clock) : LocalTime :=
  let now := ck_now ck in
  let t := ck_time_t ck now in
  let micros := Z.quot (now - t * 1000000000) 1000 in
  let tm := ck_localtime ck t in
  let offset :=
    if windows then - (ck_timezone ck + (if 0 <? tm_isdst tm then ck_dstbias ck else 0)) else tm_gmtoff tm in
  let f := tm_time tm in
  mkLocalTime (tm_year f) (tm_mon f) (tm_mday f) (tm_hour f) (tm_min f) (tm_sec f)
    (if micros <? 0 then 0 else micros) offset.

(** ** Reading a timestamp *)

(** A number of exactly [n] digits, and one given character. *)
Definition num (n : nat) (s : bytes) : option (Z * bytes) :=
  let d := take n s in
  if (length d =? n)%nat && forallb isdigit d then Some (dec_value d, drop n s) else None.
Definition sym (c : byte) (s : bytes) : option bytes :=
  match s with b :: s' => if decide (b = c) then Some s' else None | [] => None end.

Definition read_sign (s : bytes) : option (Z * bytes) :=
  match s with
  | b :: s' => if decide (b = "-"%byte) then Some (-1, s') else if decide (b = "+"%byte) then Some (1, s') else None
  | [] => None
  end.

(** The TIMESTAMP of RFC 5424 with six digits of TIME-SECFRAC and a TIME-NUMOFFSET. *)
Definition read_timestamp (s : bytes) : option LocalTime :=
  '(year, s) ← num 4 s; s ← sym "-" s; '(mon, s) ← num 2 s; s ← sym "-" s; '(mday, s) ← num 2 s;
  s ← sym "T" s; '(hour, s) ← num 2 s; s ← sym ":" s; '(min, s) ← num 2 s; s ← sym ":" s;
  '(sec, s) ← num 2 s; s ← sym "." s; '(us, s) ← num 6 s;
  '(sign, s) ← read_sign s;
  '(oh, s) ← num 2 s; s ← sym ":" s; '(om, s) ← num 2 s;
  match s with
  | [] => Some (mkLocalTime (year - 1900) (mon - 1) mday hour min sec us (sign * (oh * 3600 + om * 60)))
  | _ => None
  end.

(** A time of day of the years 0 to 9999, less than a day away from UTC. *)
Definition printable_time (t : LocalTime) : Prop :=
  -1900 <= tm_year t <= 8099 ∧ 0 <= tm_mon t <= 11 ∧ 1 <= tm_mday t <= 31 ∧ 0 <= tm_hour t <= 23 ∧
  0 <= tm_min t <= 59 ∧ 0 <= tm_sec t <= 60 ∧ 0 <= microseconds t <= 999999 ∧ -86400 < utcOffsetSeconds t < 86400.

Lemma padded_digits v n :
  0 <= v < 10 ^ Z.of_nat n → (1 <= n)%nat →
  length (padded v n "0") = n ∧ Forall (λ c, isdigit c = true) (padded v n "0") ∧ dec_value (padded v n "0") = v.
Proof.
  intros Hv Hn. destruct (to_string_nat_spec v) as (_ & Hd & Hval & _); [lia|].
  pose proof (to_string_length v (Z.of_nat n) Hv) as Hl. unfold zlen in Hl.
  unfold padded. destruct (Nat.leb_spec n (length (to_string v))); [split_and!; [lia|done|done]|]. split_and!.
  - rewrite length_app, length_replicate. lia.
  - apply Forall_app. split; [|done]. by apply Forall_replicate.
  - rewrite dec_value_app, Hval. assert (Hz : ∀ k, dec_value (replicate k "0"%byte) = 0); [|rewrite Hz; lia].
    induction k as [|k IH]; [done|]. cbn [replicate]. rewrite dec_value_cons, IH. change (bval "0") with 48. lia.
Qed.
Lemma num_padded v n rest :
  0 <= v < 10 ^ Z.of_nat n → (1 <= n)%nat → num n (padded v n "0" ++ rest) = Some (v, rest).
Proof.
  intros Hv Hn. destruct (padded_digits v n Hv Hn) as (Hlen & Hdig & Hdv).
  unfold num. rewrite take_app_length', drop_app_length' by done.
  by rewrite Hlen, Nat.eqb_refl, (proj2 (forallb_Forall _ _) Hdig), Hdv.
Qed.

Lemma sym_cons c s : sym c (c :: s) = Some s.
Proof. unfold sym. by rewrite decide_True. Qed.

Lemma read_sign_cons (neg : bool) s :
  read_sign ((if neg then "-"%byte else "+"%byte) :: s) = Some (if neg then -1 else 1, s).
Proof. by destruct neg. Qed.

(** The offset in whole minutes, toward zero. *)
Definition whole_minutes (offset : Z) : Z := Z.quot offset 60 * 60.

Lemma offset_printed offset :
  let a := if offset <? 0 then - offset else offset in
  (if offset <? 0 then -1 else 1) * (Z.quot a 3600 * 3600 + Z.quot (Z.rem a 3600) 60 * 60) = whole_minutes offset.
Proof. cbv zeta. unfold whole_minutes. destruct (Z.ltb_spec offset 0); Z.to_euclidean_division_equations; lia. Qed.

Lemma timestamp_reads t :
  printable_time t →
  read_timestamp (rfc5424Timestamp t) =
    Some (mkLocalTime (tm_year t) (tm_mon t) (tm_mday t) (tm_hour t) (tm_min t) (tm_sec t) (microseconds t)
            (whole_minutes (utcOffsetSeconds t))).
Proof.
  intros (Hy & Hmo & Hd & Hh & Hmi & Hs & Hu & Ho). unfold rfc5424Timestamp, read_timestamp.
  rewrite <- (offset_printed (utcOffsetSeconds t)). cbv zeta.
  set (a := if utcOffsetSeconds t <? 0 then - utcOffsetSeconds t else utcOffsetSeconds t).
  assert (Ha : 0 <= a < 86400) by (unfold a; destruct (Z.ltb_spec (utcOffsetSeconds t) 0); lia).
  assert (Hah : 0 <= Z.quot a 3600 < 100) by (Z.to_euclidean_division_equations; lia).
  assert (Ham : 0 <= Z.quot (Z.rem a 3600) 60 < 100) by (Z.to_euclidean_division_equations; lia).
  change (lit "-") with ["-"%byte]. change (lit "T") with ["T"%byte]. change (lit ":") with [":"%byte]. change (lit ".") with ["."%byte].
  repeat (rewrite num_padded by (cbn; lia); cbn [mbind option_bind app]; rewrite ?sym_cons; cbn [mbind option_bind]).
  assert (Hlast : num 2 (padded (Z.quot (Z.rem a 3600) 60) 2 "0") = Some (Z.quot (Z.rem a 3600) 60, [])).
  { rewrite <- (app_nil_r (padded _ _ _)). apply num_padded; cbn; lia. }
  rewrite read_sign_cons; cbn [mbind option_bind]; rewrite num_padded by (cbn; lia); cbn [mbind option_bind app].
  rewrite sym_cons; cbn [mbind option_bind]; rewrite Hlast; cbn [mbind option_bind]. do 2 f_equal; lia.
Qed.

(** C18. The timestamp of a message is the moment it was made: [localNow] never
    gives a negative or overlong fraction, however the library rounds to whole
    seconds; what [rfc5424Timestamp] prints of it is a timestamp of RFC 5424,
    from which the local time, its microseconds and its offset (in whole minutes)
    read back; and the second and the microseconds are exactly the clock's when
    the library rounds down. *)
Theorem localNow_timestamp windows ck :
  let t := ck_time_t ck (ck_now ck) in
  let now := localNow windows ck in
  Z.abs (ck_now ck - t * 1000000000) < 1000000000 →
  printable_time (mkLocalTime (tm_year now) (tm_mon now) (tm_mday now) (tm_hour now) (tm_min now) (tm_sec now)
                    0 (utcOffsetSeconds now)) →
  0 <= microseconds now <= 999999 ∧
  (t * 1000000000 <= ck_now ck → t * 1000000 + microseconds now = ck_now ck / 1000) ∧
  read_timestamp (rfc5424Timestamp now) =
    Some (mkLocalTime (tm_year now) (tm_mon now) (tm_mday now) (tm_hour now) (tm_min now) (tm_sec now)
            (microseconds now) (whole_minutes (utcOffsetSeconds now))).
Proof.
  cbv zeta. intros Ht (Hy & Hmo & Hd & Hh & Hmi & Hs & _ & Ho). cbn in Hy, Hmo, Hd, Hh, Hmi, Hs, Ho.
  set (t := ck_time_t ck (ck_now ck)) in *.
  assert (Hu : 0 <= microseconds (localNow windows ck) <= 999999 ∧
               (t * 1000000000 <= ck_now ck → t * 1000000 + microseconds (localNow windows ck) = ck_now ck / 1000)).
  { unfold localNow. cbn [microseconds]. fold t.
    destruct (Z.ltb_spec (Z.quot (ck_now ck - t * 1000000000) 1000) 0); Z.to_euclidean_division_equations; lia. }
  destruct Hu as [Hu He]. split; [done|]. split; [done|]. by apply timestamp_reads.
Qed.

(** An evening in India, and just before the epoch with a library that rounds up. *)
Definition clock0 : Clock :=
  mkClock 1790000000123456789 (λ ns, ns / 1000000000)
    (λ _, mkTm (mkLocalTime 126 8 21 19 43 20 0 0) 0 19800) 0 0.
Example clock0_printed : rfc5424Timestamp (localNow false clock0) = lit "2026-09-21T19:43:20.123456+05:30".
Proof. vm_compute. reflexivity. Qed.
Example before_epoch : microseconds (localNow false (mkClock (-1000) (λ _, 0) (ck_localtime clock0) 0 0)) = 0.
Proof. reflexivity. Qed.

Lemma localNow_timestamp_witness :
  microseconds (localNow false clock0) = 123456 ∧
  read_timestamp (rfc5424Timestamp (localNow false clock0)) = Some (mkLocalTime 126 8 21 19 43 20 123456 19800).
Proof.
  destruct (localNow_timestamp false clock0) as (_ & He & Hr).
  - vm_compute. reflexivity.
  - vm_compute. repeat split; discriminate.
  - split; [|exact Hr]. assert (H : ck_time_t clock0 (ck_now clock0) * 1000000000 <= ck_now clock0) by (vm_compute; discriminate).
    specialize (He H). vm_compute in He |- *. reflexivity.
Defined.
