(* ===== verification/Timestamp.v ===== *)
(** * When a message was received (src/src/server/output/log_file.cpp)

    [currentTimestamp], the [rcv] member of every JSONL record: the second of the
    system clock as a date and time of day in UTC. [std::format] gives the civil
    calendar; it is modelled here and shown to be the Gregorian one, and the
    timestamps to sort as text in the order of time. *)

From S2P Require Import Prelude Names Parser ParserSpec SendFormat SendTime.

(** ** The civil calendar *)

(** [std::chrono::year_month_day], and a day of the system clock (0 is 1970-01-01). *)
Record Date := mkDate { dt_year : Z; dt_month : Z; dt_day : Z }.
#[export] Instance Date_eq_dec : EqDecision Date.
Proof. solve_decision. Defined.

(** The day within a year that starts in March: 153 days in five months. *)
Definition month_day (doy : Z) : Z * Z :=
  let mp := (5 * doy + 2) / 153 in
  (if mp <? 10 then mp + 3 else mp - 9, doy - (153 * mp + 2) / 5 + 1).

Definition civil_from_days (days : Z) : Date :=
  let z := days + 719468 in                     (* since 0000-03-01 *)
  let n400 := z / 146097 in let z := z mod 146097 in
  let n100 := Z.min 3 (z / 36524) in let z := z - 36524 * n100 in
  let n4 := z / 1461 in let z := z mod 1461 in
  let n1 := Z.min 3 (z / 365) in let doy := z - 365 * n1 in
  let '(m, d) := month_day doy in
  mkDate (400 * n400 + 100 * n100 + 4 * n4 + n1 + (if m <=? 2 then 1 else 0)) m d.

(** [std::format("{:%Y-%m-%dT%H:%M:%S}Z", floor<seconds>(system_clock::now()))] *)
Definition timestamp_of (s : Z) : bytes :=
  let '(mkDate y m d) := civil_from_days (s / 86400) in
  let t := s mod 86400 in
  padded y 4 "0" ++ lit "-" ++ padded m 2 "0" ++ lit "-" ++ padded d 2 "0" ++ lit "T" ++
  padded (t / 3600) 2 "0" ++ lit ":" ++ padded (t / 60 mod 60) 2 "0" ++ lit ":" ++ padded (t mod 60) 2 "0" ++ lit "Z".
Definition currentTimestamp (now : Z) : bytes := timestamp_of (now / 1000000000).

Example epoch : currentTimestamp 0 = lit "1970-01-01T00:00:00Z".
Proof. vm_compute. reflexivity. Qed.
Example leap_day : timestamp_of 951782399 = lit "2000-02-28T23:59:59Z" ∧ timestamp_of 951782400 = lit "2000-02-29T00:00:00Z" ∧
  timestamp_of 951868800 = lit "2000-03-01T00:00:00Z" ∧ timestamp_of (-1) = lit "1969-12-31T23:59:59Z".
Proof. vm_compute. auto. Qed.

(** ** The Gregorian calendar *)

Definition leap (y : Z) : bool := (y mod 4 =? 0) && (negb (y mod 100 =? 0) || (y mod 400 =? 0)).
Definition month_length (is_leap : bool) (m : Z) : Z :=
  if m =? 2 then (if is_leap then 29 else 28)
  else if (m =? 4) || (m =? 6) || (m =? 9) || (m =? 11) then 30 else 31.
Definition valid_date (dt : Date) : Prop :=
  1 <= dt_month dt <= 12 ∧ 1 <= dt_day dt <= month_length (leap (dt_year dt)) (dt_month dt).

(** Days before a year, a month and a day, counted from 1970. *)
Definition leap_years (y : Z) : Z := y / 4 - y / 100 + y / 400.       (* in the years 1 to [y] *)
Definition days_before_month (is_leap : bool) (m : Z) : Z :=
  zsum (λ i, if Z.of_nat i <? m then month_length is_leap (Z.of_nat i) else 0) (seq 1 12).
Definition day_number (dt : Date) : Z :=
  365 * (dt_year dt - 1970) + (leap_years (dt_year dt - 1) - leap_years 1969) +
  days_before_month (leap (dt_year dt)) (dt_month dt) + (dt_day dt - 1).

Lemma leap_years_step y : leap_years y = leap_years (y - 1) + if leap y then 1 else 0.
Proof.
  unfold leap_years, leap.
  destruct (Z.eqb_spec (y mod 4) 0), (Z.eqb_spec (y mod 100) 0), (Z.eqb_spec (y mod 400) 0); cbn;
    Z.to_euclidean_division_equations; lia.
Qed.

(** A year that starts in March, by its 400s, 100s, 4s and ones. *)
Definition march_year (a b c e : Z) : Z := 400 * a + 100 * b + 4 * c + e.
Definition in_range (b c e : Z) : Prop := 0 <= b <= 3 ∧ 0 <= c <= 24 ∧ 0 <= e <= 3.

Lemma march_leap_years a b c e : in_range b c e → leap_years (march_year a b c e) = 97 * a + 24 * b + c.
Proof. intros (Hb & Hc & He). unfold leap_years, march_year. Z.to_euclidean_division_equations; lia. Qed.
Lemma march_leap a b c e :
  in_range b c e → leap (march_year a b c e + 1) = (e =? 3) && ((c <? 24) || (b =? 3)).
Proof.
  intros (Hb & Hc & He). unfold leap, march_year.
  assert (H4 : (400 * a + 100 * b + 4 * c + e + 1) mod 4 = (e + 1) mod 4)
    by (Z.to_euclidean_division_equations; lia).
  assert (H100 : (400 * a + 100 * b + 4 * c + e + 1) mod 100 = (4 * c + e + 1) mod 100)
    by (Z.to_euclidean_division_equations; lia).
  assert (H400 : (400 * a + 100 * b + 4 * c + e + 1) mod 400 = (100 * b + 4 * c + e + 1) mod 400)
    by (Z.to_euclidean_division_equations; lia).
  rewrite H4, H100, H400.
  destruct (Z.eqb_spec e 3), (Z.ltb_spec c 24), (Z.eqb_spec b 3); cbn [andb orb];
    destruct (Z.eqb_spec ((e + 1) mod 4) 0), (Z.eqb_spec ((4 * c + e + 1) mod 100) 0),
      (Z.eqb_spec ((100 * b + 4 * c + e + 1) mod 400) 0); try done; exfalso; Z.to_euclidean_division_equations; lia.
Qed.

(** The four divisions. *)
Lemma civil_split z :
  ∃ a b c e doy, in_range b c e ∧ 0 <= doy <= (if leap (march_year a b c e + 1) then 365 else 364) ∧
    z + 719468 = 146097 * a + 36524 * b + 1461 * c + 365 * e + doy ∧
    civil_from_days z = let '(m, d) := month_day doy in mkDate (march_year a b c e + (if m <=? 2 then 1 else 0)) m d.
Proof.
  set (z1 := (z + 719468) mod 146097).
  exists ((z + 719468) / 146097), (Z.min 3 (z1 / 36524)).
  set (z2 := z1 - 36524 * Z.min 3 (z1 / 36524)). exists (z2 / 1461). set (z3 := z2 mod 1461).
  exists (Z.min 3 (z3 / 365)), (z3 - 365 * Z.min 3 (z3 / 365)).
  assert (H1 : 0 <= z1 < 146097) by (apply Z.mod_pos_bound; lia).
  assert (Hb : 0 <= Z.min 3 (z1 / 36524) <= 3 ∧ 0 <= z2 ∧ (Z.min 3 (z1 / 36524) < 3 → z2 < 36524) ∧ z2 < 36525)
    by (unfold z2; clearbody z1; Z.to_euclidean_division_equations; lia).
  destruct Hb as (Hb & H2 & H2' & H2''). set (b := Z.min 3 (z1 / 36524)) in *.
  assert (H3 : 0 <= z3 < 1461) by (apply Z.mod_pos_bound; lia).
  assert (Hc : 0 <= z2 / 1461 <= 24 ∧ z2 = 1461 * (z2 / 1461) + z3)
    by (unfold z3; clearbody z2; Z.to_euclidean_division_equations; lia).
  destruct Hc as [Hc Hz2]. set (c := z2 / 1461) in *.
  assert (He : 0 <= Z.min 3 (z3 / 365) <= 3 ∧ 0 <= z3 - 365 * Z.min 3 (z3 / 365) <= 365 ∧
               (Z.min 3 (z3 / 365) < 3 → z3 - 365 * Z.min 3 (z3 / 365) <= 364))
    by (clearbody z3; Z.to_euclidean_division_equations; lia).
  destruct He as (He & Hd & Hd'). set (e := Z.min 3 (z3 / 365)) in *.
  assert (Hz : z + 719468 = 146097 * ((z + 719468) / 146097) + z1) by (unfold z1; apply Z.div_mod; lia).
  assert (Hr : in_range b c e) by (unfold in_range; lia).
  split; [done|]. split; [|split; [unfold z2 in Hz2; lia|done]].
  rewrite march_leap by done. destruct (Z.eqb_spec e 3); [|cbn; lia].
  destruct (Z.ltb_spec c 24); [cbn; lia|]. destruct (Z.eqb_spec b 3); cbn; lia.
Qed.

(** The months of such a year, and the day of it each starts. *)
Definition march_months : list (Z * Z) :=
  [(3, 0); (4, 31); (5, 61); (6, 92); (7, 122); (8, 153); (9, 184); (10, 214); (11, 245); (12, 275); (1, 306); (2, 337)].
Lemma month_day_table doy :
  0 <= doy <= 365 →
  ∃ m first, (m, first) ∈ march_months ∧ first <= doy ∧ month_day doy = (m, doy - first + 1) ∧
    (m ≠ 2 → doy < first + month_length false m) .
Proof.
  intros Hb. unfold month_day.
  assert (Hmp : 0 <= (5 * doy + 2) / 153 <= 11) by (Z.to_euclidean_division_equations; lia).
  assert (Hq : 153 * ((5 * doy + 2) / 153) <= 5 * doy + 2 < 153 * ((5 * doy + 2) / 153) + 153)
    by (Z.to_euclidean_division_equations; lia).
  set (mp := (5 * doy + 2) / 153) in *. clearbody mp.
  assert (Hc : ∃ i, (i < 12)%nat ∧ mp = Z.of_nat i) by (exists (Z.to_nat mp); lia). destruct Hc as (i & Hi & ->).
  do 12 (destruct i as [|i];
    [match goal with |- context [_ - ?k + 1] => let k' := eval vm_compute in k in change k with k' end;
     match goal with |- context [(if ?c <? 10 then ?x else ?y)] =>
       let m := eval vm_compute in (if c <? 10 then x else y) in change (if c <? 10 then x else y) with m;
       match goal with |- context [doy - ?k' + 1] => exists m, k' end end;
     split_and!; [apply list_elem_of_In; cbn; auto 15|lia|done|intros ?; match goal with |- _ < _ + ?l => let l' := eval vm_compute in l in change l with l' end; lia]|]).
  lia.
Qed.

(** The month table agrees with the calendar. *)
Lemma march_months_calendar is_leap m first :
  (m, first) ∈ march_months →
  1 <= m <= 12 ∧ (m = 2 → first = 337) ∧ days_before_month is_leap m =
    if m <=? 2 then first - 306 else first + 59 + (if is_leap then 1 else 0).
Proof.
  intros Hin. unfold march_months in Hin.
  repeat (apply elem_of_cons in Hin as [[= -> ->]|Hin]; [split_and!; [lia|lia|done|by destruct is_leap]|]).
  by apply not_elem_of_nil in Hin.
Qed.
Lemma month_length_leap is_leap m : m ≠ 2 → month_length is_leap m = month_length false m.
Proof. intros Hm. unfold month_length. by destruct (Z.eqb_spec m 2). Qed.

(** The date of a day is a date of the Gregorian calendar, and its day is that day. *)
Lemma civil_from_days_spec z : valid_date (civil_from_days z) ∧ day_number (civil_from_days z) = z.
Proof.
  destruct (civil_split z) as (a & b & c & e & doy & Hr & Hd & Hz & ->).
  pose proof (march_leap_years a b c e Hr) as Hly. set (y := march_year a b c e) in *.
  assert (Hy : y = 400 * a + 100 * b + 4 * c + e) by done. clearbody y.
  destruct (month_day_table doy) as (m & first & Hin & Hf & -> & Hlen); [destruct (leap (y + 1)); lia|].
  unfold valid_date, day_number. cbn [dt_year dt_month dt_day]. pose proof (leap_years_step y) as Hls.
  set (y' := y + (if m <=? 2 then 1 else 0)) in *.
  destruct (march_months_calendar (leap y') m first Hin) as (Hm & Hfeb & Hdb). rewrite Hdb.
  change (leap_years 1969) with 477.
  destruct (Z.leb_spec m 2) as [Hm2|Hm2].
  - replace (y' - 1) with y by lia. split; [|lia]. split; [done|]. split; [lia|].
    replace y' with (y + 1) by lia. destruct (decide (m = 2)) as [->|Hne].
    + rewrite (Hfeb eq_refl).
      unfold month_length. rewrite Z.eqb_refl. specialize (Hfeb eq_refl). destruct (leap (y + 1)); lia.
    + rewrite month_length_leap by done. specialize (Hlen Hne). lia.
  - replace y' with y in * by lia. split; [|lia]. split; [done|]. split; [lia|].
    rewrite month_length_leap by lia. specialize (Hlen ltac:(lia)). lia.
Qed.

(** ** The order of days *)

Definition date_before (a b : Date) : Prop :=
  dt_year a < dt_year b ∨
  dt_year a = dt_year b ∧ (dt_month a < dt_month b ∨ dt_month a = dt_month b ∧ dt_day a < dt_day b).

Lemma leap_years_mono y y' : y <= y' → leap_years y <= leap_years y'.
Proof. intros Hy. unfold leap_years. Z.to_euclidean_division_equations; lia. Qed.
(** Months follow one another within the year. *)
Definition months_check : bool :=
  forallb (λ l : bool, forallb (λ i, forallb (λ j,
    let m := Z.of_nat i in let m' := Z.of_nat j in
    (0 <=? days_before_month l m) && (days_before_month l m + month_length l m <=? if l then 366 else 365) &&
    (negb (m <? m') || (days_before_month l m + month_length l m <=? days_before_month l m')))
    (seq 1 12)) (seq 1 12)) [true; false].
Lemma months_follow l m m' :
  1 <= m <= 12 → 1 <= m' <= 12 →
  0 <= days_before_month l m ∧ days_before_month l m + month_length l m <= (if l then 366 else 365) ∧
  (m < m' → days_before_month l m + month_length l m <= days_before_month l m').
Proof.
  intros Hm Hm'. assert (H : months_check = true) by by vm_compute.
  unfold months_check in H. rewrite forallb_forall in H. specialize (H l ltac:(destruct l; cbn; auto)).
  rewrite forallb_forall in H. specialize (H (Z.to_nat m) ltac:(apply in_seq; lia)).
  rewrite forallb_forall in H. specialize (H (Z.to_nat m') ltac:(apply in_seq; lia)).
  cbv zeta in H. rewrite !Z2Nat.id in H by lia. lia.
Qed.
Lemma day_number_mono a b : valid_date a → valid_date b → date_before a b → day_number a < day_number b.
Proof.
  destruct a as [y m d], b as [y' m' d']. unfold valid_date, date_before, day_number. cbn [dt_year dt_month dt_day].
  intros [Hm Hd] [Hm' Hd'] Hlt.
  destruct (months_follow (leap y) m m' Hm Hm') as (H1 & H2 & H3), (months_follow (leap y') m' m' Hm' Hm') as (H1' & _ & _).
  destruct Hlt as [Hy|[<- [Hlt|[<- Hlt]]]]; [|specialize (H3 Hlt); lia|lia].
  pose proof (leap_years_mono y (y' - 1)) as Hl. pose proof (leap_years_step y) as Hs. destruct (leap y); lia.
Qed.
Lemma civil_mono z z' : z < z' → date_before (civil_from_days z) (civil_from_days z').
Proof.
  intros Hz. destruct (civil_from_days_spec z) as [Hv Hn], (civil_from_days_spec z') as [Hv' Hn'].
  assert (Hno : ¬ date_before (civil_from_days z') (civil_from_days z))
    by (intros Hb; apply day_number_mono in Hb; [lia|done|done]).
  destruct (decide (civil_from_days z = civil_from_days z')) as [E|Hne]; [rewrite E in Hn; lia|].
  destruct (civil_from_days z) as [y m d], (civil_from_days z') as [y' m' d']. unfold date_before in *. cbn in *.
  destruct (decide (y = y' ∧ m = m' ∧ d = d')) as [(-> & -> & ->)|]; [done|]. lia.
Qed.

(** ** The order of texts *)

(** Byte by byte, as sort and the databases compare. *)
Fixpoint text_before (a b : bytes) : bool :=
  match a, b with
  | x :: a', y :: b' => (bval x <? bval y) || ((bval x =? bval y) && text_before a' b')
  | [], _ :: _ => true
  | _, [] => false
  end.

Lemma text_before_irrefl a : text_before a a = false.
Proof. induction a as [|x a IH]; [done|]. cbn. by rewrite Z.ltb_irrefl, Z.eqb_refl, IH. Qed.
Lemma text_before_asym a b : text_before a b = true → text_before b a = false.
Proof.
  revert b. induction a as [|x a IH]; intros [|y b]; cbn; try done. specialize (IH b).
  destruct (Z.ltb_spec (bval x) (bval y)), (Z.ltb_spec (bval y) (bval x)), (Z.eqb_spec (bval x) (bval y)),
    (Z.eqb_spec (bval y) (bval x)); cbn; try lia; auto.
Qed.
Lemma text_before_app p a b : text_before (p ++ a) (p ++ b) = text_before a b.
Proof. induction p as [|x p IH]; [done|]. cbn. by rewrite Z.ltb_irrefl, Z.eqb_refl, IH. Qed.

(** Numbers of the same width. *)
Lemma text_before_digits ds es a b :
  length ds = length es → Forall (λ c, isdigit c = true) ds → Forall (λ c, isdigit c = true) es →
  dec_value ds < dec_value es → text_before (ds ++ a) (es ++ b) = true.
Proof.
  revert es. induction ds as [|x ds IH]; intros [|y es] Hl Hds Hes Hv; [cbn in Hv; lia|done|done|].
  injection Hl as Hl. apply Forall_cons in Hds as [Hx Hds], Hes as [Hy Hes]. rewrite !dec_value_cons in Hv. cbn.
  pose proof (dec_value_bound ds Hds) as Hb. pose proof (dec_value_bound es Hes) as Hb'.
  replace (zlen es) with (zlen ds) in * by (unfold zlen; lia).
  destruct (Z.ltb_spec (bval x) (bval y)); [done|]. cbn. destruct (Z.eqb_spec (bval x) (bval y)) as [E|]; [|nia].
  rewrite E in Hv. apply IH; [done..|lia].
Qed.
Lemma text_before_padded v w n a b :
  0 <= v < w → w < 10 ^ Z.of_nat n → (1 <= n)%nat →
  text_before (padded v n "0" ++ a) (padded w n "0" ++ b) = true.
Proof.
  intros Hv Hw Hn. destruct (padded_digits v n) as (H1 & H2 & H3), (padded_digits w n) as (H4 & H5 & H6); [lia..|].
  apply text_before_digits; [congruence|done|done|lia].
Qed.

(** The parts of a timestamp, with the separators that follow them. *)
Fixpoint fields (l : list (Z * nat * bytes)) : bytes :=
  match l with [] => [] | (v, n, sep) :: l' => padded v n "0" ++ sep ++ fields l' end.
Definition field_ok (x : Z * nat * bytes) : Prop := 0 <= x.1.1 < 10 ^ Z.of_nat x.1.2 ∧ (1 <= x.1.2)%nat.
Fixpoint fields_before (l k : list (Z * nat * bytes)) : Prop :=
  match l, k with
  | (v, n, s) :: l', (w, n', s') :: k' => n = n' ∧ s = s' ∧ (v < w ∨ v = w ∧ fields_before l' k')
  | _, _ => False
  end.
Lemma text_before_fields l k :
  Forall field_ok l → Forall field_ok k → fields_before l k → text_before (fields l) (fields k) = true.
Proof.
  intros Hl. revert k. induction Hl as [|[[v n] s] l [Hv Hn] _ IH]; intros [|[[w n'] s'] k] Hk Hb; try done.
  apply Forall_cons in Hk as [[Hw _] Hk]. cbn in *. destruct Hb as (<- & <- & [Hlt|[<- Hb]]).
  - apply text_before_padded; lia.
  - rewrite !text_before_app. by apply IH.
Qed.

(** ** Timestamps *)

Definition stamp_fields (s : Z) : list (Z * nat * bytes) :=
  let d := civil_from_days (s / 86400) in let t := s mod 86400 in
  [(dt_year d, 4%nat, lit "-"); (dt_month d, 2%nat, lit "-"); (dt_day d, 2%nat, lit "T");
   (t / 3600, 2%nat, lit ":"); (t / 60 mod 60, 2%nat, lit ":"); (t mod 60, 2%nat, lit "Z")].
Lemma timestamp_fields s : timestamp_of s = fields (stamp_fields s).
Proof.
  unfold timestamp_of, stamp_fields. destruct (civil_from_days _) as [y m d]. cbn [fields dt_year dt_month dt_day].
  by rewrite app_nil_r.
Qed.

(** A clock of 64 bits in nanoseconds: the years 1677 to 2262. *)
Definition clock_range (now : Z) : Prop := - 2 ^ 63 <= now < 2 ^ 63.
Lemma clock_year now : clock_range now → 1677 <= dt_year (civil_from_days (now / 1000000000 / 86400)) <= 2262.
Proof.
  intros Hn. unfold clock_range in Hn.
  assert (Hd : -106752 <= now / 1000000000 / 86400 <= 106751) by (Z.to_euclidean_division_equations; lia).
  set (z := now / 1000000000 / 86400) in *. clearbody z.
  destruct (civil_from_days_spec z) as [[Hm Hday] Hnum]. destruct (civil_from_days z) as [y m d].
  unfold day_number in Hnum. cbn [dt_year dt_month dt_day] in *.
  destruct (months_follow (leap y) m m Hm Hm) as (H1 & H2 & _).
  change (leap_years 1969) with 477 in Hnum. unfold leap_years in Hnum.
  destruct (leap y); Z.to_euclidean_division_equations; lia.
Qed.
Lemma stamp_fields_ok now : clock_range now → Forall field_ok (stamp_fields (now / 1000000000)).
Proof.
  intros Hn. pose proof (clock_year now Hn) as Hy. unfold stamp_fields.
  destruct (civil_from_days_spec (now / 1000000000 / 86400)) as [[Hm Hd] _].
  set (dt := civil_from_days _) in *. clearbody dt.
  assert (Hd' : dt_day dt <= 31).
  { unfold month_length in Hd. repeat case_match; lia. }
  assert (Ht : 0 <= (now / 1000000000) mod 86400 < 86400) by (apply Z.mod_pos_bound; lia).
  set (t := (now / 1000000000) mod 86400) in *. clearbody t.
  repeat constructor; cbn [fst snd]; change (10 ^ Z.of_nat 2) with 100; change (10 ^ Z.of_nat 4) with 10000;
    try lia; Z.to_euclidean_division_equations; lia.
Qed.

(** The second a timestamp names. *)
Definition read_stamp (s : bytes) : option Z :=
  '(y, s) ← num 4 s; s ← sym "-" s; '(m, s) ← num 2 s; s ← sym "-" s; '(d, s) ← num 2 s; s ← sym "T" s;
  '(hh, s) ← num 2 s; s ← sym ":" s; '(mm, s) ← num 2 s; s ← sym ":" s; '(ss, s) ← num 2 s; s ← sym "Z" s;
  match s with [] => Some (day_number (mkDate y m d) * 86400 + hh * 3600 + mm * 60 + ss) | _ => None end.

Lemma timestamp_read now : clock_range now → read_stamp (currentTimestamp now) = Some (now / 1000000000).
Proof.
  intros Hn. pose proof (stamp_fields_ok now Hn) as Hok. unfold currentTimestamp. rewrite timestamp_fields.
  unfold stamp_fields in *. destruct (civil_from_days_spec (now / 1000000000 / 86400)) as [_ Hnum].
  set (dt := civil_from_days _) in *. cbn [fields].
  repeat (apply Forall_cons in Hok as [[? _] Hok]; cbn [fst snd] in *).
  unfold read_stamp. change (lit "-") with ["-"%byte]. change (lit "T") with ["T"%byte]. change (lit ":") with [":"%byte].
  change (lit "Z") with ["Z"%byte].
  repeat (rewrite num_padded by (done || lia); cbn [mbind option_bind app]; rewrite sym_cons; cbn [mbind option_bind]).
  f_equal. destruct dt as [y m d]. cbn [dt_year dt_month dt_day] in *. rewrite Hnum. clear.
  Z.to_euclidean_division_equations; lia.
Qed.

(** C19. The time stamp of a JSONL record is the second of the clock, for every
    value a 64-bit clock of nanoseconds can have: it is four, two, two, two, two
    and two digits with their separators, a day of the Gregorian calendar from
    1677 to 2262, leap days included; the second reads back from it; and time
    stamps sort as texts exactly in the order of time. *)
Theorem currentTimestamp_sorts now now' :
  clock_range now → clock_range now' →
  zlen (currentTimestamp now) = 20 ∧
  valid_date (civil_from_days (now / 1000000000 / 86400)) ∧
  1677 <= dt_year (civil_from_days (now / 1000000000 / 86400)) <= 2262 ∧
  read_stamp (currentTimestamp now) = Some (now / 1000000000) ∧
  text_before (currentTimestamp now) (currentTimestamp now') = (now / 1000000000 <? now' / 1000000000).
Proof.
  intros Hn Hn'. split_and!; [|apply civil_from_days_spec|by apply clock_year|by apply clock_year|by apply timestamp_read|].
  - pose proof (stamp_fields_ok now Hn) as Hok. unfold currentTimestamp. rewrite timestamp_fields. unfold stamp_fields in *.
    cbn [fields]. repeat (apply Forall_cons in Hok as [[? ?] Hok]; cbn [fst snd] in *).
    unfold zlen. rewrite !length_app. cbn [length].
    repeat match goal with |- context [length (padded ?v ?n "0")] => rewrite (proj1 (padded_digits v n ltac:(done) ltac:(done))) end. done.
  - assert (Hlt : ∀ a b, clock_range a → clock_range b → a / 1000000000 < b / 1000000000 →
                   text_before (currentTimestamp a) (currentTimestamp b) = true).
    { intros a b Ha Hb Hab. unfold currentTimestamp. rewrite !timestamp_fields.
      apply text_before_fields; [by apply stamp_fields_ok..|]. unfold stamp_fields.
      set (s := a / 1000000000) in *. set (s' := b / 1000000000) in *. clearbody s s'. cbn [fields_before].
      destruct (decide (s / 86400 = s' / 86400)) as [E|Hne].
      - rewrite E. repeat (split; [done|]; split; [done|]; right; split; [done|]).
        assert (s mod 86400 < s' mod 86400) by (Z.to_euclidean_division_equations; lia).
        assert (0 <= s mod 86400 < 86400 ∧ 0 <= s' mod 86400 < 86400) by (split; apply Z.mod_pos_bound; lia).
        set (t := s mod 86400) in *. set (t' := s' mod 86400) in *. clearbody t t'.
        assert (Hlex : t / 3600 < t' / 3600 ∨ t / 3600 = t' / 3600 ∧ (t / 60 mod 60 < t' / 60 mod 60 ∨
                  t / 60 mod 60 = t' / 60 mod 60 ∧ t mod 60 < t' mod 60)) by (Z.to_euclidean_division_equations; lia).
        destruct Hlex as [?|[? [?|[? ?]]]]; auto 20.
      - assert (Hd : s / 86400 < s' / 86400) by (Z.to_euclidean_division_equations; lia).
        apply civil_mono in Hd.
        destruct Hd as [?|[? [?|[? ?]]]]; auto 20. }
    destruct (Z.ltb_spec (now / 1000000000) (now' / 1000000000)) as [Hl|Hg]; [by apply Hlt|].
    destruct (decide (now / 1000000000 = now' / 1000000000)) as [E|Hne].
    + unfold currentTimestamp. rewrite E. apply text_before_irrefl.
    + apply text_before_asym, Hlt; [done|done|lia].
Qed.

Lemma currentTimestamp_sorts_witness :
  read_stamp (lit "2024-02-29T23:59:59Z") = Some 1709251199 ∧
  text_before (lit "2024-02-29T23:59:59Z") (lit "2024-03-01T00:00:00Z") = true.
Proof.
  assert (H1 : clock_range 1709251199999999999) by (vm_compute; split; [discriminate|reflexivity]).
  assert (H2 : clock_range 1709251200000000000) by (vm_compute; split; [discriminate|reflexivity]).
  destruct (currentTimestamp_sorts 1709251199999999999 1709251200000000000 H1 H2) as (_ & _ & _ & Hr & Ht).
  split; [vm_compute in Hr |- *; exact Hr|vm_compute in Ht |- *; exact Ht].
Defined.
