(* ===== verification/Platform.v ===== *)
(** * What the program is linked with

    Interfaces of the code outside the repository that the modelled functions
    call: Boost's property tree and string algorithms, Asio's address parser,
    and the parts of the standard library whose meaning depends on the platform.
    A component states what it needs as a class; the laws are the documented
    behaviour of the library. The instances at the end are concrete functions
    that satisfy the laws, for the examples and the witnesses. *)

From S2P Require Import Prelude.

(** [boost::property_tree::ptree], as the config loader reads it. *)
Class PropertyTree (T : Type) := {
  pt_get : T → bytes → option bytes;          (* get_optional<std::string>(path) *)
  pt_child : T → bytes → option T;            (* get_child_optional(path) *)
  pt_children : T → list (bytes * T)          (* iteration, in order *)
}.

Inductive IpVersion := IPv4 | IPv6.
#[export] Instance IpVersion_eq_dec : EqDecision IpVersion.
Proof. solve_decision. Defined.

(** Spaces off both ends, as [boost::algorithm::trim] documents. *)
Definition drop_spaces (s : bytes) : bytes := drop_while isspace s.
Definition trim_spaces (s : bytes) : bytes := reverse (drop_spaces (reverse (drop_spaces s))).

(** [boost::algorithm] on strings, in the "C" locale. *)
Class BoostStrings := {
  split_commas : bytes → list bytes;          (* split(_, s, is_any_of(",")) *)
  boost_trim : bytes → bytes;
  boost_to_lower : bytes → bytes;
  split_commas_law : ∀ s, split_commas s = split_on ","%byte s;
  boost_trim_law : ∀ s, boost_trim s = trim_spaces s;
  boost_to_lower_law : ∀ s, boost_to_lower s = tolower <$> s
}.

(** The machine: the width of [unsigned long], what an absolute path is, and
    which strings [make_address] parses. *)
Class Machine := {
  ulong_bits : Z;
  is_absolute : bytes → bool;
  make_address : bytes → option IpVersion;
  ulong_bits_law : 32 <= ulong_bits
}.

(** ** [std::stoi], [std::stoul], [std::stoull] in base 10 *)

(** White space, a sign, digits: the sign, the digits and the position after. *)
Definition strto_scan (s : bytes) : option (bool * bytes * nat) :=
  let s1 := drop_while isspace s in
  let '(neg, s2) := match s1 with
                    | c :: s2 => if decide (c = "-"%byte) then (true, s2)
                                 else if decide (c = "+"%byte) then (false, s2) else (false, s1)
                    | [] => (false, s1)
                    end in
  let ds := take_while isdigit s2 in
  if sv_empty ds then None else Some (neg, ds, (length s - length s2 + length ds)%nat).

Definition stoi (s : bytes) : M (Z * nat) :=
  match strto_scan s with
  | None => Throw (InvalidArgument (lit "stoi"))
  | Some (neg, ds, pos) =>
      let v := if neg : bool then - dec_value ds else dec_value ds in
      if (v <? -2147483648) || (2147483647 <? v) then Throw (OutOfRange (lit "stoi"))
      else mret (v, pos)
  end.

(** A leading minus negates in the unsigned type. *)
Definition stou (w : Z) (name : bytes) (s : bytes) : M (Z * nat) :=
  match strto_scan s with
  | None => Throw (InvalidArgument name)
  | Some (neg, ds, pos) =>
      if 2 ^ w - 1 <? dec_value ds then Throw (OutOfRange name)
      else mret ((if neg : bool then (- dec_value ds) mod 2 ^ w else dec_value ds), pos)
  end.
Definition stoul `{Machine} (s : bytes) : M (Z * nat) := stou ulong_bits (lit "stoul") s.
Definition stoull (s : bytes) : M (Z * nat) := stou 64 (lit "stoull") s.

(** Digits alone are read to their end. *)
Lemma strto_scan_number ds :
  ds ≠ [] → Forall (λ c, isdigit c = true) ds → strto_scan ds = Some (false, ds, length ds).
Proof.
  intros Hne Hd. unfold strto_scan. destruct ds as [|c ds]; [done|].
  assert (Hc : isdigit c = true) by by inversion Hd.
  assert (isspace c = false ∧ c ≠ "-"%byte ∧ c ≠ "+"%byte) as (Hs & Hm & Hp).
  { clear - Hc. revert Hc. revert c. by_bytes. }
  cbn [drop_while]. rewrite Hs, !decide_False by done.
  assert (take_while isdigit (c :: ds) = c :: ds) as ->.
  { rewrite <- (app_nil_r (c :: ds)) at 1. by apply take_while_app. }
  cbn. do 2 f_equal. lia.
Qed.

Lemma stoi_number ds :
  ds ≠ [] → Forall (λ c, isdigit c = true) ds → dec_value ds <= 2147483647 →
  stoi ds = Ret (dec_value ds, length ds).
Proof.
  intros Hne Hd Hv. unfold stoi. rewrite strto_scan_number by done.
  pose proof (dec_value_bound ds Hd). rewrite (proj2 (Z.ltb_ge _ _)), (proj2 (Z.ltb_ge _ _)) by lia. done.
Qed.

(** ** Concrete instances *)

#[local] Set Warnings "-register-all".

(** A two-level tree, as an INI file gives: keys with a text, sections of keys. *)
Inductive ini := Ini (data : bytes) (sub : list (bytes * ini)).

Definition ini_data (t : ini) : bytes := match t with Ini d _ => d end.
Definition ini_sub (t : ini) : list (bytes * ini) := match t with Ini _ s => s end.

Fixpoint assoc {A} (k : bytes) (l : list (bytes * A)) : option A :=
  match l with
  | [] => None
  | (k', a) :: l' => if decide (k' = k) then Some a else assoc k l'
  end.

(** A path is a list of keys separated by dots. *)
Definition ini_walk (t : ini) (path : bytes) : option ini :=
  foldl (λ o k, match o with Some t => assoc k (ini_sub t) | None => None end) (Some t)
        (split_on "."%byte path).

#[export] Instance ini_tree : PropertyTree ini := {|
  pt_get t path := ini_data <$> ini_walk t path;
  pt_child := ini_walk;
  pt_children := ini_sub
|}.

Definition linux_strings : BoostStrings := {|
  split_commas := split_on ","%byte;
  boost_trim := trim_spaces;
  boost_to_lower s := tolower <$> s;
  split_commas_law _ := eq_refl;
  boost_trim_law _ := eq_refl;
  boost_to_lower_law _ := eq_refl
|}.

(** Dotted quads only; enough for the examples. *)
Definition dotted_quad (s : bytes) : bool :=
  let parts := split_on "."%byte s in
  (length parts =? 4)%nat &&
  forallb (λ p, negb (sv_empty p) && forallb isdigit p && (dec_value p <=? 255)) parts.

Program Definition linux_machine : Machine := {|
  ulong_bits := 64;
  is_absolute s := match s with c :: _ => bool_decide (c = "/"%byte) | [] => false end;
  make_address s := if dotted_quad s then Some IPv4 else None
|}.
Next Obligation. lia. Qed.
