(* ===== verification/Config.v ===== *)
(** * Configuration (src/src/server/config/config.hpp, config.cpp)

    The configuration records, the routing predicate [facilityMatches], the
    readers of single values, and [loadConfig] with every check it makes. *)

From S2P Require Import Prelude Names Platform.

Definition kMaxFilesLimit : Z := 1000.

Record OutputConfig := mkOutput {
  oc_name : bytes;
  oc_textFile : bytes;
  oc_jsonlFile : bytes;
  oc_maxSize : Z;
  oc_maxFiles : Z;
  oc_facilities : list Z;
  oc_excludedFacilities : list Z;
  oc_includeMalformed : bool
}.

Record ForwardingConfig := mkForwarding {
  fc_enabled : bool;
  fc_host : bytes;
  fc_port : Z;
  fc_maxMessageSize : Z;
  fc_facilities : list Z;
  fc_excludedFacilities : list Z
}.

Record Config := mkConfig {
  cfg_host : bytes;
  cfg_udpPort : Z;
  cfg_workers : Z;
  cfg_maxQueueBytes : Z;
  cfg_outputs : list OutputConfig;
  cfg_forwarding : ForwardingConfig
}.

(** The default member initialisers. *)
Definition defaultOutput : OutputConfig := mkOutput [] [] [] 0 10 [] [] true.
Definition defaultForwarding : ForwardingConfig := mkForwarding false [] 514 2048 [] [].
Definition defaultConfig : Config :=
  mkConfig (lit "0.0.0.0") 514 4 (16 * 1024 * 1024) [] defaultForwarding.

(** ** Routing *)

Definition contains (l : list Z) (f : Z) : bool := bool_decide (f ∈ l).

Definition facilityMatches (accepted excluded : list Z) (msgFacility : option Z) : bool :=
  match msgFacility with
  | None => match accepted with [] => true | _ => false end
  | Some f =>
      if negb (match accepted with [] => true | _ => false end) && negb (contains accepted f)
      then false else negb (contains excluded f)
  end.

(** ** Readers of one value *)

Definition quoted (label value : bytes) : bytes := label ++ lit " = '" ++ value ++ lit "'".

Section readers.
Context `{PropertyTree T} `{BoostStrings} `{Machine}.

Definition requireAddress (label value : bytes) : M unit :=
  let address := make_address value in
  let bracketed := contains_byte "["%byte value || contains_byte "]"%byte value in
  let strayPort := bool_decide (address = Some IPv4) && contains_byte ":"%byte value in
  if bool_decide (address = None) || bracketed || strayPort then
    Throw (RuntimeError (lit "Invalid " ++ label ++ lit ": '" ++ value ++
             lit "' is not an IP address (names are not resolved)"))
  else mret tt.

Definition requireDestinationHost (label value : bytes) : M unit :=
  let address := make_address value in
  let bracketed := contains_byte "["%byte value || contains_byte "]"%byte value in
  let looksLikeUrlOrPort := contains_byte ":"%byte value || contains_byte "/"%byte value in
  let strayPort := bool_decide (address = Some IPv4) && contains_byte ":"%byte value in
  let hasSpace := existsb isspace value in
  let digitsAndDots := forallb (λ c, isdigit c || bool_decide (c = "."%byte)) value in
  if bracketed || hasSpace || strayPort ||
     (bool_decide (address = None) && (looksLikeUrlOrPort || digitsAndDots)) then
    Throw (RuntimeError (lit "Invalid " ++ label ++ lit ": '" ++ value ++
             lit "' is neither an IP address nor a hostname (the port belongs in the 'port' key, not here)"))
  else mret tt.

Definition requireInt (tree : T) (path label : bytes) (defaultVal : Z) : M Z :=
  match pt_get tree path with
  | None => mret defaultVal
  | Some raw =>
      try_catch
        ('(val, pos) ← stoi raw;
         if (pos =? length raw)%nat then mret val else Throw (InvalidArgument []))
        (λ _, Throw (RuntimeError (quoted label raw ++ lit " is not a whole number")))
  end.

Definition UINT32_MAX : Z := 4294967295.

Definition requireUint32 (tree : T) (path label : bytes) (defaultVal : Z) : M Z :=
  match pt_get tree path with
  | None => mret defaultVal
  | Some raw =>
      let negative := match raw with c :: _ => bool_decide (c = "-"%byte) | [] => false end in
      try_catch
        ('(val, pos) ← stoul raw;
         if negative || negb (pos =? length raw)%nat || (UINT32_MAX <? val)
         then Throw (InvalidArgument []) else mret val)
        (λ _, Throw (RuntimeError (quoted label raw ++
                       lit " is not a whole number between 0 and " ++ to_string UINT32_MAX)))
  end.

Definition requireBool (tree : T) (path label : bytes) (defaultVal : bool) : M bool :=
  match pt_get tree path with
  | None => mret defaultVal
  | Some raw =>
      if bool_decide (raw = lit "true") || bool_decide (raw = lit "1") then mret true
      else if bool_decide (raw = lit "false") || bool_decide (raw = lit "0") then mret false
      else Throw (RuntimeError (quoted label raw ++ lit " is not 'true', 'false', '1' or '0'"))
  end.

(** [tree.get<std::string>(path, default)] *)
Definition get_string (tree : T) (path dflt : bytes) : bytes := default dflt (pt_get tree path).

(** ** Facility lists *)

Definition facilityTokens (raw : bytes) : list bytes :=
  if sv_empty raw then [] else (λ t, boost_to_lower (boost_trim t)) <$> split_commas raw.

Definition facilityCode (token : bytes) : M Z :=
  match facilityFromName token with
  | None => Throw (RuntimeError (lit "Unknown facility name: '" ++ token ++ lit "'"))
  | Some code => mret code
  end.

Definition appendUnique (l : list Z) (code : Z) : list Z :=
  if contains l code then l else l ++ [code].

Fixpoint parseFacilities_loop (tokens : list bytes) (result : list Z) : M (list Z) :=
  match tokens with
  | [] => mret result
  | token :: rest =>
      if decide (token = lit "*") then mret []
      else code ← facilityCode token; parseFacilities_loop rest (appendUnique result code)
  end.
Definition parseFacilities (raw : bytes) : M (list Z) :=
  parseFacilities_loop (facilityTokens raw) [].

Fixpoint parseExcluded_loop (tokens : list bytes) (label : bytes) (result : list Z) : M (list Z) :=
  match tokens with
  | [] => mret result
  | token :: rest =>
      if decide (token = lit "*") then
        Throw (RuntimeError (label ++ lit " cannot be '*': that would exclude every message. Remove the section instead, or name the facilities to leave out"))
      else code ← facilityCode token; parseExcluded_loop rest label (appendUnique result code)
  end.
Definition parseExcludedFacilities (raw label : bytes) : M (list Z) :=
  parseExcluded_loop (facilityTokens raw) label [].

(** ** Sizes *)

Definition UINT64_MAX : Z := 18446744073709551615.

Definition parseSize (raw : bytes) (allowZero : bool) : M Z :=
  if sv_empty raw then Throw (RuntimeError (lit "Empty size value")) else
  i ← scan isdigit raw 0;
  if (i =? 0)%nat then
    Throw (RuntimeError (lit "Invalid size (no numeric part): '" ++ raw ++ lit "'")) else
  digits ← substr 0 i raw;
  num ← try_catch ('(v, _) ← stoull digits; mret v)
          (λ e, match e with
                | OutOfRange _ => Throw (RuntimeError (lit "Size out of range: '" ++ raw ++ lit "'"))
                | _ => Throw e
                end);
  if (num =? 0) && negb allowZero then
    Throw (RuntimeError (lit "Size must be > 0: '" ++ raw ++ lit "'")) else
  tail ← substr i (length raw) raw;
  let unit := boost_to_lower (boost_trim tail) in
  mult ← (if bool_decide (unit = lit "b") || sv_empty unit then mret 1
          else if decide (unit = lit "kb") then mret 1024
          else if decide (unit = lit "mb") then mret (1024 * 1024)
          else if decide (unit = lit "gb") then mret (1024 * 1024 * 1024)
          else Throw (RuntimeError (lit "Unknown size unit '" ++ unit ++ lit "' in: '" ++ raw
                                      ++ lit "'")));
  if negb (mult =? 0) && (UINT64_MAX / mult <? num) then
    Throw (RuntimeError (lit "Size too large: '" ++ raw ++ lit "' overflows 64 bits")) else
  mret ((num * mult) mod 2 ^ 64).

(** ** Sections *)

Definition requireAbsolutePath (label value : bytes) : M unit :=
  if is_absolute value then mret tt else
  Throw (RuntimeError (quoted label value ++
    lit " must be an absolute path. Environment variables are not expanded, so a value such as '%ProgramData%\minilog\log' does not become one.")).

(** The order [std::string] compares in. *)
Fixpoint bytes_ltb (a b : bytes) : bool :=
  match a, b with
  | _, [] => false
  | [], _ :: _ => true
  | x :: a', y :: b' => if bval x =? bval y then bytes_ltb a' b' else bval x <? bval y
  end.

(** [std::set<std::string>] in iteration order. *)
Fixpoint set_insert (x : bytes) (l : list bytes) : list bytes :=
  match l with
  | [] => [x]
  | y :: l' => if decide (x = y) then l else if bytes_ltb x y then x :: l else y :: set_insert x l'
  end.
Definition string_set (l : list bytes) : list bytes := foldr set_insert [] l.

(** [valid += (valid.empty() ? "" : ", ") + k], over the set. *)
Definition join_keys (known : list bytes) : bytes :=
  foldl (λ valid k, valid ++ (if sv_empty valid then [] else lit ", ") ++ k) [] (string_set known).

Definition requireKnownKeys (section : bytes) (sec : T) (known : list bytes) : M unit :=
  match list_find (λ kv : bytes * T, kv.1 ∉ known) (pt_children sec) with
  | None => mret tt
  | Some (_, (unknown, _)) =>
      Throw (RuntimeError (lit "Unknown key '" ++ unknown ++ lit "' in [" ++ section ++
               lit "]. Valid keys are: " ++ join_keys known))
  end.

Definition outputKeys : list bytes := lit <$>
  [ "text_file"; "jsonl_file"; "max_size"; "max_files"; "facility"; "exclude_facility";
    "include_malformed" ].

(** [catch (const std::runtime_error& e)]: the other classes go on. *)
Definition catch_runtime {A} (m : M A) (h : bytes → M A) : M A :=
  try_catch m (λ e, match e with RuntimeError what => h what | _ => Throw e end).

Definition parseOutput (name : bytes) (sec : T) : M OutputConfig :=
  let label := lit "[output." ++ name ++ lit "]" in
  requireKnownKeys (lit "output." ++ name) sec outputKeys;;
  let textFile := get_string sec (lit "text_file") [] in
  let jsonlFile := get_string sec (lit "jsonl_file") [] in
  (if sv_empty textFile && sv_empty jsonlFile
   then Throw (RuntimeError (label ++ lit " must specify text_file, jsonl_file, or both"))
   else mret tt);;
  (if negb (sv_empty textFile) then requireAbsolutePath (label ++ lit " text_file") textFile
   else mret tt);;
  (if negb (sv_empty jsonlFile) then requireAbsolutePath (label ++ lit " jsonl_file") jsonlFile
   else mret tt);;
  (if bool_decide (textFile = jsonlFile)
   then Throw (RuntimeError (label ++
          lit " text_file and jsonl_file must name different files, but both are '" ++
          textFile ++ lit "'"))
   else mret tt);;
  let sizeStr := get_string sec (lit "max_size") [] in
  maxSize ← (if negb (sv_empty sizeStr)
             then catch_runtime (parseSize sizeStr true)
                    (λ what, Throw (RuntimeError (label ++ lit " " ++ what)))
             else mret (oc_maxSize defaultOutput));
  maxFiles ← requireInt sec (lit "max_files") (label ++ lit " max_files")
               (oc_maxFiles defaultOutput);
  (if (maxFiles <? 0) || (kMaxFilesLimit <? maxFiles)
   then Throw (RuntimeError (label ++ lit " max_files must be between 0 and " ++
          to_string kMaxFilesLimit ++ lit " (0 = keep all, up to that)"))
   else mret tt);;
  facilities ← parseFacilities (get_string sec (lit "facility") (lit "*"));
  excluded ← parseExcludedFacilities (get_string sec (lit "exclude_facility") [])
               (label ++ lit " exclude_facility");
  includeMalformed ← requireBool sec (lit "include_malformed") (label ++ lit " include_malformed")
                       (oc_includeMalformed defaultOutput);
  mret (mkOutput name textFile jsonlFile maxSize maxFiles facilities excluded includeMalformed).

(** [owners.emplace(file, owner)]; throws when the file has an owner. *)
Definition claim (owners : gmap bytes bytes) (file owner : bytes) : M (gmap bytes bytes) :=
  if sv_empty file then mret owners else
  match owners !! file with
  | Some other =>
      Throw (RuntimeError (quoted owner file ++ lit " is already used by " ++ other ++
               lit "; each log file must belong to exactly one output section"))
  | None => mret (<[file := owner]> owners)
  end.

Fixpoint distinct_loop (outputs : list OutputConfig) (owners : gmap bytes bytes) : M unit :=
  match outputs with
  | [] => mret tt
  | out :: rest =>
      owners ← claim owners (oc_textFile out)
                 (lit "[output." ++ oc_name out ++ lit "] text_file");
      owners ← claim owners (oc_jsonlFile out)
                 (lit "[output." ++ oc_name out ++ lit "] jsonl_file");
      distinct_loop rest owners
  end.
Definition requireDistinctFiles (outputs : list OutputConfig) : M unit := distinct_loop outputs ∅.

(** ** The whole file *)

(** One pass over the top level, collecting the output sections. *)
Fixpoint outputs_loop (entries : list (bytes * T)) (seen : gset bytes)
    (outputs : list OutputConfig) : M (list OutputConfig) :=
  match entries with
  | [] => mret outputs
  | (key, sec) :: rest =>
      let prefix := lit "output." in
      if (length key <=? length prefix)%nat || bool_decide (take (length prefix) key ≠ prefix)
      then outputs_loop rest seen outputs
      else
        let name := drop (length prefix) key in
        if decide (name ∈ seen)
        then Throw (RuntimeError (lit "Duplicate output section name: '" ++ name ++ lit "'"))
        else out ← parseOutput name sec;
             outputs_loop rest ({[name]} ∪ seen) (outputs ++ [out])
  end.

Definition parseForwarding (f : T) : M ForwardingConfig :=
  requireKnownKeys (lit "forwarding") f
    (lit <$> ["enabled"; "host"; "port"; "facility"; "exclude_facility"; "max_message_size"]);;
  enabled ← requireBool f (lit "enabled") (lit "[forwarding] enabled") false;
  let host := get_string f (lit "host") [] in
  maxMessageSize ← requireUint32 f (lit "max_message_size") (lit "[forwarding] max_message_size")
                     (fc_maxMessageSize defaultForwarding);
  facilities ← parseFacilities (get_string f (lit "facility") (lit "*"));
  excluded ← parseExcludedFacilities (get_string f (lit "exclude_facility") [])
               (lit "[forwarding] exclude_facility");
  port ← requireInt f (lit "port") (lit "[forwarding] port") (fc_port defaultForwarding);
  (if (port <=? 0) || (65535 <? port)
   then Throw (RuntimeError (lit "Invalid forwarding port: " ++ to_string port)) else mret tt);;
  mret (mkForwarding enabled host port maxMessageSize facilities excluded).

Definition kMaxWorkers : Z := 256.

(** The argument is what [read_ini] returned: the tree, or the text of its error. *)
Definition loadConfig (parsed : bytes + T) : M Config :=
  tree ← match parsed with
         | inl what => Throw (RuntimeError (lit "Failed to parse config file: " ++ what))
         | inr tree => mret tree
         end;
  when_some (pt_child tree (lit "server")) (λ serverNode,
    requireKnownKeys (lit "server") serverNode
      (lit <$> ["host"; "udp_port"; "workers"; "max_queue_bytes"]));;
  let host := get_string tree (lit "server.host") (cfg_host defaultConfig) in
  requireAddress (lit "[server] host") host;;
  port ← requireInt tree (lit "server.udp_port") (lit "[server] udp_port")
           (cfg_udpPort defaultConfig);
  (if (port <? 0) || (65535 <? port)
   then Throw (RuntimeError (lit "Invalid udp_port: " ++ to_string port)) else mret tt);;
  w ← requireInt tree (lit "server.workers") (lit "[server] workers") (cfg_workers defaultConfig);
  (if (w <=? 0) || (kMaxWorkers <? w)
   then Throw (RuntimeError (lit "workers must be between 1 and " ++ to_string kMaxWorkers ++
                 lit " (got " ++ to_string w ++ lit ")")) else mret tt);;
  let raw := get_string tree (lit "server.max_queue_bytes") [] in
  maxQueueBytes ← (if negb (sv_empty raw)
                   then catch_runtime (parseSize raw false)
                          (λ what, Throw (RuntimeError (lit "[server] max_queue_bytes: " ++ what)))
                   else mret (cfg_maxQueueBytes defaultConfig));
  outputs ← outputs_loop (pt_children tree) ∅ [];
  (if bool_decide (outputs = [])
   then Throw (RuntimeError (lit "Config must define at least one [output.*] section"))
   else mret tt);;
  requireDistinctFiles outputs;;
  when_some (pt_child tree (lit "web_viewer")) (λ viewerNode,
    requireKnownKeys (lit "web_viewer") viewerNode (lit <$> ["host"; "port"]));;
  forwarding ← match pt_child tree (lit "forwarding") with
               | Some f => parseForwarding f
               | None => mret defaultForwarding
               end;
  (if fc_enabled forwarding then
     (if sv_empty (fc_host forwarding)
      then Throw (RuntimeError (lit "[forwarding] enabled = true requires a host address"))
      else mret tt);;
     requireDestinationHost (lit "[forwarding] host") (fc_host forwarding)
   else mret tt);;
  mret (mkConfig host port w maxQueueBytes outputs forwarding).

End readers.

(** A configuration as the README shows one. *)
Definition example_ini : ini :=
  let kv (k v : string) := (lit k, Ini (lit v) []) in
  Ini [] [ (lit "server", Ini [] [kv "host" "127.0.0.1"; kv "udp_port" "5514"; kv "workers" "2"]);
           (lit "output.main", Ini [] [kv "text_file" "/var/log/a.log"; kv "max_size" "100MB";
                                       kv "facility" "auth, AuthPriv"]);
           (lit "output.all", Ini [] [kv "jsonl_file" "/var/log/a.jsonl"; kv "max_files" "3"]);
           (lit "forwarding", Ini [] [kv "enabled" "true"; kv "host" "10.0.0.5"]) ].

Definition example_config : Config :=
  mkConfig (lit "127.0.0.1") 5514 2 16777216
    [ mkOutput (lit "main") (lit "/var/log/a.log") [] 104857600 10 [4; 10] [] true;
      mkOutput (lit "all") [] (lit "/var/log/a.jsonl") 0 3 [] [] true ]
    (mkForwarding true (lit "10.0.0.5") 514 2048 [] []).

Definition load_linux : bytes + ini → M Config :=
  @loadConfig ini ini_tree linux_strings linux_machine.

Example load_example : load_linux (inr example_ini) = Ret example_config.
Proof. vm_compute. reflexivity. Qed.
