(* ===== verification/ConfigSpec.v ===== *)
(** * What an accepted configuration satisfies

    The routing predicate, the value readers and [loadConfig] against their
    documented behaviour. *)

From S2P Require Import Prelude Names Platform Config.

(** ** Routing *)

Lemma contains_true l f : contains l f = true ↔ f ∈ l.
Proof. apply bool_decide_eq_true. Qed.

Lemma facilityMatches_iff accepted excluded o :
  facilityMatches accepted excluded o = true ↔
  match o with
  | None => accepted = []
  | Some f => (accepted = [] ∨ f ∈ accepted) ∧ f ∉ excluded
  end.
Proof.
  unfold facilityMatches, contains. destruct o as [f|]; [|by destruct accepted].
  destruct accepted as [|a acc].
  - cbn. rewrite negb_true_iff, bool_decide_eq_false. split; [by split; [left|]|by intros [_ ?]].
  - cbn [negb andb]. case_bool_decide as Ha; cbn [negb].
    + rewrite negb_true_iff, bool_decide_eq_false. split; [by split; [right|]|by intros [_ ?]].
    + split; [done|]. by intros [[?|?] _].
Qed.

(** ** Facility lists *)

Section spec.
Context `{PropertyTree T} `{BoostStrings} `{Machine}.

Definition code_range (f : Z) : Prop := 0 <= f <= 23.

Lemma facilityCode_yields token :
  yields (facilityCode token) (λ f, facilityFromName token = Some f).
Proof. unfold facilityCode. by destruct (facilityFromName token) eqn:E. Qed.

Lemma appendUnique_elem l c f : f ∈ appendUnique l c ↔ f ∈ l ∨ f = c.
Proof.
  unfold appendUnique. destruct (contains l c) eqn:E.
  - apply contains_true in E. split; [by left|]. intros [?| ->]; done.
  - rewrite elem_of_app, list_elem_of_singleton. done.
Qed.
Lemma appendUnique_NoDup l c : NoDup l → NoDup (appendUnique l c).
Proof.
  unfold appendUnique. intros Hl. destruct (contains l c) eqn:E; [done|].
  apply NoDup_app. split_and!; [done| |apply NoDup_singleton].
  intros x Hx Hc%list_elem_of_singleton. subst x. apply contains_true in Hx. congruence.
Qed.

(** The codes of a list of names without [*]. *)
Definition codes_of (tokens : list bytes) (l : list Z) : Prop :=
  NoDup l ∧ (∀ t, t ∈ tokens → t ≠ lit "*" ∧ is_Some (facilityFromName t)) ∧
  (∀ f, f ∈ l ↔ ∃ t, t ∈ tokens ∧ facilityFromName t = Some f).

Lemma codes_of_snoc seen t f l :
  codes_of seen l → t ≠ lit "*" → facilityFromName t = Some f →
  codes_of (seen ++ [t]) (appendUnique l f).
Proof.
  intros (Hnd & Ht & Hl) Hs Hf. split_and!; [by apply appendUnique_NoDup| |].
  - intros t' [Hin|Hin%list_elem_of_singleton]%elem_of_app; [by apply Ht|].
    subst t'. by split; [|exists f].
  - intros f'. rewrite appendUnique_elem, Hl. split.
    + intros [(t' & Hin & ?)| ->].
      * exists t'. split; [|done]. apply elem_of_app. by left.
      * exists t. split; [|done]. apply elem_of_app. right. by left.
    + intros (t' & [Hin|Hin%list_elem_of_singleton]%elem_of_app & ?); [left; eauto|].
      right. congruence.
Qed.

Lemma parseFacilities_loop_yields rest seen l :
  codes_of seen l →
  yields (parseFacilities_loop rest l)
         (λ r, (lit "*" ∈ rest ∧ r = []) ∨ codes_of (seen ++ rest) r).
Proof.
  revert seen l. induction rest as [|t rest IH]; intros seen l Hc; cbn.
  { right. by rewrite app_nil_r. }
  destruct (decide (t = lit "*")) as [->|Hne]; [left; split; [by left|done]|].
  eapply yields_bind; [apply facilityCode_yields|]. intros f Hf.
  eapply yields_impl; [apply (IH (seen ++ [t])); by apply codes_of_snoc|].
  intros r [[? ->]|Hr]; [left; split; [by right|done]|right]. by rewrite <- app_assoc in Hr.
Qed.

Lemma parseExcluded_loop_yields rest label seen l :
  codes_of seen l →
  yields (parseExcluded_loop rest label l) (codes_of (seen ++ rest)).
Proof.
  revert seen l. induction rest as [|t rest IH]; intros seen l Hc; cbn.
  { by rewrite app_nil_r. }
  destruct (decide (t = lit "*")) as [->|Hne]; [done|].
  eapply yields_bind; [apply facilityCode_yields|]. intros f Hf.
  eapply yields_impl; [apply (IH (seen ++ [t])); by apply codes_of_snoc|].
  intros r. by rewrite <- app_assoc.
Qed.

Lemma codes_of_nil : codes_of [] [].
Proof.
  split_and!; [apply NoDup_nil_2|by intros t ?%not_elem_of_nil|].
  intros f. split; [by intros ?%not_elem_of_nil|]. by intros (t & ?%not_elem_of_nil & _).
Qed.

(** The accepted list of a [facility] value: empty, the wildcard, when a token
    is [*] or the value is empty; otherwise the codes named, once each. *)
Definition FacilityList (raw : bytes) (l : list Z) : Prop :=
  (lit "*" ∈ facilityTokens raw ∧ l = []) ∨ codes_of (facilityTokens raw) l.

Lemma parseFacilities_yields raw : yields (parseFacilities raw) (FacilityList raw).
Proof. apply (parseFacilities_loop_yields _ [] []), codes_of_nil. Qed.
Lemma parseExcluded_yields raw label :
  yields (parseExcludedFacilities raw label) (codes_of (facilityTokens raw)).
Proof. apply (parseExcluded_loop_yields _ _ [] []), codes_of_nil. Qed.

Lemma codes_of_range tokens l : codes_of tokens l → NoDup l ∧ Forall code_range l.
Proof.
  intros (Hnd & _ & Hl). split; [done|]. apply Forall_forall. intros f Hf.
  apply Hl in Hf as (t & _ & Ht). by apply facilityFromName_range in Ht.
Qed.
Lemma FacilityList_range raw l : FacilityList raw l → NoDup l ∧ Forall code_range l.
Proof. intros [[_ ->]|H']; [split; constructor|by eapply codes_of_range]. Qed.

(** ** Numbers *)

Lemma strto_scan_digits s neg ds pos :
  strto_scan s = Some (neg, ds, pos) → ds ≠ [] ∧ Forall (λ c, isdigit c = true) ds.
Proof.
  unfold strto_scan. destruct (match drop_while isspace s with [] => _ | _ => _ end) as [neg' s2].
  destruct (sv_empty (take_while isdigit s2)) eqn:E; [done|]. intros [= <- <- <-].
  split; [|apply take_while_Forall]. intros Hn. by rewrite Hn in E.
Qed.

(** The value a key gives a number: its default, or the whole text as a number. *)
Definition IntText (raw : bytes) (v : Z) : Prop :=
  ∃ neg ds, strto_scan raw = Some (neg, ds, length raw) ∧
    v = (if neg : bool then - dec_value ds else dec_value ds).
Definition IntKey (tree : T) (path : bytes) (dflt v : Z) : Prop :=
  match pt_get tree path with None => v = dflt | Some raw => IntText raw v end.

Lemma requireInt_yields tree path label d :
  -2147483648 <= d <= 2147483647 →
  yields (requireInt tree path label d)
         (λ v, IntKey tree path d v ∧ -2147483648 <= v <= 2147483647).
Proof.
  intros Hd. unfold requireInt, IntKey. destruct (pt_get tree path) as [raw|]; [|done].
  unfold try_catch, stoi. destruct (strto_scan raw) as [[[neg ds] pos]|] eqn:Hs; [|done].
  set (v := if neg then _ else _). destruct (_ || _) eqn:E; [done|].
  apply orb_false_iff in E as [?%Z.ltb_ge ?%Z.ltb_ge]. cbn.
  destruct (Nat.eqb_spec pos (length raw)) as [->|]; [|done].
  cbn. split; [|done]. by exists neg, ds.
Qed.

(** A sign gets past the check of the first byte only behind white space
    (which [read_ini] has already removed). *)
Lemma strto_scan_neg raw ds pos :
  strto_scan raw = Some (true, ds, pos) →
  match raw with c :: _ => c = "-"%byte ∨ isspace c = true | [] => False end.
Proof.
  unfold strto_scan. destruct raw as [|c raw]; [done|]. cbn [drop_while].
  destruct (isspace c); [by right|].
  destruct (decide (c = "-"%byte)) as [->|]; [by left|].
  destruct (decide (c = "+"%byte)); by destruct (sv_empty _).
Qed.

Definition UintText (raw : bytes) (v : Z) : Prop :=
  ∃ neg ds, strto_scan raw = Some (neg, ds, length raw) ∧
    if neg : bool
    then v = (- dec_value ds) mod 2 ^ ulong_bits ∧ ∃ c k, raw = c :: k ∧ isspace c = true
    else v = dec_value ds.
Definition UintKey (tree : T) (path : bytes) (dflt v : Z) : Prop :=
  match pt_get tree path with None => v = dflt | Some raw => UintText raw v end.

Lemma requireUint32_yields tree path label d :
  0 <= d <= UINT32_MAX →
  yields (requireUint32 tree path label d) (λ v, UintKey tree path d v ∧ 0 <= v <= UINT32_MAX).
Proof.
  intros Hd. unfold requireUint32, UintKey. destruct (pt_get tree path) as [raw|]; [|done].
  unfold try_catch, stoul, stou. destruct (strto_scan raw) as [[[neg ds] pos]|] eqn:Hs; [|done].
  pose proof (strto_scan_digits _ _ _ _ Hs) as [_ Hds%dec_value_bound].
  destruct (Z.ltb_spec (2 ^ ulong_bits - 1) (dec_value ds)) as [|Hw]; [done|].
  set (v := if neg then _ else _). cbn. destruct (_ || _) eqn:E; [done|].
  apply orb_false_iff in E as [[Hneg Hpos]%orb_false_iff E%Z.ltb_ge]. cbn.
  apply negb_false_iff, Nat.eqb_eq in Hpos as ->. subst v. pose proof ulong_bits_law.
  split; [exists neg, ds; split; [done|]|split; [|done]]; destruct neg; [|done| |lia].
  - split; [done|]. apply strto_scan_neg in Hs. destruct raw as [|c raw]; [done|].
    apply bool_decide_eq_false in Hneg. destruct Hs as [?|?]; [done|]. by exists c, raw.
  - apply Z.mod_pos_bound, Z.pow_pos_nonneg; lia.
Qed.

Lemma requireBool_yields tree path label d : yields (requireBool tree path label d) (λ _, True).
Proof. unfold requireBool. by repeat case_match. Qed.

(** ** Sizes *)

(** The documented multipliers, by lower-case unit. *)
Definition size_unit (u : bytes) : option Z :=
  if bool_decide (u = lit "b") || sv_empty u then Some 1
  else if decide (u = lit "kb") then Some 1024
  else if decide (u = lit "mb") then Some (1024 * 1024)
  else if decide (u = lit "gb") then Some (1024 * 1024 * 1024)
  else None.

(** [raw] is a number, then optional white space and a unit, worth [v] bytes. *)
Definition SizeText (raw : bytes) (v : Z) : Prop :=
  ∃ ds tail m, raw = ds ++ tail ∧ ds ≠ [] ∧ Forall (λ c, isdigit c = true) ds ∧
    (∀ c k, tail = c :: k → isdigit c = false) ∧
    size_unit (tolower <$> trim_spaces tail) = Some m ∧ v = dec_value ds * m.

Lemma size_unit_pos u m : size_unit u = Some m → 1 <= m.
Proof. unfold size_unit. repeat case_match; intros; simplify_eq; lia. Qed.

Lemma unit_mult u raw :
  (if bool_decide (u = lit "b") || sv_empty u then mret 1
   else if decide (u = lit "kb") then mret 1024
   else if decide (u = lit "mb") then mret (1024 * 1024)
   else if decide (u = lit "gb") then mret (1024 * 1024 * 1024)
   else Throw (RuntimeError (lit "Unknown size unit '" ++ u ++ lit "' in: '" ++ raw ++ lit "'")))
  = match size_unit u with
    | Some m => mret m
    | None => Throw (RuntimeError (lit "Unknown size unit '" ++ u ++ lit "' in: '" ++ raw
                                     ++ lit "'"))
    end.
Proof. unfold size_unit. by repeat case_match. Qed.

Lemma SizeText_split raw v :
  SizeText raw v ↔
  take_while isdigit raw ≠ [] ∧ ∃ m,
    size_unit (tolower <$> trim_spaces (drop_while isdigit raw)) = Some m ∧
    v = dec_value (take_while isdigit raw) * m.
Proof.
  split.
  - intros (ds & tail & m & -> & Hne & Hd & Ht & Hu & ->).
    rewrite take_while_app, drop_while_app by done. eauto.
  - intros (Hne & m & Hu & ->). eexists _, _, m.
    split_and!; [symmetry; apply take_drop_while|done|apply take_while_Forall| |done|done].
    intros c k. apply drop_while_head.
Qed.

Lemma parseSize_decides raw allowZero :
  match parseSize raw allowZero with
  | Ret v => SizeText raw v ∧ 0 <= v <= UINT64_MAX ∧ (allowZero = false → v ≠ 0)
  | Throw (RuntimeError _) =>
      ∀ v, SizeText raw v → UINT64_MAX < v ∨ (allowZero = false ∧ v = 0)
  | _ => False
  end.
Proof.
  unfold parseSize. destruct (sv_empty raw) eqn:He.
  { destruct raw; [|done]. by intros v (? & _)%SizeText_split. }
  rewrite scan_spec by lia. rewrite drop_0. cbn [mbind M_bind Nat.add].
  set (ds := take_while isdigit raw).
  destruct (Nat.eqb_spec (length ds) 0) as [Hz|Hnz].
  { intros v (Hne & _)%SizeText_split. by apply length_zero_iff_nil in Hz. }
  assert (Hne : ds ≠ []) by (by intros ->).
  assert (Hd : Forall (λ c, isdigit c = true) ds) by apply take_while_Forall.
  pose proof (dec_value_bound ds Hd) as [Hpos _].
  rewrite !substr_le by (try apply length_take_while; lia). rewrite drop_0. cbn [mbind M_bind].
  replace (take (length ds) raw) with ds by apply take_while_take.
  unfold stoull, stou. rewrite strto_scan_number by done.
  change (2 ^ 64 - 1) with UINT64_MAX.
  destruct (Z.ltb_spec UINT64_MAX (dec_value ds)) as [Hbig|Hle]; cbn [mbind M_bind try_catch].
  { intros v (_ & m & Hm%size_unit_pos & ->)%SizeText_split. fold ds. left. nia. }
  cbn [mret M_ret mbind M_bind try_catch].
  destruct ((dec_value ds =? 0) && negb allowZero) eqn:Hzero; cbn [mbind M_bind].
  { apply andb_true_iff in Hzero as [Hv%Z.eqb_eq Ha]. intros v (_ & m & _ & ->)%SizeText_split.
    fold ds. right. destruct allowZero; [done|]. rewrite Hv. lia. }
  replace (drop (length ds) raw) with (drop_while isdigit raw) by apply drop_while_drop.
  rewrite take_ge by (rewrite drop_while_drop, length_drop; lia).
  rewrite boost_to_lower_law, boost_trim_law.
  set (u := tolower <$> _).
  assert (Hiff : ∀ v, SizeText raw v ↔ ∃ m, size_unit u = Some m ∧ v = dec_value ds * m).
  { intros v. rewrite SizeText_split. fold ds u. tauto. }
  rewrite (unit_mult u raw). destruct (size_unit u) as [m|] eqn:Hu; cbn [mret M_ret mbind M_bind].
  2: { intros v (m & ? & _)%Hiff. done. }
  pose proof (size_unit_pos _ _ Hu) as Hm.
  rewrite (proj2 (Z.eqb_neq m 0)) by lia. cbn [negb andb].
  destruct (Z.ltb_spec (UINT64_MAX / m) (dec_value ds)) as [Hov|Hfit]; cbn [mbind M_bind].
  { intros v (m' & [= <-] & ->)%Hiff. left.
    pose proof (Z.mul_succ_div_gt UINT64_MAX m). nia. }
  assert (dec_value ds * m <= UINT64_MAX) by (pose proof (Z.mul_div_le UINT64_MAX m); nia).
  cbn [mret M_ret]. rewrite Z.mod_small by (unfold UINT64_MAX in *; nia).
  split_and!; [apply Hiff; eauto|nia|done|].
  intros ->. cbn in Hzero. rewrite andb_true_r in Hzero. apply Z.eqb_neq in Hzero. nia.
Qed.

Lemma SizeText_fun raw v w : SizeText raw v → SizeText raw w → v = w.
Proof. intros (_ & m & Hm & ->)%SizeText_split (_ & m' & Hm' & ->)%SizeText_split. congruence. Qed.

Lemma parseSize_yields raw z :
  yields (parseSize raw z) (λ v, SizeText raw v ∧ 0 <= v <= UINT64_MAX ∧ (z = false → v ≠ 0)).
Proof. pose proof (parseSize_decides raw z) as H'. by destruct (parseSize raw z) as [v|[]|]. Qed.

(** parseSize accepts exactly the documented syntax: it returns [v] when
    and only when the text is a number and a known unit worth [v] bytes, [v]
    fits 64 bits, and [v] is not zero where zero is refused; the product never
    wraps, and every other text is a runtime_error. *)
Theorem parseSize_exact raw allowZero :
  (∀ v, parseSize raw allowZero = Ret v ↔
        SizeText raw v ∧ v <= UINT64_MAX ∧ (allowZero = false → v ≠ 0)) ∧
  ((¬ ∃ v, parseSize raw allowZero = Ret v) →
   ∃ what, parseSize raw allowZero = Throw (RuntimeError what)).
Proof.
  pose proof (parseSize_decides raw allowZero) as Hd.
  destruct (parseSize raw allowZero) as [w|[what| | |]|]; try done.
  - destruct Hd as (Hw & [_ Hle] & Hz). split; [|intros []; eauto].
    intros v. split; [by intros [= <-]|]. intros (Hv & _). by rewrite (SizeText_fun _ _ _ Hv Hw).
  - split; [|eauto]. intros v. split; [done|]. intros (Hv & Hle & Hz).
    apply Hd in Hv as [?|[Ha ->]]; [lia|]. by apply Hz in Ha.
Qed.

(** ** One file, one writer *)

Definition named (file : bytes) : list bytes := if sv_empty file then [] else [file].
Definition files_of (outputs : list OutputConfig) : list bytes :=
  flat_map (λ o, named (oc_textFile o) ++ named (oc_jsonlFile o)) outputs.

(** None of [files] has an owner, and no two are the same. *)
Definition Claimable (owners : gmap bytes bytes) (files : list bytes) : Prop :=
  NoDup files ∧ ∀ f, f ∈ files → owners !! f = None.

Lemma claim_validates owners file owner k files :
  (∀ owners', validates (k owners') (Claimable owners' files)) →
  validates (owners' ← claim owners file owner; k owners') (Claimable owners (named file ++ files)).
Proof.
  intros Hk. unfold claim, named. destruct (sv_empty file); [apply Hk|].
  destruct (owners !! file) as [other|] eqn:Ho; cbn [mbind M_bind mret M_ret app].
  { right. eexists. split; [done|]. intros [_ Hn]. rewrite Hn in Ho by left. done. }
  eapply validates_iff; [apply Hk|]. unfold Claimable. rewrite NoDup_cons. split.
  - intros [Hnd Hn]. split_and!; [|done|].
    + intros Hin. specialize (Hn _ Hin). by rewrite lookup_insert_eq in Hn.
    + intros f [->|Hin]%elem_of_cons; [done|]. specialize (Hn _ Hin).
      by apply lookup_insert_None in Hn as [? _].
  - intros [[Hni Hnd] Hn]. split; [done|]. intros f Hin.
    rewrite lookup_insert_ne by congruence. apply Hn. by right.
Qed.

Lemma distinct_loop_validates outputs owners :
  validates (distinct_loop outputs owners) (Claimable owners (files_of outputs)).
Proof.
  revert owners. induction outputs as [|o outputs IH]; intros owners.
  { left. split; [done|]. split; [constructor|]. by intros f ?%not_elem_of_nil. }
  cbn [distinct_loop files_of flat_map]. rewrite <- app_assoc.
  apply claim_validates. intros. by apply claim_validates.
Qed.

(** The files are pairwise different: each has one writer. *)
Lemma requireDistinctFiles_validates outputs :
  validates (requireDistinctFiles outputs) (NoDup (files_of outputs)).
Proof.
  eapply validates_iff; [apply distinct_loop_validates|].
  split; [by intros [? _]|]. intros Hnd. split; [done|]. intros. apply lookup_empty.
Qed.

(** ** Output sections *)

Definition NoUnknownKey (sec : T) (known : list bytes) : Prop :=
  Forall (λ kv, kv.1 ∈ known) (pt_children sec).

Lemma requireKnownKeys_validates section sec known :
  validates (requireKnownKeys section sec known) (NoUnknownKey sec known).
Proof.
  unfold requireKnownKeys, NoUnknownKey. destruct (list_find _ _) as [[i [k t]]|] eqn:E.
  - right. eexists. split; [done|]. rewrite Forall_lookup. intros Hall.
    apply list_find_Some in E as (Hi & Hk & _). by apply Hall in Hi.
  - left. split; [done|]. apply list_find_None in E. eapply Forall_impl; [exact E|].
    intros [k t]. cbn. apply dec_stable.
Qed.

Lemma requireAbsolutePath_validates label value :
  validates (requireAbsolutePath label value) (is_absolute value = true).
Proof. apply validates_ok. Qed.

(** A path that is configured is absolute. *)
Definition AbsoluteIfSet (file : bytes) : Prop := sv_empty file = false → is_absolute file = true.

Lemma absolute_if_set label file :
  validates (if negb (sv_empty file) then requireAbsolutePath label file else mret tt)
            (AbsoluteIfSet file).
Proof.
  unfold AbsoluteIfSet. destruct (sv_empty file); cbn; [by left|].
  eapply validates_iff; [apply requireAbsolutePath_validates|]. tauto.
Qed.

(** What one [output.<name>] section says. *)
Record OutputOf (name : bytes) (sec : T) (o : OutputConfig) : Prop := {
  oo_name : oc_name o = name;
  oo_keys : NoUnknownKey sec outputKeys;
  oo_text : oc_textFile o = get_string sec (lit "text_file") [];
  oo_jsonl : oc_jsonlFile o = get_string sec (lit "jsonl_file") [];
  oo_some : ¬ (oc_textFile o = [] ∧ oc_jsonlFile o = []);
  oo_differ : oc_textFile o ≠ oc_jsonlFile o;
  oo_text_abs : AbsoluteIfSet (oc_textFile o);
  oo_jsonl_abs : AbsoluteIfSet (oc_jsonlFile o);
  oo_size : let raw := get_string sec (lit "max_size") [] in
            if sv_empty raw then oc_maxSize o = 0 else SizeText raw (oc_maxSize o);
  oo_size_range : 0 <= oc_maxSize o <= UINT64_MAX;
  oo_files : IntKey sec (lit "max_files") 10 (oc_maxFiles o);
  oo_files_range : 0 <= oc_maxFiles o <= kMaxFilesLimit;
  oo_facilities : FacilityList (get_string sec (lit "facility") (lit "*")) (oc_facilities o);
  oo_excluded : codes_of (facilityTokens (get_string sec (lit "exclude_facility") []))
                         (oc_excludedFacilities o)
}.

Lemma catch_runtime_yields {A} (m : M A) (P : A → Prop) h :
  yields m P → (∀ what, yields (h what) P) → yields (catch_runtime m h) P.
Proof. intros Hm Hh. by destruct m as [a|[]|]; cbn in *. Qed.

(** A size key with a default. *)
Lemma size_key_yields raw z d h :
  0 <= d <= UINT64_MAX → (∀ what, ∃ w, h what = Throw (RuntimeError w)) →
  yields (if negb (sv_empty raw) then catch_runtime (parseSize raw z) h else mret d)
         (λ v, (if sv_empty raw then v = d else SizeText raw v ∧ (z = false → v ≠ 0)) ∧
               0 <= v <= UINT64_MAX).
Proof.
  intros Hd Hh. destruct (sv_empty raw); cbn; [done|].
  apply catch_runtime_yields.
  - eapply yields_impl; [apply parseSize_yields|]. tauto.
  - intros what. by destruct (Hh what) as [w ->].
Qed.

Lemma parseOutput_yields name sec : yields (parseOutput name sec) (OutputOf name sec).
Proof.
  unfold parseOutput.
  eapply yields_check; [apply requireKnownKeys_validates|intros Hkeys].
  set (text := get_string sec (lit "text_file") []).
  set (jsonl := get_string sec (lit "jsonl_file") []).
  eapply yields_check; [apply validates_throw|intros Hsome].
  eapply yields_check; [apply absolute_if_set|intros Htext].
  eapply yields_check; [apply absolute_if_set|intros Hjsonl].
  eapply yields_check; [apply validates_throw|intros Hdiff%bool_decide_eq_false].
  eapply yields_bind; [apply size_key_yields; [done|eauto]|intros size [Hsize Hsr]].
  eapply yields_bind; [by apply requireInt_yields|intros files [Hfiles _]].
  eapply yields_check; [apply validates_throw|intros [Hf0%Z.ltb_ge Hf1%Z.ltb_ge]%orb_false_iff].
  eapply yields_bind; [apply parseFacilities_yields|intros facs Hfacs].
  eapply yields_bind; [apply parseExcluded_yields|intros excl Hexcl].
  eapply yields_bind; [apply requireBool_yields|intros inc _].
  apply yields_ret. constructor; cbn; try done.
  - intros [-> ->]. done.
  - destruct (sv_empty (get_string sec (lit "max_size") [])); tauto.
Qed.

(** ** The whole file *)

(** The names of the [output.*] sections, in the order of the file. *)
Definition output_name (key : bytes) : option bytes :=
  if (length key <=? 7)%nat || bool_decide (take 7 key ≠ lit "output.") then None
  else Some (drop 7 key).
Definition output_sections (entries : list (bytes * T)) : list (bytes * T) :=
  omap (λ kv, (λ n, (n, kv.2)) <$> output_name kv.1) entries.

Definition OutputsOf (secs : list (bytes * T)) (outputs : list OutputConfig) : Prop :=
  NoDup (secs.*1) ∧ Forall2 (λ nt o, OutputOf nt.1 nt.2 o) secs outputs.

Lemma outputs_loop_yields entries seen secs outputs :
  (∀ n, n ∈ seen ↔ n ∈ secs.*1) → OutputsOf secs outputs →
  yields (outputs_loop entries seen outputs) (OutputsOf (secs ++ output_sections entries)).
Proof.
  revert seen secs outputs. induction entries as [|[key sec] entries IH];
    intros seen secs outputs Hseen Hout; cbn [outputs_loop output_sections omap list_omap].
  { unfold output_sections. cbn. by rewrite app_nil_r. }
  cbn [fst snd]. unfold output_name. change (length (lit "output.")) with 7%nat.
  destruct ((length key <=? 7)%nat || bool_decide (take 7 key ≠ lit "output."));
    cbn [fmap option_fmap option_map]; [by apply IH|].
  set (name := drop 7 key). destruct (decide (name ∈ seen)) as [|Hnew]; [done|].
  eapply yields_bind; [apply parseOutput_yields|intros o Ho].
  rewrite (app_snoc secs). apply IH.
  - intros n. rewrite fmap_app, elem_of_app, elem_of_union, elem_of_singleton, Hseen. cbn.
    rewrite list_elem_of_singleton. tauto.
  - destruct Hout as [Hnd Hall]. split.
    + rewrite fmap_app. apply NoDup_app. split_and!; [done| |apply NoDup_singleton].
      intros n Hn ->%list_elem_of_singleton. apply Hnew, Hseen, Hn.
    + apply Forall2_app; [done|]. constructor; [done|constructor].
Qed.

(** A host the forwarder can be given: no brackets, no white space, and, unless
    it is an address, no colon, no slash and not just digits and dots. *)
Definition HostShape (host : bytes) : Prop :=
  ("["%byte ∉ host) ∧ ("]"%byte ∉ host) ∧ Forall (λ c, isspace c = false) host ∧
  match make_address host with
  | Some IPv4 => (":"%byte ∉ host)
  | Some IPv6 => True
  | None => (":"%byte ∉ host) ∧ ("/"%byte ∉ host) ∧
            ¬ Forall (λ c, isdigit c = true ∨ c = "."%byte) host
  end.

Definition AddressShape (host : bytes) : Prop :=
  ("["%byte ∉ host) ∧ ("]"%byte ∉ host) ∧ is_Some (make_address host) ∧
  (make_address host = Some IPv4 → (":"%byte ∉ host)).

Lemma contains_byte_false c s : contains_byte c s = false ↔ c ∉ s.
Proof.
  unfold contains_byte. rewrite bool_decide_eq_false, <- sv_find_None, eq_None_not_Some. done.
Qed.

Lemma forallb_host (s : bytes) :
  forallb (λ c, isdigit c || bool_decide (c = "."%byte)) s = false ↔
  ¬ Forall (λ c, isdigit c = true ∨ c = "."%byte) s.
Proof.
  rewrite <- not_true_iff_false, forallb_Forall. apply not_iff_compat, Forall_iff. intros c.
  by rewrite orb_true_iff, bool_decide_eq_true.
Qed.

Lemma requireAddress_validates label host : validates (requireAddress label host) (AddressShape host).
Proof.
  eapply validates_iff; [apply validates_throw|]. unfold AddressShape.
  rewrite !orb_false_iff, andb_false_iff, !contains_byte_false, !bool_decide_eq_false.
  pose proof (not_eq_None_Some (make_address host)).
  destruct (decide (make_address host = Some IPv4)); tauto.
Qed.

Lemma requireDestinationHost_validates label host :
  validates (requireDestinationHost label host) (HostShape host).
Proof.
  eapply validates_iff; [apply validates_throw|]. unfold HostShape.
  rewrite !orb_false_iff, !andb_false_iff, !orb_false_iff, !contains_byte_false,
    !bool_decide_eq_false, forallb_host, existsb_Forall.
  destruct (make_address host) as [[]|].
  all: split; [intros ((([] & ?) & ?) & ?)|intros (? & ? & ? & ?)]; split_and!; intuition congruence.
Qed.

Record ForwardingOf (f : T) (c : ForwardingConfig) : Prop := {
  fo_keys : NoUnknownKey f (lit <$> ["enabled"; "host"; "port"; "facility"; "exclude_facility";
                                     "max_message_size"]);
  fo_host : fc_host c = get_string f (lit "host") [];
  fo_port : IntKey f (lit "port") 514 (fc_port c);
  fo_port_range : 1 <= fc_port c <= 65535;
  fo_size : UintKey f (lit "max_message_size") 2048 (fc_maxMessageSize c);
  fo_size_range : 0 <= fc_maxMessageSize c <= UINT32_MAX;
  fo_facilities : FacilityList (get_string f (lit "facility") (lit "*")) (fc_facilities c);
  fo_excluded : codes_of (facilityTokens (get_string f (lit "exclude_facility") []))
                         (fc_excludedFacilities c)
}.

Lemma parseForwarding_yields f : yields (parseForwarding f) (ForwardingOf f).
Proof.
  unfold parseForwarding.
  eapply yields_check; [apply requireKnownKeys_validates|intros Hkeys].
  eapply yields_bind; [apply requireBool_yields|intros en _].
  eapply yields_bind; [by apply requireUint32_yields|intros size [Hsize Hsr]].
  eapply yields_bind; [apply parseFacilities_yields|intros facs Hfacs].
  eapply yields_bind; [apply parseExcluded_yields|intros excl Hexcl].
  eapply yields_bind; [by apply requireInt_yields|intros port [Hport _]].
  eapply yields_check; [apply validates_throw|intros [Hp0%Z.leb_gt Hp1%Z.ltb_ge]%orb_false_iff].
  apply yields_ret. constructor; cbn; try done. lia.
Qed.

(** What a loaded configuration is, in terms of the parsed file. *)
Record LoadedFrom (tree : T) (cfg : Config) : Prop := {
  lf_server_keys : opt_all (λ n, NoUnknownKey n (lit <$> ["host"; "udp_port"; "workers";
                                                          "max_queue_bytes"]))
                           (pt_child tree (lit "server"));
  lf_viewer_keys : opt_all (λ n, NoUnknownKey n (lit <$> ["host"; "port"]))
                           (pt_child tree (lit "web_viewer"));
  lf_host : cfg_host cfg = get_string tree (lit "server.host") (lit "0.0.0.0");
  lf_host_shape : AddressShape (cfg_host cfg);
  lf_port : IntKey tree (lit "server.udp_port") 514 (cfg_udpPort cfg);
  lf_port_range : 0 <= cfg_udpPort cfg <= 65535;
  lf_workers : IntKey tree (lit "server.workers") 4 (cfg_workers cfg);
  lf_workers_range : 1 <= cfg_workers cfg <= kMaxWorkers;
  lf_queue : let raw := get_string tree (lit "server.max_queue_bytes") [] in
             if sv_empty raw then cfg_maxQueueBytes cfg = 16777216
             else SizeText raw (cfg_maxQueueBytes cfg);
  lf_queue_range : 1 <= cfg_maxQueueBytes cfg <= UINT64_MAX;
  lf_outputs : OutputsOf (output_sections (pt_children tree)) (cfg_outputs cfg);
  lf_some_output : cfg_outputs cfg ≠ [];
  lf_one_writer : NoDup (files_of (cfg_outputs cfg));
  lf_forwarding : match pt_child tree (lit "forwarding") with
                  | Some f => ForwardingOf f (cfg_forwarding cfg)
                  | None => cfg_forwarding cfg = defaultForwarding
                  end;
  lf_destination : fc_enabled (cfg_forwarding cfg) = true →
                   fc_host (cfg_forwarding cfg) ≠ [] ∧ HostShape (fc_host (cfg_forwarding cfg))
}.

Lemma destination_validates (c : ForwardingConfig) what label :
  validates
    (if fc_enabled c then
       (if sv_empty (fc_host c) then Throw (RuntimeError what) else mret tt);;
       requireDestinationHost label (fc_host c)
     else mret tt)
    (fc_enabled c = true → fc_host c ≠ [] ∧ HostShape (fc_host c)).
Proof.
  destruct (fc_enabled c); [|by left]. eapply validates_iff.
  - apply validates_bind; [apply validates_throw|intros _; apply requireDestinationHost_validates].
  - split.
    + intros [Hh Hs] _. split; [by intros Hn; rewrite Hn in Hh|done].
    + intros Hd. destruct Hd as [Hh Hs]; [done|]. split; [by destruct (fc_host c)|done].
Qed.

Lemma loadConfig_yields parsed :
  yields (loadConfig parsed) (λ cfg, ∃ tree, parsed = inr tree ∧ LoadedFrom tree cfg).
Proof.
  unfold loadConfig. destruct parsed as [what|tree]; [done|].
  cbn [mret M_ret mbind M_bind].
  eapply yields_check;
    [apply when_some_validates; intros; apply requireKnownKeys_validates|intros Hserver].
  eapply yields_check; [apply requireAddress_validates|intros Hhost].
  eapply yields_bind; [by apply requireInt_yields|intros port [Hport _]].
  eapply yields_check; [apply validates_throw|intros [Hp0%Z.ltb_ge Hp1%Z.ltb_ge]%orb_false_iff].
  eapply yields_bind; [by apply requireInt_yields|intros w [Hw _]].
  eapply yields_check; [apply validates_throw|intros [Hw0%Z.leb_gt Hw1%Z.ltb_ge]%orb_false_iff].
  eapply yields_bind; [apply size_key_yields; [done|eauto]|intros queue [Hq Hqr]].
  eapply yields_bind.
  { apply (outputs_loop_yields _ _ []); [|split; constructor].
    intros n. split; [by intros ?%not_elem_of_empty|by intros ?%not_elem_of_nil]. }
  intros outputs Hout.
  eapply yields_check; [apply validates_throw|intros Hne%bool_decide_eq_false].
  eapply yields_check; [apply requireDistinctFiles_validates|intros Hfiles].
  eapply yields_check;
    [apply when_some_validates; intros; apply requireKnownKeys_validates|intros Hviewer].
  eapply (yields_bind _ _ (λ c, match pt_child tree (lit "forwarding") with
    | Some f => ForwardingOf f c | None => c = defaultForwarding end)).
  { destruct (pt_child tree (lit "forwarding")); [apply parseForwarding_yields|done]. }
  intros fwd Hfwd. eapply yields_check; [apply destination_validates|intros Hdest].
  apply yields_ret. exists tree. split; [done|].
  cbn zeta in Hq. constructor; cbn; try done; [lia| |];
    destruct (sv_empty (get_string tree (lit "server.max_queue_bytes") [])); try tauto.
  - cbn in Hq. lia.
  - destruct Hq as [_ Hz]. specialize (Hz eq_refl). lia.
Qed.

(** C13. loadConfig either throws runtime_error (and nothing else) or returns a
    configuration that says what the file says, with every bound the rest of
    the server relies on: ports, workers, the queue budget, generations and
    sizes in range, known keys only, absolute paths, distinct section names,
    and no two outputs writing the same file. *)
Theorem loadConfig_valid parsed :
  yields (loadConfig parsed) (λ cfg, ∃ tree, parsed = inr tree ∧ LoadedFrom tree cfg).
Proof. apply loadConfig_yields. Qed.

(** ** Routing by the configured names *)

Definition Wildcard (tokens : list bytes) : Prop := tokens = [] ∨ lit "*" ∈ tokens.
Definition Named (tokens : list bytes) (f : Z) : Prop :=
  ∃ t, t ∈ tokens ∧ facilityFromName t = Some f.

Lemma codes_of_empty tokens : codes_of tokens [] → tokens = [].
Proof.
  intros (_ & Ht & Hl). destruct tokens as [|t tokens]; [done|].
  destruct (Ht t) as [_ [f Hf]]; [by left|].
  assert (f ∈ @nil Z) as []%not_elem_of_nil. apply Hl. exists t. split; [by left|done].
Qed.

(** The two configured lists route a message as documented: with a
    facility, when the accepted list is a wildcard or names it and the excluded
    list does not; without one, when the accepted list is a wildcard. *)
Theorem facility_routing raw excluded label acc ex (o : option Z) :
  parseFacilities raw = Ret acc → parseExcludedFacilities excluded label = Ret ex →
  facilityMatches acc ex o = true ↔
  match o with
  | None => Wildcard (facilityTokens raw)
  | Some f => (Wildcard (facilityTokens raw) ∨ Named (facilityTokens raw) f) ∧
              ¬ Named (facilityTokens excluded) f
  end.
Proof.
  intros Hacc Hex. rewrite facilityMatches_iff.
  pose proof (yields_Ret _ _ _ (parseFacilities_yields raw) Hacc) as Ha.
  pose proof (yields_Ret _ _ _ (parseExcluded_yields excluded label) Hex) as (_ & _ & He).
  assert (Hw : acc = [] ↔ Wildcard (facilityTokens raw)).
  { unfold Wildcard. destruct Ha as [[? ->]|Hc]; [tauto|]. split.
    - intros ->. left. by apply codes_of_empty.
    - destruct Hc as (_ & Ht & Hl). intros [Hnil|Hs%Ht]; [|by destruct Hs].
      destruct acc as [|f acc]; [done|]. destruct (proj1 (Hl f)) as (t & Hin & _); [by left|].
      rewrite Hnil in Hin. by apply not_elem_of_nil in Hin. }
  destruct o as [f|]; [|done]. rewrite Hw, He. apply and_iff_compat_r.
  destruct Ha as [[? ->]|(_ & _ & Hl)]; [unfold Wildcard; tauto|]. by rewrite Hl.
Qed.

End spec.

Lemma facility_routing_witness :
  facilityMatches [4; 10] [10] (Some 4) = true ↔
  (Wildcard [lit "auth"; lit "authpriv"] ∨ Named [lit "auth"; lit "authpriv"] 4) ∧
  ¬ Named [lit "authpriv"] 4.
Proof.
  apply (@facility_routing linux_strings (lit "auth, AuthPriv") (lit " authpriv") (lit "x")
           [4; 10] [10] (Some 4)); vm_compute; reflexivity.
Defined.
