(* ===== verification/Escape.v ===== *)
(** * Text leaving the server (src/src/server/output/log_file.cpp)

    [sanitizeUtf8] and [escapeControlChars], read by index so that an access
    past the end would show, and what they promise the two log formats: the
    JSONL file holds valid UTF-8 only, and a record of the text file is one line
    that no control character reaches and from which the datagram can be read
    back. *)

From S2P Require Import Prelude.

(** ** [sanitizeUtf8] *)

Definition kReplacement : bytes := [xef; xbf; xbd].

(** The length and the bounds of the first continuation byte, by lead byte. *)
Definition sequence_of (c : Z) : option (nat * Z * Z) :=
  if (0xC2 <=? c) && (c <=? 0xDF) then Some (2%nat, 0x80, 0xBF)
  else if c =? 0xE0 then Some (3%nat, 0xA0, 0xBF)
  else if (0xE1 <=? c) && (c <=? 0xEC) then Some (3%nat, 0x80, 0xBF)
  else if c =? 0xED then Some (3%nat, 0x80, 0x9F)
  else if (0xEE <=? c) && (c <=? 0xEF) then Some (3%nat, 0x80, 0xBF)
  else if c =? 0xF0 then Some (4%nat, 0x90, 0xBF)
  else if (0xF1 <=? c) && (c <=? 0xF3) then Some (4%nat, 0x80, 0xBF)
  else if c =? 0xF4 then Some (4%nat, 0x80, 0x8F)
  else None.

(** [for (j = 2; j < len; ++j)]: the remaining continuation bytes, [n] of them. *)
Fixpoint continuation_loop (s : bytes) (i j n : nat) : M bool :=
  match n with
  | O => mret true
  | S n' => c ← sv_at s (i + j);
            if (bval c <? 0x80) || (0xBF <? bval c) then mret false
            else continuation_loop s i (S j) n'
  end.

(** One round of the loop: the position and the text so far. *)
Definition sanitize_step (s : bytes) (st : nat * bytes) : M (nat * bytes) :=
  let '(i, out) := st in
  b ← sv_at s i;
  let c := bval b in
  if c <=? 0x7F then mret (S i, out ++ [b]) else
  match sequence_of c with
  | None => mret (S i, out ++ kReplacement)
  | Some (len, lo, hi) =>
      if (length s <? i + len)%nat then mret (S i, out ++ kReplacement) else
      b1 ← sv_at s (i + 1);
      if (bval b1 <? lo) || (hi <? bval b1) then mret (S i, out ++ kReplacement) else
      valid ← continuation_loop s i 2 (len - 2);
      if valid : bool then
        piece ← substr i len s;
        mret ((i + len)%nat, out ++ piece)
      else mret (S i, out ++ kReplacement)
  end.

Definition sanitizeUtf8 (s : bytes) : M bytes :=
  '(_, out) ← while_loop (S (length s)) (λ st, mret (st.1 <? length s)%nat) (sanitize_step s)
                (O, []);
  mret out.

(** ** [escapeControlChars] *)

(** A digit of [{:X}]. *)
Definition hex_digit (d : Z) : byte := byte_of_Z (if d <? 10 then 48 + d else 55 + d).
(** [std::format("{:02X}", v)] of a byte. *)
Definition hex2 (v : Z) : bytes := [hex_digit (v / 16); hex_digit (v mod 16)].

Definition escape_byte (b : byte) : bytes :=
  let c := bval b in
  if decide (b = "\"%byte) then lit "\\"
  else if decide (b = x0a) then lit "\n"
  else if decide (b = x0d) then lit "\r"
  else if ((c <? 0x20) && bool_decide (b ≠ x09)) || (c =? 0x7F) then lit "\x" ++ hex2 c
  else [b].

Definition escape_step (s : bytes) (st : nat * bytes) : M (nat * bytes) :=
  let '(i, out) := st in
  b ← sv_at s i;
  c1 ← (if (bval b =? 0xC2) && (i + 1 <? length s)%nat
        then next ← sv_at s (i + 1);
             mret (if (0x80 <=? bval next) && (bval next <=? 0x9F) then Some (bval next) else None)
        else mret None);
  match c1 with
  | Some next => mret (S (S i), out ++ lit "\u00" ++ hex2 next)
  | None => mret (S i, out ++ escape_byte b)
  end.

Definition escapeControlChars (s : bytes) : M bytes :=
  '(_, out) ← while_loop (S (length s)) (λ st, mret (st.1 <? length s)%nat) (escape_step s)
                (O, []);
  mret out.

Example escape_example :
  escapeControlChars (lit "a\b" ++ [x0a; x1b; x09; xc2; x9b; xc2]) =
  Ret (lit "a\\b\n\x1B" ++ [x09] ++ lit "\u009B" ++ [xc2]).
Proof. vm_compute. reflexivity. Qed.

Example sanitize_example :
  sanitizeUtf8 [x61; xe6; x97; xa5; xc3; x28; xed; xa0; x80] =
  Ret ([x61; xe6; x97; xa5] ++ kReplacement ++ [x28] ++ kReplacement ++ kReplacement ++ kReplacement).
Proof. vm_compute. reflexivity. Qed.

(** ** Loops that consume a string piece by piece *)

(** [next] says, of what is left, how much is consumed and what is written. *)
Inductive Pieces (next : bytes → nat * bytes) : bytes → bytes → Prop :=
| pieces_nil : Pieces next [] []
| pieces_cons k out :
    k ≠ [] → Pieces next (drop (next k).1 k) out → Pieces next k ((next k).2 ++ out).

Section consume.
Context (next : bytes → nat * bytes) (step : bytes → nat * bytes → M (nat * bytes)).
Hypothesis step_next : ∀ s i out k, drop i s = k → k ≠ [] →
  step s (i, out) = Ret ((i + (next k).1)%nat, out ++ (next k).2) ∧
  (1 ≤ (next k).1 ≤ length k)%nat.

Lemma consume_loop s fuel i out :
  (i ≤ length s)%nat → (length s - i < fuel)%nat →
  ∃ o, while_loop fuel (λ st, mret (st.1 <? length s)%nat) (step s) (i, out) =
         Ret (length s, out ++ o) ∧ Pieces next (drop i s) o.
Proof.
  revert i out. induction fuel as [|fuel IH]; intros i out Hi Hf; [lia|].
  rewrite while_loop_S. cbn [mret M_ret mbind M_bind fst].
  destruct (Nat.ltb_spec i (length s)) as [Hlt|Hge].
  - destruct (step_next s i out (drop i s)) as [-> Hn]; [done| |].
    { intros Hd%(f_equal length). rewrite length_drop in Hd. cbn in Hd. lia. }
    rewrite length_drop in Hn. cbn [mbind M_bind].
    destruct (IH (i + (next (drop i s)).1)%nat (out ++ (next (drop i s)).2)) as (o & -> & Ho); [lia..|].
    exists ((next (drop i s)).2 ++ o). rewrite <- app_assoc. split; [done|].
    constructor; [|by rewrite drop_drop].
    intros Hd%(f_equal length). rewrite length_drop in Hd. cbn in Hd. lia.
  - assert (i = length s) as -> by lia. exists []. rewrite app_nil_r, drop_all. split; [done|constructor].
Qed.

Lemma consume_returns s :
  ∃ out, (while_loop (S (length s)) (λ st, mret (st.1 <? length s)%nat) (step s) (O, []))
         = Ret (length s, out) ∧ Pieces next s out.
Proof. destruct (consume_loop s (S (length s)) 0 []) as (o & -> & Ho); [lia..|]. by exists o. Qed.
End consume.

(** ** UTF-8 *)

Definition scalar (cp : Z) : Prop := 0 <= cp <= 0x10FFFF ∧ ¬ (0xD800 <= cp <= 0xDFFF).

(** The encoding of a code point (RFC 3629). *)
Definition utf8_encode (cp : Z) : bytes :=
  byte_of_Z <$>
  (if cp <? 0x80 then [cp]
   else if cp <? 0x800 then [0xC0 + cp / 64; 0x80 + cp mod 64]
   else if cp <? 0x10000 then [0xE0 + cp / 4096; 0x80 + cp / 64 mod 64; 0x80 + cp mod 64]
   else [0xF0 + cp / 262144; 0x80 + cp / 4096 mod 64; 0x80 + cp / 64 mod 64; 0x80 + cp mod 64]).

Definition valid_utf8 (s : bytes) : Prop :=
  ∃ cps, Forall scalar cps ∧ s = concat (utf8_encode <$> cps).

(** What sanitizing is: every encoded scalar value is kept, and a byte at which
    none begins becomes U+FFFD. *)
Inductive Sanitized : bytes → bytes → Prop :=
| sanitized_nil : Sanitized [] []
| sanitized_keep cp s out :
    scalar cp → Sanitized s out → Sanitized (utf8_encode cp ++ s) (utf8_encode cp ++ out)
| sanitized_replace b s out :
    (¬ ∃ cp k, scalar cp ∧ b :: s = utf8_encode cp ++ k) →
    Sanitized s out → Sanitized (b :: s) (kReplacement ++ out).

Definition is_cont (b : byte) : bool := negb ((bval b <? 0x80) || (0xBF <? bval b)).

(** The length of the well-formed sequence [k] begins with. *)
Definition seq_len (k : bytes) : option nat :=
  match k with
  | [] => None
  | b :: t =>
      if bval b <=? 0x7F then Some 1%nat else
      match sequence_of (bval b) with
      | None => None
      | Some (len, lo, hi) =>
          if (length k <? len)%nat then None else
          match t with
          | b1 :: t' => if (bval b1 <? lo) || (hi <? bval b1) then None
                        else if forallb is_cont (take (len - 2) t') then Some len else None
          | [] => None
          end
      end
  end.
Definition sanitize_next (k : bytes) : nat * bytes :=
  match seq_len k with Some n => (n, take n k) | None => (1%nat, kReplacement) end.

Lemma continuation_loop_spec s i j n :
  (i + j + n ≤ length s)%nat →
  continuation_loop s i j n = Ret (forallb is_cont (take n (drop (i + j) s))).
Proof.
  revert j. induction n as [|n IH]; intros j Hj; cbn; [done|].
  destruct (drop (i + j) s) as [|c k] eqn:E.
  { apply (f_equal length) in E. rewrite length_drop in E. cbn in E. lia. }
  rewrite (sv_at_drop _ _ _ _ E). cbn. unfold is_cont at 1. destruct (_ || _); [done|].
  rewrite IH by lia. replace (i + S j)%nat with (i + j + 1)%nat by lia.
  by rewrite <- drop_drop, E.
Qed.

Lemma sequence_of_len c len lo hi : sequence_of c = Some (len, lo, hi) → (2 ≤ len ≤ 4)%nat.
Proof. unfold sequence_of. repeat case_match; intros; simplify_eq; lia. Qed.

Lemma sanitize_step_next s i out k :
  drop i s = k → k ≠ [] →
  sanitize_step s (i, out) = Ret ((i + (sanitize_next k).1)%nat, out ++ (sanitize_next k).2) ∧
  (1 ≤ (sanitize_next k).1 ≤ length k)%nat.
Proof.
  intros Hk Hne. destruct k as [|b t]; [done|].
  assert (Hlen : length s = (i + S (length t))%nat).
  { assert (i < length s)%nat.
    { destruct (Nat.lt_ge_cases i (length s)); [done|]. by rewrite drop_ge in Hk by lia. }
    apply (f_equal length) in Hk. rewrite length_drop in Hk. cbn in Hk. lia. }
  unfold sanitize_step, sanitize_next. rewrite (sv_at_drop _ _ _ _ Hk).
  cbn [mret M_ret mbind M_bind seq_len].
  destruct (bval b <=? 0x7F); [cbn; split; [do 2 f_equal; lia|lia]|].
  assert (Hrep : Ret (S i, out ++ kReplacement) = Ret ((i + 1)%nat, out ++ kReplacement) ∧
                 (1 ≤ 1 ≤ length (b :: t))%nat) by (cbn; split; [do 2 f_equal; lia|lia]).
  destruct (sequence_of (bval b)) as [[[len lo] hi]|] eqn:Hs; [|exact Hrep].
  apply sequence_of_len in Hs. cbn [length].
  destruct (Nat.ltb_spec (length s) (i + len)); destruct (Nat.ltb_spec (S (length t)) len);
    [exact Hrep|lia|lia|].
  destruct t as [|b1 t']; [cbn in *; lia|].
  assert (Hk1 : drop (i + 1) s = b1 :: t') by by rewrite <- drop_drop, Hk.
  rewrite (sv_at_drop _ _ _ _ Hk1). cbn [mret M_ret mbind M_bind].
  destruct (_ || _); [exact Hrep|].
  assert (Hk2 : drop (i + 2) s = t') by by rewrite <- drop_drop, Hk.
  rewrite continuation_loop_spec, Hk2 by lia. cbn [mret M_ret mbind M_bind].
  destruct (forallb _ _); [|exact Hrep].
  rewrite substr_le, Hk by lia. cbn [mret M_ret mbind M_bind fst snd]. cbn in *. split; [done|lia].
Qed.

(** The table, by the length of the sequence. *)
Definition lead2 (c lo hi : Z) : Prop := 0xC2 <= c <= 0xDF ∧ lo = 0x80 ∧ hi = 0xBF.
Definition lead3 (c lo hi : Z) : Prop :=
  0xE0 <= c <= 0xEF ∧ lo = (if c =? 0xE0 then 0xA0 else 0x80) ∧
  hi = (if c =? 0xED then 0x9F else 0xBF).
Definition lead4 (c lo hi : Z) : Prop :=
  0xF0 <= c <= 0xF4 ∧ lo = (if c =? 0xF0 then 0x90 else 0x80) ∧
  hi = (if c =? 0xF4 then 0x8F else 0xBF).

Lemma sequence_of_iff c len lo hi :
  sequence_of c = Some (len, lo, hi) ↔
  (len = 2%nat ∧ lead2 c lo hi) ∨ (len = 3%nat ∧ lead3 c lo hi) ∨ (len = 4%nat ∧ lead4 c lo hi).
Proof.
  unfold sequence_of, lead2, lead3, lead4. split.
  - repeat case_match; intros; simplify_eq; lia.
  - intros [(-> & ? & -> & ->)|[(-> & ? & -> & ->)|(-> & ? & -> & ->)]];
      repeat match goal with |- context [if ?b then _ else _] => destruct b eqn:? end;
      first [reflexivity | exfalso; lia].
Qed.

Lemma is_cont_iff b : is_cont b = true ↔ 0x80 <= bval b <= 0xBF.
Proof. unfold is_cont. lia. Qed.

Lemma byte_of_Z_eq b z : z = bval b → byte_of_Z z = b.
Proof. intros ->. apply byte_of_Z_bval. Qed.

(** Closes [utf8_encode cp = b :: ...] once [cp] is a linear expression of the bytes. *)
Ltac by_encoding :=
  unfold utf8_encode;
  repeat match goal with |- context [if ?a <? ?b then _ else _] =>
           destruct (Z.ltb_spec a b); [try (exfalso; lia)|try (exfalso; lia)] end;
  cbn; repeat f_equal; apply byte_of_Z_eq; Z.to_euclidean_division_equations; lia.

Lemma decode1 b : bval b <= 0x7F → utf8_encode (bval b) = [b].
Proof. intros. pose proof (bval_range b). by_encoding. Qed.
Lemma decode2 b b1 lo hi :
  lead2 (bval b) lo hi → lo <= bval b1 <= hi →
  ∃ cp, scalar cp ∧ utf8_encode cp = [b; b1].
Proof.
  intros (Hb & -> & ->) Hb1. exists ((bval b - 0xC0) * 64 + (bval b1 - 0x80)).
  unfold scalar. split; [lia|by_encoding].
Qed.
Lemma decode3 b b1 b2 lo hi :
  lead3 (bval b) lo hi → lo <= bval b1 <= hi → 0x80 <= bval b2 <= 0xBF →
  ∃ cp, scalar cp ∧ utf8_encode cp = [b; b1; b2].
Proof.
  intros (Hb & -> & ->) Hb1 Hb2.
  destruct (Z.eqb_spec (bval b) 0xE0), (Z.eqb_spec (bval b) 0xED); [lia|..].
  all: exists ((bval b - 0xE0) * 4096 + (bval b1 - 0x80) * 64 + (bval b2 - 0x80)).
  all: unfold scalar; split; [lia|by_encoding].
Qed.
Lemma decode4 b b1 b2 b3 lo hi :
  lead4 (bval b) lo hi → lo <= bval b1 <= hi → 0x80 <= bval b2 <= 0xBF → 0x80 <= bval b3 <= 0xBF →
  ∃ cp, scalar cp ∧ utf8_encode cp = [b; b1; b2; b3].
Proof.
  intros (Hb & -> & ->) Hb1 Hb2 Hb3.
  destruct (Z.eqb_spec (bval b) 0xF0), (Z.eqb_spec (bval b) 0xF4); [lia|..].
  all: exists ((bval b - 0xF0) * 262144 + (bval b1 - 0x80) * 4096 + (bval b2 - 0x80) * 64
          + (bval b3 - 0x80)).
  all: unfold scalar; split; [lia|by_encoding].
Qed.

Lemma seq_len_decode k n :
  seq_len k = Some n → ∃ cp, scalar cp ∧ take n k = utf8_encode cp.
Proof.
  destruct k as [|b t]; [done|]. cbn [seq_len]. destruct (Z.leb_spec (bval b) 0x7F) as [Hb|Hb].
  { intros [= <-]. exists (bval b). rewrite decode1 by done.
    pose proof (bval_range b). unfold scalar. split; [lia|by destruct t]. }
  destruct (sequence_of (bval b)) as [[[len lo] hi]|] eqn:Hs; [|done].
  destruct (Nat.ltb_spec (length (b :: t)) len) as [|Hl]; [done|].
  destruct t as [|b1 t]; [done|]. destruct (_ || _) eqn:Hb1; [done|].
  assert (lo <= bval b1 <= hi) by lia. cbn [length] in Hl.
  destruct (forallb _ _) eqn:Hc; [|done]. intros [= <-].
  apply sequence_of_iff in Hs as [[-> Hs]|[[-> Hs]|[-> Hs]]].
  - destruct (decode2 b b1 lo hi) as (cp & ? & He); [done..|]. exists cp. by rewrite He.
  - destruct t as [|b2 t]; [cbn in Hl; lia|]. cbn in Hc. rewrite andb_true_r, is_cont_iff in Hc.
    destruct (decode3 b b1 b2 lo hi) as (cp & ? & He); [done..|]. exists cp. by rewrite He.
  - destruct t as [|b2 [|b3 t]]; [cbn in Hl; lia..|]. cbn in Hc.
    rewrite andb_true_r, andb_true_iff, !is_cont_iff in Hc. destruct Hc as [Hc2 Hc3].
    destruct (decode4 b b1 b2 b3 lo hi) as (cp & ? & He); [done..|]. exists cp. by rewrite He.
Qed.

Lemma seq_len_multi (c b1 : Z) (bs : list Z) len lo hi rest :
  0x7F < c <= 255 → sequence_of c = Some (len, lo, hi) → len = S (S (length bs)) →
  0x80 <= lo → hi <= 0xBF → lo <= b1 <= hi → Forall (λ z, 0x80 <= z <= 0xBF) bs →
  seq_len ((byte_of_Z <$> (c :: b1 :: bs)) ++ rest) = Some len.
Proof.
  intros Hc Hs -> Hlo Hhi Hb1 Hbs. cbn [fmap list_fmap app seq_len].
  rewrite bval_byte_of_Z by lia. destruct (Z.leb_spec c 0x7F); [lia|]. rewrite Hs.
  destruct (Nat.ltb_spec (length (byte_of_Z c :: byte_of_Z b1 :: (byte_of_Z <$> bs) ++ rest))
              (S (S (length bs)))) as [Hl|_].
  { cbn in Hl. rewrite length_app, length_fmap in Hl. lia. }
  rewrite bval_byte_of_Z by lia. destruct (_ || _) eqn:E; [lia|].
  cbn [Nat.sub]. rewrite Nat.sub_0_r, <- (length_fmap byte_of_Z bs), take_app_length.
  rewrite (proj2 (forallb_Forall _ _)); [done|]. apply Forall_fmap.
  eapply Forall_impl; [exact Hbs|]. intros z Hz. cbn in Hz |- *. apply is_cont_iff.
  by rewrite bval_byte_of_Z by lia.
Qed.

Lemma seq_len_encode cp rest :
  scalar cp → seq_len (utf8_encode cp ++ rest) = Some (length (utf8_encode cp)).
Proof.
  intros [Hcp Hsur]. unfold utf8_encode.
  destruct (Z.ltb_spec cp 0x80).
  { cbn. rewrite bval_byte_of_Z by lia. by destruct (Z.leb_spec cp 0x7F); [|lia]. }
  assert (Hmod : ∀ z, 0x80 <= 0x80 + z mod 64 <= 0xBF)
    by (intros z; pose proof (Z.mod_pos_bound z 64); lia).
  rewrite length_fmap.
  destruct (Z.ltb_spec cp 0x800); [|destruct (Z.ltb_spec cp 0x10000)].
  - eapply (seq_len_multi _ _ []); [| | | | | |constructor].
    2: apply sequence_of_iff; left; split; [done|]; unfold lead2; split_and!; [..|done|done].
    all: try reflexivity; Z.to_euclidean_division_equations; lia.
  - eapply (seq_len_multi _ _ [_]); [| | | | | |apply Forall_singleton, Hmod].
    2: apply sequence_of_iff; right; left; split; [done|]; unfold lead3; split_and!; [..|done|done].
    all: try reflexivity; try case_match; try case_match; Z.to_euclidean_division_equations; lia.
  - eapply (seq_len_multi _ _ [_; _]); [| | | | | |apply Forall_cons; split; [|apply Forall_singleton]; apply Hmod].
    2: apply sequence_of_iff; right; right; split; [done|]; unfold lead4; split_and!; [..|done|done].
    all: try reflexivity; try case_match; try case_match; Z.to_euclidean_division_equations; lia.
Qed.

Lemma utf8_prefix_free cp cp' s s' :
  scalar cp → scalar cp' → utf8_encode cp ++ s = utf8_encode cp' ++ s' →
  utf8_encode cp = utf8_encode cp' ∧ s = s'.
Proof.
  intros Hc Hc' Heq. pose proof (seq_len_encode cp s Hc) as H1.
  rewrite Heq, seq_len_encode in H1 by done. apply app_inj_1 in Heq; [done|congruence].
Qed.

Lemma Sanitized_fun s o1 o2 : Sanitized s o1 → Sanitized s o2 → o1 = o2.
Proof.
  intros H1. revert o2. induction H1 as [|cp s o1 Hcp H1 IH|b s o1 Hno H1 IH]; intros o2 H2.
  - inversion H2 as [|cp' s' o' Hcp' _ Heq|]; [done|]. subst.
    pose proof (seq_len_encode cp' s' Hcp') as Hs. by rewrite Heq in Hs.
  - inversion H2 as [Hn|cp' s' o' Hcp' H2' Heq|b s' o' Hno' _ Heq]; subst.
    + pose proof (seq_len_encode cp s Hcp) as Hs. by rewrite <- Hn in Hs.
    + apply utf8_prefix_free in Heq as [-> ->]; [|done..]. by rewrite (IH o').
    + destruct Hno'. eauto.
  - inversion H2 as [|cp' s' o' Hcp' _ Heq|b' s' o' _ H2' Heq]; subst.
    + destruct Hno. eauto.
    + by rewrite (IH o').
Qed.

Lemma Pieces_Sanitized s out : Pieces sanitize_next s out → Sanitized s out.
Proof.
  induction 1 as [|k out Hne _ IH]; [constructor|]. unfold sanitize_next in *.
  destruct (seq_len k) as [n|] eqn:Hk; cbn [fst snd] in *.
  - destruct (seq_len_decode k n Hk) as (cp & Hcp & He). rewrite He.
    rewrite <- (take_drop n k) at 1. rewrite He. by constructor.
  - destruct k as [|b s]; [done|]. rewrite drop_1 in IH || cbn [drop] in IH.
    constructor; [|by rewrite drop_0 in IH || exact IH].
    intros (cp & k & Hcp & Heq). by rewrite Heq, seq_len_encode in Hk.
Qed.

Lemma sanitizeUtf8_returns s : ∃ out, sanitizeUtf8 s = Ret out ∧ Sanitized s out.
Proof.
  unfold sanitizeUtf8.
  destruct (consume_returns sanitize_next sanitize_step) with (s := s) as (out & -> & Hp).
  { intros. by apply sanitize_step_next. }
  exists out. split; [done|]. by apply Pieces_Sanitized.
Qed.

Lemma scalar_replacement : scalar 0xFFFD ∧ utf8_encode 0xFFFD = kReplacement.
Proof. split; [unfold scalar; lia|reflexivity]. Qed.

Lemma Sanitized_valid s out : Sanitized s out → valid_utf8 out.
Proof.
  assert (Hcons : ∀ cp o, scalar cp → valid_utf8 o → valid_utf8 (utf8_encode cp ++ o)).
  { intros cp o Hcp (cps & Hcps & ->). exists (cp :: cps). split; [by constructor|done]. }
  induction 1 as [|cp s out Hcp _ IH|b s out _ _ IH]; [by exists []|by apply Hcons|].
  destruct scalar_replacement as [? <-]. by apply Hcons.
Qed.

Lemma Sanitized_id s : valid_utf8 s → Sanitized s s.
Proof. intros (cps & Hcps & ->). induction Hcps; cbn; by constructor. Qed.

Lemma utf8_encode_length cp : (1 ≤ length (utf8_encode cp) ≤ 4)%nat.
Proof. unfold utf8_encode. rewrite length_fmap. repeat case_match; cbn; lia. Qed.

Lemma Sanitized_length s out : Sanitized s out → (length s ≤ length out ≤ 3 * length s)%nat.
Proof. induction 1; rewrite ?length_app; cbn; lia. Qed.

(** C39. sanitizeUtf8 returns for every string without reading past its end, and
    its result is the specified one: every encoded Unicode scalar value is kept
    and every byte at which none begins becomes U+FFFD. *)
Theorem sanitizeUtf8_exact s out : sanitizeUtf8 s = Ret out ↔ Sanitized s out.
Proof.
  destruct (sanitizeUtf8_returns s) as (o & -> & Ho).
  split; [by intros [= <-]|]. intros H. by rewrite (Sanitized_fun _ _ _ H Ho).
Qed.

(** What sanitizeUtf8 writes is valid UTF-8, at most three times as long,
    equal to its input when that was valid, and unchanged by a second pass. *)
Theorem sanitizeUtf8_valid s :
  ∃ out, sanitizeUtf8 s = Ret out ∧ valid_utf8 out ∧ (valid_utf8 s → out = s) ∧
         (length out ≤ 3 * length s)%nat ∧ sanitizeUtf8 out = Ret out.
Proof.
  destruct (sanitizeUtf8_returns s) as (o & He & Ho). exists o.
  pose proof (Sanitized_valid _ _ Ho) as Hv. pose proof (Sanitized_length _ _ Ho).
  split_and!; [done|done| |lia|].
  - intros Hs%Sanitized_id. by apply (Sanitized_fun s).
  - destruct (sanitizeUtf8_returns o) as (o' & -> & Ho'). f_equal.
    apply (Sanitized_fun o); [done|]. by apply Sanitized_id.
Qed.

(** ** Escaping *)

Definition escape_next (k : bytes) : nat * bytes :=
  match k with
  | [] => (O, [])
  | b :: t =>
      match t with
      | d :: _ => if (bval b =? 0xC2) && ((0x80 <=? bval d) && (bval d <=? 0x9F))
                  then (2%nat, lit "\u00" ++ hex2 (bval d)) else (1%nat, escape_byte b)
      | [] => (1%nat, escape_byte b)
      end
  end.

Lemma escape_step_next s i out k :
  drop i s = k → k ≠ [] →
  escape_step s (i, out) = Ret ((i + (escape_next k).1)%nat, out ++ (escape_next k).2) ∧
  (1 ≤ (escape_next k).1 ≤ length k)%nat.
Proof.
  intros Hk Hne. destruct k as [|b t]; [done|].
  assert (Hlen : (length s - i)%nat = S (length t)) by (by rewrite <- length_drop, Hk).
  unfold escape_step, escape_next. rewrite (sv_at_drop _ _ _ _ Hk).
  cbn [mret M_ret mbind M_bind].
  assert (Hone : Ret (S i, out ++ escape_byte b) = Ret ((i + 1)%nat, out ++ escape_byte b) ∧
                 (1 ≤ 1 ≤ length (b :: t))%nat) by (cbn; split; [do 2 f_equal; lia|lia]).
  destruct t as [|d t'].
  { destruct (Nat.ltb_spec (i + 1) (length s)); [cbn in Hlen; lia|]. by rewrite andb_false_r. }
  destruct (Nat.ltb_spec (i + 1) (length s)); [|cbn in Hlen; lia]. rewrite andb_true_r.
  assert (Hd : drop (i + 1) s = d :: t') by by rewrite <- drop_drop, Hk.
  destruct (bval b =? 0xC2); [|exact Hone].
  rewrite (sv_at_drop _ _ _ _ Hd). cbn [mret M_ret mbind M_bind andb].
  destruct (_ && _); [|exact Hone]. cbn [fst snd]. split; [do 2 f_equal; lia|cbn; lia].
Qed.

Lemma escape_returns s : ∃ out, escapeControlChars s = Ret out ∧ Pieces escape_next s out.
Proof.
  unfold escapeControlChars.
  destruct (consume_returns escape_next escape_step) with (s := s) as (out & -> & Hp).
  { intros. by apply escape_step_next. }
  by exists out.
Qed.

(** The inverse a reader of the log applies. *)
Definition unhex (h l : byte) : byte :=
  let d c := if isdigit c then bval c - 48 else bval c - 55 in byte_of_Z (16 * d h + d l).
Fixpoint unescape (s : bytes) : option bytes :=
  match s with
  | [] => Some []
  | c :: t =>
      if decide (c = "\"%byte) then
        match t with
        | d :: t1 =>
            if decide (d = "\"%byte) then cons d <$> unescape t1
            else if decide (d = "n"%byte) then cons x0a <$> unescape t1
            else if decide (d = "r"%byte) then cons x0d <$> unescape t1
            else if decide (d = "x"%byte) then
              match t1 with h :: l :: t2 => cons (unhex h l) <$> unescape t2 | _ => None end
            else if decide (d = "u"%byte) then
              match t1 with
              | _ :: _ :: h :: l :: t2 => (λ r, xc2 :: unhex h l :: r) <$> unescape t2
              | _ => None
              end
            else None
        | [] => None
        end
      else cons c <$> unescape t
  end.

Lemma unhex_hex2 b out :
  ∃ h l, hex2 (bval b) ++ out = h :: l :: out ∧ unhex h l = b.
Proof.
  eexists _, _. split; [done|]. revert b. by_bytes.
Qed.

Lemma unescape_byte b out r :
  unescape out = Some r → unescape (escape_byte b ++ out) = Some (b :: r).
Proof.
  intros Hr. unfold escape_byte.
  destruct (decide (b = "\"%byte)) as [->|Hb]; [by unfold lit; cbn; rewrite Hr|].
  destruct (decide (b = x0a)) as [->|]; [by unfold lit; cbn; rewrite Hr|].
  destruct (decide (b = x0d)) as [->|]; [by unfold lit; cbn; rewrite Hr|].
  destruct (_ || _).
  - rewrite <- app_assoc. destruct (unhex_hex2 b out) as (h & l & -> & He). unfold lit. cbn. by rewrite Hr, He.
  - cbn. by rewrite decide_False, Hr.
Qed.

Lemma Pieces_unescape s out : Pieces escape_next s out → unescape out = Some s.
Proof.
  induction 1 as [|k out Hne _ IH]; [done|]. destruct k as [|b t]; [done|].
  unfold escape_next in *. destruct t as [|d t]; [by apply unescape_byte|].
  destruct (_ && _) eqn:E; [|by apply unescape_byte]. cbn [fst snd drop] in *.
  apply andb_true_iff in E as [Hb%Z.eqb_eq _].
  assert (b = xc2) as -> by by apply bval_inj.
  rewrite <- app_assoc. destruct (unhex_hex2 d out) as (h & l & -> & He). unfold lit. cbn.
  rewrite drop_0 in IH. by rewrite IH, He.
Qed.

(** escapeControlChars returns for every string without reading past its
    end, and loses nothing: the inverse transformation gives the string back. *)
Theorem escape_reversible s :
  ∃ out, escapeControlChars s = Ret out ∧ unescape out = Some s.
Proof.
  destruct (escape_returns s) as (out & He & Hp). exists out.
  split; [done|]. by apply Pieces_unescape.
Qed.

(** A byte that acts on no terminal by itself and starts no line. *)
Definition printable (b : byte) : Prop := (0x20 <= bval b ∨ b = x09) ∧ bval b ≠ 0x7F.
(** No two bytes encode a C1 control. *)
Fixpoint no_c1 (s : bytes) : Prop :=
  match s with
  | b :: ((d :: _) as t) => ¬ (b = xc2 ∧ 0x80 <= bval d <= 0x9F) ∧ no_c1 t
  | _ => True
  end.

Lemma escape_byte_ascii b : escape_byte b = [b] ∨ Forall (λ c, bval c < 0x80) (escape_byte b).
Proof.
  destruct (decide (escape_byte b = [b])); [by left|right]. revert b n. by_bytes.
Qed.

Lemma escape_byte_printable b : Forall printable (escape_byte b).
Proof. unfold printable. revert b. by_bytes. Qed.
Lemma escape_c1_printable d :
  Forall printable (lit "\u00" ++ hex2 (bval d)) ∧
  Forall (λ c, bval c < 0x80) (lit "\u00" ++ hex2 (bval d)).
Proof. unfold printable. revert d. by_bytes. Qed.
Lemma escape_byte_length b : (1 ≤ length (escape_byte b) ≤ 4)%nat.
Proof. revert b. by_bytes. Qed.

Lemma no_c1_ascii p out : Forall (λ c, bval c < 0x80) p → no_c1 out → no_c1 (p ++ out).
Proof.
  intros Hp Hout. induction Hp as [|c p Hc Hp IH]; [done|]. cbn.
  destruct (p ++ out) as [|d t]; [done|]. split; [|done]. by intros [-> _].
Qed.
Lemma no_c1_cons b out :
  (∀ d t, out = d :: t → ¬ (b = xc2 ∧ 0x80 <= bval d <= 0x9F)) → no_c1 out → no_c1 (b :: out).
Proof. intros Hb Hout. cbn. destruct out as [|d t]; [done|]. split; [by eapply Hb|done]. Qed.

(** The first byte written is the first byte read, or a backslash. *)
Lemma escape_head b t :
  ∃ c r, (escape_next (b :: t)).2 = c :: r ∧ (c = b ∨ c = "\"%byte).
Proof.
  assert (head (escape_byte b) = Some b ∨ head (escape_byte b) = Some "\"%byte) as Hh
    by (clear t; revert b; by_bytes).
  assert (∃ c r, escape_byte b = c :: r ∧ (c = b ∨ c = "\"%byte)).
  { destruct (escape_byte b) as [|c r]; [by destruct Hh|]. exists c, r.
    split; [done|]. destruct Hh as [[= ->]|[= ->]]; [by left|by right]. }
  unfold escape_next. destruct t as [|d t]; [done|]. destruct (_ && _); [|done].
  eexists _, _. split; [done|by right].
Qed.

Lemma Pieces_head k out :
  Pieces escape_next k out →
  match out with [] => True | c :: _ => c = "\"%byte ∨ ∃ t, k = c :: t end.
Proof.
  destruct 1 as [|k out Hne _]; [done|]. destruct k as [|b t]; [done|].
  destruct (escape_head b t) as (c & r & -> & [->|?]); cbn; eauto.
Qed.

Lemma Pieces_safe k out :
  Pieces escape_next k out →
  Forall printable out ∧ no_c1 out ∧ (length k ≤ 3 * length out)%nat ∧
  (length out ≤ 4 * length k)%nat.
Proof.
  induction 1 as [|k out Hne Hp (Hpr & Hc1 & Hl1 & Hl2)]; [done|].
  destruct k as [|b t]; [done|].
  assert (Hone : Pieces escape_next t out → Forall printable out → no_c1 out →
    (length out ≤ 4 * length t)%nat → (length t ≤ 3 * length out)%nat →
    (∀ d t', t = d :: t' → ¬ (b = xc2 ∧ 0x80 <= bval d <= 0x9F)) →
    Forall printable (escape_byte b ++ out) ∧ no_c1 (escape_byte b ++ out) ∧
    (length (b :: t) ≤ 3 * length (escape_byte b ++ out))%nat ∧
    (length (escape_byte b ++ out) ≤ 4 * length (b :: t))%nat).
  { intros Hpt ? ? ? ? Hnext. pose proof (escape_byte_length b). rewrite length_app. split_and!.
    - apply Forall_app. split; [apply escape_byte_printable|done].
    - destruct (escape_byte_ascii b) as [->|?]; [|by apply no_c1_ascii].
      apply no_c1_cons; [|done]. intros d t' ->. apply Pieces_head in Hpt as [->|[t'' ->]].
      + by intros [_ []].
      + by eapply Hnext.
    - cbn. lia.
    - cbn. lia. }
  unfold escape_next in *. destruct t as [|d t].
  { apply Hone; done. }
  destruct (_ && _) eqn:E; cbn [fst snd drop] in *.
  - rewrite drop_0 in *. destruct (escape_c1_printable d) as [? ?]. split_and!.
    + by apply Forall_app.
    + by apply no_c1_ascii.
    + rewrite !length_app. change (length (lit "\u00")) with 4%nat. cbn. lia.
    + rewrite !length_app. change (length (lit "\u00")) with 4%nat. cbn. lia.
  - apply Hone; try done. intros ? ? [= <- <-] [-> ?]. cbn in E. lia.
Qed.

(** C32. A datagram is one line of the text file: what escapeControlChars writes
    has no byte below 0x20 except TAB, no DEL, no two bytes that encode a C1
    control, and is at most four times as long as what it reads. *)
Theorem escape_one_line s :
  ∃ out, escapeControlChars s = Ret out ∧ Forall printable out ∧ no_c1 out ∧ (x0a ∉ out) ∧
         (length out ≤ 4 * length s)%nat.
Proof.
  destruct (escape_returns s) as (out & He & Hp). exists out.
  destruct (Pieces_safe _ _ Hp) as (Hpr & Hc & _ & Hl). split_and!; try done.
  intros Hin. rewrite Forall_forall in Hpr. by destruct (Hpr _ Hin) as [[?|?] _].
Qed.
