(* ===== verification/Admission.v ===== *)
(** * Admission control (src/src/server/admission.hpp)

    [AdmissionControl] is called by every worker at once, so the model is its
    atomic operations and the interleavings of the threads that make them: the
    load, each round of the compare-and-swap loop (which may fail spuriously),
    the two counter increments of a drop, the creation of the charge, and the
    destructor that gives the bytes back when the last copy of a token goes. *)

From S2P Require Import Prelude.

(** ** The shared counters *)

Record State := mkState {
  budget : Z;
  inFlight : Z;
  droppedWindow : Z;
  droppedTotal : Z
}.

Definition initial_State (budgetBytes : Z) : State := mkState budgetBytes 0 0 0.

Definition set_inFlight (v : Z) (s : State) : State :=
  mkState (budget s) v (droppedWindow s) (droppedTotal s).
Definition set_droppedWindow (v : Z) (s : State) : State :=
  mkState (budget s) (inFlight s) v (droppedTotal s).
Definition set_droppedTotal (v : Z) (s : State) : State :=
  mkState (budget s) (inFlight s) (droppedWindow s) v.

(** ** A thread inside [admit] *)

Inductive Pc :=
| Idle                                  (* not in a call *)
| Loaded (bytes expected : Z)           (* holds its copy of [inFlight] *)
| CountingDrop (bytes : Z)              (* counted the window, not yet the total *)
| Charging (bytes : Z)                  (* won the exchange, has no [Charge] yet *)
| Refused (bytes : Z)                   (* returned a null token *)
| HasToken (bytes : Z) (token : nat).   (* returned a token *)

(** The body of the loop and its condition, one round. *)
Definition admit_round (bytes expected : Z) (spurious : bool) (s : State) : State * Pc :=
  if budget s <? u64 (expected + bytes) then
    (set_droppedWindow (u64 (droppedWindow s + 1)) s, CountingDrop bytes)
  else if (inFlight s =? expected) && negb spurious then
    (set_inFlight (u64 (expected + bytes)) s, Charging bytes)
  else (s, Loaded bytes (inFlight s)).

(** ** The whole system *)

(** A [Charge] and the number of [shared_ptr]s to it. *)
Record Charge := mkCharge { ch_bytes : Z; ch_copies : nat }.

Record System := mkSystem {
  sys_state : State;
  sys_threads : list Pc;
  sys_tokens : list Charge;          (* by token; no copies left means destroyed *)
  sys_releasing : list Z;            (* destructors that have not subtracted yet *)
  sys_leaked : Z;                    (* bytes whose [Charge] could not be allocated *)
  sys_drops : Z;                     (* datagrams refused so far *)
  sys_taken : Z                      (* what [takeDropped] has returned so far *)
}.

Definition initial (budgetBytes : Z) (threads : nat) : System :=
  mkSystem (initial_State budgetBytes) (replicate threads Idle) [] [] 0 0 0.

Inductive Event :=
| Call (t : nat) (bytes : Z)              (* admit(bytes): the load *)
| Round (t : nat) (spurious : bool)       (* one round of the loop *)
| CountDrop (t : nat)                     (* droppedTotal.fetch_add *)
| MakeCharge (t : nat) (allocated : bool) (* make_shared<Charge>, or bad_alloc *)
| CopyToken (i : nat)
| DestroyToken (i : nat)
| FetchSub (i : nat)                      (* the destructor's fetch_sub *)
| TakeDropped.

Definition with_thread (t : nat) (pc : Pc) (s : State) (y : System) : System :=
  mkSystem s (<[t := pc]> (sys_threads y)) (sys_tokens y) (sys_releasing y) (sys_leaked y)
           (sys_drops y) (sys_taken y).
Definition with_tokens (tokens : list Charge) (releasing : list Z) (y : System) : System :=
  mkSystem (sys_state y) (sys_threads y) tokens releasing (sys_leaked y) (sys_drops y) (sys_taken y).

(** A thread that returned may call again. *)
Definition ready (pc : Pc) : bool :=
  match pc with Idle | Refused _ | HasToken _ _ => true | _ => false end.

Definition step (y : System) (e : Event) : option System :=
  let s := sys_state y in
  match e with
  | Call t bytes =>
      pc ← sys_threads y !! t;
      if ready pc then Some (with_thread t (Loaded bytes (inFlight s)) s y) else None
  | Round t spurious =>
      pc ← sys_threads y !! t;
      match pc with
      | Loaded bytes expected =>
          let '(s', pc') := admit_round bytes expected spurious s in
          let y' := with_thread t pc' s' y in
          Some (mkSystem (sys_state y') (sys_threads y') (sys_tokens y') (sys_releasing y')
                  (sys_leaked y')
                  (match pc' with CountingDrop _ => sys_drops y' + 1 | _ => sys_drops y' end)
                  (sys_taken y'))
      | _ => None
      end
  | CountDrop t =>
      pc ← sys_threads y !! t;
      match pc with
      | CountingDrop bytes =>
          Some (with_thread t (Refused bytes) (set_droppedTotal (u64 (droppedTotal s + 1)) s) y)
      | _ => None
      end
  | MakeCharge t allocated =>
      pc ← sys_threads y !! t;
      match pc with
      | Charging bytes =>
          if allocated : bool then
            let y' := with_thread t (HasToken bytes (length (sys_tokens y))) s y in
            Some (with_tokens (sys_tokens y' ++ [mkCharge bytes 1]) (sys_releasing y') y')
          else
            let y' := with_thread t Idle s y in
            Some (mkSystem s (sys_threads y') (sys_tokens y') (sys_releasing y')
                    (sys_leaked y' + bytes) (sys_drops y') (sys_taken y'))
      | _ => None
      end
  | CopyToken i =>
      c ← sys_tokens y !! i;
      match ch_copies c with
      | O => None
      | S n => Some (with_tokens (<[i := mkCharge (ch_bytes c) (S (S n))]> (sys_tokens y))
                       (sys_releasing y) y)
      end
  | DestroyToken i =>
      c ← sys_tokens y !! i;
      match ch_copies c with
      | O => None
      | S n => Some (with_tokens (<[i := mkCharge (ch_bytes c) n]> (sys_tokens y))
                       (match n with O => ch_bytes c :: sys_releasing y | _ => sys_releasing y end) y)
      end
  | FetchSub i =>
      b ← sys_releasing y !! i;
      Some (mkSystem (set_inFlight (u64 (inFlight s - b)) s) (sys_threads y) (sys_tokens y)
              (delete i (sys_releasing y)) (sys_leaked y) (sys_drops y) (sys_taken y))
  | TakeDropped =>
      Some (mkSystem (set_droppedWindow 0 s) (sys_threads y) (sys_tokens y) (sys_releasing y)
              (sys_leaked y) (sys_drops y) (sys_taken y + droppedWindow s))
  end.

Definition run (y : System) (es : list Event) : option System :=
  foldl (λ o e, y ← o; step y e) (Some y) es.

(** ** Accounting *)

Definition pc_charge (pc : Pc) : Z := match pc with Charging b => b | _ => 0 end.
Definition pc_pending (pc : Pc) : Z := match pc with CountingDrop _ => 1 | _ => 0 end.
Definition ch_charge (c : Charge) : Z := match ch_copies c with O => 0 | S _ => ch_bytes c end.

(** The bytes somebody still answers for. *)
Definition outstanding (y : System) : Z :=
  zsum pc_charge (sys_threads y) + zsum ch_charge (sys_tokens y) +
  zsum id (sys_releasing y) + sys_leaked y.

Section invariant.
Context (B maxBytes : Z).
Hypothesis no_wrap : 0 <= B ∧ 0 <= maxBytes ∧ B + maxBytes < 2 ^ 64.

(** The sizes [admit] is called with. *)
Definition sized (e : Event) : Prop :=
  match e with Call _ bytes => 0 <= bytes <= maxBytes | _ => True end.

Definition pc_ok (pc : Pc) : Prop :=
  match pc with
  | Loaded b e => 0 <= b <= maxBytes ∧ 0 <= e <= B
  | Charging b => 0 <= b
  | _ => True
  end.

Record Inv (y : System) : Prop := {
  inv_budget : budget (sys_state y) = B;
  inv_charged : inFlight (sys_state y) = outstanding y;
  inv_bound : 0 <= inFlight (sys_state y) <= B;
  inv_threads : Forall pc_ok (sys_threads y);
  inv_tokens : Forall (λ c, 0 <= ch_bytes c) (sys_tokens y);
  inv_releasing : Forall (λ b, 0 <= b) (sys_releasing y);
  inv_leaked : 0 <= sys_leaked y;
  inv_total : droppedTotal (sys_state y) =
              u64 (sys_drops y - zsum pc_pending (sys_threads y));
  inv_window : u64 (droppedWindow (sys_state y) + sys_taken y) = u64 (sys_drops y)
}.

Lemma Inv_initial n : Inv (initial B n).
Proof.
  assert (Hz : ∀ f : Pc → Z, f Idle = 0 → zsum f (replicate n Idle) = 0)
    by (intros f Hf; apply zsum_zero, Forall_replicate, Hf).
  constructor; cbn; try done; try lia; try apply Forall_nil_2.
  - unfold outstanding. cbn. rewrite Hz by done. lia.
  - by apply Forall_replicate.
  - by rewrite Hz.
Qed.

(** Changing one thread, when nothing it charges or counts changes. *)
Lemma outstanding_nonneg y : Inv y → 0 <= zsum pc_charge (sys_threads y) ∧
  0 <= zsum ch_charge (sys_tokens y) ∧ 0 <= zsum id (sys_releasing y).
Proof.
  intros I. split_and!; apply zsum_nonneg; intros x Hx.
  - pose proof (proj1 (Forall_forall _ _) (inv_threads _ I) _ Hx). by destruct x.
  - pose proof (proj1 (Forall_forall _ _) (inv_tokens _ I) _ Hx).
    unfold ch_charge. by destruct (ch_copies x).
  - by pose proof (proj1 (Forall_forall _ _) (inv_releasing _ I) _ Hx).
Qed.

Lemma thread_ok y t pc : Inv y → sys_threads y !! t = Some pc → pc_ok pc.
Proof. intros I Ht. by eapply Forall_lookup_1, Ht; apply (inv_threads _ I). Qed.

(** The counters of a drop move together, up to wrap-around. *)
Lemma u64_window w k d : u64 (w + k) = u64 d → u64 (u64 (w + 1) + k) = u64 (d + 1).
Proof.
  intros H. rewrite u64_add_l. replace (w + 1 + k) with (w + k + 1) by lia.
  rewrite <- u64_add_l, H. apply u64_add_l.
Qed.

(** One thread moves: what it must preserve. *)
Lemma Inv_thread y t pc pc' s' tokens' leaked' drops' :
  Inv y → sys_threads y !! t = Some pc → pc_ok pc' →
  budget s' = B → 0 <= inFlight s' <= B → 0 <= leaked' →
  inFlight s' - inFlight (sys_state y) =
    pc_charge pc' - pc_charge pc + (zsum ch_charge tokens' - zsum ch_charge (sys_tokens y))
    + (leaked' - sys_leaked y) →
  Forall (λ c, 0 <= ch_bytes c) tokens' →
  droppedTotal s' = u64 (drops' - (zsum pc_pending (sys_threads y) - pc_pending pc + pc_pending pc')) →
  u64 (droppedWindow s' + sys_taken y) = u64 drops' →
  Inv (mkSystem s' (<[t := pc']> (sys_threads y)) tokens' (sys_releasing y) leaked' drops'
         (sys_taken y)).
Proof.
  intros I Ht Hok Hb Hr Hl Hf Htok Htot Hwin. constructor; cbn; try done.
  - unfold outstanding in *. cbn. rewrite (zsum_insert _ _ _ _ _ Ht).
    pose proof (inv_charged _ I) as Hc. unfold outstanding in Hc. lia.
  - apply Forall_insert; [apply (inv_threads _ I)|done].
  - apply (inv_releasing _ I).
  - by rewrite (zsum_insert _ _ _ _ _ Ht).
Qed.

Lemma Inv_Call y t bytes y' :
  0 <= bytes <= maxBytes → Inv y → step y (Call t bytes) = Some y' → Inv y'.
Proof.
  intros Hb I (pc & Ht & H)%bind_Some. destruct (ready pc) eqn:Hr; simplify_eq.
  pose proof I as []. eapply (Inv_thread y); eauto; destruct pc; cbn in *; try done; try lia.
  all: rewrite inv_total0; f_equal; lia.
Qed.

Lemma Inv_Round y t spurious y' : Inv y → step y (Round t spurious) = Some y' → Inv y'.
Proof.
  intros I (pc & Ht & H)%bind_Some. destruct pc as [|b e| | | |]; try done.
  pose proof (thread_ok _ _ _ I Ht) as [Hb He]. cbn in Hb, He.
  destruct (outstanding_nonneg _ I) as (? & ? & ?). pose proof I as [].
  unfold admit_round in H. rewrite u64_small in H by lia.
  destruct (Z.ltb_spec (budget (sys_state y)) (e + b)).
  { simplify_eq/=. eapply (Inv_thread y); eauto; cbn; try done; try lia.
    - rewrite inv_total0. f_equal. lia.
    - by apply u64_window. }
  destruct ((inFlight (sys_state y) =? e) && negb spurious) eqn:Hcas; simplify_eq/=.
  - apply andb_true_iff in Hcas as [Heq%Z.eqb_eq _].
    eapply (Inv_thread y); eauto; cbn; try done; try lia.
    rewrite inv_total0. f_equal. lia.
  - eapply (Inv_thread y); eauto; cbn; try done; try lia.
    rewrite inv_total0. f_equal. lia.
Qed.

Lemma Inv_CountDrop y t y' : Inv y → step y (CountDrop t) = Some y' → Inv y'.
Proof.
  intros I (pc & Ht & H)%bind_Some. destruct pc; simplify_eq. pose proof I as [].
  eapply (Inv_thread y); eauto; cbn; try done; try lia.
  rewrite inv_total0, u64_add_l. f_equal. lia.
Qed.

Lemma Inv_MakeCharge y t allocated y' : Inv y → step y (MakeCharge t allocated) = Some y' → Inv y'.
Proof.
  intros I (pc & Ht & H)%bind_Some. destruct pc as [| | |b| |]; try done.
  pose proof (thread_ok _ _ _ I Ht) as Hb. cbn in Hb. pose proof I as [].
  destruct allocated; simplify_eq/=; eapply (Inv_thread y); eauto; cbn; try done; try lia.
  - rewrite zsum_app. cbn. lia.
  - apply Forall_app. by split; [|repeat constructor].
  - rewrite inv_total0. f_equal. lia.
  - rewrite inv_total0. f_equal. lia.
Qed.

(** The tokens and the pending destructors change together. *)
Lemma Inv_tokens y tokens releasing :
  Inv y → zsum ch_charge tokens + zsum id releasing =
          zsum ch_charge (sys_tokens y) + zsum id (sys_releasing y) →
  Forall (λ c, 0 <= ch_bytes c) tokens → Forall (λ b, 0 <= b) releasing →
  Inv (with_tokens tokens releasing y).
Proof.
  intros [] Hsum ? ?. constructor; cbn; try done. unfold outstanding in *. cbn. lia.
Qed.

Lemma Inv_token_event y e y' :
  match e with CopyToken _ | DestroyToken _ => True | _ => False end →
  Inv y → step y e = Some y' → Inv y'.
Proof.
  intros He I H. destruct e as [| | | |i|i| |]; try done; apply bind_Some in H as (c & Hc & H).
  all: pose proof (proj1 (Forall_lookup _ _) (inv_tokens _ I) _ _ Hc) as Hb; cbn in Hb.
  all: destruct c as [b [|n]]; cbn in Hb; simplify_eq/=.
  all: apply Inv_tokens; [done| |by apply Forall_insert; [apply (inv_tokens _ I)|]|].
  all: rewrite ?(zsum_insert _ _ _ _ _ Hc); cbn.
  - lia.
  - apply (inv_releasing _ I).
  - destruct n; cbn; unfold id; lia.
  - pose proof (inv_releasing _ I). destruct n; [by constructor|done].
Qed.

Lemma Inv_FetchSub y i y' : Inv y → step y (FetchSub i) = Some y' → Inv y'.
Proof.
  intros I (b & Hi & H)%bind_Some. simplify_eq.
  destruct (outstanding_nonneg _ I) as (Ht & Hk & Hr). pose proof I as [].
  pose proof (proj1 (Forall_lookup _ _) inv_releasing0 _ _ Hi) as Hb. cbn in Hb.
  assert (b <= zsum id (sys_releasing y)).
  { apply (zsum_lookup_le id _ i); [|done]. intros x. by apply (proj1 (Forall_forall _ _)). }
  unfold outstanding in *.
  constructor; cbn; try done; rewrite ?(zsum_delete _ _ _ _ Hi), ?u64_small by lia.
  - unfold outstanding. cbn. rewrite (zsum_delete _ _ _ _ Hi). unfold id at 2. lia.
  - lia.
  - by apply Forall_delete.
Qed.

Lemma Inv_TakeDropped y y' : Inv y → step y TakeDropped = Some y' → Inv y'.
Proof.
  intros [] [= <-]. constructor; cbn; try done. rewrite <- inv_window0. f_equal. lia.
Qed.

Lemma Inv_step y e y' : sized e → Inv y → step y e = Some y' → Inv y'.
Proof.
  intros Hs I H. destruct e.
  - by eapply Inv_Call.
  - by eapply Inv_Round.
  - by eapply Inv_CountDrop.
  - by eapply Inv_MakeCharge.
  - by eapply (Inv_token_event _ (CopyToken i)).
  - by eapply (Inv_token_event _ (DestroyToken i)).
  - by eapply Inv_FetchSub.
  - by eapply Inv_TakeDropped.
Qed.

Lemma run_None es : foldl (λ o e, y ← o; step y e) None es = None.
Proof. by induction es. Qed.
Lemma run_Some y e es y' : run y (e :: es) = Some y' → ∃ z, step y e = Some z ∧ run z es = Some y'.
Proof.
  unfold run. cbn [foldl mbind option_bind]. destruct (step y e) as [z|] eqn:E; [eauto|].
  by rewrite run_None.
Qed.

Lemma Inv_run y es y' : Forall sized es → Inv y → run y es = Some y' → Inv y'.
Proof.
  intros Hs. revert y. induction Hs as [|e es He Hs IH]; intros y I H; [by injection H as <-|].
  apply run_Some in H as (z & Hz & Hrun). eapply IH, Hrun. by eapply Inv_step.
Qed.

(** Nothing left to give back. *)
Definition quiet (y : System) : Prop :=
  Forall (λ pc, ready pc = true) (sys_threads y) ∧
  Forall (λ c, ch_copies c = O) (sys_tokens y) ∧ sys_releasing y = [].

Lemma quiet_sums y :
  quiet y → outstanding y = sys_leaked y ∧ zsum pc_pending (sys_threads y) = 0.
Proof.
  intros (Ht & Hk & Hr). unfold outstanding. rewrite Hr.
  rewrite (zsum_zero pc_charge) by (eapply Forall_impl; [exact Ht|intros []; by cbn]).
  rewrite (zsum_zero pc_pending) by (eapply Forall_impl; [exact Ht|intros []; by cbn]).
  rewrite (zsum_zero ch_charge) by (eapply Forall_impl; [exact Hk|intros [b k]; cbn; by intros ->]).
  cbn. lia.
Qed.
End invariant.

(** C21. However the workers interleave, and however often an exchange fails
    spuriously: the bytes in flight are exactly those of the datagrams whose
    token still has a copy (with those between the exchange and the token, those
    whose destructor is running, and those whose charge could not be allocated),
    and never exceed the budget. *)
Theorem admission_bounded B maxBytes n es y :
  0 <= B → 0 <= maxBytes → B + maxBytes < 2 ^ 64 →
  Forall (sized maxBytes) es → run (initial B n) es = Some y →
  inFlight (sys_state y) = outstanding y ∧ 0 <= outstanding y <= B.
Proof.
  intros HB Hm Hw Hs Hrun.
  assert (Hnw : 0 <= B ∧ 0 <= maxBytes ∧ B + maxBytes < 2 ^ 64) by done.
  destruct (Inv_run B maxBytes Hnw _ _ _ Hs (Inv_initial B maxBytes Hnw n) Hrun) as [_ <- ? _ _ _ _ _ _].
  done.
Qed.

(** Every refused datagram is counted once: what [takeDropped] has returned
    plus the window is the number of refusals, so is the total once the calls
    have returned, and when the tokens are gone too only bytes whose charge
    could not be allocated remain in flight. *)
Theorem admission_drains B maxBytes n es y :
  0 <= B → 0 <= maxBytes → B + maxBytes < 2 ^ 64 →
  Forall (sized maxBytes) es → run (initial B n) es = Some y → quiet y →
  u64 (droppedWindow (sys_state y) + sys_taken y) = u64 (sys_drops y) ∧
  droppedTotal (sys_state y) = u64 (sys_drops y) ∧
  inFlight (sys_state y) = sys_leaked y.
Proof.
  intros HB Hm Hw Hs Hrun Hq.
  assert (Hnw : 0 <= B ∧ 0 <= maxBytes ∧ B + maxBytes < 2 ^ 64) by done.
  destruct (Inv_run B maxBytes Hnw _ _ _ Hs (Inv_initial B maxBytes Hnw n) Hrun)
    as [_ -> _ _ _ _ _ -> ->].
  destruct (quiet_sums _ Hq) as [-> ->]. split_and!; [done|f_equal; lia|done].
Qed.

(** ** One call by itself *)

Definition alone (s : State) (bytes : Z) : System :=
  mkSystem s [Idle] [] [] 0 0 0.

(** A call that no other thread disturbs is decided in one round: it is
    admitted, and charged, exactly when the datagram fits what is left of the
    budget; otherwise both drop counters go up and nothing is charged. *)
Theorem admit_alone s bytes :
  0 <= inFlight s → 0 <= bytes → inFlight s + bytes < 2 ^ 64 →
  if decide (inFlight s + bytes <= budget s) then
    run (alone s bytes) [Call 0 bytes; Round 0 false; MakeCharge 0 true] =
      Some (mkSystem (set_inFlight (inFlight s + bytes) s) [HasToken bytes 0] [mkCharge bytes 1]
              [] 0 0 0)
  else
    run (alone s bytes) [Call 0 bytes; Round 0 false; CountDrop 0] =
      Some (mkSystem (set_droppedTotal (u64 (droppedTotal s + 1))
                       (set_droppedWindow (u64 (droppedWindow s + 1)) s))
              [Refused bytes] [] [] 0 1 0).
Proof.
  intros Hi Hb Hw. destruct (decide _) as [Hle|Hgt].
  - unfold run, alone. cbn. unfold admit_round. rewrite u64_small by lia.
    rewrite (proj2 (Z.ltb_ge _ _)) by lia. rewrite Z.eqb_refl. done.
  - unfold run, alone. cbn. unfold admit_round. rewrite u64_small by lia.
    rewrite (proj2 (Z.ltb_lt _ _)) by lia. done.
Qed.

(** The loop of [admit] is lock free: a round that fails without a spurious
    failure does so because another thread changed the bytes in flight since
    this one read them, and it leaves this one with the current value. *)
Theorem admit_lock_free y t bytes expected y' :
  sys_threads y !! t = Some (Loaded bytes expected) →
  step y (Round t false) = Some y' →
  (∃ pc, sys_threads y' !! t = Some pc ∧ (∀ b e, pc ≠ Loaded b e)) ∨
  (inFlight (sys_state y) ≠ expected ∧ sys_state y' = sys_state y ∧
   sys_threads y' !! t = Some (Loaded bytes (inFlight (sys_state y)))).
Proof.
  intros Ht H. cbn in H. rewrite Ht in H. cbn in H.
  assert (Hl : (t < length (sys_threads y))%nat) by by eapply lookup_lt_Some.
  unfold admit_round in H. destruct (_ <? _); [simplify_eq/=; left; eexists; split;
    [by apply list_lookup_insert_eq|done]|].
  destruct (Z.eqb_spec (inFlight (sys_state y)) expected); simplify_eq/=.
  - left. eexists. split; [by apply list_lookup_insert_eq|done].
  - right. split_and!; [done|done|by apply list_lookup_insert_eq].
Qed.

(** Two workers race for the last bytes; a token is copied, and drains. *)
Definition race : list Event :=
  [Call 0 60; Call 1 60; Round 0 false; Round 1 true; Round 1 false; CountDrop 1;
   MakeCharge 0 true; CopyToken 0; DestroyToken 0; DestroyToken 0; FetchSub 0; TakeDropped].
Definition race_end : System :=
  mkSystem (mkState 100 0 0 1) [HasToken 60 0; Refused 60] [mkCharge 60 0] [] 0 1 1.

Example race_run : run (initial 100 2) race = Some race_end.
Proof. vm_compute. reflexivity. Qed.

Lemma admission_bounded_witness :
  run (initial 100 2) (take 9 race) = Some
    (mkSystem (mkState 100 60 1 1) [HasToken 60 0; Refused 60] [mkCharge 60 1] [] 0 1 0) ∧
  60 = 60 ∧ 0 <= 60 <= 100.
Proof.
  split; [vm_compute; reflexivity|].
  apply (admission_bounded 100 65535 2 (take 9 race)
           (mkSystem (mkState 100 60 1 1) [HasToken 60 0; Refused 60] [mkCharge 60 1] [] 0 1 0));
    [lia|lia|lia| |vm_compute; reflexivity].
  repeat (constructor; [cbn; lia|]). constructor.
Defined.

Lemma admission_drains_witness : u64 (0 + 1) = u64 1 ∧ 1 = u64 1 ∧ 0 = 0.
Proof.
  apply (admission_drains 100 65535 2 race race_end); [lia|lia|lia| |vm_compute; reflexivity|].
  - repeat (constructor; [cbn; lia|]). constructor.
  - split_and!; [|..|done]; repeat constructor.
Defined.

Lemma admit_alone_witness :
  run (alone (mkState 100 60 0 0) 50) [Call 0 50; Round 0 false; CountDrop 0] =
    Some (mkSystem (mkState 100 60 1 1) [Refused 50] [] [] 0 1 0).
Proof. apply (admit_alone (mkState 100 60 0 0) 50); cbn; lia. Defined.

Lemma admit_lock_free_witness :
  (∃ pc, [Loaded 60 60] !! 0%nat = Some pc ∧ (∀ b e, pc ≠ Loaded b e)) ∨
  (60 ≠ 0 ∧ mkState 200 60 0 0 = mkState 200 60 0 0 ∧ [Loaded 60 60] !! 0%nat = Some (Loaded 60 60)).
Proof.
  apply (admit_lock_free (mkSystem (mkState 200 60 0 0) [Loaded 60 0] [] [] 0 0 0) 0 60 0
           (mkSystem (mkState 200 60 0 0) [Loaded 60 60] [] [] 0 0 0)); vm_compute; reflexivity.
Defined.
