(* ===== verification/Backoff.v ===== *)
(** * Rate-limited recovery (src/src/server/receive_backoff.hpp, output/sink_recovery.hpp)

    [ReceiveBackoff] paces a socket that keeps failing and says which errors to
    report; [SinkRecovery] does so for a log file that cannot be opened. Both
    are counters updated by each event. Each is shown equal to a specification
    that computes the same answers from the history of events, and the promises
    made about the log (a report at most once a minute, no error uncounted, a
    recovery line only for an outage that was announced) are proved from it.
    Times are [steady_clock] ticks, in nanoseconds. *)

From stdpp Require Import sorting.
From S2P Require Import Prelude.

Definition milliseconds (n : Z) : Z := n * 1000000.
Definition seconds (n : Z) : Z := n * 1000000000.
(** [duration_cast<seconds>]: towards zero. *)
Definition to_seconds (d : Z) : Z := Z.quot d 1000000000.

Module ReceiveBackoff.

Definition kFirstDelay : Z := milliseconds 50.
Definition kMaxDelay : Z := milliseconds 1000.
Definition kReportInterval : Z := seconds 60.

Record Decision := mkDecision { delay : Z; report : bool; suppressed : Z }.

Record t := mk {
  m_streak : Z;
  m_unreported : Z;
  m_streakReported : bool;
  m_delay : Z;
  m_lastReport : option Z
}.
Definition init : t := mk 0 0 false 0 None.

Definition onError (now : Z) (b : t) : t * Decision :=
  let streak := u64 (m_streak b + 1) in
  let unreported := u64 (m_unreported b + 1) in
  let d := if streak =? 1 then kFirstDelay else Z.min (m_delay b * 2) kMaxDelay in
  if match m_lastReport b with None => true | Some last => kReportInterval <=? now - last end
  then (mk streak 0 true d (Some now),
        mkDecision d true (match m_lastReport b with Some _ => unreported | None => 0 end))
  else (mk streak unreported (m_streakReported b) d (m_lastReport b), mkDecision d false 0).

Definition onSuccess (b : t) : t * Z :=
  (mk 0 (m_unreported b) false 0 (m_lastReport b),
   if m_streakReported b then m_streak b else 0).

(** ** Histories *)

Inductive Event := Error (now : Z) | Success.
Inductive Answer := Decided (d : Decision) | Ended (errors : Z).

Definition step (b : t) (e : Event) : t * Answer :=
  match e with
  | Error now => let '(b', d) := onError now b in (b', Decided d)
  | Success => let '(b', n) := onSuccess b in (b', Ended n)
  end.
Fixpoint run (b : t) (es : list Event) : t * list Answer :=
  match es with
  | [] => (b, [])
  | e :: es' => let '(b', a) := step b e in let '(b'', r) := run b' es' in (b'', a :: r)
  end.

(** What happened, the latest first: an error and whether it was reported. *)
Inductive Entry := Failed (now : Z) (reported : bool) | Received.

Fixpoint trailing (h : list Entry) : Z :=
  match h with Failed _ _ :: h' => 1 + trailing h' | _ => 0 end.
Fixpoint trailing_reported (h : list Entry) : bool :=
  match h with Failed _ r :: h' => r || trailing_reported h' | _ => false end.
Fixpoint last_report (h : list Entry) : option Z :=
  match h with
  | Failed now true :: _ => Some now
  | _ :: h' => last_report h'
  | [] => None
  end.
Fixpoint since_report (h : list Entry) : Z :=
  match h with
  | Failed _ true :: _ => 0
  | Failed _ false :: h' => 1 + since_report h'
  | Received :: h' => since_report h'
  | [] => 0
  end.

(** The specified answers: the delay doubles from 50 ms to 1 s along a streak;
    a report is made when none was, or the last is a minute old. *)
Definition spec_delay (streak : Z) : Z := milliseconds (Z.min (50 * 2 ^ (streak - 1)) 1000).
Definition spec_report (h : list Entry) (now : Z) : bool :=
  match last_report h with None => true | Some last => seconds 60 <=? now - last end.
Definition spec_step (h : list Entry) (e : Event) : list Entry * Answer :=
  match e with
  | Error now =>
      let r := spec_report h now in
      (Failed now r :: h,
       Decided (mkDecision (spec_delay (1 + trailing h)) r
                  (match last_report h with
                   | Some _ => if r then 1 + since_report h else 0
                   | None => 0
                   end)))
  | Success => (Received :: h, Ended (if trailing_reported h then trailing h else 0))
  end.
Fixpoint spec_run (h : list Entry) (es : list Event) : list Entry * list Answer :=
  match es with
  | [] => (h, [])
  | e :: es' => let '(h', a) := spec_step h e in let '(h'', r) := spec_run h' es' in (h'', a :: r)
  end.

(** The counters are these functions of the history. *)
Definition delay_of (streak : Z) : Z := if streak =? 0 then 0 else spec_delay streak.
Definition tracks (h : list Entry) (b : t) : Prop :=
  b = mk (trailing h) (since_report h) (trailing_reported h) (delay_of (trailing h)) (last_report h).

Lemma trailing_bounds h : 0 <= trailing h <= zlen h.
Proof. unfold zlen. induction h as [|[] h IH]; cbn; lia. Qed.
Lemma since_report_bounds h : 0 <= since_report h <= zlen h.
Proof. unfold zlen. induction h as [|[? []|] h IH]; cbn; lia. Qed.

Lemma spec_delay_double n : 1 <= n → spec_delay (1 + n) = Z.min (spec_delay n * 2) kMaxDelay.
Proof.
  intros Hn. unfold spec_delay, kMaxDelay, milliseconds.
  replace (1 + n - 1) with (Z.succ (n - 1)) by lia. rewrite Z.pow_succ_r by lia.
  pose proof (Z.pow_pos_nonneg 2 (n - 1)). lia.
Qed.

Lemma step_tracks h b e :
  zlen h + 1 < 2 ^ 64 → tracks h b →
  ∃ h' b' a, step b e = (b', a) ∧ spec_step h e = (h', a) ∧ tracks h' b' ∧ zlen h' = zlen h + 1.
Proof.
  intros Hlen ->. pose proof (trailing_bounds h). pose proof (since_report_bounds h).
  assert (Hz : ∀ x, zlen (x :: h) = zlen h + 1) by (intros; unfold zlen; cbn; lia).
  destruct e as [now|]; cbn [step spec_step]; [|by eexists _, _, _; split_and!].
  unfold onError. cbn [m_streak m_unreported m_lastReport m_delay m_streakReported].
  rewrite !u64_small by lia.
  assert (Hd : (if trailing h + 1 =? 1 then kFirstDelay
                else Z.min (delay_of (trailing h) * 2) kMaxDelay) = spec_delay (1 + trailing h)).
  { destruct (Z.eqb_spec (trailing h + 1) 1) as [E|E].
    - replace (trailing h) with 0 by lia. reflexivity.
    - rewrite spec_delay_double by lia. unfold delay_of.
      destruct (Z.eqb_spec (trailing h) 0); [lia|done]. }
  rewrite Hd.
  assert (Hdel : delay_of (1 + trailing h) = spec_delay (1 + trailing h)).
  { unfold delay_of. destruct (Z.eqb_spec (1 + trailing h) 0); [lia|done]. }
  unfold spec_report, kReportInterval. rewrite (Z.add_comm (trailing h)), (Z.add_comm (since_report h)).
  destruct (last_report h) as [last|] eqn:Hl; [destruct (seconds 60 <=? now - last) eqn:Hr|];
    eexists _, _, _; (split_and!; [reflexivity|reflexivity| |apply Hz]);
    unfold tracks; cbn; by rewrite ?Hdel, ?Hl.
Qed.

Lemma run_tracks es h b :
  zlen h + zlen es < 2 ^ 64 → tracks h b →
  (run b es).2 = (spec_run h es).2 ∧ tracks (spec_run h es).1 (run b es).1.
Proof.
  revert h b. induction es as [|e es IH]; intros h b Hlen Hb; [done|].
  assert (Hz : zlen (e :: es) = zlen es + 1) by (unfold zlen; cbn; lia).
  assert (0 <= zlen es) by (unfold zlen; lia).
  destruct (step_tracks h b e) as (h' & b' & a & Hs & Hsp & Hb' & Hh'); [lia|done|].
  destruct (IH h' b') as [Heq Ht]; [lia|done|]. cbn. rewrite Hs, Hsp.
  destruct (run b' es), (spec_run h' es). cbn in *. by subst.
Qed.

Lemma tracks_init : tracks [] init.
Proof. reflexivity. Qed.

(** C40. For fewer than 2^64 events, every answer of ReceiveBackoff is the one
    the history of errors and successes calls for: delays of 50 ms doubling to
    1 s along a streak, the reports, the counts they summarise, and the length
    of the streak a success ends when that streak was announced. *)
Theorem backoff_refines es :
  zlen es < 2 ^ 64 → (run init es).2 = (spec_run [] es).2.
Proof. intros H. by apply run_tracks; [|apply tracks_init]. Qed.

(** The times of the reports, and the errors a report or a recovery accounts for. *)
Fixpoint report_times (es : list Event) (l : list Answer) : list Z :=
  match es, l with
  | Error now :: es', Decided d :: l' =>
      if report d then now :: report_times es' l' else report_times es' l'
  | _ :: es', _ :: l' => report_times es' l'
  | _, _ => []
  end.
Definition errors_of (e : Event) : Z := match e with Error _ => 1 | Success => 0 end.
Definition summarised (a : Answer) : Z := match a with Decided d => suppressed d | Ended _ => 0 end.
Definition recovery_line (a : Answer) : bool := match a with Ended n => negb (n =? 0) | _ => false end.
Definition error_line (a : Answer) : bool := match a with Decided d => report d | _ => false end.

Definition apart (a b : Z) : Prop := seconds 60 <= b - a.

Lemma spec_run_apart es h :
  Sorted apart (option_list (last_report h) ++ report_times es (spec_run h es).2).
Proof.
  revert h. induction es as [|[now|] es IH]; intros h.
  - cbn. rewrite app_nil_r. destruct (last_report h); repeat constructor.
  - cbn [spec_run spec_step]. set (r := spec_report h now).
    specialize (IH (Failed now r :: h)). destruct (spec_run _ es) as [h' l]. cbn [snd] in *.
    cbn [report_times report]. subst r. unfold spec_report in *.
    destruct (last_report h) as [last|] eqn:Hl; cbn [last_report option_list app] in *.
    + destruct (Z.leb_spec (seconds 60) (now - last)); cbn [app option_list] in *; [|by rewrite Hl in IH].
      constructor; [done|]. by constructor.
    + done.
  - specialize (IH (Received :: h)). cbn [spec_run spec_step].
    destruct (spec_run _ es) as [h' l]. done.
Qed.

(** The very first report speaks for itself; every later one for the errors it counts. *)
Definition announced (o o' : option Z) : Z :=
  match o, o' with None, Some _ => 1 | _, _ => 0 end.

Lemma spec_run_reported es h : is_Some (last_report h) → is_Some (last_report (spec_run h es).1).
Proof.
  revert h. induction es as [|e es IH]; intros h Hh; [done|]. cbn [spec_run].
  destruct (spec_step h e) as [h' a] eqn:Hs. specialize (IH h').
  destruct (spec_run h' es) as [h'' l]. apply IH.
  destruct e as [now|]; simplify_eq/=; [|done]. by destruct (spec_report h now).
Qed.

Lemma spec_run_counts es h :
  (last_report h = None → since_report h = 0) →
  zsum summarised (spec_run h es).2 + since_report (spec_run h es).1 +
    announced (last_report h) (last_report (spec_run h es).1)
  = since_report h + zsum errors_of es.
Proof.
  revert h. induction es as [|[now|] es IH]; intros h Hh.
  - cbn. destruct (last_report h); cbn; lia.
  - cbn [spec_run spec_step zsum errors_of]. set (r := spec_report h now).
    specialize (IH (Failed now r :: h)). pose proof (spec_run_reported es (Failed now r :: h)) as Hrep.
    destruct (spec_run _ es) as [h' l]. cbn [snd fst] in *.
    subst r. unfold spec_report in *. cbn [zsum summarised suppressed].
    destruct (last_report h) as [last|] eqn:Hl.
    + destruct (seconds 60 <=? now - last); cbn [last_report since_report] in *;
        rewrite ?Hl in IH; cbn [announced] in *; specialize (IH ltac:(done)); lia.
    + cbn [last_report since_report announced] in *. specialize (IH ltac:(done)).
      rewrite Hh in * by done. destruct Hrep as [x ->]; [done|]. cbn [announced]. lia.
  - cbn [spec_run spec_step zsum errors_of]. specialize (IH (Received :: h) Hh).
    destruct (spec_run _ es) as [h' l]. cbn in *. lia.
Qed.

(** Over any history: the lines that report an error are at least a minute
    apart, and every error is in exactly one of: the first report, the count of
    a later one, or the count still waiting to be reported. *)
Theorem backoff_log_rate es :
  zlen es < 2 ^ 64 →
  let '(b, answers) := run init es in
  Sorted apart (report_times es answers) ∧
  zsum errors_of es = zsum summarised answers + m_unreported b +
                      match m_lastReport b with Some _ => 1 | None => 0 end.
Proof.
  intros Hlen. destruct (run_tracks es [] init) as [Ha Ht]; [done|apply tracks_init|].
  pose proof (spec_run_apart es []) as Hap. pose proof (spec_run_counts es [] ltac:(done)) as Hc.
  destruct (run init es) as [b l], (spec_run [] es) as [h l']. cbn in *. subst l'.
  unfold tracks in Ht. subst b. cbn. split; [done|].
  destruct (last_report h); cbn in *; lia.
Qed.

Definition count (f : Answer → bool) (l : list Answer) : Z := zsum (λ a, if f a then 1 else 0) l.
Definition owed (h : list Entry) : Z := if trailing_reported h then 1 else 0.

Lemma trailing_reported_pos h : trailing_reported h = true → 1 <= trailing h.
Proof. destruct h as [|[] h]; cbn; [done| |done]. pose proof (trailing_bounds h). lia. Qed.

Lemma spec_run_recoveries es h :
  count recovery_line (spec_run h es).2 <= owed h + count error_line (spec_run h es).2.
Proof.
  unfold count. revert h. induction es as [|[now|] es IH]; intros h.
  - cbn. unfold owed. destruct (trailing_reported h); lia.
  - cbn [spec_run spec_step]. set (r := spec_report h now). specialize (IH (Failed now r :: h)).
    destruct (spec_run _ es) as [h' l]. unfold owed in *. cbn in *.
    destruct r, (trailing_reported h); cbn in *; lia.
  - cbn [spec_run spec_step]. specialize (IH (Received :: h)).
    destruct (spec_run _ es) as [h' l]. unfold owed in *. cbn in *.
    destruct (trailing_reported h); cbn in *; [|rewrite Z.eqb_refl; cbn; lia].
    destruct (trailing h =? 0); cbn; lia.
Qed.

(** A recovery is announced only for an outage that was: in every history
    the recovery lines are no more than the error lines, so with the error lines
    a minute apart both are rate limited; and a streak that was announced gets
    its line, with its length, when it ends. *)
Theorem backoff_recovery es :
  zlen es + 1 < 2 ^ 64 →
  let '(b, answers) := run init es in
  count recovery_line answers <= count error_line answers ∧
  (m_streakReported b = true → (onSuccess b).2 = trailing (spec_run [] es).1 ∧ 1 <= (onSuccess b).2) ∧
  (m_streakReported b = false → (onSuccess b).2 = 0).
Proof.
  intros Hlen. destruct (run_tracks es [] init) as [Ha Ht];
    [unfold zlen in *; cbn; lia|apply tracks_init|].
  pose proof (spec_run_recoveries es []) as Hr.
  destruct (run init es) as [b l], (spec_run [] es) as [h l']. cbn in *. subst l'.
  unfold tracks in Ht. subst b. unfold onSuccess. cbn. split_and!; [exact Hr| |].
  - intros Hrep. rewrite Hrep. split; [done|]. by apply trailing_reported_pos.
  - by intros ->.
Qed.

(** Two errors, a success, a third error within the minute and one after it. *)
Definition history : list Event :=
  [Error 0; Error (milliseconds 50); Success; Error (seconds 30); Error (seconds 61); Success].

Example history_run :
  (run init history).2 =
  [Decided (mkDecision (milliseconds 50) true 0); Decided (mkDecision (milliseconds 100) false 0);
   Ended 2; Decided (mkDecision (milliseconds 50) false 0);
   Decided (mkDecision (milliseconds 100) true 3); Ended 2].
Proof. vm_compute. reflexivity. Qed.

Lemma backoff_refines_witness :
  zlen history < 2 ^ 64 ∧ (run init history).2 = (spec_run [] history).2.
Proof. split; [done|]. apply (backoff_refines history). done. Defined.

Lemma backoff_log_rate_witness :
  let '(b, answers) := run init history in
  Sorted apart (report_times history answers) ∧
  zsum errors_of history = zsum summarised answers + m_unreported b +
                           match m_lastReport b with Some _ => 1 | None => 0 end.
Proof. apply backoff_log_rate. vm_compute. reflexivity. Defined.

Lemma backoff_recovery_witness :
  let '(b, answers) := run init history in
  count recovery_line answers <= count error_line answers ∧
  (m_streakReported b = true →
   (onSuccess b).2 = trailing (spec_run [] history).1 ∧ 1 <= (onSuccess b).2) ∧
  (m_streakReported b = false → (onSuccess b).2 = 0).
Proof. apply backoff_recovery. vm_compute. reflexivity. Defined.

End ReceiveBackoff.

Module SinkRecovery.

Definition kRetryInterval : Z := seconds 30.
Definition kReportInterval : Z := seconds 60.

Record Decision := mkDecision {
  report : bool; firstFailure : bool; suppressed : Z; closedFor : Z
}.
Record Outage := mkOutage { out_closedFor : Z; out_failures : Z }.

(** The time points of a default-constructed object are not read. *)
Record t := mk {
  m_failures : Z;
  m_unreported : Z;
  m_closedSince : Z;
  m_lastReport : Z
}.
Definition init : t := mk 0 0 0 0.

Definition closed (r : t) : bool := negb (m_failures r =? 0).

Definition onFailure (now : Z) (r : t) : t * Decision :=
  if m_failures r =? 0 then (mk 1 (m_unreported r) now now, mkDecision true true 0 0)
  else
    let failures := u64 (m_failures r + 1) in
    let unreported := u64 (m_unreported r + 1) in
    if kReportInterval <=? now - m_lastReport r then
      (mk failures 0 (m_closedSince r) now,
       mkDecision true false unreported (to_seconds (now - m_closedSince r)))
    else (mk failures unreported (m_closedSince r) (m_lastReport r), mkDecision false false 0 0).

Definition onRecovered (now : Z) (r : t) : t * Outage :=
  if m_failures r =? 0 then (r, mkOutage 0 0)
  else (mk 0 0 (m_closedSince r) (m_lastReport r),
        mkOutage (to_seconds (now - m_closedSince r)) (m_failures r)).

Inductive Event := Failure (now : Z) | Recovered (now : Z).
Inductive Answer := Decided (d : Decision) | Ended (o : Outage).

Definition step (r : t) (e : Event) : t * Answer :=
  match e with
  | Failure now => let '(r', d) := onFailure now r in (r', Decided d)
  | Recovered now => let '(r', o) := onRecovered now r in (r', Ended o)
  end.
Fixpoint run (r : t) (es : list Event) : t * list Answer :=
  match es with
  | [] => (r, [])
  | e :: es' => let '(r', a) := step r e in let '(r'', l) := run r' es' in (r'', a :: l)
  end.

(** ** The outage a history ends in *)

(** The failures since the last recovery, the latest first, and whether each
    was reported. *)
Definition Current : Type := list (Z * bool).

Definition closed_since (h : Current) : Z := match last h with Some (now, _) => now | None => 0 end.
Fixpoint last_report (h : Current) : Z :=
  match h with (now, r) :: h' => if r : bool then now else last_report h' | [] => 0 end.
Fixpoint since_report (h : Current) : Z :=
  match h with (_, r) :: h' => if r : bool then 0 else 1 + since_report h' | [] => 0 end.

Definition spec_step (h : Current) (e : Event) : Current * Answer :=
  match e, h with
  | Failure now, [] => ([(now, true)], Decided (mkDecision true true 0 0))
  | Failure now, _ =>
      let r := seconds 60 <=? now - last_report h in
      ((now, r) :: h,
       Decided (mkDecision r false (if r then 1 + since_report h else 0)
                  (if r then to_seconds (now - closed_since h) else 0)))
  | Recovered _, [] => ([], Ended (mkOutage 0 0))
  | Recovered now, _ => ([], Ended (mkOutage (to_seconds (now - closed_since h)) (zlen h)))
  end.
Fixpoint spec_run (h : Current) (es : list Event) : Current * list Answer :=
  match es with
  | [] => (h, [])
  | e :: es' => let '(h', a) := spec_step h e in let '(h'', l) := spec_run h' es' in (h'', a :: l)
  end.

Definition tracks (h : Current) (r : t) : Prop :=
  m_failures r = zlen h ∧ m_unreported r = since_report h ∧
  (h ≠ [] → m_closedSince r = closed_since h ∧ m_lastReport r = last_report h).

Lemma outage_since_report_bounds h : 0 <= since_report h <= zlen h.
Proof. unfold zlen. induction h as [|[? []] h IH]; cbn; lia. Qed.

Lemma outage_step_tracks h r e :
  zlen h + 1 < 2 ^ 64 → tracks h r →
  ∃ h' r' a, step r e = (r', a) ∧ spec_step h e = (h', a) ∧ tracks h' r' ∧ zlen h' <= zlen h + 1.
Proof.
  intros Hlen (Hf & Hu & Hs). pose proof (outage_since_report_bounds h).
  destruct r as [f u c l]. cbn in *. subst f u. unfold step, onFailure, onRecovered, spec_step.
  cbn [m_failures m_unreported m_closedSince m_lastReport].
  destruct h as [|x h].
  { destruct e; eexists _, _, _; (split_and!; [done|done|by split_and!|done]). }
  destruct Hs as [-> ->]; [done|].
  assert (Hz : ∀ y k, zlen (y :: k : Current) = zlen k + 1) by (intros; unfold zlen; cbn; lia).
  assert (0 <= zlen h) by (unfold zlen; lia). pose proof (Hz x h).
  rewrite (proj2 (Z.eqb_neq (zlen (x :: h)) 0)) by lia.
  destruct e as [now|now].
  - rewrite !u64_small by lia. unfold kReportInterval.
    assert (Hc : ∀ y, closed_since (y :: x :: h) = closed_since (x :: h)) by done.
    rewrite (Z.add_comm (since_report _)).
    destruct (seconds 60 <=? now - last_report (x :: h)); eexists _, _, _;
      (split_and!; [done|done| |rewrite Hz; lia]); unfold tracks; rewrite (Hz _ (x :: h)), Hc;
      (split_and!; [done|cbn [m_unreported since_report]; lia|done]).
  - eexists _, _, _. split_and!; [done|done|by split_and!|]. unfold zlen in *. cbn in *. lia.
Qed.

Lemma outage_run_tracks es h r :
  zlen h + zlen es < 2 ^ 64 → tracks h r →
  (run r es).2 = (spec_run h es).2 ∧ tracks (spec_run h es).1 (run r es).1.
Proof.
  revert h r. induction es as [|e es IH]; intros h r Hlen Hr; [done|].
  assert (Hz : zlen (e :: es) = zlen es + 1) by (unfold zlen; cbn; lia).
  assert (0 <= zlen es) by (unfold zlen; lia).
  destruct (outage_step_tracks h r e) as (h' & r' & a & Hs & Hsp & Hr' & Hh'); [lia|done|].
  destruct (IH h' r') as [Heq Ht]; [lia|done|]. cbn. rewrite Hs, Hsp.
  destruct (run r' es), (spec_run h' es). cbn in *. by subst.
Qed.

Lemma outage_tracks_init : tracks [] init.
Proof. by split_and!. Qed.

(** For fewer than 2^64 events, every answer of SinkRecovery is the one the
    current outage calls for: the first failure is always reported, a later one
    once a minute with the attempts since the last report and the time the sink
    has been closed, and a recovery reports the whole outage. *)
Theorem sink_refines es :
  zlen es < 2 ^ 64 → (run init es).2 = (spec_run [] es).2.
Proof. intros H. by apply outage_run_tracks; [|apply outage_tracks_init]. Qed.

Definition summarised (a : Answer) : Z := match a with Decided d => suppressed d | Ended _ => 0 end.

Lemma spec_run_failures ts h :
  h ≠ [] →
  zlen (spec_run h (Failure <$> ts)).1 = zlen h + zlen ts ∧
  closed_since (spec_run h (Failure <$> ts)).1 = closed_since h ∧
  zsum summarised (spec_run h (Failure <$> ts)).2 + since_report (spec_run h (Failure <$> ts)).1
    = since_report h + zlen ts.
Proof.
  unfold zlen. revert h. induction ts as [|now ts IH]; intros h Hh; [cbn; split_and!; [lia|done|lia]|].
  destruct h as [|x h]; [done|]. cbn [fmap list_fmap spec_run spec_step].
  set (r := seconds 60 <=? _). destruct (IH ((now, r) :: x :: h)) as (Hl & Hc & Hs); [done|].
  destruct (spec_run _ (Failure <$> ts)) as [h' l]. cbn [fst snd] in *.
  split_and!; [rewrite Hl; cbn; lia|by rewrite Hc|]. cbn [zsum summarised suppressed].
  cbn [since_report length] in *. destruct r; lia.
Qed.

(** One outage, from the failure that closes the sink to the recovery: the
    recovery counts every failure and measures from the first, the sink is open
    again afterwards, and the failed attempts are all accounted for, in a report
    or not yet. *)
Theorem sink_outage now0 ts nowR :
  zlen ts + 2 < 2 ^ 64 →
  let '(r, answers) := run init (Failure now0 :: (Failure <$> ts)) in
  zsum summarised answers + m_unreported r = zlen ts ∧ closed r = true ∧
  (onRecovered nowR r).2 = mkOutage (to_seconds (nowR - now0)) (zlen ts + 1) ∧
  closed (onRecovered nowR r).1 = false.
Proof.
  intros Hlen. set (es := Failure now0 :: (Failure <$> ts)).
  assert (Hes : zlen es = zlen ts + 1) by (unfold es, zlen; cbn; rewrite length_fmap; lia).
  destruct (outage_run_tracks es [] init) as [Ha (Hf & Hu & Hcl)]; [change (zlen (@nil (Z * bool))) with 0; lia|apply outage_tracks_init|].
  destruct (spec_run_failures ts [(now0, true)]) as (Hl & Hc & Hs); [done|].
  assert (Hsp : spec_run [] es =
                ((spec_run [(now0, true)] (Failure <$> ts)).1,
                 Decided (mkDecision true true 0 0) :: (spec_run [(now0, true)] (Failure <$> ts)).2)).
  { change (spec_run [] es) with
      (let '(h, l) := spec_run [(now0, true)] (Failure <$> ts) in
       (h, Decided (mkDecision true true 0 0) :: l)).
    by destruct (spec_run [(now0, true)] (Failure <$> ts)). }
  rewrite Hsp in *. destruct (run init es) as [r l]. cbn [fst snd] in *. subst l.
  destruct (spec_run _ (Failure <$> ts)) as [h l]. cbn [fst snd] in *.
  assert (0 <= zlen ts) by (unfold zlen; lia). change (zlen [(now0, true)]) with 1 in Hl.
  destruct Hcl as [Hcs _]; [intros ->; change (zlen (@nil (Z * bool))) with 0 in Hl; lia|].
  unfold closed, onRecovered. rewrite (proj2 (Z.eqb_neq (m_failures r) 0)) by lia.
  cbn in *. split_and!; [lia|done| |done]. rewrite Hcs, Hf, Hc. f_equal. lia.
Qed.

Definition history : list Event :=
  [Failure 0; Failure (seconds 30); Failure (seconds 60); Recovered (seconds 90)].
Example outage_history_run :
  (run init history).2 =
  [Decided (mkDecision true true 0 0); Decided (mkDecision false false 0 0);
   Decided (mkDecision true false 2 60); Ended (mkOutage 90 3)].
Proof. vm_compute. reflexivity. Qed.

Lemma sink_refines_witness :
  zlen history < 2 ^ 64 ∧ (run init history).2 = (spec_run [] history).2.
Proof. split; [done|]. apply (sink_refines history). done. Defined.

Lemma sink_outage_witness :
  let '(r, answers) := run init (Failure 0 :: (Failure <$> [seconds 30; seconds 60])) in
  zsum summarised answers + m_unreported r = zlen [seconds 30; seconds 60] ∧ closed r = true ∧
  (onRecovered (seconds 90) r).2 =
    mkOutage (to_seconds (seconds 90 - 0)) (zlen [seconds 30; seconds 60] + 1) ∧
  closed (onRecovered (seconds 90) r).1 = false.
Proof. apply sink_outage. vm_compute. reflexivity. Defined.

End SinkRecovery.
