(* ===== verification/FileSystem.v ===== *)
(** * The file system the sinks write to

    A map from paths to contents, and the calls of [std::filesystem] and
    [std::ofstream] the server makes, each of which may fail: the faults to come
    are part of the state, one per call, so that a theorem over all states is a
    theorem over all patterns of failure. [rotatedPath] builds the name of a
    rotated generation (src/src/server/output/log_file.cpp). *)

From S2P Require Import Prelude.

(** A fault is the number of bytes that still reached the file (for a write). *)
Record Os := mkOs {
  os_files : gmap bytes bytes;
  os_faults : list (option nat);
  os_now : Z;                         (* steady_clock *)
  os_log : list (Z * LogLine)         (* system log lines and when, the latest first *)
}.

Definition with_files (files : gmap bytes bytes) (os : Os) : Os :=
  mkOs files (os_faults os) (os_now os) (os_log os).
Definition log_line (line : LogLine) (os : Os) : Os :=
  mkOs (os_files os) (os_faults os) (os_now os) ((os_now os, line) :: os_log os).

(** The outcome of the next call. *)
Definition next_fault (os : Os) : option nat * Os :=
  match os_faults os with
  | [] => (None, os)
  | f :: fs => (f, mkOs (os_files os) fs (os_now os) (os_log os))
  end.

(** [exists(p, ec)]: [None] is an error. *)
Definition fs_exists (p : bytes) (os : Os) : option bool * Os :=
  let '(f, os') := next_fault os in
  match f with
  | Some _ => (None, os')
  | None => (Some (bool_decide (is_Some (os_files os' !! p))), os')
  end.

(** [remove(p, ec)]; the answer is [!ec]. *)
Definition fs_remove (p : bytes) (os : Os) : bool * Os :=
  let '(f, os') := next_fault os in
  match f with
  | Some _ => (false, os')
  | None => (true, with_files (delete p (os_files os')) os')
  end.

(** [rename(from, to, ec)]: replaces [to]. *)
Definition fs_rename (from to : bytes) (os : Os) : bool * Os :=
  let '(f, os') := next_fault os in
  match f, os_files os' !! from with
  | None, Some content => (true, with_files (<[to := content]> (delete from (os_files os'))) os')
  | _, _ => (false, os')
  end.

Definition fs_file_size (p : bytes) (os : Os) : option Z * Os :=
  let '(f, os') := next_fault os in
  match f, os_files os' !! p with
  | None, Some content => (Some (zlen content), os')
  | _, _ => (None, os')
  end.

(** Opening in append mode creates the file. *)
Definition fs_open (p : bytes) (os : Os) : bool * Os :=
  let '(f, os') := next_fault os in
  match f with
  | Some _ => (false, os')
  | None => (true, match os_files os' !! p with
                   | Some _ => os'
                   | None => with_files (<[p := []]> (os_files os')) os'
                   end)
  end.

(** Write and flush at the end of an open file; a failure may leave a part. *)
Definition fs_append (p data : bytes) (os : Os) : bool * Os :=
  let '(f, os') := next_fault os in
  let put (d : bytes) :=
    match os_files os' !! p with
    | Some content => with_files (<[p := content ++ d]> (os_files os')) os'
    | None => os'
    end in
  match f with
  | Some k => (false, put (take k data))
  | None => (true, put data)
  end.

(** ** Names of rotated files *)

(** The directory part of a path, its separator included, and the file name. *)
Fixpoint split_path (p : bytes) : bytes * bytes :=
  match p with
  | [] => ([], [])
  | c :: p' =>
      let '(d, n) := split_path p' in
      if decide (c = "/"%byte) then (c :: d, n)
      else match d with [] => ([], c :: n) | _ => (c :: d, n) end
  end.

(** [stem()] and [extension()]: the extension starts at the last dot, unless
    the name is [.], [..] or has its only dot first. *)
Fixpoint last_dot (n : bytes) : option nat :=
  match n with
  | [] => None
  | c :: n' => match last_dot n' with
               | Some i => Some (S i)
               | None => if decide (c = "."%byte) then Some O else None
               end
  end.
Definition split_name (n : bytes) : bytes * bytes :=
  if decide (n = lit "." ∨ n = lit "..") then (n, [])
  else match last_dot n with
       | None | Some O => (n, [])
       | Some i => (take i n, drop i n)
       end.

(** [base.parent_path() / std::format("{}.{}{}", stem, n, extension)] *)
Definition rotatedPath (base : bytes) (n : nat) : bytes :=
  let '(dir, name) := split_path base in
  let '(stem, ext) := split_name name in
  dir ++ stem ++ lit "." ++ to_string (Z.of_nat n) ++ ext.

Example rotated_example :
  rotatedPath (lit "/var/log/syslog.log") 2 = lit "/var/log/syslog.2.log" ∧
  rotatedPath (lit "/var/log.d/all") 10 = lit "/var/log.d/all.10" ∧
  rotatedPath (lit ".hidden") 1 = lit ".hidden.1".
Proof. vm_compute. auto. Qed.

Lemma split_path_app p : (split_path p).1 ++ (split_path p).2 = p.
Proof.
  induction p as [|c p IH]; [done|]. cbn. destruct (split_path p) as [d n]. cbn in IH.
  destruct (decide (c = "/"%byte)); cbn; [congruence|]. destruct d; cbn in *; congruence.
Qed.

Lemma split_name_app n : (split_name n).1 ++ (split_name n).2 = n.
Proof.
  unfold split_name. destruct (decide _); [apply app_nil_r|].
  destruct (last_dot n) as [[|i]|]; cbn [fst snd]; [apply app_nil_r|apply take_drop|apply app_nil_r].
Qed.

(** The generations of one file have different names, and none is its own. *)
Lemma rotatedPath_inj base n m : rotatedPath base n = rotatedPath base m → n = m.
Proof.
  unfold rotatedPath. destruct (split_path base) as [d nm], (split_name nm) as [s e].
  intros H. do 3 apply app_inv_head in H. apply app_inv_tail in H.
  destruct (to_string_nat_spec (Z.of_nat n)) as (_ & _ & Hn & _); [lia|].
  destruct (to_string_nat_spec (Z.of_nat m)) as (_ & _ & Hm & _); [lia|].
  rewrite H in Hn. lia.
Qed.

Lemma rotatedPath_base base n : rotatedPath base n ≠ base.
Proof.
  intros H. apply (f_equal length) in H. revert H. unfold rotatedPath.
  rewrite <- (split_path_app base) at 2. destruct (split_path base) as [d nm]. cbn [fst snd].
  rewrite <- (split_name_app nm) at 2. destruct (split_name nm) as [s e]. cbn [fst snd].
  rewrite !length_app. change (length (lit ".")) with 1%nat. lia.
Qed.
