(* ===== verification/LogFile.v ===== *)
(** * Log files (src/src/server/output/log_file.cpp, log_file.hpp)

    [LogFile]: opening, writing, rotating, and going out of service and back.
    Every member function is a definition over the state of one sink and of the
    file system. The handlers of one sink run one at a time (on its strand), so
    they are sequential here. *)

From S2P Require Import Prelude Names Parser Platform Config Escape Backoff FileSystem.

(** What the file is linked with: [boost::json::serialize] of an object whose
    values are strings or null, and the text of a system error. *)
Class LogEnv := {
  serialize : list (bytes * option bytes) → bytes;
  ec_message : bytes;
  serialize_law : ∀ obj, x0a ∉ serialize obj   (* JSON escapes control characters *)
}.

(** [std::ofstream]: whether it is open, and whether an operation has failed. *)
Record Stream := mkStream { st_open : bool; st_good : bool }.
Definition closed_stream : Stream := mkStream false true.

Record Sink := mkSink {
  m_cfg : OutputConfig;
  m_retryInterval : Z;               (* milliseconds *)
  m_retryTimer : bool;               (* armed *)
  m_recovery : SinkRecovery.t;
  m_closed : bool;
  m_shuttingDown : bool;
  m_startingUp : bool;
  m_textStream : Stream;
  m_jsonlStream : Stream;
  m_textSize : Z;
  m_jsonlSize : Z
}.

(** The constructor. *)
Definition new_LogFile (cfg : OutputConfig) (retryInterval : Z) : Sink :=
  mkSink cfg retryInterval false SinkRecovery.init false false false
         closed_stream closed_stream 0 0.

Definition set_retryTimer (b : bool) (s : Sink) : Sink :=
  mkSink (m_cfg s) (m_retryInterval s) b (m_recovery s) (m_closed s) (m_shuttingDown s)
         (m_startingUp s) (m_textStream s) (m_jsonlStream s) (m_textSize s) (m_jsonlSize s).
Definition set_recovery (r : SinkRecovery.t) (s : Sink) : Sink :=
  mkSink (m_cfg s) (m_retryInterval s) (m_retryTimer s) r (m_closed s) (m_shuttingDown s)
         (m_startingUp s) (m_textStream s) (m_jsonlStream s) (m_textSize s) (m_jsonlSize s).
Definition set_closed (b : bool) (s : Sink) : Sink :=
  mkSink (m_cfg s) (m_retryInterval s) (m_retryTimer s) (m_recovery s) b (m_shuttingDown s)
         (m_startingUp s) (m_textStream s) (m_jsonlStream s) (m_textSize s) (m_jsonlSize s).
Definition set_shuttingDown (b : bool) (s : Sink) : Sink :=
  mkSink (m_cfg s) (m_retryInterval s) (m_retryTimer s) (m_recovery s) (m_closed s) b
         (m_startingUp s) (m_textStream s) (m_jsonlStream s) (m_textSize s) (m_jsonlSize s).
Definition set_startingUp (b : bool) (s : Sink) : Sink :=
  mkSink (m_cfg s) (m_retryInterval s) (m_retryTimer s) (m_recovery s) (m_closed s)
         (m_shuttingDown s) b (m_textStream s) (m_jsonlStream s) (m_textSize s) (m_jsonlSize s).

(** The two files are handled alike; [Text] and [Jsonl] select the members. *)
Inductive Which := Text | Jsonl.
#[export] Instance Which_eq_dec : EqDecision Which.
Proof. solve_decision. Defined.
Definition file_of (w : Which) (s : Sink) : bytes :=
  match w with Text => oc_textFile (m_cfg s) | Jsonl => oc_jsonlFile (m_cfg s) end.
Definition stream_of (w : Which) (s : Sink) : Stream :=
  match w with Text => m_textStream s | Jsonl => m_jsonlStream s end.
Definition size_of (w : Which) (s : Sink) : Z :=
  match w with Text => m_textSize s | Jsonl => m_jsonlSize s end.
Definition set_file (w : Which) (st : Stream) (size : Z) (s : Sink) : Sink :=
  match w with
  | Text => mkSink (m_cfg s) (m_retryInterval s) (m_retryTimer s) (m_recovery s) (m_closed s)
              (m_shuttingDown s) (m_startingUp s) st (m_jsonlStream s) size (m_jsonlSize s)
  | Jsonl => mkSink (m_cfg s) (m_retryInterval s) (m_retryTimer s) (m_recovery s) (m_closed s)
              (m_shuttingDown s) (m_startingUp s) (m_textStream s) st (m_textSize s) size
  end.

(** ** The monad of the member functions *)

Record World := mkWorld { w_os : Os; w_sink : Sink }.
Definition IO (A : Type) : Type := World → M (A * World).

#[export] Instance IO_ret : MRet IO := fun A a w => Ret (a, w).
#[export] Instance IO_bind : MBind IO := fun A B f m w =>
  match m w with Ret (a, w') => f a w' | Throw e => Throw e | UB => UB end.

(** A system call, a read of the members, an assignment, a pure call. *)
Definition sys {A} (f : Os → A * Os) : IO A := λ w,
  let '(a, os) := f (w_os w) in Ret (a, mkWorld os (w_sink w)).
Definition this {A} (f : Sink → A) : IO A := λ w, Ret (f (w_sink w), w).
Definition assign (f : Sink → Sink) : IO unit := λ w, Ret (tt, mkWorld (w_os w) (f (w_sink w))).
Definition pure {A} (m : M A) : IO A := λ w,
  match m with Ret a => Ret (a, w) | Throw e => Throw e | UB => UB end.
Definition log (line : LogLine) : IO unit := sys (λ os, (tt, log_line line os)).
Abbreviation osLogError message := (log (LError, message)).
Abbreviation osLogInfo message := (log (LInfo, message)).
Definition now : IO Z := sys (λ os, (os_now os, os)).

(** ** Helpers *)

Definition formatInterval (interval : Z) : bytes :=
  if Z.rem interval 1000 =? 0 then to_string (Z.quot interval 1000) ++ lit " s"
  else to_string interval ++ lit " ms".

Section LogFile.
Context `{LogEnv}.

Definition optStr (o : option bytes) : M (option bytes) :=
  match o with Some s => t ← sanitizeUtf8 s; mret (Some t) | None => mret None end.

Definition toJsonlRecord (msg : SyslogMessage) (rcv : bytes) : M bytes :=
  fac ← optStr (facilityName msg);
  sev ← optStr (severityName msg);
  host ← optStr (hostname msg);
  app ← optStr (appName msg);
  pid ← optStr (procId msg);
  mid ← optStr (msgId msg);
  time ← optStr (timestamp msg);
  text ← sanitizeUtf8 (message msg);
  mret (serialize
    [ (lit "rcv", Some rcv);
      (lit "src", Some (srcIp msg));
      (lit "proto", Some (match protocol msg with
                          | RFC3164 => lit "RFC3164"
                          | RFC5424 => lit "RFC5424"
                          | Unknown => lit "UNKNOWN"
                          end));
      (lit "facility", fac); (lit "severity", sev); (lit "hostname", host); (lit "app", app);
      (lit "pid", pid); (lit "msgid", mid); (lit "msg_time", time); (lit "message", Some text) ]).

(** ** Closing and failing *)

Definition close_one (w : Which) (s : Sink) : Sink :=
  set_file w (if st_open (stream_of w s) then mkStream false (st_good (stream_of w s))
              else stream_of w s) 0 s.
Definition closeFiles : IO unit := assign (close_one Text);; assign (close_one Jsonl).

Definition scheduleRetry : IO unit :=
  down ← this m_shuttingDown;
  if down : bool then mret tt else assign (set_retryTimer true).

Definition sinkName (s : Sink) : bytes := lit "sink '" ++ oc_name (m_cfg s) ++ lit "'".

Definition failSink (reason : bytes) : IO unit :=
  starting ← this m_startingUp;
  name ← this sinkName;
  if starting : bool then
    osLogError (lit "minilog: " ++ reason ++ lit "; " ++ name ++ lit " cannot be opened");;
    assign (set_closed true);;
    closeFiles
  else
    t ← now;
    recovery ← this m_recovery;
    interval ← this m_retryInterval;
    let '(recovery', d) := SinkRecovery.onFailure t recovery in
    assign (set_recovery recovery');;
    (if SinkRecovery.report d then
       if SinkRecovery.firstFailure d then
         osLogError (lit "minilog: " ++ reason ++ lit "; closing " ++ name ++ lit ", retrying every " ++
              formatInterval interval)
       else
         osLogError (lit "minilog: " ++ name ++ lit " still closed after " ++
              to_string (SinkRecovery.closedFor d) ++ lit " s: " ++ reason ++ lit " (" ++
              to_string (SinkRecovery.suppressed d) ++
              lit " failed attempt(s) to reopen it since the last report)")
     else mret tt);;
    assign (set_closed true);;
    closeFiles;;
    scheduleRetry.

Definition quote (file : bytes) : bytes := lit "'" ++ file ++ lit "'".

(** ** Opening *)

(** One half of [openFiles]; [false] is its early return. *)
Definition open_one (w : Which) : IO bool :=
  file ← this (file_of w);
  if sv_empty file then mret true else
  st ← this (stream_of w);
  size0 ← this (size_of w);
  st' ← (if st_open st then mret (mkStream true false)
         else opened ← sys (fs_open file); mret (mkStream opened opened));
  assign (set_file w st' size0);;
  if negb (st_open st') then failSink (lit "failed to open " ++ quote file);; mret false else
  size ← sys (fs_file_size file);
  match size with
  | None => failSink (lit "cannot determine size of " ++ quote file ++ lit ": " ++ ec_message);;
            mret false
  | Some n => assign (set_file w st' (u64 n));; mret true
  end.

Definition openFiles : IO unit :=
  ok ← open_one Text;
  if ok : bool then open_one Jsonl;; mret tt else mret tt.

Definition openAtStartup : IO bool :=
  assign (set_startingUp true);;
  openFiles;;
  assign (set_startingUp false);;
  closed ← this m_closed;
  mret (negb closed).

(** ** Rotation *)

Definition probe (p : bytes) : IO (option bool) :=
  found ← sys (fs_exists p);
  match found with
  | None => failSink (lit "rotation probe failed for " ++ quote p ++ lit ": " ++ ec_message);;
            mret None
  | Some b => mret (Some b)
  end.

(** [for (n = 1; n <= probeLimit; ++n)], with [count] rounds left. *)
Fixpoint probe_loop (base : bytes) (n count highest : nat) : IO (option nat) :=
  match count with
  | O => mret (Some highest)
  | S count' =>
      found ← probe (rotatedPath base n);
      match found with
      | None => mret None
      | Some b => probe_loop base (S n) count' (if b : bool then n else highest)
      end
  end.

(** [for (n = highest; n >= maxFiles; --n)], with [count] rounds left. *)
Fixpoint delete_loop (base : bytes) (n count : nat) : IO bool :=
  match count with
  | O => mret true
  | S count' =>
      let p := rotatedPath base n in
      found ← probe p;
      match found with
      | None => mret false
      | Some false => delete_loop base (n - 1) count'
      | Some true =>
          ok ← sys (fs_remove p);
          if ok : bool then delete_loop base (n - 1) count'
          else failSink (lit "rotation remove failed for " ++ quote p ++ lit ": " ++ ec_message);;
               mret false
      end
  end.

(** One rename that is skipped when its source is missing. *)
Definition rename_step (from to : bytes) : IO bool :=
  found ← probe from;
  match found with
  | None => mret false
  | Some false => mret true
  | Some true =>
      ok ← sys (fs_rename from to);
      if ok : bool then mret true
      else failSink (lit "rotation rename failed for " ++ quote from ++ lit ": " ++ ec_message);;
           mret false
  end.

(** [for (n = highest; n >= 1; --n)] *)
Fixpoint shift_loop (base : bytes) (n : nat) : IO bool :=
  match n with
  | O => mret true
  | S n' =>
      ok ← rename_step (rotatedPath base n) (rotatedPath base (S n));
      if ok : bool then shift_loop base n' else mret false
  end.

Definition probeLimit (maxFiles : Z) : nat :=
  if 0 <? maxFiles then Z.to_nat maxFiles else Z.to_nat 1000.

Definition shiftFiles (base : bytes) : IO bool :=
  maxFiles ← this (λ s, oc_maxFiles (m_cfg s));
  highest ← probe_loop base 1 (probeLimit maxFiles) 0;
  match highest with
  | None => mret false
  | Some highest =>
      highest' ← (if (0 <? maxFiles) && (maxFiles <=? Z.of_nat highest) then
                    ok ← delete_loop base highest (highest + 1 - Z.to_nat maxFiles)%nat;
                    mret (if ok : bool then Some (Z.to_nat (maxFiles - 1)) else None)
                  else mret (Some highest));
      match highest' with
      | None => mret false
      | Some h =>
          ok ← shift_loop base h;
          if ok : bool then rename_step base (rotatedPath base 1) else mret false
      end
  end.

Definition shift_one (w : Which) : IO bool :=
  file ← this (file_of w);
  if sv_empty file then mret true else shiftFiles file.

Definition rotate : IO unit :=
  closeFiles;;
  ok ← shift_one Text;
  if negb ok then mret tt else
  ok ← shift_one Jsonl;
  if negb ok then mret tt else openFiles.

Definition rotateIfNeeded : IO unit :=
  max ← this (λ s, oc_maxSize (m_cfg s));
  if max =? 0 then mret tt else
  ts ← this m_textSize;
  js ← this m_jsonlSize;
  if (max <=? ts) || (max <=? js) then rotate else mret tt.

(** ** Writing *)

(** Write and flush one record if the stream is open; [false] is the early return. *)
Definition write_one (w : Which) (record : M bytes) : IO bool :=
  st ← this (stream_of w);
  if negb (st_open st) then mret true else
  file ← this (file_of w);
  line ← pure (r ← record; mret (r ++ [x0a]));
  good ← (if st_good st then sys (fs_append file line) else mret false);
  size ← this (size_of w);
  if (good : bool) then assign (set_file w st (u64 (size + zlen line)));; mret true
  else
    assign (set_file w (mkStream true false) size);;
    failSink (lit "write to " ++ quote file ++ lit " failed");;
    mret false.

(** [rcv] is the time stamp [currentTimestamp] gives. *)
Definition doWrite (msg : SyslogMessage) (rcv : bytes) : IO unit :=
  closed ← this m_closed;
  if closed : bool then mret tt else
  malformed ← this (λ s, bool_decide (protocol msg = Unknown) && negb (oc_includeMalformed (m_cfg s)));
  if malformed : bool then mret tt else
  needOpen ← this (λ s,
    (negb (sv_empty (oc_textFile (m_cfg s))) && negb (st_open (m_textStream s))) ||
    (negb (sv_empty (oc_jsonlFile (m_cfg s))) && negb (st_open (m_jsonlStream s))));
  (if needOpen : bool then openFiles else mret tt);;
  rotateIfNeeded;;
  ok ← write_one Text (escapeControlChars (raw msg));
  if ok : bool then write_one Jsonl (toJsonlRecord msg rcv);; mret tt else mret tt.

(** ** Retrying and shutting down *)

Definition attemptReopen : IO unit :=
  assign (set_closed false);;
  openFiles;;
  closed ← this m_closed;
  if closed : bool then mret tt else
  t ← now;
  recovery ← this m_recovery;
  let '(recovery', outage) := SinkRecovery.onRecovered t recovery in
  assign (set_recovery recovery');;
  name ← this sinkName;
  osLogInfo (lit "minilog: " ++ name ++ lit " reopened after " ++
       to_string (SinkRecovery.out_closedFor outage) ++ lit " s and " ++
       to_string (SinkRecovery.out_failures outage) ++
       lit " failure(s); messages routed to it during that time were dropped").

(** The timer's handler; the wait is over unless it was cancelled. *)
Definition onRetryTimer (cancelled : bool) : IO unit :=
  (if cancelled then mret tt else assign (set_retryTimer false));;
  down ← this m_shuttingDown;
  if cancelled || down then mret tt else attemptReopen.

(** The try block; what is left when that throws in its turn is in Exceptions.v. *)
Definition failSinkFromHandler (what : bytes) : IO unit :=
  failSink (lit "unexpected exception in sink handler: " ++ what).

(** What [close] posts to the strand; the cancelled timer's handler does nothing. *)
Definition close : IO unit :=
  assign (set_shuttingDown true);;
  assign (set_closed true);;
  assign (set_retryTimer false);;
  closeFiles.

End LogFile.

(** ** A JSON writer, for the examples *)

Definition json_byte (b : byte) : bytes :=
  if decide (b = x22) then [x5c; x22]
  else if decide (b = x5c) then [x5c; x5c]
  else if bval b <? 0x20 then lit "\u00" ++ hex2 (bval b)
  else [b].
Definition json_string (s : bytes) : bytes := x22 :: flat_map json_byte s ++ [x22].
Definition json_pair (kv : bytes * option bytes) : bytes :=
  json_string kv.1 ++ lit ":" ++ match kv.2 with Some v => json_string v | None => lit "null" end.
Fixpoint json_pairs (l : list (bytes * option bytes)) : bytes :=
  match l with
  | [] => []
  | [kv] => json_pair kv
  | kv :: l' => json_pair kv ++ lit "," ++ json_pairs l'
  end.
Definition json_object (l : list (bytes * option bytes)) : bytes := lit "{" ++ json_pairs l ++ lit "}".

Definition no_newline (s : bytes) : Prop := x0a ∉ s.
#[export] Instance no_newline_dec s : Decision (no_newline s).
Proof. unfold no_newline. apply _. Defined.
(** Decides a closed goal by evaluation. *)
Ltac by_decision := refine (bool_decide_unpack _ _); vm_compute; exact I.

Lemma no_newline_app s t : no_newline (s ++ t) ↔ no_newline s ∧ no_newline t.
Proof. unfold no_newline. rewrite elem_of_app. tauto. Qed.

Lemma json_string_no_newline s : no_newline (json_string s).
Proof.
  assert (Hb : ∀ b, x0a ∉ json_byte b) by by_bytes.
  unfold json_string. apply (no_newline_app [x22]). split; [by_decision|].
  apply no_newline_app. split; [|by_decision].
  induction s as [|b s IH]; [apply not_elem_of_nil|]. cbn. apply no_newline_app. split; [apply Hb|done].
Qed.

Lemma json_object_no_newline l : no_newline (json_object l).
Proof.
  assert (Hp : ∀ kv, no_newline (json_pair kv)).
  { intros [k [v|]]; unfold json_pair; rewrite !no_newline_app;
      (split_and!; [apply json_string_no_newline|by_decision|]);
      [apply json_string_no_newline|by_decision]. }
  unfold json_object. rewrite !no_newline_app. split_and!; [by_decision| |by_decision].
  induction l as [|kv [|kv' l] IH]; [apply not_elem_of_nil|apply Hp|].
  cbn [json_pairs]. rewrite !no_newline_app. split_and!; [apply Hp|by_decision|apply IH].
Qed.

Definition example_env : LogEnv := {|
  serialize := json_object;
  ec_message := lit "Input/output error";
  serialize_law := json_object_no_newline
|}.
