(* ===== verification/LogFileSpec.v ===== *)
(** * The life of a log file

    A total-correctness logic for the member functions of [LogFile], the
    invariant every handler keeps whatever calls fail, what a write leaves on
    disk, and when a sink goes out of service and comes back. *)

From S2P Require Import Prelude Names Parser Platform Config Escape Backoff FileSystem LogFile.

(** ** Total correctness *)

(** [m] returns from [w], in a world that satisfies [Q]. *)
Definition wp {A} (m : IO A) (w : World) (Q : A → World → Prop) : Prop :=
  ∃ a w', m w = Ret (a, w') ∧ Q a w'.

Lemma wp_ret {A} (a : A) w (Q : A → World → Prop) : Q a w → wp (mret a) w Q.
Proof. intros. by exists a, w. Qed.
Lemma wp_bind {A B} (m : IO A) (f : A → IO B) w (Q : B → World → Prop) :
  wp m w (λ a w', wp (f a) w' Q) → wp (m ≫= f) w Q.
Proof.
  intros (a & w' & Hm & b & w'' & Hf & HQ). exists b, w''. split; [|done].
  unfold mbind, IO_bind. by rewrite Hm.
Qed.
Lemma wp_impl {A} (m : IO A) w (P Q : A → World → Prop) :
  wp m w P → (∀ a w', P a w' → Q a w') → wp m w Q.
Proof. intros (a & w' & Hm & HP) Himpl. exists a, w'. auto. Qed.
Lemma wp_and {A} (m : IO A) w (P Q : A → World → Prop) :
  wp m w P → wp m w Q → wp m w (λ a w', P a w' ∧ Q a w').
Proof. intros (a & w' & Hm & HP) (b & w'' & Hm' & HQ). exists a, w'. split; [done|]. rewrite Hm in Hm'. by injection Hm' as <- <-. Qed.
Lemma wp_sys {A} (f : Os → A * Os) w (Q : A → World → Prop) :
  Q (f (w_os w)).1 (mkWorld (f (w_os w)).2 (w_sink w)) → wp (sys f) w Q.
Proof. intros HQ. unfold wp, sys. destruct (f (w_os w)) as [a os]. eauto. Qed.
Lemma wp_this {A} (f : Sink → A) w (Q : A → World → Prop) : Q (f (w_sink w)) w → wp (this f) w Q.
Proof. intros. by exists (f (w_sink w)), w. Qed.
Lemma wp_assign f w (Q : unit → World → Prop) :
  Q tt (mkWorld (w_os w) (f (w_sink w))) → wp (assign f) w Q.
Proof. intros. by eexists _, _. Qed.
Lemma wp_pure {A} (m : M A) a w (Q : A → World → Prop) : m = Ret a → Q a w → wp (pure m) w Q.
Proof. intros -> ?. by exists a, w. Qed.

(** Runs the straight-line part of a function. *)
Ltac wp_step :=
  lazymatch goal with
  | |- wp (mbind _ _) _ _ => apply wp_bind
  | |- wp (mret _) _ _ => apply wp_ret
  | |- wp (sys _) _ _ => apply wp_sys
  | |- wp (this _) _ _ => apply wp_this
  | |- wp (assign _) _ _ => apply wp_assign
  | |- wp now _ _ => apply wp_sys
  | |- wp (log _) _ _ => apply wp_sys
  end.
Ltac wp_cbn := cbn beta iota delta [w_os w_sink fst snd negb st_open st_good].
Ltac wp_go := wp_cbn; repeat (wp_step; wp_cbn).

(** ** Going out of service *)

(** What [failSink] does to the sink, at time [t]. *)
Definition closed_file (st : Stream) : Stream := mkStream false (st_good st).
Definition failed (t : Z) (s : Sink) : Sink :=
  mkSink (m_cfg s) (m_retryInterval s)
    (if m_startingUp s || m_shuttingDown s then m_retryTimer s else true)
    (if m_startingUp s then m_recovery s else (SinkRecovery.onFailure t (m_recovery s)).1)
    true (m_shuttingDown s) (m_startingUp s)
    (closed_file (m_textStream s)) (closed_file (m_jsonlStream s)) 0 0.

Definition same_disk (os os' : Os) : Prop :=
  os_files os' = os_files os ∧ os_faults os' = os_faults os ∧ os_now os' = os_now os.

Lemma closed_file_id st :
  (if st_open st then mkStream false (st_good st) else st) = closed_file st.
Proof. by destruct st as [[] ?]. Qed.

Lemma failSink_spec reason w :
  wp (failSink reason) w (λ _ w', same_disk (w_os w) (w_os w') ∧
                                  w_sink w' = failed (os_now (w_os w)) (w_sink w)).
Proof.
  destruct w as [os s]. unfold failSink, closeFiles, scheduleRetry, close_one.
  repeat (wp_step; cbn beta). destruct (m_startingUp s) eqn:Hst; cbn [w_sink] in *.
  - rewrite Hst. wp_go. cbn. unfold failed. rewrite Hst, !closed_file_id. done.
  - rewrite Hst. wp_go. cbn [w_sink w_os fst snd].
    destruct (SinkRecovery.onFailure (os_now os) (m_recovery s)) as [r d] eqn:Hd.
    wp_go. cbn [w_sink w_os fst snd].
    destruct (SinkRecovery.report d); [destruct (SinkRecovery.firstFailure d)|]; wp_go; cbn;
      destruct (m_shuttingDown s) eqn:Hsd; wp_go; cbn; unfold failed; rewrite Hst, Hsd, Hd; cbn;
      rewrite !closed_file_id; done.
Qed.

(** ** Opening *)

Definition attached (wh : Which) (os : Os) (s : Sink) : Prop :=
  stream_of wh s = mkStream true true ∧
  ∃ c, os_files os !! file_of wh s = Some c ∧ size_of wh s = u64 (zlen c).
Definition detached (wh : Which) (s : Sink) : Prop :=
  st_open (stream_of wh s) = false ∧ size_of wh s = 0.

Lemma set_file_same wh st n s : stream_of wh (set_file wh st n s) = st ∧ size_of wh (set_file wh st n s) = n.
Proof. by destruct wh. Qed.
Lemma file_of_set wh wh' st n s : file_of wh (set_file wh' st n s) = file_of wh s.
Proof. by destruct wh, wh'. Qed.

(** Everything but the streams is as [failed] leaves it. *)
Record out_of_service (t : Z) (s s' : Sink) : Prop := {
  os_cfg : m_cfg s' = m_cfg s;
  os_interval : m_retryInterval s' = m_retryInterval s;
  os_timer : m_retryTimer s' = (if m_startingUp s || m_shuttingDown s then m_retryTimer s else true);
  os_recovery : m_recovery s' =
                (if m_startingUp s then m_recovery s
                 else (SinkRecovery.onFailure t (m_recovery s)).1);
  os_closed : m_closed s' = true;
  os_down : m_shuttingDown s' = m_shuttingDown s;
  os_start : m_startingUp s' = m_startingUp s;
  os_detached : ∀ wh, detached wh s'
}.

Lemma failed_out_of_service t s : out_of_service t s (failed t s).
Proof. constructor; try done. by intros []. Qed.
Lemma out_of_service_set t wh st n s s' :
  out_of_service t (set_file wh st n s) s' → out_of_service t s s'.
Proof. destruct wh; intros []; constructor; done. Qed.

(** The file exists afterwards, with what it held. *)
Definition touch (p : bytes) (m : gmap bytes bytes) : gmap bytes bytes :=
  match m !! p with Some _ => m | None => <[p := []]> m end.
Lemma touch_self p m : touch p m !! p = Some (default [] (m !! p)).
Proof. unfold touch. destruct (m !! p) eqn:E; [done|]. by rewrite lookup_insert_eq. Qed.
Lemma touch_ne p q m : p ≠ q → touch p m !! q = m !! q.
Proof. intros. unfold touch. destruct (m !! p); [done|]. by rewrite lookup_insert_ne. Qed.
Lemma touch_idemp p m : is_Some (m !! p) → touch p m = m.
Proof. unfold touch. by intros [c ->]. Qed.

(** A call consumes a fault at most. *)
Definition fewer_faults (os os' : Os) : Prop :=
  os_now os' = os_now os ∧ (os_faults os = [] → os_faults os' = []).
Lemma fewer_faults_refl os : fewer_faults os os.
Proof. done. Qed.
Lemma fewer_faults_trans a b c : fewer_faults a b → fewer_faults b c → fewer_faults a c.
Proof. intros [? ?] [? ?]. split; [congruence|auto]. Qed.
Lemma same_disk_faults os os' : same_disk os os' → fewer_faults os os'.
Proof. intros (? & Hf & ?). split; [done|by rewrite Hf]. Qed.

Lemma next_fault_spec os :
  os_files (next_fault os).2 = os_files os ∧ fewer_faults os (next_fault os).2 ∧
  os_log (next_fault os).2 = os_log os ∧ (os_faults os = [] → next_fault os = (None, os)).
Proof. unfold next_fault, fewer_faults. destruct (os_faults os) eqn:E; cbn; rewrite ?E; done. Qed.

Lemma fs_open_spec p os :
  let '(ok, os') := fs_open p os in
  fewer_faults os os' ∧ os_log os' = os_log os ∧ (os_faults os = [] → ok = true) ∧
  os_files os' = if ok then touch p (os_files os) else os_files os.
Proof.
  unfold fs_open, touch. destruct (next_fault_spec os) as (Hf & Hq & Hl & Hn).
  destruct (next_fault os) as [[k|] os'] eqn:E; cbn [snd] in *.
  - split_and!; try done. intros H. apply Hn in H. congruence.
  - rewrite Hf. destruct (os_files os !! p); cbn; split_and!; try done; by rewrite ?Hf.
Qed.

Lemma fs_file_size_spec p os :
  let '(r, os') := fs_file_size p os in
  fewer_faults os os' ∧ os_log os' = os_log os ∧ os_files os' = os_files os ∧
  (r = None ∨ ∃ c, os_files os !! p = Some c ∧ r = Some (zlen c)) ∧
  (os_faults os = [] → is_Some (os_files os !! p) → is_Some r).
Proof.
  unfold fs_file_size. destruct (next_fault_spec os) as (Hf & Hq & Hl & Hn).
  destruct (next_fault os) as [[k|] os'] eqn:E; cbn [snd] in *; rewrite ?Hf.
  - split_and!; try done; [by left|]. intros H. apply Hn in H. congruence.
  - destruct (os_files os !! p) as [c|]; split_and!; try done; [right; eauto|by left].
Qed.

Section spec.
Context `{LogEnv}.

Lemma open_one_spec wh w :
  detached wh (w_sink w) →
  wp (open_one wh) w (λ ok w',
    fewer_faults (w_os w) (w_os w') ∧ (os_faults (w_os w) = [] → ok = true) ∧
    let file := file_of wh (w_sink w) in
    if ok : bool then
      if sv_empty file then w' = w
      else os_files (w_os w') = touch file (os_files (w_os w)) ∧ os_log (w_os w') = os_log (w_os w) ∧
           w_sink w' = set_file wh (mkStream true true)
                         (u64 (zlen (default [] (os_files (w_os w) !! file)))) (w_sink w)
    else out_of_service (os_now (w_os w)) (w_sink w) (w_sink w') ∧ file ≠ [] ∧
         (os_files (w_os w') = os_files (w_os w) ∨
          os_files (w_os w') = touch file (os_files (w_os w)))).
Proof.
  intros [Hopen Hsize]. unfold open_one. wp_go.
  set (file := file_of wh (w_sink w)). destruct (sv_empty file) eqn:He.
  { wp_go. destruct w. cbn. split_and!; done. }
  wp_go. rewrite Hopen. wp_go.
  pose proof (fs_open_spec file (w_os w)) as Ho. destruct (fs_open file (w_os w)) as [opened os1].
  destruct Ho as (Hq1 & Hl1 & Hok1 & Hf1). wp_go. cbn [w_os w_sink fst snd st_open].
  assert (Hne : file ≠ []) by (by intros E; rewrite E in He).
  destruct opened; cbn [negb st_open]; wp_go; cbn [negb st_open]; wp_go.
  2: { eapply wp_impl; [apply failSink_spec|]. cbn [w_os w_sink]. intros [] w' ((Hf & Hd) & Hs). wp_go.
    split_and!.
    - eapply fewer_faults_trans; [done|]. by apply same_disk_faults.
    - intros Hn. by apply Hok1 in Hn.
    - destruct Hq1 as [<- _]. eapply out_of_service_set. rewrite Hs. apply failed_out_of_service.
    - done.
    - left. congruence. }
  pose proof (fs_file_size_spec file os1) as Hsz. destruct (fs_file_size file os1) as [r os2].
  destruct Hsz as (Hq2 & Hl2 & Hf2 & Hr & Hok2). cbn [w_os w_sink fst snd].
  assert (Hsome : os_files os1 !! file = Some (default [] (os_files (w_os w) !! file)))
    by (rewrite Hf1; apply touch_self).
  destruct r as [n|]; wp_go; cbn [w_os w_sink fst snd].
  - destruct Hr as [|(c & Hc & [= ->])]; [done|]. rewrite Hsome in Hc. injection Hc as <-.
    split_and!; [by eapply fewer_faults_trans|done|congruence|congruence|by destruct wh].
  - eapply wp_impl; [apply failSink_spec|]. cbn [w_os w_sink]. intros [] w' ((Hf & Hd) & Hs). wp_go.
    split_and!.
    + eapply fewer_faults_trans; [done|]. eapply fewer_faults_trans; [done|].
      by apply same_disk_faults.
    + intros Hn. destruct Hok2 as [? ?]; [by apply Hq1|by rewrite Hsome|done].
    + destruct Hq1 as [<- _], Hq2 as [<- _]. eapply out_of_service_set. rewrite Hs.
      apply failed_out_of_service.
    + done.
    + right. congruence.
Qed.

(** Only the two streams differ. *)
Definition same_members (s s' : Sink) : Prop :=
  m_cfg s' = m_cfg s ∧ m_retryInterval s' = m_retryInterval s ∧ m_retryTimer s' = m_retryTimer s ∧
  m_recovery s' = m_recovery s ∧ m_closed s' = m_closed s ∧ m_shuttingDown s' = m_shuttingDown s ∧
  m_startingUp s' = m_startingUp s.
Lemma same_members_trans s1 s2 s3 : same_members s1 s2 → same_members s2 s3 → same_members s1 s3.
Proof.
  intros (? & ? & ? & ? & ? & ? & ?) (? & ? & ? & ? & ? & ? & ?). split_and!; congruence.
Qed.
Lemma same_members_set wh st n s : same_members s (set_file wh st n s).
Proof. by destruct wh. Qed.
Lemma same_members_file wh s s' : same_members s s' → file_of wh s' = file_of wh s.
Proof. intros (Hc & _). destruct wh; cbn; by rewrite Hc. Qed.

Lemma out_of_service_members t s s1 s' :
  same_members s s1 → out_of_service t s1 s' → out_of_service t s s'.
Proof.
  intros (C & I & T & R & Cl & D & St) []. rewrite St, ?D, ?T, ?R in *.
  constructor; congruence || done.
Qed.

(** Empty files may have appeared; nothing else. *)
Definition grows (m m' : gmap bytes bytes) : Prop :=
  ∀ p, m' !! p = m !! p ∨ (m !! p = None ∧ m' !! p = Some []).
Lemma grows_refl m : grows m m.
Proof. by left. Qed.
Lemma grows_trans m1 m2 m3 : grows m1 m2 → grows m2 m3 → grows m1 m3.
Proof.
  intros H12 H23 p. destruct (H12 p) as [E|[E E']], (H23 p) as [F|[F F']];
    rewrite ?F, ?F', ?E, ?E' in *; auto; congruence.
Qed.
Lemma grows_touch p m : grows m (touch p m).
Proof.
  intros q. destruct (decide (p = q)) as [<-|]; [|left; by apply touch_ne].
  rewrite touch_self. destruct (m !! p) eqn:E; [by left|by right].
Qed.
Lemma grows_Some m m' p c : grows m m' → m !! p = Some c → m' !! p = Some c.
Proof. intros H' E. destruct (H' p) as [->|[? _]]; congruence. Qed.

Definition touch_if (p : bytes) (m : gmap bytes bytes) : gmap bytes bytes :=
  if sv_empty p then m else touch p m.
Lemma grows_touch_if p m : grows m (touch_if p m).
Proof. unfold touch_if. destruct (sv_empty p); [apply grows_refl|apply grows_touch]. Qed.

(** What is open after [openFiles]. *)
Definition in_service (os : Os) (s : Sink) : Prop :=
  ∀ wh, if sv_empty (file_of wh s) then detached wh s else attached wh os s.

Lemma in_service_grows os os' s :
  in_service os s → grows (os_files os) (os_files os') → in_service os' s.
Proof.
  intros Hin Hg wh. specialize (Hin wh). destruct (sv_empty _); [done|].
  destruct Hin as [Hst (c & Hc & Hn)]. split; [done|]. exists c. split; [by eapply grows_Some|done].
Qed.

Lemma openFiles_spec w :
  (∀ wh, detached wh (w_sink w)) →
  wp openFiles w (λ _ w',
    fewer_faults (w_os w) (w_os w') ∧ grows (os_files (w_os w)) (os_files (w_os w')) ∧
    ((same_members (w_sink w) (w_sink w') ∧ in_service (w_os w') (w_sink w') ∧
      os_log (w_os w') = os_log (w_os w) ∧
      os_files (w_os w') = touch_if (file_of Jsonl (w_sink w))
                             (touch_if (file_of Text (w_sink w)) (os_files (w_os w))))
     ∨ (os_faults (w_os w) ≠ [] ∧ out_of_service (os_now (w_os w)) (w_sink w) (w_sink w')))).
Proof.
  intros Hdet. unfold openFiles. apply wp_bind.
  eapply wp_impl; [apply open_one_spec, Hdet|]. intros ok w1 (Hq1 & Hok1 & Hp1).
  cbv zeta in Hp1. destruct ok; wp_go.
  2: { destruct Hp1 as (Hout & Hne & Hf). split_and!; [done| |right; split; [|done]].
    - destruct Hf as [->| ->]; [apply grows_refl|apply grows_touch].
    - intros Hn. by apply Hok1 in Hn. }
  set (text := file_of Text (w_sink w)) in *.
  assert (Htext : same_members (w_sink w) (w_sink w1) ∧
    os_files (w_os w1) = touch_if text (os_files (w_os w)) ∧ os_log (w_os w1) = os_log (w_os w) ∧
    detached Jsonl (w_sink w1) ∧
    if sv_empty text then detached Text (w_sink w1) else attached Text (w_os w1) (w_sink w1)).
  { unfold touch_if. destruct (sv_empty text); [by subst w1; split_and!; try apply Hdet|].
    destruct Hp1 as (Hf & Hl & ->). split; [apply same_members_set|]. split; [done|].
    split; [done|]. split; [exact (Hdet Jsonl)|]. split; [done|]. exists (default [] (os_files (w_os w) !! text)). cbn.
    rewrite Hf. split; [apply touch_self|done]. }
  destruct Htext as (Hm1 & Hf1 & Hl1 & Hd1 & Ht1). clear Hp1.
  eapply wp_impl; [by apply open_one_spec|]. intros ok w2 (Hq2 & Hok2 & Hp2).
  cbv zeta in Hp2. wp_go.
  rewrite (same_members_file Jsonl _ _ Hm1) in *. set (jsonl := file_of Jsonl (w_sink w)) in *.
  split; [by eapply fewer_faults_trans|].
  assert (Hg1 : grows (os_files (w_os w)) (os_files (w_os w1))) by (rewrite Hf1; apply grows_touch_if).
  destruct ok.
  2: { destruct Hp2 as (Hout & Hne & Hf2). split.
    - eapply grows_trans; [done|]. destruct Hf2 as [->| ->]; [apply grows_refl|apply grows_touch].
    - right. split; [intros Hn; apply Hq1 in Hn; by apply Hok2 in Hn|].
      destruct Hq1 as [<- _]. by eapply out_of_service_members. }
  assert (Hj : os_files (w_os w2) = touch_if jsonl (os_files (w_os w1)) ∧
    os_log (w_os w2) = os_log (w_os w1) ∧ same_members (w_sink w1) (w_sink w2) ∧
    stream_of Text (w_sink w2) = stream_of Text (w_sink w1) ∧
    size_of Text (w_sink w2) = size_of Text (w_sink w1) ∧
    if sv_empty jsonl then detached Jsonl (w_sink w2) else attached Jsonl (w_os w2) (w_sink w2)).
  { unfold touch_if. destruct (sv_empty jsonl) eqn:He; [by subst w2|].
    destruct Hp2 as (Hf2 & Hl2 & ->). split_and!; try done.
    split; [done|]. exists (default [] (os_files (w_os w1) !! jsonl)).
    rewrite file_of_set, (same_members_file Jsonl _ _ Hm1), Hf2. split; [apply touch_self|done]. }
  destruct Hj as (Hf2 & Hl2 & Hm2 & Hst & Hsz & Hj2).
  assert (Hg2 : grows (os_files (w_os w1)) (os_files (w_os w2))) by (rewrite Hf2; apply grows_touch_if).
  split; [by eapply grows_trans|]. left.
  assert (Hm : same_members (w_sink w) (w_sink w2)) by by eapply same_members_trans.
  split_and!; [done| |congruence|congruence].
  intros []; rewrite (same_members_file _ _ _ Hm); [|done]. fold text.
  destruct (sv_empty text); [unfold detached; by rewrite Hst, Hsz|].
  destruct Ht1 as [Ha (c & Hc & Hs)]. split; [congruence|]. exists c.
  rewrite (same_members_file _ _ _ Hm), Hsz. rewrite (same_members_file _ _ _ Hm1) in Hc.
  split; [by eapply grows_Some|done].
Qed.

End spec.
