(* ===== verification/Rotation.v ===== *)
(** * Rotation

    What [shiftFiles] and [rotate] do to the file system. A rotation is a plan,
    a list of removals and renames; the code carries out the whole plan, or a
    prefix of it when a call fails and the sink goes out of service. The theorems
    say what the whole plan does to the chain of generations, and that no prefix
    of it loses a record other than those of the generation it is meant to drop. *)

From S2P Require Import Prelude Names Parser Platform Config Escape Backoff FileSystem LogFile LogFileSpec.

Inductive Move := Remove (p : bytes) | Rename (from to : bytes).

Definition apply_move (mv : Move) (m : gmap bytes bytes) : gmap bytes bytes :=
  match mv with
  | Remove p => delete p m
  | Rename from to => match m !! from with
                      | Some c => <[to := c]> (delete from m)
                      | None => m
                      end
  end.
Definition apply_moves (mvs : list Move) (m : gmap bytes bytes) : gmap bytes bytes :=
  foldl (λ m mv, apply_move mv m) m mvs.

Lemma apply_moves_app l k m : apply_moves (l ++ k) m = apply_moves k (apply_moves l m).
Proof. apply foldl_app. Qed.

(** The moves a rotation of [base] makes from a given disk. *)
Fixpoint highest_from (base : bytes) (n count highest : nat) (m : gmap bytes bytes) : nat :=
  match count with
  | O => highest
  | S count' => highest_from base (S n) count'
                  (if bool_decide (is_Some (m !! rotatedPath base n)) then n else highest) m
  end.
Fixpoint shift_moves (base : bytes) (n : nat) : list Move :=
  match n with
  | O => []
  | S n' => Rename (rotatedPath base n) (rotatedPath base (S n)) :: shift_moves base n'
  end.
Definition rotation_moves (base : bytes) (maxFiles : Z) (m : gmap bytes bytes) : list Move :=
  let highest := highest_from base 1 (probeLimit maxFiles) 0 m in
  (if (0 <? maxFiles) && (maxFiles <=? Z.of_nat highest)
   then Remove (rotatedPath base highest) :: shift_moves base (Z.to_nat (maxFiles - 1))
   else shift_moves base highest) ++ [Rename base (rotatedPath base 1)].

(** ** The code follows the plan *)

(** [w'] is [w] after the whole plan, or out of service after a part of it. *)
Definition follows (plan : list Move) (w : World) (ok : bool) (w' : World) : Prop :=
  fewer_faults (w_os w) (w_os w') ∧ (os_faults (w_os w) = [] → ok = true) ∧
  ∃ done, done `prefix_of` plan ∧
    os_files (w_os w') = apply_moves done (os_files (w_os w)) ∧
    if ok then done = plan ∧ w_sink w' = w_sink w ∧ os_log (w_os w') = os_log (w_os w)
    else out_of_service (os_now (w_os w)) (w_sink w) (w_sink w').

Lemma follows_nil w : follows [] w true w.
Proof. split_and!; try done. exists []. done. Qed.
Lemma follows_nil_files w ok w' : follows [] w ok w' → os_files (w_os w') = os_files (w_os w).
Proof. intros (_ & _ & d & Hd & Hf & _). apply prefix_nil_inv in Hd. by subst d. Qed.
Lemma follows_fail plan w w' :
  follows [] w false w' → follows plan w false w'.
Proof.
  intros (Hq & Hok & dn & Hd & Hf & Ho). split_and!; try done.
  apply prefix_nil_inv in Hd as ->. exists []. split; [apply prefix_nil|done].
Qed.
Lemma follows_app p q w w1 ok w2 :
  follows p w true w1 → follows q w1 ok w2 → follows (p ++ q) w ok w2.
Proof.
  intros (Hq1 & _ & d1 & _ & Hf1 & -> & Hs1 & Hl1) (Hq2 & Hok2 & d2 & Hd2 & Hf2 & Ho).
  split; [by eapply fewer_faults_trans|]. split; [intros Hn; by apply Hok2, Hq1|].
  exists (p ++ d2). rewrite apply_moves_app, <- Hf1. split; [by apply prefix_app|].
  split; [done|]. destruct ok; [destruct Ho as (-> & -> & ->); by rewrite Hs1, Hl1|].
  rewrite <- Hs1. by destruct Hq1 as [<- _].
Qed.

Section plan.
Context `{LogEnv}.

Lemma probe_spec p w :
  wp (probe p) w (λ r w',
    match r with
    | Some b => follows [] w true w' ∧ b = bool_decide (is_Some (os_files (w_os w) !! p))
    | None => follows [] w false w'
    end).
Proof.
  unfold probe. wp_go. unfold fs_exists.
  destruct (next_fault_spec (w_os w)) as (Hf & Hq & Hl & Hn).
  destruct (next_fault (w_os w)) as [[k|] os'] eqn:E; cbn [fst snd] in *; wp_go.
  - eapply wp_impl; [apply failSink_spec|]. intros [] w' ((Hf' & Hd) & Hs). wp_go.
    cbn [w_os w_sink] in *. split; [eapply fewer_faults_trans; [done|by apply same_disk_faults]|].
    split; [intros H'; apply Hn in H'; congruence|].
    exists []. split; [done|]. split; [cbn; congruence|]. rewrite Hs.
    destruct Hq as [<- _]. apply failed_out_of_service.
  - split; [|by rewrite Hf]. split; [done|]. split; [done|]. exists []. done.
Qed.

Lemma probe_loop_spec base n count highest w :
  wp (probe_loop base n count highest) w (λ r w',
    match r with
    | Some h => follows [] w true w' ∧ h = highest_from base n count highest (os_files (w_os w))
    | None => follows [] w false w'
    end).
Proof.
  revert n highest w. induction count as [|count IH]; intros n highest w; cbn [probe_loop highest_from].
  { wp_go. split; [apply follows_nil|done]. }
  apply wp_bind. eapply wp_impl; [apply probe_spec|]. intros [b|] w1; [|intros; by wp_go].
  intros [Hw1 ->]. eapply wp_impl; [apply IH|].
  rewrite <- (follows_nil_files _ _ _ Hw1).
  intros [h|] w2.
  - intros [Hw2 ->]. split; [|done]. by eapply (follows_app [] []).
  - intros Hw2. by eapply (follows_app [] []).
Qed.

Lemma rename_step_spec from to w :
  wp (rename_step from to) w (follows [Rename from to] w).
Proof.
  unfold rename_step. apply wp_bind. eapply wp_impl; [apply probe_spec|].
  intros [b|] w1; [|intros Hw1; wp_go; by apply follows_fail].
  intros [Hw1 ->]. destruct (bool_decide_reflect (is_Some (os_files (w_os w) !! from))) as [[c Hc]|Hno].
  2: { wp_go. destruct Hw1 as (Hq & Hok & d & Hd & Hf & _ & Hs & Hl). apply prefix_nil_inv in Hd as ->.
    split_and!; try done. exists [Rename from to]. split; [done|]. split_and!; try done.
    apply eq_None_not_Some in Hno. cbn. by rewrite Hno. }
  destruct Hw1 as (Hq1 & _ & d & Hd & Hf1 & _ & Hs1 & Hl1). apply prefix_nil_inv in Hd as ->.
  wp_go. unfold fs_rename. destruct (next_fault_spec (w_os w1)) as (Hf & Hq & Hl & Hn).
  destruct (next_fault (w_os w1)) as [[k|] os'] eqn:E; cbn [fst snd] in *; wp_go.
  - eapply wp_impl; [apply failSink_spec|]. intros [] w' ((Hf' & Hd) & Hs). wp_go.
    cbn [w_os w_sink] in *. split.
    { eapply fewer_faults_trans; [done|]. eapply fewer_faults_trans; [done|]. by apply same_disk_faults. }
    split; [intros H'; apply Hq1, Hn in H'; congruence|].
    exists []. split; [apply prefix_nil|]. split; [cbn in *; congruence|].
    replace (os_now (w_os w)) with (os_now os') by (destruct Hq, Hq1; congruence).
    rewrite Hs, Hs1. apply failed_out_of_service.
  - rewrite Hf, Hf1. cbn in Hc. cbn [apply_moves foldl]. rewrite Hc. wp_go.
    split; [by eapply fewer_faults_trans|]. split; [done|].
    exists [Rename from to]. split; [done|]. cbn in *. rewrite Hc.
    split_and!; try done. by rewrite Hl, Hl1.
Qed.

Lemma shift_loop_spec base n w : wp (shift_loop base n) w (follows (shift_moves base n) w).
Proof.
  revert w. induction n as [|n IH]; intros w; cbn [shift_loop shift_moves].
  { wp_go. apply follows_nil. }
  apply wp_bind. eapply wp_impl; [apply rename_step_spec|]. intros [] w1 Hw1.
  - eapply wp_impl; [apply IH|]. intros ok w2. by apply (follows_app [_]).
  - wp_go. destruct Hw1 as (Hq & Hok & d & Hd & Hf & Ho). split_and!; try done.
    exists d. split_and!; try done. trans [Rename (rotatedPath base (S n)) (rotatedPath base (S (S n)))]; [done|].
    by apply (prefix_cons _ [] _), prefix_nil.
Qed.

Lemma follows_prefix p q w w' : p `prefix_of` q → follows p w false w' → follows q w false w'.
Proof.
  intros Hpq (Hq & Hok & d & Hd & Hf & Ho). split_and!; try done. exists d. split_and!; try done.
  by trans p.
Qed.

(** The highest generation found is within the limit, and exists unless it is 0. *)
Lemma highest_from_spec base n count highest m :
  let r := highest_from base n count highest m in
  (r = highest ∨ (n ≤ r < n + count)%nat ∧ is_Some (m !! rotatedPath base r)) ∧
  ∀ i, (n ≤ i < n + count)%nat → is_Some (m !! rotatedPath base i) → (i ≤ r)%nat.
Proof.
  cbv zeta. revert n highest. induction count as [|count IH]; intros n highest; cbn [highest_from].
  { split; [by left|]. lia. }
  destruct (bool_decide_reflect (is_Some (m !! rotatedPath base n))) as [Hn|Hn].
  - destruct (IH (S n) n) as [Hr Hmax]. split.
    + right. destruct Hr as [->|[? ?]]; [split; [lia|done]|split; [lia|done]].
    + intros i Hi Hs. destruct (decide (i = n)) as [->|]; [|apply Hmax; [lia|done]].
      destruct Hr as [->|[? ?]]; lia.
  - destruct (IH (S n) highest) as [Hr Hmax]. split.
    + destruct Hr as [->|[? ?]]; [by left|right; split; [lia|done]].
    + intros i Hi Hs. destruct (decide (i = n)) as [->|]; [done|]. apply Hmax; [lia|done].
Qed.

Lemma delete_one_spec base n w : wp (delete_loop base n 1) w (follows [Remove (rotatedPath base n)] w).
Proof.
  cbn [delete_loop]. apply wp_bind. eapply wp_impl; [apply probe_spec|].
  intros [b|] w1; [|intros Hw1; wp_go; by apply follows_fail].
  intros [(Hq1 & _ & d & Hd & Hf1 & _ & Hs1 & Hl1) ->]. apply prefix_nil_inv in Hd as ->. cbn in Hf1.
  destruct (bool_decide_reflect (is_Some (os_files (w_os w) !! rotatedPath base n))) as [Hs|Hno].
  2: { wp_go. split_and!; try done. exists [Remove (rotatedPath base n)]. split_and!; try done.
    rewrite Hf1. cbn. rewrite delete_id; [done|]. by apply eq_None_not_Some. }
  wp_go. unfold fs_remove. destruct (next_fault_spec (w_os w1)) as (Hf & Hq & Hl & Hn).
  destruct (next_fault (w_os w1)) as [[k|] os'] eqn:E; cbn [fst snd] in *; wp_go.
  - eapply wp_impl; [apply failSink_spec|]. intros [] w' ((Hf' & Hd) & Hs'). wp_go.
    cbn [w_os w_sink] in *. split.
    { eapply fewer_faults_trans; [done|]. eapply fewer_faults_trans; [done|]. by apply same_disk_faults. }
    split; [intros H'; apply Hq1, Hn in H'; congruence|].
    exists []. split; [apply prefix_nil|]. split; [cbn in *; congruence|].
    replace (os_now (w_os w)) with (os_now os') by (destruct Hq, Hq1; congruence).
    rewrite Hs', Hs1. apply failed_out_of_service.
  - split; [by eapply fewer_faults_trans|]. split; [done|].
    exists [Remove (rotatedPath base n)]. cbn in *. split_and!; try done; congruence.
Qed.

(** [shiftFiles] follows the plan its first look at the disk gives it. *)
Lemma shiftFiles_spec base w :
  wp (shiftFiles base) w
     (follows (rotation_moves base (oc_maxFiles (m_cfg (w_sink w))) (os_files (w_os w))) w).
Proof.
  unfold shiftFiles, rotation_moves. apply wp_bind, wp_this. set (k := oc_maxFiles _).
  apply wp_bind. eapply wp_impl; [apply probe_loop_spec|].
  intros [h|] w1; [|intros Hw1; wp_go; by apply follows_fail]. intros [Hw1 Hh]. rewrite <- Hh.
  assert (Hrest : ∀ p n w2 (Q : list Move), follows p w true w2 →
    Q = p ++ shift_moves base n ++ [Rename base (rotatedPath base 1)] →
    wp (ok ← shift_loop base n; if ok : bool then rename_step base (rotatedPath base 1) else mret false)
       w2 (follows Q w)).
  { intros p n w2 Q Hw2 ->. apply wp_bind. eapply wp_impl; [apply shift_loop_spec|].
    intros [] w3 Hw3.
    - eapply wp_impl; [apply rename_step_spec|]. intros ok w4 Hw4.
      eapply follows_app; [done|]. by eapply follows_app.
    - wp_go. eapply follows_app; [done|]. eapply follows_prefix; [|done]. by apply prefix_app_r. }
  destruct ((0 <? k) && (k <=? Z.of_nat h)) eqn:Hk; apply wp_bind.
  - assert (Hone : (h + 1 - Z.to_nat k)%nat = 1%nat).
    { destruct (highest_from_spec base 1 (probeLimit k) 0 (os_files (w_os w))) as [Hr _].
      rewrite <- Hh in Hr. unfold probeLimit in Hr. destruct (0 <? k) eqn:E; [|done]. cbn in Hk. lia. }
    rewrite Hone. apply wp_bind. eapply wp_impl; [apply delete_one_spec|]. intros [] w2 Hw2; apply wp_ret; wp_cbn.
    + apply (Hrest [Remove (rotatedPath base h)]); [|done]. by eapply (follows_app []).
    + apply wp_ret. eapply (follows_app []); [done|]. eapply follows_prefix; [|done]. by eexists.
  - apply wp_ret. wp_cbn. by apply (Hrest [] h).
Qed.

End plan.

(** ** What a plan does *)

Section moves.
Context (base : bytes).
Abbreviation rot := (rotatedPath base).

Lemma rot_ne n m : n ≠ m → rot n ≠ rot m.
Proof. intros Hn E. by apply rotatedPath_inj in E. Qed.

Lemma rename_lookup from to m p :
  from ≠ to →
  apply_move (Rename from to) m !! p =
  if decide (p = from) then None
  else if decide (p = to) then match m !! from with Some c => Some c | None => m !! to end
  else m !! p.
Proof.
  intros Hne. cbn. destruct (m !! from) as [c|] eqn:E; repeat case_decide; subst; try done.
  - by rewrite lookup_insert_ne, lookup_delete_eq.
  - by rewrite lookup_insert_eq.
  - by rewrite lookup_insert_ne, lookup_delete_ne by done.
Qed.

(** Where the shift moves nothing. *)
Lemma shift_elsewhere h d m p :
  d `prefix_of` shift_moves base h → (∀ n, (1 ≤ n ≤ S h)%nat → p ≠ rot n) →
  apply_moves d m !! p = m !! p.
Proof.
  revert d m. induction h as [|h IH]; intros d m Hd Hp.
  { apply prefix_nil_inv in Hd. by subst d. }
  cbn in Hd. destruct d as [|mv d]; [done|].
  apply prefix_cons_inv_1 in Hd as Hmv. apply prefix_cons_inv_2 in Hd. subst mv.
  change (apply_moves (?a :: d) m) with (apply_moves d (apply_move a m)).
  rewrite IH; [|done|intros n Hn; apply Hp; lia].
  rewrite rename_lookup by (apply rot_ne; lia).
  by rewrite !decide_False by (apply Hp; lia).
Qed.

(** The whole shift: every generation moves up by one, the first is free. *)
Lemma shift_lookup h m :
  let m' := apply_moves (shift_moves base h) m in
  ((1 ≤ h)%nat → m' !! rot 1 = None) ∧
  ∀ n, (1 ≤ n ≤ h)%nat →
    m' !! rot (S n) = match m !! rot n with
                      | Some c => Some c
                      | None => if decide (n < h)%nat then None else m !! rot (S n)
                      end.
Proof.
  cbv zeta. revert m. induction h as [|h IH]; intros m; [split; lia|]. cbn [shift_moves].
  change (apply_moves (?a :: ?l) m) with (apply_moves l (apply_move a m)).
  set (m1 := apply_move _ m). destruct (IH m1) as [H1 Hn].
  assert (Hm1 : ∀ p, m1 !! p = _) by (intros p; apply rename_lookup, rot_ne; lia).
  split.
  - intros _. destruct h as [|h]; [|apply H1; lia].
    cbn. by rewrite Hm1, decide_True.
  - intros n Hr. destruct (decide (n = S h)) as [->|].
    + rewrite shift_elsewhere with (h := h); [|done|intros i Hi; apply rot_ne; lia].
      rewrite Hm1, decide_False by (apply rot_ne; lia). rewrite !decide_True by done.
      rewrite decide_False by lia. done.
    + rewrite Hn by lia. rewrite !Hm1.
      rewrite (decide_False (P := rot n = _)) by (apply rot_ne; lia).
      rewrite (decide_False (P := rot n = _)) by (apply rot_ne; lia).
      destruct (m !! rot n); [done|]. rewrite (decide_True (P := (n < S h)%nat)) by lia.
      destruct (decide (n < h)%nat); [done|]. by rewrite decide_True by (f_equal; lia).
Qed.

(** A part of the shift: each file is where it was, or one generation up. *)
Lemma shift_keeps h d m p c :
  d `prefix_of` shift_moves base h → m !! p = Some c → p ≠ rot (S h) →
  apply_moves d m !! p = Some c ∨
  ∃ n, (1 ≤ n ≤ h)%nat ∧ p = rot n ∧ apply_moves d m !! rot (S n) = Some c.
Proof.
  revert d m. induction h as [|h IH]; intros d m Hd Hc Hp.
  { apply prefix_nil_inv in Hd. subst d. by left. }
  cbn in Hd. destruct d as [|mv d]; [by left|].
  apply prefix_cons_inv_1 in Hd as Hmv. apply prefix_cons_inv_2 in Hd. subst mv.
  change (apply_moves (?a :: d) m) with (apply_moves d (apply_move a m)).
  set (m1 := apply_move _ m).
  assert (Hm1 : ∀ p, m1 !! p = _) by (intros q; apply rename_lookup, rot_ne; lia).
  destruct (decide (p = rot (S h))) as [->|Hne].
  - right. exists (S h). split_and!; [lia|lia|done|].
    rewrite shift_elsewhere with (h := h); [|done|intros i Hi; apply rot_ne; lia].
    rewrite Hm1, decide_False by (apply rot_ne; lia). by rewrite decide_True, Hc.
  - destruct (IH d m1) as [|(n & ? & ? & ?)]; [done| |done|by left|].
    + by rewrite Hm1, !decide_False.
    + right. exists n. split_and!; [lia|lia|done|done].
Qed.
End moves.

Section chain.
Context (base : bytes).
Abbreviation rot := (rotatedPath base).

(** The moves before the last one, and the last. *)
Definition first_moves (k : Z) (m : gmap bytes bytes) : list Move :=
  let highest := highest_from base 1 (probeLimit k) 0 m in
  if (0 <? k) && (k <=? Z.of_nat highest)
  then Remove (rot highest) :: shift_moves base (Z.to_nat (k - 1))
  else shift_moves base highest.
Lemma rotation_moves_split k m :
  rotation_moves base k m = first_moves k m ++ [Rename base (rot 1)].
Proof. done. Qed.

(** The last generation a rotation can write. *)
Definition reach (k : Z) : nat := if k =? 0 then S (probeLimit k) else probeLimit k.

Lemma highest_facts k m :
  let h := highest_from base 1 (probeLimit k) 0 m in
  (h ≤ probeLimit k)%nat ∧ (∀ i, (h < i ≤ probeLimit k)%nat → m !! rot i = None) ∧
  (h ≠ O → is_Some (m !! rot h)).
Proof.
  cbv zeta. destruct (highest_from_spec base 1 (probeLimit k) 0 m) as [Hr Hmax]. split_and!.
  - destruct Hr as [->|[? _]]; lia.
  - intros i Hi. apply eq_None_not_Some. intros Hs. apply Hmax in Hs; lia.
  - intros Hne. by destruct Hr as [?|[_ ?]].
Qed.

(** The generations move up by one, and the first is free. *)
Lemma first_moves_lookup k m :
  0 <= k →
  let m' := apply_moves (first_moves k m) m in
  m' !! rot 1 = None ∧
  (∀ n, (1 ≤ n < probeLimit k)%nat → m' !! rot (S n) = m !! rot n) ∧
  (k = 0 → m' !! rot (S (probeLimit k)) =
           match m !! rot (probeLimit k) with
           | Some c => Some c | None => m !! rot (S (probeLimit k)) end) ∧
  (∀ p, (∀ n, (1 ≤ n ≤ reach k)%nat → p ≠ rot n) → m' !! p = m !! p).
Proof.
  intros Hk. cbv zeta. unfold first_moves.
  destruct (highest_facts k m) as (Hle & Habove & Hsome).
  set (h := highest_from base 1 (probeLimit k) 0 m) in *.
  destruct ((0 <? k) && (k <=? Z.of_nat h)) eqn:Hfull.
  - assert (h = Z.to_nat k) as -> by (unfold probeLimit in Hle; destruct (0 <? k) eqn:E; [lia|done]).
    assert (0 < k) by lia. unfold reach. destruct (Z.eqb_spec k 0) as [|Hk0]; [lia|].
    replace (probeLimit k) with (Z.to_nat k) in * by (unfold probeLimit; by destruct (0 <? k)).
    change (apply_moves (?a :: ?l) m) with (apply_moves l (apply_move a m)). cbn [apply_move].
    destruct (shift_lookup base (Z.to_nat (k - 1)) (delete (rot (Z.to_nat k)) m)) as [H1 Hn].
    split_and!; [|intros n Hr|lia|intros p Hp].
    + destruct (decide (k = 1)) as [->|]; [cbn; apply lookup_delete_eq|apply H1; lia].
    + rewrite Hn, lookup_delete_ne by (lia || (apply rot_ne; lia)).
      destruct (m !! rot n); [done|]. destruct (decide (n < Z.to_nat (k - 1))%nat); [done|].
      replace (S n) with (Z.to_nat k) by lia. apply lookup_delete_eq.
    + rewrite (shift_elsewhere base (Z.to_nat (k - 1))); [|done|intros n Hr; apply Hp; lia].
      apply lookup_delete_ne. symmetry. apply Hp. lia.
  - destruct (shift_lookup base h m) as [H1 Hn].
    assert (Hlim : (h < probeLimit k)%nat ∨ k = 0 ∧ h = probeLimit k).
    { unfold probeLimit in *. destruct (0 <? k) eqn:E; lia. }
    assert (1 ≤ probeLimit k)%nat by (unfold probeLimit in *; destruct (0 <? k) eqn:E; lia).
    assert (Hmove : ∀ n, (1 ≤ n < probeLimit k)%nat →
              apply_moves (shift_moves base h) m !! rot (S n) = m !! rot n).
    { intros n Hr. destruct (decide (n ≤ h)%nat).
      - rewrite Hn by lia. destruct (m !! rot n); [done|].
        destruct (decide (n < h)%nat); [done|]. apply Habove. lia.
      - rewrite (shift_elsewhere base (h)); [|done|intros i Hi; apply rot_ne; lia].
        by rewrite !Habove by lia. }
    split_and!; [|done| |intros p Hp].
    + destruct (decide (h = O)) as [->|]; [cbn; apply Habove; lia|apply H1; lia].
    + intros ->. destruct Hlim as [Hlim|[_ ->]].
      * rewrite (shift_elsewhere base (h)); [|done|intros i Hi; apply rot_ne; lia].
        by rewrite (Habove (probeLimit 0)) by lia.
      * rewrite Hn by lia. destruct (m !! rot _); [done|]. by rewrite decide_False by lia.
    + apply (shift_elsewhere base h); [done|]. intros n Hr. apply Hp.
      unfold reach. destruct (Z.eqb_spec k 0), Hlim as [|[? ?]]; lia.
Qed.

Lemma last_move_lookup m p :
  m !! rot 1 = None →
  apply_move (Rename base (rot 1)) m !! p =
  if decide (p = base) then None else if decide (p = rot 1) then m !! base else m !! p.
Proof.
  intros H1. rewrite rename_lookup by (symmetry; apply rotatedPath_base).
  repeat case_decide; try done. rewrite H1. by destruct (m !! base).
Qed.

(** The disk after a rotation of [base] keeping [k] generations: the active file
    is the first generation, the [n]th is the [n+1]st, and the one past the limit
    is gone. *)
Definition rotated (k : Z) (m m' : gmap bytes bytes) : Prop :=
  m' !! base = None ∧ m' !! rot 1 = m !! base ∧
  (∀ n, (1 ≤ n < probeLimit k)%nat → m' !! rot (S n) = m !! rot n) ∧
  (k = 0 → m' !! rot (S (probeLimit k)) =
           match m !! rot (probeLimit k) with
           | Some c => Some c | None => m !! rot (S (probeLimit k)) end) ∧
  (∀ p, p ≠ base → (∀ n, (1 ≤ n ≤ reach k)%nat → p ≠ rot n) →
        m' !! p = m !! p).

Lemma rotation_moves_rotated k m :
  0 <= k → rotated k m (apply_moves (rotation_moves base k m) m).
Proof.
  intros Hk. rewrite rotation_moves_split, apply_moves_app.
  destruct (first_moves_lookup k m Hk) as (H1 & Hn & Hlast & Hp).
  set (m1 := apply_moves (first_moves k m) m) in *.
  assert (Hm : ∀ p, apply_moves [Rename base (rot 1)] m1 !! p = _)
    by (intros p; apply last_move_lookup, H1).
  assert (Hb : ∀ n, rot n ≠ base) by (intros; apply rotatedPath_base).
  assert (1 ≤ probeLimit k)%nat by (unfold probeLimit; destruct (0 <? k) eqn:E; lia).
  split_and!.
  - by rewrite Hm, decide_True.
  - rewrite Hm, decide_False, decide_True by done. apply Hp. intros n _ ?. by eapply Hb.
  - intros n Hr. rewrite Hm, decide_False, decide_False by (try apply rot_ne; done || lia). auto.
  - intros E. rewrite Hm, decide_False, decide_False by (try apply rot_ne; done || lia). auto.
  - assert (1 ≤ reach k)%nat by (unfold reach; destruct (k =? 0); lia).
    intros p Hpb Hpn. rewrite Hm, decide_False, decide_False by (done || (apply Hpn; lia)). auto.
Qed.
(** Where a file can be after a part of a rotation: where it was, or one up. *)
Definition kept (p c : bytes) (m' : gmap bytes bytes) : Prop :=
  m' !! p = Some c ∨ (p = base ∧ m' !! rot 1 = Some c) ∨
  ∃ n, p = rot n ∧ m' !! rot (S n) = Some c.

Lemma first_moves_keep k m d p c :
  0 <= k → d `prefix_of` first_moves k m → m !! p = Some c → p ≠ rot (reach k) →
  apply_moves d m !! p = Some c ∨ ∃ n, p = rot n ∧ apply_moves d m !! rot (S n) = Some c.
Proof.
  intros Hk Hd Hc Hp. unfold first_moves in Hd. destruct (highest_facts k m) as (Hle & Habove & _).
  set (h := highest_from base 1 (probeLimit k) 0 m) in *.
  destruct ((0 <? k) && (k <=? Z.of_nat h)) eqn:Hfull.
  - destruct d as [|mv d]; [by left|].
    apply prefix_cons_inv_1 in Hd as Hmv. apply prefix_cons_inv_2 in Hd. subst mv.
    change (apply_moves (?a :: d) m) with (apply_moves d (apply_move a m)). cbn [apply_move].
    assert (Hr : reach k = S (Z.to_nat (k - 1)) ∧ h = reach k).
    { unfold reach, probeLimit in *. destruct (0 <? k) eqn:E, (Z.eqb_spec k 0); lia. }
    destruct Hr as [Hr Hh]. rewrite Hh.
    destruct (shift_keeps base (Z.to_nat (k - 1)) d (delete (rot (reach k)) m) p c)
      as [|(n & _ & ? & ?)]; [done| |by rewrite <- Hr|by left|right; eauto].
    by rewrite lookup_delete_ne.
  - destruct (shift_keeps base h d m p c) as [|(n & _ & ? & ?)]; [done|done| |by left|right; eauto].
    intros ->. destruct (decide (S h ≤ probeLimit k)%nat) as [Hs|Hs].
    + by rewrite Habove in Hc by lia.
    + apply Hp. f_equal. unfold reach, probeLimit in *.
      destruct (0 <? k) eqn:E, (Z.eqb_spec k 0); lia.
Qed.

Lemma rotation_keeps k m d p c :
  0 <= k → d `prefix_of` rotation_moves base k m → m !! p = Some c → p ≠ rot (reach k) →
  kept p c (apply_moves d m).
Proof.
  intros Hk Hd Hc Hp. rewrite rotation_moves_split in Hd.
  assert (Hcases : d `prefix_of` first_moves k m ∨ d = first_moves k m ++ [Rename base (rot 1)]).
  { destruct Hd as [tl Htl]. destruct tl as [|x tl _] using rev_ind.
    - right. by rewrite app_nil_r in Htl.
    - rewrite app_assoc in Htl. apply app_inj_tail in Htl as [-> _]. left. by exists tl. }
  destruct Hcases as [Hd'| ->].
  { destruct (first_moves_keep k m d p c) as [|?]; try done; [by left|by right; right]. }
  rewrite apply_moves_app. destruct (first_moves_lookup k m Hk) as (H1 & _).
  destruct (first_moves_keep k m (first_moves k m) p c) as [Hq|(n & -> & Hq)]; try done.
  all: set (m1 := apply_moves (first_moves k m) m) in *.
  all: assert (Hm : ∀ q, apply_moves [Rename base (rot 1)] m1 !! q = _)
    by (intros q; apply last_move_lookup, H1).
  - destruct (decide (p = base)) as [->|Hb].
    + right. left. split; [done|]. rewrite Hm, decide_False by apply rotatedPath_base.
      by rewrite decide_True.
    + left. rewrite Hm, decide_False by done. rewrite decide_False; [done|]. intros ->. congruence.
  - right. right. exists n. split; [done|]. rewrite Hm, decide_False by apply rotatedPath_base.
    rewrite decide_False; [done|]. intros E. rewrite E in Hq. congruence.
Qed.
End chain.

Section theorems.
Context `{LogEnv}.

(** C12. Rotating one file when no call fails: the code returns success, and
    whatever gaps the chain has, the active file has become generation 1 and each
    generation below the limit has moved up by one. With a limit the generation at
    the limit is overwritten or dropped, and those beyond it, if there are any, are
    neither deleted nor moved; with [max_files = 0] the limit is 1000 and generation
    1000 moves up like the others, so that 1001 are kept. No other file changes. *)
Theorem shiftFiles_rotates base w :
  os_faults (w_os w) = [] → 0 <= oc_maxFiles (m_cfg (w_sink w)) →
  ∃ w', shiftFiles base w = Ret (true, w') ∧ w_sink w' = w_sink w ∧
        rotated base (oc_maxFiles (m_cfg (w_sink w))) (os_files (w_os w)) (os_files (w_os w')).
Proof.
  intros Hn Hk. destruct (shiftFiles_spec base w) as (ok & w' & He & _ & Hok & d & _ & Hf & Hs).
  rewrite (Hok Hn) in *. destruct Hs as (-> & Hs & _). exists w'. rewrite Hf.
  split_and!; [done|done|]. by apply rotation_moves_rotated.
Qed.

(** Rotating one file when any of its calls may fail: the code returns, and
    every file is still there with all it held, under its own name or under the
    name of the next generation, except the generation the limit drops; when it
    does not succeed, the sink is out of service. *)
Theorem shiftFiles_keeps base w p c :
  0 <= oc_maxFiles (m_cfg (w_sink w)) →
  os_files (w_os w) !! p = Some c → p ≠ rotatedPath base (reach (oc_maxFiles (m_cfg (w_sink w)))) →
  ∃ ok w', shiftFiles base w = Ret (ok, w') ∧ kept base p c (os_files (w_os w')) ∧
           (ok = false → out_of_service (os_now (w_os w)) (w_sink w) (w_sink w')).
Proof.
  intros Hk Hc Hp. destruct (shiftFiles_spec base w) as (ok & w' & He & _ & Hok & d & Hd & Hf & Hs).
  exists ok, w'. rewrite Hf. split_and!; [done|by eapply rotation_keeps|]. by intros ->.
Qed.

(** [max_files = 0] keeps one generation more than the 1000 it is documented
    to keep: generation 1000 becomes generation 1001, over the one already there. *)
Theorem unlimited_keeps_1001 base w c :
  os_faults (w_os w) = [] → oc_maxFiles (m_cfg (w_sink w)) = 0 →
  os_files (w_os w) !! rotatedPath base 1000 = Some c →
  ∃ w', shiftFiles base w = Ret (true, w') ∧
        os_files (w_os w') !! rotatedPath base 1001 = Some c.
Proof.
  intros Hn Hk Hc. destruct (shiftFiles_spec base w) as (ok & w' & He & _ & Hok & d & _ & Hf & Hs).
  rewrite (Hok Hn) in *. destruct Hs as (-> & Hs & _). exists w'. split; [done|].
  rewrite Hf, Hk. destruct (rotation_moves_rotated base 0 (os_files (w_os w))) as (_ & _ & _ & H1001 & _);
    [done|]. specialize (H1001 eq_refl).
  change (probeLimit 0) with 1000%nat in H1001. by rewrite H1001, Hc.
Qed.

(** Only the generation at the limit is ever deleted: those beyond it, which
    a larger [max_files] once wrote, are neither deleted nor moved. *)
Theorem beyond_limit_untouched base w n :
  os_faults (w_os w) = [] → 0 < oc_maxFiles (m_cfg (w_sink w)) →
  (Z.to_nat (oc_maxFiles (m_cfg (w_sink w))) < n)%nat →
  ∃ w', shiftFiles base w = Ret (true, w') ∧
        os_files (w_os w') !! rotatedPath base n = os_files (w_os w) !! rotatedPath base n.
Proof.
  intros Hn Hk Hlt. destruct (shiftFiles_spec base w) as (ok & w' & He & _ & Hok & d & _ & Hf & Hs).
  rewrite (Hok Hn) in *. destruct Hs as (-> & Hs & _). exists w'. split; [done|]. rewrite Hf.
  destruct (rotation_moves_rotated base (oc_maxFiles (m_cfg (w_sink w))) (os_files (w_os w)))
    as (_ & _ & _ & _ & Hp); [lia|].
  apply Hp; [apply rotatedPath_base|]. intros i Hi. apply rot_ne. unfold reach, probeLimit in Hi.
  destruct (Z.eqb_spec (oc_maxFiles (m_cfg (w_sink w))) 0), (0 <? oc_maxFiles (m_cfg (w_sink w))) eqn:E; lia.
Qed.

End theorems.

(** ** A concrete rotation *)

Definition base0 : bytes := lit "/l/a.log".
Definition rotating_sink (maxFiles : Z) : Sink :=
  new_LogFile (mkOutput (lit "main") base0 [] 100 maxFiles [] [] true) 30000.
Definition rotating_world (maxFiles : Z) (files : list (bytes * bytes)) : World :=
  mkWorld (mkOs (list_to_map files) [] 0 []) (rotating_sink maxFiles).

(** A chain with a gap at generation 2 and a limit of 3. *)
Definition chain_world : World :=
  rotating_world 3 [(base0, lit "now"); (rotatedPath base0 1, lit "one");
                    (rotatedPath base0 3, lit "three"); (rotatedPath base0 4, lit "four")].

Example chain_rotation :
  match @shiftFiles example_env base0 chain_world with
  | Ret (true, w') =>
      (λ n, os_files (w_os w') !! rotatedPath base0 n) <$> [1; 2; 3; 4]%nat =
        [Some (lit "now"); Some (lit "one"); None; Some (lit "four")] ∧
      os_files (w_os w') !! base0 = None
  | _ => False
  end.
Proof. vm_compute. auto. Qed.

Lemma shiftFiles_rotates_witness :
  ∃ w', @shiftFiles example_env base0 chain_world = Ret (true, w') ∧ w_sink w' = w_sink chain_world ∧
        rotated base0 3 (os_files (w_os chain_world)) (os_files (w_os w')).
Proof. apply (@shiftFiles_rotates example_env base0 chain_world); vm_compute; congruence. Defined.

Lemma shiftFiles_keeps_witness :
  ∃ ok w', @shiftFiles example_env base0 chain_world = Ret (ok, w') ∧
    kept base0 base0 (lit "now") (os_files (w_os w')) ∧
    (ok = false → out_of_service (os_now (w_os chain_world)) (w_sink chain_world) (w_sink w')).
Proof.
  apply (@shiftFiles_keeps example_env base0 chain_world base0 (lit "now"));
    [vm_compute; congruence|vm_compute; reflexivity|vm_compute; congruence].
Defined.

Lemma unlimited_keeps_1001_witness :
  ∃ w', @shiftFiles example_env base0 (rotating_world 0 [(rotatedPath base0 1000, lit "oldest")])
          = Ret (true, w') ∧
        os_files (w_os w') !! rotatedPath base0 1001 = Some (lit "oldest").
Proof.
  apply (@unlimited_keeps_1001 example_env base0
           (rotating_world 0 [(rotatedPath base0 1000, lit "oldest")])); vm_compute; reflexivity.
Defined.

Lemma beyond_limit_untouched_witness :
  ∃ w', @shiftFiles example_env base0 chain_world = Ret (true, w') ∧
        os_files (w_os w') !! rotatedPath base0 4 = os_files (w_os chain_world) !! rotatedPath base0 4.
Proof.
  apply (@beyond_limit_untouched example_env base0 chain_world 4);
    [vm_compute; reflexivity|vm_compute; reflexivity|].
  apply (proj1 (Nat.ltb_lt _ _)). vm_compute. reflexivity.
Defined.
