(* ===== verification/Lifecycle.v ===== *)
(** * The life of a sink

    Every handler of [LogFile], under every pattern of failing calls: the
    invariant between the members and the disk, what a write leaves in the files,
    how large they get, and how a sink leaves and re-enters service. *)

From S2P Require Import Prelude Names Parser Platform Config Escape Backoff FileSystem LogFile LogFileSpec Rotation.

(** ** The invariant *)

(** What [loadConfig] guarantees of the section. *)
Definition valid_sink (s : Sink) : Prop :=
  file_of Text s ≠ file_of Jsonl s ∧ 0 <= oc_maxSize (m_cfg s).

Record Inv (w : World) : Prop := {
  inv_valid : valid_sink (w_sink w);
  inv_streams : in_service (w_os w) (w_sink w) ∨ ∀ wh, detached wh (w_sink w);
  inv_closed : m_closed (w_sink w) = true → ∀ wh, detached wh (w_sink w);
  inv_retry : m_retryTimer (w_sink w) = m_closed (w_sink w) && negb (m_shuttingDown (w_sink w));
  inv_down : m_shuttingDown (w_sink w) = true → m_closed (w_sink w) = true;
  inv_started : m_startingUp (w_sink w) = false;
  inv_recovery : m_closed (w_sink w) = false → SinkRecovery.closed (m_recovery (w_sink w)) = false
}.

(** Files that appear elsewhere are no concern of a sink. *)
Lemma Inv_grows os os' s :
  Inv (mkWorld os s) → grows (os_files os) (os_files os') → Inv (mkWorld os' s).
Proof.
  intros [] Hg. constructor; try done. destruct inv_streams0; [left|by right].
  by eapply in_service_grows.
Qed.

(** The members a handler never changes. *)
Definition same_config (s s' : Sink) : Prop :=
  m_cfg s' = m_cfg s ∧ m_retryInterval s' = m_retryInterval s.
Lemma same_config_file wh s s' : same_config s s' → file_of wh s' = file_of wh s.
Proof. intros [Hc _]. destruct wh; cbn; by rewrite Hc. Qed.

Lemma same_config_valid s s' : same_config s s' → valid_sink s → valid_sink s'.
Proof.
  intros Hc [Hf Hm]. split; [by rewrite !(same_config_file _ _ _ Hc)|]. by destruct Hc as [-> _].
Qed.

(** Going out of service from an open sink, or one that was being opened. *)
Lemma Inv_out w w' :
  valid_sink (w_sink w) → m_startingUp (w_sink w) = false → m_shuttingDown (w_sink w) = false →
  out_of_service (os_now (w_os w)) (w_sink w) (w_sink w') →
  Inv w' ∧ same_config (w_sink w) (w_sink w') ∧ m_closed (w_sink w') = true ∧
  m_retryTimer (w_sink w') = true.
Proof.
  intros Hf Hst Hsd [Hcfg Hint Htimer Hrec Hcl Hdown Hstart Hdet]. rewrite Hst, Hsd in *. cbn in *.
  assert (Hc : same_config (w_sink w) (w_sink w')) by done.
  split; [|done]. constructor; try done; rewrite ?Htimer, ?Hcl, ?Hdown; try done.
  - by eapply same_config_valid.
  - by right.
Qed.

Lemma Inv_members w w' :
  Inv w → same_members (w_sink w) (w_sink w') → in_service (w_os w') (w_sink w') →
  m_closed (w_sink w) = false → Inv w' ∧ same_config (w_sink w) (w_sink w').
Proof.
  intros [] (C & I & T & R & Cl & D & St) Hin Hcl.
  assert (Hc : same_config (w_sink w) (w_sink w')) by done. split; [|done].
  constructor; rewrite ?T, ?Cl, ?D, ?St, ?R; auto; [by eapply same_config_valid|congruence].
Qed.

Section lifecycle.
Context `{LogEnv}.

Lemma closeFiles_spec w :
  wp closeFiles w (λ _ w', w_os w' = w_os w ∧ same_members (w_sink w) (w_sink w') ∧
                           ∀ wh, detached wh (w_sink w')).
Proof.
  unfold closeFiles, close_one. wp_go. rewrite !closed_file_id. split; [done|].
  split; [done|]. by intros [].
Qed.

(** ** Rotating *)

Definition rotate_map (k : Z) (file : bytes) (m : gmap bytes bytes) : gmap bytes bytes :=
  if sv_empty file then m else apply_moves (rotation_moves file k m) m.

Lemma shift_one_spec wh w :
  wp (shift_one wh) w (λ ok w',
    fewer_faults (w_os w) (w_os w') ∧ (os_faults (w_os w) = [] → ok = true) ∧
    if ok : bool then w_sink w' = w_sink w ∧
      os_files (w_os w') = rotate_map (oc_maxFiles (m_cfg (w_sink w))) (file_of wh (w_sink w))
                             (os_files (w_os w))
    else out_of_service (os_now (w_os w)) (w_sink w) (w_sink w')).
Proof.
  unfold shift_one, rotate_map. wp_go. destruct (sv_empty _); [by wp_go|].
  eapply wp_impl; [apply shiftFiles_spec|]. intros ok w' (Hq & Hok & d & Hd & Hf & Ho).
  split_and!; [done|done|]. destruct ok; [|done]. destruct Ho as (-> & ? & ?). done.
Qed.

(** The disk after a successful [rotate]. *)
Definition rotate_disk (s : Sink) (m : gmap bytes bytes) : gmap bytes bytes :=
  let k := oc_maxFiles (m_cfg s) in
  touch_if (file_of Jsonl s) (touch_if (file_of Text s)
    (rotate_map k (file_of Jsonl s) (rotate_map k (file_of Text s) m))).

Lemma rotate_spec w :
  wp rotate w (λ _ w',
    fewer_faults (w_os w) (w_os w') ∧
    ((same_members (w_sink w) (w_sink w') ∧ in_service (w_os w') (w_sink w') ∧
      os_files (w_os w') = rotate_disk (w_sink w) (os_files (w_os w)))
     ∨ (os_faults (w_os w) ≠ [] ∧ out_of_service (os_now (w_os w)) (w_sink w) (w_sink w')))).
Proof.
  unfold rotate. apply wp_bind. eapply wp_impl; [apply closeFiles_spec|].
  intros [] w1 (Hos1 & Hm1 & Hd1). apply wp_bind. eapply wp_impl; [apply shift_one_spec|].
  rewrite Hos1. intros ok w2 (Hq2 & Hok2 & H2). destruct ok; wp_go.
  2: { split; [done|]. right. split; [intros Hn; by apply Hok2 in Hn|].
    by eapply out_of_service_members. }
  destruct H2 as [Hs2 Hf2]. eapply wp_impl; [apply shift_one_spec|].
  intros ok w3 (Hq3 & Hok3 & H3).
  assert (Hq13 : fewer_faults (w_os w) (w_os w3)) by by eapply fewer_faults_trans.
  rewrite Hs2 in *. destruct ok; wp_go.
  2: { split; [done|]. right. split; [intros Hn; apply Hq2 in Hn; by apply Hok3 in Hn|].
    eapply out_of_service_members; [done|]. by destruct Hq2 as [<- _]. }
  destruct H3 as [Hs3 Hf3]. eapply wp_impl; [apply openFiles_spec; by rewrite Hs3|].
  intros [] w4 (Hq4 & _ & H4). split; [by eapply fewer_faults_trans|]. rewrite Hs3 in H4.
  destruct H4 as [(Hm4 & Hin & _ & Hf4)|[Hne Hout]].
  - left. split; [by eapply same_members_trans|]. split; [done|].
    rewrite Hf4, Hf3, Hf2, !(same_members_file _ _ _ Hm1). unfold rotate_disk.
    by destruct Hm1 as [-> _].
  - right. split; [intros Hn; by apply Hne, Hq13|]. eapply out_of_service_members; [done|].
    by destruct Hq13 as [<- _].
Qed.

Definition due (s : Sink) : bool :=
  negb (oc_maxSize (m_cfg s) =? 0) &&
  ((oc_maxSize (m_cfg s) <=? m_textSize s) || (oc_maxSize (m_cfg s) <=? m_jsonlSize s)).

Lemma rotateIfNeeded_spec w :
  wp rotateIfNeeded w (λ _ w',
    if due (w_sink w) then
      fewer_faults (w_os w) (w_os w') ∧
      ((same_members (w_sink w) (w_sink w') ∧ in_service (w_os w') (w_sink w') ∧
        os_files (w_os w') = rotate_disk (w_sink w) (os_files (w_os w)))
       ∨ (os_faults (w_os w) ≠ [] ∧ out_of_service (os_now (w_os w)) (w_sink w) (w_sink w')))
    else w' = w).
Proof.
  unfold rotateIfNeeded, due. apply wp_bind, wp_this. destruct (_ =? 0); cbn [negb andb]; [by wp_go|].
  wp_go. destruct (_ || _); [apply rotate_spec|by wp_go].
Qed.
(** ** Writing *)

Lemma fs_append_spec p data os c :
  os_files os !! p = Some c →
  let '(ok, os') := fs_append p data os in
  fewer_faults os os' ∧ os_log os' = os_log os ∧ (os_faults os = [] → ok = true) ∧
  ∃ k, os_files os' = <[p := c ++ take k data]> (os_files os) ∧
       (ok = true → take k data = data).
Proof.
  intros Hc. unfold fs_append. destruct (next_fault_spec os) as (Hf & Hq & Hl & Hn).
  destruct (next_fault os) as [[k|] os'] eqn:E; cbn [snd] in *; rewrite Hf, Hc; cbn.
  - split_and!; try done. { intros H'. apply Hn in H'. congruence. } by exists k.
  - split_and!; try done. exists (length data). by rewrite firstn_all.
Qed.

(** One record written to a file that is open; a failure leaves a part of it. *)
Definition wrote (wh : Which) (line : bytes) (w w' : World) : Prop :=
  if st_open (stream_of wh (w_sink w)) then
    ∃ c, os_files (w_os w) !! file_of wh (w_sink w) = Some c ∧
         os_files (w_os w') = <[file_of wh (w_sink w) := c ++ line]> (os_files (w_os w)) ∧
         w_sink w' = set_file wh (mkStream true true) (u64 (zlen (c ++ line))) (w_sink w)
  else w' = w.

Lemma write_one_spec wh record r w :
  record = Ret r → detached wh (w_sink w) ∨ attached wh (w_os w) (w_sink w) →
  wp (write_one wh record) w (λ ok w',
    fewer_faults (w_os w) (w_os w') ∧ (os_faults (w_os w) = [] → ok = true) ∧
    if ok : bool then wrote wh (r ++ [x0a]) w w'
    else out_of_service (os_now (w_os w)) (w_sink w) (w_sink w')).
Proof.
  intros -> Hst. unfold write_one, wrote. wp_go. destruct Hst as [[-> _]|[-> (c & Hc & Hn)]].
  { wp_go. done. }
  wp_go. eapply wp_pure; [done|]. wp_go.
  pose proof (fs_append_spec (file_of wh (w_sink w)) (r ++ [x0a]) (w_os w) c Hc) as Ha.
  destruct (fs_append _ _ (w_os w)) as [ok os1]. destruct Ha as (Hq & Hl & Hok & k & Hf & Hk).
  wp_go. destruct ok; wp_go.
  - split_and!; try done. exists c. rewrite Hn, u64_add_l. split_and!; [done| |].
    + by rewrite Hf, Hk.
    + do 2 f_equal. unfold zlen. rewrite !length_app. lia.
  - eapply wp_impl; [apply failSink_spec|]. intros [] w' ((Hf' & Hd) & Hs). wp_go. cbn [w_os w_sink] in *.
    split; [eapply fewer_faults_trans; [done|by apply same_disk_faults]|].
    split; [intros Hn'; by apply Hok in Hn'|]. eapply out_of_service_set. rewrite Hs.
    destruct Hq as [<- _]. apply failed_out_of_service.
Qed.

Lemma wrote_members wh line w w' : wrote wh line w w' → same_members (w_sink w) (w_sink w').
Proof.
  unfold wrote. destruct (st_open _); [|by intros ->].
  intros (c & _ & _ & ->). apply same_members_set.
Qed.

Lemma wrote_in_service wh line w w' :
  file_of Text (w_sink w) ≠ file_of Jsonl (w_sink w) →
  in_service (w_os w) (w_sink w) → wrote wh line w w' → in_service (w_os w') (w_sink w').
Proof.
  intros Hne Hin Hw wh'. pose proof (wrote_members _ _ _ _ Hw) as Hm.
  rewrite (same_members_file _ _ _ Hm). specialize (Hin wh') as Hin'. unfold wrote in Hw.
  destruct (st_open (stream_of wh (w_sink w))) eqn:Ho; [|by subst w'].
  destruct Hw as (c & Hc & Hf & Hs). destruct (decide (file_of wh' (w_sink w) = file_of wh (w_sink w))) as [E|E].
  - assert (wh' = wh) as -> by (destruct wh, wh'; congruence).
    destruct (sv_empty (file_of wh (w_sink w))); [destruct Hin'; congruence|].
    rewrite Hs. split; [by destruct wh|]. exists (c ++ line).
    rewrite file_of_set, Hf, lookup_insert_eq. split; [done|by destruct wh].
  - assert (wh' ≠ wh) by by intros ->.
    destruct (sv_empty (file_of wh' (w_sink w))).
    + rewrite Hs. by destruct wh, wh'.
    + destruct Hin' as [Hst (c' & Hc' & Hn)]. rewrite Hs. split; [by destruct wh, wh'|].
      exists c'. rewrite file_of_set, Hf, lookup_insert_ne by done. split; [done|by destruct wh, wh'].
Qed.

(** ** Handlers *)

Definition jsonl_of (msg : SyslogMessage) (rcv r : bytes) : Prop := toJsonlRecord msg rcv = Ret r.

Lemma optStr_returns o : ∃ r, optStr o = Ret r.
Proof.
  destruct o as [s|]; cbn; [|eauto]. destruct (sanitizeUtf8_returns s) as (t & -> & _). cbn. eauto.
Qed.
Lemma toJsonlRecord_returns msg rcv : ∃ r, toJsonlRecord msg rcv = Ret r.
Proof.
  unfold toJsonlRecord.
  repeat match goal with |- context [optStr ?o ≫= _] =>
    let r := fresh "r" in let E := fresh "E" in
    destruct (optStr_returns o) as [r E]; rewrite E; cbn [mbind M_bind] end.
  destruct (sanitizeUtf8_returns (message msg)) as (t & -> & _). cbn. eauto.
Qed.

Lemma in_service_either os s wh : in_service os s → detached wh s ∨ attached wh os s.
Proof. intros Hin. specialize (Hin wh). destruct (sv_empty _); auto. Qed.

Lemma detached_write_noop wh record r w :
  record = Ret r → detached wh (w_sink w) → wp (write_one wh record) w (λ ok w', ok = true ∧ w' = w).
Proof. intros _ [Ho _]. unfold write_one. wp_go. rewrite Ho. wp_go. done. Qed.

Lemma detached_not_due s : valid_sink s → (∀ wh, detached wh s) → due s = false.
Proof.
  intros [_ Hmax] Hd. destruct (Hd Text) as [_ Ht], (Hd Jsonl) as [_ Hj]. cbn in Ht, Hj.
  unfold due. rewrite Ht, Hj. lia.
Qed.

(** The message is one this sink writes. *)
Definition wanted (msg : SyslogMessage) (s : Sink) : bool :=
  negb (bool_decide (protocol msg = Unknown) && negb (oc_includeMalformed (m_cfg s))).

Definition need_open (s : Sink) : bool :=
  (negb (sv_empty (oc_textFile (m_cfg s))) && negb (st_open (m_textStream s))) ||
  (negb (sv_empty (oc_jsonlFile (m_cfg s))) && negb (st_open (m_jsonlStream s))).

Lemma need_open_in_service os s : in_service os s → need_open s = false.
Proof.
  intros Hin. unfold need_open. pose proof (Hin Text) as Ht. pose proof (Hin Jsonl) as Hj.
  cbn in Ht, Hj. destruct (sv_empty (oc_textFile _)), (sv_empty (oc_jsonlFile _)); cbn in *; try done;
    repeat match goal with Hs : attached _ _ _ |- _ => destruct Hs as [Hs _]; cbn in Hs; rewrite Hs end;
    done.
Qed.
Lemma need_open_detached s : valid_sink s → (∀ wh, detached wh s) → need_open s = true.
Proof.
  intros [Hne _] Hd. unfold need_open. destruct (Hd Text) as [Ht _], (Hd Jsonl) as [Hj _].
  cbn in Ht, Hj, Hne. rewrite Ht, Hj.
  destruct (oc_textFile _), (oc_jsonlFile _); done.
Qed.

(** The disk once the sink's files are open. *)
Definition open_disk (s : Sink) (m : gmap bytes bytes) : gmap bytes bytes :=
  touch_if (file_of Jsonl s) (touch_if (file_of Text s) m).
Lemma open_disk_in_service os s : in_service os s → open_disk s (os_files os) = os_files os.
Proof.
  intros Hin. unfold open_disk, touch_if. pose proof (Hin Text) as Ht. pose proof (Hin Jsonl) as Hj.
  destruct (sv_empty (file_of Text s)); [|rewrite touch_idemp by (destruct Ht as [_ (c & -> & _)]; eauto)];
  (destruct (sv_empty (file_of Jsonl s)); [done|apply touch_idemp; destruct Hj as [_ (c & -> & _)]; eauto]).
Qed.

(** A write that meets no failure: the files are opened if need be, rotated if
    one of them is full, and get one record each. *)
Definition doWrite_disk (s0 : Sink) (w w' : World) (line record : bytes) : Prop :=
  ∃ w0 w1 w2,
    (in_service (w_os w0) (w_sink w0) ∧ same_members (w_sink w) (w_sink w0) ∧
     os_files (w_os w0) = open_disk s0 (os_files (w_os w))) ∧
    (in_service (w_os w1) (w_sink w1) ∧ same_members (w_sink w) (w_sink w1) ∧
     if due (w_sink w0) then os_files (w_os w1) = rotate_disk s0 (os_files (w_os w0)) else w1 = w0) ∧
    wrote Text line w1 w2 ∧ wrote Jsonl record w2 w'.

Definition wrote_or_out (w w' : World) (line record : bytes) : Prop :=
  fewer_faults (w_os w) (w_os w') ∧
  (doWrite_disk (w_sink w) w w' line record ∧ Inv w' ∧ same_config (w_sink w) (w_sink w') ∧
     m_closed (w_sink w') = false
   ∨ os_faults (w_os w) ≠ [] ∧ Inv w' ∧ same_config (w_sink w) (w_sink w') ∧
     m_closed (w_sink w') = true ∧ m_retryTimer (w_sink w') = true).

(** The last step: both records, from a sink in service. *)
Lemma write_both_spec w w1 trec t jrec j :
  trec = Ret t → jrec = Ret j →
  valid_sink (w_sink w) → in_service (w_os w1) (w_sink w1) → same_members (w_sink w) (w_sink w1) →
  m_startingUp (w_sink w) = false → m_shuttingDown (w_sink w) = false → os_now (w_os w1) = os_now (w_os w) →
  wp (ok ← write_one Text trec; if ok : bool then write_one Jsonl jrec;; mret tt else mret tt) w1
     (λ _ w', fewer_faults (w_os w1) (w_os w') ∧
        ((∃ w2, wrote Text (t ++ [x0a]) w1 w2 ∧ wrote Jsonl (j ++ [x0a]) w2 w' ∧
                in_service (w_os w') (w_sink w') ∧ same_members (w_sink w) (w_sink w')) ∨
         (os_faults (w_os w1) ≠ [] ∧ out_of_service (os_now (w_os w)) (w_sink w) (w_sink w')))).
Proof.
  intros Ht Hj Hv Hin Hm Hst Hsd Hnow. apply wp_bind.
  eapply wp_impl; [apply (write_one_spec Text _ _ _ Ht); by apply in_service_either|].
  intros ok w2 (Hq2 & Hok2 & H2). destruct ok; wp_go.
  2: { split; [done|]. right. split; [intros Hn; by apply Hok2 in Hn|].
    rewrite <- Hnow. by eapply out_of_service_members. }
  assert (Hne : file_of Text (w_sink w1) ≠ file_of Jsonl (w_sink w1))
    by (rewrite !(same_members_file _ _ _ Hm); apply Hv).
  pose proof (wrote_members _ _ _ _ H2) as Hm2.
  assert (Hin2 : in_service (w_os w2) (w_sink w2)) by by eapply wrote_in_service.
  assert (Hmm2 : same_members (w_sink w) (w_sink w2)) by by eapply same_members_trans.
  eapply wp_impl; [apply (write_one_spec Jsonl _ _ _ Hj); by apply in_service_either|].
  intros ok w3 (Hq3 & Hok3 & H3). wp_go. split; [by eapply fewer_faults_trans|]. destruct ok.
  - left. exists w2. pose proof (wrote_members _ _ _ _ H3) as Hm3.
    split; [done|]. split; [done|]. split; [|by eapply same_members_trans].
    eapply wrote_in_service; [|done..]. rewrite !(same_members_file _ _ _ Hmm2). apply Hv.
  - right. split; [intros Hn; apply Hq2 in Hn; by apply Hok3 in Hn|].
    rewrite <- Hnow. destruct Hq2 as [<- _]. by eapply out_of_service_members.
Qed.

(** What follows the opening of the files in [doWrite]. *)
Definition write_tail (trec jrec : M bytes) : IO unit :=
  rotateIfNeeded;;
  ok ← write_one Text trec;
  if ok : bool then write_one Jsonl jrec;; mret tt else mret tt.

Lemma write_both_noop trec t jrec j w :
  trec = Ret t → jrec = Ret j → (∀ wh, detached wh (w_sink w)) →
  wp (ok ← write_one Text trec; if ok : bool then write_one Jsonl jrec;; mret tt else mret tt) w
     (λ _ w', w' = w).
Proof.
  intros Ht Hj Hd. apply wp_bind. eapply wp_impl; [by eapply (detached_write_noop Text)|].
  intros ok w' [-> ->]. wp_go. eapply wp_impl; [by eapply (detached_write_noop Jsonl)|].
  intros ok w' [-> ->]. by wp_go.
Qed.

Lemma write_tail_noop trec t jrec j w :
  trec = Ret t → jrec = Ret j → valid_sink (w_sink w) → (∀ wh, detached wh (w_sink w)) →
  wp (write_tail trec jrec) w (λ _ w', w' = w).
Proof.
  intros Ht Hj Hv Hd. apply wp_bind. eapply wp_impl; [apply rotateIfNeeded_spec|].
  rewrite detached_not_due by done. intros [] w1 ->. by eapply write_both_noop.
Qed.

Lemma write_tail_spec w w0 trec t jrec j :
  trec = Ret t → jrec = Ret j → Inv w → m_closed (w_sink w) = false →
  in_service (w_os w0) (w_sink w0) → same_members (w_sink w) (w_sink w0) →
  os_files (w_os w0) = open_disk (w_sink w) (os_files (w_os w)) → fewer_faults (w_os w) (w_os w0) →
  wp (write_tail trec jrec) w0 (λ _ w', wrote_or_out w w' (t ++ [x0a]) (j ++ [x0a])).
Proof.
  intros Ht Hj Hinv Hcl Hin Hm Hf Hq. pose proof Hinv as [Hv _ _ _ Hdown Hst _].
  assert (Hsd : m_shuttingDown (w_sink w) = false)
    by (destruct (m_shuttingDown (w_sink w)); [rewrite Hdown in Hcl|]; done).
  assert (Hout : ∀ w1 w', os_now (w_os w1) = os_now (w_os w) → os_faults (w_os w) ≠ [] →
    fewer_faults (w_os w) (w_os w') → out_of_service (os_now (w_os w)) (w_sink w) (w_sink w') →
    wrote_or_out w w' (t ++ [x0a]) (j ++ [x0a])).
  { intros w1 w' _ Hne Hq' Ho. split; [done|]. right. split; [done|].
    destruct (Inv_out w w') as (? & ? & ?); done. }
  assert (Hnow0 : os_now (w_os w0) = os_now (w_os w)) by apply Hq.
  apply wp_bind. eapply wp_impl; [apply rotateIfNeeded_spec|]. intros [] w1 Hrot.
  assert (Hserv : (in_service (w_os w1) (w_sink w1) ∧ same_members (w_sink w) (w_sink w1) ∧
       if due (w_sink w0) then os_files (w_os w1) = rotate_disk (w_sink w) (os_files (w_os w0)) else w1 = w0) ∧
       fewer_faults (w_os w) (w_os w1) ∨
     fewer_faults (w_os w) (w_os w1) ∧ os_faults (w_os w) ≠ [] ∧
       out_of_service (os_now (w_os w)) (w_sink w) (w_sink w1)).
  { destruct (due (w_sink w0)); [|subst w1; by left]. destruct Hrot as [Hq1 [(Hm1 & Hin1 & Hf1)|[Hne Ho]]].
    - left. split; [|by eapply fewer_faults_trans]. split; [done|]. split; [by eapply same_members_trans|].
      rewrite Hf1. unfold rotate_disk. rewrite !(same_members_file _ _ _ Hm). by destruct Hm as [-> _].
    - right. split; [by eapply fewer_faults_trans|]. split; [intros Hn; by apply Hne, Hq|].
      rewrite <- Hnow0. by eapply out_of_service_members. }
  destruct Hserv as [((Hin1 & Hm1 & Hd1) & Hq1)|(Hq1 & Hne & Ho)].
  - eapply wp_impl; [eapply (write_both_spec w w1); try done; apply Hq1|].
    intros [] w' (Hq' & Hw). assert (Hqw : fewer_faults (w_os w) (w_os w')) by by eapply fewer_faults_trans.
    destruct Hw as [(w2 & Hw1 & Hw2 & Hin' & Hm')|[Hne Ho]].
    + split; [done|]. left. destruct (Inv_members w w') as [? ?]; try done.
      split; [exists w0, w1, w2; done|]. split_and!; [done|done|].
      destruct Hm' as (_ & _ & _ & _ & -> & _). done.
    + apply (Hout w1); [apply Hq1| |done|done]. intros Hn. by apply Hne, Hq1.
  - eapply wp_impl; [eapply write_both_noop; [done|done|by destruct Ho]|].
    intros [] w' ->. by apply (Hout w1); [apply Hq1|..].
Qed.

Lemma doWrite_spec msg rcv w t j :
  escapeControlChars (raw msg) = Ret t → toJsonlRecord msg rcv = Ret j →
  Inv w → m_closed (w_sink w) = false → wanted msg (w_sink w) = true →
  wp (doWrite msg rcv) w (λ _ w', wrote_or_out w w' (t ++ [x0a]) (j ++ [x0a])).
Proof.
  intros Ht Hj Hinv Hcl Hw. pose proof Hinv as [Hv Hstr _ _ Hdown Hst _].
  unfold doWrite. wp_go. rewrite Hcl. wp_go.
  unfold wanted in Hw. apply negb_true_iff in Hw. rewrite Hw. wp_go.
  change ((negb (sv_empty (oc_textFile (m_cfg (w_sink w)))) && negb (st_open (m_textStream (w_sink w)))) ||
          (negb (sv_empty (oc_jsonlFile (m_cfg (w_sink w)))) && negb (st_open (m_jsonlStream (w_sink w)))))
    with (need_open (w_sink w)).
  destruct Hstr as [Hin|Hd].
  - rewrite (need_open_in_service _ _ Hin). apply wp_ret.
    eapply (write_tail_spec w w); try done. by rewrite open_disk_in_service.
  - rewrite need_open_detached by done. eapply wp_impl; [by apply openFiles_spec|].
    intros [] w0 (Hq & _ & [(Hm & Hin & _ & Hf)|[Hne Ho]]).
    + by eapply (write_tail_spec w w0).
    + assert (Hsd : m_shuttingDown (w_sink w) = false)
        by (destruct (m_shuttingDown (w_sink w)); [rewrite Hdown in Hcl|]; done).
      destruct (Inv_out w w0) as (Hi0 & Hc0 & Hcl0); [done..|].
      eapply wp_impl; [eapply write_tail_noop; [done|done|apply Hi0|by destruct Ho]|].
      intros [] w' ->. split; [done|]. right. done.
Qed.

(** A write to a closed sink, or of a message it does not want, changes nothing. *)
Lemma doWrite_dropped msg rcv w :
  m_closed (w_sink w) = true ∨ wanted msg (w_sink w) = false →
  wp (doWrite msg rcv) w (λ _ w', w' = w).
Proof.
  intros Hd. unfold doWrite. wp_go. destruct (m_closed (w_sink w)) eqn:Hc; [by wp_go|].
  destruct Hd as [|Hw]; [done|]. unfold wanted in Hw. apply negb_false_iff in Hw. wp_go. rewrite Hw. by wp_go.
Qed.

(** ** The strand *)

(** What can happen to a sink next: a message, the retry timer (expired, or its
    wait cancelled; an expiry already queued when [close] ran is still handled),
    a shutdown, an exception out of one of these, or a change of the clock and of
    the faults to come. *)
Inductive SinkEvent :=
| SWrite (msg : SyslogMessage) (rcv : bytes)
| STimer (cancelled : bool)
| SClose
| SException (what : bytes)
| SEnvironment (now : Z) (faults : list (option nat)).

Definition handle (e : SinkEvent) : IO unit :=
  match e with
  | SWrite msg rcv => doWrite msg rcv
  | STimer cancelled =>
      armed ← this (λ s, m_retryTimer s || m_shuttingDown s || cancelled);
      if armed : bool then onRetryTimer cancelled else mret tt
  | SClose => close
  | SException what => failSinkFromHandler what
  | SEnvironment now faults =>
      sys (λ os, (tt, mkOs (os_files os) faults now (os_log os)))
  end.

Fixpoint handle_all (es : list SinkEvent) : IO unit :=
  match es with [] => mret tt | e :: es' => handle e;; handle_all es' end.

Lemma recovered_open t r : SinkRecovery.closed (SinkRecovery.onRecovered t r).1 = false.
Proof.
  unfold SinkRecovery.onRecovered, SinkRecovery.closed.
  destruct (Z.eqb_spec (SinkRecovery.m_failures r) 0) as [E|E]; cbn; [by rewrite E|done].
Qed.

Lemma attemptReopen_spec w :
  valid_sink (w_sink w) → (∀ wh, detached wh (w_sink w)) → m_retryTimer (w_sink w) = false →
  m_shuttingDown (w_sink w) = false → m_startingUp (w_sink w) = false →
  wp attemptReopen w (λ _ w',
    Inv w' ∧ same_config (w_sink w) (w_sink w') ∧
    if m_closed (w_sink w') then os_faults (w_os w) ≠ []
    else in_service (w_os w') (w_sink w') ∧
         os_files (w_os w') = open_disk (w_sink w) (os_files (w_os w))).
Proof.
  intros Hv Hd Hr Hsd Hst. unfold attemptReopen. apply wp_bind, wp_assign, wp_bind.
  eapply wp_impl; [apply openFiles_spec; intros []; [exact (Hd Text)|exact (Hd Jsonl)]|]. wp_cbn.
  intros [] w1 (Hq & _ & H1). wp_go. destruct H1 as [(Hm & Hin & _ & Hf)|[Hne Ho]].
  - destruct Hm as (C & I & T & R & Cl & D & St). cbn in *. rewrite Cl. wp_go.
    assert (Hc : same_config (w_sink w) (w_sink w1)) by done.
    destruct (SinkRecovery.onRecovered _ _) as [r o] eqn:Hrec. wp_go. cbn. rewrite Cl.
    split_and!; [constructor; cbn|done| |done].
    + by eapply (same_config_valid (w_sink w)).
    + left. intros wh. specialize (Hin wh). by destruct wh.
    + congruence.
    + by rewrite T, Cl, Hr.
    + congruence.
    + congruence.
    + intros _. pose proof (recovered_open (os_now (w_os w1)) (m_recovery (w_sink w1))) as Hro.
      by rewrite Hrec in Hro.
    + intros wh. specialize (Hin wh). by destruct wh.
  - destruct (Inv_out (mkWorld (w_os w) (set_closed false (w_sink w))) w1) as (Hi & Hc & Hcl & _); try done.
    rewrite Hcl. wp_go. rewrite Hcl. done.
Qed.

Lemma onRetryTimer_spec cancelled w :
  Inv w → m_retryTimer (w_sink w) || m_shuttingDown (w_sink w) || cancelled = true →
  wp (onRetryTimer cancelled) w (λ _ w', Inv w' ∧ same_config (w_sink w) (w_sink w')).
Proof.
  intros Hinv Hen. pose proof Hinv as [Hv Hstr Hcl Hr Hdown Hst Hrec]. unfold onRetryTimer. apply wp_bind.
  destruct cancelled; wp_go; cbn [orb]; [by wp_go|]. destruct (m_shuttingDown (w_sink w)) eqn:Hsd.
  - cbn. rewrite Hsd. wp_go. cbn. split; [|done].
    constructor; cbn; rewrite ?Hsd; try done. by rewrite andb_false_r.
  - rewrite !orb_false_r in Hen. rewrite Hr in Hen. apply andb_true_iff in Hen as [Hc _].
    cbn. rewrite Hsd. cbn. eapply wp_impl; [apply attemptReopen_spec|]; try done.
    + intros []; [exact (Hcl Hc Text)|exact (Hcl Hc Jsonl)].
    + intros [] w' (Hi & Hc' & _). done.
Qed.

Lemma close_spec w :
  Inv w → wp close w (λ _ w', Inv w' ∧ same_config (w_sink w) (w_sink w') ∧
    m_closed (w_sink w') = true ∧ m_shuttingDown (w_sink w') = true ∧ w_os w' = w_os w).
Proof.
  intros [Hv Hstr Hcl Hr Hdown Hst Hrec]. unfold close, closeFiles, close_one. wp_go.
  cbn. rewrite !closed_file_id. split; [|done].
  constructor; cbn; try done; [right; by intros []|by intros _ []].
Qed.

Lemma failSinkFromHandler_spec what w :
  Inv w → wp (failSinkFromHandler what) w (λ _ w',
    Inv w' ∧ same_config (w_sink w) (w_sink w') ∧ m_closed (w_sink w') = true).
Proof.
  intros [Hv Hstr Hcl Hr Hdown Hst Hrec]. eapply wp_impl; [apply failSink_spec|].
  intros [] w' (_ & Hs). rewrite Hs. split; [|done].
  assert (Hd : ∀ wh, detached wh (failed (os_now (w_os w)) (w_sink w))) by by intros [].
  constructor; rewrite ?Hs; [exact Hv|by right|done| |done|done|done].
  cbn. rewrite Hst, Hr. destruct (m_shuttingDown (w_sink w)) eqn:E; cbn; [by rewrite andb_false_r|done].
Qed.

Lemma handle_Inv e w :
  Inv w → wp (handle e) w (λ _ w', Inv w' ∧ same_config (w_sink w) (w_sink w')).
Proof.
  intros Hinv. destruct e as [msg rcv|cancelled| |what|t faults]; cbn [handle].
  - destruct (m_closed (w_sink w)) eqn:Hc; [|destruct (wanted msg (w_sink w)) eqn:Hw].
    + eapply wp_impl; [apply doWrite_dropped; by left|]. by intros [] w' ->.
    + destruct (escape_returns (raw msg)) as (l & Hl & _), (toJsonlRecord_returns msg rcv) as [j Hj].
      eapply wp_impl; [by eapply doWrite_spec|]. intros [] w' (_ & [(_ & ? & ? & _)|(_ & ? & ? & _)]); done.
    + eapply wp_impl; [apply doWrite_dropped; by right|]. by intros [] w' ->.
  - apply wp_bind, wp_this. destruct (_ || cancelled) eqn:E; [by apply onRetryTimer_spec|by wp_go].
  - eapply wp_impl; [by apply close_spec|]. intros [] w' (? & ? & _). done.
  - eapply wp_impl; [by apply failSinkFromHandler_spec|]. intros [] w' (? & ? & _). done.
  - wp_go. split; [|done]. destruct Hinv. by constructor.
Qed.

Lemma handle_all_Inv es w :
  Inv w → wp (handle_all es) w (λ _ w', Inv w' ∧ same_config (w_sink w) (w_sink w')).
Proof.
  revert w. induction es as [|e es IH]; intros w Hinv; cbn [handle_all]; [by wp_go|].
  apply wp_bind. eapply wp_impl; [by apply handle_Inv|]. intros [] w1 [Hi1 Hc1].
  eapply wp_impl; [by apply IH|]. intros [] w2 [Hi2 [? ?]]. split; [done|].
  destruct Hc1. split; congruence.
Qed.

Lemma new_LogFile_Inv cfg interval os :
  oc_textFile cfg ≠ oc_jsonlFile cfg → 0 <= oc_maxSize cfg → Inv (mkWorld os (new_LogFile cfg interval)).
Proof. intros. constructor; cbn; try done. right. by intros []. Qed.
End lifecycle.
