(* ===== verification/Sinks.v ===== *)
(** * What a sink promises

    The theorems about [LogFile] a reader of the logs relies on: its invariant
    over any history of handlers and failing calls, what one message leaves in
    the files, the bound on their size, and how the sink recovers and stops. *)

From S2P Require Import Prelude Names Parser Platform Config Escape Backoff FileSystem LogFile LogFileSpec Rotation Lifecycle.

(** ** The disk after a write *)

Definition append_to (file d : bytes) (m : gmap bytes bytes) : gmap bytes bytes :=
  if sv_empty file then m else <[file := default [] (m !! file) ++ d]> m.

Definition disk_size (file : bytes) (m : gmap bytes bytes) : Z :=
  if sv_empty file then 0 else u64 (zlen (default [] (m !! file))).
(** One of the active files has reached the limit. *)
Definition disk_full (s : Sink) (m : gmap bytes bytes) : bool :=
  negb (oc_maxSize (m_cfg s) =? 0) &&
  ((oc_maxSize (m_cfg s) <=? disk_size (file_of Text s) m) ||
   (oc_maxSize (m_cfg s) <=? disk_size (file_of Jsonl s) m)).

(** One message: rotate both files if one is full, then a record in each. *)
Definition written (s : Sink) (line record : bytes) (m : gmap bytes bytes) : gmap bytes bytes :=
  append_to (file_of Jsonl s) record (append_to (file_of Text s) line
    (if disk_full s m then rotate_disk s (open_disk s m) else open_disk s m)).

Lemma in_service_size wh os s : in_service os s → size_of wh s = disk_size (file_of wh s) (os_files os).
Proof.
  intros Hin. specialize (Hin wh). unfold disk_size. destruct (sv_empty (file_of wh s)).
  - apply Hin.
  - destruct Hin as [_ (c & -> & ->)]. done.
Qed.

Lemma due_disk_full os s : in_service os s → due s = disk_full s (os_files os).
Proof.
  intros Hin. unfold due, disk_full.
  by rewrite <- (in_service_size Text os s Hin), <- (in_service_size Jsonl os s Hin).
Qed.

Lemma touch_if_default p q m : default [] (touch_if p m !! q) = default [] (m !! q).
Proof.
  unfold touch_if. destruct (sv_empty p); [done|]. destruct (decide (p = q)) as [<-|].
  - by rewrite touch_self.
  - by rewrite touch_ne.
Qed.
Lemma open_disk_default s q m : default [] (open_disk s m !! q) = default [] (m !! q).
Proof. unfold open_disk. by rewrite !touch_if_default. Qed.
Lemma disk_full_open s m : disk_full s (open_disk s m) = disk_full s m.
Proof. unfold disk_full, disk_size. by rewrite !open_disk_default. Qed.

Lemma same_members_disk s s' m :
  same_members s s' → disk_full s' m = disk_full s m ∧ open_disk s' m = open_disk s m.
Proof.
  intros Hm. unfold disk_full, open_disk. rewrite !(same_members_file _ _ _ Hm).
  by destruct Hm as [-> _].
Qed.

Lemma wrote_append wh line w w' :
  in_service (w_os w) (w_sink w) → wrote wh line w w' →
  os_files (w_os w') = append_to (file_of wh (w_sink w)) line (os_files (w_os w)).
Proof.
  intros Hin Hw. unfold wrote, append_to in *. specialize (Hin wh).
  destruct (sv_empty (file_of wh (w_sink w))).
  - destruct Hin as [Ho _]. rewrite Ho in Hw. by subst w'.
  - destruct Hin as [Hst _]. rewrite Hst in Hw. cbn in Hw. destruct Hw as (c & -> & -> & _). done.
Qed.

Section promises.
Context `{LogEnv}.

(** C10. Whatever messages arrive, however the file system fails and whenever the
    timer fires or a shutdown comes, no handler of a sink throws, loops or reads
    out of bounds, and the invariant holds: both files open or none, the size
    counters equal to the files on disk, nothing open in a closed sink, a closed
    sink always has a retry pending until shutdown, and the next outage of an
    open sink will be reported. *)
Theorem sink_invariant cfg interval os es :
  oc_textFile cfg ≠ oc_jsonlFile cfg → 0 <= oc_maxSize cfg →
  ∃ w', handle_all es (mkWorld os (new_LogFile cfg interval)) = Ret (tt, w') ∧ Inv w' ∧
        m_cfg (w_sink w') = cfg.
Proof.
  intros Hf Hm. destruct (handle_all_Inv es (mkWorld os (new_LogFile cfg interval))) as ([] & w' & He & Hi & Hc & _).
  - by apply new_LogFile_Inv.
  - exists w'. done.
Qed.

(** What a write that ends in service leaves on the disk. *)
Lemma doWrite_disk_written w w' line record :
  Inv w → doWrite_disk (w_sink w) w w' line record →
  os_files (w_os w') = written (w_sink w) line record (os_files (w_os w)).
Proof.
  intros Hinv (w0 & w1 & w2 & (Hin0 & Hm0 & Hf0) & (Hin1 & Hm1 & Hr) & H1 & H2).
  assert (Hin2 : in_service (w_os w2) (w_sink w2)).
  { eapply wrote_in_service; [|done..]. rewrite !(same_members_file _ _ _ Hm1). apply Hinv. }
  assert (Hm2 : same_members (w_sink w) (w_sink w2))
    by (eapply same_members_trans; [done|by eapply wrote_members]).
  rewrite (wrote_append _ _ _ _ Hin2 H2), (wrote_append _ _ _ _ Hin1 H1).
  rewrite (same_members_file _ _ _ Hm2), (same_members_file _ _ _ Hm1). unfold written. do 2 f_equal.
  rewrite (due_disk_full _ _ Hin0), Hf0 in Hr.
  destruct (same_members_disk _ _ (open_disk (w_sink w) (os_files (w_os w))) Hm0) as [Hfull _].
  rewrite Hfull, disk_full_open in Hr.
  destruct (disk_full _ _); [done|]. by rewrite Hr, Hf0.
Qed.

(** Every outcome of a write. *)
Lemma doWrite_written msg rcv w t j :
  escapeControlChars (raw msg) = Ret t → toJsonlRecord msg rcv = Ret j → Inv w →
  ∃ w', doWrite msg rcv w = Ret (tt, w') ∧
    if m_closed (w_sink w) || negb (wanted msg (w_sink w)) then w' = w
    else if m_closed (w_sink w') then os_faults (w_os w) ≠ []
    else os_files (w_os w') = written (w_sink w) (t ++ [x0a]) (j ++ [x0a]) (os_files (w_os w)).
Proof.
  intros Ht Hj Hinv. destruct (m_closed (w_sink w)) eqn:Hc; cbn [orb].
  { destruct (doWrite_dropped msg rcv w) as ([] & w' & He & ->); [by left|]. by exists w. }
  destruct (wanted msg (w_sink w)) eqn:Hw; cbn [negb].
  2: { destruct (doWrite_dropped msg rcv w) as ([] & w' & He & ->); [by right|]. by exists w. }
  destruct (doWrite_spec msg rcv w t j) as ([] & w' & He & _ & Hd); try done. exists w'. split; [done|].
  destruct Hd as [(Hdisk & _ & _ & ->)|(? & _ & _ & -> & _)]; [|done]. by apply doWrite_disk_written.
Qed.

Lemma doWrite_no_fault msg rcv w t j :
  escapeControlChars (raw msg) = Ret t → toJsonlRecord msg rcv = Ret j →
  Inv w → m_closed (w_sink w) = false → wanted msg (w_sink w) = true → os_faults (w_os w) = [] →
  ∃ w', doWrite msg rcv w = Ret (tt, w') ∧ Inv w' ∧ m_closed (w_sink w') = false ∧
    os_files (w_os w') = written (w_sink w) (t ++ [x0a]) (j ++ [x0a]) (os_files (w_os w)).
Proof.
  intros Ht Hj Hinv Hcl Hw Hn.
  destruct (doWrite_spec msg rcv w t j) as ([] & w' & He & _ & [(Hd & Hi' & _ & Hc')|[? _]]); try done.
  exists w'. split_and!; [done..|]. by apply doWrite_disk_written.
Qed.

(** C9. A message a sink accepts, when no call fails: doWrite returns and the
    disk is exactly the specified one. Both files are rotated first when one of
    them has reached the limit, then the text file has gained the escaped
    datagram and a newline, the JSONL file its record and a newline, and no
    other file has changed. *)
Theorem doWrite_exact msg rcv w :
  Inv w → m_closed (w_sink w) = false → wanted msg (w_sink w) = true → os_faults (w_os w) = [] →
  ∃ w' line record, doWrite msg rcv w = Ret (tt, w') ∧
    escapeControlChars (raw msg) = Ret line ∧ toJsonlRecord msg rcv = Ret record ∧
    os_files (w_os w') = written (w_sink w) (line ++ [x0a]) (record ++ [x0a]) (os_files (w_os w)) ∧
    Inv w' ∧ m_closed (w_sink w') = false.
Proof.
  intros Hinv Hcl Hw Hn.
  destruct (escape_returns (raw msg)) as (l & Hl & _), (toJsonlRecord_returns msg rcv) as [j Hj].
  destruct (doWrite_no_fault msg rcv w l j) as (w' & ? & ? & ? & ?); try done.
  by exists w', l, j.
Qed.

(** Every message handled while calls may fail either leaves exactly what it
    would without failures, in a sink still in service, or leaves the sink out
    of service with a retry pending; a closed sink, or one that does not want
    the message, changes nothing. *)
Theorem doWrite_or_out msg rcv w :
  Inv w →
  ∃ w', doWrite msg rcv w = Ret (tt, w') ∧ Inv w' ∧
    if m_closed (w_sink w) || negb (wanted msg (w_sink w)) then w' = w
    else if m_closed (w_sink w') then m_retryTimer (w_sink w') = true ∧ os_faults (w_os w) ≠ []
    else ∃ line record, escapeControlChars (raw msg) = Ret line ∧ toJsonlRecord msg rcv = Ret record ∧
         doWrite_disk (w_sink w) w w' (line ++ [x0a]) (record ++ [x0a]).
Proof.
  intros Hinv. destruct (m_closed (w_sink w)) eqn:Hc; cbn [orb].
  { destruct (doWrite_dropped msg rcv w) as ([] & w' & He & ->); [by left|]. by exists w. }
  destruct (wanted msg (w_sink w)) eqn:Hw; cbn [negb].
  2: { destruct (doWrite_dropped msg rcv w) as ([] & w' & He & ->); [by right|]. by exists w. }
  destruct (escape_returns (raw msg)) as (l & Hl & _), (toJsonlRecord_returns msg rcv) as [j Hj].
  destruct (doWrite_spec msg rcv w l j) as ([] & w' & He & _ & Hd); try done.
  exists w'. destruct Hd as [(Hdisk & Hi & Hcfg & Hc')|(Hne & Hi & Hcfg & Hc' & Hr)]; rewrite Hc'; [|done].
  split; [done|]. split; [done|]. exists l, j. done.
Qed.

(** A sink out of service comes back: when the retry timer expires and no
    call fails, its files are open again with all they held, an empty one where
    there was none, and the next outage will be reported as a new one. *)
Theorem retry_recovers w :
  Inv w → m_retryTimer (w_sink w) = true → os_faults (w_os w) = [] →
  ∃ w', handle (STimer false) w = Ret (tt, w') ∧ Inv w' ∧ m_closed (w_sink w') = false ∧
        in_service (w_os w') (w_sink w') ∧
        os_files (w_os w') = open_disk (w_sink w) (os_files (w_os w)).
Proof.
  intros Hinv Hr Hn. pose proof Hinv as [Hv Hstr Hcl Hret Hdown Hst Hrec].
  rewrite Hret in Hr. apply andb_true_iff in Hr as [Hc Hsd%negb_true_iff].
  enough (wp (handle (STimer false)) w (λ _ w', Inv w' ∧ m_closed (w_sink w') = false ∧
            in_service (w_os w') (w_sink w') ∧
            os_files (w_os w') = open_disk (w_sink w) (os_files (w_os w)))) as ([] & w' & ? & ? & ?)
    by by exists w'.
  cbn [handle]. apply wp_bind, wp_this. rewrite Hret, Hc, Hsd. cbn [negb andb orb].
  unfold onRetryTimer. wp_go. cbn [set_retryTimer m_shuttingDown]. rewrite Hsd. cbn [orb].
  eapply wp_impl; [apply attemptReopen_spec|]; try done.
  - intros []; [exact (Hcl Hc Text)|exact (Hcl Hc Jsonl)].
  - intros [] w' (Hi & _ & Hw). destruct (m_closed (w_sink w')); [done|]. done.
Qed.

Lemma down_noop e w :
  m_closed (w_sink w) = true → m_shuttingDown (w_sink w) = true →
  wp (handle e) w (λ _ w', m_shuttingDown (w_sink w') = true ∧ os_files (w_os w') = os_files (w_os w)).
Proof.
  intros Hc Hsd. destruct e as [msg rcv|cancelled| |what|t faults]; cbn [handle].
  - eapply wp_impl; [apply doWrite_dropped; by left|]. by intros [] w' ->.
  - apply wp_bind, wp_this. rewrite Hsd, orb_true_r. cbn [orb]. unfold onRetryTimer. apply wp_bind.
    destruct cancelled; wp_go; cbn [orb set_retryTimer m_shuttingDown]; rewrite ?Hsd; by wp_go.
  - unfold close, closeFiles. wp_go. by cbn.
  - eapply wp_impl; [apply failSink_spec|]. intros [] w' ((Hf & _) & Hs). by rewrite Hs.
  - by wp_go.
Qed.

(** Shutdown is final: once close has run, no message, retry, or timer that
    was already queued touches the disk or reopens the sink. *)
Theorem shutdown_final w es :
  Inv w → m_shuttingDown (w_sink w) = true →
  ∃ w', handle_all es w = Ret (tt, w') ∧ os_files (w_os w') = os_files (w_os w) ∧
        m_closed (w_sink w') = true ∧ m_retryTimer (w_sink w') = false.
Proof.
  revert w. induction es as [|e es IH]; intros w Hinv Hsd.
  { exists w. split_and!; [done|done|by apply Hinv|].
    by rewrite (inv_retry _ Hinv), Hsd, andb_false_r. }
  destruct (wp_and _ _ _ _ (handle_Inv e w Hinv) (down_noop e w (inv_down _ Hinv Hsd) Hsd))
    as ([] & w1 & He & (Hi1 & _) & Hsd1 & Hf1).
  destruct (IH w1 Hi1 Hsd1) as (w' & Hw' & Hf' & ? & ?). exists w'. split_and!; [|congruence|done|done].
  cbn [handle_all]. unfold mbind, IO_bind. by rewrite He.
Qed.

Lemma openAtStartup_spec cfg interval os :
  oc_textFile cfg ≠ oc_jsonlFile cfg → 0 <= oc_maxSize cfg →
  wp openAtStartup (mkWorld os (new_LogFile cfg interval)) (λ ok w',
    fewer_faults os (w_os w') ∧ grows (os_files os) (os_files (w_os w')) ∧
    (os_faults os = [] → ok = true) ∧ ok = negb (m_closed (w_sink w')) ∧
    if ok : bool then in_service (w_os w') (w_sink w') ∧ Inv w'
    else (∀ wh, detached wh (w_sink w')) ∧ m_retryTimer (w_sink w') = false ∧
         m_closed (w_sink w') = true).
Proof.
  intros Hf Hmax. unfold openAtStartup. apply wp_bind, wp_assign, wp_bind.
  eapply wp_impl; [apply openFiles_spec; by intros []|].
  intros [] w1 (Hq & Hg & [(Hm & Hin & _ & _)|[Hne Ho]]); wp_go.
  - destruct Hm as (C & I & T & R & Cl & D & St). cbn in *. rewrite Cl. cbn.
    assert (Hin' : in_service (w_os w1) (set_startingUp false (w_sink w1)))
      by (intros wh; specialize (Hin wh); by destruct wh).
    split; [done|]. split; [done|]. split; [done|]. split; [done|].
    split; [done|]. constructor; cbn; rewrite ?T, ?Cl, ?D, ?R; try done; [|by left].
    split; cbn; by rewrite C.
  - destruct Ho as [C I T R Cl D St Hd]. cbn in *. rewrite Cl. cbn. split; [done|]. split; [done|].
    split; [done|]. split; [done|]. split_and!; [intros []; [exact (Hd Text)|exact (Hd Jsonl)]|done|done].
Qed.

(** Opening at startup succeeds exactly when every configured file is open
    afterwards; otherwise the failure is reported, nothing is left open and no
    retry is promised. *)
Theorem openAtStartup_decides cfg interval os :
  oc_textFile cfg ≠ oc_jsonlFile cfg → 0 <= oc_maxSize cfg →
  ∃ ok w', openAtStartup (mkWorld os (new_LogFile cfg interval)) = Ret (ok, w') ∧
    (os_faults os = [] → ok = true) ∧
    if ok then in_service (w_os w') (w_sink w') ∧ Inv w'
    else (∀ wh, detached wh (w_sink w')) ∧ m_retryTimer (w_sink w') = false ∧
         m_closed (w_sink w') = true.
Proof.
  intros Hf Hmax. destruct (openAtStartup_spec cfg interval os Hf Hmax) as (ok & w' & ? & _ & _ & ? & _ & ?).
  by exists ok, w'.
Qed.

(** ** How large the files get *)

(** No generation of one file is the other file, or a generation of it. *)
Definition separate (s : Sink) : Prop :=
  ∀ wh wh', wh ≠ wh' → ∀ n, rotatedPath (file_of wh s) n ≠ file_of wh' s ∧
                            ∀ m, rotatedPath (file_of wh s) n ≠ rotatedPath (file_of wh' s) m.
Definition record_of (wh : Which) (line record : bytes) : bytes :=
  match wh with Text => line | Jsonl => record end.

Lemma rotate_map_self k file m :
  0 <= k → sv_empty file = false →
  rotate_map k file m !! file = None ∧ rotate_map k file m !! rotatedPath file 1 = m !! file.
Proof.
  intros Hk He. unfold rotate_map. rewrite He.
  destruct (rotation_moves_rotated file k m Hk) as (? & ? & _). done.
Qed.
Lemma rotate_map_other k file m p :
  0 <= k → p ≠ file → (∀ n, p ≠ rotatedPath file n) → rotate_map k file m !! p = m !! p.
Proof.
  intros Hk Hp Hn. unfold rotate_map. destruct (sv_empty file); [done|].
  destruct (rotation_moves_rotated file k m Hk) as (_ & _ & _ & _ & Ho). apply Ho; auto.
Qed.
Lemma touch_if_other p q m : q ≠ p → touch_if p m !! q = m !! q.
Proof. intros. unfold touch_if. destruct (sv_empty p); [done|]. by apply touch_ne. Qed.
Lemma append_to_other p d q m : q ≠ p → append_to p d m !! q = m !! q.
Proof. intros. unfold append_to. destruct (sv_empty p); [done|]. by apply lookup_insert_ne. Qed.
Lemma append_to_self p d m :
  sv_empty p = false → append_to p d m !! p = Some (default [] (m !! p) ++ d).
Proof. intros Hp. unfold append_to. rewrite Hp. apply lookup_insert_eq. Qed.

Lemma rotate_disk_self s m wh :
  valid_sink s → separate s → 0 <= oc_maxFiles (m_cfg s) → sv_empty (file_of wh s) = false →
  default [] (rotate_disk s m !! file_of wh s) = [] ∧
  rotate_disk s m !! rotatedPath (file_of wh s) 1 = m !! file_of wh s.
Proof.
  intros [Hne _] Hsep Hk He. unfold rotate_disk. rewrite !touch_if_default.
  assert (Hr : ∀ w1 w2, rotatedPath (file_of w1 s) 1 ≠ file_of w2 s).
  { intros w1 w2. destruct (decide (w1 = w2)) as [->|Hw]; [apply rotatedPath_base|].
    by apply Hsep. }
  rewrite !touch_if_other by apply Hr.
  destruct wh.
  - destruct (rotate_map_self (oc_maxFiles (m_cfg s)) (file_of Text s) m) as [H1 H2]; [done..|].
    rewrite (rotate_map_other _ (file_of Jsonl s) _ (file_of Text s)), H1;
      [|done|done|intros n; apply not_eq_sym; by apply Hsep].
    rewrite rotate_map_other; [done|done|apply Hr|intros n; by apply Hsep].
  - destruct (rotate_map_self (oc_maxFiles (m_cfg s)) (file_of Jsonl s)
                (rotate_map (oc_maxFiles (m_cfg s)) (file_of Text s) m)) as [H1 H2]; [done..|].
    rewrite H1, H2. split; [done|]. apply rotate_map_other; [done|by apply not_eq_sym|].
    intros n. apply not_eq_sym. by apply Hsep.
Qed.

Lemma written_self s m line record wh :
  valid_sink s → sv_empty (file_of wh s) = false →
  written s line record m !! file_of wh s =
  Some (default [] ((if disk_full s m then rotate_disk s (open_disk s m) else open_disk s m)
                    !! file_of wh s) ++ record_of wh line record).
Proof.
  intros [Hne _] He. unfold written. destruct wh; cbn [record_of].
  - rewrite append_to_other by done. by apply append_to_self.
  - rewrite append_to_self by done. by rewrite append_to_other by (by apply not_eq_sym).
Qed.

(** C30. Rotation bounds the files: after any message a sink wrote, each active
    file is what it held before, less than [max_size], or nothing when the files
    were rotated, and that one record; and when they were rotated, what it held
    is in generation 1. *)
Theorem doWrite_bounded msg rcv w wh :
  Inv w → m_closed (w_sink w) = false → wanted msg (w_sink w) = true → os_faults (w_os w) = [] →
  separate (w_sink w) → 0 < oc_maxSize (m_cfg (w_sink w)) → 0 <= oc_maxFiles (m_cfg (w_sink w)) →
  sv_empty (file_of wh (w_sink w)) = false →
  zlen (default [] (os_files (w_os w) !! file_of wh (w_sink w))) < 2 ^ 64 →
  ∃ w' line record before, doWrite msg rcv w = Ret (tt, w') ∧
    escapeControlChars (raw msg) = Ret line ∧ toJsonlRecord msg rcv = Ret record ∧
    os_files (w_os w') !! file_of wh (w_sink w) =
      Some (before ++ record_of wh (line ++ [x0a]) (record ++ [x0a])) ∧
    zlen before < oc_maxSize (m_cfg (w_sink w)) ∧
    if disk_full (w_sink w) (os_files (w_os w)) then
      before = [] ∧
      os_files (w_os w') !! rotatedPath (file_of wh (w_sink w)) 1 =
        Some (default [] (os_files (w_os w) !! file_of wh (w_sink w)))
    else before = default [] (os_files (w_os w) !! file_of wh (w_sink w)).
Proof.
  intros Hinv Hcl Hw Hn Hsep Hmax Hk He Hlen. pose proof (inv_valid _ Hinv) as Hv.
  destruct (escape_returns (raw msg)) as (l & Hl & _), (toJsonlRecord_returns msg rcv) as [j Hj].
  destruct (doWrite_no_fault msg rcv w l j) as (w' & Hd & _ & _ & Hf); try done.
  set (s := w_sink w) in *. set (m := os_files (w_os w)) in *.
  exists w', l, j. rewrite Hf, written_self by done.
  destruct (disk_full s m) eqn:Hfull.
  - destruct (rotate_disk_self s (open_disk s m) wh) as [H1 H2]; [done..|].
    exists []. rewrite H1. split_and!; try done.
    assert (Hr : ∀ w2, rotatedPath (file_of wh s) 1 ≠ file_of w2 s).
    { intros w2. destruct (decide (wh = w2)) as [->|Hw2]; [apply rotatedPath_base|by apply Hsep]. }
    unfold written. rewrite Hfull, !append_to_other by apply Hr. rewrite H2.
    unfold open_disk. destruct Hv as [Hne _]. destruct wh; cbn [file_of] in *.
    + rewrite touch_if_other by done. unfold touch_if. rewrite He. apply touch_self.
    + unfold touch_if at 1. rewrite He, touch_self. by rewrite touch_if_default.
  - exists (default [] (m !! file_of wh s)). rewrite open_disk_default. split_and!; try done.
    unfold disk_full in Hfull. rewrite (proj2 (Z.eqb_neq _ _)) in Hfull by lia. cbn [negb andb] in Hfull.
    apply orb_false_iff in Hfull as [H1%Z.leb_gt H2%Z.leb_gt].
    unfold disk_size in H1, H2. unfold zlen in *. destruct wh; [rewrite He, u64_small in H1 by lia|
      rewrite He, u64_small in H2 by lia]; done.
Qed.
End promises.

(** ** A concrete sink *)

Definition text0 : bytes := lit "/l/a.log".
Definition jsonl0 : bytes := lit "/l/a.jsonl".
Definition config0 : OutputConfig := mkOutput (lit "main") text0 jsonl0 10 2 [] [] true.
Definition sink0 : Sink := new_LogFile config0 30000.
Definition message0 : SyslogMessage :=
  mkMessage RFC3164 (lit "<34>hi" ++ [x0a]) (lit "10.0.0.1") (Some 34) (Some 4) (Some 2)
    (Some (lit "auth")) (Some (lit "CRIT")) None None None None None None (lit "hi") None.
Definition world0 (files : list (bytes * bytes)) (faults : list (option nat)) : World :=
  mkWorld (mkOs (list_to_map files) faults 0 []) sink0.

(** A write, a rotation, an outage and a recovery. *)
Example history0 :
  match @handle_all example_env
          [SWrite message0 (lit "T"); SWrite message0 (lit "T"); SEnvironment 5 [None; Some 1%nat];
           SWrite message0 (lit "T"); SEnvironment 7 []; SWrite message0 (lit "T"); STimer false; SClose]
          (world0 [(text0, lit "0123456789")] []) with
  | Ret (_, w) =>
      os_files (w_os w) !! text0 = Some (lit "<34>hi\n" ++ [x0a]) ∧
      os_files (w_os w) !! rotatedPath text0 1 = Some (lit "<34>hi\n" ++ [x0a]) ∧
      m_shuttingDown (w_sink w) = true
  | _ => False
  end.
Proof. vm_compute. auto. Qed.

Lemma separate0 : separate sink0.
Proof.
  assert (Ht : ∀ n, last (rotatedPath text0 n) = Some "g"%byte).
  { intros n. change (rotatedPath text0 n) with (lit "/l/" ++ lit "a" ++ lit "." ++
      to_string (Z.of_nat n) ++ (lit ".lo" ++ [x67])). rewrite !app_assoc. apply last_snoc. }
  assert (Hj : ∀ n, last (rotatedPath jsonl0 n) = Some "l"%byte).
  { intros n. change (rotatedPath jsonl0 n) with (lit "/l/" ++ lit "a" ++ lit "." ++
      to_string (Z.of_nat n) ++ (lit ".json" ++ [x6c])). rewrite !app_assoc. apply last_snoc. }
  intros [] [] Hw n; try done; (split; [|intros m]); intros E%(f_equal last);
    cbn [file_of sink0 new_LogFile m_cfg config0 oc_textFile oc_jsonlFile] in E;
    rewrite ?Ht, ?Hj in E; vm_compute in E; discriminate.
Qed.

Lemma Inv0 os : Inv (mkWorld os sink0).
Proof. apply new_LogFile_Inv; vm_compute; congruence. Qed.

Lemma sink_invariant_witness :
  ∃ w', @handle_all example_env [SWrite message0 (lit "T"); STimer false; SClose]
          (world0 [] [None; Some 0%nat]) = Ret (tt, w') ∧ Inv w' ∧ m_cfg (w_sink w') = config0.
Proof.
  apply (@sink_invariant example_env config0 30000 (w_os (world0 [] [None; Some 0%nat]))
           [SWrite message0 (lit "T"); STimer false; SClose]); vm_compute; congruence.
Defined.

Lemma doWrite_exact_witness :
  ∃ w' line record, @doWrite example_env message0 (lit "T") (world0 [] []) = Ret (tt, w') ∧
    escapeControlChars (raw message0) = Ret line ∧ @toJsonlRecord example_env message0 (lit "T") = Ret record ∧
    os_files (w_os w') = written sink0 (line ++ [x0a]) (record ++ [x0a]) (os_files (w_os (world0 [] []))) ∧
    Inv w' ∧ m_closed (w_sink w') = false.
Proof. apply (@doWrite_exact example_env message0 (lit "T") (world0 [] [])); [apply Inv0|reflexivity..]. Defined.

Lemma doWrite_or_out_witness :
  ∃ w', @doWrite example_env message0 (lit "T") (world0 [] [Some 0%nat]) = Ret (tt, w') ∧ Inv w' ∧
    if m_closed sink0 || negb (wanted message0 sink0) then w' = world0 [] [Some 0%nat]
    else if m_closed (w_sink w') then m_retryTimer (w_sink w') = true ∧ [Some 0%nat] ≠ []
    else ∃ line record, escapeControlChars (raw message0) = Ret line ∧
           @toJsonlRecord example_env message0 (lit "T") = Ret record ∧
           doWrite_disk sink0 (world0 [] [Some 0%nat]) w' (line ++ [x0a]) (record ++ [x0a]).
Proof. apply (@doWrite_or_out example_env message0 (lit "T") (world0 [] [Some 0%nat])), Inv0. Defined.

(** The same sink out of service, its retry pending. *)
Definition closed_world0 : World :=
  mkWorld (mkOs (list_to_map [(text0, lit "old")]) [] 60 []) (failed 0 sink0).
Lemma closed_world0_Inv : Inv closed_world0.
Proof.
  assert (Hd : ∀ wh, detached wh (failed 0 sink0)) by by intros [].
  constructor; [split; vm_compute; congruence|by right|done|done|done|done|done].
Qed.

Lemma retry_recovers_witness :
  ∃ w', @handle example_env (STimer false) closed_world0 = Ret (tt, w') ∧ Inv w' ∧
        m_closed (w_sink w') = false ∧ in_service (w_os w') (w_sink w') ∧
        os_files (w_os w') = open_disk (failed 0 sink0) (os_files (w_os closed_world0)).
Proof. apply (@retry_recovers example_env closed_world0); [apply closed_world0_Inv|reflexivity..]. Defined.

Definition down_world0 : World :=
  mkWorld (mkOs ∅ [] 0 []) (set_shuttingDown true (set_closed true sink0)).
Lemma down_world0_Inv : Inv down_world0.
Proof.
  constructor; [split; vm_compute; congruence|right; by intros []|by intros _ []|done|done|done|done].
Qed.

Lemma shutdown_final_witness :
  ∃ w', @handle_all example_env [SWrite message0 (lit "T"); STimer false] down_world0 = Ret (tt, w') ∧
        os_files (w_os w') = os_files (w_os down_world0) ∧
        m_closed (w_sink w') = true ∧ m_retryTimer (w_sink w') = false.
Proof.
  apply (@shutdown_final example_env down_world0 [SWrite message0 (lit "T"); STimer false]);
    [apply down_world0_Inv|reflexivity].
Defined.

Lemma openAtStartup_decides_witness :
  ∃ ok w', @openAtStartup example_env (mkWorld (mkOs ∅ [None; None; Some 0%nat] 0 []) (new_LogFile config0 30000))
             = Ret (ok, w') ∧
    ([None; None; Some 0%nat] = [] → ok = true) ∧
    if ok then in_service (w_os w') (w_sink w') ∧ Inv w'
    else (∀ wh, detached wh (w_sink w')) ∧ m_retryTimer (w_sink w') = false ∧ m_closed (w_sink w') = true.
Proof.
  apply (@openAtStartup_decides example_env config0 30000 (mkOs ∅ [None; None; Some 0%nat] 0 []));
    vm_compute; congruence.
Defined.

(** A full text file: this write rotates. *)
Definition full_world0 : World := world0 [(text0, lit "0123456789")] [].

Lemma doWrite_bounded_witness :
  ∃ w' line record before, @doWrite example_env message0 (lit "T") full_world0 = Ret (tt, w') ∧
    escapeControlChars (raw message0) = Ret line ∧ @toJsonlRecord example_env message0 (lit "T") = Ret record ∧
    os_files (w_os w') !! file_of Text sink0 = Some (before ++ record_of Text (line ++ [x0a]) (record ++ [x0a])) ∧
    zlen before < oc_maxSize (m_cfg sink0) ∧
    if disk_full sink0 (os_files (w_os full_world0)) then
      before = [] ∧ os_files (w_os w') !! rotatedPath (file_of Text sink0) 1 =
                    Some (default [] (os_files (w_os full_world0) !! file_of Text sink0))
    else before = default [] (os_files (w_os full_world0) !! file_of Text sink0).
Proof.
  apply (@doWrite_bounded example_env message0 (lit "T") full_world0 Text);
    [apply Inv0|reflexivity|reflexivity|reflexivity|apply separate0|
     vm_compute; reflexivity|vm_compute; congruence|reflexivity|vm_compute; reflexivity].
Defined.
