(* ===== verification/Forwarder.v ===== *)
(** * Forwarding (src/src/server/forwarder/forwarder.cpp, forwarder.hpp)

    [Forwarder] as a state machine: the constructor, and the handlers that run
    one at a time on its strand (the end of a lookup, the expiry of the retry
    timer, a message, a stop). What is outside (the resolver's answer, whether a
    socket opens, whether a send succeeds) is an argument of the handler. *)

From S2P Require Import Prelude Names Parser Platform Config.

(** ** [truncateIfNeeded] *)

Definition truncateIfNeeded (raw : bytes) (maxSize : Z) : M bytes :=
  if (maxSize =? 0) || (zlen raw <=? maxSize) then mret raw else
  let suffix := lit "[TRUNCATED: " ++ to_string (zlen raw) ++ lit " bytes]" in
  if maxSize <=? zlen suffix then substr 0 (Z.to_nat maxSize) raw
  else
    n ← size_sub (Z.to_nat maxSize) (length suffix);
    head ← substr 0 n raw;
    mret (head ++ suffix).

(** ** State *)

(** [udp::endpoint]: the address as text, and the port. *)
Record Endpoint := mkEndpoint { ep_address : bytes; ep_port : Z }.

Record Forwarder := mkForwarder {
  m_cfg : ForwardingConfig;
  m_endpoint : option Endpoint;
  m_resolver : option bool;          (* the lookup in flight: is it the first attempt? *)
  m_retryTimer : bool;
  m_retryDelay : Z;                  (* seconds *)
  m_droppedUnresolved : Z;
  m_resolveAttempts : Z;
  m_resolved : bool;
  m_stopping : bool;
  m_failureReported : bool;
  f_sent : list (Endpoint * bytes);  (* datagrams handed to the socket, the latest first *)
  f_log : list LogLine               (* system log lines, the latest first *)
}.

Definition kFirstRetryDelay : Z := 1.
Definition kMaxRetryDelay : Z := 60.

Definition describe (cfg : ForwardingConfig) : bytes := lit "'" ++ fc_host cfg ++ lit "'".

Definition add_log (line : LogLine) (f : Forwarder) : Forwarder :=
  mkForwarder (m_cfg f) (m_endpoint f) (m_resolver f) (m_retryTimer f) (m_retryDelay f)
    (m_droppedUnresolved f) (m_resolveAttempts f) (m_resolved f) (m_stopping f) (m_failureReported f)
    (f_sent f) (line :: f_log f).
Definition set_resolver (r : option bool) (f : Forwarder) : Forwarder :=
  mkForwarder (m_cfg f) (m_endpoint f) r (m_retryTimer f) (m_retryDelay f)
    (m_droppedUnresolved f) (m_resolveAttempts f) (m_resolved f) (m_stopping f) (m_failureReported f)
    (f_sent f) (f_log f).
Definition set_timer (b : bool) (f : Forwarder) : Forwarder :=
  mkForwarder (m_cfg f) (m_endpoint f) (m_resolver f) b (m_retryDelay f)
    (m_droppedUnresolved f) (m_resolveAttempts f) (m_resolved f) (m_stopping f) (m_failureReported f)
    (f_sent f) (f_log f).
Definition set_delay (d : Z) (f : Forwarder) : Forwarder :=
  mkForwarder (m_cfg f) (m_endpoint f) (m_resolver f) (m_retryTimer f) d
    (m_droppedUnresolved f) (m_resolveAttempts f) (m_resolved f) (m_stopping f) (m_failureReported f)
    (f_sent f) (f_log f).
Definition set_dropped (n : Z) (f : Forwarder) : Forwarder :=
  mkForwarder (m_cfg f) (m_endpoint f) (m_resolver f) (m_retryTimer f) (m_retryDelay f)
    n (m_resolveAttempts f) (m_resolved f) (m_stopping f) (m_failureReported f)
    (f_sent f) (f_log f).
Definition set_attempts (n : Z) (f : Forwarder) : Forwarder :=
  mkForwarder (m_cfg f) (m_endpoint f) (m_resolver f) (m_retryTimer f) (m_retryDelay f)
    (m_droppedUnresolved f) n (m_resolved f) (m_stopping f) (m_failureReported f)
    (f_sent f) (f_log f).
Definition set_endpoint (e : Endpoint) (f : Forwarder) : Forwarder :=
  mkForwarder (m_cfg f) (Some e) (m_resolver f) (m_retryTimer f) (m_retryDelay f)
    (m_droppedUnresolved f) (m_resolveAttempts f) true (m_stopping f) (m_failureReported f)
    (f_sent f) (f_log f).
Definition set_stopping (f : Forwarder) : Forwarder :=
  mkForwarder (m_cfg f) (m_endpoint f) (m_resolver f) (m_retryTimer f) (m_retryDelay f)
    (m_droppedUnresolved f) (m_resolveAttempts f) (m_resolved f) true (m_failureReported f)
    (f_sent f) (f_log f).
Definition set_reported (f : Forwarder) : Forwarder :=
  mkForwarder (m_cfg f) (m_endpoint f) (m_resolver f) (m_retryTimer f) (m_retryDelay f)
    (m_droppedUnresolved f) (m_resolveAttempts f) (m_resolved f) (m_stopping f) true
    (f_sent f) (f_log f).
Definition add_sent (e : Endpoint) (payload : bytes) (f : Forwarder) : Forwarder :=
  mkForwarder (m_cfg f) (m_endpoint f) (m_resolver f) (m_retryTimer f) (m_retryDelay f)
    (m_droppedUnresolved f) (m_resolveAttempts f) (m_resolved f) (m_stopping f) (m_failureReported f)
    ((e, payload) :: f_sent f) (f_log f).

(** ** Operations *)

Definition startResolve (firstAttempt : bool) (f : Forwarder) : Forwarder :=
  set_resolver (Some firstAttempt) f.

Definition scheduleResolveRetry (f : Forwarder) : Forwarder :=
  if m_stopping f then f else set_timer true f.

Definition double_delay (f : Forwarder) : Forwarder :=
  set_delay (Z.min (m_retryDelay f * 2) kMaxRetryDelay) f.

(** [opened] is what [m_socket.open] gives: nothing, or the text of its error. *)
Definition useEndpoint (e : Endpoint) (opened : option bytes) (f : Forwarder) : Forwarder :=
  match opened with
  | Some error =>
      let f := if m_failureReported f then f else
        add_log (LError, lit "minilog: cannot open a forwarding socket for [forwarding] host " ++
                 describe (m_cfg f) ++ lit ": " ++ error ++
                 lit ". Forwarding is off and will be retried in the background; the rest of minilog is unaffected.")
                (set_reported f) in
      scheduleResolveRetry (double_delay f)
  | None =>
      let f := set_endpoint e f in
      if m_droppedUnresolved f =? 0 then f else
      let where_ := lit "minilog: [forwarding] host " ++ describe (m_cfg f) ++ lit " resolved to " ++
                    ep_address e ++ lit " port " ++ to_string (fc_port (m_cfg f)) ++ lit "; " in
      set_dropped 0 (add_log
        (LInfo, if m_failureReported f
         then where_ ++ lit "forwarding resumed after dropping " ++ to_string (m_droppedUnresolved f) ++
              lit " message(s) while it was unresolved"
         else where_ ++ lit "forwarding started; " ++ to_string (m_droppedUnresolved f) ++
              lit " message(s) arrived before the lookup finished and were not forwarded") f)
  end.

(** The completion handler of [async_resolve]: the text of an error, and the
    addresses found. *)
Definition onResolved (ec : option bytes) (results : list bytes) (opened : option bytes)
    (firstAttempt : bool) (f : Forwarder) : Forwarder :=
  let f := set_attempts (u64 (m_resolveAttempts f + 1)) (set_resolver None f) in
  if m_stopping f then f else
  match ec, results with
  | None, address :: _ => useEndpoint (mkEndpoint address (fc_port (m_cfg f))) opened f
  | _, _ =>
      let f :=
        if firstAttempt then
          add_log (LError, lit "minilog: cannot resolve [forwarding] host " ++ describe (m_cfg f) ++ lit ": " ++
                   default (lit "no addresses returned") ec ++
                   lit ". Forwarding is off and resolution will be retried in the background; the rest of minilog is unaffected.")
                  (set_reported f)
        else double_delay f in
      scheduleResolveRetry f
  end.

(** The handler of the retry timer. *)
Definition onRetry (cancelled : bool) (f : Forwarder) : Forwarder :=
  let f := if cancelled then f else set_timer false f in
  if cancelled || m_stopping f then f else startResolve false f.

(** What [stop] posts. A lookup in flight is not cancelled; it completes. *)
Definition stop (f : Forwarder) : Forwarder := set_timer false (set_stopping f).

(** [sent] is what [send_to] gives: nothing, or the text of its error. *)
Definition doForward (msg : SyslogMessage) (sent : option bytes) (f : Forwarder) : M Forwarder :=
  if negb (fc_enabled (m_cfg f)) then mret f else
  if negb (facilityMatches (fc_facilities (m_cfg f)) (fc_excludedFacilities (m_cfg f)) (facility msg))
  then mret f else
  if negb (m_resolved f) then mret (set_dropped (u64 (m_droppedUnresolved f + 1)) f) else
  match m_endpoint f with
  | None => UB                          (* m_endpoint is set when m_resolved is *)
  | Some e =>
      payload ← truncateIfNeeded (raw msg) (fc_maxMessageSize (m_cfg f));
      let f := add_sent e payload f in
      mret (match sent with
            | Some error =>
                add_log (LError, lit "minilog: forward to " ++ fc_host (m_cfg f) ++ lit ":" ++
                         to_string (fc_port (m_cfg f)) ++ lit " failed: " ++ error) f
            | None => f
            end)
  end.

(** What [forward] and [stop] post to the strand, which runs it in order. *)
Inductive FTask := FForward (msg : SyslogMessage) | FStop.
Definition post_forwarder (t : FTask) (fq : Forwarder * list FTask) : Forwarder * list FTask :=
  (fq.1, fq.2 ++ [t]).
Definition forward (msg : SyslogMessage) : Forwarder * list FTask → Forwarder * list FTask :=
  post_forwarder (FForward msg).

Section construct.
Context `{Machine}.

(** The constructor. *)
Definition new_Forwarder (cfg : ForwardingConfig) (opened : option bytes) : Forwarder :=
  let f := mkForwarder cfg None None false kFirstRetryDelay 0 0 false false false [] [] in
  if negb (fc_enabled cfg) then f else
  match make_address (fc_host cfg) with
  | Some _ => useEndpoint (mkEndpoint (fc_host cfg) (fc_port cfg)) opened f
  | None => startResolve true f
  end.
End construct.

(** ** Histories *)

Inductive Event :=
| Resolved (ec : option bytes) (results : list bytes) (opened : option bytes)
| Retry (cancelled : bool)
| Stop
| Forward (msg : SyslogMessage) (sent : option bytes).

(** A lookup ends only when one is in flight; the timer expires only when armed,
    or had expired before a stop cancelled it. *)
Definition step (f : Forwarder) (e : Event) : M Forwarder :=
  match e with
  | Resolved ec results opened =>
      mret (match m_resolver f with
            | Some first => onResolved ec results opened first f
            | None => f
            end)
  | Retry cancelled =>
      mret (if m_retryTimer f || m_stopping f || cancelled then onRetry cancelled f else f)
  | Stop => mret (stop f)
  | Forward msg sent => doForward msg sent f
  end.
Fixpoint run (f : Forwarder) (es : list Event) : M Forwarder :=
  match es with [] => mret f | e :: es' => f' ← step f e; run f' es' end.

(** ** Truncation *)

Definition truncation_suffix (raw : bytes) : bytes :=
  lit "[TRUNCATED: " ++ to_string (zlen raw) ++ lit " bytes]".

(** C35. truncateIfNeeded returns for every datagram and limit. A datagram within
    the limit, or any when the limit is 0, is sent as it is; a longer one becomes
    exactly as long as the limit: its beginning and a note of its length, or its
    beginning alone when the note does not fit. *)
Theorem truncate_exact raw maxSize :
  0 <= maxSize →
  ∃ out, truncateIfNeeded raw maxSize = Ret out ∧
    if (maxSize =? 0) || (zlen raw <=? maxSize) then out = raw
    else zlen out = maxSize ∧
         out = take (Z.to_nat (maxSize - zlen (truncation_suffix raw))) raw ++
               (if maxSize <=? zlen (truncation_suffix raw) then take (Z.to_nat maxSize) raw
                else truncation_suffix raw).
Proof.
  intros Hm. unfold truncateIfNeeded. fold (truncation_suffix raw).
  destruct ((maxSize =? 0) || (zlen raw <=? maxSize)) eqn:E; [by exists raw|].
  apply orb_false_iff in E as [E0%Z.eqb_neq E1%Z.leb_gt]. unfold zlen in *.
  set (sfx := truncation_suffix raw). destruct (Z.leb_spec maxSize (Z.of_nat (length sfx))) as [Hs|Hs].
  - rewrite substr_le, drop_0 by lia. eexists. split; [done|].
    assert (Z.to_nat (maxSize - Z.of_nat (length sfx)) = O) as -> by lia. rewrite take_0. cbn.
    split; [|done]. rewrite length_take. lia.
  - unfold size_sub. destruct (Nat.leb_spec (length sfx) (Z.to_nat maxSize)); [|lia]. cbn [mbind M_bind].
    rewrite substr_le, drop_0 by lia. cbn [mbind M_bind mret M_ret]. eexists. split; [done|].
    replace (Z.to_nat maxSize - length sfx)%nat with (Z.to_nat (maxSize - Z.of_nat (length sfx))) by lia.
    split; [|done]. rewrite length_app, length_take. lia.
Qed.

Lemma truncate_returns raw maxSize : 0 <= maxSize → ∃ out, truncateIfNeeded raw maxSize = Ret out.
Proof.
  intros Hm. unfold truncateIfNeeded. destruct (_ || _) eqn:E; [by eexists|].
  apply orb_false_iff in E as [E0%Z.eqb_neq E1%Z.leb_gt]. set (sfx := _ ++ _).
  destruct (Z.leb_spec maxSize (zlen sfx)); [rewrite substr_le by lia; by eexists|].
  unfold size_sub, zlen in *. destruct (Nat.leb_spec (length sfx) (Z.to_nat maxSize)); [|lia].
  cbn [mbind M_bind]. rewrite substr_le by lia. cbn. by eexists.
Qed.

(** ** Progress *)

(** What forwarding is waiting for. *)
Definition waiting (f : Forwarder) : Prop :=
  (is_Some (m_resolver f) ∧ m_retryTimer f = false) ∨ (m_resolver f = None ∧ m_retryTimer f = true).

Record FInv (f : Forwarder) : Prop := {
  fi_endpoint : if m_resolved f then is_Some (m_endpoint f) else m_endpoint f = None;
  fi_progress : fc_enabled (m_cfg f) = true → m_resolved f = false → m_stopping f = false → waiting f;
  fi_settled : m_resolved f = true → m_resolver f = None ∧ m_retryTimer f = false ∧ m_droppedUnresolved f = 0;
  fi_idle : m_retryTimer f = true → m_resolver f = None;
  fi_stopped : m_stopping f = true → m_retryTimer f = false;
  fi_delay : kFirstRetryDelay <= m_retryDelay f <= kMaxRetryDelay;
  fi_first : m_resolver f = Some true → m_failureReported f = false ∧ m_retryDelay f = kFirstRetryDelay;
  fi_size : 0 <= fc_maxMessageSize (m_cfg f)
}.

Lemma double_delay_range f :
  kFirstRetryDelay <= m_retryDelay f <= kMaxRetryDelay →
  kFirstRetryDelay <= m_retryDelay (double_delay f) <= kMaxRetryDelay.
Proof. unfold kFirstRetryDelay, kMaxRetryDelay. cbn. unfold kMaxRetryDelay. lia. Qed.

(** A socket is opened when nothing else is going on and no endpoint is known. *)
Lemma useEndpoint_FInv e opened f :
  m_resolved f = false → m_endpoint f = None → m_resolver f = None → m_retryTimer f = false →
  m_stopping f = false → kFirstRetryDelay <= m_retryDelay f <= kMaxRetryDelay →
  0 <= fc_maxMessageSize (m_cfg f) → FInv (useEndpoint e opened f).
Proof.
  intros Hr He Hres Ht Hs Hd Hm. unfold useEndpoint, scheduleResolveRetry. destruct opened as [error|].
  - assert (Hg : ∀ g, m_cfg g = m_cfg f → m_resolved g = false → m_endpoint g = None →
      m_resolver g = None → m_stopping g = false → m_retryDelay g = m_retryDelay f →
      FInv (if m_stopping (double_delay g) then double_delay g else set_timer true (double_delay g))).
    { intros g Hc Hr' He' Hres' Hs' Hd'. cbn. rewrite Hs'.
      constructor; cbn; rewrite ?Hr', ?He', ?Hres', ?Hs', ?Hc, ?Hd'; try done; [by right|].
      pose proof (double_delay_range f Hd) as Hdd. done. }
    destruct (m_failureReported f); by apply Hg.
  - cbn. destruct (Z.eqb_spec (m_droppedUnresolved f) 0) as [E|E];
      constructor; cbn; rewrite ?Hres, ?Ht, ?Hs; try done; by destruct (m_failureReported f).
Qed.

Lemma new_FInv `{Machine} cfg opened :
  0 <= fc_maxMessageSize cfg → FInv (new_Forwarder cfg opened).
Proof.
  intros Hm. unfold new_Forwarder. destruct (fc_enabled cfg) eqn:He; cbn [negb].
  - destruct (make_address (fc_host cfg)); [by apply useEndpoint_FInv|].
    constructor; cbn; try done. intros. left. by split; [eexists|].
  - constructor; cbn; try done. congruence.
Qed.

Lemma step_FInv f e : FInv f → ∃ f', step f e = Ret f' ∧ FInv f' ∧ m_cfg f' = m_cfg f.
Proof.
  intros Hinv. pose proof Hinv as [He Hp Hset Hidle Hst Hd Hf Hsz]. destruct e as [ec results opened|cancelled| |msg sent]; cbn [step].
  - eexists. split; [done|]. destruct (m_resolver f) as [first|] eqn:Hres; [|done].
    assert (Hr : m_resolved f = false) by (destruct (m_resolved f); [by destruct (Hset eq_refl)|done]).
    assert (Ht : m_retryTimer f = false) by (destruct (m_retryTimer f); [by discriminate (Hidle eq_refl)|done]).
    rewrite Hr in He. unfold onResolved. cbn [set_attempts set_resolver m_stopping].
    destruct (m_stopping f) eqn:Hs.
    { split; [|done]. constructor; cbn; rewrite ?Hr, ?Hs, ?Ht; try done. }
    assert (Hfail : FInv (scheduleResolveRetry (if first
        then add_log (LError, lit "minilog: cannot resolve [forwarding] host " ++ describe (m_cfg f) ++ lit ": " ++
                      default (lit "no addresses returned") ec ++
                      lit ". Forwarding is off and resolution will be retried in the background; the rest of minilog is unaffected.")
               (set_reported (set_attempts (u64 (m_resolveAttempts f + 1)) (set_resolver None f)))
        else double_delay (set_attempts (u64 (m_resolveAttempts f + 1)) (set_resolver None f))))).
    { pose proof (double_delay_range f Hd). unfold scheduleResolveRetry.
      destruct first; cbn; rewrite Hs; constructor; cbn; rewrite ?Hr, ?Hs; try done; by right. }
    assert (Hcfg : ∀ e g, m_cfg (useEndpoint e opened g) = m_cfg g).
    { intros e g. unfold useEndpoint, scheduleResolveRetry. destruct opened; cbn.
      - destruct (m_failureReported g); cbn; by destruct (m_stopping g).
      - by destruct (_ =? 0). }
    assert (Hcs : ∀ g, m_cfg (scheduleResolveRetry g) = m_cfg g)
      by (intros g; unfold scheduleResolveRetry; by destruct (m_stopping g)).
    destruct ec as [ec|]; [split; [done|rewrite Hcs; by destruct first]|].
    destruct results as [|address results]; [split; [done|rewrite Hcs; by destruct first]|].
    split; [|by rewrite Hcfg]. by apply useEndpoint_FInv.
  - eexists. split; [done|]. unfold onRetry.
    destruct (m_retryTimer f || m_stopping f || cancelled) eqn:E; [|done].
    destruct cancelled; cbn [orb]; [done|]. cbn [set_timer m_stopping].
    destruct (m_stopping f) eqn:Hs.
    { split; [|done]. constructor; cbn; rewrite ?Hs; try done. intros Hr. destruct (Hset Hr) as (? & ? & ?). done. }
    rewrite !orb_false_r in E.
    assert (Hr : m_resolved f = false) by (destruct (m_resolved f); [destruct (Hset eq_refl) as (_ & ? & _); congruence|done]).
    split; [|done]. constructor; cbn; rewrite ?Hr, ?Hs; try done; [by rewrite Hr in He|].
    intros. left. by split; [eexists|].
  - eexists. split; [done|]. split; [|done]. constructor; cbn; try done.
    intros Hr. by destruct (Hset Hr) as (? & ? & ?).
  - unfold doForward. destruct (fc_enabled (m_cfg f)) eqn:Hen; cbn [negb]; [|by eexists].
    destruct (facilityMatches _ _ _); cbn [negb]; [|by eexists].
    destruct (m_resolved f) eqn:Hr; cbn [negb].
    + destruct He as [e Hee]. rewrite Hee.
      destruct (truncate_returns (raw msg) (fc_maxMessageSize (m_cfg f)) Hsz) as [out ->]. cbn [mbind M_bind].
      eexists. split; [done|]. destruct sent; (split; [|done]); constructor; cbn; rewrite ?Hr, ?Hee; try done.
    + eexists. split; [done|]. split; [|done]. constructor; cbn; rewrite ?Hr; try done. intros _ _ Hs. by apply Hp.
Qed.

(** C29. Forwarding never gets stuck: in every history of lookups, failing
    sockets, timers, messages and stops, no handler reads an endpoint that is not
    set; while the destination is unknown and nobody asked it to stop, exactly
    one lookup or one retry is pending; the retry delay stays between 1 and 60
    seconds; and once the destination is known nothing is pending. *)
Theorem forwarder_invariant `{Machine} cfg opened es :
  0 <= fc_maxMessageSize cfg →
  ∃ f, run (new_Forwarder cfg opened) es = Ret f ∧ FInv f ∧ m_cfg f = m_cfg (new_Forwarder cfg opened).
Proof.
  intros Hm. pose proof (new_FInv cfg opened Hm) as Hi. revert Hi.
  generalize (new_Forwarder cfg opened). induction es as [|e es IH]; intros f Hi; [by exists f|].
  cbn [run]. destruct (step_FInv f e Hi) as (f1 & -> & Hi1 & Hc1). cbn [mbind M_bind].
  destruct (IH f1 Hi1) as (f2 & ? & ? & ?). exists f2. split_and!; [done|done|congruence].
Qed.

(** ** Accounting *)

(** The datagram for a message the configuration selects. *)
Definition payload (cfg : ForwardingConfig) (e : Event) : option bytes :=
  match e with
  | Forward msg _ =>
      if fc_enabled cfg && facilityMatches (fc_facilities cfg) (fc_excludedFacilities cfg) (facility msg)
      then match truncateIfNeeded (raw msg) (fc_maxMessageSize cfg) with Ret p => Some p | _ => None end
      else None
  | _ => None
  end.
Definition sent_payloads (f : Forwarder) : list bytes := reverse (f_sent f).*2.

(** What a reader of the log is told was not forwarded: the count in a line of the
    resolution of the destination. *)
Definition resolution_prefix (cfg : ForwardingConfig) (e : Endpoint) : bytes :=
  lit "minilog: [forwarding] host " ++ describe cfg ++ lit " resolved to " ++
  ep_address e ++ lit " port " ++ to_string (fc_port cfg) ++ lit "; ".
Definition line_count (prefix : bytes) (line : LogLine) : Z :=
  match line with
  | (LInfo, text) =>
      default 0 (rest ← after_prefix prefix text;
        match count_between (lit "forwarding resumed after dropping ") (lit " message(s)") rest with
        | Some n => Some n
        | None => count_between (lit "forwarding started; ") (lit " message(s)") rest
        end)
  | (LError, _) => 0
  end.
Definition announced (f : Forwarder) : Z :=
  match m_endpoint f with
  | Some e => zsum (line_count (resolution_prefix (m_cfg f) e)) (f_log f)
  | None => 0
  end.

Abbreviation only_errors log := (Forall (λ l : LogLine, l.1 = LError) log).
Lemma errors_uncounted prefix log : only_errors log → zsum (line_count prefix) log = 0.
Proof. intros He. apply zsum_zero. eapply Forall_impl; [exact He|]. by intros [[] text]. Qed.

(** The line of the resolution, read. *)
Lemma resolution_counted prefix (resumed : bool) n :
  0 <= n →
  line_count prefix (LInfo,
    if resumed then prefix ++ lit "forwarding resumed after dropping " ++ to_string n ++
                    lit " message(s) while it was unresolved"
    else prefix ++ lit "forwarding started; " ++ to_string n ++
         lit " message(s) arrived before the lookup finished and were not forwarded") = n.
Proof.
  intros Hn. unfold line_count. destruct resumed; rewrite after_prefix_app; cbn [mbind option_bind].
  - by rewrite (count_between_printed _ (lit " message(s)") n (lit " while it was unresolved")).
  - assert (count_between (lit "forwarding resumed after dropping ") (lit " message(s)")
      (lit "forwarding started; " ++ to_string n ++
       lit " message(s) arrived before the lookup finished and were not forwarded") = None) as -> by done.
    by rewrite (count_between_printed _ (lit " message(s)") n
                  (lit " arrived before the lookup finished and were not forwarded")).
Qed.

(** [sel] are the datagrams selected so far. While the destination is unknown all of
    them are counted; later those that were counted are the ones announced, and all
    the others were sent. *)
Record Accounted (cfg : ForwardingConfig) (sel : list bytes) (f : Forwarder) : Prop := {
  ac_cfg : m_cfg f = cfg;
  ac_unresolved : m_resolved f = false →
    f_sent f = [] ∧ only_errors (f_log f) ∧ m_droppedUnresolved f = zlen sel;
  ac_resolved : m_resolved f = true →
    m_droppedUnresolved f = 0 ∧ 0 <= announced f <= zlen sel ∧
    sent_payloads f = drop (Z.to_nat (announced f)) sel
}.

Lemma Accounted_ext cfg sel f f' :
  Accounted cfg sel f → m_cfg f' = m_cfg f → m_endpoint f' = m_endpoint f → m_resolved f' = m_resolved f →
  m_droppedUnresolved f' = m_droppedUnresolved f → f_sent f' = f_sent f → f_log f' = f_log f →
  Accounted cfg sel f'.
Proof.
  intros [] Hc He Hr Hd Hs Hl. constructor; rewrite ?Hc, ?Hr, ?Hd, ?Hs, ?Hl; try done.
  unfold announced, sent_payloads in *. by rewrite Hc, He, Hs, Hl.
Qed.

Lemma announced_error f what : announced (add_log (LError, what) f) = announced f.
Proof. unfold announced. cbn. by destruct (m_endpoint f). Qed.

(** An endpoint that can be used: what was counted is announced. *)
Lemma useEndpoint_announces e f :
  0 <= m_droppedUnresolved f → only_errors (f_log f) →
  let f' := useEndpoint e None f in
  m_cfg f' = m_cfg f ∧ m_resolved f' = true ∧ m_droppedUnresolved f' = 0 ∧ f_sent f' = f_sent f ∧
  announced f' = m_droppedUnresolved f.
Proof.
  intros Hd Hl. unfold useEndpoint. cbn [m_droppedUnresolved set_endpoint].
  destruct (Z.eqb_spec (m_droppedUnresolved f) 0) as [E|E].
  - unfold announced. cbn. by rewrite errors_uncounted.
  - split_and!; [done..|]. unfold announced. cbn [m_endpoint set_dropped add_log set_endpoint f_log zsum m_cfg].
    rewrite errors_uncounted by done. rewrite Z.add_0_r. exact (resolution_counted (resolution_prefix (m_cfg f) e) _ _ Hd).
Qed.
Lemma useEndpoint_accounted cfg sel e opened f :
  Accounted cfg sel f → m_resolved f = false → Accounted cfg sel (useEndpoint e opened f).
Proof.
  intros [Hc Hu _] Hr. destruct (Hu Hr) as (Hs & Hl & Hd). destruct opened as [error|].
  - unfold useEndpoint, scheduleResolveRetry. destruct (m_failureReported f); cbn; (destruct (m_stopping f); constructor; cbn; rewrite ?Hr; try done; intros _;
      split_and!; try done; by constructor || done).
  - pose proof (zlen_nonneg sel) as Hn. destruct (useEndpoint_announces e f) as (Hc' & Hr' & Hd' & Hs' & Ha'); [lia|done|].
    constructor; [congruence|congruence|]. intros _. rewrite Ha', Hd. split; [done|]. split; [lia|]. unfold sent_payloads.
    rewrite Hs', Hs, drop_ge; [done|]. unfold zlen. lia.
Qed.

Lemma new_accounted `{Machine} cfg opened : Accounted cfg [] (new_Forwarder cfg opened).
Proof.
  unfold new_Forwarder. destruct (fc_enabled cfg); cbn [negb]; [|by constructor].
  destruct (make_address (fc_host cfg)); [|by constructor]. by apply useEndpoint_accounted; [constructor|].
Qed.

Lemma onResolved_accounted cfg sel ec results opened first f :
  Accounted cfg sel f → m_resolved f = false → Accounted cfg sel (onResolved ec results opened first f).
Proof.
  intros Ha Hr. unfold onResolved. set (f1 := set_attempts _ _). assert (Ha1 : Accounted cfg sel f1) by by eapply Accounted_ext.
  assert (Hr1 : m_resolved f1 = false) by done. clearbody f1. clear f Ha Hr. destruct (m_stopping f1) eqn:Hst; [done|].
  assert (Hfail : ∀ what, Accounted cfg sel (scheduleResolveRetry
    (if first then add_log (LError, what) (set_reported f1) else double_delay f1))).
  { intros what. destruct Ha1 as [Hc Hu _]. destruct (Hu Hr1) as (? & ? & ?). unfold scheduleResolveRetry.
    destruct first; cbn; rewrite Hst; constructor; cbn; rewrite ?Hr1; try done; intros _; split_and!; try done; by constructor. }
  destruct ec; [apply Hfail|]. destruct results; [apply Hfail|by apply useEndpoint_accounted].
Qed.

Lemma step_accounted cfg sel f e f' :
  FInv f → Accounted cfg sel f → zlen sel < 2 ^ 64 - 1 → step f e = Ret f' →
  Accounted cfg (sel ++ option_list (payload cfg e)) f'.
Proof.
  intros Hi Ha Hlen Hs. destruct e as [ec results opened|cancelled| |msg sent]; cbn [step payload option_list] in *;
    rewrite ?app_nil_r.
  - injection Hs as <-. destruct (m_resolver f) as [first|] eqn:Hres; [|done]. apply onResolved_accounted; [done|].
    destruct (m_resolved f) eqn:Hr; [|done]. destruct (fi_settled _ Hi Hr) as [? _]. congruence.
  - injection Hs as <-. unfold onRetry. destruct (_ || cancelled); [|done]. destruct cancelled; cbn; [done|].
    destruct (m_stopping f); by eapply Accounted_ext.
  - injection Hs as <-. by eapply Accounted_ext.
  - pose proof Ha as [Hc Hu Hres]. unfold doForward in Hs. rewrite Hc in Hs. unfold option_list.
    destruct (fc_enabled cfg); cbn [negb andb] in *; [|injection Hs as <-; by rewrite app_nil_r].
    destruct (facilityMatches _ _ _); cbn [negb] in *; [|injection Hs as <-; by rewrite app_nil_r].
    destruct (truncate_returns (raw msg) (fc_maxMessageSize cfg)) as (p & Hp); [rewrite <- Hc; apply Hi|]. rewrite Hp in *.
    pose proof (zlen_nonneg sel) as Hn. assert (Hz : zlen (sel ++ [p]) = zlen sel + 1) by (unfold zlen; rewrite length_app; cbn; lia).
    destruct (m_resolved f) eqn:Hr; cbn [negb] in Hs.
    + destruct (Hres eq_refl) as (Hd & Hb & Hsent). destruct (m_endpoint f) as [ep|]; [|done]. cbn [mbind M_bind] in Hs.
      injection Hs as <-. assert (Hac : Accounted cfg (sel ++ [p]) (add_sent ep p f)); [|].
      { assert (Hsp : sent_payloads (add_sent ep p f) = sent_payloads f ++ [p]).
        { unfold sent_payloads. change (f_sent (add_sent ep p f)) with ((ep, p) :: f_sent f). by rewrite fmap_cons, reverse_cons. }
        constructor; [done|cbn; by rewrite Hr|]. intros _. change (announced (add_sent ep p f)) with (announced f).
        split; [done|]. split; [lia|]. rewrite Hsp, Hsent, drop_app_le by (unfold zlen in *; lia). done. }
      destruct sent as [error|]; [|done]. destruct Hac as [? _ Hac]. constructor; [done|cbn; by rewrite Hr|].
      intros _. rewrite announced_error. by apply Hac.
    + destruct (Hu eq_refl) as (? & ? & Hd). injection Hs as <-. constructor; cbn; rewrite ?Hr; try done. intros _.
      split_and!; [done|done|]. rewrite u64_small by lia. lia.
Qed.

Lemma run_accounted cfg sel f es f' :
  FInv f → Accounted cfg sel f → zlen sel + zlen es < 2 ^ 64 → run f es = Ret f' →
  FInv f' ∧ Accounted cfg (sel ++ omap (payload cfg) es) f'.
Proof.
  revert sel f. induction es as [|e es IH]; intros sel f Hi Ha Hlen Hr; cbn [run] in Hr.
  { injection Hr as <-. by rewrite app_nil_r. }
  apply bind_Ret_inv in Hr as (f1 & Hs & Hr). destruct (step_FInv f e Hi) as (f2 & Hs2 & Hi1 & _).
  rewrite Hs in Hs2. injection Hs2 as <-. unfold zlen in Hlen. cbn [length] in Hlen.
  destruct (IH (sel ++ option_list (payload cfg e)) f1) as [? Ha']; try done.
  - apply (step_accounted cfg sel f); [done|done|unfold zlen; lia|done].
  - unfold zlen. rewrite length_app. destruct (payload cfg e); cbn; lia.
  - split; [done|]. revert Ha'. cbn [omap list_omap]. rewrite <- app_assoc. by destruct (payload cfg e).
Qed.

(** What is sent is exact: it is all that was selected but for the first ones, and
    those are the ones still counted and the ones the log announced. *)
Lemma accounted_exact cfg sel f :
  FInv f → Accounted cfg sel f →
  let lost := m_droppedUnresolved f + announced f in
  0 <= lost <= zlen sel ∧ sent_payloads f = drop (Z.to_nat lost) sel ∧
  (if m_resolved f then m_droppedUnresolved f = 0 else announced f = 0).
Proof.
  intros Hi [Hc Hu Hr]. pose proof (fi_endpoint _ Hi) as He. pose proof (zlen_nonneg sel). destruct (m_resolved f).
  - destruct (Hr eq_refl) as (-> & Hb & ->). done.
  - destruct (Hu eq_refl) as (Hs & _ & ->). unfold announced, sent_payloads. rewrite He, Hs. split; [lia|]. split; [|done].
    rewrite drop_ge; [done|]. unfold zlen. lia.
Qed.

(** A lookup that succeeds before the forwarder is stopped announces all that were
    counted; after that they are never announced. *)
Lemma resolution_announces sel f first address rest :
  Accounted (m_cfg f) sel f → m_resolved f = false → m_stopping f = false →
  announced (onResolved None (address :: rest) None first f) = m_droppedUnresolved f.
Proof.
  intros Ha Hr Hst. destruct (ac_unresolved _ _ _ Ha Hr) as (_ & Hl & Hd). pose proof (zlen_nonneg sel).
  unfold onResolved. cbn [set_attempts set_resolver m_stopping]. rewrite Hst. rewrite <- Hd in *.
  set (f1 := set_attempts _ _). by destruct (useEndpoint_announces (mkEndpoint address (fc_port (m_cfg f1))) f1) as (_ & _ & _ & _ & ?).
Qed.
Lemma stopped_silent f es f' :
  FInv f → m_resolved f = false → m_stopping f = true → run f es = Ret f' → announced f' = 0 ∧ m_resolved f' = false.
Proof.
  revert f. induction es as [|e es IH]; intros f Hi Hr Hst Hrun; cbn [run] in Hrun.
  { injection Hrun as <-. pose proof (fi_endpoint _ Hi) as He. rewrite Hr in He. unfold announced. by rewrite He. }
  apply bind_Ret_inv in Hrun as (f1 & Hs & Hrun). destruct (step_FInv f e Hi) as (f2 & Hs2 & Hi1 & _).
  rewrite Hs in Hs2. injection Hs2 as <-. apply (IH f1); try done.
  all: destruct e as [ec results opened|cancelled| |msg sent]; cbn [step] in Hs.
  all: try (injection Hs as <-; destruct (m_resolver f); [unfold onResolved; cbn; by rewrite Hst|done]).
  all: try (injection Hs as <-; unfold onRetry; destruct cancelled; cbn; rewrite ?Hst, ?orb_true_r; done).
  all: try (injection Hs as <-; done).
  all: unfold doForward in Hs; rewrite Hr in Hs; destruct (negb (fc_enabled _)); [by injection Hs as <-|];
    destruct (negb (facilityMatches _ _ _)); by injection Hs as <-.
Qed.

(** ** The retry schedule *)

(** A failing lookup, then [k] retries that fail too. *)
Definition failing (error : bytes) (k : nat) : list Event :=
  Resolved (Some error) [] None ::
  flat_map (λ _, [Retry false; Resolved (Some error) [] None]) (seq 0 k).

Lemma run_app f l k : run f (l ++ k) = (f' ← run f l; run f' k).
Proof.
  revert f. induction l as [|e l IH]; intros f; [done|]. cbn. destruct (step f e); cbn; [apply IH|done|done].
Qed.

(** C34. A name that cannot be looked up is retried after 1, 2, 4, ... and then
    every 60 seconds, with one line in the log, and is used as soon as a lookup
    succeeds. *)
Theorem retry_schedule `{Machine} cfg error address k :
  fc_enabled cfg = true → make_address (fc_host cfg) = None →
  ∃ f f', run (new_Forwarder cfg None) (failing error k) = Ret f ∧
    m_retryTimer f = true ∧ m_retryDelay f = Z.min (2 ^ Z.of_nat k) 60 ∧ length (f_log f) = 1%nat ∧
    run f [Retry false; Resolved None [address] None] = Ret f' ∧
    m_resolved f' = true ∧ m_endpoint f' = Some (mkEndpoint address (fc_port cfg)).
Proof.
  intros Hen Haddr.
  enough (∃ f, run (new_Forwarder cfg None) (failing error k) = Ret f ∧ m_cfg f = cfg ∧
    m_retryTimer f = true ∧ m_retryDelay f = Z.min (2 ^ Z.of_nat k) 60 ∧ length (f_log f) = 1%nat ∧
    m_stopping f = false ∧ m_resolver f = None ∧ m_droppedUnresolved f = 0)
    as (f & Hr & Hc & Ht & Hd & Hl & Hs & Hres & Hdr).
  { eexists f, _. split_and!; [done..| | |]; cbn; rewrite ?Ht; cbn; unfold onRetry; cbn; rewrite ?Hs; cbn.
    - unfold onResolved. cbn. rewrite Hs, Hdr. cbn. reflexivity.
    - done.
    - by rewrite Hc. }
  unfold failing. induction k as [|k IH].
  - cbn. unfold new_Forwarder. rewrite Hen, Haddr. cbn. eexists. split_and!; done.
  - destruct IH as (f & Hr & Hc & Ht & Hd & Hl & Hs & Hres & Hdr).
    rewrite seq_S, flat_map_app, app_comm_cons, run_app, Hr. cbn. rewrite Ht. cbn. unfold onRetry. cbn.
    rewrite Hs. cbn. unfold onResolved. cbn. rewrite Hs. cbn. unfold scheduleResolveRetry. cbn. rewrite Hs.
    eexists. split_and!; [done|done|done| |done|done|done|done]. cbn.
    rewrite Hd. unfold kMaxRetryDelay. rewrite Nat2Z.inj_succ, Z.pow_succ_r by lia.
    pose proof (Z.pow_pos_nonneg 2 (Z.of_nat k)). lia.
Qed.

(** ** Concrete forwarders *)

Definition forwarding0 : ForwardingConfig := mkForwarding true (lit "collector.example") 514 40 [4] [].
Definition message0 : SyslogMessage :=
  mkMessage RFC3164 (lit "<34>a message that is longer than the limit of forty bytes") (lit "10.0.0.1")
    (Some 34) (Some 4) (Some 2) None None None None None None None None [] None.
Definition history0 : list Event :=
  [Forward message0 None; Resolved (Some (lit "timed out")) [] None; Forward message0 None; Retry false;
   Resolved None [lit "10.0.0.9"] None; Forward message0 None; Stop].

Example history0_sent :
  match run (@new_Forwarder linux_machine forwarding0 None) history0 with
  | Ret f => f_sent f = [(mkEndpoint (lit "10.0.0.9") 514, lit "<34>a message that [TRUNCATED: 58 bytes]")]
             ∧ m_droppedUnresolved f = 0 ∧ length (f_log f) = 2%nat
  | _ => False
  end.
Proof. vm_compute. auto. Qed.

Lemma truncate_exact_witness :
  ∃ out, truncateIfNeeded (raw message0) 40 = Ret out ∧
    if (40 =? 0) || (zlen (raw message0) <=? 40) then out = raw message0
    else zlen out = 40 ∧
         out = take (Z.to_nat (40 - zlen (truncation_suffix (raw message0)))) (raw message0) ++
               (if 40 <=? zlen (truncation_suffix (raw message0)) then take (Z.to_nat 40) (raw message0)
                else truncation_suffix (raw message0)).
Proof. apply truncate_exact. lia. Defined.

Lemma forwarder_invariant_witness :
  ∃ f, run (@new_Forwarder linux_machine forwarding0 None) history0 = Ret f ∧ FInv f ∧
       m_cfg f = m_cfg (@new_Forwarder linux_machine forwarding0 None).
Proof. apply (@forwarder_invariant linux_machine forwarding0 None history0). vm_compute. congruence. Defined.

Lemma retry_schedule_witness :
  ∃ f f', run (@new_Forwarder linux_machine forwarding0 None) (failing (lit "timed out") 7) = Ret f ∧
    m_retryTimer f = true ∧ m_retryDelay f = Z.min (2 ^ Z.of_nat 7) 60 ∧ length (f_log f) = 1%nat ∧
    run f [Retry false; Resolved None [lit "10.0.0.9"] None] = Ret f' ∧
    m_resolved f' = true ∧ m_endpoint f' = Some (mkEndpoint (lit "10.0.0.9") (fc_port forwarding0)).
Proof.
  apply (@retry_schedule linux_machine forwarding0 (lit "timed out") (lit "10.0.0.9") 7); reflexivity.
Defined.
