(* ===== verification/OutputManager.v ===== *)
(** * Routing to the sinks (src/src/server/output/output_manager.cpp)

    [OutputManager] keeps one [LogFile] per output section, each with a strand: a
    queue of handlers that run in order, one at a time, while the strands of
    different sinks interleave freely. All sinks share the file system. *)

From S2P Require Import Prelude Names Parser Platform Config Escape Backoff FileSystem LogFile LogFileSpec Rotation Lifecycle Sinks.

(** What [write] and [close] post. *)
Inductive Task := TWrite (msg : SyslogMessage) | TClose.

Record MSink := mkMSink {
  ms_facilities : list Z;
  ms_excluded : list Z;
  ms_file : Sink;
  ms_queue : list Task
}.

Record Manager := mkManager { m_os : Os; m_sinks : list MSink }.

Definition kRetryIntervalMs : Z := Z.quot SinkRecovery.kRetryInterval 1000000.

(** The constructor. *)
Definition new_OutputManager (cfg : Config) (os : Os) : Manager :=
  mkManager os
    ((λ o, mkMSink (oc_facilities o) (oc_excludedFacilities o) (new_LogFile o kRetryIntervalMs) [])
       <$> cfg_outputs cfg).

Definition set_queue (q : list Task) (s : MSink) : MSink :=
  mkMSink (ms_facilities s) (ms_excluded s) (ms_file s) q.
Definition set_sink (f : Sink) (s : MSink) : MSink :=
  mkMSink (ms_facilities s) (ms_excluded s) f (ms_queue s).
Definition post (t : Task) (s : MSink) : MSink := set_queue (ms_queue s ++ [t]) s.

Definition accepts (msg : SyslogMessage) (s : MSink) : bool :=
  facilityMatches (ms_facilities s) (ms_excluded s) (facility msg).

Definition dispatch (msg : SyslogMessage) (m : Manager) : Manager :=
  mkManager (m_os m) ((λ s, if accepts msg s then post (TWrite msg) s else s) <$> m_sinks m).

Definition close_all (m : Manager) : Manager := mkManager (m_os m) (post TClose <$> m_sinks m).

Section manager.
Context `{LogEnv}.

(** [open]: every sink is tried, whatever happened to the ones before. *)
Fixpoint open_loop (os : Os) (sinks : list MSink) : M (bool * Os * list MSink) :=
  match sinks with
  | [] => mret (true, os, [])
  | s :: rest =>
      '(ok, w) ← openAtStartup (mkWorld os (ms_file s));
      '(allOpened, os', rest') ← open_loop (w_os w) rest;
      mret ((ok && allOpened), os', set_sink (w_sink w) s :: rest')
  end.
Definition open_all (m : Manager) : M (bool * Manager) :=
  '(ok, os, sinks) ← open_loop (m_os m) (m_sinks m);
  mret (ok, mkManager os sinks).

(** One handler of the strand of sink [i]; [rcv] is the time it reads. *)
Definition run_task (t : Task) (rcv : bytes) : IO unit :=
  match t with TWrite msg => handle (SWrite msg rcv) | TClose => handle SClose end.
Definition run_strand (i : nat) (rcv : bytes) (m : Manager) : M Manager :=
  match m_sinks m !! i with
  | Some s =>
      match ms_queue s with
      | t :: q =>
          '(_, w) ← run_task t rcv (mkWorld (m_os m) (ms_file s));
          mret (mkManager (w_os w) (<[i := set_queue q (set_sink (w_sink w) s)]> (m_sinks m)))
      | [] => mret m
      end
  | None => mret m
  end.
(** The whole queue of one strand, at the given times. *)
Fixpoint drain (i : nat) (rcvs : list bytes) (m : Manager) : M Manager :=
  match rcvs with [] => mret m | rcv :: rest => m' ← run_strand i rcv m; drain i rest m' end.

(** ** Promises *)

Lemma dispatch_lookup msgs i m s :
  m_sinks m !! i = Some s →
  m_sinks (foldl (λ m msg, dispatch msg m) m msgs) !! i =
  Some (set_queue (ms_queue s ++ (TWrite <$> filter (λ msg, accepts msg s = true) msgs)) s) ∧
  m_os (foldl (λ m msg, dispatch msg m) m msgs) = m_os m.
Proof.
  revert m s. induction msgs as [|msg msgs IH]; intros m s Hs; cbn [foldl].
  { rewrite app_nil_r. by destruct s. }
  assert (Hd : m_sinks (dispatch msg m) !! i = Some (if accepts msg s then post (TWrite msg) s else s))
    by (cbn; by rewrite list_lookup_fmap, Hs).
  destruct (IH _ _ Hd) as [-> ->]. split; [|done]. rewrite filter_cons.
  destruct (accepts msg s) eqn:Ha.
  - rewrite decide_True by done. cbn. unfold post, set_queue. cbn.
    do 2 f_equal. rewrite <- app_assoc. cbn. do 3 f_equal.
  - by rewrite decide_False by done.
Qed.

(** Running a queue of writes is handling the messages one after the other. *)
Lemma drain_handles i msgs rcvs m s w' :
  m_sinks m !! i = Some s → ms_queue s = TWrite <$> msgs → length rcvs = length msgs →
  handle_all (zip_with SWrite msgs rcvs) (mkWorld (m_os m) (ms_file s)) = Ret (tt, w') →
  drain i rcvs m = Ret (mkManager (w_os w') (<[i := set_queue [] (set_sink (w_sink w') s)]> (m_sinks m))).
Proof.
  revert rcvs m s. induction msgs as [|msg msgs IH]; intros [|rcv rcvs] m s Hs Hq Hl Hh; try done.
  - cbn in Hh. injection Hh as <-. cbn. f_equal. destruct m as [os sinks], s as [fa ex fi q].
    cbn in *. subst q. f_equal. symmetry. by apply list_insert_id.
  - cbn [zip_with handle_all drain] in *. unfold run_strand. rewrite Hs, Hq. cbn [fmap list_fmap run_task].
    unfold mbind, IO_bind in Hh. destruct (handle (SWrite msg rcv) _) as [[u w1]| |] eqn:Hw; try done.
    cbn [mbind M_bind mret M_ret].
    rewrite (IH rcvs _ (set_queue (TWrite <$> msgs) (set_sink (w_sink w1) s))).
    + cbn. by rewrite list_insert_insert_eq.
    + cbn. apply list_lookup_insert_eq. by eapply lookup_lt_Some.
    + done.
    + cbn in Hl. lia.
    + cbn. destruct w1. exact Hh.
Qed.

(** Routing end to end: whatever was dispatched, once a strand has run, its
    sink has handled exactly the messages its section accepts, each once and in
    the order of arrival, and neither the dispatching nor the strand has touched
    the state of another sink. *)
Theorem dispatch_in_order msgs rcvs i m s :
  m_sinks m !! i = Some s → ms_queue s = [] → Inv (mkWorld (m_os m) (ms_file s)) →
  let mine := filter (λ msg, accepts msg s = true) msgs in
  length rcvs = length mine →
  ∃ w' m', handle_all (zip_with SWrite mine rcvs) (mkWorld (m_os m) (ms_file s)) = Ret (tt, w') ∧
    drain i rcvs (foldl (λ m msg, dispatch msg m) m msgs) = Ret m' ∧
    m_os m' = w_os w' ∧ m_sinks m' !! i = Some (set_sink (w_sink w') s) ∧
    ∀ j, j ≠ i → ms_file <$> (m_sinks m' !! j) = ms_file <$> (m_sinks m !! j).
Proof.
  cbv zeta. intros Hs Hq Hi Hl. set (mine := filter _ msgs) in *.
  destruct (handle_all_Inv (zip_with SWrite mine rcvs) _ Hi) as ([] & w' & Hh & _).
  destruct (dispatch_lookup msgs i m s Hs) as [Hd Ho]. fold mine in Hd. rewrite Hq in Hd. cbn [app] in Hd.
  set (m1 := foldl _ m msgs) in *.
  eexists w', _. split; [done|]. split.
  { eapply (drain_handles i mine rcvs m1); [exact Hd|done|done|]. by rewrite Ho. }
  cbn. split; [done|]. split.
  - rewrite list_lookup_insert_eq by (by eapply lookup_lt_Some). by destruct s; cbn in *; subst.
  - intros j Hj. rewrite list_lookup_insert_ne by done.
    destruct (m_sinks m !! j) as [sj|] eqn:Hsj; cbn.
    + unfold m1. by destruct (dispatch_lookup msgs j m sj Hsj) as [-> _].
    + assert (Hlen : ∀ ms m0, length (m_sinks (foldl (λ m msg, dispatch msg m) m0 ms)) = length (m_sinks m0)).
      { induction ms as [|x ms IH]; intros m0; cbn [foldl]; [done|]. rewrite IH. cbn. by rewrite length_fmap. }
      unfold m1. rewrite (proj2 (lookup_ge_None _ _)); [done|]. rewrite Hlen. by apply lookup_ge_None.
Qed.

Definition valid_output (o : OutputConfig) : Prop :=
  oc_textFile o ≠ oc_jsonlFile o ∧ 0 <= oc_maxSize o.
Definition open_sink (s : MSink) : bool := negb (m_closed (ms_file s)).

(** A sink after startup: in service with both its files, or out of it for good. *)
Definition opened_sink (os : Os) (s : MSink) : Prop :=
  if open_sink s then in_service os (ms_file s) ∧ Inv (mkWorld os (ms_file s))
  else ∀ wh, detached wh (ms_file s).

Lemma opened_sink_grows os os' s :
  opened_sink os s → grows (os_files os) (os_files os') → opened_sink os' s.
Proof.
  unfold opened_sink. destruct (open_sink s); [|done]. intros [Hin Hi] Hg.
  split; [by eapply in_service_grows|by eapply Inv_grows].
Qed.

Lemma open_loop_spec outputs os :
  Forall valid_output outputs →
  ∃ ok os' sinks,
    open_loop os ((λ o, mkMSink (oc_facilities o) (oc_excludedFacilities o)
                          (new_LogFile o kRetryIntervalMs) []) <$> outputs) = Ret (ok, os', sinks) ∧
    length sinks = length outputs ∧ ok = forallb open_sink sinks ∧
    grows (os_files os) (os_files os') ∧ Forall (opened_sink os') sinks ∧
    Forall (λ s, ms_queue s = []) sinks ∧ (os_faults os = [] → ok = true).
Proof.
  intros Hv. revert os. induction Hv as [|o outputs [Hf Hm] Hv IH]; intros os.
  { cbn. eexists _, _, _. split_and!; first [done|apply grows_refl|constructor]. }
  cbn [fmap list_fmap open_loop ms_file].
  destruct (openAtStartup_spec o kRetryIntervalMs os Hf Hm) as (ok & w' & He & Hq & Hg & Hok & Hcl & Hpost).
  rewrite He. cbn [mbind M_bind].
  destruct (IH (w_os w')) as (ok2 & os' & sinks & He2 & Hl & Hall & Hg2 & Hfor & Hqs & Hn).
  rewrite He2. cbn [mbind M_bind mret M_ret]. eexists _, _, _. split; [done|]. cbn [length forallb].
  assert (Hopen : ∀ s, open_sink (set_sink (w_sink w') s) = ok) by (intros s; unfold open_sink; by rewrite Hcl).
  split_and!; [by rewrite Hl|by rewrite Hopen, Hall|by eapply grows_trans| |by constructor|].
  - constructor; [|done]. eapply opened_sink_grows; [|done]. unfold opened_sink. rewrite Hopen.
    cbn [ms_file set_sink]. destruct ok; [|by destruct Hpost]. destruct Hpost. split; [done|]. by destruct w'.
  - intros H0. rewrite (Hok H0), Hn; [done|]. by apply Hq.
Qed.

Lemma open_all_spec cfg os :
  Forall valid_output (cfg_outputs cfg) →
  ∃ ok m, open_all (new_OutputManager cfg os) = Ret (ok, m) ∧
    length (m_sinks m) = length (cfg_outputs cfg) ∧ ok = forallb open_sink (m_sinks m) ∧
    grows (os_files os) (os_files (m_os m)) ∧ Forall (opened_sink (m_os m)) (m_sinks m) ∧
    Forall (λ s, ms_queue s = []) (m_sinks m) ∧ (os_faults os = [] → ok = true).
Proof.
  intros Hv. destruct (open_loop_spec _ os Hv) as (ok & os' & sinks & He & Hrest).
  unfold open_all, new_OutputManager. cbn [m_os m_sinks]. rewrite He. cbn. eexists _, _. split; [done|]. done.
Qed.

(** open returns true exactly when every sink could be opened, and tries
    them all, in order: no failure hides another. Those that opened are all in
    service when it returns, none has lost a byte, and a sink that did not open
    holds no file open. *)
Theorem open_all_exact cfg os :
  Forall valid_output (cfg_outputs cfg) →
  ∃ ok m, open_all (new_OutputManager cfg os) = Ret (ok, m) ∧
    length (m_sinks m) = length (cfg_outputs cfg) ∧ ok = forallb open_sink (m_sinks m) ∧
    grows (os_files os) (os_files (m_os m)) ∧ Forall (opened_sink (m_os m)) (m_sinks m) ∧
    (os_faults os = [] → ok = true).
Proof.
  intros Hv. destruct (open_all_spec cfg os Hv) as (ok & m & ? & ? & ? & ? & ? & _ & ?). by exists ok, m.
Qed.
End manager.

(** ** A concrete manager *)

Definition manager0 : Manager := mkManager (mkOs ∅ [] 0 []) [mkMSink [4] [] sink0 []; mkMSink [] [4] sink0 []].

Lemma dispatch_in_order_witness :
  let mine := filter (λ msg, accepts msg (mkMSink [4] [] sink0 []) = true) [message0; emptyMessage; message0] in
  ∃ w' m', @handle_all example_env (zip_with SWrite mine [lit "T"; lit "U"]) (mkWorld (mkOs ∅ [] 0 []) sink0)
             = Ret (tt, w') ∧
    @drain example_env 0 [lit "T"; lit "U"]
      (foldl (λ m msg, dispatch msg m) manager0 [message0; emptyMessage; message0]) = Ret m' ∧
    m_os m' = w_os w' ∧ m_sinks m' !! 0%nat = Some (set_sink (w_sink w') (mkMSink [4] [] sink0 [])) ∧
    ∀ j, j ≠ 0%nat → ms_file <$> (m_sinks m' !! j) = ms_file <$> (m_sinks manager0 !! j).
Proof.
  apply (@dispatch_in_order example_env [message0; emptyMessage; message0] [lit "T"; lit "U"] 0 manager0
           (mkMSink [4] [] sink0 [])); [reflexivity|reflexivity|apply Inv0|vm_compute; reflexivity].
Defined.

Definition outputs0 : Config := mkConfig (lit "127.0.0.1") 514 1 1000 [config0] defaultForwarding.
Lemma open_all_exact_witness :
  ∃ ok m, @open_all example_env (new_OutputManager outputs0 (mkOs ∅ [Some 0%nat] 0 [])) = Ret (ok, m) ∧
    length (m_sinks m) = length (cfg_outputs outputs0) ∧ ok = forallb open_sink (m_sinks m) ∧
    grows ∅ (os_files (m_os m)) ∧ Forall (opened_sink (m_os m)) (m_sinks m) ∧
    ([Some 0%nat] = [] → ok = true).
Proof.
  apply (@open_all_exact example_env outputs0 (mkOs ∅ [Some 0%nat] 0 [])).
  constructor; [split; vm_compute; congruence|constructor].
Defined.
