(* ===== verification/Alarm.v ===== *)
(** * What a sink that cannot be opened says

    At start-up a sink says nothing but errors, and a sink that does not open
    ([LogFile::openAtStartup] answers false) has said why. *)

From S2P Require Import Prelude Names Parser Platform Config FileSystem LogFile LogFileSpec OutputManager.

Definition is_error (x : LogLine) : Prop := x.1 = LError.
(** The log goes from [k] to [k'] with errors, and with one at least when [said]. *)
Definition errors_since {A : Type} (line : A → LogLine) (said : Prop) (k k' : list A) : Prop :=
  ∃ l, k' = l ++ k ∧ Forall (λ x, is_error (line x)) l ∧ (said → l ≠ []).

Lemma errors_since_refl {A : Type} (line : A → LogLine) (said : Prop) k : ¬ said → errors_since line said k k.
Proof. intros H. exists []. split_and!; [done|constructor|done]. Qed.
Lemma errors_since_trans {A : Type} (line : A → LogLine) (p q r : Prop) k1 k2 k3 :
  (r → p ∨ q) → errors_since line p k1 k2 → errors_since line q k2 k3 → errors_since line r k1 k3.
Proof.
  intros Hr (l1 & -> & H1 & S1) (l2 & -> & H2 & S2). exists (l2 ++ l1). split_and!; [by rewrite app_assoc|by apply Forall_app|].
  intros Hs E. apply app_eq_nil in E as [-> ->]. destruct (Hr Hs) as [Hp|Hq]; [by apply S1|by apply S2].
Qed.
(** The last line is then an error. *)
Lemma errors_since_last {A : Type} (line : A → LogLine) (said : Prop) k k' :
  errors_since line said k k' → said → ∃ what rest, line <$> k' = (LError, what) :: rest.
Proof.
  intros (l & -> & Hl & Hs) Hsaid. destruct l as [|x l]; [by destruct (Hs Hsaid)|]. apply Forall_inv in Hl.
  unfold is_error in Hl. cbn. destruct (line x) as [level what]. cbn in Hl. subst level. by eexists _, _.
Qed.

Section alarm.
Context `{LogEnv}.

(** A part of the start of a sink: it says errors only, and one if it closes the sink. *)
Definition alarms {A : Type} (m : IO A) : Prop :=
  ∀ w a w', m_startingUp (w_sink w) = true → m w = Ret (a, w') →
    m_startingUp (w_sink w') = true ∧
    errors_since snd (m_closed (w_sink w) = false ∧ m_closed (w_sink w') = true) (os_log (w_os w)) (os_log (w_os w')).

Lemma alarms_bind {A B : Type} (m : IO A) (f : A → IO B) : alarms m → (∀ a, alarms (f a)) → alarms (m ≫= f).
Proof.
  intros Hm Hf w b w' Hw E. unfold mbind, IO_bind in E. destruct (m w) as [[a w1]| |] eqn:Em; [|done..].
  destruct (Hm w a w1 Hw Em) as [H1 L1]. destruct (Hf a w1 b w' H1 E) as [H2 L2]. split; [done|].
  eapply errors_since_trans; [|exact L1|exact L2]. intros [Hc Hc']. destruct (m_closed (w_sink w1)); [by left|by right].
Qed.
Lemma alarms_quiet {A : Type} (m : IO A) :
  (∀ w, wp m w (λ _ w', os_log (w_os w') = os_log (w_os w) ∧ m_startingUp (w_sink w') = m_startingUp (w_sink w) ∧
                        m_closed (w_sink w') = m_closed (w_sink w))) →
  alarms m.
Proof.
  intros Hq w a w' Hw E. destruct (Hq w) as (b & w1 & E1 & Hl & Hs & Hc). rewrite E in E1. injection E1 as <- <-.
  rewrite Hl, Hs, Hc. split; [done|]. apply errors_since_refl. intros [H1 H2]. congruence.
Qed.
Lemma alarms_failSink reason : alarms (failSink reason).
Proof.
  intros [os s] [] w' Hw E. cbn [w_sink] in Hw. unfold failSink, mbind, IO_bind, this in E. cbn [w_sink] in E. rewrite Hw in E.
  unfold osLogError, log, sys, assign, closeFiles, mbind, IO_bind in E. cbn in E. injection E as <-. cbn [w_sink w_os].
  split; [unfold close_one; by repeat case_match|]. eexists [_]. split_and!; [done|by constructor|done].
Qed.

Lemma alarms_open_one wh : alarms (open_one wh).
Proof.
  unfold open_one. apply alarms_bind; [apply alarms_quiet; intros w; wp_go; done|]. intros file.
  destruct (sv_empty file); [apply alarms_quiet; intros w; wp_go; done|].
  apply alarms_bind; [apply alarms_quiet; intros w; wp_go; done|]. intros st.
  apply alarms_bind; [apply alarms_quiet; intros w; wp_go; done|]. intros size0.
  apply alarms_bind; [|intros st'].
  { apply alarms_quiet. intros w. destruct (st_open st); wp_go; [done|]. pose proof (fs_open_spec file (w_os w)) as Ho.
    destruct (fs_open file (w_os w)) as [opened os1]. wp_go. cbn. split_and!; [apply Ho|done|done]. }
  apply alarms_bind; [apply alarms_quiet; intros w; wp_go; by destruct wh|]. intros _.
  destruct (negb (st_open st')); [apply alarms_bind; [apply alarms_failSink|intros _; apply alarms_quiet; intros w; wp_go; done]|].
  apply alarms_bind; [|intros [n|]].
  - apply alarms_quiet. intros w. wp_go. pose proof (fs_file_size_spec file (w_os w)) as Hz.
    destruct (fs_file_size file (w_os w)) as [r os1]. cbn. split_and!; [apply Hz|done|done].
  - apply alarms_quiet. intros w. wp_go. by destruct wh.
  - apply alarms_bind; [apply alarms_failSink|intros _; apply alarms_quiet; intros w; wp_go; done].
Qed.

Lemma alarms_openFiles : alarms openFiles.
Proof.
  unfold openFiles. apply alarms_bind; [apply alarms_open_one|]. intros [|]; [|apply alarms_quiet; intros w; wp_go; done].
  apply alarms_bind; [apply alarms_open_one|]. intros _. apply alarms_quiet. intros w. wp_go. done.
Qed.

(** A sink that was not closed, and does not open, has said why. *)
Lemma openAtStartup_says w ok w' :
  m_closed (w_sink w) = false → openAtStartup w = Ret (ok, w') →
  errors_since snd (ok = false) (os_log (w_os w)) (os_log (w_os w')).
Proof.
  intros Hc E. unfold openAtStartup, assign, this, mbind, IO_bind in E.
  destruct (openFiles _) as [[[] w1]| |] eqn:E1; [|done..]. apply alarms_openFiles in E1 as [_ (l & Hl & He & Hs)]; [|done].
  cbn in Hl, Hs. rewrite Hc in Hs. injection E as <- <-. cbn [w_os]. exists l. split_and!; [done|done|].
  intros Hok. apply Hs. split; [done|]. by destruct (m_closed (w_sink w1)).
Qed.

Lemma open_loop_says sinks os ok os' sinks' :
  Forall (λ s, m_closed (ms_file s) = false) sinks → open_loop os sinks = Ret (ok, os', sinks') →
  errors_since snd (ok = false) (os_log os) (os_log os').
Proof.
  intros Hc. revert os ok os' sinks'. induction Hc as [|s sinks Hs _ IH]; intros os ok os' sinks' E; cbn [open_loop] in E.
  { injection E as <- <- _. by apply errors_since_refl. }
  destruct (openAtStartup _) as [[ok1 w1]| |] eqn:E1; [|done..]. cbn [mbind M_bind] in E.
  destruct (open_loop (w_os w1) sinks) as [[[ok2 os2] rest]| |] eqn:E2; [|done..]. injection E as <- <- _.
  apply openAtStartup_says in E1; [|done]. apply IH in E2. eapply errors_since_trans; [|exact E1|exact E2].
  destruct ok1, ok2; cbn; auto.
Qed.

(** [OutputManager::open] answers false only after an error in the system log. *)
Lemma open_all_says cfg os ok m :
  open_all (new_OutputManager cfg os) = Ret (ok, m) → errors_since snd (ok = false) (os_log os) (os_log (m_os m)).
Proof.
  unfold open_all, new_OutputManager. cbn [m_os m_sinks].
  destruct (open_loop os _) as [[[ok1 os1] sinks]| |] eqn:E; [|done..]. intros [= <- <-]. cbn [m_os].
  eapply open_loop_says; [|exact E]. by apply Forall_fmap, Forall_true.
Qed.
End alarm.
