(* ===== verification/UdpServer.v ===== *)
(** * Receiving (src/src/server/udp_server.cpp, udp_server.hpp)

    [UdpServer]: the handlers that run on the socket's strand, and the task each
    accepted datagram becomes. The socket is what the handlers ask of it: whether
    a receive or the re-arm timer is pending. An allocation can fail where the
    handler allocates, which makes it throw there. *)

From S2P Require Import Prelude Names Parser ParserSpec Platform Config Escape Admission Backoff FileSystem LogFile Lifecycle Sinks OutputManager Forwarder.

(** [boost::system::error_code] of a receive. *)
Inductive ReceiveError := OperationAborted | BadDescriptor | OtherError (what : bytes).

(** A datagram on its way from the socket to the parser, with its charge. *)
Record Posted := mkPosted { po_data : bytes; po_srcIp : bytes }.

Record UdpServer := mkServer {
  u_cfg : Config;
  u_open : bool;                              (* the socket is open *)
  u_receiving : bool;                         (* async_receive_from is pending *)
  u_rearmTimer : bool;
  u_admission : Admission.State;
  u_backoff : ReceiveBackoff.t;
  u_lastDropReport : option Z;
  u_posted : list Posted;                     (* tasks posted to the io_context *)
  u_charges : list Z;                         (* tokens that still have a copy *)
  u_leaked : Z;                               (* charges without a token *)
  u_log : list LogLine                        (* the latest first *)
}.

Definition BUFFER_SIZE : Z := 65507.
Definition DROP_REPORT_INTERVAL : Z := seconds 10.

(** The constructor. *)
Definition new_UdpServer (cfg : Config) : UdpServer :=
  mkServer cfg false false false (initial_State (cfg_maxQueueBytes cfg)) ReceiveBackoff.init None
    [] [] 0 [].

Definition set_socket (open receiving rearm : bool) (s : UdpServer) : UdpServer :=
  mkServer (u_cfg s) open receiving rearm (u_admission s) (u_backoff s) (u_lastDropReport s)
    (u_posted s) (u_charges s) (u_leaked s) (u_log s).
Definition set_admission (a : Admission.State) (s : UdpServer) : UdpServer :=
  mkServer (u_cfg s) (u_open s) (u_receiving s) (u_rearmTimer s) a (u_backoff s) (u_lastDropReport s)
    (u_posted s) (u_charges s) (u_leaked s) (u_log s).
Definition set_charges (charges : list Z) (leaked : Z) (s : UdpServer) : UdpServer :=
  mkServer (u_cfg s) (u_open s) (u_receiving s) (u_rearmTimer s) (u_admission s) (u_backoff s)
    (u_lastDropReport s) (u_posted s) charges leaked (u_log s).
Definition set_backoff (b : ReceiveBackoff.t) (s : UdpServer) : UdpServer :=
  mkServer (u_cfg s) (u_open s) (u_receiving s) (u_rearmTimer s) (u_admission s) b (u_lastDropReport s)
    (u_posted s) (u_charges s) (u_leaked s) (u_log s).
Definition set_lastDropReport (t : Z) (s : UdpServer) : UdpServer :=
  mkServer (u_cfg s) (u_open s) (u_receiving s) (u_rearmTimer s) (u_admission s) (u_backoff s) (Some t)
    (u_posted s) (u_charges s) (u_leaked s) (u_log s).
Definition set_posted (p : list Posted) (s : UdpServer) : UdpServer :=
  mkServer (u_cfg s) (u_open s) (u_receiving s) (u_rearmTimer s) (u_admission s) (u_backoff s)
    (u_lastDropReport s) p (u_charges s) (u_leaked s) (u_log s).
Definition add_log (line : LogLine) (s : UdpServer) : UdpServer :=
  mkServer (u_cfg s) (u_open s) (u_receiving s) (u_rearmTimer s) (u_admission s) (u_backoff s)
    (u_lastDropReport s) (u_posted s) (u_charges s) (u_leaked s) (line :: u_log s).

(** ** Handlers *)

(** A receive can be started on a closed socket; it then completes with an error. *)
Definition receive (s : UdpServer) : UdpServer := set_socket (u_open s) true (u_rearmTimer s) s.

Definition reportDrops (force : bool) (now : Z) (s : UdpServer) : UdpServer :=
  if negb force && match u_lastDropReport s with
                   | Some last => now - last <? DROP_REPORT_INTERVAL | None => false end
  then s
  else
    let dropped := droppedWindow (u_admission s) in
    let s := set_admission (set_droppedWindow 0 (u_admission s)) s in
    if dropped =? 0 then s else
    let over := match u_lastDropReport s with
                | Some last =>
                    let ms := Z.quot (now - last) 1000000 in
                    if ms <? 1000 then lit " in the last " ++ to_string ms ++ lit " ms"
                    else lit " in the last " ++ to_string (Z.quot ms 1000) ++ lit " s"
                | None => []
                end in
    add_log (LError, lit "minilog: dropped " ++ to_string dropped ++ lit " datagram(s)" ++ over ++
             lit " — the receive queue reached max_queue_bytes (" ++
             to_string (budget (u_admission s)) ++
             lit "). Datagrams are arriving faster than they can be written.")
            (set_lastDropReport now s).

Definition handleReceiveError (what : bytes) (now : Z) (s : UdpServer) : UdpServer :=
  let '(b, d) := ReceiveBackoff.onError now (u_backoff s) in
  let s := set_backoff b s in
  let s := if ReceiveBackoff.report d then
             add_log (LError, lit "minilog: receive error: " ++ what ++
               (if ReceiveBackoff.suppressed d =? 0 then []
                else lit " (" ++ to_string (ReceiveBackoff.suppressed d) ++
                     lit " further receive error(s) since the last report)")) s
           else s in
  set_socket (u_open s) (u_receiving s) true s.

(** Where [onReceive] runs out of memory: making the charge, copying the data, or
    posting the task. *)
Inductive OutOfMemory := AtCharge | AtCopy | AtPost.

(** [admit] as the strand that calls it sees it: the round of the loop that
    decides, then the second counter of a drop. The other threads only release
    charges, which [Release] interleaves. *)
Definition admit_call (bytes : Z) (a : Admission.State) : Admission.State * bool :=
  match admit_round bytes (inFlight a) false a with
  | (a', CountingDrop _) => (set_droppedTotal (u64 (droppedTotal a' + 1)) a', false)
  | (a', _) => (a', true)
  end.

(** The completion handler of the receive: the second component says whether it
    threw. *)
Definition onReceive (ec : option ReceiveError) (data srcIp : bytes) (now : Z) (oom : option OutOfMemory)
    (s : UdpServer) : UdpServer * bool :=
  let s := set_socket (u_open s) false (u_rearmTimer s) s in
  match ec with
  | Some (OtherError what) => (handleReceiveError what now s, false)
  | Some _ => (s, false)
  | None =>
      let '(b, ended) := ReceiveBackoff.onSuccess (u_backoff s) in
      let s := set_backoff b s in
      let s := if ended =? 0 then s
               else add_log (LInfo, lit "minilog: receiving again after " ++ to_string ended ++
                             lit " consecutive receive error(s)") s in
      let '(a, admitted) := admit_call (zlen data) (u_admission s) in
      let s := set_admission a s in
      if negb admitted then (receive (reportDrops false now s), false) else
      match oom with
      | Some AtCharge => (set_charges (u_charges s) (u_leaked s + zlen data) s, true)
      | Some AtCopy => (set_admission (set_inFlight (u64 (inFlight a - zlen data)) a) s, true)
      | Some AtPost => (receive (set_admission (set_inFlight (u64 (inFlight a - zlen data)) a) s), true)
      | None =>
          let s := set_charges (u_charges s ++ [zlen data]) (u_leaked s) s in
          (set_posted (u_posted s ++ [mkPosted data srcIp]) (receive s), false)
      end
  end.

(** The handler of the re-arm timer. *)
Definition onRearm (cancelled : bool) (s : UdpServer) : UdpServer :=
  let s := set_socket (u_open s) (u_receiving s) false s in
  if cancelled then s else receive s.

(** What [stop] posts. The handler of the re-arm timer is still to run: with
    [operation_aborted], or as expired when it was queued already. *)
Definition stop (now : Z) (s : UdpServer) : UdpServer :=
  reportDrops true now (set_socket false (u_receiving s) (u_rearmTimer s) s).

(** The last copy of a token goes. *)
Definition release (i : nat) (s : UdpServer) : UdpServer :=
  match u_charges s !! i with
  | Some b => set_charges (delete i (u_charges s)) (u_leaked s)
                (set_admission (set_inFlight (u64 (inFlight (u_admission s) - b)) (u_admission s)) s)
  | None => s
  end.

Section start.
Context `{Machine}.

(** [start]; [bound] is what opening and binding the socket gives. *)
Definition start (ec_message : bytes) (bound : option bytes) (s : UdpServer) : M UdpServer :=
  match make_address (cfg_host (u_cfg s)) with
  | None => Throw (RuntimeError (lit "minilog: invalid [server] host '" ++ cfg_host (u_cfg s) ++
                                 lit "': " ++ ec_message))
  | Some _ =>
      match bound with
      | Some what => Throw (RuntimeError (lit "minilog: failed to bind UDP port " ++
                              to_string (cfg_udpPort (u_cfg s)) ++ lit ": " ++ what))
      | None => mret (receive (set_socket true (u_receiving s) (u_rearmTimer s) s))
      end
  end.
End start.

(** The task posted for a datagram: parse, stamp, route, forward. Routing and
    forwarding only post, to the strands of the sinks and of the forwarder. *)
Definition with_source (srcIp : bytes) (token : nat) (msg : SyslogMessage) : SyslogMessage :=
  mkMessage (protocol msg) (raw msg) srcIp (pri msg) (facility msg) (severity msg)
    (facilityName msg) (severityName msg) (version msg) (timestamp msg) (hostname msg)
    (appName msg) (procId msg) (msgId msg) (message msg) (Some token).
Definition process (p : Posted) (token : nat) (m : Manager) (forwarder : option (Forwarder * list FTask))
    : M (Manager * option (Forwarder * list FTask)) :=
  msg ← parseSyslog (po_data p);
  let msg := with_source (po_srcIp p) token msg in
  mret (dispatch msg m, forward msg <$> forwarder).

(** ** Histories *)

Inductive Event :=
| Receive (ec : option ReceiveError) (data srcIp : bytes) (now : Z) (oom : option OutOfMemory)
| Rearm (cancelled : bool)
| Stop (now : Z)
| Release (i : nat).

(** A receive ends when one is pending; it is aborted, or finds a bad descriptor,
    when the socket is closed. The timer's handler runs when it was armed; it is
    cancelled by a stop only, and may have expired before that and run after it. *)
Definition possible (s : UdpServer) (e : Event) : bool :=
  match e with
  | Receive ec _ _ _ _ =>
      u_receiving s &&
      match ec with Some OperationAborted | Some BadDescriptor => negb (u_open s) | _ => true end
  | Rearm cancelled => u_rearmTimer s && (negb cancelled || negb (u_open s))
  | _ => true
  end.
Definition step (s : UdpServer) (e : Event) : UdpServer :=
  if negb (possible s e) then s else
  match e with
  | Receive ec data srcIp now oom => (onReceive ec data srcIp now oom s).1
  | Rearm cancelled => onRearm cancelled s
  | Stop now => stop now s
  | Release i => release i s
  end.
Definition run (s : UdpServer) (es : list Event) : UdpServer := foldl step s es.

(** ** Listening *)

(** Exactly one of a receive and a re-arm is pending. *)
Definition listening (s : UdpServer) : Prop := u_rearmTimer s = negb (u_receiving s).
Definition no_oom (e : Event) : Prop :=
  match e with Receive _ _ _ _ (Some AtCharge) | Receive _ _ _ _ (Some AtCopy) => False | _ => True end.

Lemma reportDrops_socket force now s :
  u_open (reportDrops force now s) = u_open s ∧ u_receiving (reportDrops force now s) = u_receiving s ∧
  u_rearmTimer (reportDrops force now s) = u_rearmTimer s ∧ u_cfg (reportDrops force now s) = u_cfg s.
Proof. unfold reportDrops. destruct (_ && _); [done|]. by destruct (_ =? 0). Qed.

(** An admitted datagram. *)
Lemma admit_cases n a :
  let '(a', admitted) := admit_call n a in
  if admitted : bool then u64 (inFlight a + n) <= budget a ∧ a' = set_inFlight (u64 (inFlight a + n)) a
  else budget a < u64 (inFlight a + n) ∧
       a' = set_droppedTotal (u64 (droppedTotal a + 1)) (set_droppedWindow (u64 (droppedWindow a + 1)) a).
Proof.
  unfold admit_call, admit_round. destruct (Z.ltb_spec (budget a) (u64 (inFlight a + n))); [done|].
  by rewrite Z.eqb_refl.
Qed.

(** A received datagram leaves a receive pending, unless memory ran out. *)
Lemma onReceive_listens data srcIp now oom s :
  oom ≠ Some AtCharge → oom ≠ Some AtCopy →
  let s' := (onReceive None data srcIp now oom s).1 in
  u_receiving s' = true ∧ u_rearmTimer s' = u_rearmTimer s ∧ u_open s' = u_open s.
Proof.
  intros H1 H2. unfold onReceive. destruct (ReceiveBackoff.onSuccess _) as [b ended].
  set (s1 := if ended =? 0 then _ else _).
  assert (E : u_rearmTimer s1 = u_rearmTimer s ∧ u_open s1 = u_open s)
    by (unfold s1; by destruct (ended =? 0)).
  clearbody s1. destruct E as [<- <-]. destruct (admit_call _ _) as [a [|]]; cbn [negb].
  - by destruct oom as [[]|].
  - cbn. destruct (reportDrops_socket false now (set_admission a s1)) as (? & _ & ? & _). done.
Qed.

Lemma step_listening s e :
  no_oom e → (u_open s = true → listening s) → u_open (step s e) = true → listening (step s e).
Proof.
  intros Hoom Hl. unfold step. destruct (possible s e) eqn:Hp; cbn [negb]; [|done].
  unfold listening in *. destruct e as [ec data srcIp now oom|cancelled|now|i]; cbn [possible] in Hp.
  - apply andb_true_iff in Hp as [Hr Hec]. destruct ec as [[| |what]|].
    + cbn. intros Ho. by rewrite Ho in Hec.
    + cbn. intros Ho. by rewrite Ho in Hec.
    + cbn. unfold handleReceiveError. destruct (ReceiveBackoff.onError _ _) as [b d]. cbn.
      by destruct (ReceiveBackoff.report d).
    + destruct (onReceive_listens data srcIp now oom s) as (-> & -> & ->);
        [by destruct oom as [[]|]|by destruct oom as [[]|]|]. intros Ho. by rewrite (Hl Ho), Hr.
  - apply andb_true_iff in Hp as [Hr Hc]. unfold onRearm. destruct cancelled; cbn; [|done].
    intros Ho. by rewrite Ho in Hc.
  - unfold stop. match goal with |- context [reportDrops true now ?x] =>
      destruct (reportDrops_socket true now x) as (-> & _) end. done.
  - unfold release. by destruct (u_charges s !! i).
Qed.

(** C20. The server keeps listening: as long as no handler runs out of memory,
    after every history of datagrams, receive errors, timers and stops, an open
    socket has exactly one receive or one re-arm pending. *)
Theorem udp_listens `{Machine} cfg ec_message s0 es :
  start ec_message None (new_UdpServer cfg) = Ret s0 → Forall no_oom es →
  u_open (run s0 es) = true → listening (run s0 es).
Proof.
  intros Hs He. unfold start in Hs. destruct (make_address _); [|done]. injection Hs as <-.
  assert (Hl : u_open (receive (set_socket true false false (new_UdpServer cfg))) = true →
               listening (receive (set_socket true false false (new_UdpServer cfg)))) by done.
  revert Hl. cbn [new_UdpServer u_receiving u_rearmTimer] in *.
  generalize (receive (set_socket true false false (new_UdpServer cfg))). unfold run.
  induction He as [|e es He Hes IH]; intros s Hl; cbn [foldl]; [done|]. apply IH. by apply step_listening.
Qed.

(** Nothing but a completed receive or an expired timer starts a receive. *)
Lemma run_deaf s es :
  u_receiving s = false → u_rearmTimer s = false →
  u_receiving (run s es) = false ∧ u_rearmTimer (run s es) = false.
Proof.
  revert s. induction es as [|e es IH]; intros s Hr Ht; [done|]. apply IH.
  - unfold step, possible. destruct e; rewrite ?Hr, ?Ht; cbn [andb negb]; try done.
    + unfold stop. match goal with |- context [reportDrops true ?n ?x] =>
        destruct (reportDrops_socket true n x) as (_ & -> & _) end. done.
    + unfold release. by destruct (u_charges s !! i).
  - unfold step, possible. destruct e; rewrite ?Hr, ?Ht; cbn [andb negb]; try done.
    + unfold stop. match goal with |- context [reportDrops true ?n ?x] =>
        destruct (reportDrops_socket true n x) as (_ & _ & -> & _) end. done.
    + unfold release. by destruct (u_charges s !! i).
Qed.

(** Running out of memory in the receive handler before it re-arms leaves the
    socket open with nothing pending on it: neither a receive nor a re-arm. No
    later timer or release changes that. *)
Theorem oom_stops_listening s data srcIp now oom es :
  u_open s = true → u_rearmTimer s = false → 0 <= inFlight (u_admission s) →
  inFlight (u_admission s) + zlen data <= budget (u_admission s) < 2 ^ 64 → oom ≠ AtPost →
  let '(s', threw) := onReceive None data srcIp now (Some oom) s in
  threw = true ∧ u_open s' = true ∧
  u_receiving (run s' es) = false ∧ u_rearmTimer (run s' es) = false.
Proof.
  intros Ho Hr Hi Hb Hoom. unfold onReceive. destruct (ReceiveBackoff.onSuccess _) as [b ended].
  set (s1 := if ended =? 0 then _ else _).
  assert (E : u_open s1 = true ∧ u_receiving s1 = false ∧ u_rearmTimer s1 = false ∧
              u_admission s1 = u_admission s) by (unfold s1; by destruct (ended =? 0)).
  clearbody s1. destruct E as (? & ? & ? & ->). assert (0 <= zlen data) by (unfold zlen; lia).
  pose proof (admit_cases (zlen data) (u_admission s)) as Ha. destruct (admit_call _ _) as [a [|]];
    rewrite u64_small in Ha by lia; [|lia].
  cbn [negb]. destruct oom; [| |done]; (split_and!; [done|done|..]); by apply run_deaf.
Qed.

(** ** The budget and the drops *)

Section accounting.
Context (B : Z).
Hypothesis no_wrap : 0 <= B ∧ B + BUFFER_SIZE < 2 ^ 64.

(** What a reader of the log is told was dropped. *)
Definition line_drops (line : LogLine) : Z :=
  match line with
  | (LError, text) => default 0 (count_between (lit "minilog: dropped ") (lit " datagram(s)") text)
  | (LInfo, _) => 0
  end.
Definition announced_drops (s : UdpServer) : Z := zsum line_drops (u_log s).

Lemma drops_printed n rest :
  0 <= n → line_drops (LError, lit "minilog: dropped " ++ to_string n ++ lit " datagram(s)" ++ rest) = n.
Proof. intros Hn. unfold line_drops. by rewrite count_between_printed. Qed.

(** The receive buffer bounds a datagram. *)
Definition fits (e : Event) : Prop :=
  match e with Receive _ data _ _ _ => zlen data <= BUFFER_SIZE | _ => True end.

Record UInv (s : UdpServer) : Prop := {
  ui_budget : budget (u_admission s) = B;
  ui_charged : inFlight (u_admission s) = zsum id (u_charges s) + u_leaked s;
  ui_bound : 0 <= inFlight (u_admission s) <= B;
  ui_charges : Forall (λ b, 0 <= b) (u_charges s);
  ui_leaked : 0 <= u_leaked s;
  ui_window : 0 <= droppedWindow (u_admission s);
  ui_drops : droppedTotal (u_admission s) = u64 (announced_drops s + droppedWindow (u_admission s))
}.

Lemma UInv_reportDrops force now s : UInv s → UInv (reportDrops force now s).
Proof.
  intros []. unfold reportDrops. destruct (_ && _); [by constructor|].
  destruct (Z.eqb_spec (droppedWindow (u_admission s)) 0) as [E|E].
  - constructor; cbn; try done. rewrite ui_drops0. unfold announced_drops. cbn. f_equal. lia.
  - constructor; try done. unfold announced_drops. cbn [u_log add_log zsum]. rewrite drops_printed by done.
    cbn. rewrite ui_drops0. unfold announced_drops. f_equal. lia.
Qed.

(** Only the named parts matter. *)
Lemma UInv_ext s s' :
  UInv s → u_admission s' = u_admission s → u_charges s' = u_charges s → u_leaked s' = u_leaked s →
  announced_drops s' = announced_drops s → UInv s'.
Proof. intros [] Ha Hc Hl Hr. constructor; rewrite ?Ha, ?Hc, ?Hl, ?Hr; done. Qed.

Lemma UInv_admit n s :
  UInv s → 0 <= n <= BUFFER_SIZE →
  let '(a, admitted) := admit_call n (u_admission s) in
  if admitted : bool then inFlight (u_admission s) + n <= B ∧
    a = set_inFlight (inFlight (u_admission s) + n) (u_admission s)
  else UInv (set_admission a s).
Proof.
  intros [] Hn. pose proof (admit_cases n (u_admission s)) as Ha. destruct (admit_call _ _) as [a [|]];
    rewrite (u64_small (inFlight _ + n)) in Ha by lia.
  - destruct Ha as [? ->]. split; [lia|done].
  - destruct Ha as [_ ->]. constructor; cbn; try done; [apply u64_range|].
    rewrite ui_drops0, u64_add_l, u64_add_r. unfold announced_drops. cbn. f_equal. lia.
Qed.

Lemma onReceive_UInv ec data srcIp now oom s :
  zlen data <= BUFFER_SIZE → UInv s → UInv (onReceive ec data srcIp now oom s).1.
Proof.
  intros Hf Hi. unfold onReceive. destruct ec as [[| |what]|]; try by eapply UInv_ext.
  - unfold handleReceiveError. destruct (ReceiveBackoff.onError _ _) as [b d].
    eapply UInv_ext; [exact Hi|..]; by destruct (ReceiveBackoff.report d).
  - destruct (ReceiveBackoff.onSuccess _) as [b ended]. set (s1 := if ended =? 0 then _ else _).
    assert (Hi1 : UInv s1) by (eapply UInv_ext; [exact Hi|..]; unfold s1; by destruct (ended =? 0)).
    clearbody s1. assert (Hn : 0 <= zlen data <= BUFFER_SIZE) by (split; [unfold zlen; lia|done]).
    pose proof (UInv_admit _ _ Hi1 Hn) as Ha. destruct (admit_call _ _) as [a [|]]; cbn [negb].
    + destruct Ha as [Hfit ->]. destruct Hi1.
      destruct oom as [[]|]; constructor; cbn; rewrite ?u64_small by lia; try done; try lia.
      * rewrite zsum_app. cbn. unfold id in *. lia.
      * apply Forall_app. split; [done|]. constructor; [lia|constructor].
    + cbn. eapply UInv_ext; [apply UInv_reportDrops, Ha|..]; done.
Qed.

(** A stop leaves no drop unreported. *)
Lemma stop_reports now s :
  droppedWindow (u_admission (stop now s)) = 0 ∧ droppedTotal (u_admission (stop now s)) = droppedTotal (u_admission s).
Proof.
  unfold stop, reportDrops. cbn [negb andb u_lastDropReport set_socket u_admission].
  by destruct (Z.eqb_spec (droppedWindow (u_admission s)) 0).
Qed.

Lemma step_UInv s e : fits e → UInv s → UInv (step s e).
Proof.
  intros Hf Hi. unfold step. destruct (negb (possible s e)); [done|].
  destruct e as [ec data srcIp now oom|cancelled|now|i].
  - by apply onReceive_UInv.
  - unfold onRearm. destruct cancelled; by eapply UInv_ext.
  - apply UInv_reportDrops. by eapply UInv_ext.
  - unfold release. destruct (u_charges s !! i) as [b|] eqn:Hb; [|done]. destruct Hi.
    pose proof (proj1 (Forall_lookup _ _) ui_charges0 _ _ Hb) as Hpos. cbn in Hpos.
    assert (b <= zsum id (u_charges s)).
    { apply (zsum_lookup_le id _ i); [|done]. intros x. by apply (proj1 (Forall_forall _ _)). }
    assert (0 <= BUFFER_SIZE) by done.
    constructor; cbn; try done; rewrite ?u64_small by lia; [|lia|by apply Forall_delete].
    rewrite (zsum_delete _ _ _ _ Hb). unfold id in *. lia.
Qed.

Lemma run_UInv s es : Forall fits es → UInv s → UInv (run s es).
Proof.
  intros He. revert s. induction He as [|e es He Hes IH]; intros s Hi; [done|]. by apply IH, step_UInv.
Qed.

Lemma start_UInv `{Machine} cfg ec_message s0 :
  cfg_maxQueueBytes cfg = B → start ec_message None (new_UdpServer cfg) = Ret s0 → UInv s0.
Proof.
  intros <- Hs. unfold start in Hs. destruct (make_address _); [|done]. injection Hs as <-.
  constructor; cbn; try done; lia || apply Forall_nil_2.
Qed.
End accounting.


(** Drops are announced at most once every ten seconds: an unforced report
    either changes nothing in the log or comes at least ten seconds after the
    one before it, and announces every drop since. *)
Theorem drop_report_rate s now :
  0 <= droppedWindow (u_admission s) →
  let s' := reportDrops false now s in
  (u_log s' = u_log s ∧ u_lastDropReport s' = u_lastDropReport s) ∨
  (length (u_log s') = S (length (u_log s)) ∧ u_lastDropReport s' = Some now ∧
   announced_drops s' = announced_drops s + droppedWindow (u_admission s) ∧
   droppedWindow (u_admission s') = 0 ∧
   ∀ last, u_lastDropReport s = Some last → seconds 10 <= now - last).
Proof.
  intros Hw. unfold reportDrops, announced_drops. cbn [negb andb].
  destruct (u_lastDropReport s) as [last|] eqn:Hl; [destruct (Z.ltb_spec (now - last) DROP_REPORT_INTERVAL) as [|Hge]; [by left|]|].
  all: destruct (droppedWindow (u_admission s) =? 0); [by left|right]; cbn [u_log add_log zsum]; rewrite drops_printed by done.
  all: split_and!; try done; try (cbn; lia). by intros last' [= <-].
Qed.

(** ** From the socket to the files *)

Section delivery.
Context `{LogEnv}.

(** A write at the head of a sink's queue, in any state of the sink. *)
Lemma strand_writes msg i rcv m s q :
  m_sinks m !! i = Some s → ms_queue s = TWrite msg :: q → Inv (mkWorld (m_os m) (ms_file s)) →
  ∃ m' s' line record, run_strand i rcv m = Ret m' ∧ m_sinks m' !! i = Some s' ∧ ms_queue s' = q ∧
    toJsonlRecord msg rcv = Ret record ∧ unescape line = Some (raw msg) ∧ Forall printable line ∧
    if m_closed (ms_file s) || negb (wanted msg (ms_file s))
    then os_files (m_os m') = os_files (m_os m) ∧ ms_file s' = ms_file s
    else if m_closed (ms_file s') then os_faults (m_os m) ≠ []
    else os_files (m_os m') = written (ms_file s) (line ++ [x0a]) (record ++ [x0a]) (os_files (m_os m)).
Proof.
  intros Hs Hq Hi. destruct (escape_returns (raw msg)) as (l & He & Hp), (toJsonlRecord_returns msg rcv) as [j Hj].
  destruct (doWrite_written msg rcv (mkWorld (m_os m) (ms_file s)) l j He Hj Hi) as (w & Hw & Hres).
  unfold run_strand. rewrite Hs, Hq. cbn [run_task handle]. rewrite Hw. cbn [mbind M_bind mret M_ret].
  eexists _, (set_queue q (set_sink (w_sink w) s)), l, j. split; [done|]. cbn [m_sinks m_os].
  rewrite list_lookup_insert_eq by (by eapply lookup_lt_Some). pose proof Hp as (Hsafe & _)%Pieces_safe.
  split_and!; [done|done|done|by apply Pieces_unescape|done|]. cbn [ms_file set_queue set_sink].
  destruct (_ || _); [by rewrite Hres|exact Hres].
Qed.

(** C1. The path of a datagram, in any state of the server. The task posted for it
    cannot throw, loop or read out of bounds; it parses the datagram and only posts:
    a write, after what is already queued, to exactly the sinks whose section
    accepts the message, and the message to the forwarder. When the strand of a
    sink reaches that write, whatever has happened meanwhile, the handler returns
    and: a sink out of service, or one that does not want the message, changes
    nothing; else the sink's files hold exactly the specified records and nothing
    else has changed on disk, or a call failed and the sink has left service. The
    text record is one line from which the datagram, less its trailing CR and LF,
    can be read back. *)
Theorem datagram_reaches_files p token m forwarder :
  ∃ msg, parseSyslog (po_data p) = Ret msg ∧
    let msg' := with_source (po_srcIp p) token msg in
    (∃ m1, process p token m forwarder = Ret (m1, forward msg' <$> forwarder) ∧ m_os m1 = m_os m ∧
       length (m_sinks m1) = length (m_sinks m) ∧
       ∀ i s, m_sinks m !! i = Some s → m_sinks m1 !! i = Some (if accepts msg' s then post (TWrite msg') s else s)) ∧
    ∀ m2 i rcv s q, m_sinks m2 !! i = Some s → ms_queue s = TWrite msg' :: q → Inv (mkWorld (m_os m2) (ms_file s)) →
      ∃ m3 s3 line record text, run_strand i rcv m2 = Ret m3 ∧ m_sinks m3 !! i = Some s3 ∧ ms_queue s3 = q ∧
        toJsonlRecord msg' rcv = Ret record ∧
        unescape line = Some text ∧ Stripped (po_data p) text ∧ Forall printable line ∧
        if m_closed (ms_file s) || negb (wanted msg' (ms_file s))
        then os_files (m_os m3) = os_files (m_os m2) ∧ ms_file s3 = ms_file s
        else if m_closed (ms_file s3) then os_faults (m_os m2) ≠ []
        else os_files (m_os m3) = written (ms_file s) (line ++ [x0a]) (record ++ [x0a]) (os_files (m_os m2)).
Proof.
  destruct (parseSyslog_raw (po_data p)) as (msg & Hp & Hraw). exists msg. split; [done|]. cbv zeta. split.
  - unfold process. rewrite Hp. cbn [mbind M_bind mret M_ret]. eexists. split_and!; [done|done|by apply length_fmap|].
    intros i s Hs. cbn. by rewrite list_lookup_fmap, Hs.
  - intros m2 i rcv s q Hs Hq Hi.
    destruct (strand_writes _ i rcv m2 s q Hs Hq Hi) as (m3 & s3 & l & j & ? & ? & ? & ? & ? & ? & ?).
    by exists m3, s3, l, j, (raw (with_source (po_srcIp p) token msg)).
Qed.
End delivery.

(** ** A concrete server *)

Definition server_config : Config :=
  mkConfig (lit "127.0.0.1") 514 1 1000 [config0] defaultForwarding.
Definition data0 : bytes := lit "<34>Oct 11 22:14:15 host su: failed" ++ [x0a].
Definition listening0 : UdpServer := receive (set_socket true false false (new_UdpServer server_config)).
Definition server_history : list Event :=
  [Receive None data0 (lit "10.0.0.1") 0 None; Receive (Some (OtherError (lit "e"))) [] [] 5 None;
   Rearm false; Release 0; Receive None (replicate 1200 x61) (lit "10.0.0.2") 9 None; Stop 11;
   Receive (Some OperationAborted) [] [] 12 None].

Example server_history_run :
  let s := run listening0 server_history in
  u_receiving s = false ∧ u_rearmTimer s = false ∧ u_open s = false ∧ length (u_posted s) = 1%nat ∧
  inFlight (u_admission s) = 0 ∧ announced_drops s = 1 ∧ droppedTotal (u_admission s) = 1 ∧
  length (u_log s) = 3%nat.
Proof. vm_compute. auto 10. Qed.

Lemma udp_listens_witness : listening (run listening0 (take 5 server_history)).
Proof.
  apply (@udp_listens linux_machine server_config (lit "e") listening0 (take 5 server_history));
    [vm_compute; reflexivity|repeat constructor|vm_compute; reflexivity].
Defined.

Lemma oom_stops_listening_witness :
  let '(s', threw) := onReceive None data0 (lit "10.0.0.1") 0 (Some AtCopy) listening0 in
  threw = true ∧ u_open s' = true ∧
  u_receiving (run s' server_history) = false ∧ u_rearmTimer (run s' server_history) = false.
Proof.
  apply (oom_stops_listening listening0 data0 (lit "10.0.0.1") 0 AtCopy server_history);
    [reflexivity|reflexivity|vm_compute; congruence|split; vm_compute; congruence|discriminate].
Defined.


Definition posted0 : Posted := mkPosted data0 (lit "10.0.0.1").
Definition sink_of0 : MSink := mkMSink [4] [] sink0 [].
Definition manager1 : Manager := mkManager (mkOs ∅ [] 0 []) [sink_of0].

Lemma datagram_reaches_files_witness :
  ∃ msg m1 m3 line text, parseSyslog (po_data posted0) = Ret msg ∧
    let msg' := with_source (po_srcIp posted0) 7 msg in
    process posted0 7 manager1 None = Ret (m1, None) ∧
    (λ s, ms_queue s) <$> m_sinks m1 = [[TWrite msg']] ∧ @run_strand example_env 0 (lit "T") m1 = Ret m3 ∧
    unescape line = Some text ∧ Stripped (po_data posted0) text ∧
    (∃ record, os_files (m_os m3) = written sink0 (line ++ [x0a]) (record ++ [x0a]) ∅).
Proof.
  destruct (@datagram_reaches_files example_env posted0 7 manager1 None) as (msg & Hp & (m1 & Hm1 & Hos & Hlen & Hposts) & Hruns).
  specialize (Hposts 0%nat sink_of0 eq_refl). assert (Hmsg : Ret msg = parseSyslog (po_data posted0)) by done.
  vm_compute in Hmsg. injection Hmsg as Hmsg.
  assert (Hacc : accepts (with_source (po_srcIp posted0) 7 msg) sink_of0 = true) by (rewrite Hmsg; vm_compute; reflexivity).
  rewrite Hacc in Hposts. assert (Hi : Inv (mkWorld (m_os m1) sink0)) by (rewrite Hos; apply Inv0).
  destruct (Hruns m1 0%nat (lit "T") _ [] Hposts eq_refl Hi) as (m3 & s3 & line & record & text & Hrun & Hs3 & Hq3 & Hj & Hu & Hst & _ & Hres).
  assert (Hw : wanted (with_source (po_srcIp posted0) 7 msg) sink0 = true) by (rewrite Hmsg; vm_compute; reflexivity).
  exists msg, m1, m3, line, text. cbv zeta. split_and!; try done.
  - destruct (m_sinks m1) as [|s1 [|s2 l]]; [done| |done].
    pose proof (f_equal (fmap ms_queue) Hposts) as Hq. cbn in Hq |- *. congruence.
  - exists record. cbn [ms_file post set_queue sink_of0] in Hres. rewrite Hw in Hres. cbn [negb orb m_closed sink0] in Hres.
    rewrite Hos in Hres. cbn [manager1 m_os os_faults os_files] in Hres.
    destruct (m_closed (ms_file s3)); [by destruct Hres|]. exact Hres.
Defined.
