(* ===== verification/Linearization.v ===== *)
(** * Admission control is atomic to its callers (src/src/server/admission.hpp)

    [Admission] interleaves the atomic operations of any number of threads; the
    handlers of [UdpServer] call [admit] as one operation, [admit_call]. Here the
    interleavings are shown to be linearisable: each call takes effect at one
    moment between its start and its answer, and in the order of those moments
    the answers are those [admit_call] gives. *)

From S2P Require Import Prelude Names Parser Config Backoff OutputManager Forwarder UdpServer Admission.

(** ** The atomic object *)

Inductive Op :=
| OAdmit (t : nat) (bytes : Z)
| ORefuse (t : nat) (bytes : Z)
| ORelease (bytes : Z).

(** One operation on [x] bytes in flight; [None] when it does not answer so. *)
Definition atomic (B x : Z) (o : Op) : option Z :=
  match o with
  | OAdmit _ b => let '(s, admitted) := admit_call b (mkState B x 0 0) in
                  if admitted : bool then Some (inFlight s) else None
  | ORefuse _ b => let '(s, admitted) := admit_call b (mkState B x 0 0) in
                   if admitted : bool then None else Some (inFlight s)
  | ORelease b => if b <=? x then Some (x - b) else None
  end.
Definition atomic_run (B : Z) (ops : list Op) : option Z := foldl (λ o op, x ← o; atomic B x op) (Some 0) ops.

Definition of_thread (t : nat) (o : Op) : Prop :=
  match o with OAdmit t' _ | ORefuse t' _ => t' = t | ORelease _ => False end.
#[export] Instance of_thread_dec t o : Decision (of_thread t o).
Proof. destruct o; cbn; apply _. Defined.

(** ** Where a call takes effect, and what it answers *)

(** A thread that holds [expected] will be refused: nothing can change that. *)
Definition doomed (s : State) (bytes expected : Z) : bool := budget s <? u64 (expected + bytes).

(** An admission takes effect at the exchange, a refusal at the load of the value
    it is decided on, a release at the subtraction. *)
Definition effects (y : System) (e : Event) : list Op :=
  let s := sys_state y in
  match e with
  | Call t bytes => if doomed s bytes (inFlight s) then [ORefuse t bytes] else []
  | Round t spurious =>
      match sys_threads y !! t with
      | Some (Loaded bytes expected) =>
          if doomed s bytes expected then []
          else if (inFlight s =? expected) && negb spurious then [OAdmit t bytes]
          else if doomed s bytes (inFlight s) then [ORefuse t bytes] else []
      | _ => []
      end
  | FetchSub i => match sys_releasing y !! i with Some b => [ORelease b] | None => [] end
  | _ => []
  end.

(** The answers, when they are given. *)
Definition answers (y : System) (e : Event) : list Op :=
  match e with
  | Round t spurious =>
      match sys_threads y !! t with
      | Some (Loaded bytes expected) =>
          match (admit_round bytes expected spurious (sys_state y)).2 with
          | CountingDrop b => [ORefuse t b]
          | Charging b => [OAdmit t b]
          | _ => []
          end
      | _ => []
      end
  | _ => []
  end.

(** Refused, not yet answered. *)
Definition pending (t : nat) (y : System) : list Op :=
  match sys_threads y !! t with
  | Some (Loaded bytes expected) => if doomed (sys_state y) bytes expected then [ORefuse t bytes] else []
  | _ => []
  end.

(** What the events of a run do, in order. *)
Fixpoint along {A} (f : System → Event → list A) (y : System) (es : list Event) : list A :=
  match es with
  | [] => []
  | e :: es' => f y e ++ match step y e with Some y' => along f y' es' | None => [] end
  end.

Lemma run_snoc y es e : run y (es ++ [e]) = (z ← run y es; step z e).
Proof. unfold run. by rewrite foldl_app. Qed.
Lemma along_snoc {A} (f : System → Event → list A) y es e z :
  run y es = Some z → along f y (es ++ [e]) = along f y es ++ f z e.
Proof.
  revert y. induction es as [|e1 es IH]; intros y Hr.
  - injection Hr as <-. cbn. destruct (step y e); by rewrite app_nil_r.
  - apply run_Some in Hr as (y1 & Hs & Hr). cbn. rewrite Hs, (IH y1 Hr). by rewrite app_assoc.
Qed.

Section simulation.
Context (B maxBytes : Z).
Hypothesis no_wrap : 0 <= B ∧ 0 <= maxBytes ∧ B + maxBytes < 2 ^ 64.

Lemma admit_call_decides b x :
  0 <= x <= B → 0 <= b <= maxBytes →
  (admit_call b (mkState B x 0 0)).2 = negb (B <? x + b) ∧
  inFlight (admit_call b (mkState B x 0 0)).1 = if B <? x + b then x else x + b.
Proof.
  intros Hx Hb. unfold admit_call, admit_round. cbn. rewrite u64_small by lia.
  destruct (B <? x + b); [done|]. cbn. by rewrite Z.eqb_refl.
Qed.
Lemma atomic_refuse t b x : 0 <= x <= B → 0 <= b <= maxBytes → B < x + b → atomic B x (ORefuse t b) = Some x.
Proof.
  intros Hx Hb Hd. destruct (admit_call_decides b x Hx Hb) as [H1 H2]. cbn.
  destruct (admit_call _ _) as [s ok]. cbn in *. rewrite H1, H2, (proj2 (Z.ltb_lt _ _) Hd). done.
Qed.
Lemma atomic_admit t b x : 0 <= x <= B → 0 <= b <= maxBytes → x + b <= B → atomic B x (OAdmit t b) = Some (x + b).
Proof.
  intros Hx Hb Hd. destruct (admit_call_decides b x Hx Hb) as [H1 H2]. cbn.
  destruct (admit_call _ _) as [s ok]. cbn in *. rewrite H1, H2, (proj2 (Z.ltb_ge _ _) Hd). done.
Qed.

Lemma releasing_le y i b :
  Admission.Inv B maxBytes y → sys_releasing y !! i = Some b → 0 <= b <= inFlight (sys_state y).
Proof.
  intros I Hi. destruct (outstanding_nonneg B maxBytes _ I) as (Ht & Hk & Hr). pose proof I as [].
  pose proof (proj1 (Forall_lookup _ _) inv_releasing _ _ Hi) as Hb. cbn in Hb.
  assert (b <= zsum id (sys_releasing y)); [|unfold outstanding in *; lia].
  apply (zsum_lookup_le id _ i); [|done]. intros x. by apply (proj1 (Forall_forall _ _)).
Qed.

(** ** One step *)

Abbreviation good := (Admission.Inv B maxBytes).

(** Where [pending] looks at the thread that moves. *)
Lemma pending_move t t' pc s y y' :
  sys_threads y' = <[t' := pc]> (sys_threads y) → (t' < length (sys_threads y))%nat →
  sys_state y' = s → budget s = budget (sys_state y) →
  pending t y' = if decide (t' = t) then
                   match pc with Loaded b e => if doomed s b e then [ORefuse t b] else [] | _ => [] end
                 else pending t y.
Proof.
  intros Ht Hl <- Hb. unfold pending. rewrite Ht. destruct (decide (t' = t)) as [->|Hne].
  - by rewrite list_lookup_insert_eq.
  - rewrite list_lookup_insert_ne by done. unfold doomed. by rewrite Hb.
Qed.
Lemma pending_same t y y' :
  sys_threads y' = sys_threads y → budget (sys_state y') = budget (sys_state y) → pending t y' = pending t y.
Proof. unfold pending, doomed. by intros -> ->. Qed.

Lemma doomed_iff y b x : good y → 0 <= x <= B → 0 <= b <= maxBytes → doomed (sys_state y) b x = (B <? x + b).
Proof. intros I Hx Hb. unfold doomed. rewrite (inv_budget _ _ _ I), u64_small by lia. done. Qed.

(** The operations of one thread only. *)
Lemma filter_thread t t' l :
  Forall (of_thread t') l → filter (of_thread t) l = if decide (t' = t) then l else [].
Proof.
  intros Hl. induction Hl as [|o l Ho _ IH]; [by case_decide|]. rewrite filter_cons, IH.
  destruct o as [t1 b|t1 b|b]; cbn in Ho; [subst t1..|done]; cbn; repeat case_decide; subst; try done; by destruct H.
Qed.

Lemma step_simulates y e y' :
  good y → sized maxBytes e → step y e = Some y' →
  foldl (λ o op, x ← o; atomic B x op) (Some (inFlight (sys_state y))) (effects y e) =
    Some (inFlight (sys_state y')) ∧
  ∀ t, pending t y ++ filter (of_thread t) (effects y e) = filter (of_thread t) (answers y e) ++ pending t y'.
Proof.
  intros I Hz Hs. pose proof (inv_bound _ _ _ I) as Hx.
  destruct e as [t b|t spurious|t|t allocated|i|i|i|].
  - (* the load *)
    apply bind_Some in Hs as (pc & Ht & Hs). destruct (ready pc) eqn:Hr; [|done]. injection Hs as Hy; symmetry in Hy.
    pose proof (lookup_lt_Some _ _ _ Ht) as Hl. cbn in Hz. cbn [effects answers].
    rewrite (doomed_iff y b _ I Hx Hz). split.
    + rewrite Hy. destruct (Z.ltb_spec B (inFlight (sys_state y) + b)); [|done]. cbn [foldl mbind option_bind].
      rewrite atomic_refuse by (done || lia). done.
    + intros t'. rewrite (pending_move t' t (Loaded b (inFlight (sys_state y))) (sys_state y) y y') by (rewrite ?Hy; done).
      rewrite (doomed_iff y b _ I Hx Hz). rewrite (filter_thread t' t) by (destruct (_ <? _); by repeat constructor).
      rewrite filter_nil. cbn [app]. destruct (decide (t = t')) as [<-|]; [|by rewrite app_nil_r].
      unfold pending. rewrite Ht. by destruct pc.
  - (* one round *)
    apply bind_Some in Hs as (pc & Ht & Hs). destruct pc as [|b x| | | |]; try done.
    pose proof (lookup_lt_Some _ _ _ Ht) as Hl. pose proof (thread_ok _ _ _ _ _ I Ht) as [Hb He].
    cbn [effects answers]. rewrite Ht. unfold admit_round in *.
    change (budget (sys_state y) <? u64 (x + b)) with (doomed (sys_state y) b x) in *.
    assert (Hp : ∀ t', pending t' y = if decide (t = t') then if doomed (sys_state y) b x then [ORefuse t b] else [] else pending t' y).
    { intros t'. destruct (decide (t = t')) as [<-|]; [|done]. unfold pending. by rewrite Ht. }
    destruct (doomed (sys_state y) b x) eqn:Hd.
    + cbn [mbind option_bind fst snd] in *. injection Hs as Hy; symmetry in Hy. split; [by rewrite Hy|]. intros t'.
      rewrite (pending_move t' t (CountingDrop b) (set_droppedWindow (u64 (droppedWindow (sys_state y) + 1)) (sys_state y)) y y') by (rewrite ?Hy; done).
      rewrite (Hp t'), filter_nil, (filter_thread t' t) by by repeat constructor.
      destruct (decide (t = t')); by rewrite ?app_nil_r.
    + rewrite (doomed_iff y b x I He Hb) in Hd. apply Z.ltb_ge in Hd.
      destruct ((inFlight (sys_state y) =? x) && negb spurious) eqn:Hcas.
      * apply andb_true_iff in Hcas as [<-%Z.eqb_eq _]. cbn [snd]. injection Hs as Hy; symmetry in Hy. split.
        { rewrite Hy. cbn [foldl mbind option_bind sys_state with_thread set_inFlight inFlight]. rewrite atomic_admit by (done || lia). by rewrite u64_small by lia. }
        intros t'. rewrite (pending_move t' t (Charging b) (set_inFlight (u64 (inFlight (sys_state y) + b)) (sys_state y)) y y') by (rewrite ?Hy; done).
        rewrite (Hp t'), (filter_thread t' t) by by repeat constructor.
        destruct (decide (t = t')); by rewrite ?app_nil_r.
      * cbn [snd]. injection Hs as Hy; symmetry in Hy. rewrite (doomed_iff y b _ I Hx Hb). split.
        { rewrite Hy. destruct (Z.ltb_spec B (inFlight (sys_state y) + b)); [|done]. cbn [foldl mbind option_bind].
          rewrite atomic_refuse by (done || lia). done. }
        intros t'. rewrite (pending_move t' t (Loaded b (inFlight (sys_state y))) (sys_state y) y y') by (rewrite ?Hy; done).
        rewrite (doomed_iff y b _ I Hx Hb), (Hp t'), filter_nil.
        rewrite (filter_thread t' t) by (destruct (_ <? _); by repeat constructor).
        destruct (decide (t = t')) as [<-|]; by rewrite ?app_nil_r.
  - apply bind_Some in Hs as (pc & Ht & Hs). destruct pc; try done. injection Hs as Hy; symmetry in Hy. split; [by rewrite Hy|]. intros t'.
    pose proof (lookup_lt_Some _ _ _ Ht) as Hl. cbn [effects answers]. rewrite filter_nil, app_nil_r. cbn [app].
    erewrite (pending_move t' t (Refused bytes) _ y y') by (rewrite ?Hy; done). destruct (decide (t = t')) as [<-|]; [|done].
    unfold pending. by rewrite Ht.
  - apply bind_Some in Hs as (pc & Ht & Hs). destruct pc; try done. pose proof (lookup_lt_Some _ _ _ Ht) as Hl.
    cbn [effects answers]. destruct allocated; injection Hs as Hy; symmetry in Hy; (split; [by rewrite Hy|]); intros t'; rewrite filter_nil, app_nil_r; cbn [app];
      (erewrite (pending_move t' t _ (sys_state y) y y') by (rewrite ?Hy; done)); (destruct (decide (t = t')) as [<-|]; [|done]); unfold pending; by rewrite Ht.
  - apply bind_Some in Hs as (c & Hc & Hs). destruct (ch_copies c); [done|]. injection Hs as <-. split; [done|].
    intros t. cbn. by rewrite app_nil_r.
  - apply bind_Some in Hs as (c & Hc & Hs). destruct (ch_copies c); [done|]. injection Hs as <-. split; [done|].
    intros t. cbn. by rewrite app_nil_r.
  - apply bind_Some in Hs as (b & Hi & Hs). injection Hs as <-. cbn [effects answers]. rewrite Hi.
    destruct (releasing_le y i b I Hi) as [H0 Hle]. split.
    + cbn. rewrite (proj2 (Z.leb_le _ _) Hle). by rewrite u64_small by lia.
    + intros t. by rewrite app_nil_r.
  - injection Hs as <-. split; [done|]. intros t. cbn. by rewrite app_nil_r.
Qed.
End simulation.

(** C22. To its callers [admit] is atomic: however the atomic operations of any
    number of threads interleave, and however often an exchange fails for no
    reason, each call takes effect at one moment between its start and its answer,
    an admission when its exchange succeeds and a refusal when it reads the value
    that dooms it; in the order of those moments the calls and releases are a run
    of the one-step [admit_call], ending with the bytes that are in flight; and
    each thread has been given exactly the answers of that run, save a last
    refusal it has yet to be told. *)
Theorem admit_linearizes B maxBytes n es y :
  0 <= B → 0 <= maxBytes → B + maxBytes < 2 ^ 64 →
  Forall (sized maxBytes) es → run (initial B n) es = Some y →
  atomic_run B (along effects (initial B n) es) = Some (inFlight (sys_state y)) ∧
  ∀ t, filter (of_thread t) (along effects (initial B n) es) =
       filter (of_thread t) (along answers (initial B n) es) ++ pending t y.
Proof.
  intros HB Hm Hw. assert (Hnw : 0 <= B ∧ 0 <= maxBytes ∧ B + maxBytes < 2 ^ 64) by done.
  revert y. induction es as [|e es IH] using rev_ind; intros y Hz Hr.
  - injection Hr as <-. split; [done|]. intros t. cbn. unfold pending. cbn.
    destruct (replicate n Idle !! t) as [pc|] eqn:E; [|done]. by apply lookup_replicate in E as [-> _].
  - apply Forall_app in Hz as [Hz He]. apply Forall_inv in He. rewrite run_snoc in Hr.
    apply bind_Some in Hr as (z & Hr & Hs). destruct (IH z Hz Hr) as [Ha Hp].
    pose proof (Inv_run B maxBytes Hnw _ _ _ Hz (Inv_initial B maxBytes Hnw n) Hr) as Hi.
    destruct (step_simulates B maxBytes Hnw z e y Hi He Hs) as [H1 H2].
    rewrite !(along_snoc _ _ _ _ _ Hr). split.
    + unfold atomic_run in *. by rewrite foldl_app, Ha.
    + intros t. by rewrite !filter_app, Hp, <- app_assoc, H2, app_assoc.
Qed.

(** Three workers: one wins the race for the last bytes, the other is refused
    although the winner has given its bytes back before it is told. *)
Definition contended : list Event :=
  [Call 0 60; Call 1 60; Round 0 false; Round 1 false; MakeCharge 0 true; DestroyToken 0; FetchSub 0; Call 2 90;
   Round 2 false; Round 1 false].
Definition contended_end : System := default (initial 100 3) (run (initial 100 3) contended).
Lemma contended_run : run (initial 100 3) contended = Some contended_end.
Proof. vm_compute. reflexivity. Qed.
Example contended_order :
  along effects (initial 100 3) contended = [OAdmit 0 60; ORefuse 1 60; ORelease 60; OAdmit 2 90] ∧
  along answers (initial 100 3) contended = [OAdmit 0 60; OAdmit 2 90; ORefuse 1 60].
Proof. vm_compute. auto. Qed.

Lemma admit_linearizes_witness :
  atomic_run 100 (along effects (initial 100 3) contended) = Some 90 ∧
  filter (of_thread 1) (along effects (initial 100 3) contended) =
    filter (of_thread 1) (along answers (initial 100 3) contended) ++ pending 1 contended_end.
Proof.
  destruct (admit_linearizes 100 65535 3 contended contended_end) as [Ha Hp].
  - lia.
  - lia.
  - lia.
  - repeat (constructor; [cbn; lia|]). constructor.
  - exact contended_run.
  - split; [rewrite Ha; vm_compute; reflexivity|apply Hp].
Defined.
