(* ===== verification/SendOptions.v ===== *)
(** * minilog-send: the command line (src/src/send/send_options.cpp)

    The option table, the checks of each value, and [parseSendOptions].
    Boost.Program_options, which splits the command line by that table, is a
    parameter: an error, or the values given for each option by its long name. *)

From S2P Require Import Prelude Names Platform.

(** ** The option table *)

Inductive OptionKind :=
| Flag
| Value (dflt : option bytes)     (* po::value<std::string>(), default_value *)
| Values.                         (* po::value<std::vector<std::string>>() *)
Abbreviation option_table := (list (bytes * OptionKind)).

Definition optionsDescription : option_table :=
  [(lit "help", Flag); (lit "version", Flag);
   (lit "host", Value (Some (lit "127.0.0.1"))); (lit "port", Value (Some (lit "514")));
   (lit "facility", Value (Some (lit "user"))); (lit "severity", Value (Some (lit "info")));
   (lit "app", Value (Some (lit "minilog-send"))); (lit "hostname", Value None);
   (lit "pid", Value None); (lit "msgid", Value None); (lit "rfc3164", Flag);
   (lit "message", Values)].

(** What may be stored for an option of a kind. *)
Definition stored_ok (kind : OptionKind) (vs : list bytes) : Prop :=
  match kind with Flag => vs = [] | Value _ => length vs = 1%nat | Values => vs ≠ [] end.

(** [command_line_parser(...).options(desc).positional(pos).run()] and [store]:
    only options of the table, each with the values of its kind. *)
Class ProgramOptions := {
  po_run : option_table → bytes → list bytes → bytes + list (bytes * list bytes);
  po_run_law desc pos args l k vs :
    po_run desc pos args = inr l → assoc k l = Some vs →
    ∃ kind, assoc k desc = Some kind ∧ stored_ok kind vs
}.

(** [vm.count(k)] and [vm[k].as<std::string>()], whose cast fails when nothing is
    stored and there is no default. *)
Definition vm_count (vm : list (bytes * list bytes)) (k : bytes) : bool :=
  match assoc k vm, assoc k optionsDescription with
  | Some _, _ | None, Some (Value (Some _)) => true
  | _, _ => false
  end.
Definition vm_string (vm : list (bytes * list bytes)) (k : bytes) : M bytes :=
  match assoc k vm, assoc k optionsDescription with
  | Some [v], _ => mret v
  | None, Some (Value (Some d)) => mret d
  | _, _ => UB
  end.

(** ** Values *)

Record SendOptions := mkOptions {
  so_host : bytes;
  so_port : Z;
  so_facility : Z;
  so_severity : Z;
  so_app : bytes;
  so_hostname : option bytes;
  so_pid : option bytes;
  so_msgid : option bytes;
  so_rfc3164 : bool;
  so_message : bytes;
  so_help : bool;
  so_version : bool
}.
Definition defaultOptions (help version : bool) : SendOptions :=
  mkOptions (lit "127.0.0.1") 514 1 6 (lit "minilog-send") None None None false [] help version.

Fixpoint digits_loop (s : bytes) : bool :=
  match s with [] => true | c :: s' => if negb (isdigit c) then false else digits_loop s' end.
Definition allDigits (s : bytes) : bool := if sv_empty s then false else digits_loop s.

Definition stoi_value (s : bytes) : M Z := '(v, _) ← stoi s; mret v.

Definition nameOrNumber (what value : bytes) (fromName : bytes → option Z) (max : Z) : M Z :=
  if allDigits value then
    out ← (3 <? zlen value) ||? (v ← stoi_value value; mret (max <? v));
    if (out : bool) then
      Throw (UsageError (what ++ lit " " ++ value ++ lit " is out of range (0-" ++ to_string max ++
                         lit ")"))
    else stoi_value value
  else
    match fromName value with
    | Some code => mret code
    | None => Throw (UsageError (lit "unknown " ++ what ++ lit " '" ++ value ++ lit "'"))
    end.

Definition parsePort (value : bytes) : M Z :=
  bad ← (negb (allDigits value) || (5 <? zlen value))
          ||? (v ← stoi_value value; (v <? 1) ||? (v ← stoi_value value; mret (65535 <? v)));
  if (bad : bool) then
    Throw (UsageError (lit "port must be a number from 1 to 65535, got '" ++ value ++ lit "'"))
  else v ← stoi_value value; mret (v mod 65536).

(** The words joined by single spaces. *)
Definition join_step (message word : bytes) : bytes :=
  (if negb (sv_empty message) then message ++ lit " " else message) ++ word.
Definition join_words (words : list bytes) : bytes := foldl join_step [] words.

Definition optional (vm : list (bytes * list bytes)) (k : bytes) : M (option bytes) :=
  if vm_count vm k then v ← vm_string vm k; mret (Some v) else mret None.

Section parse.
Context `{ProgramOptions}.

Definition parseSendOptions (args : list bytes) : M SendOptions :=
  match po_run optionsDescription (lit "message") args with
  | inl what => Throw (UsageError what)
  | inr vm =>
      let help := vm_count vm (lit "help") in
      let version := vm_count vm (lit "version") in
      if help || version then mret (defaultOptions help version) else
      host ← vm_string vm (lit "host");
      (if sv_empty host then Throw (UsageError (lit "--host is empty")) else mret tt);;
      port ← (v ← vm_string vm (lit "port"); parsePort v);
      facility ← (v ← vm_string vm (lit "facility"); nameOrNumber (lit "facility") v facilityFromName 23);
      severity ← (v ← vm_string vm (lit "severity"); nameOrNumber (lit "severity") v severityFromName 7);
      app ← vm_string vm (lit "app");
      let rfc3164 := vm_count vm (lit "rfc3164") in
      hostname ← optional vm (lit "hostname");
      pid ← optional vm (lit "pid");
      msgid ← optional vm (lit "msgid");
      message ← match assoc (lit "message") vm with
                | Some words =>
                    let message := join_words words in
                    if sv_empty message then Throw (UsageError (lit "the message is empty"))
                    else mret message
                | None => mret []
                end;
      mret (mkOptions host port facility severity app hostname pid msgid rfc3164 message false false)
  end.
End parse.

(** ** What a command line means *)

(** [m] returns exactly the value specified, or there is none and it throws
    [UsageError]. *)
Definition decides {A} (m : M A) (P : A → Prop) : Prop :=
  match m with
  | Ret a => ∀ b, P b ↔ b = a
  | Throw (UsageError _) => ∀ b, ¬ P b
  | _ => False
  end.

Lemma decides_bind {A B} (m : M A) (f : A → M B) P Q :
  decides m P → (∀ a, P a → decides (f a) (Q a)) → decides (m ≫= f) (λ b, ∃ a, P a ∧ Q a b).
Proof.
  destruct m as [a|[]|]; cbn; intros Hm Hf; try done.
  - assert (Ha : P a) by by apply Hm. specialize (Hf a Ha).
    destruct (f a) as [b|[]|]; cbn in *; try done.
    + intros b'. rewrite <- Hf. split; [intros (a' & ->%Hm & ?); done|by exists a].
    + intros b' (a' & ->%Hm & ?). by eapply Hf.
  - intros b (a & Ha & _). by eapply Hm.
Qed.
Lemma decides_iff {A} (m : M A) P Q : decides m P → (∀ a, P a ↔ Q a) → decides m Q.
Proof.
  destruct m as [a|[]|]; cbn; try done; intros Hm Hi b.
  - by rewrite <- Hi.
  - by rewrite <- Hi.
Qed.
Lemma decides_ret {A} (a : A) : decides (mret a) (λ b, b = a).
Proof. done. Qed.

Definition digit_text (s : bytes) : Prop := s ≠ [] ∧ Forall (λ c, isdigit c = true) s.
Lemma allDigits_iff s : allDigits s = true ↔ digit_text s.
Proof.
  unfold allDigits, digit_text. destruct s as [|c s]; [split; [done|by intros [? _]]|]. cbn [sv_empty].
  assert (∀ l, digits_loop l = true ↔ Forall (λ c, isdigit c = true) l) as ->.
  { induction l as [|d l IH]; cbn; [by split|]. rewrite Forall_cons, <- IH.
    destruct (isdigit d); cbn; [tauto|]. split; [done|by intros [? _]]. }
  split; [by split|by intros [_ ?]].
Qed.

(** Up to five digits, [stoi] cannot throw. *)
Lemma stoi_value_digits s : digit_text s → zlen s <= 5 → stoi_value s = Ret (dec_value s).
Proof.
  intros [Hne Hd] Hl. unfold stoi_value. rewrite stoi_number; [done|done|done|].
  pose proof (dec_value_bound s Hd). assert (10 ^ zlen s <= 10 ^ 5) by (apply Z.pow_le_mono_r; lia). lia.
Qed.

(** A number of at most three digits in range, or a name of the table. *)
Definition CodeText (fromName : bytes → option Z) (max : Z) (value : bytes) (code : Z) : Prop :=
  (digit_text value ∧ zlen value <= 3 ∧ dec_value value <= max ∧ code = dec_value value) ∨
  (¬ digit_text value ∧ fromName value = Some code).

Lemma nameOrNumber_decides what value fromName max :
  decides (nameOrNumber what value fromName max) (CodeText fromName max value).
Proof.
  unfold nameOrNumber, CodeText. destruct (allDigits value) eqn:E.
  - apply allDigits_iff in E. destruct (Z.ltb_spec 3 (zlen value)); cbn [mbind M_bind mret M_ret].
    + intros b [(_ & ? & _)|[? _]]; [lia|done].
    + rewrite stoi_value_digits by (done || lia). cbn [mbind M_bind mret M_ret].
      destruct (Z.ltb_spec max (dec_value value)); cbn.
      * intros b [(_ & _ & ? & _)|[? _]]; [lia|done].
      * intros b. split; [by intros [(_ & _ & _ & ->)|[? _]]|intros ->; left; by split_and!].
  - assert (Hn : ¬ digit_text value) by (intros ?%allDigits_iff; congruence).
    destruct (fromName value) as [c|]; cbn.
    + intros b. split; [by intros [[? _]|[_ [= ->]]]|intros ->; by right].
    + by intros b [[? _]|[_ ?]].
Qed.

Definition PortText (value : bytes) (port : Z) : Prop :=
  digit_text value ∧ zlen value <= 5 ∧ 1 <= dec_value value <= 65535 ∧ port = dec_value value.

Lemma parsePort_decides value : decides (parsePort value) (PortText value).
Proof.
  unfold parsePort, PortText. destruct (allDigits value) eqn:E; cbn [negb orb].
  - apply allDigits_iff in E. destruct (Z.ltb_spec 5 (zlen value)); cbn [mbind M_bind mret M_ret].
    + intros b (_ & ? & _). lia.
    + rewrite stoi_value_digits by done. cbn [mbind M_bind].
      destruct (Z.ltb_spec (dec_value value) 1); [|destruct (Z.ltb_spec 65535 (dec_value value))]; cbn.
      * intros b (_ & _ & ? & _). lia.
      * intros b (_ & _ & ? & _). lia.
      * intros b. rewrite Z.mod_small by lia. split; [tauto|]. intros ->. by split_and!; try lia.
  - assert (¬ digit_text value) by (intros ?%allDigits_iff; congruence). cbn. by intros b [].
Qed.

(** The value of an option: the one given, or the default. *)
Definition ValueOf (vm : list (bytes * list bytes)) (k v : bytes) : Prop :=
  assoc k vm = Some [v] ∨ (assoc k vm = None ∧ assoc k optionsDescription = Some (Value (Some v))).
Definition GivenOf (vm : list (bytes * list bytes)) (k : bytes) (o : option bytes) : Prop :=
  assoc k vm = (λ v, [v]) <$> o.
Definition given (vm : list (bytes * list bytes)) (k : bytes) : Prop := is_Some (assoc k vm).

(** The words after any empty ones at the front, with a space between them. *)
Definition words_joined (words : list bytes) : bytes :=
  match drop_while sv_empty words with
  | [] => []
  | w :: ws => w ++ mjoin ((λ w, lit " " ++ w) <$> ws)
  end.

Record OptionsOf (vm : list (bytes * list bytes)) (o : SendOptions) : Prop := {
  oo_host : ValueOf vm (lit "host") (so_host o) ∧ so_host o ≠ [];
  oo_port : ∃ v, ValueOf vm (lit "port") v ∧ PortText v (so_port o);
  oo_facility : ∃ v, ValueOf vm (lit "facility") v ∧ CodeText facilityFromName 23 v (so_facility o);
  oo_severity : ∃ v, ValueOf vm (lit "severity") v ∧ CodeText severityFromName 7 v (so_severity o);
  oo_app : ValueOf vm (lit "app") (so_app o);
  oo_hostname : GivenOf vm (lit "hostname") (so_hostname o);
  oo_pid : GivenOf vm (lit "pid") (so_pid o);
  oo_msgid : GivenOf vm (lit "msgid") (so_msgid o);
  oo_rfc3164 : so_rfc3164 o = true ↔ given vm (lit "rfc3164");
  oo_message : match assoc (lit "message") vm with
               | Some words => so_message o = words_joined words ∧ so_message o ≠ []
               | None => so_message o = []
               end;
  oo_quiet : so_help o = false ∧ so_version o = false
}.

(** ** Every command line *)

Definition vm_ok (vm : list (bytes * list bytes)) : Prop :=
  ∀ k vs, assoc k vm = Some vs → ∃ kind, assoc k optionsDescription = Some kind ∧ stored_ok kind vs.

Lemma vm_string_decides vm k d :
  vm_ok vm → assoc k optionsDescription = Some (Value (Some d)) →
  decides (vm_string vm k) (ValueOf vm k).
Proof.
  intros Hvm Hk. unfold vm_string, ValueOf. rewrite Hk. destruct (assoc k vm) as [vs|] eqn:E.
  - destruct (Hvm _ _ E) as (kind & Hk' & Hs). rewrite Hk in Hk'. injection Hk' as <-.
    destruct vs as [|v [|]]; try done. cbn. intros b.
    split; [by intros [[= ->]|[? _]]|intros ->; by left].
  - cbn. intros b. split; [by intros [?|[_ [= ->]]]|intros ->; by right].
Qed.

Lemma optional_decides vm k :
  vm_ok vm → assoc k optionsDescription = Some (Value None) →
  decides (optional vm k) (GivenOf vm k).
Proof.
  intros Hvm Hk. unfold optional, vm_count, vm_string, GivenOf. rewrite Hk.
  destruct (assoc k vm) as [vs|] eqn:E.
  - destruct (Hvm _ _ E) as (kind & Hk' & Hs). rewrite Hk in Hk'. injection Hk' as <-.
    destruct vs as [|v [|]]; try done. cbn. intros [b|]; cbn; naive_solver.
  - cbn. intros [b|]; cbn; naive_solver.
Qed.

Lemma join_words_eq words : join_words words = words_joined words.
Proof.
  assert (Hgo : ∀ ws acc, acc ≠ [] →
    foldl join_step acc ws = acc ++ mjoin ((λ w, lit " " ++ w) <$> ws)).
  { induction ws as [|w ws IH]; intros acc Hacc; cbn [foldl fmap list_fmap mjoin list_join];
      [by rewrite app_nil_r|].
    rewrite IH; unfold join_step; destruct acc as [|c acc]; try done. cbn [sv_empty negb].
    by rewrite <- !app_assoc. }
  unfold join_words, words_joined. induction words as [|w ws IH]; [done|]. cbn [foldl drop_while].
  destruct w as [|c w]; [done|]. cbn [sv_empty]. by rewrite Hgo.
Qed.

Definition MessageOf (vm : list (bytes * list bytes)) (m : bytes) : Prop :=
  match assoc (lit "message") vm with
  | Some words => m = words_joined words ∧ m ≠ []
  | None => m = []
  end.
Lemma message_decides vm :
  decides (match assoc (lit "message") vm with
           | Some words => if sv_empty (join_words words)
                           then Throw (UsageError (lit "the message is empty"))
                           else mret (join_words words)
           | None => mret []
           end) (MessageOf vm).
Proof.
  unfold MessageOf. destruct (assoc (lit "message") vm) as [words|]; [|done].
  rewrite join_words_eq. destruct (words_joined words) eqn:E; cbn.
  - by intros b [-> ?].
  - intros b'. split; [by intros [-> _]|by intros ->].
Qed.

Lemma not_empty_decides s w :
  decides (if sv_empty s then Throw (UsageError w) else mret tt) (λ _, s ≠ []).
Proof. destruct s; cbn; [by intros b Hb; apply Hb|by intros []]. Qed.

Section exact.
Context `{ProgramOptions}.

(** What the arguments ask for. *)
Definition Asked (args : list bytes) (o : SendOptions) : Prop :=
  ∃ vm, po_run optionsDescription (lit "message") args = inr vm ∧
    if decide (given vm (lit "help") ∨ given vm (lit "version")) then
      o = defaultOptions (bool_decide (given vm (lit "help"))) (bool_decide (given vm (lit "version")))
    else OptionsOf vm o.

Lemma vm_count_flag vm k :
  assoc k optionsDescription = Some Flag → vm_count vm k = bool_decide (given vm k).
Proof.
  intros Hk. unfold vm_count, given. rewrite Hk. destruct (assoc k vm).
  - by rewrite bool_decide_eq_true_2.
  - rewrite bool_decide_eq_false_2; [done|]. by intros [? [=]].
Qed.

Lemma options_decides vm :
  vm_ok vm → ¬ given vm (lit "help") → ¬ given vm (lit "version") →
  decides
     (host ← vm_string vm (lit "host");
      (if sv_empty host then Throw (UsageError (lit "--host is empty")) else mret tt);;
      port ← (v ← vm_string vm (lit "port"); parsePort v);
      facility ← (v ← vm_string vm (lit "facility"); nameOrNumber (lit "facility") v facilityFromName 23);
      severity ← (v ← vm_string vm (lit "severity"); nameOrNumber (lit "severity") v severityFromName 7);
      app ← vm_string vm (lit "app");
      let rfc3164 := vm_count vm (lit "rfc3164") in
      hostname ← optional vm (lit "hostname");
      pid ← optional vm (lit "pid");
      msgid ← optional vm (lit "msgid");
      message ← match assoc (lit "message") vm with
                | Some words =>
                    let message := join_words words in
                    if sv_empty message then Throw (UsageError (lit "the message is empty"))
                    else mret message
                | None => mret []
                end;
      mret (mkOptions host port facility severity app hostname pid msgid rfc3164 message false false))
    (OptionsOf vm).
Proof.
  intros Hvm Hh Hv. eapply decides_iff.
  { repeat first
      [ apply parsePort_decides | apply nameOrNumber_decides | apply message_decides
      | apply not_empty_decides | apply decides_ret
      | eapply vm_string_decides; [exact Hvm|reflexivity]
      | eapply optional_decides; [exact Hvm|reflexivity]
      | eapply decides_bind; [|intros ? _] ]. }
  rewrite vm_count_flag by reflexivity. intros o. split.
  - intros (host & ? & [] & ? & port & ? & f & ? & s & ? & app & ? & hn & ? & pid & ? & mid & ? & m & ? & ->).
    constructor; cbn; try done. by rewrite bool_decide_eq_true.
  - intros [[Hho ?] ? ? ? ? ? ? ? Hr Hm [? ?]]. destruct o as [? ? ? ? ? ? ? ? rfc ? ? ?]; cbn in *.
    eexists; split; [exact Hho|]. exists tt. split; [done|]. do 3 (eexists; split; [done|]).
    do 4 (eexists; split; [done|]). eexists. split; [exact Hm|]. subst. f_equal.
    destruct rfc; [symmetry; apply bool_decide_eq_true; tauto|symmetry; apply bool_decide_eq_false].
    intros Hg. by apply Hr in Hg.
Qed.

Lemma parse_decides args : decides (parseSendOptions args) (Asked args).
Proof.
  unfold parseSendOptions, Asked. destruct (po_run _ _ args) as [what|vm] eqn:E.
  { cbn. by intros b (? & [=] & _). }
  assert (Hvm : vm_ok vm) by (intros k vs Hk; by eapply po_run_law).
  rewrite (vm_count_flag vm (lit "help")), (vm_count_flag vm (lit "version")) by reflexivity.
  destruct (decide (given vm (lit "help") ∨ given vm (lit "version"))) as [Hd|Hd].
  - assert (bool_decide (given vm (lit "help")) || bool_decide (given vm (lit "version")) = true) as ->
      by (rewrite orb_true_iff, !bool_decide_eq_true; done).
    eapply decides_iff; [apply decides_ret|]. intros o. cbn beta. split.
    + intros ->. exists vm. split; [done|]. by rewrite decide_True.
    + intros (vm' & [= <-] & Ho). by rewrite decide_True in Ho.
  - assert (bool_decide (given vm (lit "help")) || bool_decide (given vm (lit "version")) = false) as ->
      by (rewrite orb_false_iff, !bool_decide_eq_false; tauto).
    eapply decides_iff; [apply options_decides; tauto|]. intros o. split.
    + intros Ho. exists vm. split; [done|]. by rewrite decide_False.
    + intros (vm' & [= <-] & Ho). by rewrite decide_False in Ho.
Qed.

Lemma CodeText_range fromName max v c :
  (∀ n f, fromName n = Some f → 0 <= f <= max) → CodeText fromName max v c → 0 <= c <= max.
Proof.
  intros Hf [([_ Hd] & _ & ? & ->)|[_ ?]]; [|by eapply Hf]. pose proof (dec_value_bound _ Hd). lia.
Qed.

(** C37. Every command line either gives the options it specifies, each from the
    value given or its documented default, or is refused with UsageError, and
    nothing else is ever thrown: no number is too long for stoi. The port is in
    1-65535, the facility in 0-23, the severity in 0-7, the host not empty, and
    the message is empty only when no word was given. *)
Theorem parseSendOptions_exact args :
  (∀ o, parseSendOptions args = Ret o ↔ Asked args o) ∧
  ((¬ ∃ o, Asked args o) → ∃ what, parseSendOptions args = Throw (UsageError what)) ∧
  ∀ o, parseSendOptions args = Ret o →
    1 <= so_port o <= 65535 ∧ 0 <= so_facility o <= 23 ∧ 0 <= so_severity o <= 7 ∧ so_host o ≠ [].
Proof.
  pose proof (parse_decides args) as Hd.
  assert (Hiff : ∀ o, parseSendOptions args = Ret o ↔ Asked args o).
  { destruct (parseSendOptions args) as [o'|[]|]; cbn in Hd; try done.
    - intros o. rewrite Hd. naive_solver.
    - intros o. split; [done|]. by intros ?%Hd. }
  split_and!; [done| |].
  - intros Hn. destruct (parseSendOptions args) as [o'|[]|]; cbn in Hd; try done; [|by eexists].
    destruct Hn. exists o'. by apply Hd.
  - intros o (vm & _ & Ho)%Hiff. destruct (decide _).
    + subst o. done.
    + destruct Ho as [[_ ?] (pv & _ & _ & _ & ? & ->) (fv & _ & Hf) (sv & _ & Hs) _ _ _ _ _ _ _].
      split_and!; try lia; try done;
        [eapply CodeText_range in Hf|eapply CodeText_range in Hf|eapply CodeText_range in Hs|
         eapply CodeText_range in Hs]; try lia; eauto using facilityFromName_range, severityFromName_range.
Qed.
End exact.

(** ** A concrete command-line parser *)

(** [--name] and [--name value], the rest is positional; enough for the examples. *)
Fixpoint gnu_run (desc : option_table) (pos : bytes) (args : list bytes) (acc : list (bytes * list bytes))
    : bytes + list (bytes * list bytes) :=
  match args with
  | [] => inr acc
  | arg :: args' =>
      let name := drop 2 arg in
      if decide (take 2 arg = lit "--") then
        match assoc name desc, assoc name acc with
        | Some Flag, None => gnu_run desc pos args' ((name, []) :: acc)
        | Some (Value _), None =>
            match args' with
            | v :: args'' => gnu_run desc pos args'' ((name, [v]) :: acc)
            | [] => inl (lit "missing argument")
            end
        | _, _ => inl (lit "unrecognised or repeated option")
        end
      else match assoc pos desc with
           | Some Values => gnu_run desc pos args' ((pos, default [] (assoc pos acc) ++ [arg]) :: acc)
           | Some (Value _) =>
               match assoc pos acc with
               | None => gnu_run desc pos args' ((pos, [arg]) :: acc)
               | Some _ => inl (lit "option cannot be specified more than once")
               end
           | _ => inl (lit "too many positional options")
           end
  end.

Definition stored_all (desc : option_table) (l : list (bytes * list bytes)) : Prop :=
  ∀ k vs, assoc k l = Some vs → ∃ kind, assoc k desc = Some kind ∧ stored_ok kind vs.

Lemma stored_all_cons desc k vs l kind :
  assoc k desc = Some kind → stored_ok kind vs → stored_all desc l → stored_all desc ((k, vs) :: l).
Proof. intros Hk Hs Hl k' vs'. cbn. destruct (decide _) as [->|]; [intros [= ->]; eauto|apply Hl]. Qed.

Lemma gnu_run_stored desc pos args acc l :
  stored_all desc acc → gnu_run desc pos args acc = inr l → stored_all desc l.
Proof.
  remember (length args) as n eqn:Hn. revert args acc Hn.
  induction n as [n IH] using lt_wf_ind. intros [|arg args] acc -> Hacc; cbn; [by intros [= <-]|].
  destruct (decide _).
  - destruct (assoc (drop 2 arg) desc) as [[|d|]|] eqn:Hk; try done;
      destruct (assoc (drop 2 arg) acc); try done.
    + eapply IH; [|done|by eapply stored_all_cons]. cbn. lia.
    + destruct args as [|v args]; [done|].
      eapply IH; [|done|by eapply stored_all_cons]. cbn. lia.
  - destruct (assoc pos desc) as [[|d|]|] eqn:Hk; try done.
    + destruct (assoc pos acc); [done|]. eapply IH; [|done|by eapply stored_all_cons]. cbn. lia.
    + eapply IH; [|done|eapply stored_all_cons; [done| |done]]; [cbn; lia|].
      cbn. by destruct (default [] (assoc pos acc)).
Qed.

Definition gnu_options : ProgramOptions.
Proof.
  refine {| po_run desc pos args := gnu_run desc pos args [] |}.
  intros desc pos args l k vs Hl. eapply gnu_run_stored; [|exact Hl]. done.
Defined.

Example parse_defaults :
  @parseSendOptions gnu_options [lit "disk"; []; lit "full"] =
  Ret (mkOptions (lit "127.0.0.1") 514 1 6 (lit "minilog-send") None None None false (lit "disk  full")
         false false).
Proof. vm_compute. reflexivity. Qed.
Example parse_given :
  @parseSendOptions gnu_options
    (lit <$> ["--port"; "1514"; "--facility"; "local7"; "--severity"; "0"; "--rfc3164"; "--pid"; "9"]%string) =
  Ret (mkOptions (lit "127.0.0.1") 1514 23 0 (lit "minilog-send") None (Some (lit "9")) None true []
         false false) ∧
  (∃ w, @parseSendOptions gnu_options (lit <$> ["--port"; "65536"]%string) = Throw (UsageError w)) ∧
  (∃ w, @parseSendOptions gnu_options (lit <$> ["--facility"; "24"]%string) = Throw (UsageError w)).
Proof. vm_compute. eauto. Qed.
