(* ===== verification/SendMain.v ===== *)
(** * minilog-send: one run of the program (src/src/send/main.cpp)

    [main], [Sender] and the sending loop. The machine is a record of what it
    answers: the arguments, the name and pid of this machine, the resolver, the
    socket's [open], each [send_to], each reading of the clock, and stdin. A run
    ends with an exit status, the datagrams that left and the lines on stderr. *)

From S2P Require Import Prelude Names Platform Parser ParserSpec SendFormat SendOptions.

Definition kExitSendFailed : Z := 1.
Definition kExitUsage : Z := 2.

(** What the run meets; errors are their [message()]. *)
Record SendEnv := mkEnv {
  se_args : list bytes;
  se_ownPid : bytes;
  se_host_name : bytes + bytes;
  se_resolve : bytes → bytes → option bytes * list bytes;
  se_open : option bytes;
  se_send : nat → option bytes;
  se_clock : nat → LocalTime;
  se_stdin : bytes
}.

Record SendRun := mkRun { sr_status : Z; sr_sent : list bytes; sr_err : list bytes }.

(** [Sender::Sender]: the address that datagrams go to. *)
Definition Sender (host : bytes) (port : Z) (env : SendEnv) : M bytes :=
  match se_resolve env host (to_string port) with
  | (None, address :: _) =>
      match se_open env with
      | None => mret address
      | Some e => Throw (RuntimeError e)
      end
  | (ec, _) => Throw (RuntimeError (lit "cannot resolve '" ++ host ++ lit "': " ++
                                    default (lit "no addresses") ec))
  end.

(** [Sender::send], of the [i]th datagram. *)
Definition send (address : bytes) (port : Z) (i : nat) (datagram : bytes) (env : SendEnv) : M bytes :=
  match se_send env i with
  | None => mret datagram
  | Some e => Throw (RuntimeError (lit "send to " ++ address ++ lit ":" ++ to_string port ++
                                   lit " failed: " ++ e))
  end.

(** The HOSTNAME of the run: given, or this machine's. *)
Definition hostname_of (opts : SendOptions) (env : SendEnv) : bytes + bytes :=
  match so_hostname opts with Some h => inr h | None => se_host_name env end.

(** The header fields of every message of the run. *)
Definition fields_of (opts : SendOptions) (hostname : bytes) (env : SendEnv) : SyslogFields :=
  mkFields (so_facility opts) (so_severity opts) [] hostname (so_app opts)
    (Some (default (se_ownPid env) (so_pid opts))) (so_msgid opts) [].

(** The message of the command line as a datagram, or a check of the fields. *)
Definition single_of (fields : SyslogFields) (opts : SendOptions) (env : SendEnv) : M bytes :=
  if negb (sv_empty (so_message opts)) then
    buildDatagram fields (so_message opts) (so_rfc3164 opts) (se_clock env 0)
  else
    validateFields (with_message fields (sf_timestamp fields) (lit "x")) (so_rfc3164 opts);; mret [].

Definition hint : bytes := x0a :: lit "Try 'minilog-send --help'.".

Section main.
Context `{ProgramOptions}.

Fixpoint send_lines (address : bytes) (opts : SendOptions) (fields : SyslogFields) (env : SendEnv)
    (total : Z) (lines : list bytes) (sent : list bytes) : M SendRun :=
  match lines with
  | [] => mret (mkRun 0 sent [])
  | line :: rest =>
      match (d ← buildDatagram fields line (so_rfc3164 opts) (se_clock env (length sent));
             send address (so_port opts) (length sent) d env) with
      | Ret d => send_lines address opts fields env total rest (sent ++ [d])
      | Throw e =>
          mret (mkRun kExitSendFailed sent
                  [lit "minilog-send: line " ++ to_string (zlen sent + 1) ++ lit ": " ++ exn_what e ++
                   lit " (" ++ to_string (zlen sent) ++ lit " of " ++ to_string total ++ lit " sent)"])
      | UB => UB
      end
  end.

(** The last [try] of [main]. *)
Definition send_all (opts : SendOptions) (fields : SyslogFields) (single : bytes) (env : SendEnv)
    : M SendRun :=
  try_catch
    (address ← Sender (so_host opts) (so_port opts) env;
     if negb (sv_empty single) then
       d ← send address (so_port opts) 0 single env; mret (mkRun 0 [d] [])
     else
       lines ← splitLines (se_stdin env);
       if (length lines =? 0)%nat then
         mret (mkRun kExitUsage [] [lit "minilog-send: no message given and nothing on stdin" ++ hint])
       else send_lines address opts fields env (zlen lines) lines [])
    (λ e, mret (mkRun kExitSendFailed [] [lit "minilog-send: " ++ exn_what e])).

Definition send_main (env : SendEnv) : M SendRun :=
  match parseSendOptions (se_args env) with
  | Throw (UsageError w) => mret (mkRun kExitUsage [] [lit "minilog-send: " ++ w ++ hint])
  | Throw e => Throw e
  | UB => UB
  | Ret opts =>
      if so_help opts then mret (mkRun 0 [] []) else
      if so_version opts then mret (mkRun 0 [] []) else
      match hostname_of opts env with
      | inl e =>
          mret (mkRun kExitSendFailed []
                  [lit "minilog-send: cannot read this machine's hostname (" ++ e ++
                   lit "); pass --hostname"])
      | inr hostname =>
          let fields := fields_of opts hostname env in
          match single_of fields opts env with
          | Throw e => mret (mkRun kExitUsage [] [lit "minilog-send: " ++ exn_what e ++ hint])
          | UB => UB
          | Ret single => send_all opts fields single env
          end
      end
  end.

(** ** What a run does *)

(** The messages the user gave. *)
Definition intended (opts : SendOptions) (env : SendEnv) : list bytes :=
  if sv_empty (so_message opts) then lines_spec (se_stdin env) else [so_message opts].

(** The datagrams are those of the first messages, in order, each built with the
    time it was sent. *)
Definition first_of (opts : SendOptions) (fields : SyslogFields) (env : SendEnv) (sent : list bytes) : Prop :=
  (length sent ≤ length (intended opts env))%nat ∧
  ∀ i d, sent !! i = Some d →
    ∃ msg, intended opts env !! i = Some msg ∧ se_send env i = None ∧
           buildDatagram fields msg (so_rfc3164 opts) (se_clock env i) = Ret d.

(** The exit status tells what left the machine, and stderr says why not all. *)
Definition reported (opts : SendOptions) (env : SendEnv) (r : SendRun) : Prop :=
  (sr_status r = 0 ↔ intended opts env ≠ [] ∧ length (sr_sent r) = length (intended opts env)) ∧
  (sr_status r = 0 ∨ sr_status r = 1 ∨ (sr_status r = 2 ∧ sr_sent r = [])) ∧
  length (sr_err r) = (if sr_status r =? 0 then 0%nat else 1%nat).

Lemma buildDatagram_returns base msg rfc3164 now :
  ValidTime now →
  (∃ d, buildDatagram base msg rfc3164 now = Ret d ∧ d ≠ []) ∨
  (∃ w, buildDatagram base msg rfc3164 now = Throw (RuntimeError w)).
Proof.
  intros Ht. assert (∃ ts, send_timestamp rfc3164 now = Ret ts) as [ts Hts].
  { destruct rfc3164; [|by eexists]. cbn. destruct (rfc3164Timestamp_part now [] Ht) as (ts & ? & _). eauto. }
  destruct (buildDatagram_eval base msg _ _ _ Hts) as [(-> & _)|(w & -> & _)]; [left|right; by eexists].
  eexists. split; [done|]. by destruct rfc3164.
Qed.

(** Good news for a run that stopped early. *)
Lemma reported_failure opts env sent err :
  (intended opts env = [] ∨ (length sent < length (intended opts env))%nat) →
  reported opts env (mkRun 1 sent [err]).
Proof.
  intros Hs. unfold reported. cbn. split_and!; [|by right; left|done]. split; [done|].
  intros [? ?]. destruct Hs; [done|lia].
Qed.
Lemma reported_usage opts env err : reported opts env (mkRun 2 [] [err]).
Proof.
  unfold reported. cbn. split_and!; [|by right; right|done]. split; [done|].
  intros [Hi Hl]. by destruct (intended opts env).
Qed.

Lemma first_of_nil opts fields env : first_of opts fields env [].
Proof. split; [cbn; lia|]. intros i d. by rewrite lookup_nil. Qed.

Lemma first_of_snoc opts fields env sent msg d :
  first_of opts fields env sent → intended opts env !! length sent = Some msg →
  se_send env (length sent) = None →
  buildDatagram fields msg (so_rfc3164 opts) (se_clock env (length sent)) = Ret d →
  first_of opts fields env (sent ++ [d]).
Proof.
  intros [_ Hs] Hm Hsend Hb. split.
  - rewrite length_snoc. apply lookup_lt_Some in Hm. lia.
  - intros i d'. rewrite lookup_app_Some. intros [?|[Hi Hd]]; [by apply Hs|].
    apply list_lookup_singleton_Some in Hd as [Hi' <-].
    assert (i = length sent) as -> by lia. eauto.
Qed.

Lemma send_cases address port i d env :
  (se_send env i = None ∧ send address port i d env = Ret d) ∨
  (∃ w, send address port i d env = Throw (RuntimeError w)).
Proof. unfold send. destruct (se_send env i); [right; by eexists|by left]. Qed.

Lemma send_lines_runs address opts fields env total lines sent :
  (∀ i, ValidTime (se_clock env i)) → first_of opts fields env sent →
  drop (length sent) (intended opts env) = lines → intended opts env ≠ [] →
  ∃ r, send_lines address opts fields env total lines sent = Ret r ∧
       first_of opts fields env (sr_sent r) ∧ reported opts env r.
Proof.
  intros Ht. revert sent. induction lines as [|line rest IH]; intros sent Hf Hd Hne; cbn [send_lines].
  - eexists. split; [done|]. split; [done|]. unfold reported. cbn. split_and!; [|by left|done].
    split; [|done]. intros _. split; [done|]. destruct Hf as [? _].
    assert (length (drop (length sent) (intended opts env)) = 0%nat) as Hl by by rewrite Hd.
    rewrite length_drop in Hl. lia.
  - assert (Hm : intended opts env !! length sent = Some line).
    { rewrite <- (Nat.add_0_r (length sent)), <- lookup_drop, Hd. done. }
    pose proof (lookup_lt_Some _ _ _ Hm).
    destruct (buildDatagram_returns fields line (so_rfc3164 opts) (se_clock env (length sent)) (Ht _))
      as [(d & Hb & _)|(w & ->)]; [|cbn; eexists; split; [done|]; split; [done|]; apply reported_failure; by right].
    rewrite Hb. cbn [mbind M_bind].
    destruct (send_cases address (so_port opts) (length sent) d env) as [[Hs ->]|(w & ->)].
    + apply IH; [by eapply first_of_snoc| |done].
      apply (f_equal (drop 1)) in Hd. rewrite drop_drop in Hd. change (drop 1 (line :: rest)) with rest in Hd. rewrite <- Hd.
      f_equal. rewrite length_snoc. lia.
    + eexists. split; [done|]. split; [done|]. apply reported_failure. by right.
Qed.

Lemma single_of_cases opts hostname env :
  (∀ i, ValidTime (se_clock env i)) →
  let fields := fields_of opts hostname env in
  (∃ single, single_of fields opts env = Ret single ∧
     if sv_empty (so_message opts) then single = [] else
     single ≠ [] ∧ buildDatagram fields (so_message opts) (so_rfc3164 opts) (se_clock env 0) = Ret single) ∨
  (∃ w, single_of fields opts env = Throw (RuntimeError w)).
Proof.
  intros Ht fields. unfold single_of. destruct (sv_empty (so_message opts)); cbn [negb].
  - destruct (validateFields_validates (with_message fields (sf_timestamp fields) (lit "x"))
                (so_rfc3164 opts)) as [[-> _]|(w & -> & _)]; [left|right]; by eexists.
  - destruct (buildDatagram_returns fields (so_message opts) (so_rfc3164 opts) (se_clock env 0) (Ht _))
      as [(d & -> & ?)|(w & ->)]; [left|right]; by eexists.
Qed.

Lemma send_all_runs opts fields env single :
  (∀ i, ValidTime (se_clock env i)) →
  (if sv_empty (so_message opts) then single = [] else
   single ≠ [] ∧ buildDatagram fields (so_message opts) (so_rfc3164 opts) (se_clock env 0) = Ret single) →
  ∃ r, send_all opts fields single env = Ret r ∧ first_of opts fields env (sr_sent r) ∧
       reported opts env r.
Proof.
  intros Ht Hsingle. unfold send_all.
  assert (Hfail : ∀ err, reported opts env (mkRun 1 [] [err])).
  { intros err. apply reported_failure. destruct (intended opts env); [by left|right; cbn; lia]. }
  assert (Hsender : (∃ a, Sender (so_host opts) (so_port opts) env = Ret a) ∨
                    ∃ w, Sender (so_host opts) (so_port opts) env = Throw (RuntimeError w)).
  { unfold Sender. destruct (se_resolve _ _ _) as [[e|] [|a l]]; [right; by eexists..|].
    destruct (se_open env); [right; by eexists|left; by eexists]. }
  destruct Hsender as [(a & ->)|(w & ->)]; cbn [mbind M_bind try_catch];
    [|eexists; split; [done|]; split; [apply first_of_nil|apply Hfail]].
  destruct (sv_empty (so_message opts)) eqn:Hm.
  - subst single. cbn [sv_empty negb]. rewrite splitLines_eval. cbn [mbind M_bind].
    assert (Hi : intended opts env = lines_spec (se_stdin env)) by (unfold intended; by rewrite Hm).
    destruct (Nat.eqb_spec (length (lines_spec (se_stdin env))) 0) as [Hl|Hl].
    + eexists. split; [done|]. split; [apply first_of_nil|apply reported_usage].
    + destruct (send_lines_runs a opts fields env (zlen (lines_spec (se_stdin env)))
                  (lines_spec (se_stdin env)) []) as (r & -> & ?); [done|apply first_of_nil| | |by exists r].
      * rewrite Hi. by rewrite drop_0.
      * rewrite Hi. intros E. by rewrite E in Hl.
  - destruct Hsingle as [Hne Hb]. destruct single as [|c single]; [done|]. cbn [sv_empty negb].
    assert (Hi : intended opts env = [so_message opts]) by (unfold intended; by rewrite Hm).
    destruct (send_cases a (so_port opts) 0 (c :: single) env) as [[Hs ->]|(w & ->)]; cbn [mbind M_bind].
    + eexists. split; [done|]. split.
      * apply (first_of_snoc opts fields env [] (so_message opts) (c :: single));
          [apply first_of_nil|by rewrite Hi|done|done].
      * unfold reported. rewrite Hi. cbn. by split_and!; [|left|].
    + eexists. split; [done|]. split; [apply first_of_nil|apply Hfail].
Qed.

(** C36. The exit status of minilog-send says what left the machine. Whatever the
    command line, the resolver, the socket and stdin give, main returns; a bad
    command line is status 2 with nothing sent. Otherwise the datagrams sent are
    those of the first messages, in order, and the status is 0 exactly when there
    was a message and every one was sent; when it is not 0, one line on stderr
    says why, and with status 2 nothing was sent. *)
Theorem send_main_status env :
  (∀ i, ValidTime (se_clock env i)) →
  ∃ r, send_main env = Ret r ∧
  match parseSendOptions (se_args env) with
  | Ret opts =>
      if so_help opts || so_version opts then sr_status r = 0 ∧ sr_sent r = [] else
      ∃ hostname, (sr_sent r ≠ [] → hostname_of opts env = inr hostname) ∧
        first_of opts (fields_of opts hostname env) env (sr_sent r) ∧ reported opts env r
  | _ => sr_status r = 2 ∧ sr_sent r = []
  end.
Proof.
  intros Ht. unfold send_main. pose proof (parse_decides (se_args env)) as Hp.
  destruct (parseSendOptions (se_args env)) as [opts|[]|]; try done; [|by eexists].
  destruct (so_help opts); [by eexists|]. destruct (so_version opts); [by eexists|]. cbn [orb].
  destruct (hostname_of opts env) as [e|hostname] eqn:Hn.
  - eexists. split; [done|]. exists []. split; [done|]. split; [apply first_of_nil|]. apply reported_failure.
    destruct (intended opts env); [by left|right; cbn; lia].
  - destruct (single_of_cases opts hostname env Ht) as [(single & -> & Hs)|(w & ->)].
    + destruct (send_all_runs opts (fields_of opts hostname env) env single Ht Hs) as (r & -> & ?).
      exists r. split; [done|]. by exists hostname.
    + eexists. split; [done|]. exists hostname. split; [done|]. split; [apply first_of_nil|apply reported_usage].
Qed.
End main.

(** ** A concrete run *)

Definition env0 : SendEnv :=
  mkEnv (lit <$> ["--port"; "1514"; "--rfc3164"]%string) (lit "77") (inr (lit "host"))
    (λ _ _, (None, [lit "127.0.0.1"])) None (λ i, if (i <? 2)%nat then None else Some (lit "refused"))
    (λ _, example_time) (lit "one" ++ [x0d; x0a; x0a] ++ lit "two" ++ [x0a] ++ lit "three").

Example env0_run :
  @send_main gnu_options env0 =
  Ret (mkRun 1 [lit "<14>Sep  3 14:07:31 host minilog-send[77]: one";
                lit "<14>Sep  3 14:07:31 host minilog-send[77]: two"]
         [lit "minilog-send: line 3: send to 127.0.0.1:1514 failed: refused (2 of 3 sent)"]).
Proof. vm_compute. reflexivity. Qed.

Lemma send_main_status_witness :
  ∃ r, @send_main gnu_options env0 = Ret r ∧
  match @parseSendOptions gnu_options (se_args env0) with
  | Ret opts =>
      if so_help opts || so_version opts then sr_status r = 0 ∧ sr_sent r = [] else
      ∃ hostname, (sr_sent r ≠ [] → hostname_of opts env0 = inr hostname) ∧
        first_of opts (fields_of opts hostname env0) env0 (sr_sent r) ∧ reported opts env0 r
  | _ => sr_status r = 2 ∧ sr_sent r = []
  end.
Proof.
  apply (@send_main_status gnu_options env0). intros i. unfold env0; cbn. repeat split; vm_compute; discriminate.
Defined.
