(* ===== verification/Preflight.v ===== *)
(** * minilog --check (src/src/server/preflight.cpp)

    [preflight] looks at the configuration and at the machine, and reports; the
    machine is a record of what it answers. What the check itself does to the
    machine is part of the model: the probe files it creates, and those it could
    not remove again. *)

From S2P Require Import Prelude Platform Config ConfigSpec FileSystem.

Inductive Level := Error | Warning.
Record Finding := mkFinding { f_level : Level; f_message : bytes }.
#[export] Instance Level_eq_dec : EqDecision Level.
Proof. solve_decision. Defined.

Record PreflightReport := mkReport { requirements : list bytes; findings : list Finding }.

Definition count (level : Level) (r : PreflightReport) : nat :=
  length (filter (λ f, f_level f = level) (findings r)).
Definition failed (r : PreflightReport) : bool := negb (count Error r =? 0)%nat.

(** platform/service.hpp *)
Inductive ServiceState := NotApplicable | NotInstalled | Running | NotRunning | Unknown.

(** What the machine answers. [exists] may fail; a directory accepts new files or
    not, and lets go of them or not. *)
Record PreEnv := mkPreEnv {
  pe_exists : bytes → bool + bytes;
  pe_is_directory : bytes → bool;
  pe_can_create : bytes → bool;
  pe_remove : bytes → option bytes;
  pe_can_append : bytes → bool;
  pe_address_error : bytes;
  pe_bind : bytes → Z → option bytes;
  pe_resolve : bytes → bytes → option bytes * list bytes;
  pe_stamp : Z
}.

(** The findings so far, the next probe's number and the probes left behind. *)
Record Progress := mkProgress { pr_findings : list Finding; pr_counter : nat; pr_left : list bytes }.

Definition addError (m : bytes) (p : Progress) : Progress :=
  mkProgress (pr_findings p ++ [mkFinding Error m]) (pr_counter p) (pr_left p).
Definition addWarning (m : bytes) (p : Progress) : Progress :=
  mkProgress (pr_findings p ++ [mkFinding Warning m]) (pr_counter p) (pr_left p).

Definition endpointText (host : bytes) (port : Z) : bytes := host ++ lit ":" ++ to_string port.

(** ** Paths *)

Definition is_slash (c : byte) : bool := bool_decide (c = "/"%byte).

(** [parent_path()] of an absolute path. *)
Definition parent_path (p : bytes) : bytes :=
  let dir := (split_path p).1 in
  match reverse (drop_while is_slash (reverse dir)) with
  | [] => if sv_empty dir then [] else lit "/"
  | d => d
  end.

(** Paths are compared element by element. *)
Definition path_elements (p : bytes) : bool * list bytes :=
  (match p with c :: _ => is_slash c | [] => false end,
   filter (λ e, e ≠ []) (split_on "/"%byte p)).
Definition path_eq (p q : bytes) : bool := bool_decide (path_elements p = path_elements q).

(** [dir / name] *)
Definition path_join (dir name : bytes) : bytes :=
  match last dir with
  | Some c => if is_slash c then dir ++ name else dir ++ lit "/" ++ name
  | None => name
  end.

(** ** The checks *)

Section checks.
Context `{PropertyTree T} `{BoostStrings} `{Machine}.
Variable env : PreEnv.

Definition probePath (dir : bytes) (counter : nat) : bytes :=
  path_join dir (lit ".minilog-check-" ++ to_string (pe_stamp env) ++ lit "-" ++
                 to_string (Z.of_nat counter)).

Definition checkDirectory (dir : bytes) (out : Progress) : Progress :=
  match pe_exists env dir with
  | inr e =>
      addError (lit "cannot inspect log directory '" ++ dir ++ lit "': " ++ e ++
                lit " — check the permissions on the path leading to it") out
  | inl false =>
      addError (lit "log directory '" ++ dir ++
                lit "' does not exist — minilog never creates directories, so it has to be provisioned before minilog runs") out
  | inl true =>
      if negb (pe_is_directory env dir) then
        addError (lit "'" ++ dir ++ lit "' is not a directory") out
      else
        let probe := probePath dir (pr_counter out) in
        let out := mkProgress (pr_findings out) (S (pr_counter out)) (pr_left out) in
        if negb (pe_can_create env dir) then
          addError (lit "log directory '" ++ dir ++
                    lit "' exists but is not writable by this user — minilog will open no log file in it and will silently discard every message routed there") out
        else
          match pe_remove env dir with
          | Some e =>
              addWarning (lit "wrote but could not delete '" ++ probe ++ lit "' (" ++ e ++
                          lit "); log rotation deletes old generations and will fail the same way")
                (mkProgress (pr_findings out) (pr_counter out) (probe :: pr_left out))
          | None => out
          end
  end.

Definition checkExistingFile (path : bytes) (out : Progress) : Progress :=
  match pe_exists env path with
  | inl true =>
      if pe_is_directory env path then
        addError (lit "'" ++ path ++ lit "' is a directory, not a log file") out
      else if negb (pe_can_append env path) then
        addError (lit "log file '" ++ path ++
                  lit "' exists but cannot be opened for appending — minilog will close that sink at startup and discard the messages routed to it") out
      else out
  | _ => out
  end.

Definition classifyBindFailure (endpoint reason : bytes) (service : ServiceState) : Finding :=
  match service with
  | Running =>
      mkFinding Warning
        (lit "UDP " ++ endpoint ++
         lit " is held by the minilog service, which is running on this machine — that is expected, and it means --check cannot test the bind itself (" ++
         reason ++ lit ")")
  | _ =>
      mkFinding Error
        (lit "cannot bind UDP " ++ endpoint ++ lit ": " ++ reason ++
         match service with
         | Unknown =>
             lit " — the service manager could not be asked whether an already running minilog holds it"
         | NotApplicable =>
             lit " — this platform has no service manager, so a minilog already running on this machine would look the same as anything else holding the port"
         | _ => []
         end)
  end.

Definition checkBind (cfg : Config) (service : ServiceState) (out : Progress) : Progress :=
  let endpoint := endpointText (cfg_host cfg) (cfg_udpPort cfg) in
  match make_address (cfg_host cfg) with
  | None =>
      addError (lit "invalid [server] host '" ++ cfg_host cfg ++ lit "': " ++ pe_address_error env) out
  | Some _ =>
      match pe_bind env (cfg_host cfg) (cfg_udpPort cfg) with
      | Some e =>
          mkProgress (pr_findings out ++ [classifyBindFailure endpoint e service]) (pr_counter out)
            (pr_left out)
      | None => out
      end
  end.

Definition checkForwarding (fwd : ForwardingConfig) (out : Progress) : Progress :=
  if negb (fc_enabled fwd) then out else
  match pe_resolve env (fc_host fwd) (to_string (fc_port fwd)) with
  | (None, _ :: _) => out
  | (ec, _) =>
      addError (lit "forwarding is enabled but destination '" ++ fc_host fwd ++
                lit "' does not resolve" ++
                match ec with Some e => lit ": " ++ e | None => [] end ++
                lit " — minilog still starts and retries the lookup in the background, so this shows up as nothing being forwarded rather than as a startup failure") out
  end.

(** The files of a section, and its directories added to those of the others. *)
Definition files_of_output (o : OutputConfig) : list bytes :=
  filter (λ p, p ≠ []) [oc_textFile o; oc_jsonlFile o].
Definition add_directory (directories : list bytes) (path : bytes) : list bytes :=
  let dir := parent_path path in
  if existsb (λ d, path_eq d dir) directories then directories else directories ++ [dir].

Fixpoint file_loop (paths : list bytes) (st : list bytes * Progress) : list bytes * Progress :=
  match paths with
  | [] => st
  | path :: rest =>
      if sv_empty path then file_loop rest st
      else file_loop rest (add_directory st.1 path, checkExistingFile path st.2)
  end.
Fixpoint output_loop (outputs : list OutputConfig) (st : list bytes * Progress)
    : list bytes * Progress :=
  match outputs with
  | [] => st
  | out :: rest =>
      let '(directories, p) := file_loop [oc_textFile out; oc_jsonlFile out] st in
      output_loop rest
        (directories,
         if oc_maxSize out =? 0 then
           addWarning (lit "[output." ++ oc_name out ++
             lit "] has max_size = 0, so its files are never rotated and grow until the filesystem is full") p
         else p)
  end.
Fixpoint directory_loop (directories : list bytes) (p : Progress) : Progress :=
  match directories with
  | [] => p
  | dir :: rest => directory_loop rest (checkDirectory dir p)
  end.

(** The report, and the probe files left on the machine. *)
Definition preflight (parsed : bytes + T) (service : ServiceState) : M (PreflightReport * list bytes) :=
  match loadConfig parsed with
  | Throw e => mret (mkReport [] [mkFinding Error (lit "config: " ++ exn_what e)], [])
  | UB => UB
  | Ret cfg =>
      let '(directories, p) := output_loop (cfg_outputs cfg) ([], mkProgress [] 0 []) in
      let p := directory_loop directories p in
      let p := checkBind cfg service p in
      let p := checkForwarding (cfg_forwarding cfg) p in
      mret (mkReport
              ((lit "inbound UDP datagrams on " ++ endpointText (cfg_host cfg) (cfg_udpPort cfg)) ::
               ((λ dir, lit "write access to directory " ++ dir) <$> directories) ++
               (if fc_enabled (cfg_forwarding cfg) then
                  [lit "outbound UDP to " ++ endpointText (fc_host (cfg_forwarding cfg))
                     (fc_port (cfg_forwarding cfg)) ++ lit " (forwarding)"]
                else []))
              (pr_findings p), pr_left p)
  end.
End checks.

(** ** Printing *)

Definition nl : bytes := [x0a].
Definition printPreflight (r : PreflightReport) (configPath : bytes) : bytes * Z :=
  let out := lit "minilog --check " ++ configPath ++ nl in
  let out :=
    match requirements r with
    | [] => out
    | _ =>
        out ++ nl ++ lit "This configuration requires:" ++ nl ++
        mjoin ((λ q, lit "  - " ++ q ++ nl) <$> requirements r) ++
        nl ++ lit "Whether remote senders can reach the listen port is not checked: only a datagram" ++
        nl ++ lit "from a real sender can show that the firewall rules allow it." ++ nl
    end in
  match findings r with
  | [] => (out ++ nl ++ lit "No problems found." ++ nl, 0)
  | _ =>
      (out ++ nl ++
       mjoin ((λ f, (if decide (f_level f = Error) then lit "ERROR:   " else lit "WARNING: ") ++
                    f_message f ++ nl) <$> findings r) ++
       nl ++ to_string (Z.of_nat (count Error r)) ++ lit " error(s), " ++
       to_string (Z.of_nat (count Warning r)) ++ lit " warning(s)" ++ nl,
       if failed r then 1 else 0)
  end.

(** ** The verdict *)

Section verdict.
Context `{PropertyTree T} `{BoostStrings} `{Machine}.
Variable env : PreEnv.

(** What makes minilog unable to work as configured. *)
Definition bad_file (path : bytes) : Prop :=
  pe_exists env path = inl true ∧ (pe_is_directory env path = true ∨ pe_can_append env path = false).
Definition usable_directory (dir : bytes) : Prop :=
  pe_exists env dir = inl true ∧ pe_is_directory env dir = true ∧ pe_can_create env dir = true.
Definition bad_bind (cfg : Config) (service : ServiceState) : Prop :=
  make_address (cfg_host cfg) = None ∨
  (is_Some (pe_bind env (cfg_host cfg) (cfg_udpPort cfg)) ∧ service ≠ Running).
Definition bad_forwarding (fwd : ForwardingConfig) : Prop :=
  fc_enabled fwd = true ∧
  let '(ec, results) := pe_resolve env (fc_host fwd) (to_string (fc_port fwd)) in
  is_Some ec ∨ results = [].

(** The configured files, and the directories they are in, each once. *)
Definition configured_files (cfg : Config) : list bytes := mjoin (files_of_output <$> cfg_outputs cfg).
Definition directories_of (files : list bytes) : list bytes := foldl add_directory [] files.

Definition has_error (p : Progress) : Prop := Exists (λ f, f_level f = Error) (pr_findings p).

Lemma failed_iff r : failed r = true ↔ Exists (λ f, f_level f = Error) (findings r).
Proof.
  unfold failed, count. rewrite negb_true_iff, Nat.eqb_neq, Exists_exists. split.
  - intros Hl. destruct (filter _ _) as [|f l] eqn:E; [done|].
    assert (Hf : f ∈ f :: l) by by left. rewrite <- E in Hf. apply list_elem_of_filter in Hf as []. eauto.
  - intros (f & Hf & Hlev) Hl. apply nil_length_inv in Hl.
    assert (Hin : f ∈ filter (λ f, f_level f = Error) (findings r)) by by apply list_elem_of_filter.
    rewrite Hl in Hin. by apply not_elem_of_nil in Hin.
Qed.

Lemma has_error_add m p : has_error (addError m p).
Proof. unfold has_error. cbn. apply Exists_app. right. by constructor. Qed.
Lemma has_error_warn m p : has_error (addWarning m p) ↔ has_error p.
Proof.
  unfold has_error. cbn. rewrite Exists_app. split; [|by left]. intros [?|Hw]; [done|].
  apply Exists_exists in Hw as (f & ->%list_elem_of_singleton & [=]).
Qed.

Lemma checkDirectory_error dir p :
  has_error (checkDirectory env dir p) ↔ has_error p ∨ ¬ usable_directory dir.
Proof.
  unfold checkDirectory, usable_directory.
  destruct (pe_exists env dir) as [[|]|e]; [|split; [right; by intros [[=] _]|intros _; apply has_error_add]..].
  destruct (pe_is_directory env dir); cbn [negb];
    [|split; [right; by intros (_ & [=] & _)|intros _; apply has_error_add]].
  destruct (pe_can_create env dir); cbn [negb];
    [|split; [right; by intros (_ & _ & [=])|intros _; apply has_error_add]].
  destruct (pe_remove env dir); rewrite ?has_error_warn; unfold has_error; cbn; split; try tauto;
    (intros [?|Hu]; [done|by destruct Hu]).
Qed.

Lemma checkExistingFile_error path p :
  has_error (checkExistingFile env path p) ↔ has_error p ∨ bad_file path.
Proof.
  unfold checkExistingFile, bad_file.
  destruct (pe_exists env path) as [[|]|e]; [|split; [by left|by intros [?|[[=] _]]]..].
  destruct (pe_is_directory env path);
    [split; [right; split; [done|by left]|intros _; apply has_error_add]|].
  destruct (pe_can_append env path); cbn [negb].
  - split; [by left|]. by intros [?|[_ [[=]|[=]]]].
  - split; [right; split; [done|by right]|intros _; apply has_error_add].
Qed.

Lemma checkBind_error cfg service p :
  has_error (checkBind env cfg service p) ↔ has_error p ∨ bad_bind cfg service.
Proof.
  unfold checkBind, bad_bind. destruct (make_address _);
    [|split; [right; by left|intros _; apply has_error_add]].
  destruct (pe_bind _ _ _) as [e|].
  - unfold has_error. cbn. rewrite Exists_app, Exists_cons, Exists_nil.
    assert (f_level (classifyBindFailure (endpointText (cfg_host cfg) (cfg_udpPort cfg)) e service) = Error
            ↔ service ≠ Running) as -> by by destruct service.
    naive_solver.
  - naive_solver.
Qed.

Lemma checkForwarding_error fwd p :
  has_error (checkForwarding env fwd p) ↔ has_error p ∨ bad_forwarding fwd.
Proof.
  unfold checkForwarding, bad_forwarding. destruct (fc_enabled fwd); cbn [negb]; [|naive_solver].
  destruct (pe_resolve _ _ _) as [[e|] [|a l]];
    [split; [right; eauto|intros _; apply has_error_add]..|]. naive_solver.
Qed.

Lemma directory_loop_error dirs p :
  has_error (directory_loop env dirs p) ↔ has_error p ∨ ∃ d, d ∈ dirs ∧ ¬ usable_directory d.
Proof.
  revert p. induction dirs as [|d dirs IH]; intros p; cbn [directory_loop].
  - split; [by left|]. by intros [?|(? & ?%not_elem_of_nil & _)].
  - rewrite IH, checkDirectory_error. setoid_rewrite elem_of_cons. naive_solver.
Qed.

Lemma file_loop_spec paths dirs p :
  let st := file_loop env paths (dirs, p) in
  st.1 = foldl add_directory dirs (filter (λ p, p ≠ []) paths) ∧
  (has_error st.2 ↔ has_error p ∨ ∃ f, f ∈ filter (λ p, p ≠ []) paths ∧ bad_file f).
Proof.
  revert dirs p. induction paths as [|path paths IH]; intros dirs p; cbn [file_loop fst snd].
  - split; [done|]. split; [by left|]. by intros [?|(? & ?%not_elem_of_nil & _)].
  - rewrite filter_cons. destruct path as [|c path]; cbn [sv_empty].
    + destruct (decide _) as [Hd|_]; [done|]. apply IH.
    + cbn [fst snd]. rewrite decide_True by done. destruct (IH (add_directory dirs (c :: path))
        (checkExistingFile env (c :: path) p)) as [-> ->]. split; [done|].
      rewrite checkExistingFile_error. setoid_rewrite elem_of_cons. naive_solver.
Qed.

Lemma output_loop_spec outputs dirs p :
  let st := output_loop env outputs (dirs, p) in
  st.1 = foldl add_directory dirs (mjoin (files_of_output <$> outputs)) ∧
  (has_error st.2 ↔ has_error p ∨ ∃ f, f ∈ mjoin (files_of_output <$> outputs) ∧ bad_file f).
Proof.
  revert dirs p. induction outputs as [|o outputs IH]; intros dirs p; cbn [output_loop].
  - split; [done|]. split; [by left|]. by intros [?|(? & ?%not_elem_of_nil & _)].
  - destruct (file_loop env _ (dirs, p)) as [dirs' p'] eqn:E.
    destruct (file_loop_spec [oc_textFile o; oc_jsonlFile o] dirs p) as [Hd He].
    rewrite E in Hd, He. cbn [fst snd] in Hd, He. fold (files_of_output o) in Hd, He.
    destruct (IH dirs' (if oc_maxSize o =? 0 then addWarning
      (lit "[output." ++ oc_name o ++
       lit "] has max_size = 0, so its files are never rotated and grow until the filesystem is full") p'
      else p')) as [-> ->].
    cbn [fmap list_fmap mjoin list_join]. rewrite foldl_app, <- Hd. split; [done|].
    assert (∀ b m, has_error (if (b : bool) then addWarning m p' else p') ↔ has_error p') as ->
      by (intros [] m; [apply has_error_warn|done]).
    rewrite He. setoid_rewrite elem_of_app. clear. naive_solver.
Qed.

Lemma add_directory_keeps files dirs :
  ∀ d, d ∈ dirs → d ∈ foldl add_directory dirs files.
Proof.
  revert dirs. induction files as [|f files IH]; intros dirs d Hd; cbn; [done|]. apply IH.
  unfold add_directory. destruct (existsb _ _); [done|]. apply elem_of_app. by left.
Qed.
Lemma directories_cover files dirs f :
  f ∈ files → ∃ d, d ∈ foldl add_directory dirs files ∧ path_eq d (parent_path f) = true.
Proof.
  revert dirs. induction files as [|g files IH]; intros dirs Hf; [by apply not_elem_of_nil in Hf|].
  apply elem_of_cons in Hf as [->|Hf]; [|by apply IH]. cbn.
  assert (∃ d, d ∈ add_directory dirs g ∧ path_eq d (parent_path g) = true) as (d & Hd & ?);
    [|exists d; split; [by apply add_directory_keeps|done]].
  unfold add_directory. destruct (existsb _ _) eqn:E.
  - apply existsb_exists in E as (d & Hd & ?). exists d. split; [by apply list_elem_of_In|done].
  - exists (parent_path g). split; [apply elem_of_app; right; by apply list_elem_of_singleton|].
    unfold path_eq. by rewrite bool_decide_eq_true_2.
Qed.

(** Each probe left behind is named by a warning. *)
Definition left_named (p : Progress) : Prop :=
  ∀ probe, probe ∈ pr_left p → ∃ rest,
    mkFinding Warning (lit "wrote but could not delete '" ++ probe ++ rest) ∈ pr_findings p.

Lemma left_named_more p fs :
  left_named p → left_named (mkProgress (pr_findings p ++ fs) (pr_counter p) (pr_left p)).
Proof. intros Hp probe Hin. destruct (Hp probe Hin) as (rest & ?). exists rest. apply elem_of_app. by left. Qed.

Lemma checkDirectory_left dir p :
  left_named p → left_named (checkDirectory env dir p) ∧
  (pe_remove env dir = None → pr_left (checkDirectory env dir p) = pr_left p).
Proof.
  intros Hp. unfold checkDirectory. destruct (pe_exists env dir) as [[|]|e];
    [|split; [by apply left_named_more|done]..].
  destruct (pe_is_directory env dir); cbn [negb]; [|split; [by apply left_named_more|done]].
  destruct (pe_can_create env dir); cbn [negb pr_counter pr_findings pr_left];
    [|split; [by apply (left_named_more (mkProgress (pr_findings p) (S (pr_counter p)) (pr_left p)))|done]].
  destruct (pe_remove env dir) as [e|]; [|by split]. split; [|done].
  intros probe. cbn. intros [->|Hin]%elem_of_cons.
  - eexists. apply elem_of_app. right. apply list_elem_of_singleton. reflexivity.
  - destruct (Hp probe Hin) as (rest & ?). exists rest. apply elem_of_app. by left.
Qed.
Lemma directory_loop_left dirs p :
  left_named p → left_named (directory_loop env dirs p) ∧
  ((∀ d, d ∈ dirs → pe_remove env d = None) → pr_left (directory_loop env dirs p) = pr_left p).
Proof.
  revert p. induction dirs as [|d dirs IH]; intros p Hp; cbn [directory_loop]; [by split|].
  destruct (checkDirectory_left d p Hp) as [Hn Hl]. destruct (IH _ Hn) as [? Hl']. split; [done|].
  intros Hd. rewrite Hl' by (intros; apply Hd; by right). apply Hl, Hd. by left.
Qed.
Lemma checkExistingFile_left path p : pr_left (checkExistingFile env path p) = pr_left p.
Proof.
  unfold checkExistingFile. destruct (pe_exists env path) as [[|]|]; [|done..].
  destruct (pe_is_directory env path); [done|]. by destruct (pe_can_append env path).
Qed.
Lemma file_loop_left paths st : pr_left (file_loop env paths st).2 = pr_left st.2.
Proof.
  revert st. induction paths as [|path paths IH]; intros st; cbn [file_loop]; [done|].
  destruct (sv_empty path); rewrite IH; [done|]. apply checkExistingFile_left.
Qed.
Lemma output_loop_left outputs st : pr_left (output_loop env outputs st).2 = pr_left st.2.
Proof.
  revert st. induction outputs as [|o outputs IH]; intros st; cbn [output_loop]; [done|].
  destruct (file_loop env _ st) as [dirs p] eqn:E. rewrite IH.
  pose proof (file_loop_left [oc_textFile o; oc_jsonlFile o] st) as Hl. rewrite E in Hl. cbn in Hl.
  cbn [snd]. by destruct (oc_maxSize o =? 0).
Qed.
Lemma checkBind_left cfg service p :
  left_named p → left_named (checkBind env cfg service p) ∧
  pr_left (checkBind env cfg service p) = pr_left p.
Proof.
  intros Hp. unfold checkBind. destruct (make_address _); [|split; [by apply left_named_more|done]].
  destruct (pe_bind _ _ _); [split; [by apply left_named_more|done]|done].
Qed.
Lemma checkForwarding_left fwd p :
  left_named p → left_named (checkForwarding env fwd p) ∧
  pr_left (checkForwarding env fwd p) = pr_left p.
Proof.
  intros Hp. unfold checkForwarding. destruct (negb _); [done|].
  destruct (pe_resolve _ _ _) as [[e|] [|a l]];
    (split; [first [done | by apply left_named_more]|done]).
Qed.

Lemma preflight_eval parsed service cfg :
  loadConfig parsed = Ret cfg →
  ∃ r p, preflight env parsed service = Ret (r, pr_left p) ∧ findings r = pr_findings p ∧
    requirements r = (lit "inbound UDP datagrams on " ++ endpointText (cfg_host cfg) (cfg_udpPort cfg)) ::
      ((λ dir, lit "write access to directory " ++ dir) <$> directories_of (configured_files cfg)) ++
      (if fc_enabled (cfg_forwarding cfg) then
         [lit "outbound UDP to " ++ endpointText (fc_host (cfg_forwarding cfg))
            (fc_port (cfg_forwarding cfg)) ++ lit " (forwarding)"] else []) ∧
    (has_error p ↔ (∃ f, f ∈ configured_files cfg ∧ bad_file f) ∨
       (∃ d, d ∈ directories_of (configured_files cfg) ∧ ¬ usable_directory d) ∨
       bad_bind cfg service ∨ bad_forwarding (cfg_forwarding cfg)) ∧
    left_named p ∧ ((∀ d, pe_remove env d = None) → pr_left p = []).
Proof.
  intros Hcfg. unfold preflight. rewrite Hcfg.
  destruct (output_loop_spec (cfg_outputs cfg) [] (mkProgress [] 0 [])) as [Hd He].
  pose proof (output_loop_left (cfg_outputs cfg) ([], mkProgress [] 0 [])) as Hl.
  destruct (output_loop env (cfg_outputs cfg) ([], mkProgress [] 0 [])) as [dirs p].
  cbn [fst snd pr_left] in Hd, He, Hl. subst dirs. fold (configured_files cfg) in He |- *.
  fold (directories_of (configured_files cfg)).
  assert (Hn : left_named p) by (intros probe; rewrite Hl; by intros ?%not_elem_of_nil).
  destruct (directory_loop_left (directories_of (configured_files cfg)) p Hn) as [Hn1 Hl1].
  destruct (checkBind_left cfg service _ Hn1) as [Hn2 Hl2].
  destruct (checkForwarding_left (cfg_forwarding cfg) _ Hn2) as [Hn3 Hl3].
  eexists _, _. split; [reflexivity|]. split; [done|]. split; [done|]. split; [|split; [done|]].
  - rewrite checkForwarding_error, checkBind_error, directory_loop_error, He.
    assert (has_error (mkProgress [] 0 []) ↔ False) as ->; [|tauto].
    split; [|done]. intros Hx. by apply Exists_nil in Hx.
  - intros Hrm. rewrite Hl3, Hl2, Hl1, Hl; [done|]. auto.
Qed.

(** The verdict of --check: it always returns a report, which fails exactly when the
    configuration does not load or one of the checks found an error: a log file that
    is a directory or refuses appending, a log directory missing or not writable, a
    listen address that is not one or, unless the service is running, cannot be
    bound, or a forwarding destination that does not resolve. Every configured
    file's directory is checked. *)
Theorem preflight_verdict parsed service :
  ∃ r kept, preflight env parsed service = Ret (r, kept) ∧
    (failed r = true ↔
     match loadConfig parsed with
     | Ret cfg =>
         (∃ f, f ∈ configured_files cfg ∧ bad_file f) ∨
         (∃ d, d ∈ directories_of (configured_files cfg) ∧ ¬ usable_directory d) ∨
         bad_bind cfg service ∨ bad_forwarding (cfg_forwarding cfg)
     | _ => True
     end) ∧
    ∀ cfg f, loadConfig parsed = Ret cfg → f ∈ configured_files cfg →
      ∃ d, d ∈ directories_of (configured_files cfg) ∧ path_eq d (parent_path f) = true.
Proof.
  destruct (yields_cases _ _ (loadConfig_yields parsed)) as [(cfg & Hcfg & _)|(what & Hcfg)].
  - destruct (preflight_eval parsed service cfg Hcfg) as (r & p & Hr & Hf & _ & He & _).
    exists r, (pr_left p). split; [done|]. rewrite Hcfg. split.
    + rewrite failed_iff, Hf. exact He.
    + intros cfg' f [= <-] Hin. by apply directories_cover.
  - unfold preflight. rewrite Hcfg. eexists _, _. split; [done|]. split; [done|]. by intros cfg f [=].
Qed.

(** --check leaves the machine as it found it: every probe file it could not
    remove again is named in a warning, and there is none when removing works. *)
Theorem preflight_leaves parsed service r kept :
  preflight env parsed service = Ret (r, kept) →
  (∀ probe, probe ∈ kept → ∃ rest,
     mkFinding Warning (lit "wrote but could not delete '" ++ probe ++ rest) ∈ findings r) ∧
  ((∀ d, pe_remove env d = None) → kept = []).
Proof.
  intros Hr. destruct (yields_cases _ _ (loadConfig_yields parsed)) as [(cfg & Hcfg & _)|(what & Hcfg)].
  - destruct (preflight_eval parsed service cfg Hcfg) as (r' & p & Hr' & Hf & _ & _ & Hn & Hl).
    rewrite Hr in Hr'. injection Hr' as -> ->. split; [|done]. by rewrite Hf.
  - unfold preflight in Hr. rewrite Hcfg in Hr. injection Hr as <- <-. split; [|done].
    by intros probe ?%not_elem_of_nil.
Qed.
End verdict.

(** ** A concrete machine *)

Definition env0 (taken : bool) : PreEnv :=
  mkPreEnv (λ p, inl (bool_decide (p = lit "/var/log" ∨ p = lit "/var/log/a.log")))
    (λ p, bool_decide (p = lit "/var/log")) (λ _, true) (λ _, Some (lit "sticky")) (λ _, true)
    (lit "not an address") (λ _ _, if taken then Some (lit "in use") else None)
    (λ h p, (None, [h])) 42.

Definition check0 (taken : bool) (service : ServiceState) : M (PreflightReport * list bytes) :=
  @preflight ini ini_tree linux_strings linux_machine (env0 taken) (inr example_ini) service.

Example check0_run :
  match check0 true Running, check0 true NotApplicable with
  | Ret (r1, left1), Ret (r2, left2) =>
      failed r1 = false ∧ failed r2 = true ∧ left1 = [lit "/var/log/.minilog-check-42-0"] ∧
      requirements r1 = [lit "inbound UDP datagrams on 127.0.0.1:5514";
                         lit "write access to directory /var/log";
                         lit "outbound UDP to 10.0.0.5:514 (forwarding)"] ∧
      (printPreflight r1 (lit "c")).2 = 0 ∧ (printPreflight r2 (lit "c")).2 = 1
  | _, _ => False
  end.
Proof. vm_compute. auto 10. Qed.

Lemma preflight_leaves_witness :
  match check0 false NotRunning with
  | Ret (r, kept) => kept ≠ [] ∧
      ∀ probe, probe ∈ kept → ∃ rest,
        mkFinding Warning (lit "wrote but could not delete '" ++ probe ++ rest) ∈ findings r
  | _ => False
  end.
Proof.
  destruct (check0 false NotRunning) as [[r kept]| |] eqn:E; [|vm_compute in E; discriminate..].
  split; [vm_compute in E; injection E as <- <-; discriminate|].
  exact (proj1 (@preflight_leaves ini ini_tree linux_strings linux_machine (env0 false)
                  (inr example_ini) NotRunning r kept E)).
Defined.
