(* ===== verification/WaitUntil.v ===== *)
(** * Polling with a deadline (src/src/server/platform/wait_until.hpp)

    [waitUntil] as a loop over what it meets: the answer of each call of [isDone]
    (made at a time, and possibly throwing), how long the call took, and how late
    each sleep ended. *)

From S2P Require Import Prelude.

Section wait.
Context (isDone : nat → Z → M bool).       (* the i-th call, made at a time *)
Context (cost late : nat → Z).             (* of the i-th call, of the i-th sleep *)

Fixpoint wait_loop (fuel : nat) (deadline pollInterval now : Z) (i : nat) : M bool :=
  match fuel with
  | O => UB
  | S f =>
      done ← isDone i now;
      if (done : bool) then mret true else
      let now := now + cost i in
      if deadline <=? now then mret false else
      wait_loop f deadline pollInterval (now + Z.min pollInterval (deadline - now) + late i) (S i)
  end.

Definition waitUntil (fuel : nat) (timeout pollInterval now : Z) : M bool :=
  wait_loop fuel (now + timeout) pollInterval now 0.

(** ** When the calls are made *)

(** The time of the [i]th call, if every one before it answers no in time. *)
Fixpoint call_time (deadline pollInterval now : Z) (i : nat) : Z :=
  match i with
  | O => now
  | S j =>
      let t := call_time deadline pollInterval now j + cost j in
      t + Z.min pollInterval (deadline - t) + late j
  end.

(** The rounds that are enough: one call, one for each full interval, one after
    the last, shorter sleep. *)
Definition rounds (timeout pollInterval : Z) : nat := Z.to_nat (timeout / pollInterval) + 2.

(** The [i]th call is not the last. *)
Definition goes_on (deadline pollInterval now : Z) (i : nat) : Prop :=
  isDone i (call_time deadline pollInterval now i) = Ret false ∧
  call_time deadline pollInterval now i + cost i < deadline.

Hypothesis cost_nonneg : ∀ i, 0 <= cost i.
Hypothesis late_nonneg : ∀ i, 0 <= late i.
Hypothesis answers : ∀ i t, isDone i t ≠ UB.

Lemma call_time_progress deadline p now i :
  0 < p → (∀ k, (k < i)%nat → call_time deadline p now k + cost k < deadline) →
  now + Z.of_nat i * p <= call_time deadline p now i ∨ deadline <= call_time deadline p now i.
Proof.
  intros Hp. induction i as [|i IH]; intros Hk; [left; cbn; lia|].
  assert (Hi : call_time deadline p now i + cost i < deadline) by (apply Hk; lia).
  pose proof (cost_nonneg i). pose proof (late_nonneg i). cbn [call_time].
  destruct IH as [IH|IH]; [intros; apply Hk; lia| |lia].
  destruct (Z.le_ge_cases p (deadline - (call_time deadline p now i + cost i))); [left|right]; lia.
Qed.

Lemma wait_loop_spec deadline p now n :
  0 < p →
  ∀ fuel i, (i + fuel = n)%nat → deadline <= now + (Z.of_nat n - 1) * p →
  (2 <= n)%nat →
  (∀ k, (k < i)%nat → goes_on deadline p now k) → (i < n)%nat →
  ∃ m, (m < n)%nat ∧ (∀ k, (k < m)%nat → goes_on deadline p now k) ∧ ¬ goes_on deadline p now m ∧
       wait_loop fuel deadline p (call_time deadline p now i) i =
       isDone m (call_time deadline p now m).
Proof.
  intros Hp. induction fuel as [|f IH]; intros i Hn Hend H2 Hk Hi; [lia|]. cbn [wait_loop].
  destruct (isDone i (call_time deadline p now i)) as [[|]|e|] eqn:E; cbn [mbind M_bind].
  - exists i. split_and!; [lia|done|intros [Hr _]; congruence|by rewrite E].
  - destruct (Z.leb_spec deadline (call_time deadline p now i + cost i)) as [Hd|Hd].
    + exists i. split_and!; [lia|done|intros [_ ?]; lia|by rewrite E].
    + assert (Hgo : goes_on deadline p now i) by done.
      assert (Hk' : ∀ k, (k < S i)%nat → goes_on deadline p now k).
      { intros k Hlt. destruct (decide (k = i)) as [->|]; [done|]. apply Hk. lia. }
      destruct (decide (S i = n)) as [Hlast|Hmore].
      * exfalso. destruct (call_time_progress deadline p now i Hp) as [Ht|Ht].
        -- intros k Hlt. apply Hk. lia.
        -- pose proof (cost_nonneg i). nia.
        -- pose proof (cost_nonneg i). lia.
      * apply (IH (S i)); try done; lia.
  - exists i. split_and!; [lia|done|intros [Hr _]; congruence|by rewrite E].
  - by destruct (answers i (call_time deadline p now i)).
Qed.

(** Whatever the timeout, also one that has passed, the answer is that of a call. *)
Lemma waitUntil_answer timeout pollInterval now :
  0 < pollInterval →
  ∃ i t, waitUntil (rounds timeout pollInterval) timeout pollInterval now = isDone i t ∧ now <= t.
Proof.
  intros Hp. destruct (Z.leb_spec 0 timeout) as [Ht|Ht].
  - assert (0 <= timeout / pollInterval) by (apply Z.div_pos; lia).
    destruct (wait_loop_spec (now + timeout) pollInterval now (rounds timeout pollInterval) Hp
                (rounds timeout pollInterval) 0) as (m & Hm & Hgo & _ & He); [lia| |unfold rounds; lia|intros; lia|unfold rounds; lia|].
    + unfold rounds. rewrite Nat2Z.inj_add, Z2Nat.id by lia.
      pose proof (Z.mul_succ_div_gt timeout pollInterval). nia.
    + exists m, (call_time (now + timeout) pollInterval now m). split; [exact He|].
      destruct (call_time_progress (now + timeout) pollInterval now m Hp) as [|]; [intros k Hk; by apply Hgo|nia|].
      lia.
  - exists 0%nat, now. split; [|lia]. unfold waitUntil, rounds.
    replace (Z.to_nat (timeout / pollInterval)) with O by (pose proof (Z.div_lt_upper_bound timeout pollInterval 0); lia).
    cbn [wait_loop Nat.add]. destruct (isDone 0 now) as [[|]|e|]; cbn [mbind M_bind]; try done.
    pose proof (cost_nonneg 0). by rewrite (proj2 (Z.leb_le _ _)) by lia.
Qed.

(** waitUntil returns, after at most [timeout / pollInterval + 2] calls of
    isDone: isDone is always called at least once, the answer is that of its last
    call (an exception included), the calls before it all said no in time, and
    the last is made no later than the deadline, but for the sleep's own
    lateness. *)
Theorem waitUntil_decides timeout pollInterval now :
  0 <= timeout → 0 < pollInterval →
  let deadline := now + timeout in
  ∃ m, (m < rounds timeout pollInterval)%nat ∧
    waitUntil (rounds timeout pollInterval) timeout pollInterval now =
      isDone m (call_time deadline pollInterval now m) ∧
    (∀ k, (k < m)%nat → goes_on deadline pollInterval now k) ∧
    ¬ goes_on deadline pollInterval now m ∧
    call_time deadline pollInterval now m <= deadline + match m with O => 0 | S k => late k end.
Proof.
  intros Ht Hp deadline. assert (Hr : (2 <= rounds timeout pollInterval)%nat) by (unfold rounds; lia).
  assert (0 <= timeout / pollInterval) by (apply Z.div_pos; lia).
  destruct (wait_loop_spec deadline pollInterval now (rounds timeout pollInterval) Hp
              (rounds timeout pollInterval) 0) as (m & Hm & Hgo & Hstop & He);
    [lia| |lia|intros; lia|lia|].
  { unfold rounds, deadline. rewrite Nat2Z.inj_add, Z2Nat.id by lia.
    pose proof (Z.mul_succ_div_gt timeout pollInterval). nia. }
  exists m. split_and!; try done. destruct m as [|m]; [cbn; lia|].
  destruct (Hgo m) as [_ Hlt]; [lia|]. cbn [call_time]. lia.
Qed.
End wait.

(** A condition that comes true at the fourth call. *)
Definition isDone0 (i : nat) (t : Z) : M bool := mret (i =? 3)%nat.

Example wait_yes : waitUntil isDone0 (λ _, 1) (λ _, 0) 20 1000 200 0 = Ret true.
Proof. reflexivity. Qed.
Example wait_no : waitUntil isDone0 (λ _, 1) (λ _, 0) 20 400 200 0 = Ret false.
Proof. reflexivity. Qed.

Lemma waitUntil_decides_witness :
  ∃ m, (m < rounds 500 200)%nat ∧
    waitUntil isDone0 (λ _, 1) (λ _, 3) (rounds 500 200) 500 200 7 =
      isDone0 m (call_time (λ _, 1) (λ _, 3) (7 + 500) 200 7 m) ∧
    (∀ k, (k < m)%nat → goes_on isDone0 (λ _, 1) (λ _, 3) (7 + 500) 200 7 k) ∧
    ¬ goes_on isDone0 (λ _, 1) (λ _, 3) (7 + 500) 200 7 m ∧
    call_time (λ _, 1) (λ _, 3) (7 + 500) 200 7 m <= 7 + 500 + match m with O => 0 | S k => 3 end.
Proof.
  apply (waitUntil_decides isDone0 (λ _, 1) (λ _, 3)); [intros; lia|intros; lia|intros; discriminate|lia|lia].
Defined.
