(* ===== verification/Service.v ===== *)
(** * Running as a service (src/src/server/platform/service_win.cpp, service_linux.cpp)

    What the service reports to the service manager while it runs: the process's
    globals, the control handler, which the manager calls on a thread of its own,
    and [serviceMsgMain] around the server. The two interleave; the manager
    delivers a stop only while the last status it was given accepts one, which is
    its documented behaviour. [setupShutdown] waits for the stop on both systems;
    elsewhere than on Windows there is no service manager to report to. *)

From S2P Require Import Prelude.

(** [dwCurrentState] *)
Inductive SvcState := SERVICE_STOPPED | SERVICE_START_PENDING | SERVICE_STOP_PENDING | SERVICE_RUNNING | SERVICE_OTHER.
#[export] Instance SvcState_eq_dec : EqDecision SvcState.
Proof. solve_decision. Defined.

Definition NO_ERROR : Z := 0.
Definition ERROR_OUTOFMEMORY : Z := 14.
Definition ERROR_SERVICE_SPECIFIC_ERROR : Z := 1066.
Definition SERVICE_CONTROL_STOP : Z := 1.
Definition u32 (z : Z) : Z := z mod 2 ^ 32.

Definition STARTUP_WAIT_HINT_MS : Z := 10000.
Definition STOP_WAIT_HINT_MS : Z := 30000.

(** [SERVICE_STATUS] *)
Record Status := mkStatus {
  dwCurrentState : SvcState;
  acceptsStop : bool;
  dwWin32ExitCode : Z;
  dwServiceSpecificExitCode : Z;
  dwCheckPoint : Z;
  dwWaitHint : Z
}.

(** The globals, and what [SetServiceStatus] and the stop's thread were given. *)
Record Globals := mkGlobals {
  g_statusHandle : bool;
  g_stopEvent : option bool;           (* created, and whether it is set *)
  g_serviceExitCode : Z;
  g_checkPoint : Z;
  g_reported : list Status             (* the latest first *)
}.
Definition initial_Globals : Globals := mkGlobals false None EXIT_FAILURE 1 [].

Definition is_pending (s : SvcState) : bool :=
  negb (bool_decide (s = SERVICE_RUNNING) || bool_decide (s = SERVICE_STOPPED)).

Definition reportStatus (state : SvcState) (exitCode waitHint specificExitCode : Z) (g : Globals) : Globals :=
  let status := mkStatus state (bool_decide (state = SERVICE_RUNNING)) exitCode specificExitCode
                  (if is_pending state then g_checkPoint g else 0) waitHint in
  mkGlobals (g_statusHandle g) (g_stopEvent g) (g_serviceExitCode g)
    (if is_pending state then u32 (g_checkPoint g + 1) else g_checkPoint g) (status :: g_reported g).

Definition set_event (e : option bool) (g : Globals) : Globals :=
  mkGlobals (g_statusHandle g) e (g_serviceExitCode g) (g_checkPoint g) (g_reported g).
Definition set_handle (b : bool) (g : Globals) : Globals :=
  mkGlobals b (g_stopEvent g) (g_serviceExitCode g) (g_checkPoint g) (g_reported g).
Definition set_exitCode (c : Z) (g : Globals) : Globals :=
  mkGlobals (g_statusHandle g) (g_stopEvent g) c (g_checkPoint g) (g_reported g).

Definition serviceCtrlHandler (ctrl : Z) (g : Globals) : Globals :=
  if ctrl =? SERVICE_CONTROL_STOP then
    let g := reportStatus SERVICE_STOP_PENDING NO_ERROR STOP_WAIT_HINT_MS 0 g in
    set_event ((λ _, true) <$> g_stopEvent g) g
  else g.

Definition reportServiceStarted (g : Globals) : Globals :=
  if g_statusHandle g then reportStatus SERVICE_RUNNING NO_ERROR 0 0 g else g.

(** ** Waiting for a stop *)

Definition SIGINT : Z := 2.
Definition SIGTERM : Z := 15.
Definition SIGBREAK : Z := 21.

(** The helper thread's wait for the event, or the pending [async_wait]. *)
Inductive StopSource := WaitForEvent | WaitForSignals (signals : list Z).
(** The pending wait, and how often [onStop] has been called or posted. *)
Record Watch := mkWatch { wt_pending : option StopSource; wt_stops : nat }.

Definition setupShutdown (g : Globals) : Watch :=
  match g_stopEvent g with
  | Some _ => mkWatch (Some WaitForEvent) 0
  | None => mkWatch (Some (WaitForSignals [SIGINT; SIGTERM; SIGBREAK])) 0
  end.
Definition setupShutdown_linux : Watch := mkWatch (Some (WaitForSignals [SIGTERM; SIGINT])) 0.

Inductive WatchEvent :=
| Signalled (signum : Z)
| EventSet
| WaitFailed.               (* the handler of [async_wait] is given an error *)

(** Whether an event ends the wait, and with a call of [onStop]. Nothing waits again. *)
Definition wait_ends (src : StopSource) (e : WatchEvent) : option bool :=
  match src, e with
  | WaitForSignals signals, Signalled signum => if decide (signum ∈ signals) then Some true else None
  | WaitForSignals _, WaitFailed => Some false
  | WaitForEvent, EventSet => Some true
  | _, _ => None
  end.
Definition watch_step (w : Watch) (e : WatchEvent) : Watch :=
  match wt_pending w with
  | Some src =>
      match wait_ends src e with
      | Some stop => mkWatch None (if stop : bool then S (wt_stops w) else wt_stops w)
      | None => w
      end
  | None => w
  end.

(** [onStop] is called once at most: when the first event that ends the wait is a
    request, and never when that is an error or there is none. *)
Theorem stop_called_once src es :
  foldl watch_step (mkWatch (Some src) 0) es =
  match head (omap (wait_ends src) es) with
  | Some stop => mkWatch None (if stop : bool then 1 else 0)%nat
  | None => mkWatch (Some src) 0
  end.
Proof.
  assert (Hnone : ∀ l n, foldl watch_step (mkWatch None n) l = mkWatch None n) by (by intros l n; induction l).
  induction es as [|e es IH]; [done|]. cbn [foldl omap list_omap]. unfold watch_step at 2. cbn [wt_pending wt_stops].
  destruct (wait_ends src e) as [stop|]; [apply Hnone|exact IH].
Qed.

(** service_linux.cpp: there is nothing to report to, and nothing runs as a service. *)
Definition reportServiceStarted_linux (g : Globals) : Globals := g.
Definition tryRunAsService_linux {A} (serviceMain : A) : option Z := None.

(** ** While [g_serviceMain] runs *)

Inductive ServiceEvent :=
| Started                   (* runServer reports that the start succeeded *)
| Control (ctrl : Z).       (* the manager calls the control handler *)

(** The last status accepts a stop. *)
Definition accepting (g : Globals) : bool :=
  match g_reported g with s :: _ => acceptsStop s | [] => false end.
Definition deliverable (g : Globals) (e : ServiceEvent) : bool :=
  match e with Control ctrl => negb (ctrl =? SERVICE_CONTROL_STOP) || accepting g | Started => true end.
Definition service_event (g : Globals) (e : ServiceEvent) : Globals :=
  if negb (deliverable g e) then g else
  match e with Started => reportServiceStarted g | Control ctrl => serviceCtrlHandler ctrl g end.

(** The server runs between the two reports; what happens meanwhile is a list of
    events, which ends when the event is closed; its exit status comes last. The
    controls in [late] arrive after that, before the last report. *)
Definition serviceMsgMain (registered created : bool) (meanwhile : list ServiceEvent) (status : Z) (late : list Z)
    (g : Globals) : Globals :=
  if negb registered then set_handle false g else
  let g := set_handle true g in
  if negb created then reportStatus SERVICE_STOPPED ERROR_OUTOFMEMORY 0 0 (set_event None g) else
  let g := set_event (Some false) g in
  let g := reportStatus SERVICE_START_PENDING NO_ERROR STARTUP_WAIT_HINT_MS 0 g in
  let g := foldl service_event g meanwhile in
  let g := set_event None (set_exitCode status g) in
  let g := foldl service_event g (Control <$> late) in
  if g_serviceExitCode g =? EXIT_SUCCESS then reportStatus SERVICE_STOPPED NO_ERROR 0 0 g
  else reportStatus SERVICE_STOPPED ERROR_SERVICE_SPECIFIC_ERROR 0 (u32 (g_serviceExitCode g)) g.

(** [tryRunAsService]: what the dispatcher gives, when it ran the service. *)
Definition ERROR_FAILED_SERVICE_CONTROLLER_CONNECT : Z := 1063.
Definition tryRunAsService (dispatched : option Z) (ran : Globals) : M (option Z) :=
  match dispatched with
  | Some err =>
      if err =? ERROR_FAILED_SERVICE_CONTROLLER_CONNECT then mret None
      else Throw (RuntimeError (lit "StartServiceCtrlDispatcher failed: " ++ to_string err))
  | None => mret (Some (g_serviceExitCode ran))
  end.

(** ** What the manager is told *)

(** How many times the server reports its start. *)
Fixpoint start_reports (es : list ServiceEvent) : nat :=
  match es with [] => 0 | Started :: es' => S (start_reports es') | Control _ :: es' => start_reports es' end.
(** A stop reaches the service: one comes while it is running. *)
Fixpoint stop_reaches (running : bool) (es : list ServiceEvent) : bool :=
  match es with
  | [] => false
  | Started :: es' => stop_reaches true es'
  | Control ctrl :: es' => (running && (ctrl =? SERVICE_CONTROL_STOP)) || stop_reaches running es'
  end.

Definition status_starting : Status := mkStatus SERVICE_START_PENDING false NO_ERROR 0 1 STARTUP_WAIT_HINT_MS.
Definition status_running : Status := mkStatus SERVICE_RUNNING true NO_ERROR 0 0 0.
Definition status_stopping : Status := mkStatus SERVICE_STOP_PENDING false NO_ERROR 0 2 STOP_WAIT_HINT_MS.
(** Minilog's own exit status, as the manager is told it. *)
Definition status_stopped (status : Z) : Status :=
  if status =? EXIT_SUCCESS then mkStatus SERVICE_STOPPED false NO_ERROR 0 0 0
  else mkStatus SERVICE_STOPPED false ERROR_SERVICE_SPECIFIC_ERROR (u32 status) 0 0.

(** The reports so far, the latest first. *)
Definition reports (running stopping : bool) : list Status :=
  (if stopping then [status_stopping] else []) ++ (if running then [status_running] else []) ++ [status_starting].
Record Reported (running stopping created : bool) (g : Globals) : Prop := {
  re_reported : g_reported g = reports running stopping;
  re_checkPoint : g_checkPoint g = if stopping then 3 else 2;
  re_event : g_stopEvent g = if created then Some stopping else None;
  re_handle : g_statusHandle g = true;
  re_order : stopping = true → running = true
}.

Lemma service_event_reported running stopping created g es :
  Reported running stopping created g → ((if running then 1 else 0) + start_reports es <= 1)%nat →
  Reported (running || (start_reports es =? 1)%nat) (stopping || stop_reaches running es) created
           (foldl service_event g es).
Proof.
  revert running stopping g. induction es as [|e es IH]; intros running stopping g Hg Hs; cbn [foldl].
  { cbn. by rewrite !orb_false_r. }
  pose proof Hg as [Hr Hc He Hh Ho]. destruct e as [|ctrl]; cbn [start_reports stop_reaches] in *.
  - destruct running; [lia|]. destruct stopping; [by specialize (Ho eq_refl)|].
    specialize (IH true false (service_event g Started)).
    assert (start_reports es = O) as Hz by lia. rewrite Hz in *. apply IH; [|lia].
    unfold service_event, reportServiceStarted. cbn. rewrite Hh. by constructor; cbn; rewrite ?Hr, ?Hc.
  - unfold service_event at 2. cbn [deliverable]. unfold accepting. rewrite Hr.
    assert (Hacc : match reports running stopping with s :: _ => acceptsStop s | [] => false end =
                   running && negb stopping) by (by destruct running, stopping).
    rewrite Hacc. unfold serviceCtrlHandler. destruct (Z.eqb_spec ctrl SERVICE_CONTROL_STOP) as [->|Hne]; cbn [negb orb].
    + destruct running; [|by destruct stopping; [specialize (Ho eq_refl)|apply (IH false false)]].
      destruct stopping; [by apply (IH true true)|].
      apply (IH true true); [|done]. by constructor; cbn; rewrite ?Hr, ?Hc, ?He; destruct created.
    + rewrite andb_false_r. by apply (IH running stopping).
Qed.

Lemma start_reports_controls (l : list Z) : start_reports (Control <$> l) = O.
Proof. by induction l. Qed.
Lemma stop_reaches_app (running : bool) es es' :
  ((if running then 1 else 0) + start_reports es <= 1)%nat →
  stop_reaches running (es ++ es') = stop_reaches running es || stop_reaches (running || (start_reports es =? 1)%nat) es'.
Proof.
  revert running. induction es as [|[|ctrl] es IH]; intros running Hs; cbn in *.
  - by rewrite orb_false_r.
  - destruct running; [lia|]. rewrite IH by lia. by assert (start_reports es = O) as -> by lia.
  - by rewrite IH, orb_assoc by done.
Qed.
Lemma exit_code_kept es g : g_serviceExitCode (foldl service_event g es) = g_serviceExitCode g.
Proof.
  revert g. induction es as [|e es IH]; intros g; [done|]. cbn [foldl]. rewrite IH. unfold service_event.
  destruct (deliverable g e); [|done]. destruct e as [|ctrl]; cbn.
  - unfold reportServiceStarted. by destruct (g_statusHandle g).
  - unfold serviceCtrlHandler. by destruct (ctrl =? SERVICE_CONTROL_STOP).
Qed.

(** C28. What the service manager is told of one run is exact: the reports are, in
    this order and nothing else, that it is starting (with the startup hint),
    that it runs if and only if the server reported its start, that it is
    stopping (with the stop hint, and a later check point) if and only if a stop
    came while it was running or between the end of the server and the last
    report, and that it stopped, as a success when the exit status is 0 and
    otherwise as a failure that carries it. While the server runs the stop event is
    set exactly when a stop came, and no stop is accepted before or after running. *)
Theorem service_reports es status late :
  (start_reports es <= 1)%nat →
  let g := serviceMsgMain true true es status late initial_Globals in
  reverse (g_reported g) =
    [status_starting] ++ (if (start_reports es =? 1)%nat then [status_running] else []) ++
    (if stop_reaches false (es ++ (Control <$> late)) then [status_stopping] else []) ++ [status_stopped status] ∧
  g_serviceExitCode g = status ∧ g_stopEvent g = None ∧ accepting g = false ∧
  g_stopEvent (foldl service_event (reportStatus SERVICE_START_PENDING NO_ERROR STARTUP_WAIT_HINT_MS 0
                 (set_event (Some false) (set_handle true initial_Globals))) es) = Some (stop_reaches false es).
Proof.
  intros Hs. cbv zeta. unfold serviceMsgMain. cbn [negb].
  set (g0 := reportStatus _ _ _ _ (set_event (Some false) _)).
  destruct (service_event_reported false false true g0 es) as [Hr Hc He Hh Ho]; [by constructor|done|].
  rewrite stop_reaches_app by done. cbn [orb] in *. set (running := (start_reports es =? 1)%nat) in *.
  set (stopping := stop_reaches false es) in *.
  set (g1 := set_event None (set_exitCode status (foldl service_event g0 es))).
  assert (Hlate : Reported running (stopping || stop_reaches running (Control <$> late)) false
            (foldl service_event g1 (Control <$> late))).
  { pose proof (service_event_reported running stopping false g1 (Control <$> late)) as Hl.
    rewrite start_reports_controls, orb_false_r in Hl. apply Hl; [by constructor|destruct running; lia]. }
  destruct Hlate as [Hr' _ He' _ _]. rewrite exit_code_kept. cbn [g_serviceExitCode g1 set_event set_exitCode].
  set (stopping' := stopping || stop_reaches running (Control <$> late)) in *. set (g2 := foldl service_event g1 _) in *.
  assert (Hexit : g_serviceExitCode g2 = status) by apply exit_code_kept.
  unfold status_stopped. destruct (Z.eqb_spec status EXIT_SUCCESS) as [->|Hne]; cbn; rewrite Hr', Hexit;
    (split; [by destruct running, stopping'|done]).
Qed.

(** A service that is stopped while it starts, while it runs, and again. *)
Definition service_day : list ServiceEvent :=
  [Control SERVICE_CONTROL_STOP; Started; Control 4; Control SERVICE_CONTROL_STOP; Control SERVICE_CONTROL_STOP].

Lemma service_reports_witness :
  let g := serviceMsgMain true true service_day 1 [SERVICE_CONTROL_STOP] initial_Globals in
  reverse (g_reported g) = [status_starting] ++ [status_running] ++ [status_stopping] ++ [status_stopped 1] ∧
  g_serviceExitCode g = 1 ∧ g_stopEvent g = None ∧ accepting g = false ∧
  g_stopEvent (foldl service_event (reportStatus SERVICE_START_PENDING NO_ERROR STARTUP_WAIT_HINT_MS 0
                 (set_event (Some false) (set_handle true initial_Globals))) service_day) = Some true.
Proof. apply (service_reports service_day 1 [SERVICE_CONTROL_STOP]). vm_compute. lia. Defined.

(** A stop that comes when the server has already ended. *)
Example late_stop :
  reverse (g_reported (serviceMsgMain true true [Started] 0 [4; SERVICE_CONTROL_STOP; SERVICE_CONTROL_STOP] initial_Globals)) =
  [status_starting; status_running; status_stopping; status_stopped 0].
Proof. reflexivity. Qed.
(** Without a handler or an event the server is never run. *)
Example not_run :
  g_reported (serviceMsgMain false true service_day 0 [] initial_Globals) = [] ∧
  g_reported (serviceMsgMain true false service_day 0 [] initial_Globals) =
    [mkStatus SERVICE_STOPPED false ERROR_OUTOFMEMORY 0 0 0].
Proof. done. Qed.
