(* ===== verification/Server.v ===== *)
(** * One run of the server (src/src/server/main.cpp, run_loop.hpp)

    [runServer] from the configuration to the exit status: the order in which the
    components are built, what each failure does, and what the workers report.
    What happens while [io_context::run] runs is the subject of the components'
    own files; here a call of it returns or throws. *)

From S2P Require Import Prelude Service Names Parser Platform Config ConfigSpec Admission Backoff FileSystem LogFile LogFileSpec Lifecycle Sinks OutputManager Alarm Forwarder UdpServer.

(** ** The loop of a worker *)

(** What the successive calls of [ioc.run()] throw before the one that returns:
    an exception with its text, or something else. *)
Abbreviation thrown := (list (option bytes)).

Fixpoint run_loop (ts : thrown) (caught : bool) (log : list LogLine) : bool * list LogLine :=
  match ts with
  | [] => (negb caught, log)
  | Some what :: ts' =>
      run_loop ts' true
        ((LError, lit "minilog: unhandled exception in io_context handler: " ++ what) :: log)
  | None :: ts' =>
      run_loop ts' true
        ((LError, lit "minilog: unhandled non-standard exception in io_context handler") :: log)
  end.
Definition runIoContext (ts : thrown) : bool * list LogLine := run_loop ts false [].

(** ** The whole run *)

Record ServerEnv (T : Type) := mkServerEnv {
  ev_config : bytes + T;                   (* what read_ini gives *)
  ev_os : Os;
  ev_forwarder_throws : option bytes;      (* the constructor of Forwarder *)
  ev_forwarder_open : option bytes;        (* opening its socket *)
  ev_address_error : bytes;
  ev_bind : option bytes;
  ev_thread_fails : option (nat * bytes);  (* after so many threads *)
  ev_thrown : nat → thrown;                (* by worker; the last one is main *)
  ev_service : option Globals              (* on Windows, of the service layer *)
}.
Arguments ev_config {T}. Arguments ev_os {T}. Arguments ev_forwarder_throws {T}.
Arguments ev_forwarder_open {T}. Arguments ev_address_error {T}. Arguments ev_bind {T}.
Arguments ev_thread_fails {T}. Arguments ev_thrown {T}. Arguments ev_service {T}.

(** The components as they are when the workers start. *)
Record Started := mkStarted {
  sd_server : UdpServer;
  sd_outputs : Manager;
  sd_forwarder : option Forwarder;
  sd_threads : nat;                        (* besides main *)
  sd_watch : Watch                         (* the wait for a stop *)
}.

Record ServerRun := mkServerRun {
  rn_status : Z;
  rn_started : option Started;             (* reportServiceStarted was reached *)
  rn_closed : option Manager;              (* after outputMgr.close() of a failed start: posted, never run *)
  rn_log : list LogLine                    (* by the start and the workers' loops, the latest first *)
}.

Section server.
Context `{PropertyTree T} `{BoostStrings} `{Machine} `{LogEnv}.

(** A failed start, with what it logged. *)
Definition failed_start (closed : option Manager) (log : list LogLine) : ServerRun :=
  mkServerRun EXIT_FAILURE None closed log.

(** The threads that [emplace_back] starts, and the line when it throws. *)
Definition start_threads (workers : Z) (fails : option (nat * bytes)) : nat * list LogLine :=
  let wanted := Z.to_nat (workers - 1) in
  match fails with
  | Some (n, what) =>
      if (n <? wanted)%nat then
        (n, [(LError, lit "minilog: could not start all " ++ to_string workers ++ lit " workers (" ++ what ++
                      lit "); continuing with " ++ to_string (Z.of_nat n + 1))])
      else (wanted, [])
  | None => (wanted, [])
  end.

(** [setupShutdown], of service_win.cpp or service_linux.cpp. *)
Definition setup_shutdown (service : option Globals) : Watch :=
  match service with Some g => setupShutdown g | None => setupShutdown_linux end.

(** Every worker's [runIoContext], main's included; their lines, worker by worker. *)
Definition run_workers (n : nat) (ts : nat → thrown) : bool * list LogLine :=
  let runs := (λ i, runIoContext (ts i)) <$> seq 0 (S n) in
  (forallb fst runs, mjoin (snd <$> runs)).

Definition make_forwarder (cfg : ForwardingConfig) (env : ServerEnv T) : M (option Forwarder) :=
  if fc_enabled cfg then
    match ev_forwarder_throws env with
    | Some what => Throw (RuntimeError what)
    | None => mret (Some (new_Forwarder cfg (ev_forwarder_open env)))
    end
  else mret None.

Definition runServer (env : ServerEnv T) : M ServerRun :=
  match loadConfig (ev_config env) with
  | UB => UB
  | Throw e =>
      mret (failed_start None [(LError, lit "minilog: failed to load config: " ++ exn_what e)])
  | Ret cfg =>
      '(opened, outputMgr) ← open_all (new_OutputManager cfg (ev_os env));
      let log := snd <$> os_log (m_os outputMgr) in
      if negb opened then mret (failed_start None log) else
      match make_forwarder (cfg_forwarding cfg) env with
      | UB => UB
      | Throw e =>
          mret (failed_start (Some (close_all outputMgr))
                  ((LError, lit "minilog: failed to set up forwarding: " ++ exn_what e) :: log))
      | Ret forwarder =>
          let log := from_option f_log [] forwarder ++ log in
          let watch := setup_shutdown (ev_service env) in
          match start (ev_address_error env) (ev_bind env) (new_UdpServer cfg) with
          | UB => UB
          | Throw e => mret (failed_start (Some (close_all outputMgr)) ((LError, exn_what e) :: log))
          | Ret server =>
              let '(n, line) := start_threads (cfg_workers cfg) (ev_thread_fails env) in
              let '(clean, lines) := run_workers n (ev_thrown env) in
              mret (mkServerRun (if clean then EXIT_SUCCESS else EXIT_FAILURE)
                      (Some (mkStarted server outputMgr forwarder n watch)) None (lines ++ line ++ log))
          end
      end
  end.

(** ** Promises *)

Lemma run_loop_clean ts caught log : (run_loop ts caught log).1 = true ↔ caught = false ∧ ts = [].
Proof.
  revert caught log. induction ts as [|[w|] ts IH]; intros caught log; cbn [run_loop].
  - destruct caught; cbn; clear; naive_solver.
  - rewrite IH. clear. naive_solver.
  - rewrite IH. clear. naive_solver.
Qed.

Lemma run_workers_clean n ts :
  (run_workers n ts).1 = true ↔ ∀ i, (i <= n)%nat → ts i = [].
Proof.
  unfold run_workers. cbn [fst]. rewrite forallb_forall. split.
  - intros Hall i Hi. apply (run_loop_clean (ts i) false []). apply Hall.
    apply list_elem_of_In, list_elem_of_fmap. exists i. split; [done|]. apply elem_of_seq. lia.
  - intros Hall p Hp. apply list_elem_of_In, list_elem_of_fmap in Hp as (i & -> & Hi%elem_of_seq).
    apply run_loop_clean. split; [done|]. apply Hall. lia.
Qed.

(** A worker that caught an exception logged it. *)
Lemma run_loop_says ts caught log :
  errors_since id ((run_loop ts caught log).1 = false ∧ caught = false) log (run_loop ts caught log).2.
Proof.
  revert caught log. induction ts as [|o ts IH]; intros caught log; cbn [run_loop].
  { apply errors_since_refl. destruct caught; cbn; intros [? ?]; congruence. }
  assert (Hnext : ∀ what, errors_since id True log ((LError, what) :: log))
    by (intros what; exists [(LError, what)]; split_and!; [done|by constructor|done]).
  destruct o as [what|]; (eapply errors_since_trans; [|apply Hnext|apply IH]); by left.
Qed.
Lemma run_workers_says n ts log : errors_since id ((run_workers n ts).1 = false) log ((run_workers n ts).2 ++ log).
Proof.
  unfold run_workers. cbn [fst snd]. induction (seq 0 (S n)) as [|i l IH]; cbn [fmap list_fmap mjoin list_join forallb].
  { by apply errors_since_refl. }
  pose proof (run_loop_says (ts i) false []) as (k & Hk & He & Hs). unfold runIoContext. rewrite Hk, app_nil_r, <- app_assoc.
  eapply (errors_since_trans _ _ ((run_loop (ts i) false []).1 = false)); [|exact IH|by exists k; split_and!; auto].
  intros Hf. apply andb_false_iff in Hf as [|]; [by right|by left].
Qed.

Lemma last_line (clean : bool) (lines log : list LogLine) :
  (∀ log, errors_since id (clean = false) log (lines ++ log)) →
  (if clean then EXIT_SUCCESS else EXIT_FAILURE) = EXIT_FAILURE → ∃ what rest, lines ++ log = (LError, what) :: rest.
Proof.
  intros Hl Hs. destruct clean; [done|]. destruct (errors_since_last _ _ _ _ (Hl log) eq_refl) as (what & rest & E).
  rewrite list_fmap_id in E. by eexists _, _.
Qed.

Lemma loaded_outputs tree cfg : LoadedFrom tree cfg → Forall valid_output (cfg_outputs cfg).
Proof.
  intros [_ _ _ _ _ _ _ _ _ _ [_ Ho] _ _ _ _]. apply Forall_lookup. intros i o Hi.
  destruct (Forall2_lookup_r _ _ _ _ _ Ho Hi) as (nt & _ & []). split; [done|lia].
Qed.

Lemma start_threads_bound workers fails :
  1 <= workers → Z.of_nat (start_threads workers fails).1 + 1 <= workers.
Proof.
  intros Hw. unfold start_threads. destruct fails as [[n what]|]; cbn; [|lia].
  destruct (Nat.ltb_spec n (Z.to_nat (workers - 1))); cbn; lia.
Qed.

(** Every step of the start succeeds. *)
Definition can_start (env : ServerEnv T) (cfg : Config) (m : Manager) : Prop :=
  loadConfig (ev_config env) = Ret cfg ∧ open_all (new_OutputManager cfg (ev_os env)) = Ret (true, m) ∧
  (fc_enabled (cfg_forwarding cfg) = true → ev_forwarder_throws env = None) ∧ ev_bind env = None.

(** What is running once the service is reported started. *)
Definition running (env : ServerEnv T) (sd : Started) : Prop :=
  ∃ tree cfg, ev_config env = inr tree ∧ LoadedFrom tree cfg ∧
    length (m_sinks (sd_outputs sd)) = length (cfg_outputs cfg) ∧
    Forall (λ s, in_service (m_os (sd_outputs sd)) (ms_file s) ∧
                 Inv (mkWorld (m_os (sd_outputs sd)) (ms_file s)) ∧ ms_queue s = [])
           (m_sinks (sd_outputs sd)) ∧
    u_open (sd_server sd) = true ∧ u_receiving (sd_server sd) = true ∧ u_cfg (sd_server sd) = cfg ∧
    (is_Some (sd_forwarder sd) ↔ fc_enabled (cfg_forwarding cfg) = true) ∧
    Z.of_nat (sd_threads sd) + 1 <= cfg_workers cfg ∧
    sd_watch sd = setup_shutdown (ev_service env).

Lemma opened_all m :
  forallb open_sink (m_sinks m) = true → Forall (opened_sink (m_os m)) (m_sinks m) →
  Forall (λ s, ms_queue s = []) (m_sinks m) →
  Forall (λ s, in_service (m_os m) (ms_file s) ∧ Inv (mkWorld (m_os m) (ms_file s)) ∧ ms_queue s = [])
         (m_sinks m).
Proof.
  rewrite forallb_forall, !Forall_forall. intros Ho Hs Hq s Hin. specialize (Hs s Hin).
  unfold opened_sink in Hs. rewrite Ho in Hs by by apply list_elem_of_In.
  destruct Hs. split_and!; [done|done|by apply Hq].
Qed.

Lemma refused closed log (P : Prop) (Q : Manager → Prop) (K : ServerRun → Started → Prop) :
  ¬ P → (∀ c, closed = Some c ↔ Q c) → (∃ what rest, log = (LError, what) :: rest) →
  ∃ r, mret (failed_start closed log) = Ret r ∧ (is_Some (rn_started r) ↔ P) ∧
    (∀ c, rn_closed r = Some c ↔ rn_started r = None ∧ Q c) ∧
    (rn_status r = EXIT_FAILURE → ∃ what rest, rn_log r = (LError, what) :: rest) ∧
    match rn_started r with None => rn_status r = EXIT_FAILURE | Some sd => K r sd end.
Proof.
  intros HP HQ HL. eexists. split; [done|]. cbn. split_and!; [|intros c; rewrite HQ; tauto|done|done].
  split; [by intros [? [=]]|done].
Qed.

(** The run, step by step. *)
Lemma runServer_spec env :
  ∃ r, runServer env = Ret r ∧
    (is_Some (rn_started r) ↔ ∃ cfg m, can_start env cfg m) ∧
    (∀ c, rn_closed r = Some c ↔ rn_started r = None ∧
       ∃ cfg m, loadConfig (ev_config env) = Ret cfg ∧
                open_all (new_OutputManager cfg (ev_os env)) = Ret (true, m) ∧ c = close_all m) ∧
    (rn_status r = EXIT_FAILURE → ∃ what rest, rn_log r = (LError, what) :: rest) ∧
    match rn_started r with
    | None => rn_status r = EXIT_FAILURE
    | Some sd => running env sd ∧
        (rn_status r = EXIT_SUCCESS ↔ ∀ i, (i <= sd_threads sd)%nat → ev_thrown env i = []) ∧
        (rn_status r = EXIT_SUCCESS ∨ rn_status r = EXIT_FAILURE)
    end.
Proof.
  unfold runServer, can_start.
  destruct (yields_cases _ _ (loadConfig_yields (ev_config env))) as [(cfg & Hcfg & tree & Htree & Hl)|(w & Hcfg)];
    rewrite Hcfg; [|apply refused; [by intros (? & ? & [=] & _)|by intros c; split; [|intros (? & ? & [=] & _)]|by eexists _, _]].
  destruct (open_all_spec cfg (ev_os env) (loaded_outputs _ _ Hl)) as (ok & m & Ho & Hlen & Hok & _ & Hs & Hq & _).
  pose proof (open_all_says cfg (ev_os env) ok m Ho) as Hsays. rewrite Ho. cbn [mbind M_bind]. destruct ok; cbn [negb].
  2: { apply refused; [| |by eapply errors_since_last]; [intros (? & ? & [= <-] & Ho' & _)|intros c; split; [done|intros (? & ? & [= <-] & Ho' & _)]];
       congruence. }
  clear Hsays.
  assert (Hopened : ∀ c, Some (close_all m) = Some c ↔
            ∃ cfg' m', Ret cfg = Ret cfg' ∧ open_all (new_OutputManager cfg' (ev_os env)) = Ret (true, m') ∧ c = close_all m').
  { intros c. split; [intros [= <-]; by exists cfg, m|]. intros (? & ? & [= <-] & Ho' & ->). congruence. }
  unfold make_forwarder. destruct (fc_enabled (cfg_forwarding cfg)) eqn:Hen;
    [destruct (ev_forwarder_throws env) as [what|] eqn:Hth|].
  { apply refused; [|exact Hopened|by eexists _, _]. intros (? & ? & [= <-] & _ & Hf & _). by specialize (Hf Hen). }
  all: unfold start; cbn [u_cfg new_UdpServer].
  all: destruct (lf_host_shape _ _ Hl) as (_ & _ & [v Hv] & _); rewrite Hv.
  all: destruct (ev_bind env) as [what|] eqn:Hb;
    [apply refused; [by intros (? & ? & [= <-] & _ & _ & [=])|exact Hopened|by eexists _, _]|].
  all: cbn [mret M_ret]; pose proof (start_threads_bound (cfg_workers cfg) (ev_thread_fails env)
         (proj1 (lf_workers_range _ _ Hl))) as Hn.
  all: destruct (start_threads (cfg_workers cfg) (ev_thread_fails env)) as [n line]; cbn in Hn.
  all: pose proof (run_workers_clean n (ev_thrown env)) as Hc; pose proof (run_workers_says n (ev_thrown env)) as Hsays.
  all: destruct (run_workers n (ev_thrown env)) as [clean lines]; cbn in Hc, Hsays.
  all: eexists; split; [reflexivity|]; cbn; split_and!.
  all: try (split; [intros _; exists cfg, m; split_and!; done || congruence|intros _; by eexists]); try (intros c; split; [done|by intros [[=] _]]).
  all: try (unfold EXIT_SUCCESS, EXIT_FAILURE; destruct clean; [by left|by right]).
  all: try (rewrite <- Hc; destruct clean; done).
  all: try by eapply last_line.
  all: exists tree, cfg; cbn; rewrite Hen; split_and!; try done; try by apply opened_all.
  all: try (split; [intros _; done|intros _; by eexists]). all: by split; [intros [? [=]]|].
Qed.

(** C24. One run of the server returns, whatever it meets. It reports the service
    started exactly when every step of the start succeeded, and what then runs is
    the validated configuration with every sink in service, the socket listening
    and a stop waited for; the exit status is 0 exactly when it started and no worker caught
    an exception; a start that fails after the sinks were opened has called close on
    each of them, which posts it to the sink's strand, and no other start has; and
    with any other status the last line the start or a worker's loop logged is an
    error, so that no failure is silent. *)
Theorem runServer_outcome env :
  ∃ r, runServer env = Ret r ∧
    (is_Some (rn_started r) ↔ ∃ cfg m, can_start env cfg m) ∧
    (∀ c, rn_closed r = Some c ↔ rn_started r = None ∧
       ∃ cfg m, loadConfig (ev_config env) = Ret cfg ∧
                open_all (new_OutputManager cfg (ev_os env)) = Ret (true, m) ∧ c = close_all m) ∧
    (rn_status r = EXIT_FAILURE → ∃ what rest, rn_log r = (LError, what) :: rest) ∧
    match rn_started r with
    | None => rn_status r = EXIT_FAILURE
    | Some sd => running env sd ∧
        (rn_status r = EXIT_SUCCESS ↔ ∀ i, (i <= sd_threads sd)%nat → ev_thrown env i = []) ∧
        (rn_status r = EXIT_SUCCESS ∨ rn_status r = EXIT_FAILURE)
    end.
Proof. apply runServer_spec. Qed.
End server.

(** ** Concrete runs *)

Definition run_linux (env : ServerEnv ini) : M ServerRun :=
  @runServer ini ini_tree linux_strings linux_machine example_env env.
Definition server_env (faults : list (option nat)) (bind : option bytes) (ts : nat → thrown)
    : ServerEnv ini :=
  mkServerEnv ini (inr example_ini) (mkOs ∅ faults 0 []) None None (lit "bad address") bind
    (Some (0%nat, lit "no threads")) ts None.

Example server_runs :
  match run_linux (server_env [] None (λ _, [])), run_linux (server_env [] (Some (lit "in use")) (λ _, [])),
        run_linux (server_env [Some 0%nat] None (λ _, [])),
        run_linux (server_env [] None (λ _, [Some (lit "bad_alloc"); None])) with
  | Ret ok, Ret taken, Ret unwritable, Ret threw =>
      rn_status ok = 0 ∧ (sd_threads <$> rn_started ok) = Some 0%nat ∧
      rn_status taken = 1 ∧
      ((λ s, (m_closed (ms_file s), ms_queue s)) <$> from_option m_sinks [] (rn_closed taken)) = [(false, [TClose]); (false, [TClose])] ∧
      rn_started taken = None ∧
      rn_log taken = [(LError, lit "minilog: failed to bind UDP port 5514: in use")] ∧
      rn_status unwritable = 1 ∧ rn_closed unwritable = None ∧ length (rn_log unwritable) = 1%nat ∧
      rn_status threw = 1 ∧ length (rn_log threw) = 3%nat
  | _, _, _, _ => False
  end.
Proof. vm_compute. auto 20. Qed.
