(* ===== verification/Startup.v ===== *)
(** * What --check says of a start (src/src/server/preflight.cpp, main.cpp)

    [preflight] inspects the machine and [runServer] uses it; here the two meet on a
    machine that answers the server as it answered the check, so that the report can
    be compared with what the start does. *)

From S2P Require Import Prelude Service Names Parser Platform Config ConfigSpec Admission Backoff Forwarder UdpServer OutputManager Server FileSystem LogFile LogFileSpec Lifecycle Sinks Preflight.

(** ** The machine, to the server *)

Section machine.
Variable env : PreEnv.

Definition usable (dir : bytes) : bool :=
  match pe_exists env dir with inl true => pe_is_directory env dir && pe_can_create env dir | _ => false end.
(** Whether a file opens for appending: an existing one as the check found it, and
    another when it can be created in its directory. *)
Definition openable (f : bytes) : bool :=
  match pe_exists env f with
  | inl true => negb (pe_is_directory env f) && pe_can_append env f
  | _ => usable (parent_path f)
  end.

(** The calls of a sink that opens its files: each file is opened and its size
    asked for, up to the first that does not open. *)
Fixpoint open_faults (files : list bytes) : list (option nat) :=
  match files with
  | [] => []
  | f :: rest => if openable f then None :: None :: open_faults rest else [Some 0%nat]
  end.
Definition start_faults (outputs : list OutputConfig) : list (option nat) :=
  mjoin ((λ o, open_faults (files_of_output o)) <$> outputs).

(** The server meets the machine the check met, and its memory suffices. *)
Record answers_alike {T : Type} (cfg : Config) (server : ServerEnv T) : Prop := {
  aa_files : ∃ rest, os_faults (ev_os server) = start_faults (cfg_outputs cfg) ++ rest;
  aa_bind : ev_bind server = pe_bind env (cfg_host cfg) (cfg_udpPort cfg);
  aa_forwarder : ev_forwarder_throws server = None
}.
(** Two spellings of a directory are one directory. *)
Definition one_directory : Prop :=
  ∀ p q, path_eq p q = true → usable p = usable q.

Lemma usable_directory_iff dir : usable_directory env dir ↔ usable dir = true.
Proof.
  unfold usable_directory, usable. destruct (pe_exists env dir) as [[]|]; [|split; [by intros [[=] _]|done]..].
  rewrite andb_true_iff. split; [by intros [_ ?]|done].
Qed.

(** ** Opening the files *)

Section opening.
Context `{LogEnv}.

Lemma fs_open_ok p os fs :
  os_faults os = None :: fs →
  ∃ os', fs_open p os = (true, os') ∧ os_faults os' = fs ∧ is_Some (os_files os' !! p).
Proof.
  intros Hf. unfold fs_open, next_fault. rewrite Hf. cbn [os_files]. eexists. split; [reflexivity|].
  destruct (os_files os !! p) eqn:E; cbn; [by rewrite E|]. by rewrite lookup_insert_eq.
Qed.
Lemma fs_open_fails p os k fs :
  os_faults os = Some k :: fs → ∃ os', fs_open p os = (false, os') ∧ os_faults os' = fs.
Proof. intros Hf. unfold fs_open, next_fault. rewrite Hf. by eexists. Qed.
Lemma fs_file_size_ok p os fs :
  os_faults os = None :: fs → is_Some (os_files os !! p) →
  ∃ n os', fs_file_size p os = (Some n, os') ∧ os_faults os' = fs.
Proof. intros Hf [c Hc]. unfold fs_file_size, next_fault. rewrite Hf. cbn. rewrite Hc. by eexists _, _. Qed.

(** One file, with the faults it meets before the others. *)
Definition file_faults (file : bytes) (rest : list (option nat)) : list (option nat) :=
  if sv_empty file then rest else if openable file then None :: None :: rest else Some 0%nat :: rest.
Definition opens (file : bytes) : bool := sv_empty file || openable file.

Lemma open_one_calls wh rest w :
  st_open (stream_of wh (w_sink w)) = false →
  os_faults (w_os w) = file_faults (file_of wh (w_sink w)) rest →
  wp (open_one wh) w (λ ok w', ok = opens (file_of wh (w_sink w)) ∧ os_faults (w_os w') = rest ∧
    m_closed (w_sink w') = m_closed (w_sink w) || negb ok ∧ m_cfg (w_sink w') = m_cfg (w_sink w) ∧
    (∀ wh', wh' ≠ wh → ok = true → stream_of wh' (w_sink w') = stream_of wh' (w_sink w))).
Proof.
  intros Hopen Hf. unfold open_one, opens, file_faults in *. wp_go. set (file := file_of wh (w_sink w)) in *.
  destruct (sv_empty file) eqn:He; cbn [orb]; [wp_go; by rewrite orb_false_r|]. wp_go. rewrite Hopen. wp_go.
  destruct (openable file) eqn:Ho.
  - destruct (fs_open_ok file (w_os w) _ Hf) as (os1 & -> & Hf1 & Hs). wp_go. cbn [fst snd w_os]. wp_go.
    cbn [w_os w_sink]. destruct (fs_file_size_ok file os1 _ Hf1 Hs) as (n & os2 & -> & Hf2). wp_go.
    split_and!; [done|done|by destruct wh; rewrite orb_false_r|by destruct wh|by intros [] Hne _; destruct wh].
  - destruct (fs_open_fails file (w_os w) _ _ Hf) as (os1 & -> & Hf1). wp_go. cbn [fst snd w_os]. wp_go.
    eapply wp_impl; [apply failSink_spec|]. intros [] w' [(_ & Hfa & _) Hs]. wp_go. rewrite Hs.
    cbn in Hfa. split_and!; [done|congruence|by destruct wh; rewrite orb_true_r|by destruct wh|done].
Qed.
Lemma open_faults_cons file files rest :
  open_faults (filter (λ p, p ≠ []) (file :: files)) ++ rest =
  file_faults file (if opens file then open_faults (filter (λ p, p ≠ []) files) ++ rest else rest).
Proof.
  unfold file_faults, opens. rewrite filter_cons. destruct file as [|c file]; cbn [sv_empty orb].
  - by rewrite decide_False by (intros Hd; by apply Hd).
  - rewrite decide_True by done. cbn [open_faults]. by destruct (openable (c :: file)).
Qed.
Lemma opens_files o :
  forallb openable (files_of_output o) = opens (oc_textFile o) && opens (oc_jsonlFile o).
Proof.
  unfold files_of_output, opens. rewrite !filter_cons, filter_nil.
  destruct (oc_textFile o), (oc_jsonlFile o); cbn [sv_empty orb andb forallb];
    repeat (first [rewrite (decide_False (P := [] ≠ [])) by (intros Hd; by apply Hd) | rewrite decide_True by done]);
    cbn [forallb]; by rewrite ?andb_true_r.
Qed.

(** A sink opens at startup when its files do, and makes these calls. *)
Lemma openAtStartup_calls o interval os rest :
  os_faults os = open_faults (files_of_output o) ++ rest →
  wp openAtStartup (mkWorld os (new_LogFile o interval)) (λ ok w',
    ok = forallb openable (files_of_output o) ∧ os_faults (w_os w') = rest).
Proof.
  intros Hf. rewrite opens_files. unfold files_of_output in Hf. rewrite open_faults_cons in Hf.
  unfold openAtStartup, openFiles. wp_go.
  eapply wp_impl; [eapply open_one_calls; [done|exact Hf]|]. cbn [w_sink w_os].
  intros ok w1 (-> & Hf1 & Hc1 & Hcfg1 & Hs1). cbn in Hc1, Hcfg1, Hs1 |- *.
  destruct (opens (oc_textFile o)); wp_go.
  - rewrite open_faults_cons in Hf1. cbn [open_faults] in Hf1.
    eapply wp_impl; [eapply (open_one_calls Jsonl)|].
    + by rewrite Hs1.
    + cbn [file_of]. rewrite Hcfg1. rewrite Hf1. by destruct (opens (oc_jsonlFile o)).
    + intros ok w2 (-> & Hf2 & Hc2 & _). wp_go. cbn. cbn in Hc2. rewrite Hc2, Hc1, Hcfg1. cbn. by rewrite negb_involutive.
  - cbn. rewrite Hc1. done.
Qed.

Lemma open_loop_calls outputs os rest :
  os_faults os = start_faults outputs ++ rest →
  ∃ os' sinks, open_loop os ((λ o, mkMSink (oc_facilities o) (oc_excludedFacilities o)
                          (new_LogFile o kRetryIntervalMs) []) <$> outputs) =
    Ret (forallb (λ o, forallb openable (files_of_output o)) outputs, os', sinks).
Proof.
  revert os. induction outputs as [|o outputs IH]; intros os Hf; [by eexists _, _|].
  cbn [fmap list_fmap open_loop ms_file forallb]. unfold start_faults in Hf. cbn [fmap list_fmap mjoin list_join] in Hf.
  rewrite <- app_assoc in Hf. destruct (openAtStartup_calls o kRetryIntervalMs os _ Hf) as (ok & w' & -> & -> & Hf').
  cbn [mbind M_bind]. destruct (IH (w_os w') Hf') as (os' & sinks & ->). by eexists _, _.
Qed.
End opening.
End machine.

(** ** The verdict, and the start *)

Section verdict.
Context `{PropertyTree T} `{BoostStrings} `{Machine} `{LogEnv}.
Variable env : PreEnv.
Hypothesis spelling : one_directory env.

(** Every configured file opens. *)
Definition all_open (cfg : Config) : Prop := ∀ f, f ∈ configured_files cfg → openable env f = true.

Lemma all_open_iff cfg :
  all_open cfg ↔ forallb (λ o, forallb (openable env) (files_of_output o)) (cfg_outputs cfg) = true.
Proof.
  unfold all_open, configured_files. induction (cfg_outputs cfg) as [|o os IH]; cbn.
  - split; [done|]. by intros _ f ?%not_elem_of_nil.
  - rewrite andb_true_iff, <- IH, forallb_forall. setoid_rewrite elem_of_app. setoid_rewrite <- list_elem_of_In. clear. naive_solver.
Qed.

(** A file opens unless it is bad, or is not there and its directory is unusable. *)
Lemma openable_iff cfg f :
  f ∈ configured_files cfg →
  (openable env f = false ↔ bad_file env f ∨
     pe_exists env f ≠ inl true ∧ ∃ d, d ∈ directories_of (configured_files cfg) ∧
       path_eq d (parent_path f) = true ∧ ¬ usable_directory env d).
Proof.
  intros Hf. destruct (directories_cover _ [] _ Hf) as (d & Hd & He). unfold openable, bad_file.
  assert (Hall : ∀ d, path_eq d (parent_path f) = true → usable_directory env d ↔ usable env (parent_path f) = true)
    by (intros d' Hd'; rewrite usable_directory_iff, (spelling d' _ Hd'); done).
  destruct (pe_exists env f) as [[]|e].
  - destruct (pe_is_directory env f), (pe_can_append env f); cbn; clear; naive_solver.
  - split; [|intros [[[=] _]|(_ & d' & _ & Hd' & Hu)]; rewrite (Hall d' Hd') in Hu; by destruct (usable env (parent_path f))].
    intros Hu. right. split; [done|]. exists d. split_and!; [done..|]. rewrite (Hall d He). congruence.
  - split; [|intros [[[=] _]|(_ & d' & _ & Hd' & Hu)]; rewrite (Hall d' Hd') in Hu; by destruct (usable env (parent_path f))].
    intros Hu. right. split; [done|]. exists d. split_and!; [done..|]. rewrite (Hall d He). congruence.
Qed.

(** On such a machine the server starts when every file opens and the address is free. *)
Lemma starts_iff cfg (server : ServerEnv T) run :
  loadConfig (ev_config server) = Ret cfg → answers_alike env cfg server → runServer server = Ret run →
  (is_Some (rn_started run) ↔ all_open cfg ∧ pe_bind env (cfg_host cfg) (cfg_udpPort cfg) = None).
Proof.
  intros Hcfg [(rest & Hf) Hb Hfw] Hrun. destruct (runServer_spec server) as (run' & Hrun' & Hs & _).
  rewrite Hrun in Hrun'. injection Hrun' as <-. rewrite Hs, all_open_iff. unfold can_start.
  destruct (open_loop_calls env (cfg_outputs cfg) (ev_os server) rest Hf) as (os' & sinks & Ho).
  assert (Hopen : open_all (new_OutputManager cfg (ev_os server)) =
    Ret (forallb (λ o, forallb (openable env) (files_of_output o)) (cfg_outputs cfg), mkManager os' sinks))
    by (unfold open_all, new_OutputManager; cbn [m_os m_sinks]; by rewrite Ho).
  rewrite <- Hb. split.
  - intros (cfg' & m & Hcfg' & Ho' & _ & Hbind). rewrite Hcfg in Hcfg'. injection Hcfg' as <-.
    rewrite Hopen in Ho'. injection Ho' as -> _. done.
  - intros [Hall Hbind]. exists cfg, (mkManager os' sinks). rewrite Hopen, Hall. done.
Qed.

(** C38. What a report of --check is worth. It always comes; it fails when the
    configuration does not load, and otherwise exactly when a configured file is a
    directory or refuses appending, a file's directory is not one that files can be
    created in, the address cannot be bound and the service is not running, or
    forwarding is enabled to a destination that does not resolve. On a machine that
    answers the server as it answered the check: the server does not start on a
    configuration that does not load; after a report without an error it starts,
    unless the service was running and binding failed, which --check takes for the
    service's own socket; and after a report with an error it starts only if the
    destination does not resolve, or some directory is not usable in which every
    configured file exists already and opens. *)
Theorem check_predicts_start parsed service (server : ServerEnv T) :
  ev_config server = parsed →
  (∀ cfg, loadConfig parsed = Ret cfg → answers_alike env cfg server) →
  ∃ r kept run, preflight env parsed service = Ret (r, kept) ∧ runServer server = Ret run ∧
    match loadConfig parsed with
    | Ret cfg =>
        (failed r = true ↔
           (∃ f, f ∈ configured_files cfg ∧ bad_file env f) ∨
           (∃ d, d ∈ directories_of (configured_files cfg) ∧ ¬ usable_directory env d) ∨
           bad_bind env cfg service ∨ bad_forwarding env (cfg_forwarding cfg)) ∧
        (failed r = false → is_Some (rn_started run) ∨
           service = Running ∧ is_Some (pe_bind env (cfg_host cfg) (cfg_udpPort cfg))) ∧
        (failed r = true → is_Some (rn_started run) →
           bad_forwarding env (cfg_forwarding cfg) ∨
           ∃ d, d ∈ directories_of (configured_files cfg) ∧ ¬ usable_directory env d ∧
             ∀ f, f ∈ configured_files cfg → path_eq d (parent_path f) = true →
               pe_exists env f = inl true ∧ openable env f = true)
    | _ => failed r = true ∧ rn_started run = None
    end.
Proof.
  intros Hsame Halike. destruct (preflight_verdict env parsed service) as (r & kept & Hr & Hv & _).
  destruct (runServer_spec server) as (run & Hrun & Hs & _). exists r, kept, run. split; [done|]. split; [done|].
  destruct (loadConfig parsed) as [cfg|e|] eqn:Hcfg; [|split; [by apply Hv|]; destruct (rn_started run); [|done];
    destruct Hs as [(? & ? & Hc & _) _]; [by eexists|]; rewrite Hsame in Hc; congruence ..].
  specialize (Halike cfg eq_refl). rewrite <- Hsame in Hcfg. pose proof (starts_iff cfg server run Hcfg Halike Hrun) as Hst.
  split; [exact Hv|]. split.
  - intros Hok. assert (Hno : ¬ failed r = true) by congruence. rewrite Hv in Hno.
    destruct (pe_bind env (cfg_host cfg) (cfg_udpPort cfg)) as [e|] eqn:Hb.
    + right. split; [|by eexists]. destruct service; try done; destruct Hno; right; right; left; right; (split; [|done]);
        rewrite Hb; by eexists.
    + left. apply Hst. split; [|done]. intros f Hf. destruct (openable env f) eqn:Ho; [done|].
      destruct (proj1 (openable_iff cfg f Hf) Ho) as [?|(_ & d & ? & _ & ?)]; destruct Hno; eauto.
  - intros Hfail (Hall & Hb)%Hst. apply Hv in Hfail as [(f & Hf & Hbad)|[(d & Hd & Hu)|[[Ha|[[e He] _]]|?]]].
    + specialize (Hall f Hf). assert (openable env f = false) by (apply (openable_iff cfg f Hf); by left). congruence.
    + right. exists d. split_and!; [done..|]. intros f Hf Hdir. split; [|by apply Hall].
      destruct (pe_exists env f) as [[]|e] eqn:He; [done|..]; (assert (openable env f = false); [|by rewrite Hall in *]);
        apply (openable_iff cfg f Hf); right; rewrite He; (split; [done|]); by exists d.
    + destruct (yields_cases _ _ (loadConfig_yields (ev_config server))) as [(cfg' & Hcfg' & tree & _ & Hl)|(w & Hcfg')]; [|congruence].
      rewrite Hcfg in Hcfg'. injection Hcfg' as <-. destruct (lf_host_shape _ _ Hl) as (_ & _ & [v Hv'] & _). congruence.
    + congruence.
    + by left.
Qed.
End verdict.

(** ** A concrete machine *)

(** The directory [/var/log], under any spelling, and no file in it yet. *)
Definition env1 (address : option bytes) : PreEnv :=
  let is_dir p := bool_decide (path_elements p = path_elements (lit "/var/log")) in
  mkPreEnv (λ p, inl (is_dir p)) is_dir (λ _, true) (λ _, None) (λ _, true) (lit "not an address")
    (λ _ _, address) (λ h p, (None, [h])) 42.
Definition server1 (address : option bytes) : ServerEnv ini :=
  server_env (start_faults (env1 address) (cfg_outputs example_config)) address (λ _, []).

Lemma env1_directory address : one_directory (env1 address).
Proof.
  intros p q Hpq. unfold path_eq in Hpq. apply bool_decide_eq_true in Hpq. unfold usable, env1. cbn. by rewrite Hpq.
Qed.
Lemma server1_alike address cfg : load_linux (inr example_ini) = Ret cfg → answers_alike (env1 address) cfg (server1 address).
Proof.
  rewrite load_example. intros [= <-]. constructor; [exists []; by rewrite app_nil_r|done|done].
Qed.

Lemma check_predicts_start_witness :
  ∃ r kept run, @preflight ini ini_tree linux_strings linux_machine (env1 None) (inr example_ini) NotRunning = Ret (r, kept) ∧
    run_linux (server1 None) = Ret run ∧ failed r = false ∧ is_Some (rn_started run).
Proof.
  destruct (@check_predicts_start ini ini_tree linux_strings linux_machine example_env (env1 None) (env1_directory None)
              (inr example_ini) NotRunning (server1 None) eq_refl (server1_alike None)) as (r & kept & run & Hr & Hrun & Hcase).
  assert (Hok : failed r = false) by (clear -Hr; vm_compute in Hr; injection Hr as <- _; reflexivity).
  exists r, kept, run. split; [exact Hr|]. split; [exact Hrun|]. split; [exact Hok|].
  pose proof load_example as Hload. unfold load_linux in Hload. rewrite Hload in Hcase.
  destruct Hcase as (_ & Hst & _). destruct (Hst Hok) as [?|[[=] _]]. done.
Defined.

(** While the service runs, an address that is not this machine's passes. *)
Example unbindable_passes :
  match @preflight ini ini_tree linux_strings linux_machine (env1 (Some (lit "cannot assign"))) (inr example_ini) Running,
        run_linux (server1 (Some (lit "cannot assign"))) with
  | Ret (r, _), Ret run => failed r = false ∧ rn_started run = None
  | _, _ => False
  end.
Proof. vm_compute. auto. Qed.
