(* ===== verification/SystemLog.v ===== *)
(** * The system log (src/src/server/platform/os_log_linux.cpp, os_log_win.cpp)

    [osLogError] and [osLogInfo]: a line on standard error, and a record in the
    system's own log: syslog, or the Windows Event Log through an event source
    that is opened for each message. *)

From S2P Require Import Prelude Lines.

(** What has been logged, and the event sources opened and closed. *)
Record SystemLog := mkSystemLog {
  sl_records : list (LogLevel * bytes);
  sl_stderr : bytes;
  sl_opened : nat;
  sl_closed : nat
}.
Definition empty_log : SystemLog := mkSystemLog [] [] 0 0.

(** [c_str()] as a C function reads it: up to the first NUL. *)
Fixpoint c_str (s : bytes) : bytes :=
  match s with [] => [] | b :: s' => if decide (b = x00) then [] else b :: c_str s' end.

(** [std::cerr << "[ERROR] " << message << "\n"] *)
Definition to_stderr (level : LogLevel) (message : bytes) (l : SystemLog) : SystemLog :=
  mkSystemLog (sl_records l)
    (sl_stderr l ++ match level with LError => lit "[ERROR] " | LInfo => lit "[INFO] " end ++ message ++ [x0a])
    (sl_opened l) (sl_closed l).
Definition add_record (level : LogLevel) (message : bytes) (l : SystemLog) : SystemLog :=
  mkSystemLog (sl_records l ++ [(level, c_str message)]) (sl_stderr l) (sl_opened l) (sl_closed l).

(** [syslog(priority, "%s", message.c_str())]: the message is an argument, never the format. *)
Definition osLog_linux (level : LogLevel) (message : bytes) (l : SystemLog) : SystemLog :=
  to_stderr level message (add_record level message l).

(** Whether RegisterEventSource gives a handle, and whether ReportEvent succeeds. *)
Definition osLog_win (registered reported : bool) (level : LogLevel) (message : bytes) (l : SystemLog) : SystemLog :=
  let l := if registered then
             let l := mkSystemLog (sl_records l) (sl_stderr l) (S (sl_opened l)) (sl_closed l) in
             let l := if reported then add_record level message l else l in
             mkSystemLog (sl_records l) (sl_stderr l) (sl_opened l) (S (sl_closed l))
           else l in
  to_stderr level message l.

Definition osLogError_linux : bytes → SystemLog → SystemLog := osLog_linux LError.
Definition osLogInfo_linux : bytes → SystemLog → SystemLog := osLog_linux LInfo.
Definition osLogError_win (registered reported : bool) : bytes → SystemLog → SystemLog := osLog_win registered reported LError.
Definition osLogInfo_win (registered reported : bool) : bytes → SystemLog → SystemLog := osLog_win registered reported LInfo.

(** ** A sequence of messages *)

Abbreviation messages := (list LogLine).
Definition log_linux (ms : messages) (l : SystemLog) : SystemLog := foldl (λ l '(level, m), osLog_linux level m l) l ms.
(** Each with what Windows answers. *)
Definition log_win (ms : list (LogLevel * bytes * (bool * bool))) (l : SystemLog) : SystemLog :=
  foldl (λ l '(level, m, (registered, reported)), osLog_win registered reported level m l) l ms.

(** Standard error, read back line by line. *)
Definition stderr_level (line : bytes) : option (LogLevel * bytes) :=
  if decide (take 8 line = lit "[ERROR] ") then Some (LError, drop 8 line)
  else if decide (take 7 line = lit "[INFO] ") then Some (LInfo, drop 7 line) else None.
Definition read_stderr (s : bytes) : option messages := ls ← read_lines s; mapM stderr_level ls.

Definition one_line (m : LogLevel * bytes) : Prop := x0a ∉ m.2.
Definition stderr_line (m : LogLevel * bytes) : bytes :=
  match m.1 with LError => lit "[ERROR] " | LInfo => lit "[INFO] " end ++ m.2.

Lemma read_stderr_line m : stderr_level (stderr_line m) = Some m.
Proof. by destruct m as [[] m]. Qed.
Lemma stderr_line_one m : one_line m → x0a ∉ stderr_line m.
Proof.
  intros Hm. unfold stderr_line. rewrite not_elem_of_app. split; [|done].
  destruct m.1; refine (bool_decide_unpack _ _); vm_compute; exact I.
Qed.
Lemma read_stderr_lines ms : Forall one_line ms → read_stderr (unlines (stderr_line <$> ms)) = Some ms.
Proof.
  intros Hm. unfold read_stderr. rewrite read_unlines.
  - cbn. clear Hm. induction ms as [|m ms IH]; [done|]. cbn. rewrite read_stderr_line. cbn. by rewrite IH.
  - apply Forall_fmap. eapply Forall_impl; [exact Hm|apply stderr_line_one].
Qed.

Lemma log_linux_spec ms l :
  log_linux ms l = mkSystemLog (sl_records l ++ (prod_map id c_str <$> ms)) (sl_stderr l ++ unlines (stderr_line <$> ms))
                     (sl_opened l) (sl_closed l).
Proof.
  revert l. induction ms as [|[level m] ms IH]; intros l; cbn [log_linux foldl].
  - unfold unlines. cbn. rewrite !app_nil_r. by destruct l.
  - change (foldl _ ?x ms) with (log_linux ms x). rewrite IH. cbn. unfold unlines. cbn. unfold stderr_line at 2. cbn. by rewrite <- !app_assoc.
Qed.
Lemma log_win_spec ms l :
  log_win ms l =
    mkSystemLog (sl_records l ++ (prod_map id c_str <$> (filter (λ m, m.2 = (true, true)) ms).*1))
      (sl_stderr l ++ unlines (stderr_line <$> ms.*1))
      (length (filter (λ m, m.2.1 = true) ms) + sl_opened l) (length (filter (λ m, m.2.1 = true) ms) + sl_closed l).
Proof.
  revert l. induction ms as [|[[level m] [registered reported]] ms IH]; intros l; cbn [log_win foldl].
  - unfold unlines. cbn. rewrite !app_nil_r. by destruct l.
  - change (foldl _ ?x ms) with (log_win ms x). rewrite IH, !filter_cons. cbn [snd fst].
    unfold unlines, stderr_line, osLog_win, to_stderr, add_record. cbn [fmap list_fmap concat fst snd].
    destruct registered, reported; repeat case_decide; simplify_eq/=; rewrite <- ?app_assoc; cbn; f_equal; lia.
Qed.

(** What the program logs is what is seen, message by message and in order: on
    both systems standard error reads back as exactly the messages, when none of
    them has a line break; syslog has a record of each, up to its first NUL; the
    Event Log has one of each that Windows took, and every event source that was
    opened has been closed. *)
Theorem system_log_exact ms answers :
  Forall one_line ms → length answers = length ms →
  let l := log_linux ms empty_log in let w := log_win (zip ms answers) empty_log in
  read_stderr (sl_stderr l) = Some ms ∧ sl_records l = (prod_map id c_str <$> ms) ∧
  read_stderr (sl_stderr w) = Some ms ∧ sl_opened w = sl_closed w ∧
  sl_records w = (prod_map id c_str <$> (filter (λ m, m.2 = (true, true)) (zip ms answers)).*1).
Proof.
  intros Hm Hl. cbv zeta. rewrite log_linux_spec, log_win_spec, fst_zip by lia. cbn.
  split_and!; [by apply read_stderr_lines|done|by apply read_stderr_lines|done|done].
Qed.

Lemma system_log_exact_witness :
  read_stderr (sl_stderr (log_linux [(LError, lit "minilog: x"); (LInfo, lit "y")] empty_log)) =
    Some [(LError, lit "minilog: x"); (LInfo, lit "y")].
Proof.
  apply (system_log_exact [(LError, lit "minilog: x"); (LInfo, lit "y")] [(true, true); (false, true)]); [|done].
  repeat constructor; refine (bool_decide_unpack _ _); vm_compute; exact I.
Defined.
(** A message with a NUL is cut in syslog, not on standard error. *)
Example nul_cut : sl_records (log_linux [(LInfo, lit "a" ++ [x00] ++ lit "b")] empty_log) = [(LInfo, lit "a")].
Proof. reflexivity. Qed.
