(* ===== verification/Isolation.v ===== *)
(** * Sinks that share a disk

    The strands of different sinks interleave over one file system. Every handler
    of a sink is shown to be confined to the files of its own chains: it changes
    no other file, and what it does depends on no other file. *)

From S2P Require Import Prelude Names Parser Platform Config Escape Backoff FileSystem LogFile LogFileSpec Rotation Lifecycle Sinks OutputManager.

(** ** The files of a sink *)

Definition file_in (wh : Which) (cfg : OutputConfig) : bytes :=
  match wh with Text => oc_textFile cfg | Jsonl => oc_jsonlFile cfg end.

(** The active files and their generations. *)
Definition footprint (cfg : OutputConfig) (p : bytes) : Prop :=
  ∃ wh, sv_empty (file_in wh cfg) = false ∧
        (p = file_in wh cfg ∨ ∃ n, p = rotatedPath (file_in wh cfg) n).

(** Two disks that a sink cannot tell apart. *)
Record agree (cfg : OutputConfig) (os1 os2 : Os) : Prop := {
  ag_faults : os_faults os1 = os_faults os2;
  ag_now : os_now os1 = os_now os2;
  ag_files : ∀ p, footprint cfg p → os_files os1 !! p = os_files os2 !! p
}.

(** What a sink may do to a disk. *)
Record untouched (cfg : OutputConfig) (os os' : Os) : Prop := {
  un_files : ∀ p, ¬ footprint cfg p → os_files os' !! p = os_files os !! p;
  un_now : os_now os' = os_now os;
  un_faults : os_faults os = [] → os_faults os' = []
}.

Lemma agree_refl cfg os : agree cfg os os.
Proof. by constructor. Qed.
Lemma agree_sym cfg os1 os2 : agree cfg os1 os2 → agree cfg os2 os1.
Proof. intros []. constructor; [done|done|]. intros p Hp. symmetry. auto. Qed.
Lemma agree_trans cfg os1 os2 os3 : agree cfg os1 os2 → agree cfg os2 os3 → agree cfg os1 os3.
Proof. intros [] []. constructor; [congruence|congruence|]. intros p Hp. rewrite ag_files0, ag_files1; done. Qed.
Lemma untouched_refl cfg os : untouched cfg os os.
Proof. by constructor. Qed.
Lemma untouched_trans cfg os1 os2 os3 :
  untouched cfg os1 os2 → untouched cfg os2 os3 → untouched cfg os1 os3.
Proof.
  intros [] []. constructor; [|congruence|auto]. intros p Hp. rewrite un_files1, un_files0; done.
Qed.

(** ** Confined computations *)

Definition same_result {A} (cfg : OutputConfig) (r1 r2 : M (A * World)) : Prop :=
  match r1, r2 with
  | Ret (a1, w1), Ret (a2, w2) => a1 = a2 ∧ w_sink w1 = w_sink w2 ∧ agree cfg (w_os w1) (w_os w2)
  | Throw e1, Throw e2 => e1 = e2
  | UB, UB => True
  | _, _ => False
  end.

(** A sink with configuration [cfg]; nothing is open for a file it does not have. *)
Definition mine (cfg : OutputConfig) (s : Sink) : Prop :=
  m_cfg s = cfg ∧ ∀ wh, sv_empty (file_in wh cfg) = true → st_open (stream_of wh s) = false.

(** [m], run by a sink with configuration [cfg], returns values in [Q], touches
    only the sink's files, and does the same on disks that agree on them. *)
Definition confined {A} (cfg : OutputConfig) (m : IO A) (Q : A → Prop) : Prop :=
  ∀ w, mine cfg (w_sink w) →
    (∀ a w', m w = Ret (a, w') → Q a ∧ mine cfg (w_sink w') ∧ untouched cfg (w_os w) (w_os w')) ∧
    (∀ os2, agree cfg (w_os w) os2 → same_result cfg (m w) (m (mkWorld os2 (w_sink w)))).

Section confined.
Context `{LogEnv} (cfg : OutputConfig).

Lemma confined_impl {A} (m : IO A) P Q : confined cfg m P → (∀ a, P a → Q a) → confined cfg m Q.
Proof.
  intros Hm HPQ w Hw. destruct (Hm w Hw) as [H1 H2]. split; [|done].
  intros a w' E. destruct (H1 a w' E) as (? & ? & ?). auto.
Qed.

Lemma confined_bind {A B} (m : IO A) (f : A → IO B) P Q :
  confined cfg m P → (∀ a, P a → confined cfg (f a) Q) → confined cfg (m ≫= f) Q.
Proof.
  intros Hm Hf w Hw. destruct (Hm w Hw) as [H1 H2]. unfold mbind, IO_bind. split.
  - intros b w' E. destruct (m w) as [[a w1]| |] eqn:Em; try done.
    destruct (H1 a w1 eq_refl) as (Ha & Hw1 & Hu). destruct (Hf a Ha w1 Hw1) as [H3 _].
    destruct (H3 b w' E) as (? & ? & ?). split; [done|]. split; [done|]. by eapply untouched_trans.
  - intros os2 Hag. specialize (H2 os2 Hag). destruct (m w) as [[a w1]| |] eqn:Em;
      destruct (m (mkWorld os2 (w_sink w))) as [[a2 w2]| |]; cbn in H2; try done.
    destruct H2 as (<- & Hs & Hag'). destruct (H1 a w1 eq_refl) as (Ha & Hw1 & _).
    destruct (Hf a Ha w1 Hw1) as [_ H4]. specialize (H4 (w_os w2) Hag'). rewrite Hs in H4. by destruct w2.
Qed.

Lemma confined_ret {A} (a : A) (Q : A → Prop) : Q a → confined cfg (mret a) Q.
Proof.
  intros Ha w Hw. split; [|by intros os2 Hag].
  intros b w' E. injection E as <- <-. split; [done|]. split; [done|]. apply untouched_refl.
Qed.
Lemma confined_this {A} (f : Sink → A) (Q : A → Prop) :
  (∀ s, mine cfg s → Q (f s)) → confined cfg (this f) Q.
Proof.
  intros Hf w Hw. split; [|by intros os2 Hag].
  intros a w' E. injection E as <- <-. split; [by apply Hf|]. split; [done|]. apply untouched_refl.
Qed.
Lemma confined_assign (f : Sink → Sink) :
  (∀ s, mine cfg s → mine cfg (f s)) → confined cfg (assign f) (λ _, True).
Proof.
  intros Hf w Hw. split; [|by intros os2 Hag].
  intros a w' E. injection E as <- <-. split; [done|]. split; [by apply Hf|]. apply untouched_refl.
Qed.
Lemma confined_pure {A} (m : M A) : confined cfg (pure m) (λ _, True).
Proof.
  intros w Hw. unfold pure. split; [|intros os2 Hag; by destruct m].
  intros a w' E. destruct m; simplify_eq. split; [done|]. split; [done|]. apply untouched_refl.
Qed.
Lemma confined_sys {A} (f : Os → A * Os) :
  (∀ os, untouched cfg os (f os).2) →
  (∀ os os2, agree cfg os os2 → (f os).1 = (f os2).1 ∧ agree cfg (f os).2 (f os2).2) →
  confined cfg (sys f) (λ _, True).
Proof.
  intros Hu Ha w Hw. unfold sys. split.
  - intros a w' E. specialize (Hu (w_os w)). destruct (f (w_os w)) as [b os']. injection E as <- <-.
    split; [done|]. split; [done|]. done.
  - intros os2 Hag. cbn [w_os w_sink]. destruct (Ha _ _ Hag) as [H1 H2].
    destruct (f (w_os w)) as [b os'], (f os2) as [b2 os2']. by cbn in *.
Qed.

Lemma confined_log line : confined cfg (log line) (λ _, True).
Proof.
  apply confined_sys; [by intros os; constructor|]. intros os os2 []. split; [done|]. by constructor.
Qed.
Lemma confined_now : confined cfg now (λ _, True).
Proof.
  apply confined_sys; [intros os; apply untouched_refl|]. intros os os2 Hag. by destruct Hag; split.
Qed.

(** ** The system calls *)

Lemma next_fault_agree os os2 :
  agree cfg os os2 →
  (next_fault os).1 = (next_fault os2).1 ∧ agree cfg (next_fault os).2 (next_fault os2).2.
Proof.
  intros [Hf Hn Hp]. unfold next_fault. rewrite <- Hf. destruct (os_faults os) eqn:E; cbn; (split; [done|]);
    constructor; cbn; congruence || done.
Qed.
Lemma next_fault_untouched os : untouched cfg os (next_fault os).2 ∧ os_files (next_fault os).2 = os_files os.
Proof.
  unfold next_fault. destruct (os_faults os) eqn:E; cbn; (split; [|done]); constructor; cbn; congruence || done.
Qed.

(** A change of one file of the sink. *)
Lemma agree_with (os os2 : Os) (g : gmap bytes bytes → gmap bytes bytes) :
  agree cfg os os2 →
  (∀ m m2, (∀ p, footprint cfg p → m !! p = m2 !! p) → ∀ p, footprint cfg p → g m !! p = g m2 !! p) →
  agree cfg (with_files (g (os_files os)) os) (with_files (g (os_files os2)) os2).
Proof. intros [] Hg. constructor; [done|done|]. cbn. intros p Hp. by apply Hg. Qed.
Lemma untouched_with (os : Os) (m : gmap bytes bytes) :
  (∀ p, ¬ footprint cfg p → m !! p = os_files os !! p) → untouched cfg os (with_files m os).
Proof. intros Hm. by constructor. Qed.

Lemma lookup_insert_same (m m2 : gmap bytes bytes) q c p :
  m !! p = m2 !! p → <[q := c]> m !! p = <[q := c]> m2 !! p.
Proof. intros E. destruct (decide (q = p)) as [->|]; [by rewrite !lookup_insert_eq|by rewrite !lookup_insert_ne]. Qed.
Lemma lookup_delete_same (m m2 : gmap bytes bytes) q p :
  m !! p = m2 !! p → delete q m !! p = delete q m2 !! p.
Proof. intros E. destruct (decide (q = p)) as [->|]; [by rewrite !lookup_delete_eq|by rewrite !lookup_delete_ne]. Qed.

(** The fault is drawn first; what follows is confined. *)
Lemma confined_call {A} (k : option nat → Os → A * Os) :
  (∀ f os, untouched cfg os (k f os).2) →
  (∀ f os os2, agree cfg os os2 → (k f os).1 = (k f os2).1 ∧ agree cfg (k f os).2 (k f os2).2) →
  confined cfg (sys (λ os, let '(f, os') := next_fault os in k f os')) (λ _, True).
Proof.
  intros Hu Ha. apply confined_sys.
  - intros os. destruct (next_fault_untouched os) as [Hn _]. destruct (next_fault os) as [f os'].
    eapply untouched_trans; [exact Hn|apply Hu].
  - intros os os2 Hag. destruct (next_fault_agree _ _ Hag) as [Hf Hag'].
    destruct (next_fault os) as [f os'], (next_fault os2) as [f2 os2']. cbn in Hf, Hag'. subst f2. by apply Ha.
Qed.

Lemma confined_exists p : footprint cfg p → confined cfg (sys (fs_exists p)) (λ _, True).
Proof.
  intros Hp. apply confined_call; intros [k|] os; cbn; try apply untouched_refl; intros os2 Hag; (split; [|done]).
  - done.
  - by rewrite (ag_files _ _ _ Hag p Hp).
Qed.
Lemma confined_remove p : footprint cfg p → confined cfg (sys (fs_remove p)) (λ _, True).
Proof.
  intros Hp. apply confined_call; intros [k|] os; cbn; [apply untouched_refl| |by intros os2|].
  - apply untouched_with. intros q Hq. rewrite lookup_delete_ne; [done|congruence].
  - intros os2 Hag. split; [done|]. apply agree_with; [done|].
    intros m m2 Hm q Hq. by apply lookup_delete_same, Hm.
Qed.
Lemma confined_file_size p : footprint cfg p → confined cfg (sys (fs_file_size p)) (λ _, True).
Proof.
  intros Hp. apply confined_call; intros [k|] os; cbn.
  - apply untouched_refl.
  - destruct (os_files os !! p); apply untouched_refl.
  - by intros os2.
  - intros os2 Hag. rewrite (ag_files _ _ _ Hag p Hp). by destruct (os_files os2 !! p).
Qed.
Lemma confined_open p : footprint cfg p → confined cfg (sys (fs_open p)) (λ _, True).
Proof.
  intros Hp. apply confined_call; intros [k|] os; cbn; [apply untouched_refl| |by intros os2|].
  - destruct (os_files os !! p); [apply untouched_refl|]. apply untouched_with.
    intros q Hq. rewrite lookup_insert_ne; [done|congruence].
  - intros os2 Hag. split; [done|]. rewrite (ag_files _ _ _ Hag p Hp).
    destruct (os_files os2 !! p); [done|]. apply (agree_with os os2 (λ m, <[p := []]> m)); [done|].
    intros m m2 Hm q Hq. by apply lookup_insert_same, Hm.
Qed.
Lemma confined_rename p q :
  footprint cfg p → footprint cfg q → confined cfg (sys (fs_rename p q)) (λ _, True).
Proof.
  intros Hp Hq. apply confined_call; intros [k|] os; cbn; [apply untouched_refl| |by intros os2|].
  - destruct (os_files os !! p); [|apply untouched_refl]. apply untouched_with.
    intros r Hr. rewrite lookup_insert_ne, lookup_delete_ne; [done|congruence|congruence].
  - intros os2 Hag. rewrite (ag_files _ _ _ Hag p Hp).
    destruct (os_files os2 !! p) as [c|]; [|done]. split; [done|].
    apply (agree_with os os2 (λ m, <[q := c]> (delete p m))); [done|].
    intros m m2 Hm r Hr. by apply lookup_insert_same, lookup_delete_same, Hm.
Qed.
Lemma confined_append p d : footprint cfg p → confined cfg (sys (fs_append p d)) (λ _, True).
Proof.
  intros Hp. assert (Hput : ∀ d' os, untouched cfg os (match os_files os !! p with
    | Some content => with_files (<[p := content ++ d']> (os_files os)) os | None => os end)).
  { intros d' os. destruct (os_files os !! p); [|apply untouched_refl]. apply untouched_with.
    intros q Hq. rewrite lookup_insert_ne; [done|congruence]. }
  assert (Hsame : ∀ d' os os2, agree cfg os os2 → agree cfg
    (match os_files os !! p with
     | Some content => with_files (<[p := content ++ d']> (os_files os)) os | None => os end)
    (match os_files os2 !! p with
     | Some content => with_files (<[p := content ++ d']> (os_files os2)) os2 | None => os2 end)).
  { intros d' os os2 Hag. rewrite (ag_files _ _ _ Hag p Hp). destruct (os_files os2 !! p) as [c|]; [|done].
    apply (agree_with os os2 (λ m, <[p := c ++ d']> m)); [done|].
    intros m m2 Hm q Hq. by apply lookup_insert_same, Hm. }
  apply confined_call; intros [k|] os; cbn; try apply Hput; intros os2 Hag; (split; [done|]); by apply Hsame.
Qed.

(** ** Computations as sequences of calls *)

(** What a thread does at once: one call of the file system, the clock or the
    system log, or one access to its sink's members. *)
Inductive single_call : ∀ {A : Type}, IO A → Prop :=
| call_exists p : single_call (sys (fs_exists p))
| call_remove p : single_call (sys (fs_remove p))
| call_rename p q : single_call (sys (fs_rename p q))
| call_file_size p : single_call (sys (fs_file_size p))
| call_open p : single_call (sys (fs_open p))
| call_append p d : single_call (sys (fs_append p d))
| call_log line : single_call (log line)
| call_now : single_call now
| call_this {A : Type} (f : Sink → A) : single_call (this f)
| call_assign f : single_call (assign f).

(** [m] is a value, or a single confined call followed by such a computation. *)
Inductive sliced {A : Type} (Q : A → Prop) : IO A → Prop :=
| sliced_done m a : Q a → (∀ w, m w = Ret (a, w)) → sliced Q m
| sliced_call {B : Type} (op : IO B) (P : B → Prop) (k : B → IO A) m :
    single_call op → confined cfg op P → (∀ w, m w = (op ≫= k) w) → (∀ b, P b → sliced Q (k b)) → sliced Q m.

Lemma sliced_ext {A : Type} (Q : A → Prop) (m m' : IO A) : (∀ w, m' w = m w) → sliced Q m → sliced Q m'.
Proof.
  intros Hm Hs. destruct Hs as [m a Ha Hd|B op P k m H1 H2 Hd Hk].
  - apply (sliced_done _ _ a); [done|]. intros w. by rewrite Hm.
  - apply (sliced_call _ op P k); [done|done| |exact Hk]. intros w. by rewrite Hm.
Qed.
Lemma sliced_bind {A B : Type} (m : IO A) (f : A → IO B) P Q :
  sliced P m → (∀ a, P a → sliced Q (f a)) → sliced Q (m ≫= f).
Proof.
  intros Hm Hf. induction Hm as [m a Ha Hd|C op R k m Hop Hc Hd _ IH].
  - apply (sliced_ext _ (f a)); [|by apply Hf]. intros w. unfold mbind, IO_bind. by rewrite Hd.
  - eapply (sliced_call _ op R (λ c, k c ≫= f)); [done|done| |exact IH]. intros w. unfold mbind, IO_bind in *. rewrite Hd.
    by destruct (op w) as [[c w1]| |].
Qed.
Lemma sliced_op {A : Type} (op : IO A) Q : single_call op → confined cfg op Q → sliced Q op.
Proof.
  intros Hop Hc. eapply (sliced_call _ op Q mret); [done|done| |].
  - intros w. unfold mbind, IO_bind. by destruct (op w) as [[a w1]| |].
  - intros a Ha. by apply (sliced_done _ _ a).
Qed.
Lemma sliced_ret {A : Type} (a : A) (Q : A → Prop) : Q a → sliced Q (mret a).
Proof. intros Ha. by apply (sliced_done _ _ a). Qed.
Lemma sliced_pure {A : Type} (m : M A) a (Q : A → Prop) : m = Ret a → Q a → sliced Q (pure m).
Proof. intros -> Ha. by apply (sliced_done _ _ a). Qed.

(** A computation made of confined calls is confined. *)
Lemma sliced_confined {A : Type} (Q : A → Prop) (m : IO A) : sliced Q m → confined cfg m Q.
Proof.
  induction 1 as [m a Ha Hd|B op P k m _ Hc Hd _ IH]; intros w Hw.
  - rewrite Hd. destruct (confined_ret a Q Ha w Hw) as [H1 H2]. split; [exact H1|].
    intros os2 Hag. rewrite Hd. by apply H2.
  - destruct (confined_bind op k P Q Hc IH w Hw) as [H1 H2]. rewrite Hd. split; [exact H1|].
    intros os2 Hag. rewrite Hd. by apply H2.
Qed.

(** ** The member functions *)

Abbreviation any := (λ _, True).
Create HintDb sliced.

(** One call. *)
Lemma sliced_ret_any {A : Type} (a : A) : sliced any (mret a).
Proof. by apply sliced_ret. Qed.
Lemma sliced_this {A : Type} (f : Sink → A) (Q : A → Prop) : (∀ s, mine cfg s → Q (f s)) → sliced Q (this f).
Proof. intros Hf. apply sliced_op; [constructor|by apply confined_this]. Qed.
Lemma sliced_this_any {A : Type} (f : Sink → A) : sliced any (this f).
Proof. by apply sliced_this. Qed.
Lemma sliced_assign f : (∀ s, mine cfg s → mine cfg (f s)) → sliced any (assign f).
Proof. intros Hf. apply sliced_op; [constructor|by apply confined_assign]. Qed.
Lemma sliced_log line : sliced any (log line).
Proof. apply sliced_op; [constructor|apply confined_log]. Qed.
Lemma sliced_now : sliced any now.
Proof. apply sliced_op; [constructor|apply confined_now]. Qed.
Lemma sliced_exists p : footprint cfg p → sliced any (sys (fs_exists p)).
Proof. intros Hp. apply sliced_op; [constructor|by apply confined_exists]. Qed.
Lemma sliced_remove p : footprint cfg p → sliced any (sys (fs_remove p)).
Proof. intros Hp. apply sliced_op; [constructor|by apply confined_remove]. Qed.
Lemma sliced_rename p q : footprint cfg p → footprint cfg q → sliced any (sys (fs_rename p q)).
Proof. intros Hp Hq. apply sliced_op; [constructor|by apply confined_rename]. Qed.
Lemma sliced_file_size p : footprint cfg p → sliced any (sys (fs_file_size p)).
Proof. intros Hp. apply sliced_op; [constructor|by apply confined_file_size]. Qed.
Lemma sliced_open p : footprint cfg p → sliced any (sys (fs_open p)).
Proof. intros Hp. apply sliced_op; [constructor|by apply confined_open]. Qed.
Lemma sliced_append p d : footprint cfg p → sliced any (sys (fs_append p d)).
Proof. intros Hp. apply sliced_op; [constructor|by apply confined_append]. Qed.


Ltac sliced_if :=
  match goal with
  | |- sliced _ (if ?b then _ else _) => destruct b
  | |- sliced _ (match ?o with Some _ => _ | None => _ end) => destruct o as [[]|]
  | |- sliced _ (match ?o with Some _ => _ | None => _ end) => destruct o
  end.
Ltac sliced_go :=
  repeat first
    [ apply sliced_ret_any
    | apply sliced_log | apply sliced_now
    | apply sliced_assign; intros ? []; by split
    | solve [eauto with sliced]
    | apply sliced_this_any
    | sliced_if
    | eapply sliced_bind; [|intros ? _] ].

Lemma sliced_close_one wh : sliced any (assign (close_one wh)).
Proof.
  apply sliced_assign. intros s [Hc Ho]. split; [by destruct wh|]. intros wh' He. specialize (Ho wh' He).
  destruct wh, wh'; cbn in *; repeat case_match; cbn in *; congruence.
Qed.
Hint Resolve sliced_close_one sliced_exists sliced_remove sliced_rename sliced_open
  sliced_file_size sliced_append : sliced.

Lemma sliced_closeFiles : sliced any closeFiles.
Proof. unfold closeFiles. sliced_go. Qed.
Lemma sliced_scheduleRetry : sliced any scheduleRetry.
Proof. unfold scheduleRetry. sliced_go. Qed.
Hint Resolve sliced_closeFiles sliced_scheduleRetry : sliced.

Lemma sliced_failSink reason : sliced any (failSink reason).
Proof. unfold failSink. sliced_go. destruct (SinkRecovery.onFailure _ _) as [r d]. sliced_go. Qed.
Hint Resolve sliced_failSink : sliced.

Lemma sliced_file wh : sliced (λ f, f = file_in wh cfg) (this (file_of wh)).
Proof. apply sliced_this. intros s [<- _]. by destruct wh. Qed.

Lemma footprint_file wh : sv_empty (file_in wh cfg) = false → footprint cfg (file_in wh cfg).
Proof. exists wh. split; [done|by left]. Qed.
Lemma footprint_rotated wh n :
  sv_empty (file_in wh cfg) = false → footprint cfg (rotatedPath (file_in wh cfg) n).
Proof. exists wh. split; [done|right; by exists n]. Qed.
Hint Resolve footprint_file footprint_rotated : sliced.

Lemma sliced_set_file wh st n :
  sv_empty (file_in wh cfg) = false → sliced any (assign (set_file wh st n)).
Proof.
  intros Hne. apply sliced_assign. intros s [Hc Ho]. split; [by destruct wh|].
  intros wh' He. specialize (Ho wh' He). destruct wh, wh'; cbn in *; congruence.
Qed.
Hint Resolve sliced_set_file : sliced.

Lemma sliced_open_one wh : sliced any (open_one wh).
Proof.
  unfold open_one. eapply sliced_bind; [apply sliced_file|]. intros f ->.
  destruct (sv_empty (file_in wh cfg)) eqn:E; [sliced_go|]. sliced_go.
Qed.
Hint Resolve sliced_open_one : sliced.
Lemma sliced_openFiles : sliced any openFiles.
Proof. unfold openFiles. sliced_go. Qed.
Hint Resolve sliced_openFiles : sliced.

(** ** Rotation *)

Section chain.
Context (wh : Which) (configured : sv_empty (file_in wh cfg) = false).
Let base := file_in wh cfg.

Lemma sliced_probe p : footprint cfg p → sliced any (probe p).
Proof. intros Hp. unfold probe. sliced_go. Qed.
Hint Resolve sliced_probe : sliced.
Lemma sliced_rename_step p q : footprint cfg p → footprint cfg q → sliced any (rename_step p q).
Proof. intros Hp Hq. unfold rename_step. sliced_go. Qed.
Hint Resolve sliced_rename_step : sliced.
Lemma sliced_probe_loop n count highest : sliced any (probe_loop base n count highest).
Proof. revert n highest. induction count as [|count IH]; intros n highest; cbn [probe_loop]; sliced_go. Qed.
Lemma sliced_delete_loop n count : sliced any (delete_loop base n count).
Proof. revert n. induction count as [|count IH]; intros n; cbn [delete_loop]; sliced_go. Qed.
Lemma sliced_shift_loop n : sliced any (shift_loop base n).
Proof. induction n as [|n IH]; cbn [shift_loop]; sliced_go. Qed.
Hint Resolve sliced_probe_loop sliced_delete_loop sliced_shift_loop : sliced.
Lemma sliced_shiftFiles : sliced any (shiftFiles base).
Proof. unfold shiftFiles. sliced_go. Qed.
End chain.

Lemma sliced_shift_one wh : sliced any (shift_one wh).
Proof.
  unfold shift_one. eapply sliced_bind; [apply sliced_file|]. intros f ->.
  destruct (sv_empty (file_in wh cfg)) eqn:E; [sliced_go|by apply sliced_shiftFiles].
Qed.
Hint Resolve sliced_shift_one : sliced.
Lemma sliced_rotateIfNeeded : sliced any rotateIfNeeded.
Proof. unfold rotateIfNeeded, rotate. sliced_go. Qed.
Hint Resolve sliced_rotateIfNeeded : sliced.

(** ** The handlers *)

Lemma sliced_write_one wh r : sliced any (write_one wh (mret r)).
Proof.
  unfold write_one. eapply sliced_bind.
  { apply (sliced_this (stream_of wh) (λ st, st_open st = true → sv_empty (file_in wh cfg) = false)).
    intros s [_ Ho] E. destruct (sv_empty (file_in wh cfg)) eqn:He; [|done]. rewrite Ho in E; done. }
  intros st Hst. destruct (st_open st) eqn:E; cbn [negb]; [|sliced_go]. specialize (Hst E).
  eapply sliced_bind; [apply sliced_file|]. intros f ->.
  eapply sliced_bind; [by apply (sliced_pure _ (r ++ [x0a]) any)|intros line _]. sliced_go.
Qed.
Hint Resolve sliced_write_one : sliced.
Lemma sliced_doWrite msg rcv : sliced any (doWrite msg rcv).
Proof.
  destruct (escape_returns (raw msg)) as (l & Hl & _), (toJsonlRecord_returns msg rcv) as [j Hj].
  unfold doWrite. rewrite Hl, Hj. change (Ret l) with (mret l : M bytes). change (Ret j) with (mret j : M bytes). sliced_go.
Qed.
Lemma sliced_attemptReopen : sliced any attemptReopen.
Proof. unfold attemptReopen. sliced_go. destruct (SinkRecovery.onRecovered _ _) as [rec o]. sliced_go. Qed.
Hint Resolve sliced_doWrite sliced_attemptReopen : sliced.

(** What the machine does between handlers is not the sink's. *)
Definition of_sink (e : SinkEvent) : Prop := match e with SEnvironment _ _ => False | _ => True end.

Lemma sliced_handle e : of_sink e → sliced any (handle e).
Proof.
  destruct e as [msg rcv|cancelled| |what|t faults]; cbn [of_sink handle]; intros He; try done.
  - sliced_go.
  - unfold onRetryTimer. sliced_go.
  - unfold close. sliced_go.
  - unfold failSinkFromHandler. sliced_go.
Qed.
Lemma confined_handle e : of_sink e → confined cfg (handle e) any.
Proof. intros He. by apply sliced_confined, sliced_handle. Qed.
Lemma confined_handle_all es : Forall of_sink es → confined cfg (handle_all es) any.
Proof.
  induction 1 as [|e es He _ IH]; cbn [handle_all]; [by apply confined_ret|].
  eapply confined_bind; [by apply confined_handle|]. intros _ _. exact IH.
Qed.
End confined.

(** ** What a sink sees *)

Lemma Inv_mine w : Inv w → mine (m_cfg (w_sink w)) (w_sink w).
Proof.
  intros Hi. split; [done|]. intros wh He. destruct (inv_streams _ Hi) as [Hin|Hd]; [|apply Hd].
  specialize (Hin wh). change (file_of wh (w_sink w)) with (file_in wh (m_cfg (w_sink w))) in Hin.
  destruct wh; cbn in *; rewrite He in Hin; apply Hin.
Qed.

(** The invariant of a sink is about its own files. *)
Lemma Inv_files os os' s :
  Inv (mkWorld os s) → (∀ p, footprint (m_cfg s) p → os_files os' !! p = os_files os !! p) →
  Inv (mkWorld os' s).
Proof.
  intros [Hv Hs Hcl Hr Hd Hup Hrec] Hp. constructor; try done. destruct Hs as [Hin|]; [left|by right].
  intros wh. specialize (Hin wh). cbn [w_os w_sink] in *. destruct (sv_empty (file_of wh s)) eqn:He; [done|].
  destruct Hin as [Hst (c & Hc & Hn)]. split; [done|]. exists c. split; [|done]. rewrite Hp; [done|].
  exists wh. split; [by destruct wh|]. left. by destruct wh.
Qed.

Section handlers.
Context `{LogEnv}.

(** A handler of a sink, from the sink's invariant: what it leaves alone. *)
Lemma handle_frame e os s :
  of_sink e → Inv (mkWorld os s) →
  ∃ os' s', handle e (mkWorld os s) = Ret (tt, mkWorld os' s') ∧ Inv (mkWorld os' s') ∧
    m_cfg s' = m_cfg s ∧ untouched (m_cfg s) os os'.
Proof.
  intros He Hi. destruct (handle_Inv e _ Hi) as ([] & [os' s'] & Hh & Hi' & Hc & _).
  exists os', s'. split_and!; [done..|].
  destruct (confined_handle (m_cfg s) e He (mkWorld os s)) as [H1 _]; [by apply (Inv_mine _ Hi)|].
  by destruct (H1 _ _ Hh) as (_ & _ & ?).
Qed.

(** The same handler on two disks its sink cannot tell apart. *)
Lemma handle_local e os os2 s os' s' :
  of_sink e → Inv (mkWorld os s) → agree (m_cfg s) os os2 →
  handle e (mkWorld os s) = Ret (tt, mkWorld os' s') →
  ∃ os2', handle e (mkWorld os2 s) = Ret (tt, mkWorld os2' s') ∧ agree (m_cfg s) os' os2'.
Proof.
  intros He Hi Hag Hh.
  destruct (confined_handle (m_cfg s) e He (mkWorld os s)) as [_ H2]; [by apply (Inv_mine _ Hi)|].
  specialize (H2 os2 Hag). cbn [w_sink] in H2. rewrite Hh in H2.
  destruct (handle e (mkWorld os2 s)) as [[[] [os2' s2]]| |]; cbn in H2; try done.
  destruct H2 as (_ & <- & ?). by exists os2'.
Qed.

(** A sink is confined to its own files: any sequence of its handlers,
    whatever calls fail, changes no file but the active files and generations of
    its section, and does exactly the same on any other disk that has those
    files, failures and clock, whatever else it holds. *)
Theorem sink_confined es os os2 s :
  Forall of_sink es → Inv (mkWorld os s) → agree (m_cfg s) os os2 →
  ∃ os' os2' s', handle_all es (mkWorld os s) = Ret (tt, mkWorld os' s') ∧
    handle_all es (mkWorld os2 s) = Ret (tt, mkWorld os2' s') ∧
    untouched (m_cfg s) os os' ∧ untouched (m_cfg s) os2 os2' ∧ agree (m_cfg s) os' os2'.
Proof.
  intros He Hi Hag. pose proof (Inv_mine _ Hi) as Hm. cbn [w_sink] in Hm.
  destruct (handle_all_Inv es _ Hi) as ([] & [os' s'] & Hh & _).
  destruct (confined_handle_all (m_cfg s) es He (mkWorld os s) Hm) as [H1 H2].
  specialize (H2 os2 Hag). rewrite Hh in H2. cbn [w_sink] in H2.
  destruct (handle_all es (mkWorld os2 s)) as [[[] [os2' s2]]| |] eqn:Hh2; cbn in H2; try done.
  destruct H2 as (_ & <- & Hag'). exists os', os2', s'. split_and!; try done.
  - by destruct (H1 _ _ Hh) as (_ & _ & ?).
  - destruct (confined_handle_all (m_cfg s) es He (mkWorld os2 s) Hm) as [H3 _].
    by destruct (H3 _ _ Hh2) as (_ & _ & ?).
Qed.
End handlers.

(** ** A concrete sink, next to other files *)

Definition other_disk0 : Os := mkOs (list_to_map [(lit "/l/other", lit "x")]) [Some 0%nat] 0 [].

Lemma sink0_outside : ¬ footprint config0 (lit "/l/other").
Proof.
  assert (Hlast : ∀ wh n, last (rotatedPath (file_in wh config0) n) = last (file_in wh config0)).
  { intros [] n.
    - change (rotatedPath (file_in Text config0) n) with
        (lit "/l/" ++ lit "a" ++ lit "." ++ to_string (Z.of_nat n) ++ (lit ".lo" ++ [x67])).
      rewrite !app_assoc. apply last_snoc.
    - change (rotatedPath (file_in Jsonl config0) n) with
        (lit "/l/" ++ lit "a" ++ lit "." ++ to_string (Z.of_nat n) ++ (lit ".json" ++ [x6c])).
      rewrite !app_assoc. apply last_snoc. }
  intros (wh & _ & [E|[n E]]); apply (f_equal last) in E; [|rewrite Hlast in E];
    destruct wh; vm_compute in E; discriminate.
Qed.

Lemma agree0 : agree config0 (mkOs ∅ [Some 0%nat] 0 []) other_disk0.
Proof.
  constructor; [done|done|]. intros p Hp. cbn. rewrite lookup_empty. symmetry.
  rewrite lookup_insert_ne; [apply lookup_empty|]. intros <-. by apply sink0_outside.
Qed.

Lemma sink_confined_witness :
  ∃ os' os2' s',
    @handle_all example_env [SWrite message0 (lit "T"); STimer false] (mkWorld (mkOs ∅ [Some 0%nat] 0 []) sink0)
      = Ret (tt, mkWorld os' s') ∧
    @handle_all example_env [SWrite message0 (lit "T"); STimer false] (mkWorld other_disk0 sink0)
      = Ret (tt, mkWorld os2' s') ∧
    untouched config0 (mkOs ∅ [Some 0%nat] 0 []) os' ∧ untouched config0 other_disk0 os2' ∧
    agree config0 os' os2'.
Proof.
  apply (@sink_confined example_env [SWrite message0 (lit "T"); STimer false]
           (mkOs ∅ [Some 0%nat] 0 []) other_disk0 sink0); [by repeat constructor|apply Inv0|apply agree0].
Defined.
