(* ===== verification/Exceptions.v ===== *)
(** * Exceptions in the middle of a handler

    A handler of a sink may throw anywhere: memory runs out, a library throws. It
    then stops where it is, and the catch block of [LogFile::write] and of the
    retry timer calls [failSinkFromHandler]. Here the handlers are taken apart into
    their calls, so that each of the states in which they can stop has a name, and
    the sink is shown to be consistent after any exception; and what is lost when
    [failSinkFromHandler] throws in its turn. *)

From S2P Require Import Prelude Names Parser Platform Config Escape Backoff FileSystem LogFile LogFileSpec Lifecycle Isolation.

(** ** The calls of a computation *)

(** [m] is a value, or fails to return, or is one call that takes [J] to [J] and
    then such a computation. *)
Inductive Calls (J : World → Prop) {A : Type} (m : IO A) : Type :=
| calls_done (a : A) : (∀ w, m w = Ret (a, w)) → Calls J m
| calls_fail : (∀ w a w', m w ≠ Ret (a, w')) → Calls J m
| calls_next {B : Type} (op : IO B) (k : B → IO A) :
    single_call op → (∀ w, m w = (op ≫= k) w) → (∀ w b w', J w → op w = Ret (b, w') → J w') →
    (∀ b, Calls J (k b)) → Calls J m.
Arguments calls_done {J A m}. Arguments calls_fail {J A m}. Arguments calls_next {J A m B}.

(** From [w] the calls can have been made up to [w']. *)
Fixpoint stops {J : World → Prop} {A : Type} {m : IO A} (c : Calls J m) (w w' : World) : Prop :=
  w' = w ∨
  match c with
  | calls_next op k _ _ _ rest => ∃ b w1, op w = Ret (b, w1) ∧ stops (rest b) w1 w'
  | _ => False
  end.

Lemma stops_holds {J : World → Prop} {A : Type} {m : IO A} (c : Calls J m) w w' : J w → stops c w w' → J w'.
Proof.
  revert w. induction c as [m a Hm|m Hm|m B op k Hop Hm HJ rest IH]; intros w Hw; cbn [stops];
    (intros [->|Hs]; [done|]); try done.
  destruct Hs as (b & w1 & Hb & Hs). eapply IH; [|exact Hs]. by eapply HJ.
Qed.
(** A computation that returns stops where it returns, too. *)
Lemma stops_end {J : World → Prop} {A : Type} {m : IO A} (c : Calls J m) w a w' : m w = Ret (a, w') → stops c w w'.
Proof.
  revert w. induction c as [m a' Hm|m Hm|m B op k Hop Hm HJ rest IH]; intros w Hw; cbn [stops].
  - rewrite Hm in Hw. left. congruence.
  - by apply Hm in Hw.
  - right. rewrite Hm in Hw. unfold mbind, IO_bind in Hw. destruct (op w) as [[b w1]| |] eqn:Hop'; [|done..].
    exists b, w1. split; [done|]. by apply IH.
Qed.

Section calls.
Context `{LogEnv} {J : World → Prop}.

Definition calls_ext {A : Type} (m m' : IO A) : (∀ w, m' w = m w) → Calls J m → Calls J m'.
Proof.
  intros Hm c. destruct c as [a Hd|Hf|B op k Hop Hn HJ rest].
  - apply (calls_done a). intros w. by rewrite Hm.
  - apply calls_fail. intros w a w'. by rewrite Hm.
  - apply (calls_next op k Hop); [|done|done]. intros w. by rewrite Hm.
Defined.
Definition calls_bind {A B : Type} (m : IO A) (f : A → IO B) : Calls J m → (∀ a, Calls J (f a)) → Calls J (m ≫= f).
Proof.
  intros c Hf. induction c as [m a Hd|m Hfail|m C op k Hop Hn HJ rest IH].
  - apply (calls_ext (f a)); [|apply Hf]. intros w. unfold mbind, IO_bind. by rewrite Hd.
  - apply calls_fail. intros w b w'. unfold mbind, IO_bind. specialize (Hfail w). destruct (m w) as [[a w1]| |]; [|done..].
    by destruct (Hfail a w1).
  - apply (calls_next op (λ c, k c ≫= f) Hop); [|done|exact IH]. intros w. unfold mbind, IO_bind in *. rewrite Hn.
    by destruct (op w) as [[c w1]| |].
Defined.
Lemma stops_left {A B : Type} (m : IO A) (f : A → IO B) c cf w w' : stops c w w' → stops (calls_bind m f c cf) w w'.
Proof.
  revert w. induction c as [m a Hd|m Hfail|m C op k Hop Hn HJ rest IH]; intros w; cbn [stops calls_bind].
  - intros [->|[]]. unfold calls_ext. cbn. destruct (cf a); by left.
  - by intros [->|[]]; left.
  - intros [->|(b & w1 & Hb & Hs)]; [by left|right]. exists b, w1. split; [done|]. by apply IH.
Qed.
Lemma stops_right {A B : Type} (m : IO A) (f : A → IO B) c cf w a w1 w' :
  m w = Ret (a, w1) → stops (cf a) w1 w' → stops (calls_bind m f c cf) w w'.
Proof.
  revert w. induction c as [m a' Hd|m Hfail|m C op k Hop Hn HJ rest IH]; intros w Hm; cbn [stops calls_bind].
  - rewrite Hd in Hm. injection Hm as <- <-. unfold calls_bind, calls_ext; cbn [Calls_rect]. by destruct (cf a').
  - by apply Hfail in Hm.
  - intros Hs. right. rewrite Hn in Hm. unfold mbind, IO_bind in Hm. destruct (op w) as [[b w2]| |] eqn:Hop'; [|done..].
    exists b, w2. split; [done|]. by eapply IH.
Qed.
Lemma stops_ext {A : Type} (m m' : IO A) (Hm : ∀ w, m' w = m w) (c : Calls J m) w w' :
  stops (calls_ext m m' Hm c) w w' ↔ stops c w w'.
Proof. by destruct c. Qed.
(** Where a sequence can stop: in its first part, or after that has returned. *)
Lemma stops_bind {A B : Type} (m : IO A) (f : A → IO B) c cf w w' :
  stops (calls_bind m f c cf) w w' → stops c w w' ∨ ∃ a w1, m w = Ret (a, w1) ∧ stops (cf a) w1 w'.
Proof.
  revert w. induction c as [m a Hd|m Hfail|m C op k Hop Hn HJ rest IH]; intros w.
  - cbn [calls_bind Calls_rect]. unfold calls_bind. cbn [Calls_rect]. rewrite stops_ext. intros Hs. right. by exists a, w.
  - by intros [->|[]]; left; left.
  - intros [->|(b & w1 & Hb & Hs)]; [by left; left|]. destruct (IH b w1 Hs) as [Hs'|(a & w2 & Ha & Hs')].
    + left. right. by exists b, w1.
    + right. exists a, w2. split; [|done]. rewrite Hn. unfold mbind, IO_bind. by rewrite Hb.
Qed.
Definition calls_op {A : Type} (op : IO A) :
  single_call op → (∀ w b w', J w → op w = Ret (b, w') → J w') → Calls J op.
Proof.
  intros Hop HJ. apply (calls_next op mret Hop); [|done|].
  - intros w. unfold mbind, IO_bind. by destruct (op w) as [[a w1]| |].
  - intros a. by apply (calls_done a).
Defined.
Definition calls_ret {A : Type} (a : A) : Calls J (mret a : IO A).
Proof. by apply (calls_done a). Defined.
Definition calls_pure {A : Type} (m : M A) : Calls J (pure m).
Proof. destruct m as [a|e|]; [by apply (calls_done a)|by apply calls_fail|by apply calls_fail]. Defined.
End calls.

(** ** The handlers, between their calls *)

(** What holds of a sink in the middle of a handler, which is not shutting down. *)
Record mid (s0 : Sink) (w : World) : Prop := {
  mid_config : same_config s0 (w_sink w);
  mid_started : m_startingUp (w_sink w) = false;
  mid_up : m_shuttingDown (w_sink w) = false
}.

Section handlers.
Context `{LogEnv} (s0 : Sink).
Abbreviation Handler m := (Calls (mid s0) m).

Definition calls_sys {A : Type} (f : Os → A * Os) : single_call (sys f) → Handler (sys f).
Proof.
  intros Hop. apply calls_op; [done|]. intros w b w' [] E. unfold sys in E. destruct (f (w_os w)) as [a os]. injection E as <- <-.
  by constructor.
Defined.
Definition calls_this {A : Type} (f : Sink → A) : Handler (this f).
Proof. apply calls_op; [constructor|]. intros w b w' Hw E. by injection E as <- <-. Defined.
(** An assignment of members other than these. *)
Definition fixed (s : Sink) := (m_cfg s, m_retryInterval s, m_startingUp s, m_shuttingDown s).
Definition calls_assign f : (∀ s, fixed (f s) = fixed s) → Handler (assign f).
Proof.
  intros Hf. apply calls_op; [constructor|]. intros w b w' [[Hc Hi] Hs Hd] E. injection E as <- <-.
  specialize (Hf (w_sink w)). injection Hf as Hc' Hi' Hs' Hd'. constructor; cbn; [split|..]; congruence.
Defined.

Ltac calls_go :=
  repeat first
    [ apply calls_ret | apply calls_pure
    | apply calls_assign; intros ?; solve [done | match goal with w : Which |- _ => by destruct w end]
    | apply calls_sys; constructor
    | solve [eauto with calls]
    | apply calls_this
    | match goal with
      | |- Calls _ (if ?b then _ else _) => destruct b
      | |- Calls _ (match ?o with Some _ => _ | None => _ end) => destruct o as [[]|]
      | |- Calls _ (match ?o with Some _ => _ | None => _ end) => destruct o
      | |- Calls _ (let '(_, _) := ?p in _) => destruct p
      end
    | apply calls_bind; [|intros ?] ].

Create HintDb calls.
Definition calls_failSink reason : Handler (failSink reason).
Proof. unfold failSink, closeFiles, scheduleRetry. calls_go. Defined.
Definition calls_closeFiles : Handler closeFiles.
Proof. unfold closeFiles. calls_go. Defined.
Hint Resolve calls_failSink calls_closeFiles : calls.
Definition calls_open_one wh : Handler (open_one wh).
Proof. unfold open_one. calls_go. Defined.
Hint Resolve calls_open_one : calls.
Definition calls_openFiles : Handler openFiles.
Proof. unfold openFiles. calls_go. Defined.
Definition calls_probe p : Handler (probe p).
Proof. unfold probe. calls_go. Defined.
Hint Resolve calls_openFiles calls_probe : calls.
Definition calls_rename_step p q : Handler (rename_step p q).
Proof. unfold rename_step. calls_go. Defined.
Hint Resolve calls_rename_step : calls.
Definition calls_probe_loop base n count highest : Handler (probe_loop base n count highest).
Proof. revert n highest. induction count as [|count IH]; intros n highest; cbn [probe_loop]; calls_go. Defined.
Definition calls_delete_loop base n count : Handler (delete_loop base n count).
Proof. revert n. induction count as [|count IH]; intros n; cbn [delete_loop]; calls_go. Defined.
Definition calls_shift_loop base n : Handler (shift_loop base n).
Proof. induction n as [|n IH]; cbn [shift_loop]; calls_go. Defined.
Hint Resolve calls_probe_loop calls_delete_loop calls_shift_loop : calls.
Definition calls_shift_one wh : Handler (shift_one wh).
Proof. unfold shift_one, shiftFiles. calls_go. Defined.
Hint Resolve calls_shift_one : calls.
Definition calls_rotateIfNeeded : Handler rotateIfNeeded.
Proof. unfold rotateIfNeeded, rotate. calls_go. Defined.
Definition calls_write_one wh record : Handler (write_one wh record).
Proof. unfold write_one. calls_go. Defined.
Hint Resolve calls_rotateIfNeeded calls_write_one : calls.
Definition calls_doWrite msg rcv : Handler (doWrite msg rcv).
Proof. unfold doWrite. calls_go. Defined.
Definition calls_attemptReopen : Handler attemptReopen.
Proof. unfold attemptReopen. calls_go. Defined.
Hint Resolve calls_attemptReopen : calls.
Definition calls_onRetryTimer cancelled : Handler (onRetryTimer cancelled).
Proof. unfold onRetryTimer. calls_go. Defined.
End handlers.

(** ** A shutdown that throws *)

(** What [LogFile::close] has done before its try block, and that block. *)
Record ended (s0 : Sink) (w : World) : Prop := {
  end_config : same_config s0 (w_sink w);
  end_started : m_startingUp (w_sink w) = false;
  end_down : m_shuttingDown (w_sink w) = true;
  end_closed : m_closed (w_sink w) = true
}.
Definition close_try : IO unit := assign (set_retryTimer false);; closeFiles.
Definition closing (w : World) : World := mkWorld (w_os w) (set_closed true (set_shuttingDown true (w_sink w))).

Section closing.
Context `{LogEnv} (s0 : Sink).
Definition calls_ended f : (∀ s, fixed (f s) = fixed s ∧ m_closed (f s) = m_closed s) → Calls (ended s0) (assign f).
Proof.
  intros Hf. apply calls_op; [constructor|]. intros w b w' [[Hc Hi] Hs Hd Hcl] E. injection E as <- <-.
  destruct (Hf (w_sink w)) as [[= Hc' Hi' Hs' Hd'] Hcl']. constructor; cbn; [split|..]; congruence.
Defined.
Definition calls_close_try : Calls (ended s0) close_try.
Proof.
  unfold close_try, closeFiles. apply calls_bind; [by apply calls_ended|]. intros _.
  apply calls_bind; [by apply calls_ended|]. intros _. by apply calls_ended.
Defined.
End closing.
Lemma close_eq w : close w = close_try (closing w).
Proof. reflexivity. Qed.

(** ** What holds wherever a handler stops *)

(** From [w], [K] holds at every point where the computation can stop, and [Q] where
    it returns. *)
Definition along {J : World → Prop} {A : Type} {m : IO A} (c : Calls J m) (K : World → Prop) (w : World)
    (Q : A → World → Prop) : Prop :=
  (∀ w', stops c w w' → K w') ∧ ∀ a w', m w = Ret (a, w') → Q a w'.

Section along.
Context `{LogEnv} {J : World → Prop} (K : World → Prop).

Lemma along_impl {A : Type} (m : IO A) (c : Calls J m) w (P Q : A → World → Prop) :
  along c K w P → (∀ a w', P a w' → Q a w') → along c K w Q.
Proof. intros [Hs He] HPQ. split; [done|]. auto. Qed.
Lemma along_bind {A B : Type} (m : IO A) (f : A → IO B) (c : Calls J m) (cf : ∀ a, Calls J (f a)) w Q :
  J w → along c K w (λ a w1, J w1 → along (cf a) K w1 Q) → along (calls_bind m f c cf) K w Q.
Proof.
  intros Hw [Hs He].
  assert (Hk : ∀ a w1, m w = Ret (a, w1) → along (cf a) K w1 Q)
    by (intros a w1 E; apply He; [done|]; eapply (stops_holds c); [exact Hw|by eapply stops_end]).
  split.
  - intros w' [Hst|(a & w1 & E & Hst)]%stops_bind; [by apply Hs|by apply (Hk a w1)].
  - intros b w' E. unfold mbind, IO_bind in E. destruct (m w) as [[a w1]| |] eqn:Em; [|done..]. by apply (Hk a w1).
Qed.
Lemma along_ret {A : Type} (a : A) w (Q : A → World → Prop) : K w → Q a w → along (J := J) (calls_ret a) K w Q.
Proof. intros Hk Hq. split; [by intros w' [->|[]]|]. by intros b w' [= <- <-]. Qed.
Lemma along_pure {A : Type} (m : M A) w (Q : A → World → Prop) :
  K w → (∀ a, m = Ret a → Q a w) → along (J := J) (calls_pure m) K w Q.
Proof.
  intros Hk Hq. destruct m as [a|e|]; (split; [by intros w' [->|[]]|]); try done. intros b w' [= <- <-]. by apply Hq.
Qed.
Lemma along_op {A : Type} (op : IO A) H1 H2 w (Q : A → World → Prop) :
  K w → (∀ b w', op w = Ret (b, w') → K w' ∧ Q b w') → along (J := J) (calls_op op H1 H2) K w Q.
Proof.
  intros Hk Hq. split; [|intros b w' E; by apply Hq].
  intros w' [->|(b & w1 & Hb & [->|[]])]; [done|]. by apply (Hq b).
Qed.
End along.

(** ** A retry is pending only in a sink with nothing open *)

(** Out of service, and nothing open. *)
Definition off (s : Sink) : Prop := m_closed s = true ∧ ∀ wh, detached wh s.
Definition pending_off (w : World) : Prop := m_retryTimer (w_sink w) = true → off (w_sink w).
Definition no_retry (w : World) : Prop := m_retryTimer (w_sink w) = false.

Lemma no_retry_pending w : no_retry w → pending_off w.
Proof. unfold no_retry, pending_off. congruence. Qed.
Lemma close_one_detached wh wh' s : detached wh s ∨ wh = wh' → detached wh (close_one wh' s).
Proof.
  unfold detached, close_one. intros [[Ho Hs]|<-].
  - destruct wh, wh'; cbn in *; rewrite ?Ho; done.
  - destruct wh; cbn; by case_match.
Qed.
Lemma off_close_one wh s : off s → off (close_one wh s).
Proof. intros [Hc Hd]. split; [by destruct wh|]. intros wh'. apply close_one_detached. by left. Qed.
Lemma off_closed s : m_closed s = true → off (close_one Jsonl (close_one Text s)).
Proof.
  intros Hc. split; [done|]. intros []; apply close_one_detached; [left|by right].
  apply close_one_detached. by right.
Qed.
Lemma off_members s s' :
  off s → m_closed s' = m_closed s ∨ m_closed s' = true →
  (∀ wh, stream_of wh s' = stream_of wh s ∧ size_of wh s' = size_of wh s) → off s'.
Proof.
  intros [Hc Hd] Hc' Hs. split; [destruct Hc'; congruence|]. intros wh. destruct (Hs wh) as [Ho Hn]. unfold detached.
  rewrite Ho, Hn. apply Hd.
Qed.
Lemma off_recovery r s : off s → off (set_recovery r s).
Proof. intros Ho. apply (off_members s); [done|by left|by intros []]. Qed.
Lemma off_set_closed s : off s → off (set_closed true s).
Proof. intros Ho. apply (off_members s); [done|by right|by intros []]. Qed.
Lemma off_retryTimer b s : off s → off (set_retryTimer b s).
Proof. intros Ho. apply (off_members s); [done|by left|by intros []]. Qed.
Create HintDb off.
#[local] Hint Resolve off_close_one off_closed off_recovery off_set_closed off_retryTimer : off.

Section pending.
Context `{LogEnv} (s0 : Sink).
Abbreviation Along c w Q := (along (J := mid s0) c pending_off w Q).

Lemma along_sys {A : Type} (f : Os → A * Os) Hf w (Q : A → World → Prop) :
  pending_off w → (∀ a os, Q a (mkWorld os (w_sink w))) → Along (calls_sys s0 f Hf) w Q.
Proof.
  intros Hk Hq. apply along_op; [done|]. intros a w' E. unfold sys in E. destruct (f (w_os w)) as [a' os].
  injection E as <- <-. split; [exact Hk|apply Hq].
Qed.
Lemma along_this {A : Type} (f : Sink → A) w (Q : A → World → Prop) :
  pending_off w → Q (f (w_sink w)) w → Along (calls_this s0 f) w Q.
Proof. intros Hk Hq. apply along_op; [done|]. by intros a w' [= <- <-]. Qed.
Lemma along_assign f Hf w (Q : unit → World → Prop) :
  pending_off w → pending_off (mkWorld (w_os w) (f (w_sink w))) → Q tt (mkWorld (w_os w) (f (w_sink w))) →
  Along (calls_assign s0 f Hf) w Q.
Proof. intros Hk Hk' Hq. apply along_op; [done|]. by intros a w' [= <- <-]. Qed.

(** After a call that may have failed: its answer says whether a retry can be pending. *)
Definition when_ok (ok : bool) (w : World) : Prop := if ok then no_retry w else pending_off w.
Definition unless_none {A : Type} (o : option A) (w : World) : Prop :=
  match o with Some _ => no_retry w | None => pending_off w end.

Ltac off_solve :=
  repeat match goal with
         | H : when_ok ?ok _ |- _ => is_var ok; destruct ok
         | H : unless_none ?o _ |- _ => is_var o; destruct o
         end;
  unfold when_ok, unless_none, no_retry in *; cbn beta iota in *;
  repeat match goal with wh : Which |- _ => destruct wh end;
  first [ assumption | cbn; congruence | apply no_retry_pending; unfold no_retry; cbn; congruence
        | let Ht := fresh in unfold pending_off in *; intros Ht; cbn in Ht; cbn [w_os w_sink]; eauto 10 with off ].
Ltac along_step :=
  lazymatch goal with
  | |- mid _ _ → _ => intros ?
  | |- along (calls_bind _ _ _ _) _ _ _ => apply along_bind; [done|]
  | |- along (calls_this _ _) _ _ _ => apply along_this
  | |- along (calls_sys _ _ _) _ _ _ => apply along_sys; [|intros ? ?]
  | |- along (calls_assign _ _ _) _ _ _ => apply along_assign
  | |- along (calls_ret _) _ _ _ => apply along_ret
  | |- along (calls_pure _) _ _ _ => apply along_pure; [|intros ? ?]
  | |- along ?c _ _ _ =>
      match c with match ?x with _ => _ end => first [is_var x; destruct x|lazymatch x with negb ?v => is_var v; destruct v end|destruct x eqn:?] end
  | |- _ => solve [off_solve]
  end; cbn [negb w_os w_sink] in *.
Ltac along_call l := eapply along_impl; [apply l; [done|off_solve..]|intros ? ? ?].

Lemma failSink_pending reason w :
  mid s0 w → pending_off w → Along (calls_failSink s0 reason) w (λ _ w', pending_off w').
Proof.
  intros Hm Hk. unfold calls_failSink. repeat along_step.
Qed.

Ltac along_go := repeat first [along_step | along_call failSink_pending].

Lemma open_one_pending wh w : mid s0 w → no_retry w → Along (calls_open_one s0 wh) w when_ok.
Proof. intros Hm Hn. unfold calls_open_one. along_go. Qed.
Lemma openFiles_pending w : mid s0 w → no_retry w → Along (calls_openFiles s0) w (λ _, pending_off).
Proof. intros Hm Hn. unfold calls_openFiles. repeat first [along_step | along_call open_one_pending]. Qed.

Lemma probe_pending p w : mid s0 w → no_retry w → Along (calls_probe s0 p) w unless_none.
Proof. intros Hm Hn. unfold calls_probe. along_go. Qed.
Lemma probe_loop_pending base n count highest w :
  mid s0 w → no_retry w → Along (calls_probe_loop s0 base n count highest) w unless_none.
Proof.
  revert n highest w. induction count as [|count IH]; intros n highest w Hm Hn; cbn [calls_probe_loop nat_rect].
  - apply along_ret; off_solve.
  - unfold calls_probe_loop; cbn [nat_rect]. repeat first [along_step | along_call probe_pending | along_call IH].
Qed.
Lemma delete_loop_pending base n count w :
  mid s0 w → no_retry w → Along (calls_delete_loop s0 base n count) w when_ok.
Proof.
  revert n w. induction count as [|count IH]; intros n w Hm Hn; unfold calls_delete_loop; cbn [nat_rect];
    repeat first [along_step | along_call probe_pending | along_call failSink_pending | along_call IH].
Qed.
Lemma rename_step_pending p q w : mid s0 w → no_retry w → Along (calls_rename_step s0 p q) w when_ok.
Proof. intros Hm Hn. unfold calls_rename_step. repeat first [along_step | along_call probe_pending | along_call failSink_pending]. Qed.
Lemma shift_loop_pending base n w : mid s0 w → no_retry w → Along (calls_shift_loop s0 base n) w when_ok.
Proof.
  revert w. induction n as [|n IH]; intros w Hm Hn; unfold calls_shift_loop; cbn [nat_rect];
    repeat first [along_step | along_call rename_step_pending | along_call IH].
Qed.
Lemma shift_one_pending wh w : mid s0 w → no_retry w → Along (calls_shift_one s0 wh) w when_ok.
Proof.
  intros Hm Hn. unfold calls_shift_one.
  repeat first [along_step | along_call probe_loop_pending | along_call delete_loop_pending
               | along_call shift_loop_pending | along_call rename_step_pending].
Qed.
Lemma closeFiles_pending w : mid s0 w → no_retry w → Along (calls_closeFiles s0) w (λ _, no_retry).
Proof. intros Hm Hn. unfold calls_closeFiles. along_go. Qed.
(** What is due to be rotated is open. *)
Lemma due_no_retry w : valid_sink s0 → mid s0 w → pending_off w → due (w_sink w) = true → no_retry w.
Proof.
  intros Hv Hm Hk Hdue. unfold no_retry. destruct (m_retryTimer (w_sink w)) eqn:Ht; [|done].
  destruct (Hk Ht) as [_ Hd]. rewrite detached_not_due in Hdue; [done| |done].
  eapply same_config_valid; [apply Hm|done].
Qed.
Lemma rotateIfNeeded_pending w :
  valid_sink s0 → mid s0 w → pending_off w → Along (calls_rotateIfNeeded s0) w (λ _, pending_off).
Proof.
  intros Hv Hm Hk. unfold calls_rotateIfNeeded. repeat along_step.
  assert (Hn : no_retry w) by (apply due_no_retry; [done..|]; unfold due; by rewrite Heqb, Heqb0).
  repeat first [along_step | along_call closeFiles_pending | along_call shift_one_pending | along_call openFiles_pending].
Qed.
Lemma pending_open wh w : pending_off w → st_open (stream_of wh (w_sink w)) = true → no_retry w.
Proof.
  intros Hk Ho. unfold no_retry. destruct (m_retryTimer (w_sink w)) eqn:Ht; [|done].
  destruct (Hk Ht) as [_ Hd]. destruct (Hd wh). congruence.
Qed.
Lemma write_one_pending wh record w :
  mid s0 w → pending_off w → Along (calls_write_one s0 wh record) w (λ _, pending_off).
Proof.
  intros Hm Hk. unfold calls_write_one. repeat first [apply along_bind; [done|]|apply along_this; [done|]|intros ?].
  destruct (negb (st_open (stream_of wh (w_sink w)))) eqn:Ho; [by apply along_ret|].
  apply negb_false_iff in Ho. pose proof (pending_open _ _ Hk Ho) as Hn. along_go.
Qed.
Lemma doWrite_pending msg rcv w :
  valid_sink s0 → mid s0 w → pending_off w → Along (calls_doWrite s0 msg rcv) w (λ _, pending_off).
Proof.
  intros Hv Hm Hk. unfold calls_doWrite. do 4 along_step; [by repeat along_step|].
  assert (Hn : no_retry w).
  { unfold no_retry. destruct (m_retryTimer (w_sink w)) eqn:Ht; [|done]. destruct (Hk Ht). congruence. }
  repeat first [along_step | along_call openFiles_pending | along_call rotateIfNeeded_pending | along_call write_one_pending].
Qed.
Lemma attemptReopen_pending w : mid s0 w → no_retry w → Along (calls_attemptReopen s0) w (λ _, pending_off).
Proof.
  intros Hm Hn. unfold calls_attemptReopen.
  repeat first [along_step | along_call openFiles_pending].
Qed.
Lemma onRetryTimer_pending w :
  mid s0 w → pending_off w → Along (calls_onRetryTimer s0 false) w (λ _, pending_off).
Proof.
  intros Hm Hk. unfold calls_onRetryTimer.
  repeat first [along_step | along_call attemptReopen_pending].
Qed.

(** It touches no file. *)
Definition keeps_files {A : Type} (op : IO A) : Prop :=
  ∀ w a w', op w = Ret (a, w') → os_files (w_os w') = os_files (w_os w).
Lemma along_keeps {A : Type} (op : IO A) H1 H2 m w (Q : A → World → Prop) :
  keeps_files op → os_files (w_os w) = m → (∀ a w', os_files (w_os w') = m → Q a w') →
  along (J := mid s0) (calls_op op H1 H2) (λ v, os_files (w_os v) = m) w Q.
Proof.
  intros Hop Hw Hq. apply along_op; [done|]. intros a w' E. assert (os_files (w_os w') = m) by (rewrite <- Hw; by eapply Hop).
  split; [done|by apply Hq].
Qed.
Lemma failSink_files reason w w' :
  mid s0 w → stops (calls_failSink s0 reason) w w' → os_files (w_os w') = os_files (w_os w).
Proof.
  intros Hm. enough (along (calls_failSink s0 reason) (λ v, os_files (w_os v) = os_files (w_os w)) w (λ _ _, True))
    as [Hs _] by apply Hs.
  assert (Hw : os_files (w_os w) = os_files (w_os w)) by done. revert Hw. generalize (os_files (w_os w)) at 2 3 as m.
  intros m Hw. unfold calls_failSink.
  repeat first
    [ apply along_bind; [done|]
    | apply along_ret; [done|]
    | apply along_keeps; [intros ? ? ? E; by injection E as <- <-|done|intros ? ? ?]
    | match goal with |- along ?c _ _ _ => match c with match ?x with _ => _ end => destruct x end end
    | progress intros ? | done ].
Qed.
End pending.

(** ** The life of a sink, with exceptions *)

(** [failSinkFromHandler] when [failSink], in its try block, throws in its turn:
    [catch (...) { m_closed = true; }] *)
Definition failSinkFromHandler_again : IO unit := assign (set_closed true).
(** The string it composes for [failSink]. *)
Definition handler_reason (what : bytes) : bytes := lit "unexpected exception in sink handler: " ++ what.

Section life.
Context `{LogEnv}.

(** The handler of a message or of the retry timer has thrown at [w1]. When the sink
    shuts down no handler does anything that could throw. *)
Definition interrupted (w w1 : World) : Prop :=
  m_shuttingDown (w_sink w) = false ∧
  ((∃ msg rcv, stops (calls_doWrite (w_sink w) msg rcv) w w1) ∨
   m_retryTimer (w_sink w) = true ∧ stops (calls_onRetryTimer (w_sink w) false) w w1).

(** The catch block: [failSinkFromHandler], whose own try block may throw, too. *)
Inductive catch_block (what : bytes) (w1 w2 : World) : Prop :=
| reported : failSinkFromHandler what w1 = Ret (tt, w2) → catch_block what w1 w2
| report_throws w' :
    stops (calls_failSink (w_sink w1) (handler_reason what)) w1 w' →
    failSinkFromHandler_again w' = Ret (tt, w2) → catch_block what w1 w2.

(** A handler runs whole; or stops where it throws, and the catch block follows. *)
Inductive strand_step : World → World → Prop :=
| runs_whole e w w' :
    (∀ what, e ≠ SException what) → handle e w = Ret (tt, w') → strand_step w w'
| throws what w w1 w2 : interrupted w w1 → catch_block what w1 w2 → strand_step w w2
| close_throws w w1 : stops (calls_close_try (w_sink w)) (closing w) w1 → strand_step w w1.

(** Out of service with no retry pending: nothing brings the sink back. *)
Record silenced (s0 : Sink) (w : World) : Prop := {
  sil_mid : mid s0 w;
  sil_closed : m_closed (w_sink w) = true;
  sil_timer : m_retryTimer (w_sink w) = false
}.

Lemma mid_start w : m_startingUp (w_sink w) = false → m_shuttingDown (w_sink w) = false → mid (w_sink w) w.
Proof. by constructor. Qed.
Lemma Inv_pending w : Inv w → pending_off w.
Proof.
  intros Hi Ht. rewrite (inv_retry _ Hi) in Ht. apply andb_true_iff in Ht as [Hc _]. split; [done|by apply (inv_closed _ Hi)].
Qed.

(** After the exception the sink is out of service as after any failure, and a
    retry is pending. *)
Lemma after_exception s0 what w :
  valid_sink s0 → mid s0 w →
  wp (failSinkFromHandler what) w (λ _ w',
    Inv w' ∧ same_config s0 (w_sink w') ∧ m_closed (w_sink w') = true ∧ m_retryTimer (w_sink w') = true ∧
    same_disk (w_os w) (w_os w')).
Proof.
  intros Hv [Hc Hs Hd]. unfold failSinkFromHandler. eapply wp_impl; [apply failSink_spec|]. intros [] w' [Hdisk Hw'].
  pose proof (failed_out_of_service (os_now (w_os w)) (w_sink w)) as Ho. rewrite <- Hw' in Ho.
  destruct (Inv_out w w') as (Hi & Hc' & Hcl & Ht); [by eapply same_config_valid|done..|].
  split_and!; try done. destruct Hc, Hc'. split; congruence.
Qed.
(** When the report throws in its turn, the sink is closed; no retry may be pending. *)
Lemma after_second_exception s0 reason w w' :
  valid_sink s0 → mid s0 w → pending_off w → stops (calls_failSink s0 reason) w w' →
  ∃ w2, failSinkFromHandler_again w' = Ret (tt, w2) ∧ same_config s0 (w_sink w2) ∧
    m_closed (w_sink w2) = true ∧ os_files (w_os w2) = os_files (w_os w) ∧
    (Inv w2 ∧ m_retryTimer (w_sink w2) = true ∨ silenced s0 w2).
Proof.
  intros Hv Hm Hk Hst. destruct (stops_holds _ _ _ Hm Hst) as [Hc Hs Hd].
  destruct (failSink_pending s0 reason w Hm Hk) as [Hk' _]. specialize (Hk' _ Hst).
  eexists. split; [reflexivity|]. split; [exact Hc|]. split; [done|]. split; [by apply (failSink_files s0 reason w w')|].
  destruct (m_retryTimer (w_sink w')) eqn:Ht; [left|right; constructor; [by constructor|done..]].
  split; [|done].
  assert (Ho : off (set_closed true (w_sink w'))) by (apply (off_members (w_sink w')); [by apply Hk'|by right|by intros []]).
  constructor; cbn [w_sink w_os]; try done; [by eapply (same_config_valid s0)|right; apply Ho|intros _; apply Ho|].
  cbn. by rewrite Ht, Hd.
Qed.
Lemma caught_lands s0 what w w2 :
  valid_sink s0 → mid s0 w → pending_off w → catch_block what w w2 →
  same_config s0 (w_sink w2) ∧ (Inv w2 ∨ silenced s0 w2).
Proof.
  intros Hv Hm Hk [E|w' Hst E].
  - destruct (after_exception s0 what w Hv Hm) as ([] & w2' & E' & Hi & Hc & _). rewrite E in E'. injection E' as <-.
    split; [done|by left].
  - assert (Hc0 : same_config s0 (w_sink w)) by apply Hm.
    destruct (after_second_exception (w_sink w) (handler_reason what) w w') as (w2' & E' & Hc & _ & _ & Hor);
      [by eapply same_config_valid|by apply mid_start; apply Hm|done..|].
    rewrite E in E'. injection E' as <-.
    assert (Hc2 : same_config s0 (w_sink w2)) by (destruct Hc0, Hc; split; congruence). split; [done|].
    destruct Hor as [[Hi _]|[[_ Hs Hd] Hcl Ht]]; [by left|right]. by repeat split; try apply Hc2.
Qed.

Lemma ended_whole s0 e w w' :
  (∀ what, e ≠ SException what) → ended s0 w → handle e w = Ret (tt, w') → ended s0 w'.
Proof.
  intros He [[Hc Hi] Hs Hd Hcl] Hh. destruct e as [msg rcv|cancelled| |what|t faults]; cbn [handle] in Hh.
  - destruct (doWrite_dropped msg rcv w (or_introl Hcl)) as ([] & w1 & E & ->). rewrite E in Hh. injection Hh as <-. by constructor.
  - unfold this, mbind, IO_bind in Hh. rewrite Hd, orb_true_r in Hh. cbn [orb] in Hh.
    unfold onRetryTimer, this, assign, mbind, IO_bind in Hh.
    destruct cancelled; cbn in Hh; rewrite ?Hd in Hh; injection Hh as <-; by constructor.
  - rewrite close_eq in Hh. unfold close_try, closeFiles, assign, mbind, IO_bind, close_one in Hh. injection Hh as <-.
    constructor; cbn; by repeat case_match.
  - by destruct (He what).
  - injection Hh as <-. by constructor.
Qed.
Lemma close_ends s0 w w1 :
  same_config s0 (w_sink w) → m_startingUp (w_sink w) = false →
  stops (calls_close_try (w_sink w)) (closing w) w1 → ended s0 w1.
Proof.
  intros [Hc Hi] Hs Hst. assert (Hw : ended (w_sink w) (closing w)) by by constructor.
  destruct (stops_holds _ _ _ Hw Hst) as [[Hc' Hi'] ? ? ?]. constructor; [split; congruence|done..].
Qed.

(** A message, a timer, or a change of the clock and of the faults to come. *)
Definition quiet_event (e : SinkEvent) : Prop :=
  match e with SWrite _ _ | STimer _ | SEnvironment _ _ => True | _ => False end.
(** None of them brings a silenced sink back. *)
Lemma silenced_stays s0 e w :
  silenced s0 w → quiet_event e →
  ∃ w', handle e w = Ret (tt, w') ∧ w_sink w' = w_sink w ∧ os_files (w_os w') = os_files (w_os w).
Proof.
  intros [[_ _ Hd] Hcl Ht] He. destruct e as [msg rcv|cancelled| |what|t faults]; try done; cbn [handle].
  - destruct (doWrite_dropped msg rcv w (or_introl Hcl)) as ([] & w' & E & ->). by exists w.
  - unfold this, mbind, IO_bind. cbn. rewrite Ht, Hd. destruct cancelled; cbn; [|by exists w].
    unfold onRetryTimer, this, mbind, IO_bind. by exists w.
  - by eexists.
Qed.
Lemma silenced_whole s0 e w w' :
  (∀ what, e ≠ SException what) → silenced s0 w → handle e w = Ret (tt, w') → silenced s0 w' ∨ ended s0 w'.
Proof.
  intros He Hsil Hh. assert (Hcase : e = SClose ∨ quiet_event e) by (destruct e as [| | |what|]; [by right|by right|by left|by destruct (He what)|by right]).
  destruct Hcase as [->|Hq].
  - right. rewrite close_eq in Hh. eapply (close_ends s0 w); [apply Hsil|apply Hsil|by eapply stops_end].
  - left. destruct (silenced_stays s0 e w Hsil Hq) as (w1 & E & Hs & _).
    rewrite Hh in E. injection E as <-. destruct Hsil as [[Hc Hst Hd] Hcl Ht].
    constructor; [constructor|..]; by rewrite Hs.
Qed.

Definition consistent (s0 : Sink) (w : World) : Prop :=
  same_config s0 (w_sink w) ∧ (Inv w ∨ ended s0 w ∨ silenced s0 w).
Lemma silenced_pending s0 w : silenced s0 w → pending_off w.
Proof. intros Hs. apply no_retry_pending, Hs. Qed.

Lemma interrupted_consistent s0 w w1 :
  valid_sink s0 → consistent s0 w → interrupted w w1 → mid s0 w1 ∧ pending_off w1.
Proof.
  intros Hv [Hc Hcase] Hint. destruct Hint as [Hup Hst].
  assert (Hm : mid s0 w ∧ pending_off w).
  { destruct Hcase as [Hi|[He|Hs]].
    - split; [by constructor; [|apply Hi|]|by apply Inv_pending].
    - destruct He. congruence.
    - split; [apply Hs|by eapply silenced_pending]. }
  destruct Hm as [[_ Hs0 _] Hk]. assert (Hm : mid (w_sink w) w) by by apply mid_start.
  enough (mid (w_sink w) w1 ∧ pending_off w1) as [[[? ?] ? ?] ?].
  { split; [|done]. destruct Hc. constructor; [split; congruence|done..]. }
  destruct Hst as [(msg & rcv & Hst)|[_ Hst]]; (split; [by eapply stops_holds|]).
  - destruct (doWrite_pending (w_sink w) msg rcv w) as [Hall _]; [by eapply same_config_valid|done..|by apply Hall].
  - destruct (onRetryTimer_pending (w_sink w) w) as [Hall _]; [done..|by apply Hall].
Qed.
Lemma consistent_step s0 w w' : valid_sink s0 → consistent s0 w → strand_step w w' → consistent s0 w'.
Proof.
  intros Hv Hcons Hstep. pose proof Hcons as [Hc Hcase]. destruct Hstep as [e w w' He Hh|what w w1 w2 Hint Hcau|w w1 Hst].
  - destruct Hcase as [Hi|[Hend|Hsil]].
    + destruct (handle_Inv e w Hi) as ([] & w1 & E & Hi1 & Hc1). rewrite Hh in E. injection E as <-.
      split; [|by left]. destruct Hc, Hc1. split; congruence.
    + pose proof (ended_whole s0 e w w' He Hend Hh) as He'. split; [apply He'|by right; left].
    + destruct (silenced_whole s0 e w w' He Hsil Hh) as [Hs'|He'].
      * split; [apply Hs'|by right; right].
      * split; [apply He'|by right; left].
  - destruct (interrupted_consistent s0 w w1 Hv Hcons Hint) as [Hm Hk].
    destruct (caught_lands s0 what w1 w2 Hv Hm Hk Hcau) as [? [?|?]]; split; auto.
  - assert (Hs : m_startingUp (w_sink w) = false) by (destruct Hcase as [[]|[[]|[[]]]]; done).
    pose proof (close_ends s0 w w1 Hc Hs Hst) as He'. split; [apply He'|by right; left].
Qed.
Lemma consistent_reached w0 w : Inv w0 → rtc strand_step w0 w → consistent (w_sink w0) w.
Proof.
  intros Hi Hr. assert (Hc : consistent (w_sink w0) w0) by (split; [done|by left]).
  pose proof (inv_valid _ Hi) as Hv. remember (w_sink w0) as s0 eqn:Hs0. clear Hs0 Hi.
  induction Hr as [|w1 w2 w3 H1 _ IH]; [done|]. apply IH. by eapply consistent_step.
Qed.

(** C11. No exception leaves a sink inconsistent. Whatever a sink that satisfies its
    invariant is given to do, however the file system fails, and wherever its
    handlers throw - between any two of their calls, those of [failSink] in the
    catch block included - the sink is afterwards as the invariant says (both files
    open or none, the sizes those of the files, a retry pending when it is closed),
    or closed for the shutdown, or silenced: closed with no retry pending. Where a
    message or the retry timer throws, a catch block that completes leaves the sink
    closed with a retry pending; one whose report throws in its turn leaves it
    closed, with a retry pending or silenced; and both leave the files as the calls
    made so far left them. A silenced sink takes no message and does not come back,
    whatever arrives before the shutdown. *)
Theorem exceptions_contained w0 w :
  Inv w0 → rtc strand_step w0 w →
  same_config (w_sink w0) (w_sink w) ∧
  (Inv w ∨ m_shuttingDown (w_sink w) = true ∧ m_closed (w_sink w) = true ∨ silenced (w_sink w0) w) ∧
  (∀ w1 what, interrupted w w1 →
    (∃ w2, failSinkFromHandler what w1 = Ret (tt, w2) ∧ m_closed (w_sink w2) = true ∧
       m_retryTimer (w_sink w2) = true ∧ os_files (w_os w2) = os_files (w_os w1)) ∧
    ∀ w', stops (calls_failSink (w_sink w1) (handler_reason what)) w1 w' →
      ∃ w2, failSinkFromHandler_again w' = Ret (tt, w2) ∧ m_closed (w_sink w2) = true ∧
        os_files (w_os w2) = os_files (w_os w1) ∧
        (Inv w2 ∧ m_retryTimer (w_sink w2) = true ∨ silenced (w_sink w1) w2)) ∧
  (silenced (w_sink w0) w → ∀ e, quiet_event e →
    ∃ w', handle e w = Ret (tt, w') ∧ w_sink w' = w_sink w ∧ os_files (w_os w') = os_files (w_os w)).
Proof.
  intros Hi Hr. pose proof (inv_valid _ Hi) as Hv. pose proof (consistent_reached w0 w Hi Hr) as Hcons.
  split; [apply Hcons|]. split; [|split].
  - destruct (proj2 Hcons) as [?|[[]|?]]; auto.
  - intros w1 what Hint. destruct (interrupted_consistent _ w w1 Hv Hcons Hint) as [Hm Hk]. split.
    + destruct (after_exception (w_sink w0) what w1 Hv Hm) as ([] & w2 & E & _ & _ & ? & ? & Hd & _). by exists w2.
    + intros w' Hst. assert (Hv1 : valid_sink (w_sink w1)) by (eapply same_config_valid; [apply Hm|done]).
      assert (Hm1 : mid (w_sink w1) w1) by (apply mid_start; apply Hm).
      destruct (after_second_exception (w_sink w1) _ w1 w' Hv1 Hm1 Hk Hst) as (w2 & ? & _ & ? & ? & ?). by exists w2.
  - intros Hsil e. by apply (silenced_stays (w_sink w0)).
Qed.

(** Where the report throws before the retry is armed - composing it is the first
    thing [failSink] does - the sink stays closed: no message and no timer brings it
    back, only the next start of the server. *)
Theorem second_exception_silences s0 reason w w1 es :
  mid s0 w → stops (calls_failSink s0 reason) w w1 → m_retryTimer (w_sink w1) = false →
  Forall quiet_event es →
  ∃ w2 w3, failSinkFromHandler_again w1 = Ret (tt, w2) ∧ handle_all es w2 = Ret (tt, w3) ∧
    w_sink w3 = w_sink w2 ∧ m_closed (w_sink w3) = true ∧ os_files (w_os w3) = os_files (w_os w1).
Proof.
  intros Hm Hst Ht He. destruct (stops_holds _ _ _ Hm Hst) as [Hc Hs Hd].
  set (w2 := mkWorld (w_os w1) (set_closed true (w_sink w1))). exists w2.
  enough (Hall : ∀ v, w_sink v = w_sink w2 → ∃ w3, handle_all es v = Ret (tt, w3) ∧ w_sink w3 = w_sink w2 ∧
            os_files (w_os w3) = os_files (w_os v)).
  { destruct (Hall w2 eq_refl) as (w3 & E & Hw & Hf). exists w3. by rewrite Hw. }
  induction He as [|e es He _ IH]; intros v Hv; [by exists v|].
  assert (Hsil : silenced s0 v) by (constructor; [constructor|..]; by rewrite Hv).
  destruct (silenced_stays s0 e v Hsil He) as (v1 & E & Hv1 & Hf1). destruct (IH v1) as (w3 & E3 & ? & ?); [congruence|].
  exists w3. split; [|split; congruence]. cbn [handle_all]. unfold mbind, IO_bind. by rewrite E.
Qed.
End life.

(** ** Two concrete sinks: memory runs out before a record is written, and again
       in the catch block *)

Definition thrown_config : OutputConfig := mkOutput (lit "all") (lit "/l/a.log") [] 0 10 [] [] true.
Definition thrown_start : World := mkWorld (mkOs ∅ [] 7 []) (new_LogFile thrown_config 30000).
Definition thrown_message : SyslogMessage :=
  mkMessage Unknown (lit "hello") (lit "::1") None None None None None None None None None None None (lit "hello") None.
(** The files have been opened, and nothing else done. *)
Definition thrown_at : World :=
  match @openFiles example_env thrown_start with Ret (_, w) => w | _ => thrown_start end.
Definition thrown_end : World :=
  match failSinkFromHandler (lit "bad_alloc") thrown_at with Ret (_, w) => w | _ => thrown_start end.
Definition silent_end : World := mkWorld (w_os thrown_at) (set_closed true (w_sink thrown_at)).

Lemma thrown_stops :
  stops (@calls_doWrite example_env (w_sink thrown_start) thrown_message (lit "T")) thrown_start thrown_at.
Proof. repeat first [left; vm_compute; reflexivity|right; eexists _, _; split; [reflexivity|]]. Qed.
Lemma thrown_interrupted : @interrupted example_env thrown_start thrown_at.
Proof. split; [reflexivity|]. left. eexists _, _. apply thrown_stops. Qed.

(** The report of the catch block throws: the sink is silenced, and stays so. *)
Lemma exceptions_contained_witness :
  silenced (w_sink thrown_start) silent_end ∧
  ∀ e, quiet_event e → ∃ w', @handle example_env e silent_end = Ret (tt, w') ∧ w_sink w' = w_sink silent_end ∧
    os_files (w_os w') = os_files (w_os silent_end).
Proof.
  assert (Hs : silenced (w_sink thrown_start) silent_end) by (by repeat split).
  split; [exact Hs|].
  apply (@exceptions_contained example_env thrown_start silent_end); [| |exact Hs].
  - apply new_LogFile_Inv; vm_compute; discriminate.
  - apply rtc_once. apply (@throws example_env (lit "bad_alloc") thrown_start thrown_at silent_end).
    + apply thrown_interrupted.
    + apply (report_throws (lit "bad_alloc") thrown_at silent_end thrown_at); [by left|reflexivity].
Defined.
(** The catch block completes: it reports, and a retry is pending. *)
Example thrown_run :
  map_to_list (os_files (w_os thrown_end)) = [(lit "/l/a.log", [])] ∧
  m_closed (w_sink thrown_end) = true ∧ m_retryTimer (w_sink thrown_end) = true ∧
  os_log (w_os thrown_end) = [(7, (LError, lit "minilog: unexpected exception in sink handler: bad_alloc; closing sink 'all', retrying every 30 s"))].
Proof. vm_compute. auto. Qed.
