(* ===== verification/Interleaving.v ===== *)
(** * The sinks of a server, interleaved

    Between the start and the end of the server the strands of the sinks, their
    retry timers, the messages that arrive and the shutdown interleave in any
    order over one disk. Here the events are explicit steps of the whole
    [OutputManager], and sinks whose files are apart are shown not to disturb
    each other. *)

From S2P Require Import Prelude Names Parser Platform Config ConfigSpec Escape Backoff FileSystem LogFile LogFileSpec Rotation Lifecycle Sinks OutputManager Isolation.

(** ** The events *)

Inductive ManagerEvent :=
| MDispatch (msg : SyslogMessage)              (* write posts to the sinks that want it *)
| MClose                                       (* close posts to every sink *)
| MStrand (i : nat) (rcv : bytes)              (* the strand of sink [i] runs its next task *)
| MTimer (i : nat) (cancelled : bool)          (* the retry timer of sink [i] completes *)
| MException (i : nat) (what : bytes)          (* a handler of sink [i] threw *)
| MEnvironment (now : Z) (faults : list (option nat)).

Section manager.
Context `{LogEnv}.

Definition on_sink (i : nat) (e : SinkEvent) (m : Manager) : M Manager :=
  match m_sinks m !! i with
  | Some s =>
      '(_, w) ← handle e (mkWorld (m_os m) (ms_file s));
      mret (mkManager (w_os w) (<[i := set_sink (w_sink w) s]> (m_sinks m)))
  | None => mret m
  end.

Definition manager_step (e : ManagerEvent) (m : Manager) : M Manager :=
  match e with
  | MDispatch msg => mret (dispatch msg m)
  | MClose => mret (close_all m)
  | MStrand i rcv => run_strand i rcv m
  | MTimer i cancelled => on_sink i (STimer cancelled) m
  | MException i what => on_sink i (SException what) m
  | MEnvironment t faults =>
      mret (mkManager (mkOs (os_files (m_os m)) faults t (os_log (m_os m))) (m_sinks m))
  end.
Fixpoint manager_run (es : list ManagerEvent) (m : Manager) : M Manager :=
  match es with [] => mret m | e :: es' => m' ← manager_step e m; manager_run es' m' end.

(** ** Sinks apart *)

Definition config_of (s : MSink) : OutputConfig := m_cfg (ms_file s).

(** No file of one section is a file or a generation of another. *)
Definition apart (cfgs : list OutputConfig) : Prop :=
  ∀ i j ci cj, i ≠ j → cfgs !! i = Some ci → cfgs !! j = Some cj → ∀ p, footprint ci p → ¬ footprint cj p.

Record Running (m : Manager) : Prop := {
  rn_inv : Forall (λ s, Inv (mkWorld (m_os m) (ms_file s))) (m_sinks m);
  rn_apart : apart (config_of <$> m_sinks m)
}.

(** What an event changes on the disk, and what it keeps. *)
Definition kept (m m' : Manager) : Prop :=
  config_of <$> m_sinks m' = config_of <$> m_sinks m ∧
  ∀ p, (∀ s, s ∈ m_sinks m → ¬ footprint (config_of s) p) → os_files (m_os m') !! p = os_files (m_os m) !! p.

Lemma kept_refl m : kept m m.
Proof. done. Qed.
Lemma kept_trans m1 m2 m3 : kept m1 m2 → kept m2 m3 → kept m1 m3.
Proof.
  intros [C1 F1] [C2 F2]. split; [congruence|]. intros p Hp. rewrite F2, F1; [done|done|].
  intros s Hs. assert (Hin : config_of s ∈ config_of <$> m_sinks m2) by (by apply list_elem_of_fmap_2).
  rewrite C1 in Hin. apply list_elem_of_fmap in Hin as (s1 & -> & Hs1). by apply Hp.
Qed.

(** Changing only the queues. *)
Lemma Running_queues m m' :
  Running m → m_os m' = m_os m → ms_file <$> m_sinks m' = ms_file <$> m_sinks m → Running m' ∧ kept m m'.
Proof.
  intros [Hi Ha] Ho Hf. assert (Hc : config_of <$> m_sinks m' = config_of <$> m_sinks m).
  { change (m_cfg ∘ ms_file <$> m_sinks m' = m_cfg ∘ ms_file <$> m_sinks m).
    by rewrite !list_fmap_compose, Hf. }
  split; [|split; [done|by rewrite Ho]]. constructor; [|by rewrite Hc]. rewrite Ho.
  change (Forall ((λ f, Inv (mkWorld (m_os m) f)) ∘ ms_file) (m_sinks m')).
  apply Forall_fmap. rewrite Hf. by apply Forall_fmap.
Qed.

Lemma kept_queues_fmap (f : MSink → MSink) (l : list MSink) :
  (∀ s, ms_file (f s) = ms_file s) → ms_file <$> (f <$> l) = ms_file <$> l.
Proof. intros Hf. rewrite <- list_fmap_compose. apply list_fmap_ext. intros i s _. apply Hf. Qed.

(** One handler of one sink leaves the others as they are. *)
Lemma on_sink_running i e m :
  of_sink e → Running m → ∃ m', on_sink i e m = Ret m' ∧ Running m' ∧ kept m m'.
Proof.
  intros He [Hi Ha]. unfold on_sink. destruct (m_sinks m !! i) as [s|] eqn:Hs; [|by exists m].
  rewrite Forall_lookup in Hi.
  destruct (handle_frame e _ _ He (Hi _ _ Hs)) as (os' & s' & -> & Hi' & Hc & Hu).
  cbn [mbind M_bind mret M_ret w_os w_sink]. eexists. split; [done|].
  assert (Hcs : config_of <$> <[i := set_sink s' s]> (m_sinks m) = config_of <$> m_sinks m).
  { rewrite list_fmap_insert. apply list_insert_id. rewrite list_lookup_fmap, Hs. cbn. f_equal. symmetry. exact Hc. }
  split.
  - constructor; cbn [m_os m_sinks]; [|by rewrite Hcs]. apply Forall_lookup. intros j sj Hj.
    destruct (decide (i = j)) as [<-|Hne].
    { rewrite list_lookup_insert_eq in Hj by (by eapply lookup_lt_Some). injection Hj as <-. done. }
    rewrite list_lookup_insert_ne in Hj by done. apply (Inv_files (m_os m)); [by eapply Hi|].
    intros p Hp. apply (un_files _ _ _ Hu). intros Hq.
    eapply (Ha i j (config_of s) (config_of sj)); [done| | |exact Hq|exact Hp]; rewrite list_lookup_fmap;
      [by rewrite Hs|by rewrite Hj].
  - split; [done|]. intros p Hp. apply (un_files _ _ _ Hu), Hp. by eapply list_elem_of_lookup_2.
Qed.

(** A task of a strand is a handler, once it is off the queue. *)
Definition task_event (t : Task) (rcv : bytes) : SinkEvent :=
  match t with TWrite msg => SWrite msg rcv | TClose => SClose end.
Definition pop (i : nat) (m : Manager) : Manager :=
  mkManager (m_os m) (alter (λ s, set_queue (tail (ms_queue s)) s) i (m_sinks m)).

Lemma run_strand_pop i rcv m s t q :
  m_sinks m !! i = Some s → ms_queue s = t :: q →
  run_strand i rcv m = on_sink i (task_event t rcv) (pop i m).
Proof.
  intros Hs Hq. unfold run_strand, on_sink, pop. cbn [m_sinks m_os].
  rewrite list_lookup_alter_eq, Hs, Hq. cbn [fmap option_fmap option_map ms_file set_queue tail].
  replace (run_task t rcv) with (handle (task_event t rcv)) by (by destruct t).
  destruct (handle (task_event t rcv) _) as [[u w]| |]; [|done|done]. cbn. do 2 f_equal.
  apply list_eq. intros j. destruct (decide (i = j)) as [<-|].
  - rewrite !list_lookup_insert_eq; [by rewrite Hq|rewrite length_alter|]; by eapply lookup_lt_Some.
  - by rewrite !list_lookup_insert_ne, list_lookup_alter_ne.
Qed.
Lemma pop_files i m : ms_file <$> m_sinks (pop i m) = ms_file <$> m_sinks m.
Proof.
  apply list_eq. intros j. unfold pop. cbn. rewrite !list_lookup_fmap.
  destruct (decide (i = j)) as [<-|]; [|by rewrite list_lookup_alter_ne].
  rewrite list_lookup_alter_eq. by destruct (m_sinks m !! i).
Qed.

Lemma step_running e m : Running m → ∃ m', manager_step e m = Ret m' ∧ Running m' ∧ kept m m'.
Proof.
  intros Hm. destruct e as [msg| |i rcv|i cancelled|i what|t faults]; cbn [manager_step].
  - eexists. split; [done|]. apply Running_queues; [done..|]. apply kept_queues_fmap.
    intros s. by destruct (accepts msg s).
  - eexists. split; [done|]. apply Running_queues; [done..|]. by apply kept_queues_fmap.
  - destruct (m_sinks m !! i) as [s|] eqn:Hs; [destruct (ms_queue s) as [|t q] eqn:Hq|].
    + exists m. unfold run_strand. by rewrite Hs, Hq.
    + rewrite (run_strand_pop _ _ _ _ _ _ Hs Hq).
      destruct (Running_queues m (pop i m)) as [Hp Hk]; [done|done|apply pop_files|].
      destruct (on_sink_running i (task_event t rcv) (pop i m)) as (m' & ? & ? & ?); [by destruct t|done|].
      exists m'. split_and!; [done|done|by eapply kept_trans].
    + exists m. unfold run_strand. by rewrite Hs.
  - by apply on_sink_running.
  - by apply on_sink_running.
  - eexists. split; [done|]. destruct Hm as [Hi Ha]. split; [|done]. constructor; [|done]. cbn [m_os m_sinks].
    eapply Forall_impl; [exact Hi|]. intros s Hs. by apply (Inv_files (m_os m)).
Qed.

Lemma run_running es m : Running m → ∃ m', manager_run es m = Ret m' ∧ Running m' ∧ kept m m'.
Proof.
  revert m. induction es as [|e es IH]; intros m Hm; cbn [manager_run]; [by exists m|].
  destruct (step_running e m Hm) as (m1 & -> & Hm1 & Hk1). cbn [mbind M_bind].
  destruct (IH m1 Hm1) as (m' & ? & ? & ?). exists m'. split_and!; [done|done|by eapply kept_trans].
Qed.

(** ** From the start *)

Lemma confined_openAtStartup cfg : confined cfg openAtStartup (λ _, True).
Proof.
  apply sliced_confined. unfold openAtStartup.
  eapply sliced_bind; [apply sliced_assign; intros s []; by split|intros _ _].
  eapply sliced_bind; [apply sliced_openFiles|intros _ _].
  eapply sliced_bind; [apply sliced_assign; intros s []; by split|intros _ _].
  eapply sliced_bind; [by apply (sliced_this_any cfg)|intros c _]. by apply sliced_ret.
Qed.

Definition fresh (o : OutputConfig) : MSink :=
  mkMSink (oc_facilities o) (oc_excludedFacilities o) (new_LogFile o kRetryIntervalMs) [].

Lemma open_loop_kept outputs os ok os' sinks :
  open_loop os (fresh <$> outputs) = Ret (ok, os', sinks) →
  config_of <$> sinks = outputs ∧
  ∀ p, (∀ o, o ∈ outputs → ¬ footprint o p) → os_files os' !! p = os_files os !! p.
Proof.
  revert os ok os' sinks. induction outputs as [|o outputs IH]; intros os ok os' sinks; cbn [fmap list_fmap open_loop].
  { intros [= <- <- <-]. done. }
  destruct (confined_openAtStartup o (mkWorld os (new_LogFile o kRetryIntervalMs))) as [Hc _];
    [by split; [|intros []]|].
  change (ms_file (fresh o)) with (new_LogFile o kRetryIntervalMs).
  destruct (openAtStartup _) as [[b [os1 s1]]| |]; cbn [mbind M_bind]; [|done|done].
  destruct (Hc b _ eq_refl) as (_ & [Hcfg _] & Hu). cbn [w_os w_sink] in *.
  destruct (open_loop os1 _) as [[[b2 os2] sinks2]| |] eqn:El; cbn; [|done|done].
  intros [= <- <- <-]. destruct (IH _ _ _ _ El) as [Hm Hf]. split.
  - cbn. unfold config_of at 1. cbn. rewrite Hcfg. by f_equal.
  - intros p Hp. rewrite Hf; [apply (un_files _ _ _ Hu), Hp; by left|]. intros o' Ho'. apply Hp. by right.
Qed.

Lemma open_all_running cfg os m :
  Forall valid_output (cfg_outputs cfg) → apart (cfg_outputs cfg) →
  open_all (new_OutputManager cfg os) = Ret (true, m) →
  Running m ∧ config_of <$> m_sinks m = cfg_outputs cfg ∧
  (∀ p, (∀ o, o ∈ cfg_outputs cfg → ¬ footprint o p) → os_files (m_os m) !! p = os_files os !! p).
Proof.
  intros Hv Ha Ho. destruct (open_all_spec cfg os Hv) as (ok & m2 & Ho2 & _ & Hok & _ & Hs & _).
  rewrite Ho in Ho2. injection Ho2 as <- <-. unfold open_all, new_OutputManager in Ho. cbn [m_os m_sinks] in Ho.
  change (λ o, mkMSink (oc_facilities o) (oc_excludedFacilities o) (new_LogFile o kRetryIntervalMs) []) with fresh in Ho.
  destruct (open_loop os (fresh <$> cfg_outputs cfg)) as [[[ok os'] sinks]| |] eqn:El; cbn in Ho; try done.
  injection Ho as -> <-. destruct (open_loop_kept _ _ _ _ _ El) as [Hc Hf]. cbn [m_os m_sinks] in *.
  split; [|done]. constructor; cbn [m_os m_sinks]; [|by rewrite Hc].
  apply Forall_forall. intros s Hin. rewrite Forall_forall in Hs. specialize (Hs s Hin).
  unfold opened_sink in Hs. symmetry in Hok. rewrite forallb_forall in Hok.
  rewrite Hok in Hs by by apply list_elem_of_In. apply Hs.
Qed.

(** Sinks of one server do not disturb each other: started from a
    configuration whose sections have files of their own, generations included,
    every interleaving of arriving messages, strands, retry timers, exceptions
    and shutdown, whatever calls fail, runs without an exception or an
    out-of-bounds access, keeps the invariant of every sink over the one disk
    they share, and touches no file outside the sections. *)
Theorem sinks_interleave cfg os m es :
  Forall valid_output (cfg_outputs cfg) → apart (cfg_outputs cfg) →
  open_all (new_OutputManager cfg os) = Ret (true, m) →
  ∃ m', manager_run es m = Ret m' ∧
    Forall (λ s, Inv (mkWorld (m_os m') (ms_file s))) (m_sinks m') ∧
    config_of <$> m_sinks m' = cfg_outputs cfg ∧
    ∀ p, (∀ o, o ∈ cfg_outputs cfg → ¬ footprint o p) → os_files (m_os m') !! p = os_files os !! p.
Proof.
  intros Hv Ha Ho. destruct (open_all_running cfg os m Hv Ha Ho) as (Hr & Hc & Hf).
  destruct (run_running es m Hr) as (m' & He & [Hi _] & Hc' & Hf'). exists m'.
  split_and!; [done|done|congruence|]. intros p Hp. rewrite Hf', Hf; [done|done|].
  intros s Hs. apply Hp. rewrite <- Hc. by apply list_elem_of_fmap_2.
Qed.

(** ** A sink among the others *)

(** What sink [i] has to do with an event, in a server of its own. *)
Definition concerns (i : nat) (e : ManagerEvent) : option ManagerEvent :=
  match e with
  | MStrand j rcv => if decide (j = i) then Some (MStrand 0 rcv) else None
  | MTimer j cancelled => if decide (j = i) then Some (MTimer 0 cancelled) else None
  | MException j what => if decide (j = i) then Some (MException 0 what) else None
  | _ => Some e
  end.
Definition fault_free (e : ManagerEvent) : Prop := match e with MEnvironment _ faults => faults = [] | _ => True end.

(** The server [m1] has sink [i] of [m] alone, on a disk that sink cannot tell from [m]'s. *)
Definition same_sink (i : nat) (m m1 : Manager) : Prop :=
  ∃ s, m_sinks m !! i = Some s ∧ m_sinks m1 = [s] ∧ agree (config_of s) (m_os m) (m_os m1) ∧
       os_faults (m_os m) = [].

Lemma on_sink_other i j e m m1 :
  of_sink e → j ≠ i → Running m → same_sink i m m1 →
  ∃ m', on_sink j e m = Ret m' ∧ Running m' ∧ same_sink i m' m1.
Proof.
  intros He Hne Hm (s & Hs & H1 & Hag & Hn). destruct (on_sink_running j e m He Hm) as (m' & Ho & Hm' & _).
  exists m'. split_and!; [done|done|]. unfold on_sink in Ho. destruct Hm as [Hi Ha].
  destruct (m_sinks m !! j) as [sj|] eqn:Hj; [|injection Ho as <-; by exists s].
  rewrite Forall_lookup in Hi.
  destruct (handle_frame e _ _ He (Hi _ _ Hj)) as (os' & s' & Hh & _ & _ & Hu).
  rewrite Hh in Ho. injection Ho as <-. exists s. cbn [m_os m_sinks w_os w_sink].
  split_and!; [by rewrite list_lookup_insert_ne|done| |by apply (un_faults _ _ _ Hu)].
  destruct Hag as [Hf Ht Hp]. constructor.
  - rewrite <- Hf, Hn. by apply (un_faults _ _ _ Hu).
  - by rewrite (un_now _ _ _ Hu).
  - intros p Hfp. rewrite (un_files _ _ _ Hu); [by apply Hp|]. intros Hq.
    eapply (Ha j i (config_of sj) (config_of s)); [done| | |exact Hq|exact Hfp]; rewrite list_lookup_fmap;
      [by rewrite Hj|by rewrite Hs].
Qed.

Lemma on_sink_same i e m m1 :
  of_sink e → Running m → same_sink i m m1 →
  ∃ m' m1', on_sink i e m = Ret m' ∧ on_sink 0 e m1 = Ret m1' ∧ Running m' ∧ same_sink i m' m1'.
Proof.
  intros He Hm (s & Hs & H1 & Hag & Hn). destruct (on_sink_running i e m He Hm) as (m' & Ho & Hm' & _).
  exists m'. unfold on_sink in *. rewrite Hs in Ho |- *. rewrite H1. cbn [lookup list_lookup]. destruct Hm as [Hi Ha].
  rewrite Forall_lookup in Hi.
  destruct (handle_frame e _ _ He (Hi _ _ Hs)) as (os' & s' & Hh & _ & Hc & Hu).
  destruct (handle_local e _ _ _ _ _ He (Hi _ _ Hs) Hag Hh) as (os2' & Hh2 & Hag').
  rewrite Hh in Ho |- *. injection Ho as <-. rewrite Hh2. cbn [mbind M_bind mret M_ret w_os w_sink].
  eexists. split; [done|]. split; [done|]. split; [done|]. exists (set_sink s' s). cbn [m_os m_sinks].
  split_and!; [apply list_lookup_insert_eq; by eapply lookup_lt_Some|done| |by apply (un_faults _ _ _ Hu)].
  unfold config_of in *. cbn. by rewrite Hc.
Qed.

(** An event that only touches queues. *)
Lemma same_sink_fmap i (f : MSink → MSink) m m1 :
  (∀ s, ms_file (f s) = ms_file s) → same_sink i m m1 →
  same_sink i (mkManager (m_os m) (f <$> m_sinks m)) (mkManager (m_os m1) (f <$> m_sinks m1)).
Proof.
  intros Hf (s & Hs & H1 & Hag & Hn). exists (f s). cbn [m_os m_sinks].
  split_and!; [by rewrite list_lookup_fmap, Hs|by rewrite H1| |done]. unfold config_of in *. by rewrite Hf.
Qed.
Lemma same_sink_pop_other i j m m1 : j ≠ i → same_sink i m m1 → same_sink i (pop j m) m1.
Proof.
  intros Hne (s & Hs & H1 & Hag & Hn). exists s. unfold pop. cbn [m_os m_sinks].
  by rewrite list_lookup_alter_ne.
Qed.
Lemma same_sink_pop i m m1 : same_sink i m m1 → same_sink i (pop i m) (pop 0 m1).
Proof.
  intros (s & Hs & H1 & Hag & Hn). exists (set_queue (tail (ms_queue s)) s). unfold pop. cbn [m_os m_sinks].
  rewrite list_lookup_alter_eq, Hs, H1. done.
Qed.

Lemma run_strand_empty i rcv m :
  (∀ s, m_sinks m !! i = Some s → ms_queue s = []) → run_strand i rcv m = Ret m.
Proof. intros Hq. unfold run_strand. destruct (m_sinks m !! i) as [s|]; [|done]. by rewrite (Hq s eq_refl). Qed.

Lemma pop_running i m : Running m → Running (pop i m).
Proof. intros Hm. by destruct (Running_queues m (pop i m) Hm eq_refl (pop_files i m)). Qed.

(** The handler of sink [j], on both servers. *)
Lemma on_sink_both i j e m m1 :
  of_sink e → Running m → same_sink i m m1 →
  ∃ m' m1', on_sink j e m = Ret m' ∧ (if decide (j = i) then on_sink 0 e m1 else mret m1) = Ret m1' ∧
            Running m' ∧ same_sink i m' m1'.
Proof.
  intros He Hm Hs. destruct (decide (j = i)) as [->|Hne]; [by apply on_sink_same|].
  destruct (on_sink_other i j e m m1) as (m' & ? & ? & ?); [done..|]. by exists m', m1.
Qed.

Lemma run_strand_both i j rcv m m1 :
  Running m → same_sink i m m1 →
  ∃ m' m1', run_strand j rcv m = Ret m' ∧ (if decide (j = i) then run_strand 0 rcv m1 else mret m1) = Ret m1' ∧
            Running m' ∧ same_sink i m' m1'.
Proof.
  intros Hm Hs. destruct (m_sinks m !! j) as [sj|] eqn:Hj; [destruct (ms_queue sj) as [|t q] eqn:Hq|].
  - exists m, m1. split; [apply run_strand_empty; intros s' Hs'; congruence|]. split; [|done].
    destruct (decide (j = i)) as [->|]; [|done]. destruct Hs as (s & Hl & H1 & _).
    apply run_strand_empty. rewrite H1. intros s' [= <-]. congruence.
  - rewrite (run_strand_pop _ _ _ _ _ _ Hj Hq).
    destruct (decide (j = i)) as [->|Hne].
    + pose proof Hs as (s & Hl & H1 & _). assert (s = sj) as -> by congruence.
      rewrite (run_strand_pop 0 rcv m1 sj t q); [|by rewrite H1|done].
      apply on_sink_same; [by destruct t|by apply pop_running|by apply same_sink_pop].
    + destruct (on_sink_other i j (task_event t rcv) (pop j m) m1) as (m2 & H2 & Hr & Hss);
        [by destruct t|done|by apply pop_running|by apply same_sink_pop_other|]. by exists m2, m1.
  - exists m, m1. split; [apply run_strand_empty; intros s' Hs'; congruence|]. split; [|done].
    destruct (decide (j = i)) as [->|]; [|done]. destruct Hs as (s & Hl & _). congruence.
Qed.

Lemma run_option (P : Prop) (d : {P} + {¬ P}) e m :
  manager_run (option_list (if d then Some e else None)) m = (if d then manager_step e m else mret m).
Proof.
  destruct d; [|done]. change (option_list (Some e)) with [e]. cbn [manager_run]. by destruct (manager_step e m).
Qed.

Lemma step_alone i e m m1 :
  fault_free e → Running m → same_sink i m m1 →
  ∃ m' m1', manager_step e m = Ret m' ∧ manager_run (option_list (concerns i e)) m1 = Ret m1' ∧
            Running m' ∧ same_sink i m' m1'.
Proof.
  intros He Hm Hs. destruct e as [msg| |j rcv|j cancelled|j what|t faults]; cbn [concerns manager_step].
  - destruct (step_running (MDispatch msg) m Hm) as (m' & [= <-] & Hm' & _). eexists _, _. do 3 (split; [done|]).
    apply (same_sink_fmap i (λ s, if accepts msg s then post (TWrite msg) s else s)); [|done].
    intros s. by destruct (accepts msg s).
  - destruct (step_running MClose m Hm) as (m' & [= <-] & Hm' & _). eexists _, _. do 3 (split; [done|]).
    by apply (same_sink_fmap i (post TClose)).
  - destruct (run_strand_both i j rcv m m1 Hm Hs) as (m' & m1' & ? & Hb & ?). exists m', m1'.
    split; [done|]. split; [|done]. by rewrite run_option.
  - destruct (on_sink_both i j (STimer cancelled) m m1 I Hm Hs) as (m' & m1' & ? & Hb & ?). exists m', m1'.
    split; [done|]. split; [|done]. by rewrite run_option.
  - destruct (on_sink_both i j (SException what) m m1 I Hm Hs) as (m' & m1' & ? & Hb & ?). exists m', m1'.
    split; [done|]. split; [|done]. by rewrite run_option.
  - destruct (step_running (MEnvironment t faults) m Hm) as (m' & [= <-] & Hm' & _). cbn in He. subst faults.
    eexists _, _. do 3 (split; [done|]). destruct Hs as (s & Hl & H1 & [Hf Ht Hp] & Hn). exists s. cbn.
    split_and!; [done|done| |done]. by constructor.
Qed.

Lemma manager_run_app es es' m m' :
  manager_run es m = Ret m' → manager_run (es ++ es') m = manager_run es' m'.
Proof.
  revert m. induction es as [|e es IH]; intros m; cbn [manager_run app]; [by intros [= ->]|].
  destruct (manager_step e m) as [m1| |]; cbn [mbind M_bind]; [apply IH|done|done].
Qed.

Lemma run_alone i es m m1 :
  Forall fault_free es → Running m → same_sink i m m1 →
  ∃ m' m1', manager_run es m = Ret m' ∧ manager_run (omap (concerns i) es) m1 = Ret m1' ∧ same_sink i m' m1'.
Proof.
  intros He. revert m m1. induction He as [|e es He _ IH]; intros m m1 Hm Hs; [by exists m, m1|].
  destruct (step_alone i e m m1 He Hm Hs) as (m2 & m3 & H2 & H3 & Hm2 & Hs2).
  destruct (IH m2 m3 Hm2 Hs2) as (m' & m1' & H4 & H5 & Hs'). exists m', m1'. split; [|split; [|done]].
  - cbn [manager_run]. by rewrite H2.
  - cbn [omap list_omap]. change (omap (concerns i) (e :: es)) with
      (match concerns i e with Some y => y :: omap (concerns i) es | None => omap (concerns i) es end).
    rewrite <- H5, <- (manager_run_app _ (omap (concerns i) es) _ _ H3). by destruct (concerns i e).
Qed.

(** A sink among others does what it would do alone: whatever the other
    sinks write, rotate and lose meanwhile, when no call fails the sink goes
    through the same states, and its active files and generations end with the
    same bytes, as in a server that has this sink only and is given the same
    messages and the same steps of this sink's strand and timer. *)
Theorem sink_alone i es m s :
  Running m → os_faults (m_os m) = [] → Forall fault_free es → m_sinks m !! i = Some s →
  ∃ m' m1' s', manager_run es m = Ret m' ∧
    manager_run (omap (concerns i) es) (mkManager (m_os m) [s]) = Ret m1' ∧
    m_sinks m' !! i = Some s' ∧ m_sinks m1' = [s'] ∧
    ∀ p, footprint (config_of s') p → os_files (m_os m') !! p = os_files (m_os m1') !! p.
Proof.
  intros Hm Hn He Hs. destruct (run_alone i es m (mkManager (m_os m) [s]) He Hm) as (m' & m1' & H1 & H2 & Hss).
  { exists s. split_and!; [done|done|apply agree_refl|done]. }
  destruct Hss as (s' & ? & ? & [_ _ Hp] & _). by exists m', m1', s'.
Qed.
End manager.

(** ** Sections in directories of their own *)

Definition no_slash (s : bytes) : Prop := Forall (λ c, c ≠ "/"%byte) s.

Lemma split_path_name p : no_slash (split_path p).2.
Proof.
  induction p as [|c p IH]; [constructor|]. cbn. destruct (split_path p) as [d n]. cbn in IH.
  destruct (decide (c = "/"%byte)); [done|]. destruct d; [by constructor|done].
Qed.
Lemma split_path_plain n : no_slash n → split_path n = ([], n).
Proof.
  induction 1 as [|c n Hc Hn IH]; [done|]. cbn. rewrite IH. by rewrite decide_False.
Qed.
Lemma split_path_dir p n : no_slash n → split_path ((split_path p).1 ++ n) = ((split_path p).1, n).
Proof.
  intros Hn. induction p as [|c p IH]; [by apply split_path_plain|]. cbn.
  destruct (split_path p) as [d nm]. cbn [fst] in *. destruct (decide (c = "/"%byte)) as [->|Hc].
  - cbn. by rewrite IH.
  - destruct d as [|b d]; [by apply split_path_plain|]. cbn [fst app] in *.
    change (c :: b :: d ++ n) with (c :: ((b :: d) ++ n)). cbn [split_path]. 
    change (b :: d ++ n) with ((b :: d) ++ n) in IH. rewrite IH. by rewrite decide_False.
Qed.

Definition directory (p : bytes) : bytes := (split_path p).1.

Lemma directory_rotated base n : directory (rotatedPath base n) = directory base.
Proof.
  unfold directory, rotatedPath. pose proof (split_path_name base) as Hn.
  pose proof (split_path_dir base) as Hd. destruct (split_path base) as [d nm]. cbn [fst snd] in *.
  rewrite <- (split_name_app nm) in Hn. destruct (split_name nm) as [st e]. cbn [fst snd] in Hn.
  apply Forall_app in Hn as [H1 H2]. rewrite Hd; [done|]. unfold no_slash. rewrite !Forall_app.
  split_and!; [done|by repeat constructor| |done].
  destruct (to_string_nat_spec (Z.of_nat n)) as (_ & Hdig & _); [lia|].
  eapply Forall_impl; [exact Hdig|]. by intros c Hc ->.
Qed.

(** Enough for sections to be apart: no directory is used by two of them. *)
Definition own_directories (cfgs : list OutputConfig) : Prop :=
  ∀ i j ci cj wh wh', i ≠ j → cfgs !! i = Some ci → cfgs !! j = Some cj →
    sv_empty (file_in wh ci) = false → sv_empty (file_in wh' cj) = false →
    directory (file_in wh ci) ≠ directory (file_in wh' cj).

Lemma own_directories_apart cfgs : own_directories cfgs → apart cfgs.
Proof.
  intros Hd i j ci cj Hne Hi Hj p (wh & He & Hp) (wh' & He' & Hp').
  apply (Hd i j ci cj wh wh'); try done.
  assert (Hp1 : directory p = directory (file_in wh ci)) by (destruct Hp as [->|[n ->]]; [done|apply directory_rotated]).
  assert (Hp2 : directory p = directory (file_in wh' cj)) by (destruct Hp' as [->|[n ->]]; [done|apply directory_rotated]).
  congruence.
Qed.

(** ** Two concrete sinks *)

Definition config1 : OutputConfig := mkOutput (lit "auth") (lit "/m/b.log") [] 100 0 [4] [] true.
Definition two_outputs : Config := mkConfig (lit "127.0.0.1") 514 2 1000 [config0; config1] defaultForwarding.

Lemma two_outputs_valid : Forall valid_output (cfg_outputs two_outputs).
Proof. repeat constructor; vm_compute; congruence. Qed.
Lemma two_outputs_apart : apart (cfg_outputs two_outputs).
Proof.
  apply own_directories_apart. intros i j ci cj wh wh' Hne Hi Hj _ _.
  destruct i as [|[|i]], j as [|[|j]]; try done; cbn in Hi, Hj; injection Hi as <-; injection Hj as <-;
    destruct wh, wh'; by vm_compute.
Qed.

Definition disk1 : Os := mkOs (list_to_map [(lit "/l/a.log", lit "0123456789"); (lit "/etc/x", lit "y")]) [] 0 [].
Definition started1 : Manager :=
  match @open_all example_env (new_OutputManager two_outputs disk1) with Ret (_, m) => m | _ => mkManager disk1 [] end.
Lemma started1_eq : @open_all example_env (new_OutputManager two_outputs disk1) = Ret (true, started1).
Proof. vm_compute. reflexivity. Qed.

(** Two messages for both sinks, a failure of the first, its recovery, and a stop. *)
Definition interleaved1 (faults : list (option nat)) : list ManagerEvent :=
  [MDispatch message0; MStrand 1 (lit "T"); MEnvironment 5 faults; MDispatch message0; MStrand 0 (lit "U");
   MStrand 1 (lit "V"); MEnvironment 9 []; MTimer 0 false; MStrand 0 (lit "W"); MClose; MStrand 0 []; MStrand 1 []].

Example interleaved1_run :
  match @manager_run example_env (interleaved1 [Some 3%nat]) started1 with
  | Ret m =>
      os_files (m_os m) !! lit "/etc/x" = Some (lit "y") ∧
      os_files (m_os m) !! lit "/m/b.log" = Some (lit "<34>hi\n" ++ [x0a] ++ lit "<34>hi\n" ++ [x0a]) ∧
      (λ s, m_closed (ms_file s)) <$> m_sinks m = [true; true]
  | _ => False
  end.
Proof. vm_compute. auto. Qed.

Lemma sinks_interleave_witness :
  ∃ m', @manager_run example_env (interleaved1 [Some 3%nat]) started1 = Ret m' ∧
    Forall (λ s, Inv (mkWorld (m_os m') (ms_file s))) (m_sinks m') ∧
    config_of <$> m_sinks m' = cfg_outputs two_outputs ∧
    ∀ p, (∀ o, o ∈ cfg_outputs two_outputs → ¬ footprint o p) → os_files (m_os m') !! p = os_files disk1 !! p.
Proof.
  apply (@sinks_interleave example_env two_outputs disk1 started1);
    [apply two_outputs_valid|apply two_outputs_apart|apply started1_eq].
Defined.

Lemma sink_alone_witness :
  ∃ s m' m1' s', m_sinks started1 !! 0%nat = Some s ∧
    @manager_run example_env (interleaved1 []) started1 = Ret m' ∧
    @manager_run example_env (omap (concerns 0) (interleaved1 [])) (mkManager (m_os started1) [s]) = Ret m1' ∧
    m_sinks m' !! 0%nat = Some s' ∧ m_sinks m1' = [s'] ∧
    ∀ p, footprint (config_of s') p → os_files (m_os m') !! p = os_files (m_os m1') !! p.
Proof.
  eexists. destruct (@sink_alone example_env 0 (interleaved1 []) started1 (default (fresh config0) (m_sinks started1 !! 0%nat)))
    as (m' & m1' & s' & H).
  - by apply (@open_all_running example_env two_outputs disk1 started1 two_outputs_valid two_outputs_apart started1_eq).
  - by vm_compute.
  - by repeat constructor.
  - by vm_compute.
  - exists m', m1', s'. split; [by vm_compute|exact H].
Defined.

(** ** Sections that are not apart *)

(** The loader compares paths as they are written, so a file that is another's
    first generation is accepted. *)
Definition colliding_ini : ini :=
  let kv (k v : string) := (lit k, Ini (lit v) []) in
  Ini [] [ (lit "server", Ini [] [kv "host" "127.0.0.1"; kv "udp_port" "5514"]);
           (lit "output.main", Ini [] [kv "text_file" "/l/a.log"; kv "max_size" "10B"]);
           (lit "output.other", Ini [] [kv "text_file" "/l/a.1.log"]) ].
Definition colliding_cfg : Config :=
  match load_linux (inr colliding_ini) with Ret cfg => cfg | _ => defaultConfig end.
Definition colliding_start : Manager :=
  mkManager (mkOs (list_to_map [(lit "/l/a.log", lit "0123456789"); (lit "/l/a.1.log", lit "kept")]) [] 0 [])
    (fresh <$> cfg_outputs colliding_cfg).

(** With that configuration one message for the first section puts its own old
    records in the log of the second, whose records become a generation of the
    first. *)
Theorem generations_collide :
  load_linux (inr colliding_ini) = Ret colliding_cfg ∧ ¬ apart (cfg_outputs colliding_cfg) ∧
  match @manager_run example_env [MDispatch message0; MStrand 0 (lit "T")] colliding_start with
  | Ret m => os_files (m_os m) !! lit "/l/a.1.log" = Some (lit "0123456789") ∧
             os_files (m_os m) !! lit "/l/a.2.log" = Some (lit "kept")
  | _ => False
  end.
Proof.
  split; [by vm_compute|]. split.
  - intros Ha. set (a := default config0 (cfg_outputs colliding_cfg !! 0%nat)).
    set (b := default config0 (cfg_outputs colliding_cfg !! 1%nat)).
    apply (Ha 0%nat 1%nat a b ltac:(done) ltac:(by vm_compute) ltac:(by vm_compute) (lit "/l/a.1.log")); exists Text.
    + split; [by vm_compute|]. right. exists 1%nat. by vm_compute.
    + split; [by vm_compute|]. left. by vm_compute.
  - vm_compute. done.
Qed.
