(* ===== verification/Threads.v ===== *)
(** * Handlers on different threads

    The strands of different sinks run on different threads, and their system
    calls interleave. [Interleaving] and [Process] take a handler as one step.
    Here a handler is cut into its calls, the calls of all handlers interleave in
    any order, and the end is shown to be that of the handlers run one after
    another: nothing is lost by taking a handler as one step. *)

From S2P Require Import Prelude Names Parser Platform Config ConfigSpec Escape Backoff FileSystem LogFile LogFileSpec Rotation Lifecycle Sinks OutputManager Isolation Interleaving.

(** ** Threads *)

(** What the threads share, and what each has of its own: the rest of its handler,
    its sink, and what its calls will meet. *)
Record Shared := mkShared { sh_files : gmap bytes bytes; sh_log : list (Z * LogLine) }.
Record Thread := mkThread { th_left : IO unit; th_sink : Sink; th_faults : list (option nat); th_now : Z }.
Definition th_cfg (t : Thread) : OutputConfig := m_cfg (th_sink t).

Definition world (sh : Shared) (t : Thread) : World :=
  mkWorld (mkOs (sh_files sh) (th_faults t) (th_now t) (sh_log sh)) (th_sink t).
Definition shared_of (w : World) : Shared := mkShared (os_files (w_os w)) (os_log (w_os w)).
Definition back (w : World) (left : IO unit) : Thread := mkThread left (w_sink w) (os_faults (w_os w)) (os_now (w_os w)).
Definition State : Type := Shared * list Thread.

Definition finished (t : Thread) : Prop := ∀ w, th_left t w = Ret (tt, w).

Section threads.
Context `{LogEnv}.
Abbreviation made_of_calls cfg := (sliced cfg (λ _, True)).

(** One thread makes the next call of its handler; [what] says what counts as one. *)
Inductive thread_step (what : ∀ A : Type, IO A → Prop) : State → State → Prop :=
| next_call sh ts i t (B : Type) (op : IO B) (P : B → Prop) k b w :
    ts !! i = Some t → what B op → confined (th_cfg t) op P → (∀ w', th_left t w' = (op ≫= k) w') →
    (∀ b', P b' → made_of_calls (th_cfg t) (k b')) → op (world sh t) = Ret (b, w) →
    thread_step what (sh, ts) (shared_of w, <[i := back w (k b)]> ts).
Definition one_call : ∀ A : Type, IO A → Prop := @single_call.
Definition any_part : ∀ A : Type, IO A → Prop := λ _ _, True.

Lemma world_back w left : world (shared_of w) (back w left) = w.
Proof. by destruct w as [[] ?]. Qed.

Lemma step_part what st st' : thread_step what st st' → thread_step any_part st st'.
Proof. intros []. by eapply next_call. Qed.
Lemma steps_part what st st' : rtc (thread_step what) st st' → rtc (thread_step any_part) st st'.
Proof. intros Hs. eapply rtc_subrel; [|exact Hs]. intros ? ?. apply step_part. Qed.

(** ** A thread does not notice the others *)

(** Alone on the first disk, [t0] would have got to [V]: the rest of its handler,
    its sink and its files are the same. *)
Definition as_alone (sh0 : Shared) (t0 : Thread) (sh : Shared) (t : Thread) : Prop :=
  th_cfg t = th_cfg t0 ∧ mine (th_cfg t) (th_sink t) ∧ made_of_calls (th_cfg t) (th_left t) ∧
  ∃ V, th_left t0 (world sh0 t0) = th_left t V ∧ w_sink V = th_sink t ∧ agree (th_cfg t) (w_os V) (w_os (world sh t)).
Definition all_alone (st0 st : State) : Prop :=
  length st0.2 = length st.2 ∧
  (∀ i t0 t, st0.2 !! i = Some t0 → st.2 !! i = Some t → as_alone st0.1 t0 st.1 t) ∧
  ∀ p, (∀ t, t ∈ st0.2 → ¬ footprint (th_cfg t) p) → sh_files st.1 !! p = sh_files st0.1 !! p.

(** Threads of sinks whose files are apart, whose handlers are made of calls. *)
Record Ready (st : State) : Prop := {
  rd_apart : apart (th_cfg <$> st.2);
  rd_mine : Forall (λ t, mine (th_cfg t) (th_sink t)) st.2;
  rd_calls : Forall (λ t, made_of_calls (th_cfg t) (th_left t)) st.2
}.

Lemma ready_alone st : Ready st → all_alone st st.
Proof.
  intros [_ Hm Hc]. split; [done|]. split; [|done]. intros i t0 t H0 Ht. rewrite H0 in Ht. injection Ht as ->.
  rewrite Forall_lookup in Hm, Hc. split; [done|]. split; [by eapply Hm|]. split; [by eapply Hc|]. by exists (world st.1 t).
Qed.

(** The thread that moves. *)
Lemma moved_alone sh0 t0 sh t (B : Type) (op : IO B) P k b w :
  as_alone sh0 t0 sh t → confined (th_cfg t) op P → (∀ w', th_left t w' = (op ≫= k) w') →
  (∀ b', P b' → made_of_calls (th_cfg t) (k b')) → op (world sh t) = Ret (b, w) →
  as_alone sh0 t0 (shared_of w) (back w (k b)) ∧ untouched (th_cfg t) (w_os (world sh t)) (w_os w).
Proof.
  intros (Hc & Hm & _ & V & HV & Hs & Hag) Hop Hl Hk Hw.
  destruct (Hop (world sh t) Hm) as [Hout _]. destruct (Hout b w Hw) as (HP & Hm' & Hu). split; [|done].
  assert (Hcw : m_cfg (w_sink w) = th_cfg t) by apply Hm'.
  assert (Hmv : mine (th_cfg t) (w_sink V)) by by rewrite Hs.
  destruct (Hop V Hmv) as [_ Hsame]. specialize (Hsame _ Hag). rewrite Hs in Hsame.
  change (mkWorld (w_os (world sh t)) (th_sink t)) with (world sh t) in Hsame. rewrite Hw in Hsame.
  destruct (op V) as [[b' V']| |] eqn:HV'; cbn in Hsame; try done. destruct Hsame as (-> & Hs' & Hag').
  unfold as_alone, th_cfg in *. cbn [back th_sink th_left]. rewrite Hcw. split_and!; [done|done|by apply Hk|].
  exists V'. split; [|by rewrite world_back]. rewrite HV, Hl. unfold mbind, IO_bind. by rewrite HV'.
Qed.
(** The threads that do not. *)
Lemma others_alone sh0 t0 sh t sh' cfg :
  (∀ p, footprint (th_cfg t) p → ¬ footprint cfg p) →
  (∀ p, ¬ footprint cfg p → sh_files sh' !! p = sh_files sh !! p) →
  as_alone sh0 t0 sh t → as_alone sh0 t0 sh' t.
Proof.
  intros Hd Hu (Hc & Hm & Hcl & V & HV & Hs & [Hf Hn Hp]). split_and!; [done..|]. exists V. split_and!; [done|done|].
  constructor; [done|done|]. intros p Hfp. rewrite (Hp p Hfp). symmetry. apply Hu. by apply Hd.
Qed.

Lemma step_as_alone st0 st st' : Ready st0 → all_alone st0 st → thread_step any_part st st' → all_alone st0 st'.
Proof.
  intros [Ha _ _] (Hlen & Hall & Hout) Hs. destruct Hs as [sh ts i t B op P k b w Hi _ Hop Hl Hk Hw]. cbn [fst snd] in *.
  destruct (lookup_lt_is_Some_2 st0.2 i) as [t0 H0]; [rewrite Hlen; by eapply lookup_lt_Some|].
  destruct (moved_alone st0.1 t0 sh t B op P k b w (Hall i t0 t H0 Hi) Hop Hl Hk Hw) as [Hmv Hu].
  assert (Hcfg : ∀ j s0 s, st0.2 !! j = Some s0 → ts !! j = Some s → th_cfg s = th_cfg s0) by (intros j s0 s ? ?; by apply (Hall j)).
  split; [by rewrite Hlen; cbn; rewrite length_insert|]. split.
  - intros j s0 s Hs0 Hsj. cbn [snd] in Hsj. destruct (decide (i = j)) as [<-|Hne].
    + rewrite list_lookup_insert_eq in Hsj by (by eapply lookup_lt_Some). injection Hsj as <-. rewrite H0 in Hs0. by injection Hs0 as <-.
    + rewrite list_lookup_insert_ne in Hsj by done. apply (others_alone _ _ sh _ _ (th_cfg t)); [| |by apply (Hall j)].
      * intros p Hp Hpi. rewrite (Hcfg j s0 s Hs0 Hsj) in Hp. rewrite (Hcfg i t0 t H0 Hi) in Hpi.
        eapply (Ha i j); [done| | |exact Hpi|exact Hp]; rewrite list_lookup_fmap; [by rewrite H0|by rewrite Hs0].
      * intros p Hp. by apply (un_files _ _ _ Hu).
  - intros p Hp. rewrite <- (Hout p Hp). apply (un_files _ _ _ Hu). rewrite (Hcfg i t0 t H0 Hi).
    apply Hp. by eapply list_elem_of_lookup_2.
Qed.
Lemma steps_as_alone st0 st st' : Ready st0 → all_alone st0 st → rtc (thread_step any_part) st st' → all_alone st0 st'.
Proof. intros Hr Ha Hs. revert Ha. induction Hs as [|st st1 st' H1 _ IH]; intros Ha; [done|]. apply IH. by eapply step_as_alone. Qed.

(** ** All schedules end alike *)

(** What a thread ends with. *)
Definition leaves (t : Thread) : Sink * list (option nat) * Z := (th_sink t, th_faults t, th_now t).

Lemma ends_agree st0 st1 st2 :
  all_alone st0 st1 → all_alone st0 st2 → Forall finished st1.2 → Forall finished st2.2 →
  sh_files st1.1 = sh_files st2.1 ∧ leaves <$> st1.2 = leaves <$> st2.2.
Proof.
  intros (Hl1 & Ha1 & Ho1) (Hl2 & Ha2 & Ho2) Hf1 Hf2. rewrite Forall_lookup in Hf1, Hf2.
  assert (Hend : ∀ i t0 t1 t2, st0.2 !! i = Some t0 → st1.2 !! i = Some t1 → st2.2 !! i = Some t2 →
    leaves t1 = leaves t2 ∧ ∀ p, footprint (th_cfg t0) p → sh_files st1.1 !! p = sh_files st2.1 !! p).
  { intros i t0 t1 t2 H0 H1 H2. destruct (Ha1 i t0 t1 H0 H1) as (Hc1 & _ & _ & V1 & HV1 & Hs1 & [Hg1 Hn1 Hp1]).
    destruct (Ha2 i t0 t2 H0 H2) as (Hc2 & _ & _ & V2 & HV2 & Hs2 & [Hg2 Hn2 Hp2]).
    rewrite (Hf1 i t1 H1) in HV1. rewrite (Hf2 i t2 H2), HV1 in HV2. injection HV2 as <-. split.
    - unfold leaves. cbn in *. congruence.
    - intros p Hp. transitivity (os_files (w_os V1) !! p); [symmetry; apply (Hp1 p)|apply (Hp2 p)]; congruence. }
  split.
  - apply map_eq. intros p. apply dec_stable. intros Hne.
    assert (Hnone : ∀ t, t ∈ st0.2 → ¬ footprint (th_cfg t) p).
    { intros t (i & Hi)%list_elem_of_lookup Hfp.
      destruct (lookup_lt_is_Some_2 st1.2 i) as [t1 H1]; [rewrite <- Hl1; by eapply lookup_lt_Some|].
      destruct (lookup_lt_is_Some_2 st2.2 i) as [t2 H2]; [rewrite <- Hl2; by eapply lookup_lt_Some|].
      destruct (Hend i t t1 t2 Hi H1 H2) as [_ Hp]. by apply Hne, Hp. }
    apply Hne. by rewrite (Ho1 p Hnone), (Ho2 p Hnone).
  - apply list_eq. intros i. rewrite !list_lookup_fmap. destruct (st0.2 !! i) as [t0|] eqn:H0.
    + destruct (lookup_lt_is_Some_2 st1.2 i) as [t1 H1]; [rewrite <- Hl1; by eapply lookup_lt_Some|].
      destruct (lookup_lt_is_Some_2 st2.2 i) as [t2 H2]; [rewrite <- Hl2; by eapply lookup_lt_Some|].
      rewrite H1, H2. cbn. f_equal. by eapply Hend.
    + apply lookup_ge_None in H0. rewrite !(proj2 (lookup_ge_None _ _)); [done|rewrite <- Hl2; lia|rewrite <- Hl1; lia].
Qed.

(** ** Handlers finish *)

Lemma single_call_returns {A : Type} (op : IO A) w : single_call op → ∃ a w', op w = Ret (a, w').
Proof.
  intros Hop. destruct Hop; unfold log, now, sys, this, assign; try by eexists _, _.
  all: match goal with |- context [let '(_, _) := ?c in _] => destruct c end; by eexists _, _.
Qed.

Lemma thread_completes cfg m i sh ts t :
  made_of_calls cfg m → ts !! i = Some t → th_left t = m → th_cfg t = cfg → mine cfg (th_sink t) →
  ∃ sh' t', rtc (thread_step one_call) (sh, ts) (sh', <[i := t']> ts) ∧ finished t'.
Proof.
  intros Hm. revert sh ts t. induction Hm as [m [] _ Hd|B op P k m Hop Hc Hd Hk IH]; intros sh ts t Hi Hl Hcfg Hmine.
  - exists sh, t. rewrite list_insert_id by done. split; [done|]. intros w. by rewrite Hl.
  - destruct (single_call_returns op (world sh t) Hop) as (b & w & Hw).
    destruct (Hc (world sh t) Hmine) as [Hout _]. destruct (Hout b w Hw) as (HP & Hm' & _).
    assert (Hs : thread_step one_call (sh, ts) (shared_of w, <[i := back w (k b)]> ts))
      by (eapply next_call; [done|exact Hop|by rewrite Hcfg|by rewrite Hl|by rewrite Hcfg|done]).
    destruct (IH b HP (shared_of w) (<[i := back w (k b)]> ts) (back w (k b))) as (sh' & t' & Hr & Hf);
      [apply list_lookup_insert_eq; by eapply lookup_lt_Some|done|by apply Hm'|done|].
    rewrite list_insert_insert_eq in Hr. exists sh', t'. split; [by eapply rtc_l|done].
Qed.

Lemma threads_complete st0 st :
  Ready st0 → all_alone st0 st → ∃ st', rtc (thread_step one_call) st st' ∧ Forall finished st'.2.
Proof.
  intros Hr Ha.
  assert (Hn : ∀ n, ∃ st', rtc (thread_step one_call) st st' ∧ ∀ i t, (i < n)%nat → st'.2 !! i = Some t → finished t).
  { induction n as [|n (st' & Hs & Hf)]; [exists st; split; [done|lia]|].
    destruct (st'.2 !! n) as [t|] eqn:Ht; [|exists st'; split; [done|]; intros i t Hi Hit; apply (Hf i t); [|done];
      destruct (decide (i = n)) as [->|]; [congruence|lia]].
    destruct (steps_as_alone st0 st st' Hr Ha (steps_part _ _ _ Hs)) as (Hl & Hall & _).
    destruct (lookup_lt_is_Some_2 st0.2 n) as [t0 H0]; [rewrite Hl; by eapply lookup_lt_Some|].
    destruct (Hall n t0 t H0 Ht) as (_ & Hm & Hc & _). destruct st' as [sh ts]. cbn [fst snd] in *.
    destruct (thread_completes _ _ n sh ts t Hc Ht eq_refl eq_refl Hm) as (sh' & t' & Hs' & Hf').
    exists (sh', <[n := t']> ts). split; [by etrans|]. intros i s Hi Hsi. cbn [snd] in Hsi. destruct (decide (n = i)) as [<-|].
    - rewrite list_lookup_insert_eq in Hsi by (by eapply lookup_lt_Some). by injection Hsi as <-.
    - rewrite list_lookup_insert_ne in Hsi by done. apply (Hf i); [lia|done]. }
  destruct (Hn (length st.2)) as (st' & Hs & Hf). exists st'. split; [done|]. apply Forall_lookup. intros i t Ht.
  apply (Hf i t); [|done]. destruct (steps_as_alone st0 st st' Hr Ha (steps_part _ _ _ Hs)) as (Hl & _ & _).
  destruct Ha as (Hl' & _). apply lookup_lt_Some in Ht. lia.
Qed.

(** ** The handlers of a server *)

(** A handler that runs, with what its calls will meet. *)
Record Job := mkJob { jb_event : SinkEvent; jb_faults : list (option nat); jb_now : Z }.
Definition thread_of (j : option Job) (s : MSink) : Thread :=
  match j with
  | Some j => mkThread (handle (jb_event j)) (ms_file s) (jb_faults j) (jb_now j)
  | None => mkThread (mret tt) (ms_file s) [] 0
  end.
Definition spawn (jobs : gmap nat Job) (m : Manager) : State :=
  (mkShared (os_files (m_os m)) (os_log (m_os m)), imap (λ i s, thread_of (jobs !! i) s) (m_sinks m)).

(** The same handlers, one after another. *)
Fixpoint in_order (order : list nat) (jobs : gmap nat Job) (m : Manager) : M Manager :=
  match order with
  | [] => mret m
  | i :: order' =>
      match jobs !! i with
      | Some j =>
          let os := mkOs (os_files (m_os m)) (jb_faults j) (jb_now j) (os_log (m_os m)) in
          m' ← on_sink i (jb_event j) (mkManager os (m_sinks m)); in_order order' jobs m'
      | None => in_order order' jobs m
      end
  end.

Lemma spawn_lookup jobs m i : (spawn jobs m).2 !! i = thread_of (jobs !! i) <$> (m_sinks m !! i).
Proof. unfold spawn. cbn [snd]. by rewrite list_lookup_imap. Qed.
Lemma thread_of_sink j s : th_sink (thread_of j s) = ms_file s.
Proof. by destruct j. Qed.
Lemma spawn_cfgs jobs m : th_cfg <$> (spawn jobs m).2 = config_of <$> m_sinks m.
Proof.
  apply list_eq. intros i. rewrite !list_lookup_fmap, spawn_lookup. destruct (m_sinks m !! i) as [s|]; [|done].
  cbn. unfold th_cfg, config_of. by rewrite thread_of_sink.
Qed.
Lemma spawn_ready jobs m : Running m → map_Forall (λ _ j, of_sink (jb_event j)) jobs → Ready (spawn jobs m).
Proof.
  intros [Hi Ha] Hj. rewrite Forall_lookup in Hi. constructor; [by rewrite spawn_cfgs| |];
    apply Forall_lookup; intros i t; rewrite spawn_lookup; destruct (m_sinks m !! i) as [s|] eqn:Hs; try done; intros [= <-].
  - unfold th_cfg. rewrite thread_of_sink. by apply (Inv_mine _ (Hi i s Hs)).
  - destruct (jobs !! i) as [j|] eqn:Hji; [apply sliced_handle; by apply (Hj i)|by apply sliced_ret].
Qed.

(** A manager between handlers, and the threads. *)
Definition shows (m : Manager) (st : State) : Prop :=
  os_files (m_os m) = sh_files st.1 ∧ os_log (m_os m) = sh_log st.1 ∧ ms_file <$> m_sinks m = th_sink <$> st.2.

Lemma shows_sink m st i t : shows m st → st.2 !! i = Some t → ∃ s, m_sinks m !! i = Some s ∧ ms_file s = th_sink t.
Proof.
  intros (_ & _ & Hf) Ht. assert (Hi : ms_file <$> (m_sinks m !! i) = Some (th_sink t))
    by (by rewrite <- list_lookup_fmap, Hf, list_lookup_fmap, Ht).
  destruct (m_sinks m !! i) as [s|]; [|done]. exists s. split; [done|]. by injection Hi.
Qed.
Lemma shows_none m st i : shows m st → st.2 !! i = None → m_sinks m !! i = None.
Proof.
  intros (_ & _ & Hf) Ht. assert (Hi : ms_file <$> (m_sinks m !! i) = None)
    by (by rewrite <- list_lookup_fmap, Hf, list_lookup_fmap, Ht). by destruct (m_sinks m !! i).
Qed.

(** A whole handler that returns alone returns here. *)
Lemma whole_handler st0 st i t0 t V :
  all_alone st0 st → st0.2 !! i = Some t0 → st.2 !! i = Some t → th_left t0 (world st0.1 t0) = Ret (tt, V) →
  ∃ w, th_left t (world st.1 t) = Ret (tt, w) ∧
    thread_step any_part st (shared_of w, <[i := back w (mret tt)]> st.2).
Proof.
  intros (_ & Hall & _) H0 Ht HV. destruct (Hall i t0 t H0 Ht) as (_ & Hm & Hc & V1 & HV1 & Hs & Hag).
  pose proof (sliced_confined _ _ _ Hc) as Hconf. rewrite HV in HV1.
  assert (Hm1 : mine (th_cfg t) (w_sink V1)) by by rewrite Hs.
  destruct (Hconf V1 Hm1) as [_ Hsame]. specialize (Hsame _ Hag). rewrite <- HV1, Hs in Hsame.
  change (mkWorld (w_os (world st.1 t)) (th_sink t)) with (world st.1 t) in Hsame.
  destruct (th_left t (world st.1 t)) as [[[] w]| |] eqn:Hw; cbn in Hsame; try done. exists w. split; [done|].
  destruct st as [sh ts]. eapply (next_call any_part sh ts i t _ (th_left t) (λ _, True) (λ _, mret tt));
    [done|done|done| |intros ? _; by apply sliced_ret|exact Hw].
  intros w'. unfold mbind, IO_bind. by destruct (th_left t w') as [[[] ?]| |].
Qed.

Lemma on_sink_thread i j m st t w :
  shows m st → st.2 !! i = Some t → th_left t = handle (jb_event j) → th_faults t = jb_faults j → th_now t = jb_now j →
  th_left t (world st.1 t) = Ret (tt, w) →
  ∃ m', on_sink i (jb_event j) (mkManager (mkOs (os_files (m_os m)) (jb_faults j) (jb_now j) (os_log (m_os m))) (m_sinks m)) = Ret m' ∧
    shows m' (shared_of w, <[i := back w (mret tt)]> st.2).
Proof.
  intros Hsh Ht Hl Hf Hn Hw. destruct (shows_sink m st i t Hsh Ht) as (s & Hs & Hfile). destruct Hsh as (Hfiles & Hlog & Hsinks).
  unfold on_sink. cbn [m_sinks m_os]. rewrite Hs, Hfile, Hfiles, Hlog, <- Hf, <- Hn, <- Hl.
  change (mkWorld _ (th_sink t)) with (world st.1 t). rewrite Hw. cbn [mbind M_bind mret M_ret]. eexists. split; [done|].
  unfold shows. cbn. split_and!; [done|done|]. rewrite !list_fmap_insert, Hsinks. done.
Qed.

Lemma in_order_steps jobs m0 order m st :
  let st0 := spawn jobs m0 in
  Ready st0 → (∀ i t0, st0.2 !! i = Some t0 → ∃ V, th_left t0 (world st0.1 t0) = Ret (tt, V)) →
  shows m st → all_alone st0 st → NoDup order → (∀ i, i ∈ order → st.2 !! i = st0.2 !! i) →
  ∃ m' st', in_order order jobs m = Ret m' ∧ shows m' st' ∧ all_alone st0 st' ∧
    (∀ i t, i ∈ order → st'.2 !! i = Some t → finished t) ∧ ∀ i, i ∉ order → st'.2 !! i = st.2 !! i.
Proof.
  intros st0 Hr Halone. revert m st. induction order as [|i order IH]; intros m st Hsh Ha Hnd Hsame; cbn [in_order].
  { exists m, st. split_and!; try done. by intros i t ?%not_elem_of_nil. }
  apply NoDup_cons in Hnd as [Hni Hnd]. pose proof (Hsame i (list_elem_of_here _ _)) as Hi. unfold st0 in Hi. rewrite spawn_lookup in Hi.
  assert (Hnext : ∃ m1 st1, match jobs !! i with
      | Some j => on_sink i (jb_event j) (mkManager (mkOs (os_files (m_os m)) (jb_faults j) (jb_now j) (os_log (m_os m))) (m_sinks m))
      | None => mret m end = Ret m1 ∧ shows m1 st1 ∧ all_alone st0 st1 ∧ (∀ t, st1.2 !! i = Some t → finished t) ∧
      ∀ k, k ≠ i → st1.2 !! k = st.2 !! k).
  { destruct (jobs !! i) as [j|] eqn:Hj; [|exists m, st; split_and!; try done; intros t; rewrite Hi;
      destruct (m_sinks m0 !! i); [by intros [= <-]|done]].
    destruct (st.2 !! i) as [t|] eqn:Ht.
    - assert (Ht0 : st0.2 !! i = Some t) by (rewrite <- (Hsame i (list_elem_of_here _ _)); done).
      destruct (Halone i t Ht0) as [V HV]. destruct (whole_handler st0 st i t t V Ha Ht0 Ht HV) as (w & Hw & Hstep).
      destruct (m_sinks m0 !! i) as [s0|]; [|done]. injection Hi as Hi.
      destruct (on_sink_thread i j m st t w Hsh Ht) as (m1 & Hm1 & Hsh1); [by rewrite Hi..|done|].
      exists m1, (shared_of w, <[i := back w (mret tt)]> st.2). split; [exact Hm1|]. split; [done|].
      split; [by eapply step_as_alone|]. cbn [snd]. split.
      + intros t1. rewrite list_lookup_insert_eq by (by eapply lookup_lt_Some). by intros [= <-].
      + intros k Hk. by rewrite list_lookup_insert_ne.
    - exists (mkManager (mkOs (os_files (m_os m)) (jb_faults j) (jb_now j) (os_log (m_os m))) (m_sinks m)), st.
      pose proof (shows_none m st i Hsh Ht) as Hnone. unfold on_sink. cbn [m_sinks]. rewrite Hnone.
      split_and!; try done. by rewrite Ht. }
  destruct Hnext as (m1 & st1 & Hm1 & Hsh1 & Ha1 & Hf1 & Hk1).
  destruct (IH m1 st1 Hsh1 Ha1 Hnd) as (m' & st' & Hm' & Hsh' & Ha' & Hf' & Hk').
  { intros k Hk. rewrite Hk1 by (by intros ->). apply Hsame. by right. }
  exists m', st'. split; [|split_and!; [done|done| |]].
  - destruct (jobs !! i); [by rewrite Hm1|]. injection Hm1 as <-. exact Hm'.
  - intros k t [->|Hk]%elem_of_cons Hkt; [|by apply (Hf' k)]. rewrite (Hk' i Hni) in Hkt. by apply Hf1.
  - intros k [Hne Hk]%not_elem_of_cons. by rewrite (Hk' k Hk), Hk1.
Qed.

(** C23. Handlers of different sinks on different threads are atomic to each other.
    Let handlers of any of the sinks run at once, each on its thread, with every
    call of the file system, the clock and the system log and every access to the
    members a step of its own, in any order, whatever calls fail. From every point
    of every such run all handlers can finish; and when they have, the files and
    the members of every sink are those that the handlers leave when they run whole,
    one after another, in any order. *)
Theorem threads_atomic jobs m st :
  Running m → map_Forall (λ _ j, of_sink (jb_event j)) jobs → rtc (thread_step one_call) (spawn jobs m) st →
  (∃ st', rtc (thread_step one_call) st st' ∧ Forall finished st'.2) ∧
  (Forall finished st.2 → ∀ order, order ≡ₚ seq 0 (length (m_sinks m)) →
   ∃ m', in_order order jobs m = Ret m' ∧ os_files (m_os m') = sh_files st.1 ∧ ms_file <$> m_sinks m' = th_sink <$> st.2).
Proof.
  intros Hm Hj Hs. pose proof (spawn_ready jobs m Hm Hj) as Hr. pose proof (ready_alone _ Hr) as H0.
  pose proof (steps_as_alone _ _ _ Hr H0 (steps_part _ _ _ Hs)) as Ha. split; [by eapply threads_complete|].
  intros Hf order Hord. assert (Halone : ∀ i t0, (spawn jobs m).2 !! i = Some t0 → ∃ V, th_left t0 (world (spawn jobs m).1 t0) = Ret (tt, V)).
  { intros i t0 Hi. destruct Ha as (Hl & Hall & _). rewrite Forall_lookup in Hf.
    destruct (lookup_lt_is_Some_2 st.2 i) as [t Ht]; [rewrite <- Hl; by eapply lookup_lt_Some|].
    destruct (Hall i t0 t Hi Ht) as (_ & _ & _ & V & HV & _). exists V. rewrite HV. by apply (Hf i). }
  destruct (in_order_steps jobs m order m (spawn jobs m) Hr Halone) as (m' & st' & Hm' & Hsh & Ha' & Hf' & _); try done.
  { split_and!; [done|done|]. apply list_eq. intros i. rewrite !list_lookup_fmap, spawn_lookup.
    destruct (m_sinks m !! i); [|done]. cbn. by rewrite thread_of_sink. }
  { rewrite Hord. apply NoDup_seq. }
  assert (Hfin : Forall finished st'.2).
  { apply Forall_lookup. intros i t Ht. apply (Hf' i t); [|done]. rewrite Hord. apply elem_of_seq. destruct Ha' as (Hl & _).
    apply lookup_lt_Some in Ht. rewrite <- Hl in Ht. unfold spawn in Ht. cbn [snd] in Ht. rewrite length_imap in Ht. lia. }
  destruct (ends_agree _ _ _ Ha Ha' Hf Hfin) as [Hfiles Hleaves]. destruct Hsh as (Hf1 & _ & Hf3).
  exists m'. split; [done|]. split; [congruence|]. rewrite Hf3.
  assert (Hp : ∀ l : list Thread, th_sink <$> l = (λ x : Sink * list (option nat) * Z, x.1.1) <$> (leaves <$> l))
    by (intros l; by rewrite <- list_fmap_compose).
  by rewrite !Hp, Hleaves.
Qed.
End threads.

(** ** Two handlers at once *)

Definition two_jobs : gmap nat Job :=
  {[ 0%nat := mkJob (SWrite message0 (lit "T")) [None; Some 1%nat] 5; 1%nat := mkJob (SWrite message0 (lit "U")) [] 6 ]}.

Lemma two_jobs_running : Running started1 ∧ map_Forall (λ _ j, of_sink (jb_event j)) two_jobs.
Proof.
  split; [|intros i j Hi; assert (E : j = mkJob (SWrite message0 (lit "T")) [None; Some 1%nat] 5 ∨ j = mkJob (SWrite message0 (lit "U")) [] 6);
    [|by destruct E as [->| ->]]; unfold two_jobs in Hi; rewrite lookup_insert_Some, lookup_singleton_Some in Hi;
    destruct Hi as [[_ <-]|(_ & _ & <-)]; [by left|by right]].
  by destruct (@open_all_running example_env two_outputs disk1 started1 two_outputs_valid two_outputs_apart started1_eq).
Qed.

Lemma threads_atomic_witness :
  ∃ st m', rtc (thread_step one_call) (@spawn example_env two_jobs started1) st ∧ Forall finished st.2 ∧
    @in_order example_env [1; 0]%nat two_jobs started1 = Ret m' ∧ os_files (m_os m') = sh_files st.1 ∧
    ms_file <$> m_sinks m' = th_sink <$> st.2.
Proof.
  destruct two_jobs_running as [Hm Hj].
  destruct (proj1 (@threads_atomic example_env two_jobs started1 _ Hm Hj (rtc_refl _ _))) as (st & Hs & Hf).
  destruct (proj2 (@threads_atomic example_env two_jobs started1 st Hm Hj Hs) Hf [1; 0]%nat) as (m' & Hm' & Hfiles & Hsinks).
  - replace (length (m_sinks started1)) with 2%nat by (vm_compute; reflexivity). apply perm_swap.
  - exists st, m'. exact (conj Hs (conj Hf (conj Hm' (conj Hfiles Hsinks)))).
Defined.
(** A rotation of the first sink's files fails at its second call; the second sink writes. *)
Definition two_jobs_end (order : list nat) : option (list (bytes * bytes) * list (bool * Z)) :=
  match @in_order example_env order two_jobs started1 with
  | Ret m => Some (map_to_list (os_files (m_os m)), (λ s, (m_closed (ms_file s), m_textSize (ms_file s))) <$> m_sinks m)
  | _ => None
  end.
Example two_jobs_run :
  two_jobs_end [1; 0]%nat = two_jobs_end [0; 1]%nat ∧ snd <$> two_jobs_end [1; 0]%nat = Some [(true, 0); (false, 9)].
Proof. vm_compute. auto. Qed.
