(* ===== verification/Process.v ===== *)
(** * The running server

    Everything that runs between the start and the end of [runServer], as one
    state: the receive path, the sinks with their strands, the forwarder with
    its strand, the tokens that tie a queued message to its charge, and the
    shutdown handler of src/src/server/main.cpp. A worker runs one handler at a
    time; which one is next is up to the schedule. *)

From S2P Require Import Prelude Names Parser ParserSpec Platform Config ConfigSpec Escape Admission Backoff FileSystem LogFile LogFileSpec Lifecycle Sinks OutputManager Forwarder UdpServer Server Isolation Interleaving.

(** ** State *)

Record Process := mkProcess {
  y_server : UdpServer;
  y_outputs : Manager;
  y_forwarder : option (Forwarder * list FTask);
  y_ids : list nat;             (* the token of each posted datagram *)
  y_live : list nat;            (* the token of each charge *)
  y_next : nat;                 (* no token is used twice *)
  y_late : bool;                (* the pending receive was started before the close *)
  y_stopPosted : bool;          (* what [UdpServer::stop] posts has not run *)
  y_stopped : bool              (* the wait for a stop has ended, its handler has run *)
}.

Definition process_of (sd : Started) : Process :=
  mkProcess (sd_server sd) (sd_outputs sd) ((λ f, (f, [])) <$> sd_forwarder sd) [] [] 0 false false false.

Definition set_server (s : UdpServer) (y : Process) : Process :=
  mkProcess s (y_outputs y) (y_forwarder y) (y_ids y) (y_live y) (y_next y) (y_late y) (y_stopPosted y) (y_stopped y).
Definition set_outputs (m : Manager) (y : Process) : Process :=
  mkProcess (y_server y) m (y_forwarder y) (y_ids y) (y_live y) (y_next y) (y_late y) (y_stopPosted y) (y_stopped y).
Definition set_forwarder (f : option (Forwarder * list FTask)) (y : Process) : Process :=
  mkProcess (y_server y) (y_outputs y) f (y_ids y) (y_live y) (y_next y) (y_late y) (y_stopPosted y) (y_stopped y).
Definition set_tokens (ids live : list nat) (next : nat) (y : Process) : Process :=
  mkProcess (y_server y) (y_outputs y) (y_forwarder y) ids live next (y_late y) (y_stopPosted y) (y_stopped y).
Definition set_stop (late posted stopped : bool) (y : Process) : Process :=
  mkProcess (y_server y) (y_outputs y) (y_forwarder y) (y_ids y) (y_live y) (y_next y) late posted stopped.

(** ** Tokens *)

Definition task_token (t : Task) : list nat :=
  match t with TWrite msg => option_list (admission msg) | TClose => [] end.
Definition ftask_token (t : FTask) : list nat :=
  match t with FForward msg => option_list (admission msg) | FStop => [] end.

Definition sink_tasks (m : Manager) : list Task := m_sinks m ≫= ms_queue.
Definition forward_tasks (y : Process) : list FTask :=
  match y_forwarder y with Some (_, q) => q | None => [] end.

(** The copies of tokens that tasks hold. *)
Definition held (y : Process) : list nat :=
  y_ids y ++ (sink_tasks (y_outputs y) ≫= task_token) ++ (forward_tasks y ≫= ftask_token).

(** ** Handlers *)

Section system.
Context `{LogEnv}.

(** The receive completes; a datagram that was posted has a new token. *)
Definition on_receive (ec : option ReceiveError) (data srcIp : bytes) (now : Z) (oom : option OutOfMemory)
    (y : Process) : Process :=
  let s' := (onReceive ec data srcIp now oom (y_server y)).1 in
  let y := set_stop false (y_stopPosted y) (y_stopped y) (set_server s' y) in
  if (length (u_posted s') =? S (length (y_ids y)))%nat
  then set_tokens (y_ids y ++ [y_next y]) (y_live y ++ [y_next y]) (S (y_next y)) y
  else y.

(** The task posted for the [k]th datagram runs. *)
Definition run_posted (k : nat) (y : Process) : M Process :=
  match u_posted (y_server y) !! k, y_ids y !! k with
  | Some p, Some token =>
      '(m, forwarder) ← process p token (y_outputs y) (y_forwarder y);
      let y := set_forwarder forwarder (set_outputs m y) in
      mret (set_tokens (delete k (y_ids y)) (y_live y) (y_next y)
              (set_server (set_posted (delete k (u_posted (y_server y))) (y_server y)) y))
  | _, _ => mret y
  end.

Definition run_forwarder (sent : option bytes) (y : Process) : M Process :=
  match y_forwarder y with
  | Some (f, FForward msg :: q) => f' ← doForward msg sent f; mret (set_forwarder (Some (f', q)) y)
  | Some (f, FStop :: q) => mret (set_forwarder (Some (Forwarder.stop f, q)) y)
  | _ => mret y
  end.

(** The last copy of a token is gone, and its charge with it. *)
Definition free_token (j : nat) (y : Process) : Process :=
  set_tokens (y_ids y) (delete j (y_live y)) (y_next y) (set_server (release j (y_server y)) y).

(** The shutdown handler that [runServer] registers. *)
Definition shutdown (y : Process) : Process :=
  let y := set_stop (y_late y) true true y in
  let y := set_outputs (close_all (y_outputs y)) y in
  set_forwarder (post_forwarder FStop <$> y_forwarder y) y.

(** What [UdpServer::stop] posted. *)
Definition run_stop (now : Z) (y : Process) : Process :=
  set_stop (u_receiving (y_server y)) false (y_stopped y) (set_server (UdpServer.stop now (y_server y)) y).

(** The re-arm timer has expired, and a receive is started now; or its wait was
    cancelled. *)
Definition run_rearm (cancelled : bool) (y : Process) : Process :=
  set_stop false (y_stopPosted y) (y_stopped y) (set_server (onRearm cancelled (y_server y)) y).

(** ** Steps *)

Inductive SysEvent :=
| YReceive (ec : option ReceiveError) (data srcIp : bytes) (now : Z) (oom : option OutOfMemory)
| YRearm (cancelled : bool)
| YStopServer (now : Z)
| YPosted (k : nat)
| YStrand (i : nat) (rcv : bytes)
| YTimer (i : nat)
| YForward (sent : option bytes)
| YResolved (ec : option bytes) (results : list bytes) (opened : option bytes)
| YRetry
| YFree (j : nat)
| YShutdown
| YEnvironment (now : Z) (faults : list (option nat)).

(** A datagram is no longer than the receive buffer; a receive started on a closed
    socket gives a bad descriptor, and only one started before can still bring
    something. *)
Definition enabled (y : Process) (e : SysEvent) : bool :=
  let s := y_server y in
  match e with
  | YReceive ec data _ _ _ =>
      u_receiving s && (zlen data <=? BUFFER_SIZE) &&
      match ec with
      | Some OperationAborted | Some BadDescriptor => negb (u_open s)
      | _ => u_open s || y_late y
      end
  | YRearm cancelled => u_rearmTimer s && (negb cancelled || negb (u_open s))
  | YStopServer _ => y_stopPosted y
  | YPosted k => (k <? length (u_posted s))%nat
  | YStrand i _ => match m_sinks (y_outputs y) !! i with
                   | Some s => negb (bool_decide (ms_queue s = [] :> list Task)) | None => false end
  | YTimer i => match m_sinks (y_outputs y) !! i with
                | Some s => LogFile.m_retryTimer (ms_file s) | None => false end
  | YForward _ => match forward_tasks y with [] => false | _ => true end
  | YResolved _ _ _ => match y_forwarder y with
                       | Some (f, _) => match m_resolver f with Some _ => true | None => false end
                       | None => false end
  | YRetry => match y_forwarder y with Some (f, _) => Forwarder.m_retryTimer f | None => false end
  | YFree j => match y_live y !! j with Some t => bool_decide (t ∉ held y) | None => false end
  | YShutdown => negb (y_stopped y)
  | YEnvironment _ _ => true
  end.

Definition on_forwarder (g : Forwarder → Forwarder) (y : Process) : Process :=
  set_forwarder ((λ '(f, q), (g f, q)) <$> y_forwarder y) y.

Definition sys_step (y : Process) (e : SysEvent) : M Process :=
  match e with
  | YReceive ec data srcIp now oom => mret (on_receive ec data srcIp now oom y)
  | YRearm cancelled => mret (run_rearm cancelled y)
  | YStopServer now => mret (run_stop now y)
  | YPosted k => run_posted k y
  | YStrand i rcv => m ← run_strand i rcv (y_outputs y); mret (set_outputs m y)
  | YTimer i => m ← on_sink i (STimer false) (y_outputs y); mret (set_outputs m y)
  | YForward sent => run_forwarder sent y
  | YResolved ec results opened =>
      mret (on_forwarder (λ f, match m_resolver f with
                               | Some first => onResolved ec results opened first f | None => f end) y)
  | YRetry => mret (on_forwarder (onRetry false) y)
  | YFree j => mret (free_token j y)
  | YShutdown => mret (shutdown y)
  | YEnvironment t faults =>
      let m := y_outputs y in
      mret (set_outputs (mkManager (mkOs (os_files (m_os m)) faults t (os_log (m_os m))) (m_sinks m)) y)
  end.

(** Some schedule leads from [y] to [y'], by the given events. *)
Inductive path (y : Process) : list SysEvent → Process → Prop :=
| path_nil : path y [] y
| path_snoc es y1 e y' : path y es y1 → enabled y1 e = true → sys_step y1 e = Ret y' → path y (es ++ [e]) y'.

(** A given schedule, run as long as it is possible. *)
Fixpoint follow (y : Process) (es : list SysEvent) : option Process :=
  match es with
  | [] => Some y
  | e :: es' => if enabled y e then match sys_step y e with Ret y1 => follow y1 es' | _ => None end else None
  end.
Lemma path_cons y e y1 es y' :
  enabled y e = true → sys_step y e = Ret y1 → path y1 es y' → path y (e :: es) y'.
Proof.
  intros He Hs Hp. induction Hp as [|es y2 e2 y3 _ IH He2 Hs2].
  - apply (path_snoc y [] y e y1); [constructor|done|done].
  - apply (path_snoc y (e :: es) y2 e2 y3); done.
Qed.
Lemma follow_path y es y' : follow y es = Some y' → path y es y'.
Proof.
  revert y. induction es as [|e es IH]; intros y; cbn [follow]; [intros [= <-]; constructor|].
  destruct (enabled y e) eqn:He; [|done]. destruct (sys_step y e) as [y1| |] eqn:Hs; [|done|done].
  intros Hf. by eapply path_cons; [..|apply IH].
Qed.
End system.

(** ** The sinks' queues *)

Section queues.
Context `{LogEnv}.

(** A sink that is shut down, or will be when its strand has run. *)
Definition closing (s : MSink) : Prop := m_shuttingDown (ms_file s) = true ∨ TClose ∈ ms_queue s.

Lemma elem_of_sink_tasks t m : t ∈ sink_tasks m ↔ ∃ s, s ∈ m_sinks m ∧ t ∈ ms_queue s.
Proof.
  unfold sink_tasks. rewrite list_elem_of_bind. split; intros (s & ? & ?); by exists s.
Qed.

Lemma handle_down e w :
  Inv w → wp (handle e) w (λ _ w', (m_shuttingDown (w_sink w) = true ∨ e = SClose) →
                                   m_shuttingDown (w_sink w') = true).
Proof.
  intros Hi. destruct (m_shuttingDown (w_sink w)) eqn:Hd.
  - eapply wp_impl; [by apply down_noop; [by apply Hi|]|]. by intros [] w' [? _].
  - assert (Hc : {e = SClose} + {e ≠ SClose}) by (destruct e; (by left) || by right).
    destruct Hc as [->|Hne].
    + eapply wp_impl; [by apply close_spec|]. by intros [] w' (_ & _ & _ & ? & _).
    + eapply wp_impl; [by apply handle_Inv|]. intros [] w' _ [|]; done.
Qed.

(** One handler of sink [i] keeps every queue, and what is shut down stays so. *)
Lemma on_sink_queues i e m m' :
  Forall (λ s, Inv (mkWorld (m_os m) (ms_file s))) (m_sinks m) → on_sink i e m = Ret m' →
  ms_queue <$> m_sinks m' = ms_queue <$> m_sinks m ∧
  ∀ j s, m_sinks m !! j = Some s → ∃ s', m_sinks m' !! j = Some s' ∧
    (m_shuttingDown (ms_file s) = true ∨ (j = i ∧ e = SClose) → m_shuttingDown (ms_file s') = true).
Proof.
  intros Hi Ho. unfold on_sink in Ho. destruct (m_sinks m !! i) as [s|] eqn:Hs.
  - rewrite Forall_lookup in Hi. destruct (handle_down e _ (Hi _ _ Hs)) as ([] & w' & Hh & Hd).
    rewrite Hh in Ho. injection Ho as <-. cbn [m_sinks]. split.
    + rewrite list_fmap_insert. apply list_insert_id. by rewrite list_lookup_fmap, Hs.
    + intros j sj Hj. destruct (decide (i = j)) as [<-|Hne].
      * exists (set_sink (w_sink w') s). rewrite list_lookup_insert_eq by (by eapply lookup_lt_Some).
        split; [done|]. rewrite Hs in Hj. injection Hj as <-. intros Hor. apply Hd. cbn.
        destruct Hor as [|[_ ?]]; auto.
      * exists sj. rewrite list_lookup_insert_ne by done. split; [done|]. intros [|[-> _]]; done.
  - injection Ho as <-. split; [done|]. intros j sj Hj. exists sj. split; [done|]. intros [|[-> _]]; [done|congruence].
Qed.

Lemma closing_same s s' :
  ms_queue s' = ms_queue s → (m_shuttingDown (ms_file s) = true → m_shuttingDown (ms_file s') = true) →
  closing s → closing s'.
Proof. intros Hq Hd [Hc|Hc]; [left; auto|right; by rewrite Hq]. Qed.

Lemma on_sink_closing i e m m' :
  Forall (λ s, Inv (mkWorld (m_os m) (ms_file s))) (m_sinks m) → on_sink i e m = Ret m' →
  Forall closing (m_sinks m) → Forall closing (m_sinks m').
Proof.
  intros Hi Ho Hc. destruct (on_sink_queues i e m m' Hi Ho) as [Hq Hd]. apply Forall_lookup. intros j s' Hj.
  assert (Hl : ms_queue <$> (m_sinks m' !! j) = ms_queue <$> (m_sinks m !! j)) by (by rewrite <- !list_lookup_fmap, Hq).
  rewrite Hj in Hl. destruct (m_sinks m !! j) as [s|] eqn:Hs; [|done]. injection Hl as Hl.
  destruct (Hd j s Hs) as (s2 & Hs2 & Hsd). rewrite Hj in Hs2. injection Hs2 as <-.
  apply (closing_same s); [done|intros ?; apply Hsd; by left|]. rewrite Forall_lookup in Hc. by eapply Hc.
Qed.

(** A strand runs the head of its queue. *)
Lemma run_strand_queues i rcv m m' s t q :
  Forall (λ s, Inv (mkWorld (m_os m) (ms_file s))) (m_sinks m) →
  m_sinks m !! i = Some s → ms_queue s = t :: q → run_strand i rcv m = Ret m' →
  ms_queue <$> m_sinks m' = <[i := q]> (ms_queue <$> m_sinks m) ∧
  (Forall closing (m_sinks m) → Forall closing (m_sinks m')).
Proof.
  intros Hi Hs Hq Hr. rewrite (run_strand_pop _ _ _ _ _ _ Hs Hq) in Hr.
  assert (Hip : Forall (λ s, Inv (mkWorld (m_os (pop i m)) (ms_file s))) (m_sinks (pop i m))).
  { change (Forall ((λ f, Inv (mkWorld (m_os m) f)) ∘ ms_file) (m_sinks (pop i m))).
    apply Forall_fmap. rewrite pop_files. by apply Forall_fmap. }
  destruct (on_sink_queues i _ _ m' Hip Hr) as [Hq' Hd]. split.
  - rewrite Hq'. apply list_eq. intros j. rewrite list_lookup_fmap. cbn.
    destruct (decide (i = j)) as [<-|Hne].
    + rewrite list_lookup_alter_eq, list_lookup_insert_eq, Hs; [cbn; by rewrite Hq|].
      rewrite length_fmap. by eapply lookup_lt_Some.
    + by rewrite list_lookup_alter_ne, list_lookup_insert_ne, list_lookup_fmap.
  - intros Hc. apply Forall_lookup. intros j s' Hj.
    assert (Hl : ms_queue <$> (m_sinks m' !! j) = ms_queue <$> (m_sinks (pop i m) !! j))
      by (by rewrite <- !list_lookup_fmap, Hq').
    rewrite Hj in Hl. destruct (m_sinks (pop i m) !! j) as [sp|] eqn:Hp; [|done]. injection Hl as Hl.
    destruct (Hd j sp Hp) as (s2 & Hs2 & Hsd). rewrite Hj in Hs2. injection Hs2 as <-.
    rewrite Forall_lookup in Hc. cbn in Hp. destruct (decide (i = j)) as [<-|Hne].
    + rewrite list_lookup_alter_eq, Hs in Hp. injection Hp as <-. cbn in Hl. rewrite Hq in Hl. cbn in Hl.
      destruct (Hc i s Hs) as [Hd'|Hin]; [left; apply Hsd; by left|]. rewrite Hq in Hin.
      apply elem_of_cons in Hin as [<-|Hin]; [left; apply Hsd; by right|right; by rewrite Hl].
    + rewrite list_lookup_alter_ne in Hp by done. apply (closing_same sp); [done|intros ?; apply Hsd; by left|by eapply Hc].
Qed.

Lemma elem_of_queues t m : t ∈ sink_tasks m ↔ ∃ q, q ∈ ms_queue <$> m_sinks m ∧ t ∈ q.
Proof.
  rewrite elem_of_sink_tasks. split.
  - intros (s & Hs & Ht). exists (ms_queue s). split; [by apply list_elem_of_fmap_2|done].
  - intros (q & (s & -> & Hs)%list_elem_of_fmap & Ht). by exists s.
Qed.
Lemma elem_of_queues_insert t m m' i t0 q :
  (ms_queue <$> m_sinks m) !! i = Some (t0 :: q) →
  ms_queue <$> m_sinks m' = <[i := q]> (ms_queue <$> m_sinks m) → t ∈ sink_tasks m' → t ∈ sink_tasks m.
Proof.
  rewrite !elem_of_queues. intros Hi -> (q' & Hq & Ht).
  apply list_elem_of_lookup in Hq as [j Hj]. destruct (decide (i = j)) as [<-|Hne].
  - rewrite list_lookup_insert_eq in Hj by (by eapply lookup_lt_Some). injection Hj as <-.
    exists (t0 :: q). split; [by eapply list_elem_of_lookup_2|by right].
  - rewrite list_lookup_insert_ne in Hj by done. exists q'. split; [by eapply list_elem_of_lookup_2|done].
Qed.

(** What is dispatched is in the queues afterwards, and nothing else new. *)
Lemma elem_of_dispatch t msg m :
  t ∈ sink_tasks (dispatch msg m) → t ∈ sink_tasks m ∨ t = TWrite msg.
Proof.
  rewrite !elem_of_sink_tasks. intros (s & (s0 & -> & Hs)%list_elem_of_fmap & Ht).
  destruct (accepts msg s0); [|left; by exists s0]. cbn in Ht.
  apply elem_of_app in Ht as [|Ht%list_elem_of_singleton]; [left; by exists s0|by right].
Qed.
Lemma elem_of_close_all t m : t ∈ sink_tasks (close_all m) → t ∈ sink_tasks m ∨ t = TClose.
Proof.
  rewrite !elem_of_sink_tasks. intros (s & (s0 & -> & Hs)%list_elem_of_fmap & Ht). cbn in Ht.
  apply elem_of_app in Ht as [|Ht%list_elem_of_singleton]; [left; by exists s0|by right].
Qed.
Lemma dispatch_closing msg m : Forall closing (m_sinks m) → Forall closing (m_sinks (dispatch msg m)).
Proof.
  intros Hc. apply Forall_fmap. eapply Forall_impl; [exact Hc|]. intros s Hs. cbn.
  destruct (accepts msg s); [|done]. destruct Hs as [|Hs]; [by left|right]. cbn. apply elem_of_app. by left.
Qed.
Lemma close_all_closing m : Forall closing (m_sinks (close_all m)).
Proof.
  apply Forall_fmap, Forall_forall. intros s _. right. cbn. apply elem_of_app. right. by left.
Qed.
End queues.

(** ** The receive path *)

Lemma reportDrops_queues force now s :
  u_posted (reportDrops force now s) = u_posted s ∧ u_charges (reportDrops force now s) = u_charges s.
Proof. unfold reportDrops. destruct (_ && _); [done|]. by destruct (_ =? 0). Qed.

Lemma onReceive_effect ec data srcIp now oom s :
  let s' := (onReceive ec data srcIp now oom s).1 in
  u_open s' = u_open s ∧
  ((u_posted s' = u_posted s ∧ u_charges s' = u_charges s) ∨
   (u_posted s' = u_posted s ++ [mkPosted data srcIp] ∧ u_charges s' = u_charges s ++ [zlen data])) ∧
  match ec with
  | Some (OtherError _) => u_receiving s' = false ∧ u_rearmTimer s' = true ∧ u_posted s' = u_posted s
  | Some _ => u_receiving s' = false ∧ u_rearmTimer s' = u_rearmTimer s ∧ u_posted s' = u_posted s
  | None => u_rearmTimer s' = u_rearmTimer s
  end.
Proof.
  unfold onReceive. destruct ec as [[| |what]|]; try by (cbn; split_and!; auto).
  - unfold handleReceiveError. destruct (ReceiveBackoff.onError _ _) as [b d].
    destruct (ReceiveBackoff.report d); cbn; split_and!; auto.
  - destruct (ReceiveBackoff.onSuccess _) as [b ended]. set (s1 := if ended =? 0 then _ else _).
    assert (E : u_open s1 = u_open s ∧ u_posted s1 = u_posted s ∧ u_charges s1 = u_charges s ∧
                u_rearmTimer s1 = u_rearmTimer s) by (unfold s1; by destruct (ended =? 0)).
    clearbody s1. destruct E as (<- & <- & <- & <-). destruct (admit_call _ _) as [a [|]]; cbn [negb].
    + destruct oom as [[]|]; cbn; split_and!; auto.
    + cbn. destruct (reportDrops_socket false now (set_admission a s1)) as (-> & _ & -> & _).
      destruct (reportDrops_queues false now (set_admission a s1)) as [-> ->]. cbn. auto.
Qed.

Lemma delete_past {A} (l : list A) j : l !! j = None → delete j l = l.
Proof.
  intros Hj%lookup_ge_None. apply list_eq. intros k. rewrite list_lookup_delete.
  destruct (decide (k < j)%nat); [done|]. rewrite !(proj2 (lookup_ge_None _ _)); [done|lia|lia].
Qed.
Lemma delete_lookup_inv {A} (l : list A) j k x :
  delete j l !! k = Some x → ∃ k', k' ≠ j ∧ l !! k' = Some x ∧ ∀ B (r : list B), delete j r !! k = r !! k'.
Proof.
  rewrite list_lookup_delete. intros Hk. exists (if decide (k < j)%nat then k else S k).
  destruct (decide (k < j)%nat); (split; [lia|]; split; [done|]; intros B r; rewrite list_lookup_delete);
    [by rewrite decide_True|by rewrite decide_False].
Qed.
Lemma delete_lookup_other {A} (l : list A) j k' x :
  k' ≠ j → l !! k' = Some x → ∃ k, delete j l !! k = Some x ∧ ∀ B (r : list B), delete j r !! k = r !! k'.
Proof.
  intros Hne Hx. exists (if decide (k' < j)%nat then k' else pred k').
  assert (Hd : ∀ B (r : list B), delete j r !! (if decide (k' < j)%nat then k' else pred k') = r !! k').
  { intros B r. rewrite list_lookup_delete. destruct (decide (k' < j)%nat).
    - by rewrite decide_True.
    - rewrite decide_False by lia. f_equal. lia. }
  by rewrite Hd.
Qed.
Lemma length_delete_same {A B} (l : list A) (r : list B) j :
  length l = length r → length (delete j l) = length (delete j r).
Proof.
  intros Hl. destruct (decide (j < length l)%nat) as [Hj|Hj].
  - rewrite !length_delete; [lia|by apply lookup_lt_is_Some; lia|by apply lookup_lt_is_Some; lia].
  - rewrite !delete_past; [done|apply lookup_ge_None; lia|apply lookup_ge_None; lia].
Qed.
Lemma NoDup_delete {A} (l : list A) j : NoDup l → NoDup (delete j l).
Proof. intros Hn. by apply (sublist_NoDup _ l); [|apply sublist_delete]. Qed.

Lemma release_charges j s :
  u_charges (release j s) = delete j (u_charges s) ∧ u_posted (release j s) = u_posted s ∧
  u_open (release j s) = u_open s ∧ u_receiving (release j s) = u_receiving s ∧
  u_rearmTimer (release j s) = u_rearmTimer s.
Proof.
  unfold release. destruct (u_charges s !! j) eqn:E; [done|]. split; [|done].
  symmetry. by apply delete_past.
Qed.

(** ** The invariant *)

Section invariant.
Context `{LogEnv} (B : Z) (no_wrap : 0 <= B ∧ B + BUFFER_SIZE < 2 ^ 64).

(** The token [t] is alive and stands for [b] bytes. *)
Definition charged (y : Process) (t : nat) (b : Z) : Prop :=
  ∃ j, y_live y !! j = Some t ∧ u_charges (y_server y) !! j = Some b.
(** Some strand has the message in its queue. *)
Definition queued (y : Process) (msg : SyslogMessage) : Prop :=
  TWrite msg ∈ sink_tasks (y_outputs y) ∨ FForward msg ∈ forward_tasks y.

Record PInv (y : Process) : Prop := {
  pi_running : Running (y_outputs y);
  pi_server : UInv B (y_server y);
  pi_forwarder : ∀ f q, y_forwarder y = Some (f, q) →
    FInv f ∧ (y_stopped y = true → Forwarder.m_stopping f = true ∨ FStop ∈ q);
  pi_ids : length (y_ids y) = length (u_posted (y_server y));
  pi_live : length (y_live y) = length (u_charges (y_server y));
  pi_nodup : NoDup (y_live y);
  pi_next : Forall (λ t, (t < y_next y)%nat) (y_live y);
  pi_posted : ∀ k t p, y_ids y !! k = Some t → u_posted (y_server y) !! k = Some p →
    charged y t (zlen (po_data p));
  pi_queued : ∀ msg, queued y msg →
    ∃ t b, admission msg = Some t ∧ charged y t b ∧ zlen (raw msg) <= b;
  pi_stop : y_stopped y = true →
    Forall closing (m_sinks (y_outputs y)) ∧ (y_stopPosted y = false → u_open (y_server y) = false)
}.

(** Only what the parts hold matters. *)
Lemma PInv_server y s late posted :
  PInv y → UInv B s → u_posted s = u_posted (y_server y) → u_charges s = u_charges (y_server y) →
  (y_stopped y = true → posted = false → u_open s = false) →
  PInv (set_stop late posted (y_stopped y) (set_server s y)).
Proof.
  intros [] Hs Hp Hc Ho. unfold charged, queued in *.
  constructor; unfold charged, queued; cbn; rewrite ?Hp, ?Hc; try done.
  intros Hst. split; [by apply pi_stop0|by apply Ho].
Qed.

Lemma PInv_outputs y m :
  PInv y → Running m → (∀ msg, TWrite msg ∈ sink_tasks m → TWrite msg ∈ sink_tasks (y_outputs y)) →
  (Forall closing (m_sinks (y_outputs y)) → Forall closing (m_sinks m)) → PInv (set_outputs m y).
Proof.
  intros [] Hm Hq Hc. unfold charged, queued in *. constructor; unfold charged, queued; cbn; try done.
  - intros msg [Hin|Hin]; apply pi_queued0; [left; by apply Hq|by right].
  - intros Hst. destruct (pi_stop0 Hst). auto.
Qed.

Lemma PInv_forwarder y f q f' q' :
  PInv y → y_forwarder y = Some (f, q) → FInv f' → (∀ msg, FForward msg ∈ q' → FForward msg ∈ q) →
  (y_stopped y = true → Forwarder.m_stopping f = true ∨ FStop ∈ q → Forwarder.m_stopping f' = true ∨ FStop ∈ q') →
  PInv (set_forwarder (Some (f', q')) y).
Proof.
  intros [] Hf Hf' Hq Hs. unfold charged, queued, forward_tasks in *. rewrite Hf in pi_queued0.
  constructor; unfold charged, queued, forward_tasks; cbn; try done.
  - intros g r [= <- <-]. split; [done|]. intros Hst. apply (Hs Hst). by apply (pi_forwarder0 f q Hf).
  - intros msg [Hin|Hin]; apply pi_queued0; [by left|right; by apply Hq].
Qed.

Lemma charged_app y t b ids live next s extra :
  u_charges s = u_charges (y_server y) ++ extra →
  charged y t b → charged (set_tokens ids (y_live y ++ live) next (set_server s y)) t b.
Proof.
  intros Hc (j & Hj & Hb). exists j. cbn. rewrite Hc. by rewrite !lookup_app_l by (by eapply lookup_lt_Some).
Qed.

Lemma PInv_receive y ec data srcIp now oom :
  PInv y → zlen data <= BUFFER_SIZE → PInv (on_receive ec data srcIp now oom y).
Proof.
  intros Hy Hd. pose proof Hy as []. unfold on_receive.
  pose proof (onReceive_UInv B no_wrap ec data srcIp now oom (y_server y) Hd pi_server0) as Hu.
  pose proof (onReceive_effect ec data srcIp now oom (y_server y)) as (Ho & He & _). cbv zeta in Ho, He.
  set (s' := (onReceive ec data srcIp now oom (y_server y)).1) in *.
  cbn [y_ids y_live y_next set_stop set_server].
  assert (Hstop : y_stopped y = true → y_stopPosted y = false → u_open s' = false)
    by (intros H1 H2; rewrite Ho; by apply pi_stop0).
  destruct He as [[Hp Hc]|[Hp Hc]].
  - rewrite Hp, <- pi_ids0, (proj2 (Nat.eqb_neq _ _)) by lia. by apply PInv_server.
  - rewrite Hp, length_app, <- pi_ids0, (proj2 (Nat.eqb_eq _ _)) by (cbn; lia).
    assert (Hch : ∀ t b, charged y t b → charged (set_tokens (y_ids y ++ [y_next y]) (y_live y ++ [y_next y])
       (S (y_next y)) (set_stop false (y_stopPosted y) (y_stopped y) (set_server s' y))) t b).
    { intros t b Hb. destruct (charged_app y t b (y_ids y) [y_next y] 0 s' _ Hc Hb) as (j & ? & ?). by exists j. }
    constructor; cbn; try done.
    + rewrite Hp, !length_app, pi_ids0. done.
    + rewrite Hc, !length_app, pi_live0. done.
    + apply NoDup_app. split; [done|]. split; [|apply NoDup_singleton].
      intros t Ht ->%list_elem_of_singleton. rewrite Forall_forall in pi_next0. specialize (pi_next0 _ Ht). lia.
    + apply Forall_app. split; [|by constructor; [lia|]]. eapply Forall_impl; [exact pi_next0|]. cbn. lia.
    + intros k t p Hk Hkp. rewrite Hp in Hkp. apply lookup_app_Some in Hk as [Hk|[Hge Hk]].
      * rewrite lookup_app_l in Hkp by (rewrite <- pi_ids0; by eapply lookup_lt_Some). apply Hch. by eapply pi_posted0.
      * rewrite lookup_app_r in Hkp by lia. rewrite <- pi_ids0 in Hkp.
        destruct (k - length (y_ids y))%nat as [|n]; [|done]. cbn in Hk, Hkp. injection Hk as <-. injection Hkp as <-.
        exists (length (y_live y)). cbn. rewrite Hc, pi_live0, !lookup_app_r by lia.
        by rewrite !Nat.sub_diag, pi_live0, Nat.sub_diag.
    + intros msg Hq. destruct (pi_queued0 msg Hq) as (t & b & ? & ? & ?). exists t, b. auto.
    + intros Hst. split; [by apply pi_stop0|by apply Hstop].
Qed.

Lemma Stripped_length data d : Stripped data d → zlen d <= zlen data.
Proof. intros (s & -> & _). unfold zlen. rewrite length_app. lia. Qed.

Lemma dispatch_running msg m : Running m → Running (dispatch msg m).
Proof. intros Hm. by destruct (step_running (MDispatch msg) m Hm) as (m' & [= <-] & ? & _). Qed.
Lemma close_all_running m : Running m → Running (close_all m).
Proof. intros Hm. by destruct (step_running MClose m Hm) as (m' & [= <-] & ? & _). Qed.

Lemma PInv_posted y k :
  PInv y → (k < length (u_posted (y_server y)))%nat → ∃ y', run_posted k y = Ret y' ∧ PInv y'.
Proof.
  intros Hy Hk. pose proof Hy as [].
  destruct (lookup_lt_is_Some_2 _ _ Hk) as [p Hp]. rewrite <- pi_ids0 in Hk.
  destruct (lookup_lt_is_Some_2 _ _ Hk) as [t Ht]. unfold run_posted. rewrite Hp, Ht.
  unfold process. destruct (parseSyslog_raw (po_data p)) as (msg & -> & Hraw). cbn [mbind M_bind mret M_ret].
  eexists. split; [done|]. pose proof (pi_posted0 k t p Ht Hp) as Hch.
  set (msg' := with_source (po_srcIp p) t msg). constructor; cbn; try done.
  - by apply dispatch_running.
  - destruct pi_server0. by constructor.
  - intros f q. destruct (y_forwarder y) as [[f0 q0]|]; [|done]. cbn. intros [= <- <-].
    destruct (pi_forwarder0 f0 q0 eq_refl) as [? Hs]. split; [done|]. intros Hst.
    destruct (Hs Hst); [by left|right; apply elem_of_app; by left].
  - by apply length_delete_same.
  - intros j t' p' Hj Hjp. destruct (delete_lookup_inv _ _ _ _ Hj) as (j' & _ & Hj' & Hl).
    rewrite Hl in Hjp. destruct (pi_posted0 j' t' p' Hj' Hjp) as (i & ? & ?). by exists i.
  - assert (Hn : ∃ t0 b, admission msg' = Some t0 ∧ charged y t0 b ∧ zlen (raw msg') <= b).
    { exists t, (zlen (po_data p)). split; [done|]. split; [done|]. by apply Stripped_length. }
    assert (Hold : ∀ m0, queued y m0 ∨ m0 = msg' → ∃ t0 b, admission m0 = Some t0 ∧ charged y t0 b ∧ zlen (raw m0) <= b)
      by (intros m0 [Hq| ->]; [by apply pi_queued0|done]).
    intros m0 Hq. destruct (Hold m0) as (t0 & b & ? & (i & ? & ?) & ?); [|exists t0, b; split; [done|]; split; [by exists i|done]].
    unfold queued, forward_tasks in *. cbn in Hq. destruct Hq as [Hq|Hq].
    + apply elem_of_dispatch in Hq as [Hq|[= ->]]; [by left; left|by right].
    + destruct (y_forwarder y) as [[f0 q0]|]; [|by apply not_elem_of_nil in Hq]. cbn in Hq.
      apply elem_of_app in Hq as [Hq|Hq%list_elem_of_singleton]; [by left; right|]. injection Hq as ->. by right.
  - intros Hst. destruct (pi_stop0 Hst) as [Hc Ho]. split; [by apply dispatch_closing|done].
Qed.

Lemma PInv_strand y i rcv :
  PInv y → ∃ y', (m ← run_strand i rcv (y_outputs y); mret (set_outputs m y)) = Ret y' ∧ PInv y'.
Proof.
  intros Hy. destruct (step_running (MStrand i rcv) _ (pi_running _ Hy)) as (m' & Hr & Hm' & _). cbn in Hr.
  rewrite Hr. eexists. split; [done|].
  destruct (m_sinks (y_outputs y) !! i) as [s|] eqn:Hs; [destruct (ms_queue s) as [|t q] eqn:Hq|].
  - rewrite run_strand_empty in Hr by (intros s' Hs'; congruence). injection Hr as <-. by apply PInv_outputs; [|apply Hy|..].
  - destruct (run_strand_queues i rcv _ m' s t q (rn_inv _ (pi_running _ Hy)) Hs Hq Hr) as [Hqs Hc].
    apply PInv_outputs; [done|done| |done]. intros msg. apply (elem_of_queues_insert _ _ _ i t q); [|done].
    rewrite list_lookup_fmap, Hs. cbn. by rewrite Hq.
  - rewrite run_strand_empty in Hr by (intros s' Hs'; congruence). injection Hr as <-. by apply PInv_outputs; [|apply Hy|..].
Qed.

Lemma PInv_timer y i :
  PInv y → ∃ y', (m ← on_sink i (STimer false) (y_outputs y); mret (set_outputs m y)) = Ret y' ∧ PInv y'.
Proof.
  intros Hy. destruct (on_sink_running i (STimer false) _ I (pi_running _ Hy)) as (m' & Hr & Hm' & _). rewrite Hr.
  eexists. split; [done|]. destruct (on_sink_queues i _ _ m' (rn_inv _ (pi_running _ Hy)) Hr) as [Hq _].
  apply PInv_outputs; [done|done| |by eapply on_sink_closing, Hr; apply Hy].
  intros msg. by rewrite !elem_of_queues, Hq.
Qed.

Lemma stop_FInv f : FInv f → FInv (Forwarder.stop f) ∧ Forwarder.m_stopping (Forwarder.stop f) = true.
Proof. intros Hf. by destruct (Forwarder.step_FInv f Forwarder.Stop Hf) as (f' & [= <-] & ? & _). Qed.

Lemma doForward_stopping msg sent f f' :
  doForward msg sent f = Ret f' → Forwarder.m_stopping f' = Forwarder.m_stopping f.
Proof.
  unfold doForward. destruct (negb _); [by intros [= <-]|]. destruct (negb _); [by intros [= <-]|].
  destruct (negb _); [by intros [= <-]|]. destruct (m_endpoint f) as [e|]; [|done].
  intros (payload & _ & [= <-])%bind_Ret_inv. by destruct sent.
Qed.

Lemma PInv_forward y sent : PInv y → ∃ y', run_forwarder sent y = Ret y' ∧ PInv y'.
Proof.
  intros Hy. unfold run_forwarder. destruct (y_forwarder y) as [[f [|[msg|] q]]|] eqn:Hf; try by exists y.
  - destruct (pi_forwarder _ Hy _ _ Hf) as [Hi _].
    destruct (Forwarder.step_FInv f (Forwarder.Forward msg sent) Hi) as (f' & Hd & Hi' & _). cbn in Hd. rewrite Hd. eexists. split; [done|].
    eapply PInv_forwarder; [done|done|done|by right|]. intros _ [Hs|Hs]; [|by apply elem_of_cons in Hs as [|?]; [|right]].
    left. assert (Hk : Forwarder.m_stopping f' = Forwarder.m_stopping f); [|congruence].
    clear -Hd. by apply doForward_stopping in Hd.
  - destruct (pi_forwarder _ Hy _ _ Hf) as [Hi _]. destruct (stop_FInv f Hi) as [Hi' Hs].
    eexists. split; [done|]. eapply PInv_forwarder; [done|done|done|by right|]. by left.
Qed.

(** A handler of the forwarder that keeps its queue. *)
Lemma PInv_on_forwarder y g :
  PInv y → (∀ f, FInv f → FInv (g f) ∧ Forwarder.m_stopping (g f) = Forwarder.m_stopping f) → PInv (on_forwarder g y).
Proof.
  intros Hy Hg. unfold on_forwarder. destruct (y_forwarder y) as [[f q]|] eqn:Hf; cbn [fmap option_fmap option_map].
  - destruct (pi_forwarder _ Hy _ _ Hf) as [Hi _]. destruct (Hg f Hi) as [Hi' Hs].
    eapply PInv_forwarder; [done|done|done|done|]. by rewrite Hs.
  - destruct Hy. constructor; try done; unfold queued, forward_tasks in *; cbn. by rewrite Hf in pi_queued0.
Qed.

Lemma PInv_free y j t :
  PInv y → y_live y !! j = Some t → t ∉ held y → PInv (free_token j y).
Proof.
  intros Hy Hj Hh. pose proof Hy as []. destruct (release_charges j (y_server y)) as (Hc & Hp & Ho & _).
  assert (Hkeep : ∀ t' b, t' ∈ held y → charged y t' b → charged (free_token j y) t' b).
  { intros t' b Hin (i & Hi & Hb). assert (Hij : i ≠ j) by (intros ->; congruence).
    destruct (delete_lookup_other (y_live y) j i t' Hij Hi) as (k & Hk & Hl).
    exists k. cbn. by rewrite Hc, Hk, Hl. }
  constructor; cbn; rewrite ?Hp, ?Hc, ?Ho; try done.
  - by apply (step_UInv B no_wrap (y_server y) (Release j) I).
  - by apply length_delete_same.
  - by apply NoDup_delete.
  - rewrite Forall_forall in *. intros t' Ht. apply pi_next0. apply list_elem_of_lookup in Ht as [k Hk].
    destruct (delete_lookup_inv _ _ _ _ Hk) as (k' & _ & Hk' & _). by eapply list_elem_of_lookup_2.
  - intros k t' p Hk Hkp. apply Hkeep; [|by eapply pi_posted0].
    unfold held. apply elem_of_app. left. by eapply list_elem_of_lookup_2.
  - intros msg Hq. destruct (pi_queued0 msg Hq) as (t' & b & Ha & Hb & Hl). exists t', b. split; [done|]. split; [|done].
    apply Hkeep; [|done]. unfold held. rewrite !elem_of_app, !list_elem_of_bind.
    right. destruct Hq as [Hq|Hq]; [left; exists (TWrite msg)|right; exists (FForward msg)];
      (split; [cbn; rewrite Ha; by left|done]).
Qed.

Lemma PInv_shutdown y : PInv y → PInv (shutdown y).
Proof.
  intros []. constructor; cbn; try done.
  - by apply close_all_running.
  - intros f q. destruct (y_forwarder y) as [[f0 q0]|]; [|done]. cbn. intros [= <- <-].
    destruct (pi_forwarder0 f0 q0 eq_refl) as [? _]. split; [done|]. intros _. right. apply elem_of_app. right. by left.
  - intros msg Hq. destruct (pi_queued0 msg) as (t & b & ? & (i & ? & ?) & ?);
      [|exists t, b; split; [done|]; split; [by exists i|done]].
    unfold queued, forward_tasks in *. cbn in Hq. destruct Hq as [Hq|Hq].
    + apply elem_of_close_all in Hq as [|?]; [by left|done].
    + right. destruct (y_forwarder y) as [[f0 q0]|]; [|by apply not_elem_of_nil in Hq]. cbn in Hq.
      by apply elem_of_app in Hq as [|Hq%list_elem_of_singleton].
  - intros _. split; [apply close_all_closing|done].
Qed.

Lemma PInv_run_stop y now : PInv y → PInv (run_stop now y).
Proof.
  intros Hy. unfold run_stop. apply PInv_server; [done|by apply (step_UInv B no_wrap _ (Stop now)), Hy| | |].
  - unfold UdpServer.stop. by destruct (reportDrops_queues true now (set_socket false (u_receiving (y_server y)) (u_rearmTimer (y_server y)) (y_server y))) as [-> _].
  - unfold UdpServer.stop. by destruct (reportDrops_queues true now (set_socket false (u_receiving (y_server y)) (u_rearmTimer (y_server y)) (y_server y))) as [_ ->].
  - intros _ _. unfold UdpServer.stop. match goal with |- context [reportDrops true now ?x] =>
      destruct (reportDrops_socket true now x) as (-> & _) end. done.
Qed.

(** No handler throws or leaves a string, and the invariant is kept. *)
Lemma sys_step_PInv y e :
  PInv y → enabled y e = true → ∃ y', sys_step y e = Ret y' ∧ PInv y'.
Proof.
  intros Hy He. destruct e as [ec data srcIp now oom|cancelled|now|k|i rcv|i|sent|ec results opened| |j| |t faults];
    cbn [sys_step enabled] in *.
  - eexists. split; [done|]. apply PInv_receive; [done|]. lia.
  - eexists. split; [done|].
    apply PInv_server; [done| |by destruct cancelled|by destruct cancelled|destruct cancelled; by apply Hy].
    pose proof (step_UInv B no_wrap (y_server y) (Rearm cancelled) I (pi_server _ Hy)) as Hu.
    unfold step, possible in Hu. by rewrite He in Hu.
  - eexists. split; [done|]. by apply PInv_run_stop.
  - apply PInv_posted; [done|]. by apply Nat.ltb_lt.
  - by apply PInv_strand.
  - by apply PInv_timer.
  - by apply PInv_forward.
  - eexists. split; [done|]. apply PInv_on_forwarder; [done|]. intros f Hf.
    destruct (Forwarder.step_FInv f (Forwarder.Resolved ec results opened) Hf) as (f' & [= <-] & ? & _). split; [done|].
    destruct (m_resolver f); [|done]. unfold onResolved, useEndpoint, scheduleResolveRetry.
    repeat (case_match; cbn in *; try done).
  - eexists. split; [done|]. destruct (y_forwarder y) as [[f q]|] eqn:Hf; [|done].
    assert (Hon : on_forwarder (onRetry false) y =
      on_forwarder (λ f, if Forwarder.m_retryTimer f then onRetry false f else f) y).
    { unfold on_forwarder. rewrite Hf. cbn. by rewrite He. }
    rewrite Hon. apply PInv_on_forwarder; [done|]. intros g Hg. destruct (Forwarder.m_retryTimer g) eqn:Hr; [|done].
    destruct (Forwarder.step_FInv g (Forwarder.Retry false) Hg) as (g' & Hs & ? & _). cbn in Hs. rewrite Hr in Hs. injection Hs as <-.
    split; [done|]. unfold onRetry. cbn. by destruct (Forwarder.m_stopping g) eqn:E.
  - destruct (y_live y !! j) as [t|] eqn:Hj; [|done]. apply bool_decide_eq_true in He.
    eexists. split; [done|]. by eapply PInv_free.
  - eexists. split; [done|]. by apply PInv_shutdown.
  - eexists. split; [done|].
    destruct (step_running (MEnvironment t faults) _ (pi_running _ Hy)) as (m' & [= <-] & ? & _).
    by apply PInv_outputs.
Qed.

Lemma path_PInv y es y' : PInv y → path y es y' → PInv y'.
Proof.
  intros Hy Hp. induction Hp as [|es y1 e y' _ IH He Hs]; [done|].
  destruct (sys_step_PInv y1 e IH He) as (y2 & Hs2 & ?). congruence.
Qed.
End invariant.

(** ** The memory held *)

Definition charge_of (y : Process) (t : nat) : Z :=
  match list_find (λ x, x = t) (y_live y) with
  | Some (j, _) => default 0 (u_charges (y_server y) !! j)
  | None => 0
  end.

(** The bytes of the distinct datagrams that some task still holds. *)
Definition held_bytes (y : Process) : Z := zsum (charge_of y) (remove_dups (held y)).

Lemma zsum_submseteq {A} (f : A → Z) (l k : list A) :
  (∀ x, 0 <= f x) → l ⊆+ k → zsum f l <= zsum f k.
Proof. intros Hf. induction 1; cbn; try (pose proof (Hf x)); lia. Qed.

Section memory.
Context `{LogEnv} (B : Z) (no_wrap : 0 <= B ∧ B + BUFFER_SIZE < 2 ^ 64).

Lemma charged_charge_of y t b : NoDup (y_live y) → charged y t b → charge_of y t = b.
Proof.
  intros Hn (j & Hj & Hb). unfold charge_of.
  rewrite (proj2 (list_find_Some (λ x, x = t) (y_live y) j t)); [by rewrite Hb|].
  split_and!; [done|done|]. intros k x Hk Hlt ->. assert (k = j); [by eapply NoDup_lookup|lia].
Qed.

Lemma charge_of_nonneg y t : PInv B y → 0 <= charge_of y t.
Proof.
  intros [_ [_ _ _ Hc _ _] _ _ _ _ _ _ _ _]. unfold charge_of. destruct (list_find _ _) as [[j x]|]; [|done].
  destruct (u_charges (y_server y) !! j) eqn:E; [|done]. rewrite Forall_lookup in Hc. by eapply Hc.
Qed.

Lemma charge_of_sum y : PInv B y → zsum (charge_of y) (y_live y) = zsum id (u_charges (y_server y)).
Proof.
  intros [_ _ _ _ Hl Hn _ _ _ _].
  assert (Hz : ∀ (l : list nat) (cs : list Z), length l = length cs →
    (∀ j t b, l !! j = Some t → cs !! j = Some b → charge_of y t = b) → zsum (charge_of y) l = zsum id cs).
  { induction l as [|t l IH]; intros [|b cs] Hlen Hall; try done. cbn. rewrite (Hall 0%nat t b) by done.
    rewrite (IH cs); [done|by injection Hlen|]. intros j. exact (Hall (S j)). }
  apply Hz; [done|]. intros j t b Hj Hb. apply charged_charge_of; [done|]. by exists j.
Qed.

Lemma held_live y t : PInv B y → t ∈ held y → ∃ b, charged y t b.
Proof.
  intros [_ _ _ Hids _ _ _ Hp Hq _]. unfold held. rewrite !elem_of_app, !list_elem_of_bind.
  intros [(k & Hk)%list_elem_of_lookup|[([msg|] & Ht & Hin)|([msg|] & Ht & Hin)]].
  - assert (Hlt : (k < length (u_posted (y_server y)))%nat) by (rewrite <- Hids; by eapply lookup_lt_Some).
    destruct (lookup_lt_is_Some_2 _ _ Hlt) as [p Hkp]. eexists. by eapply Hp.
  - destruct (Hq msg) as (t' & b & Ha & ? & _); [by left|]. cbn in Ht. rewrite Ha in Ht.
    apply list_elem_of_singleton in Ht as ->. by exists b.
  - by apply not_elem_of_nil in Ht.
  - destruct (Hq msg) as (t' & b & Ha & ? & _); [by right|]. cbn in Ht. rewrite Ha in Ht.
    apply list_elem_of_singleton in Ht as ->. by exists b.
  - by apply not_elem_of_nil in Ht.
Qed.

Lemma held_bytes_bound y : PInv B y → held_bytes y <= inFlight (u_admission (y_server y)) <= B.
Proof.
  intros Hy. pose proof (pi_server _ _ Hy) as [_ Hc Hb _ Hlk _]. split; [|lia]. unfold held_bytes.
  rewrite Hc, <- (charge_of_sum y Hy).
  assert (zsum (charge_of y) (remove_dups (held y)) <= zsum (charge_of y) (y_live y)); [|lia].
  apply zsum_submseteq; [intros t; by apply charge_of_nonneg|].
  apply NoDup_submseteq; [apply NoDup_remove_dups|]. intros t Ht. rewrite elem_of_remove_dups in Ht.
  destruct (held_live y t Hy Ht) as (b & j & Hj & _). by eapply list_elem_of_lookup_2.
Qed.
End memory.
