(* ===== verification/Shutdown.v ===== *)
(** * From the start to the end of a run

    The two promises the whole server makes about what it keeps in memory and
    about ending: over every schedule, what is queued anywhere stays within
    max_queue_bytes, and once a shutdown was requested the queues drain and
    nothing is left that would keep [io_context::run] from returning. *)

From S2P Require Import Prelude Names Parser ParserSpec Platform Config ConfigSpec Escape Admission Backoff FileSystem LogFile LogFileSpec Lifecycle Sinks OutputManager Forwarder UdpServer Server Isolation Interleaving Process.

(** ** What is left to do *)

Definition queues (m : Manager) : list (list Task) := ms_queue <$> m_sinks m.
Fixpoint qlen (qs : list (list Task)) : nat :=
  match qs with [] => 0 | q :: qs' => length q + qlen qs' end.

Lemma qlen_pop qs i t q : qs !! i = Some (t :: q) → S (qlen (<[i := q]> qs)) = qlen qs.
Proof.
  revert i. induction qs as [|q0 qs IH]; intros [|i] Hi; [done|done| |].
  - injection Hi as ->. done.
  - cbn in Hi. specialize (IH i Hi). change (<[S i := q]> (q0 :: qs)) with (q0 :: <[i := q]> qs).
    cbn [qlen]. lia.
Qed.
Lemma qlen_dispatch msg m : (qlen (queues (dispatch msg m)) <= qlen (queues m) + length (m_sinks m))%nat.
Proof.
  unfold queues, dispatch. cbn. induction (m_sinks m) as [|s l IH]; [done|]. cbn.
  destruct (accepts msg s); cbn; rewrite ?length_app; cbn; lia.
Qed.
Lemma qlen_zero qs : qlen qs = 0%nat → Forall (λ q, q = []) qs.
Proof.
  induction qs as [|q qs IH]; [done|]. cbn. intros Hz. constructor; [|apply IH; lia].
  destruct q; [done|cbn in Hz; lia].
Qed.

(** A posted datagram becomes at most one task of every sink and of the
    forwarder; a receive that may still bring one, a task, a charge and one more
    receive. *)
Definition work (y : Process) : nat :=
  let n := length (m_sinks (y_outputs y)) in
  length (u_posted (y_server y)) * (n + 2) + length (y_live y) + qlen (queues (y_outputs y)) +
  length (forward_tasks y) +
  (if u_receiving (y_server y) then if y_late y then n + 5 else 1 else 0) +
  (if u_rearmTimer (y_server y) then 2 else 0).

(** What a worker does on its own; a timer, a lookup or the machine is not. *)
Definition progress (e : SysEvent) : bool :=
  match e with YTimer _ | YResolved _ _ _ | YRetry | YEnvironment _ _ => false | _ => true end.

(** All that a shutdown posted to the socket has run. *)
Definition draining (y : Process) : Prop := y_stopped y = true ∧ y_stopPosted y = false.

(** Nothing is pending that would keep [io_context::run] from returning, but for a
    lookup in flight; the files are closed, and no charge is left but those that
    could not be allocated. *)
Record idle (y : Process) : Prop := {
  id_socket : u_open (y_server y) = false ∧ u_receiving (y_server y) = false ∧ u_rearmTimer (y_server y) = false;
  id_posted : u_posted (y_server y) = [];
  id_sinks : Forall (λ s, ms_queue s = [] ∧ m_closed (ms_file s) = true ∧ m_shuttingDown (ms_file s) = true ∧
                          LogFile.m_retryTimer (ms_file s) = false ∧ ∀ wh, detached wh (ms_file s))
                    (m_sinks (y_outputs y));
  id_forwarder : ∀ f q, y_forwarder y = Some (f, q) →
    q = [] ∧ Forwarder.m_stopping f = true ∧ Forwarder.m_retryTimer f = false;
  id_charges : u_charges (y_server y) = [] ∧ inFlight (u_admission (y_server y)) = u_leaked (y_server y)
}.

Section drain.
Context `{LogEnv} (B : Z) (no_wrap : 0 <= B ∧ B + BUFFER_SIZE < 2 ^ 64).

Lemma on_sink_length i e m m' : on_sink i e m = Ret m' → length (m_sinks m') = length (m_sinks m).
Proof.
  unfold on_sink. destruct (m_sinks m !! i); [|by intros [= <-]].
  destruct (handle e _) as [[u w]| |]; cbn; [|done|done]. intros [= <-]. cbn. by rewrite length_insert.
Qed.

Lemma work_receive y ec data srcIp now oom :
  PInv B y → draining y → enabled y (YReceive ec data srcIp now oom) = true →
  (work (on_receive ec data srcIp now oom y) < work y)%nat.
Proof.
  intros Hy [Hst Hsp] He. pose proof (proj2 (pi_stop _ _ Hy Hst) Hsp) as Ho. cbn in He. rewrite Ho in He.
  apply andb_true_iff in He as [[Hr Hd]%andb_true_iff He]. pose proof (pi_ids _ _ Hy) as Hids.
  unfold on_receive, work. pose proof (onReceive_effect ec data srcIp now oom (y_server y)) as (_ & Hp & Hec).
  cbv zeta in Hp, Hec. set (s' := (onReceive ec data srcIp now oom (y_server y)).1) in *. clearbody s'. rewrite Hr.
  cbn [y_ids set_stop set_server]. destruct ec as [[| |what]|].
  1-3: destruct Hec as (Hr' & Ht & Hp'); rewrite Hp', <- Hids, (proj2 (Nat.eqb_neq _ _)) by lia; cbn;
    rewrite Hr', Ht, Hp'; unfold forward_tasks; cbn; destruct (y_late y); cbn in He; try done; lia.
  - cbn in He. rewrite He. destruct Hp as [[Hp _]|[Hp _]]; rewrite Hp.
    + rewrite <- Hids, (proj2 (Nat.eqb_neq _ _)) by lia. cbn. rewrite Hp, Hec. unfold forward_tasks. cbn.
      destruct (u_receiving s'); lia.
    + rewrite length_app, <- Hids, (proj2 (Nat.eqb_eq _ _)) by (cbn; lia). cbn. rewrite Hp, Hec, !length_app.
      unfold forward_tasks. cbn. destruct (u_receiving s'); lia.
Qed.

Lemma work_posted y k y' :
  enabled y (YPosted k) = true → length (y_ids y) = length (u_posted (y_server y)) →
  run_posted k y = Ret y' → (work y' < work y)%nat.
Proof.
  intros Hk%Nat.ltb_lt Hids Hr. unfold run_posted, process in Hr.
  destruct (lookup_lt_is_Some_2 _ _ Hk) as [p Hp]. assert (Hk' : (k < length (y_ids y))%nat) by lia.
  destruct (lookup_lt_is_Some_2 _ _ Hk') as [t Ht]. rewrite Hp, Ht in Hr.
  apply bind_Ret_inv in Hr as ([m fw] & (msg & _ & [= <- <-])%bind_Ret_inv & [= <-]). unfold work, forward_tasks. cbn.
  rewrite length_fmap, length_delete by by eexists.
  pose proof (qlen_dispatch (with_source (po_srcIp p) t msg) (y_outputs y)) as Hq. unfold queues, dispatch in Hq |- *.
  cbn [m_sinks] in Hq. clear Hp Ht Hk' Hids. destruct (length (u_posted (y_server y))) as [|n]; [lia|].
  replace (S n - 1)%nat with n by lia.
  destruct (y_forwarder y) as [[f q]|]; cbn; rewrite ?length_app; cbn; lia.
Qed.

(** A step of a worker leaves less to do, and nothing adds to it. *)
Lemma work_step y e y' :
  PInv B y → draining y → enabled y e = true → sys_step y e = Ret y' →
  draining y' ∧ (work y' + (if progress e then 1 else 0) <= work y)%nat.
Proof.
  intros Hy Hdr He Hs. pose proof Hdr as [Hst Hsp].
  destruct e as [ec data srcIp now oom|cancelled|now|k|i rcv|i|sent|ec results opened| |j| |t faults]; cbn [sys_step progress] in *.
  - injection Hs as <-. pose proof (work_receive y ec data srcIp now oom Hy Hdr He). split; [|lia].
    unfold on_receive. by destruct (_ =? _)%nat.
  - injection Hs as <-. split; [done|]. cbn in He. apply andb_true_iff in He as [He _].
    unfold work, forward_tasks. rewrite He. destruct cancelled; cbn; destruct (u_receiving (y_server y)), (y_late y); lia.
  - cbn in He. congruence.
  - pose proof (work_posted y k y' He (pi_ids _ _ Hy) Hs). split; [|lia]. unfold run_posted in Hs.
    destruct (u_posted (y_server y) !! k); [|by injection Hs as <-].
    destruct (y_ids y !! k); [|by injection Hs as <-]. by apply bind_Ret_inv in Hs as ([m fw] & _ & [= <-]).
  - apply bind_Ret_inv in Hs as (m' & Hr & [= <-]). split; [done|]. cbn in He.
    destruct (m_sinks (y_outputs y) !! i) as [s|] eqn:Hi; [|done].
    destruct (ms_queue s) as [|t q] eqn:Hq; [done|].
    destruct (run_strand_queues i rcv _ m' s t q (rn_inv _ (pi_running _ _ Hy)) Hi Hq Hr) as [Hqs _].
    assert (Hl : length (m_sinks m') = length (m_sinks (y_outputs y)))
      by (by rewrite <- (length_fmap ms_queue), Hqs, length_insert, length_fmap).
    unfold work, forward_tasks. cbn. rewrite Hl. unfold queues. rewrite Hqs.
    rewrite <- (qlen_pop (ms_queue <$> m_sinks (y_outputs y)) i t q); [lia|].
    rewrite list_lookup_fmap, Hi. cbn. by rewrite Hq.
  - apply bind_Ret_inv in Hs as (m' & Hr & [= <-]). split; [done|].
    destruct (on_sink_queues i _ _ m' (rn_inv _ (pi_running _ _ Hy)) Hr) as [Hq _].
    unfold work, forward_tasks, queues. cbn. rewrite Hq, (on_sink_length _ _ _ _ Hr). lia.
  - unfold run_forwarder in Hs. unfold enabled, forward_tasks in He. unfold work, forward_tasks.
    destruct (y_forwarder y) as [[f [|[msg|] q]]|]; try done.
    + apply bind_Ret_inv in Hs as (f' & _ & [= <-]). split; [done|]. cbn. lia.
    + injection Hs as <-. split; [done|]. cbn. lia.
  - injection Hs as <-. split; [done|]. unfold work, forward_tasks. cbn. destruct (y_forwarder y) as [[f q]|]; cbn; lia.
  - injection Hs as <-. split; [done|]. unfold work, forward_tasks. cbn. destruct (y_forwarder y) as [[f q]|]; cbn; lia.
  - injection Hs as <-. split; [done|]. cbn in He. destruct (y_live y !! j) as [t|] eqn:Hj; [|done].
    destruct (release_charges j (y_server y)) as (_ & Hp & _ & Hr & Ht).
    unfold work, forward_tasks. cbn. rewrite Hp, Hr, Ht, length_delete by by eexists.
    apply lookup_lt_Some in Hj. lia.
  - cbn in He. rewrite Hst in He. done.
  - injection Hs as <-. split; [done|]. unfold work, forward_tasks, queues. cbn. lia.
Qed.

Lemma path_work y es y' :
  PInv B y → draining y → path y es y' →
  PInv B y' ∧ draining y' ∧ (work y' + length (filter (λ e, progress e = true) es) <= work y)%nat.
Proof.
  intros Hy Hd Hp. induction Hp as [|es y1 e y' _ IH He Hs]; [cbn; split_and!; [done|done|lia]|].
  destruct IH as (Hy1 & Hd1 & Hw). destruct (sys_step_PInv B no_wrap y1 e Hy1 He) as (y2 & Hs2 & Hy2).
  rewrite Hs in Hs2. injection Hs2 as <-. destruct (work_step y1 e y' Hy1 Hd1 He Hs) as [Hd2 Hw2].
  split; [done|]. split; [done|]. rewrite filter_app, length_app.
  rewrite filter_cons, filter_nil. destruct (progress e); [rewrite decide_True by done|rewrite decide_False by done]; cbn; lia.
Qed.

(** When no worker has anything to do, there is nothing to do at all. *)
Lemma no_progress_idle y :
  PInv B y → draining y → (∀ e, progress e = true → enabled y e = false) → idle y.
Proof.
  intros Hy [Hst Hsp] He. destruct (pi_stop _ _ Hy Hst) as [Hcl Ho]. specialize (Ho Hsp).
  assert (Hposted : u_posted (y_server y) = []).
  { pose proof (He (YPosted 0) eq_refl) as Hp. cbn in Hp. by destruct (u_posted (y_server y)). }
  assert (Hq : Forall (λ s, ms_queue s = []) (m_sinks (y_outputs y))).
  { apply Forall_lookup. intros i s Hs. pose proof (He (YStrand i []) eq_refl) as Hp. cbn in Hp. rewrite Hs in Hp.
    by apply negb_false_iff, bool_decide_eq_true in Hp. }
  assert (Hf : forward_tasks y = []).
  { pose proof (He (YForward None) eq_refl) as Hp. cbn in Hp. by destruct (forward_tasks y). }
  assert (Htasks : sink_tasks (y_outputs y) = []).
  { unfold sink_tasks. clear -Hq. induction Hq as [|s l Hs _ IH]; [done|]. cbn. by rewrite Hs, IH. }
  assert (Hlive : y_live y = []).
  { destruct (y_live y) as [|t l] eqn:Hl; [done|]. pose proof (He (YFree 0) eq_refl) as Hp. cbn in Hp. rewrite Hl in Hp.
    cbn in Hp. apply bool_decide_eq_false in Hp. exfalso. apply Hp. unfold held. rewrite Htasks, Hf.
    pose proof (pi_ids _ _ Hy) as Hi. rewrite Hposted in Hi. destruct (y_ids y); [|done]. apply not_elem_of_nil. }
  assert (Hch : u_charges (y_server y) = []).
  { pose proof (pi_live _ _ Hy) as Hl. rewrite Hlive in Hl. by destruct (u_charges (y_server y)). }
  constructor.
  - split; [done|]. split.
    + pose proof (He (YReceive (Some OperationAborted) [] [] 0 None) eq_refl) as Hp. cbn in Hp. rewrite Ho in Hp.
      by destruct (u_receiving (y_server y)).
    + pose proof (He (YRearm false) eq_refl) as Hp. cbn in Hp. by rewrite andb_true_r in Hp.
  - done.
  - pose proof (rn_inv _ (pi_running _ _ Hy)) as Hi. rewrite Forall_forall in *. intros s Hs.
    pose proof (Hi s Hs) as []. pose proof (Hq s Hs) as Hqs. cbn in *.
    destruct (Hcl s Hs) as [Hd|Hin]; [|rewrite Hqs in Hin; by apply not_elem_of_nil in Hin].
    split_and!; [done|auto|done|by rewrite inv_retry, Hd, andb_false_r|auto].
  - intros f q Hfq. unfold forward_tasks in Hf. rewrite Hfq in Hf. subst q.
    destruct (pi_forwarder _ _ Hy f [] Hfq) as [Hi Hs]. destruct (Hs Hst) as [Hs'|Hin]; [|by apply not_elem_of_nil in Hin].
    split; [done|]. split; [done|]. by apply (fi_stopped _ Hi).
  - split; [done|]. rewrite (ui_charged _ _ (pi_server _ _ Hy)), Hch. cbn. lia.
Qed.
End drain.

Section run.
Context `{PropertyTree T} `{BoostStrings} `{Machine} `{LogEnv}.

(** ** What [runServer] starts *)

Lemma started_parts (env : ServerEnv T) r sd :
  runServer env = Ret r → rn_started r = Some sd →
  ∃ tree cfg, LoadedFrom tree cfg ∧ open_all (new_OutputManager cfg (ev_os env)) = Ret (true, sd_outputs sd) ∧
    make_forwarder cfg.(cfg_forwarding) env = Ret (sd_forwarder sd) ∧
    start (ev_address_error env) None (new_UdpServer cfg) = Ret (sd_server sd) ∧ u_cfg (sd_server sd) = cfg.
Proof.
  intros Hr Hs. unfold runServer in Hr.
  destruct (yields_cases _ _ (loadConfig_yields (ev_config env))) as [(cfg & Hcfg & tree & Htree & Hl)|(w & Hcfg)];
    rewrite Hcfg in Hr; [|injection Hr as <-; done].
  destruct (open_all_spec cfg (ev_os env) (loaded_outputs _ _ Hl)) as (ok & m & Ho & _).
  rewrite Ho in Hr. cbn [mbind M_bind] in Hr. destruct ok; cbn [negb] in Hr; [|injection Hr as <-; done].
  destruct (make_forwarder (cfg_forwarding cfg) env) as [fwd|what|] eqn:Hf; [|injection Hr as <-; done|done].
  assert (Hb : start (ev_address_error env) (ev_bind env) (new_UdpServer cfg) =
    match ev_bind env with None => start (ev_address_error env) None (new_UdpServer cfg)
    | Some _ => start (ev_address_error env) (ev_bind env) (new_UdpServer cfg) end) by by destruct (ev_bind env).
  destruct (start (ev_address_error env) (ev_bind env) (new_UdpServer cfg)) as [server|e|] eqn:Hst;
    [|injection Hr as <-; done|done].
  assert (Hn : ev_bind env = None).
  { unfold start in Hst. destruct (make_address _); [|done]. by destruct (ev_bind env). }
  rewrite Hn in Hst. destruct (start_threads _ _) as [n line], (run_workers _ _) as [clean lines].
  injection Hr as <-. cbn in Hs. injection Hs as <-. cbn. exists tree, cfg. split_and!; try done.
  unfold start in Hst. destruct (make_address _); [|done]. by injection Hst as <-.
Qed.

Lemma started_PInv (env : ServerEnv T) r sd :
  runServer env = Ret r → rn_started r = Some sd →
  let cfg := u_cfg (sd_server sd) in
  apart (cfg_outputs cfg) → cfg_maxQueueBytes cfg + BUFFER_SIZE < 2 ^ 64 →
  0 <= cfg_maxQueueBytes cfg ∧ PInv (cfg_maxQueueBytes cfg) (process_of sd).
Proof.
  cbv zeta. intros Hr Hs. destruct (started_parts env r sd Hr Hs) as (tree & cfg & Hl & Ho & Hf & Hst & ->).
  intros Ha Hw. pose proof (lf_queue_range _ _ Hl) as Hq.
  assert (Hnw : 0 <= cfg_maxQueueBytes cfg ∧ cfg_maxQueueBytes cfg + BUFFER_SIZE < 2 ^ 64) by lia.
  split; [lia|].
  destruct (open_all_running cfg (ev_os env) (sd_outputs sd) (loaded_outputs _ _ Hl) Ha Ho) as (Hm & _).
  destruct (open_all_spec cfg (ev_os env) (loaded_outputs _ _ Hl)) as (ok & m & Ho' & _ & _ & _ & _ & Hqs & _).
  rewrite Ho in Ho'. injection Ho' as <- <-.
  pose proof (start_UInv _ Hnw cfg _ _ eq_refl Hst) as Hu.
  assert (Hp : u_posted (sd_server sd) = [] ∧ u_charges (sd_server sd) = []).
  { unfold start in Hst. destruct (make_address _); [|done]. by injection Hst as <-. }
  destruct Hp as [Hp Hc]. constructor; cbn; rewrite ?Hp, ?Hc; try done; try by constructor.
  - intros f q. destruct (sd_forwarder sd) as [f0|] eqn:Hfw; [|done]. cbn. intros [= <- <-]. split; [|done].
    unfold make_forwarder in Hf. destruct (fc_enabled _); [|done]. destruct (ev_forwarder_throws env); [done|].
    injection Hf as <-. apply new_FInv. pose proof (lf_forwarding _ _ Hl) as Hfo.
    destruct (pt_child tree (lit "forwarding")) as [fo|]; [by destruct (fo_size_range _ _ Hfo)|by rewrite Hfo].
  - intros msg [Hin|Hin].
    + apply elem_of_sink_tasks in Hin as (s & Hsin & Ht). rewrite Forall_forall in Hqs.
      rewrite (Hqs s Hsin) in Ht. by apply not_elem_of_nil in Ht.
    + unfold forward_tasks in Hin. cbn in Hin. destruct (sd_forwarder sd); by apply not_elem_of_nil in Hin.
Qed.


(** C15. A shutdown ends the server: once the shutdown handler and what it posted
    to the socket have run, the workers have a bounded amount left to do, however
    their handlers, the timers, the lookups and the failures interleave (a
    handler that runs always takes from it, and nothing adds to it); and when no
    worker has a handler to run, nothing is pending at all but for a lookup in
    flight: the socket, the strands and the timers are idle, every sink has
    closed its files, and every token has been given back. *)
Theorem shutdown_drains (env : ServerEnv T) r sd es0 y0 es y :
  runServer env = Ret r → rn_started r = Some sd →
  apart (cfg_outputs (u_cfg (sd_server sd))) → cfg_maxQueueBytes (u_cfg (sd_server sd)) + BUFFER_SIZE < 2 ^ 64 →
  path (process_of sd) es0 y0 → draining y0 → path y0 es y →
  (length (filter (λ e, progress e = true) es) + work y <= work y0)%nat ∧
  ((∀ e, progress e = true → enabled y e = false) → idle y).
Proof.
  intros Hr Hs Ha Hw Hp0 Hd Hp. destruct (started_PInv env r sd Hr Hs Ha Hw) as [Hge Hi0].
  pose proof (path_PInv _ (conj Hge Hw) _ _ _ Hi0 Hp0) as Hi.
  destruct (path_work _ (conj Hge Hw) y0 es y Hi Hd Hp) as (Hy & Hdy & Hwork). split; [lia|].
  by apply no_progress_idle with (B := cfg_maxQueueBytes (u_cfg (sd_server sd))).
Qed.
End run.

(** ** A concrete run *)

Definition run_ini : ini :=
  let kv (k v : string) := (lit k, Ini (lit v) []) in
  Ini [] [ (lit "server", Ini [] [kv "host" "127.0.0.1"; kv "udp_port" "5514"; kv "max_queue_bytes" "50B"]);
           (lit "output.all", Ini [] [kv "text_file" "/l/a.log"; kv "jsonl_file" "/l/a.jsonl"]);
           (lit "output.auth", Ini [] [kv "text_file" "/m/b.log"; kv "facility" "auth"]);
           (lit "forwarding", Ini [] [kv "enabled" "true"; kv "host" "10.0.0.5"]) ].
Definition run_env : ServerEnv ini :=
  mkServerEnv ini (inr run_ini) (mkOs ∅ [] 0 []) None None [] None None (λ _, []) None.
Definition the_run : ServerRun :=
  match run_linux run_env with Ret r => r | _ => failed_start None [] end.
Definition the_start : Started :=
  default (mkStarted (new_UdpServer defaultConfig) (mkManager (mkOs ∅ [] 0 []) []) None 0 (setup_shutdown None)) (rn_started the_run).

Definition starts (m : M ServerRun) : bool :=
  match m with Ret r => bool_decide (is_Some (rn_started r)) | _ => false end.
Lemma the_run_eq : run_linux run_env = Ret the_run ∧ rn_started the_run = Some the_start.
Proof.
  assert (E : starts (run_linux run_env) = true) by (vm_compute; reflexivity).
  unfold the_start, the_run. destruct (run_linux run_env) as [r| |]; [|done|done]. split; [done|].
  apply bool_decide_eq_true in E as [sd ->]. done.
Qed.
Definition run_outputs : list OutputConfig :=
  [mkOutput (lit "all") (lit "/l/a.log") (lit "/l/a.jsonl") 0 10 [] [] true;
   mkOutput (lit "auth") (lit "/m/b.log") [] 0 10 [4] [] true].
Lemma the_run_outputs : cfg_outputs (u_cfg (sd_server the_start)) = run_outputs.
Proof. by vm_compute. Qed.
Lemma the_run_apart : apart (cfg_outputs (u_cfg (sd_server the_start))).
Proof.
  rewrite the_run_outputs. apply own_directories_apart. intros i j ci cj wh wh' Hne Hi Hj _ _.
  destruct i as [|[|i]], j as [|[|j]]; try done; cbn in Hi, Hj; injection Hi as <-; injection Hj as <-;
    destruct wh, wh'; by vm_compute.
Qed.

(** Two datagrams, the second too many; one write fails and the sink comes back;
    a shutdown while a message is still queued. *)
Definition before_stop : list SysEvent :=
  [YReceive None data0 (lit "10.0.0.1") 0 None; YReceive None data0 (lit "10.0.0.2") 1 None; YPosted 0;
   YEnvironment 5 [Some 3%nat]; YStrand 0 (lit "T"); YForward None; YShutdown; YStopServer 9].
Definition after_stop : list SysEvent :=
  [YTimer 0; YReceive None data0 (lit "10.0.0.3") 9 None; YStrand 1 (lit "U"); YStrand 0 []; YForward None; YFree 0;
   YReceive (Some BadDescriptor) [] [] 10 None; YStrand 1 []].
Definition at_stop : Process := default (process_of the_start) (@follow example_env (process_of the_start) before_stop).
Definition at_end : Process := default at_stop (@follow example_env at_stop after_stop).

Example the_run_ends :
  held_bytes at_stop = 36 ∧ work at_stop = 12%nat ∧ announced_drops (y_server at_stop) = 1 ∧
  work at_end = 0%nat ∧ inFlight (u_admission (y_server at_end)) = 0 ∧
  os_files (m_os (y_outputs at_end)) !! lit "/l/a.log" = Some (lit "<34") ∧
  os_files (m_os (y_outputs at_end)) !! lit "/m/b.log" =
    Some (lit "<34>Oct 11 22:14:15 host su: failed" ++ [x0a]).
Proof. vm_compute. auto 10. Qed.

Lemma follow_default `{LogEnv} y d es :
  match follow y es with Some _ => true | None => false end = true → follow y es = Some (default d (follow y es)).
Proof. by destruct (follow y es). Qed.
Lemma before_stop_path : @path example_env (process_of the_start) before_stop at_stop.
Proof.
  apply follow_path, follow_default. vm_compute. reflexivity.
Qed.
Lemma after_stop_path : @path example_env at_stop after_stop at_end.
Proof.
  apply follow_path, follow_default. vm_compute. reflexivity.
Qed.


Lemma shutdown_drains_witness :
  (length (filter (λ e, progress e = true) after_stop) + work at_end <= work at_stop)%nat ∧
  ((∀ e, progress e = true → enabled at_end e = false) → idle at_end).
Proof.
  apply (@shutdown_drains ini ini_tree linux_strings linux_machine example_env run_env the_run the_start before_stop).
  - exact (proj1 the_run_eq).
  - exact (proj2 the_run_eq).
  - exact the_run_apart.
  - vm_compute. reflexivity.
  - exact before_stop_path.
  - split; vm_compute; reflexivity.
  - exact after_stop_path.
Defined.
