(* ===== verification/Delivery.v ===== *)
(** * What the server does with every datagram

    The life of a datagram over a whole run, under any schedule: admitted, parsed
    once, posted to the strands that want it, and recorded in their files. A run
    is observed as a list of what happened, and the queues and the disk are shown
    to be what the observations say. *)

From S2P Require Import Prelude Names Parser ParserSpec Platform Config ConfigSpec Escape Admission Backoff FileSystem LogFile LogFileSpec Lifecycle Sinks OutputManager Forwarder UdpServer Server Isolation Interleaving Process Shutdown.

(** ** Observations *)

Inductive Seen :=
| Taken (p : Posted)                             (* its task is posted *)
| Parsed (p : Posted) (msg : SyslogMessage)         (* its task has run *)
| Stopped                                           (* the shutdown handler has run *)
| Ran (i : nat) (t : Task) (rcv : bytes).           (* the strand of sink [i] has run a task *)

Definition admitted (x : Seen) : option Posted := match x with Taken p => Some p | _ => None end.
Definition parsed (x : Seen) : option Posted := match x with Parsed p _ => Some p | _ => None end.
(** What is posted to the sinks. *)
Definition posts (x : Seen) : option Task :=
  match x with Parsed _ msg => Some (TWrite msg) | Stopped => Some TClose | _ => None end.
Definition ran_by (i : nat) (x : Seen) : option (Task * bytes) :=
  match x with Ran j t rcv => if decide (j = i) then Some (t, rcv) else None | _ => None end.

(** A sink gets the messages its section accepts, and the shutdown. *)
Definition meant_for (s : MSink) (t : Task) : bool :=
  match t with TWrite msg => accepts msg s | TClose => true end.

Section observing.
Context `{LogEnv}.

Definition observe (y : Process) (e : SysEvent) : list Seen :=
  match e with
  | YReceive ec data srcIp now oom =>
      let posted := u_posted (onReceive ec data srcIp now oom (y_server y)).1 in
      if (length posted =? S (length (u_posted (y_server y))))%nat then [Taken (mkPosted data srcIp)] else []
  | YPosted k =>
      match u_posted (y_server y) !! k, y_ids y !! k with
      | Some p, Some token =>
          match parseSyslog (po_data p) with
          | Ret msg => [Parsed p (with_source (po_srcIp p) token msg)]
          | _ => []
          end
      | _, _ => []
      end
  | YShutdown => [Stopped]
  | YStrand i rcv =>
      match m_sinks (y_outputs y) !! i with
      | Some s => match ms_queue s with t :: _ => [Ran i t rcv] | [] => [] end
      | None => []
      end
  | _ => []
  end.

Fixpoint observed (y : Process) (es : list SysEvent) : list Seen :=
  match es with
  | [] => []
  | e :: es' => observe y e ++ match sys_step y e with Ret y' => observed y' es' | _ => [] end
  end.

Lemma observed_app y es y1 es' : path y es y1 → observed y (es ++ es') = observed y es ++ observed y1 es'.
Proof.
  intros Hp. revert es'. induction Hp as [|es y1 e y2 _ IH _ Hs]; intros es'; [done|].
  rewrite <- app_assoc, (IH ([e] ++ es')), (IH [e]). cbn. rewrite Hs. by rewrite !app_nil_r, <- !app_assoc.
Qed.
Lemma observed_snoc y es y1 e : path y es y1 → observed y (es ++ [e]) = observed y es ++ observe y1 e.
Proof. intros Hp. rewrite (observed_app y es y1 [e] Hp). cbn. by destruct (sys_step y1 e); rewrite app_nil_r. Qed.

(** ** One step *)

(** What a step does to the posted datagrams and to the sinks. *)
Definition effect (y : Process) (e : SysEvent) (y' : Process) : Prop :=
  let p := u_posted (y_server y) in let p' := u_posted (y_server y') in
  let m := y_outputs y in let m' := y_outputs y' in
  match e with
  | YReceive _ _ _ _ _ => p' = p ++ omap admitted (observe y e) ∧ m' = m ∧ omap posts (observe y e) = [] ∧
      omap parsed (observe y e) = [] ∧ ∀ i, omap (ran_by i) (observe y e) = []
  | YPosted k => ∃ d msg, p !! k = Some d ∧ observe y e = [Parsed d msg] ∧ p' = delete k p ∧ m' = dispatch msg m
  | YShutdown => p' = p ∧ m' = close_all m
  | YStrand i rcv => p' = p ∧ run_strand i rcv m = Ret m'
  | YTimer i => p' = p ∧ on_sink i (STimer false) m = Ret m'
  | YEnvironment t faults => p' = p ∧ m' = mkManager (mkOs (os_files (m_os m)) faults t (os_log (m_os m))) (m_sinks m)
  | _ => p' = p ∧ m' = m
  end.

Lemma step_effect B y e y' : PInv B y → enabled y e = true → sys_step y e = Ret y' → effect y e y'.
Proof.
  intros Hy He Hs. destruct e as [ec data srcIp now oom|cancelled|now|k|i rcv|i|sent|ec results opened| |j| |t faults];
    cbn [sys_step effect observe enabled] in *.
  - injection Hs as <-. unfold on_receive.
    destruct (onReceive_effect ec data srcIp now oom (y_server y)) as (_ & [[Hp _]|[Hp _]] & _);
      destruct (onReceive ec data srcIp now oom (y_server y)) as [s' x]; cbn in *; rewrite Hp.
    + rewrite (proj2 (Nat.eqb_neq (length (u_posted (y_server y))) (S (length (u_posted (y_server y)))))) by lia.
      destruct (_ =? _)%nat; cbn; by rewrite ?Hp, ?app_nil_r.
    + rewrite length_snoc, Nat.eqb_refl. by destruct (_ =? _)%nat; cbn; rewrite Hp.
  - injection Hs as <-. by destruct cancelled.
  - injection Hs as <-. split; [|done].
    exact (proj1 (reportDrops_queues true now (set_socket false (u_receiving (y_server y)) (u_rearmTimer (y_server y)) (y_server y)))).
  - apply Nat.ltb_lt in He. destruct (lookup_lt_is_Some_2 _ _ He) as [p Hp]. pose proof (pi_ids _ _ Hy) as Hl.
    rewrite <- Hl in He. destruct (lookup_lt_is_Some_2 _ _ He) as [t Ht]. unfold run_posted, process in Hs.
    rewrite Hp, Ht in *. destruct (parseSyslog_raw (po_data p)) as (msg & Hm & _). rewrite Hm in *.
    injection Hs as <-. by exists p, (with_source (po_srcIp p) t msg).
  - destruct (run_strand i rcv (y_outputs y)) as [m| |]; [|done|done]. by injection Hs as <-.
  - destruct (on_sink i (STimer false) (y_outputs y)) as [m| |]; [|done|done]. by injection Hs as <-.
  - unfold run_forwarder in Hs. destruct (y_forwarder y) as [[f [|[msg|] q]]|]; try (by injection Hs as <-).
    destruct (doForward msg sent f); [|done|done]. by injection Hs as <-.
  - by injection Hs as <-.
  - by injection Hs as <-.
  - injection Hs as <-. split; [|done]. cbn. unfold release. by destruct (u_charges _ !! j).
  - by injection Hs as <-.
  - by injection Hs as <-.
Qed.

(** ** The strands *)

(** What routing reads of a sink. *)
Definition routing (s : MSink) : list Z * list Z * list Task := (ms_facilities s, ms_excluded s, ms_queue s).

(** Everything that was meant for a sink is done or waiting, in order. *)
Definition follows (s0 : MSink) (posted : list Task) (ran : list (Task * bytes)) (s : MSink) : Prop :=
  ms_facilities s = ms_facilities s0 ∧ ms_excluded s = ms_excluded s0 ∧
  filter (λ t, meant_for s0 t = true) posted = ran.*1 ++ ms_queue s.

Lemma follows_routing s0 posted ran s s' : routing s' = routing s → follows s0 posted ran s → follows s0 posted ran s'.
Proof. intros [= Hf Hx Hq] (? & ? & ?). split_and!; congruence. Qed.

Lemma follows_post s0 posted ran s t :
  follows s0 posted ran s → follows s0 (posted ++ [t]) ran (if meant_for s0 t then post t s else s).
Proof.
  intros (Hf & Hx & Hq). unfold follows. rewrite filter_app, Hq.
  destruct (meant_for s0 t) eqn:Hm.
  - split_and!; [done|done|]. rewrite filter_cons_True; [|done]. by rewrite filter_nil, <- app_assoc.
  - split_and!; [done|done|]. rewrite filter_cons_False; [|congruence]. by rewrite filter_nil, app_nil_r.
Qed.

Lemma follows_ran s0 posted ran s t q rcv f :
  ms_queue s = t :: q → follows s0 posted ran s →
  follows s0 posted (ran ++ [(t, rcv)]) (set_queue q (set_sink f s)).
Proof.
  intros Hq (Hf & Hx & Hp). split_and!; [done|done|]. rewrite Hp, Hq, fmap_app, <- app_assoc. done.
Qed.

Lemma on_sink_routing i e m m' : on_sink i e m = Ret m' → routing <$> m_sinks m' = routing <$> m_sinks m.
Proof.
  unfold on_sink. destruct (m_sinks m !! i) as [s|] eqn:Hs; [|by intros [= <-]].
  destruct (handle e _) as [[u w]| |]; [|done|done]. intros [= <-]. cbn. rewrite list_fmap_insert.
  apply list_insert_id. by rewrite list_lookup_fmap, Hs.
Qed.

(** All sinks at once: [m0] is what the server started with. *)
Definition all_follow (m0 : Manager) (h : list Seen) (m : Manager) : Prop :=
  length (m_sinks m0) = length (m_sinks m) ∧
  ∀ i s0 s, m_sinks m0 !! i = Some s0 → m_sinks m !! i = Some s →
    follows s0 (omap posts h) (omap (ran_by i) h) s.

Lemma all_follow_post m0 h m t x :
  posts x = Some t → (∀ i, ran_by i x = None) → all_follow m0 h m →
  all_follow m0 (h ++ [x]) (mkManager (m_os m) ((λ s, if meant_for s t then post t s else s) <$> m_sinks m)).
Proof.
  unfold all_follow. intros Hx Hr [Hl Hall]. split; [by rewrite Hl; cbn; rewrite length_fmap|].
  intros i s0 s H0 Hs. cbn in Hs. rewrite list_lookup_fmap in Hs. destruct (m_sinks m !! i) as [s1|] eqn:H1; [|done].
  injection Hs as <-. rewrite !omap_app. cbn. rewrite Hx, Hr, app_nil_r. specialize (Hall i s0 s1 H0 H1).
  replace (meant_for s1 t) with (meant_for s0 t); [by apply follows_post|].
  destruct Hall as (Hf & He & _), t as [msg|]; [|done]. cbn. unfold accepts. by rewrite Hf, He.
Qed.

Lemma all_follow_routing m0 h m m' :
  routing <$> m_sinks m' = routing <$> m_sinks m → all_follow m0 h m → all_follow m0 h m'.
Proof.
  unfold all_follow. intros Hr [Hl Hall].
  assert (Hlen : length (m_sinks m') = length (m_sinks m)).
  { rewrite <- (length_fmap routing (m_sinks m')), <- (length_fmap routing (m_sinks m)). by rewrite Hr. }
  split; [congruence|]. intros i s0 s H0 Hs.
  assert (Hi : routing <$> (m_sinks m !! i) = Some (routing s)) by (by rewrite <- list_lookup_fmap, <- Hr, list_lookup_fmap, Hs).
  destruct (m_sinks m !! i) as [s1|] eqn:H1; [|done]. injection Hi as Hi1 Hi2 Hi3.
  eapply follows_routing; [|by apply Hall]. unfold routing. congruence.
Qed.

(** The strand of sink [i] ran the head of its queue. *)
Lemma run_strand_result i rcv m m' s t q :
  m_sinks m !! i = Some s → ms_queue s = t :: q → run_strand i rcv m = Ret m' →
  ∃ w, handle (task_event t rcv) (mkWorld (m_os m) (ms_file s)) = Ret (tt, w) ∧
    m' = mkManager (w_os w) (<[i := set_queue q (set_sink (w_sink w) s)]> (m_sinks m)).
Proof.
  intros Hs Hq. unfold run_strand. rewrite Hs, Hq.
  replace (run_task t rcv) with (handle (task_event t rcv)) by (by destruct t).
  destruct (handle _ _) as [[[] w]| |]; [|done|done]. intros [= <-]. by exists w.
Qed.

Lemma all_follow_strand m0 h m m' i rcv s t q :
  m_sinks m !! i = Some s → ms_queue s = t :: q → run_strand i rcv m = Ret m' →
  all_follow m0 h m → all_follow m0 (h ++ [Ran i t rcv]) m'.
Proof.
  intros Hs Hq Hr. destruct (run_strand_result _ _ _ _ _ _ _ Hs Hq Hr) as (w & _ & ->).
  unfold all_follow. intros [Hl Hall]. cbn. split; [by rewrite length_insert|].
  intros j s0 sj H0 Hj. rewrite !omap_app. cbn. rewrite app_nil_r. destruct (decide (i = j)) as [<-|Hne].
  - rewrite list_lookup_insert_eq in Hj by (by eapply lookup_lt_Some). injection Hj as <-.
    apply follows_ran with (t := t); [done|by apply Hall].
  - rewrite list_lookup_insert_ne in Hj by done. rewrite app_nil_r. by apply Hall.
Qed.

(** No admitted datagram is lost or parsed twice. *)
Definition none_lost (h : list Seen) (y : Process) : Prop :=
  omap admitted h ≡ₚ omap parsed h ++ u_posted (y_server y).

Lemma step_none_lost B h y e y' :
  PInv B y → enabled y e = true → sys_step y e = Ret y' → none_lost h y → none_lost (h ++ observe y e) y'.
Proof.
  intros Hy He Hs Hn. pose proof (step_effect B y e y' Hy He Hs) as Hf. unfold none_lost in *. rewrite !omap_app.
  destruct e as [ec data srcIp now oom|cancelled|now|k|i rcv|i|sent|ec results opened| |j| |t faults]; cbn [effect] in Hf;
    try (destruct Hf as [-> _]; cbn; by rewrite ?app_nil_r).
  - destruct Hf as (-> & _ & _ & -> & _). rewrite app_nil_r, Hn. by rewrite app_assoc.
  - destruct Hf as (p & msg & Hp & -> & -> & _). cbn. rewrite Hn, app_nil_r, <- app_assoc. cbn. f_equiv.
    by apply delete_Permutation.
  - destruct Hf as [-> _]. cbn. destruct (m_sinks (y_outputs y) !! i) as [s|]; cbn; [destruct (ms_queue s); cbn|];
      by rewrite !app_nil_r.
Qed.

Lemma step_all_follow B m0 h y e y' :
  PInv B y → enabled y e = true → sys_step y e = Ret y' →
  all_follow m0 h (y_outputs y) → all_follow m0 (h ++ observe y e) (y_outputs y').
Proof.
  intros Hy He Hs Ha. pose proof (step_effect B y e y' Hy He Hs) as Hf.
  destruct e as [ec data srcIp now oom|cancelled|now|k|i rcv|i|sent|ec results opened| |j| |t faults]; cbn [effect] in Hf;
    try (destruct Hf as [_ ->]; cbn; by rewrite ?app_nil_r).
  - destruct Hf as (_ & -> & Hp & _ & Hr). destruct Ha as [Hl Ha]. split; [done|]. intros i s0 s H0 H1.
    rewrite !omap_app, Hp, Hr, !app_nil_r. by apply Ha.
  - destruct Hf as (p & msg & _ & -> & _ & ->). by apply (all_follow_post m0 h (y_outputs y) (TWrite msg)).
  - destruct Hf as [_ Hr]. cbn [enabled observe] in *.
    destruct (m_sinks (y_outputs y) !! i) as [s|] eqn:Hsi; [|done].
    destruct (ms_queue s) as [|t q] eqn:Hq; [done|]. by eapply all_follow_strand.
  - destruct Hf as [_ Hr]. cbn [observe]. rewrite app_nil_r. eapply all_follow_routing; [by eapply on_sink_routing|done].
  - destruct Hf as [_ ->]. by apply (all_follow_post m0 h (y_outputs y) TClose).
Qed.

Lemma path_delivers B y0 es y :
  0 <= B ∧ B + BUFFER_SIZE < 2 ^ 64 → PInv B y0 → u_posted (y_server y0) = [] →
  Forall (λ s, ms_queue s = []) (m_sinks (y_outputs y0)) → path y0 es y →
  none_lost (observed y0 es) y ∧ all_follow (y_outputs y0) (observed y0 es) (y_outputs y).
Proof.
  intros Hnw Hi Hp Hq Hpath. induction Hpath as [|es y1 e y2 Hpath IH He Hs].
  - split; [unfold none_lost; cbn; by rewrite Hp|]. split; [done|]. intros i s0 s H0 H1.
    rewrite H0 in H1. injection H1 as <-. split_and!; [done|done|]. cbn. rewrite Forall_lookup in Hq.
    by rewrite (Hq i s0 H0).
  - destruct IH as (Hn & Ha). rewrite (observed_snoc y0 es y1 e Hpath).
    pose proof (path_PInv B Hnw y0 es y1 Hi Hpath) as Hi1. split.
    + by eapply step_none_lost.
    + by eapply step_all_follow.
Qed.

(** ** The files *)

(** One message in a section's files, if the section wants it: both are rotated
    first when one is full, then each gains its record. *)
Definition record_in (cfg : OutputConfig) (msg : SyslogMessage) (rcv : bytes) (disk : gmap bytes bytes) : gmap bytes bytes :=
  let s := new_LogFile cfg kRetryIntervalMs in
  if wanted msg s then
    match escapeControlChars (raw msg), toJsonlRecord msg rcv with
    | Ret line, Ret record => written s (line ++ [x0a]) (record ++ [x0a]) disk
    | _, _ => disk
    end
  else disk.

(** The files after the tasks of a strand; a shutdown ends the log. *)
Definition log_step (cfg : OutputConfig) (st : bool * gmap bytes bytes) (x : Task * bytes) : bool * gmap bytes bytes :=
  if st.1 then
    match x.1 with TWrite msg => (true, record_in cfg msg x.2 st.2) | TClose => (false, st.2) end
  else st.
Definition section_log (cfg : OutputConfig) (ran : list (Task * bytes)) (disk : gmap bytes bytes) : bool * gmap bytes bytes :=
  foldl (log_step cfg) (true, disk) ran.

Lemma section_log_snoc cfg ran x disk : section_log cfg (ran ++ [x]) disk = log_step cfg (section_log cfg ran disk) x.
Proof. unfold section_log. by rewrite foldl_app. Qed.

(** A sink whose section's files are those of its log. *)
Definition logged (s0 : MSink) (ran : list (Task * bytes)) (disk : gmap bytes bytes) (os : Os) (s : MSink) : Prop :=
  let cfg := config_of s0 in
  let log := section_log cfg ran disk in
  config_of s = cfg ∧ (if log.1 then m_closed (ms_file s) = false else m_shuttingDown (ms_file s) = true) ∧
  ∀ p, footprint cfg p → os_files os !! p = log.2 !! p.

Lemma wanted_config msg s cfg : LogFile.m_cfg s = cfg → wanted msg s = wanted msg (new_LogFile cfg kRetryIntervalMs).
Proof. intros <-. done. Qed.
Lemma file_of_config wh s cfg : LogFile.m_cfg s = cfg → file_of wh s = file_of wh (new_LogFile cfg kRetryIntervalMs).
Proof. intros <-. by destruct wh. Qed.
Lemma written_config s cfg l r d : LogFile.m_cfg s = cfg → written s l r d = written (new_LogFile cfg kRetryIntervalMs) l r d.
Proof.
  intros Hc. unfold written, disk_full, rotate_disk, open_disk. rewrite !(file_of_config _ s cfg Hc). by rewrite Hc.
Qed.

(** A message to a sink in service, on a disk that agrees on the section's files. *)
Lemma write_logged msg rcv os f disk os' f' :
  Inv (mkWorld os f) → os_faults os = [] → m_closed f = false →
  (∀ p, footprint (LogFile.m_cfg f) p → os_files os !! p = disk !! p) →
  handle (SWrite msg rcv) (mkWorld os f) = Ret (tt, mkWorld os' f') →
  m_closed f' = false ∧ ∀ p, footprint (LogFile.m_cfg f) p → os_files os' !! p = record_in (LogFile.m_cfg f) msg rcv disk !! p.
Proof.
  intros Hi Hn Hc Hd Hh. unfold record_in. rewrite <- (wanted_config msg f (LogFile.m_cfg f) eq_refl).
  destruct (wanted msg f) eqn:Hw.
  - destruct (escape_returns (raw msg)) as (l & Hl & _), (toJsonlRecord_returns msg rcv) as [j Hj]. rewrite Hl, Hj.
    set (os2 := mkOs disk (os_faults os) (os_now os) (os_log os)).
    assert (Hag : agree (LogFile.m_cfg f) os os2) by by constructor.
    assert (Hi2 : Inv (mkWorld os2 f)) by (apply (Inv_files os); [done|]; intros p Hp; symmetry; by apply Hd).
    destruct (handle_local (SWrite msg rcv) os os2 f os' f' I Hi Hag Hh) as (os2' & Hh2 & Hag').
    destruct (doWrite_no_fault msg rcv (mkWorld os2 f) l j Hl Hj Hi2 Hc Hw Hn) as (w' & Hw' & _ & Hc' & Hf).
    cbn [handle] in Hh2. rewrite Hh2 in Hw'. injection Hw' as <-. split; [done|]. intros p Hp.
    rewrite (ag_files _ _ _ Hag' p Hp). cbn in Hf. rewrite Hf. by rewrite (written_config f (LogFile.m_cfg f)).
  - destruct (doWrite_dropped msg rcv (mkWorld os f) (or_intror Hw)) as ([] & w' & Hw' & ->).
    cbn [handle] in Hh. rewrite Hh in Hw'. by injection Hw' as -> ->.
Qed.

(** A task of the section's own strand. *)
Lemma own_logged s0 ran disk os s t rcv q os' f' :
  Inv (mkWorld os (ms_file s)) → os_faults os = [] → logged s0 ran disk os s →
  handle (task_event t rcv) (mkWorld os (ms_file s)) = Ret (tt, mkWorld os' f') →
  logged s0 (ran ++ [(t, rcv)]) disk os' (set_queue q (set_sink f' s)).
Proof.
  intros Hi Hn (Hc & Hst & Hf) Hh. destruct (handle_frame (task_event t rcv) _ _ ltac:(by destruct t) Hi) as (os1 & f1 & Hh1 & _ & Hc1 & _).
  rewrite Hh in Hh1. injection Hh1 as <- <-. unfold logged. rewrite section_log_snoc. unfold config_of in *. cbn [ms_file set_queue set_sink].
  split; [congruence|]. destruct (section_log (LogFile.m_cfg (ms_file s0)) ran disk) as [[|] d] eqn:Hl; cbn [fst snd log_step] in *.
  - destruct t as [msg|]; cbn [fst snd task_event] in *.
    + rewrite <- Hc in *. by eapply write_logged.
    + destruct (close_spec _ Hi) as ([] & w' & Hw' & _ & _ & _ & Hd & Ho).
      cbn [handle] in Hh. rewrite Hh in Hw'. injection Hw' as <-. cbn in Hd, Ho. subst os'. done.
  - destruct (down_noop (task_event t rcv) _ (inv_down _ Hi Hst) Hst) as ([] & w' & Hw' & Hd & Ho).
    rewrite Hh in Hw'. injection Hw' as <-. cbn in Hd, Ho. rewrite Ho. done.
Qed.

(** All sinks, while no call fails. *)
Definition all_logged (m0 : Manager) (h : list Seen) (m : Manager) : Prop :=
  os_faults (m_os m) = [] ∧
  ∀ i s0 s, m_sinks m0 !! i = Some s0 → m_sinks m !! i = Some s →
    logged s0 (omap (ran_by i) h) (os_files (m_os m0)) (m_os m) s.

(** Only the files and the members matter. *)
Lemma all_logged_same m0 h x m m' :
  os_faults (m_os m') = [] → os_files (m_os m') = os_files (m_os m) → ms_file <$> m_sinks m' = ms_file <$> m_sinks m →
  (∀ i, omap (ran_by i) x = []) → all_logged m0 h m → all_logged m0 (h ++ x) m'.
Proof.
  intros Hn Ho Hf Hx [_ Hl]. split; [done|]. intros i s0 s H0 Hs. rewrite omap_app, Hx, app_nil_r.
  assert (Hi : ms_file <$> (m_sinks m !! i) = Some (ms_file s)) by (by rewrite <- list_lookup_fmap, <- Hf, list_lookup_fmap, Hs).
  destruct (m_sinks m !! i) as [s1|] eqn:H1; [|done]. injection Hi as Hi.
  specialize (Hl i s0 s1 H0 H1). unfold logged, config_of in *. by rewrite Ho, <- Hi.
Qed.

Lemma all_logged_strand m0 h m m' i rcv s t q :
  Running m → m_sinks m !! i = Some s → ms_queue s = t :: q → run_strand i rcv m = Ret m' →
  all_logged m0 h m → all_logged m0 (h ++ [Ran i t rcv]) m'.
Proof.
  intros [Hi Ha] Hs Hq Hr [Hn Hl]. destruct (run_strand_result _ _ _ _ _ _ _ Hs Hq Hr) as ([os' f'] & Hh & ->).
  rewrite Forall_lookup in Hi.
  destruct (handle_frame (task_event t rcv) _ _ ltac:(by destruct t) (Hi _ _ Hs)) as (os1 & f1 & Hh1 & _ & _ & Hu).
  rewrite Hh in Hh1. injection Hh1 as <- <-. split; [by apply (un_faults _ _ _ Hu)|]. cbn [m_os m_sinks w_os w_sink].
  intros j s0 sj H0 Hj. rewrite omap_app. cbn. destruct (decide (i = j)) as [<-|Hne].
  - rewrite list_lookup_insert_eq in Hj by (by eapply lookup_lt_Some). injection Hj as <-.
    apply (own_logged s0 _ _ (m_os m)); [by apply (Hi i s)|done|by apply Hl|done].
  - rewrite list_lookup_insert_ne in Hj by done. rewrite app_nil_r. destruct (Hl j s0 sj H0 Hj) as (Hc & Hst & Hf).
    split_and!; [done|done|]. intros p Hp. rewrite <- (Hf p Hp). apply (un_files _ _ _ Hu). intros Hpi.
    eapply (Ha i j (config_of s) (config_of sj)); [done| | |exact Hpi|by rewrite Hc]; rewrite list_lookup_fmap;
      [by rewrite Hs|by rewrite Hj].
Qed.

(** While no call fails no retry is pending. *)
Lemma logged_no_timer s0 ran disk os s :
  Inv (mkWorld os (ms_file s)) → logged s0 ran disk os s → LogFile.m_retryTimer (ms_file s) = false.
Proof.
  intros Hi (_ & Hst & _). pose proof (inv_retry _ Hi) as Hr. cbn in Hr. rewrite Hr.
  destruct (section_log _ _ _).1; rewrite Hst; [done|]. by rewrite andb_false_r.
Qed.

Definition no_faults (e : SysEvent) : Prop := match e with YEnvironment _ faults => faults = [] | _ => True end.

Lemma step_all_logged B m0 h y e y' :
  PInv B y → enabled y e = true → sys_step y e = Ret y' → no_faults e → length (m_sinks m0) = length (m_sinks (y_outputs y)) →
  all_logged m0 h (y_outputs y) → all_logged m0 (h ++ observe y e) (y_outputs y').
Proof.
  intros Hy He Hs Hnf Hlen Ha. pose proof (step_effect B y e y' Hy He Hs) as Hf. pose proof Ha as [Hn Hl].
  destruct e as [ec data srcIp now oom|cancelled|now|k|i rcv|i|sent|ec results opened| |j| |t faults]; cbn [effect] in Hf;
    try (destruct Hf as [_ ->]; by apply (all_logged_same m0 h _ (y_outputs y))).
  - destruct Hf as (_ & -> & _ & _ & Hr). by apply (all_logged_same m0 h _ (y_outputs y)).
  - destruct Hf as (p & msg & _ & -> & _ & ->). apply (all_logged_same m0 h _ (y_outputs y)); [done|done| |done|done].
    apply kept_queues_fmap. intros s. by destruct (accepts msg s).
  - destruct Hf as [_ Hr]. cbn [enabled observe] in *.
    destruct (m_sinks (y_outputs y) !! i) as [s|] eqn:Hsi; [|done].
    destruct (ms_queue s) as [|t q] eqn:Hq; [done|]. eapply all_logged_strand; try done. by apply Hy.
  - exfalso. cbn [enabled] in He. destruct (m_sinks (y_outputs y) !! i) as [s|] eqn:Hsi; [|done].
    destruct (lookup_lt_is_Some_2 (m_sinks m0) i) as [s0 H0]; [rewrite Hlen; by eapply lookup_lt_Some|].
    pose proof (rn_inv _ (pi_running _ _ Hy)) as Hi. rewrite Forall_lookup in Hi.
    rewrite (logged_no_timer _ _ _ _ _ (Hi i s Hsi) (Hl i s0 s H0 Hsi)) in He. done.
  - destruct Hf as [_ ->]. apply (all_logged_same m0 h _ (y_outputs y)); [done|done| |done|done]. by apply kept_queues_fmap.
Qed.

Lemma path_logs B y0 es y :
  0 <= B ∧ B + BUFFER_SIZE < 2 ^ 64 → PInv B y0 → u_posted (y_server y0) = [] →
  Forall (λ s, ms_queue s = []) (m_sinks (y_outputs y0)) →
  os_faults (m_os (y_outputs y0)) = [] → Forall (λ s, m_closed (ms_file s) = false) (m_sinks (y_outputs y0)) →
  path y0 es y → Forall no_faults es → all_logged (y_outputs y0) (observed y0 es) (y_outputs y).
Proof.
  intros Hnw Hi Hp Hq Hn Hc Hpath. induction Hpath as [|es y1 e y2 Hpath IH He Hs]; intros Hnf.
  - split; [done|]. intros i s0 s H0 H1. rewrite H0 in H1. injection H1 as <-. rewrite Forall_lookup in Hc.
    split_and!; [done|by apply (Hc i s0)|done].
  - apply Forall_app in Hnf as [Hnf Hne]. rewrite (observed_snoc y0 es y1 e Hpath).
    pose proof (path_PInv B Hnw y0 es y1 Hi Hpath) as Hi1.
    destruct (path_delivers B y0 es y1 Hnw Hi Hp Hq Hpath) as (_ & Hlen & _).
    eapply step_all_logged; [done..| |done|by apply IH]. by apply Forall_inv in Hne.
Qed.
End observing.

(** ** From the start of the server *)

Section run.
Context `{PropertyTree T} `{BoostStrings} `{Machine} `{LogEnv}.

Lemma started_sinks (env : ServerEnv T) r sd :
  runServer env = Ret r → rn_started r = Some sd →
  u_posted (sd_server sd) = [] ∧ Forall (λ s, ms_queue s = []) (m_sinks (sd_outputs sd)) ∧
  Forall (λ s, m_closed (ms_file s) = false) (m_sinks (sd_outputs sd)).
Proof.
  intros Hr Hs. destruct (started_parts env r sd Hr Hs) as (_ & cfg & _ & _ & _ & Hst & _). split.
  { unfold start in Hst. destruct (make_address _); [|done]. by injection Hst as <-. }
  destruct (runServer_spec env) as (r' & Hr' & _ & _ & _ & Hrun). rewrite Hr in Hr'. injection Hr' as <-.
  rewrite Hs in Hrun. destruct Hrun as ((tree & cfg' & _ & _ & _ & Hall & _) & _). rewrite !Forall_forall in *.
  split; intros s Hin; destruct (Hall s Hin) as (Hserv & Hi & Hq); [done|].
  destruct (m_closed (ms_file s)) eqn:Hc; [|done].
  pose proof (need_open_detached _ (inv_valid _ Hi) (inv_closed _ Hi Hc)) as Ho. cbn in Ho.
  rewrite (need_open_in_service _ _ Hserv) in Ho. done.
Qed.

Lemma observed_parsed y es p msg :
  Parsed p msg ∈ observed y es → ∃ token m, parseSyslog (po_data p) = Ret m ∧ msg = with_source (po_srcIp p) token m.
Proof.
  revert y. induction es as [|e es IH]; intros y; cbn [observed]; [by intros ?%not_elem_of_nil|].
  rewrite elem_of_app. intros [Hin|Hin].
  - destruct e as [ec data srcIp now oom|cancelled|now|k|i rcv|i|sent|ec results opened| |j| |t faults]; cbn in Hin;
      repeat case_match; apply list_elem_of_In in Hin; cbn in Hin; try tauto;
      destruct Hin as [[=]|[]]; subst; by eexists _, _.
  - destruct (sys_step y e) as [y'| |]; [by eapply IH|by apply not_elem_of_nil in Hin..].
Qed.

(** C3. Every datagram, over a whole run: under any schedule, whatever fails, each
    datagram that was admitted has been parsed exactly once or its task is still
    posted; and every sink has handled, in order, a prefix of the messages its
    section accepts among those parsed so far, with the shutdown in its place,
    and the rest waits in its queue. *)
Theorem datagrams_delivered (env : ServerEnv T) r sd es y :
  runServer env = Ret r → rn_started r = Some sd →
  apart (cfg_outputs (u_cfg (sd_server sd))) → cfg_maxQueueBytes (u_cfg (sd_server sd)) + BUFFER_SIZE < 2 ^ 64 →
  path (process_of sd) es y →
  let h := observed (process_of sd) es in
  omap admitted h ≡ₚ omap parsed h ++ u_posted (y_server y) ∧
  (∀ p msg, Parsed p msg ∈ h → ∃ token m, parseSyslog (po_data p) = Ret m ∧ msg = with_source (po_srcIp p) token m) ∧
  length (m_sinks (y_outputs y)) = length (m_sinks (sd_outputs sd)) ∧
  ∀ i s0 s, m_sinks (sd_outputs sd) !! i = Some s0 → m_sinks (y_outputs y) !! i = Some s →
    filter (λ t, meant_for s0 t = true) (omap posts h) = (omap (ran_by i) h).*1 ++ ms_queue s.
Proof.
  intros Hr Hs Ha Hw Hp. destruct (started_PInv env r sd Hr Hs Ha Hw) as [Hge Hi0].
  destruct (started_sinks env r sd Hr Hs) as (Hpo & Hq & _).
  destruct (path_delivers _ (process_of sd) es y (conj Hge Hw) Hi0 Hpo Hq Hp) as (Hn & Hl & Hall).
  split; [done|]. split; [intros p msg; apply observed_parsed|]. split; [done|]. intros i s0 s Hs0 Hs1.
  by destruct (Hall i s0 s Hs0 Hs1) as (_ & _ & ?).
Qed.

(** C2. What is on the disk: while no call fails, the active files and generations
    of every section hold, at every point of every schedule, exactly what the
    messages its strand has run make of the files it started with: one record
    each, in order, with a rotation of both files before a message that finds
    one full, and nothing after the shutdown. What the other sections do, and how
    the workers interleave, does not show. *)
Theorem disk_is_the_log (env : ServerEnv T) r sd es y :
  runServer env = Ret r → rn_started r = Some sd →
  apart (cfg_outputs (u_cfg (sd_server sd))) → cfg_maxQueueBytes (u_cfg (sd_server sd)) + BUFFER_SIZE < 2 ^ 64 →
  path (process_of sd) es y → os_faults (m_os (sd_outputs sd)) = [] → Forall no_faults es →
  let h := observed (process_of sd) es in
  ∀ i s0, m_sinks (sd_outputs sd) !! i = Some s0 →
    let log := section_log (config_of s0) (omap (ran_by i) h) (os_files (m_os (sd_outputs sd))) in
    ∃ s, m_sinks (y_outputs y) !! i = Some s ∧ (log.1 = true → m_closed (ms_file s) = false) ∧
      ∀ p, footprint (config_of s0) p → os_files (m_os (y_outputs y)) !! p = log.2 !! p.
Proof.
  intros Hr Hs Ha Hw Hp Hf Hnf h i s0 Hs0 log. destruct (started_PInv env r sd Hr Hs Ha Hw) as [Hge Hi0].
  destruct (started_sinks env r sd Hr Hs) as (Hpo & Hq & Hc).
  destruct (path_delivers _ (process_of sd) es y (conj Hge Hw) Hi0 Hpo Hq Hp) as (_ & Hl & _).
  destruct (path_logs _ (process_of sd) es y (conj Hge Hw) Hi0 Hpo Hq Hf Hc Hp Hnf) as [_ Hall].
  destruct (lookup_lt_is_Some_2 (m_sinks (y_outputs y)) i) as [s Hs1]; [rewrite <- Hl; by eapply lookup_lt_Some|].
  destruct (Hall i s0 s Hs0 Hs1) as (_ & Hst & Hd). exists s. split; [done|]. split; [|done].
  intros E. change (if log.1 then m_closed (ms_file s) = false else m_shuttingDown (ms_file s) = true) in Hst.
  by rewrite E in Hst.
Qed.
End run.

(** ** A concrete run *)

(** Two datagrams; the second is parsed while the first waits for one sink, and one
    sink has not run when the shutdown comes. *)
Definition good_run : list SysEvent :=
  [YReceive None data0 (lit "10.0.0.1") 0 None; YPosted 0; YStrand 0 (lit "T"); YForward None; YStrand 1 []; YFree 0;
   YReceive None data0 (lit "10.0.0.2") 1 None; YEnvironment 5 []; YPosted 0; YStrand 0 (lit "U"); YShutdown;
   YStopServer 9; YStrand 1 []].
Definition good_end : Process := default (process_of the_start) (@follow example_env (process_of the_start) good_run).
Lemma good_run_path : @path example_env (process_of the_start) good_run good_end.
Proof.
  apply follow_path, follow_default. vm_compute. reflexivity.
Qed.
Example good_run_ends :
  let line := lit "<34>Oct 11 22:14:15 host su: failed" ++ [x0a] in
  length (@observed example_env (process_of the_start) good_run) = 9%nat ∧
  os_files (m_os (y_outputs good_end)) !! lit "/l/a.log" = Some (line ++ line) ∧
  os_files (m_os (y_outputs good_end)) !! lit "/m/b.log" = Some (line ++ line).
Proof. vm_compute. auto 10. Qed.

Lemma datagrams_delivered_witness :
  let h := @observed example_env (process_of the_start) good_run in
  omap admitted h ≡ₚ omap parsed h ++ u_posted (y_server good_end) ∧
  (∀ p msg, Parsed p msg ∈ h → ∃ token m, parseSyslog (po_data p) = Ret m ∧ msg = with_source (po_srcIp p) token m) ∧
  length (m_sinks (y_outputs good_end)) = length (m_sinks (sd_outputs the_start)) ∧
  ∀ i s0 s, m_sinks (sd_outputs the_start) !! i = Some s0 → m_sinks (y_outputs good_end) !! i = Some s →
    filter (λ t, meant_for s0 t = true) (omap posts h) = (omap (ran_by i) h).*1 ++ ms_queue s.
Proof.
  apply (@datagrams_delivered ini ini_tree linux_strings linux_machine example_env run_env the_run the_start good_run).
  - exact (proj1 the_run_eq).
  - exact (proj2 the_run_eq).
  - exact the_run_apart.
  - vm_compute. reflexivity.
  - exact good_run_path.
Defined.

Lemma disk_is_the_log_witness :
  let h := @observed example_env (process_of the_start) good_run in
  match m_sinks (sd_outputs the_start) !! 1%nat with
  | Some s0 =>
      let log := @section_log example_env (config_of s0) (omap (ran_by 1) h) (os_files (m_os (sd_outputs the_start))) in
      ∃ s, m_sinks (y_outputs good_end) !! 1%nat = Some s ∧ (log.1 = true → m_closed (ms_file s) = false) ∧
        ∀ p, footprint (config_of s0) p → os_files (m_os (y_outputs good_end)) !! p = log.2 !! p
  | None => False
  end.
Proof.
  cbv zeta. destruct (m_sinks (sd_outputs the_start) !! 1%nat) as [s0|] eqn:Hs0; [|by vm_compute in Hs0].
  apply (@disk_is_the_log ini ini_tree linux_strings linux_machine example_env run_env the_run the_start good_run);
    [| | | | | | |exact Hs0].
  - exact (proj1 the_run_eq).
  - exact (proj2 the_run_eq).
  - exact the_run_apart.
  - vm_compute. reflexivity.
  - exact good_run_path.
  - vm_compute. reflexivity.
  - repeat constructor.
Defined.
