(* ===== verification/Retention.v ===== *)
(** * What is kept of everything that was written

    A section's file and its rotated generations, read oldest first, are one log.
    However the calls of the sinks fail and however their strands interleave, that
    log is a suffix of everything written, in order: only its end grows, by one
    record or a part of one per message, and only whole generations at the limit
    are ever cut from its front. *)

From S2P Require Import Prelude Names Parser Platform Config ConfigSpec Escape Admission Backoff FileSystem LogFile LogFileSpec Rotation Lifecycle Sinks OutputManager Forwarder UdpServer Server Isolation Interleaving Process Shutdown Delivery.

(** ** The log of a chain *)

(** Generation 0 is the active file. *)
Definition gen (base : bytes) (n : nat) : bytes := match n with O => base | S _ => rotatedPath base n end.
Definition held (m : gmap bytes bytes) (p : bytes) : bytes := default [] (m !! p).

Fixpoint retained (base : bytes) (n : nat) (m : gmap bytes bytes) : bytes :=
  match n with
  | O => held m base
  | S n' => held m (gen base n) ++ retained base n' m
  end.
(** All generations a rotation of [base] can write. *)
Definition kept_log (k : Z) (base : bytes) (m : gmap bytes bytes) : bytes := retained base (reach k) m.

Section chain.
Context (base : bytes).

Lemma gen_inj n n' : gen base n = gen base n' → n = n'.
Proof.
  destruct n, n'; cbn [gen]; intros E; [done| | |by apply rotatedPath_inj in E].
  - by destruct (rotatedPath_base base (S n')).
  - by destruct (rotatedPath_base base (S n)).
Qed.
Lemma gen_ne n n' : n ≠ n' → gen base n ≠ gen base n'.
Proof. intros Hn E. by apply gen_inj in E. Qed.

(** Only the contents of the chain matter, and an empty file is none. *)
Lemma retained_ext n m m' :
  (∀ i, (i ≤ n)%nat → held m' (gen base i) = held m (gen base i)) → retained base n m' = retained base n m.
Proof.
  induction n as [|n IH]; intros Hm; cbn [retained]; [apply (Hm 0%nat); lia|].
  rewrite (Hm (S n)), IH; [done|intros i Hi; apply Hm; lia|lia].
Qed.

(** A generation that moves up into a free place. *)
Lemma retained_move n i m :
  (i < n)%nat → m !! gen base (S i) = None →
  retained base n (apply_move (Rename (gen base i) (gen base (S i))) m) = retained base n m.
Proof.
  intros Hi Hfree. set (m' := apply_move _ m).
  assert (Hm : ∀ p, m' !! p = _) by (intros p; apply rename_lookup, gen_ne; lia).
  assert (Helse : ∀ j, j ≠ i → j ≠ S i → held m' (gen base j) = held m (gen base j)).
  { intros j H1 H2. unfold held. by rewrite Hm, !decide_False by (apply gen_ne; done). }
  induction n as [|n IH]; [lia|]. cbn [retained]. destruct (decide (n = i)) as [->|].
  - assert (Hup : held m' (gen base (S i)) = held m (gen base i)).
    { unfold held. rewrite Hm, decide_False by (apply gen_ne; lia). rewrite decide_True, Hfree by done.
      by destruct (m !! gen base i). }
    assert (Hnone : held m' (gen base i) = []) by (unfold held; by rewrite Hm, decide_True).
    rewrite Hup. unfold held at 2. rewrite Hfree. cbn [default app].
    destruct i as [|i]; cbn [retained gen] in *; rewrite Hnone; [by rewrite app_nil_r|].
    cbn [app]. f_equal. apply retained_ext. intros j Hj. apply Helse; lia.
  - rewrite Helse, IH by lia. done.
Qed.

(** Losing the oldest generation. *)
Lemma retained_cut n m :
  (0 < n)%nat → retained base n m = held m (gen base n) ++ retained base n (delete (gen base n) m).
Proof.
  intros Hn. destruct n as [|n]; [lia|]. cbn [retained]. f_equal.
  unfold held at 1. rewrite lookup_delete_eq. cbn [default app]. symmetry. apply retained_ext.
  intros i Hi. unfold held. rewrite lookup_delete_ne; [done|apply gen_ne; lia].
Qed.

(** Appending to the active file. *)
Lemma retained_append n m c d :
  m !! base = Some c → retained base n (<[base := c ++ d]> m) = retained base n m ++ d.
Proof.
  intros Hc. induction n as [|n IH]; cbn [retained].
  - unfold held. by rewrite lookup_insert_eq, Hc.
  - rewrite IH, app_assoc. do 2 f_equal. unfold held.
    rewrite lookup_insert_ne; [done|apply not_eq_sym, rotatedPath_base].
Qed.

(** ** A rotation *)

Fixpoint moves_up (h : nat) : list Move :=
  match h with
  | O => []
  | S h' => Rename (gen base h') (gen base h) :: moves_up h'
  end.
Lemma moves_up_shift h :
  moves_up (S h) = shift_moves base h ++ [Rename base (rotatedPath base 1)].
Proof. induction h as [|h IH]; [done|]. cbn [shift_moves app]. by rewrite <- IH. Qed.

(** Any part of a shift into a free place. *)
Lemma moves_up_retained n h d m :
  (h ≤ n)%nat → m !! gen base h = None ∨ h = O → d `prefix_of` moves_up h →
  retained base n (apply_moves d m) = retained base n m.
Proof.
  revert d m. induction h as [|h IH]; intros d m Hh Hfree Hd.
  { by apply prefix_nil_inv in Hd as ->. }
  destruct Hfree as [Hfree|]; [|done]. destruct d as [|mv d]; [done|].
  apply prefix_cons_inv_1 in Hd as Hmv. apply prefix_cons_inv_2 in Hd. subst mv.
  change (apply_moves (?a :: d) m) with (apply_moves d (apply_move a m)).
  rewrite IH; [apply retained_move; [lia|done]|lia| |done].
  left. rewrite rename_lookup by (apply gen_ne; lia). by rewrite decide_True.
Qed.

(** What leaves the front of the log: nothing, or the generation at the limit. *)
Definition cut (k : Z) (m : gmap bytes bytes) (d : bytes) : Prop :=
  d = [] ∨ m !! rotatedPath base (reach k) = Some d.

Lemma reach_pos k : 0 <= k → ∃ n, reach k = S n.
Proof.
  intros Hk. unfold reach, probeLimit. destruct (Z.eqb_spec k 0); [by eexists|].
  exists (Z.to_nat k - 1)%nat. destruct (0 <? k) eqn:E; lia.
Qed.
Lemma gen_reach k : 0 <= k → gen base (reach k) = rotatedPath base (reach k).
Proof. intros [n Hn]%reach_pos. by rewrite Hn. Qed.
Lemma cut_held k m : cut k m (held m (rotatedPath base (reach k))).
Proof. unfold cut, held. destruct (m !! _); [by right|by left]. Qed.

Lemma rotation_log k m d :
  0 <= k → d `prefix_of` rotation_moves base k m →
  ∃ gone, cut k m gone ∧ kept_log k base m = gone ++ kept_log k base (apply_moves d m).
Proof.
  intros Hk Hd. unfold kept_log. destruct (highest_facts base k m) as (Hle & Habove & Hsome).
  unfold rotation_moves in Hd. set (h := highest_from base 1 (probeLimit k) 0 m) in *.
  assert (Hcut := retained_cut (reach k) m). rewrite (gen_reach k Hk) in Hcut.
  assert (Hpos : (0 < reach k)%nat) by (destruct (reach_pos k Hk); lia). specialize (Hcut Hpos).
  destruct ((0 <? k) && (k <=? Z.of_nat h)) eqn:Hfull.
  - assert (Hr : reach k = h ∧ S (Z.to_nat (k - 1)) = h).
    { unfold reach, probeLimit in *. destruct (0 <? k) eqn:E, (Z.eqb_spec k 0); lia. }
    destruct Hr as [Hr Hh]. rewrite <- Hr in *. cbn [app] in Hd. rewrite <- moves_up_shift, Hh in Hd.
    destruct d as [|mv d]; [exists []; split; [by left|done]|].
    apply prefix_cons_inv_1 in Hd as Hmv. apply prefix_cons_inv_2 in Hd. subst mv.
    change (apply_moves (?a :: d) m) with (apply_moves d (apply_move a m)).
    exists (held m (rotatedPath base (reach k))). split; [apply cut_held|].
    rewrite (moves_up_retained _ (reach k)); [exact Hcut|done| |done].
    left. rewrite (gen_reach k Hk). apply lookup_delete_eq.
  - rewrite <- moves_up_shift in Hd.
    destruct (decide (S h ≤ probeLimit k)%nat) as [Hlim|Hlim].
    + exists []. split; [by left|]. cbn [app]. symmetry. apply (moves_up_retained _ (S h)); [| |done].
      * unfold reach. destruct (k =? 0); lia.
      * left. apply Habove. lia.
    + assert (Hr : reach k = S h ∧ h ≠ O).
      { unfold reach, probeLimit in *. destruct (0 <? k) eqn:E, (Z.eqb_spec k 0); lia. }
      destruct Hr as [Hr Hh]. destruct d as [|mv d]; [exists []; split; [by left|done]|].
      exists (held m (rotatedPath base (reach k))). split; [apply cut_held|]. rewrite Hcut. f_equal.
      assert (Heq : apply_moves (mv :: d) m = apply_moves (mv :: d) (delete (rotatedPath base (reach k)) m)).
      { apply prefix_cons_inv_1 in Hd as ->. rewrite Hr. cbn.
        replace (gen base h) with (rotatedPath base h) by by destruct h.
        rewrite lookup_delete_ne by (apply rot_ne; lia). destruct (Hsome Hh) as [c Hc]. rewrite Hc. f_equal. apply map_eq. intros p.
        destruct (decide (p = rotatedPath base (S h))) as [->|Hne].
        - by rewrite !lookup_insert_eq.
        - rewrite !lookup_insert_ne by done. destruct (decide (p = rotatedPath base h)) as [->|].
          + by rewrite !lookup_delete_eq.
          + rewrite !lookup_delete_ne by done. done. }
      rewrite Heq. symmetry. apply (moves_up_retained _ (S h)); [lia| |done].
      left. rewrite <- Hr, (gen_reach k Hk). apply lookup_delete_eq.
Qed.
End chain.

(** ** What the member functions do to a chain *)

(** The two chains of a section have no name in common. *)
Definition chains_apart (cfg : OutputConfig) : Prop :=
  sv_empty (oc_textFile cfg) = false → sv_empty (oc_jsonlFile cfg) = false →
  ∀ n n', gen (oc_textFile cfg) n ≠ gen (oc_jsonlFile cfg) n'.

Lemma not_text (w : Which) : w ≠ Text → Jsonl = w.
Proof. by destruct w. Qed.

(** What became of a message: the sink was out of service or does not take it, a
    call failed while it was written, or it was written. *)
Inductive Outcome := Nothing | Part | Whole.
Definition outcome (t : Task) (s s' : Sink) : Outcome :=
  match t with
  | TWrite msg => if LogFile.m_closed s || negb (wanted msg s) then Nothing
                  else if LogFile.m_closed s' then Part else Whole
  | TClose => Nothing
  end.

Section handlers.
Context `{LogEnv} (cfg : OutputConfig) (wh : Which).
Let base := file_in wh cfg.
Let k := oc_maxFiles cfg.
Context (configured : sv_empty base = false) (chains : chains_apart cfg) (limit : 0 <= k).

Abbreviation disk := (gmap bytes bytes).

(** The chain reads the same: an empty active file is as good as none. *)
Definition same_chain (m m' : disk) : Prop :=
  held m' base = held m base ∧ ∀ n, m' !! gen base (S n) = m !! gen base (S n).
(** A rotation may have cut the oldest generation. *)
Definition cut_front (m m' : disk) : Prop :=
  ∃ gone, (gone = [] ∨ oc_maxSize cfg ≠ 0 ∧ m !! rotatedPath base (reach k) = Some gone) ∧
    kept_log k base m = gone ++ kept_log k base m'.
(** A part of [line] may have been added. *)
Definition add_end (line : bytes) (m m' : disk) : Prop :=
  ∃ added, added `prefix_of` line ∧ kept_log k base m ++ added = kept_log k base m'.
(** A handler: at most one rotation, then at most one record. *)
Definition log_grows (line : bytes) (m m' : disk) : Prop :=
  ∃ gone added, (gone = [] ∨ oc_maxSize cfg ≠ 0 ∧ m !! rotatedPath base (reach k) = Some gone) ∧
    added `prefix_of` line ∧ kept_log k base m ++ added = gone ++ kept_log k base m'.

Lemma same_chain_refl m : same_chain m m.
Proof. done. Qed.
Lemma same_chain_trans m1 m2 m3 : same_chain m1 m2 → same_chain m2 m3 → same_chain m1 m3.
Proof. intros [H1 R1] [H2 R2]. split; [congruence|]. intros n. by rewrite R2, R1. Qed.
Lemma same_chain_log m m' : same_chain m m' → kept_log k base m' = kept_log k base m.
Proof.
  intros [Hb Hr]. apply retained_ext. intros [|i] _; [done|]. unfold held. by rewrite Hr.
Qed.

(** The effects a handler composes. *)
Record absorbing (R : disk → disk → Prop) : Prop := {
  ef_same : ∀ m m', same_chain m m' → R m m';
  ef_left : ∀ m1 m2 m3, same_chain m1 m2 → R m2 m3 → R m1 m3;
  ef_right : ∀ m1 m2 m3, R m1 m2 → same_chain m2 m3 → R m1 m3
}.
Lemma absorbing_same : absorbing same_chain.
Proof. constructor; [done|intros; by eapply same_chain_trans..]. Qed.
Lemma absorbing_cut : absorbing cut_front.
Proof.
  constructor.
  - intros m m' Hs. exists []. split; [by left|]. by rewrite (same_chain_log _ _ Hs).
  - intros m1 m2 m3 Hs (gone & Hc & Hl). exists gone. rewrite <- (same_chain_log _ _ Hs). split; [|done].
    destruct Hs as [_ Hr], (reach_pos k limit) as [n Hn]. rewrite Hn in *. specialize (Hr n). cbn [gen] in Hr. by rewrite <- Hr.
  - intros m1 m2 m3 (gone & Hc & Hl) Hs. exists gone. by rewrite (same_chain_log _ _ Hs).
Qed.
Lemma absorbing_add line : absorbing (add_end line).
Proof.
  constructor.
  - intros m m' Hs. exists []. split; [apply prefix_nil|]. by rewrite (same_chain_log _ _ Hs), app_nil_r.
  - intros m1 m2 m3 Hs (a & Ha & Hl). exists a. by rewrite <- (same_chain_log _ _ Hs).
  - intros m1 m2 m3 (a & Ha & Hl) Hs. exists a. by rewrite (same_chain_log _ _ Hs).
Qed.
Lemma cut_add line m1 m2 m3 : cut_front m1 m2 → add_end line m2 m3 → log_grows line m1 m3.
Proof.
  intros (gone & Hc & Hl) (a & Ha & Hl'). exists gone, a. split_and!; [done|done|].
  by rewrite Hl, <- app_assoc, Hl'.
Qed.
Lemma cut_grows line m m' : cut_front m m' → log_grows line m m'.
Proof. intros (gone & Hc & Hl). exists gone, []. split_and!; [done|apply prefix_nil|by rewrite app_nil_r]. Qed.
Lemma same_grows line m m' : same_chain m m' → log_grows line m m'.
Proof. intros Hs. by apply cut_grows, absorbing_cut. Qed.

(** [m], run by a sink of this section, changes the chain at most as [R] says. *)
Definition does {A : Type} (R : disk → disk → Prop) (m : IO A) (Q : A → Prop) : Prop :=
  ∀ w a w', LogFile.m_cfg (w_sink w) = cfg → m w = Ret (a, w') →
    Q a ∧ LogFile.m_cfg (w_sink w') = cfg ∧ R (os_files (w_os w)) (os_files (w_os w')).
Abbreviation quiet := (does same_chain).
Abbreviation any := (λ _, True).

Lemma does_then {A B : Type} (R1 R2 R : disk → disk → Prop) (m : IO A) (f : A → IO B) (P : A → Prop) (Q : B → Prop) :
  (∀ m1 m2 m3, R1 m1 m2 → R2 m2 m3 → R m1 m3) →
  does R1 m P → (∀ a, P a → does R2 (f a) Q) → does R (m ≫= f) Q.
Proof.
  intros HR Hm Hf w b w' Hw E. unfold mbind, IO_bind in E. destruct (m w) as [[a w1]| |] eqn:Em; [|done..].
  destruct (Hm _ _ _ Hw Em) as (Ha & Hw1 & H1). destruct (Hf a Ha _ _ _ Hw1 E) as (? & ? & ?).
  split_and!; [done|done|by eapply HR].
Qed.
Lemma quiet_then {A B : Type} (R : disk → disk → Prop) (m : IO A) (f : A → IO B) (P : A → Prop) (Q : B → Prop) :
  absorbing R → quiet m P → (∀ a, P a → does R (f a) Q) → does R (m ≫= f) Q.
Proof. intros HR. apply does_then. apply HR. Qed.
Lemma then_quiet {A B : Type} (R : disk → disk → Prop) (m : IO A) (f : A → IO B) (P : A → Prop) (Q : B → Prop) :
  absorbing R → does R m P → (∀ a, P a → quiet (f a) Q) → does R (m ≫= f) Q.
Proof. intros HR. apply does_then. apply HR. Qed.
Lemma quiet_does {A : Type} (R : disk → disk → Prop) (m : IO A) (Q : A → Prop) : absorbing R → quiet m Q → does R m Q.
Proof. intros HR Hm w a w' Hw E. destruct (Hm _ _ _ Hw E) as (? & ? & ?). split_and!; [done..|by apply HR]. Qed.

Lemma quiet_ret {A} (a : A) : quiet (mret a) any.
Proof. by intros w b w' Hw [= <- <-]. Qed.
Lemma quiet_this {A} (f : Sink → A) : quiet (this f) any.
Proof. by intros w b w' Hw [= <- <-]. Qed.
Lemma quiet_file wh' : quiet (this (file_of wh')) (λ f, f = file_in wh' cfg).
Proof. intros w b w' Hw [= <- <-]. split_and!; [|done|done]. rewrite <- Hw. by destruct wh'. Qed.
Lemma quiet_assign f : (∀ s, LogFile.m_cfg (f s) = LogFile.m_cfg s) → quiet (assign f) any.
Proof. intros Hf w b w' Hw [= <- <-]. split_and!; [done| |done]. cbn. by rewrite Hf. Qed.
Lemma quiet_pure {A} (m : M A) : quiet (pure m) any.
Proof. intros w b w' Hw E. unfold pure in E. destruct m; by simplify_eq. Qed.
Lemma does_sys {A : Type} (R : disk → disk → Prop) (f : Os → A * Os) :
  (∀ os, R (os_files os) (os_files (f os).2)) → does R (sys f) any.
Proof. intros Hf w b w' Hw E. unfold sys in E. specialize (Hf (w_os w)). destruct (f _). by injection E as <- <-. Qed.
Lemma quiet_log line : quiet (log line) any.
Proof. by apply does_sys. Qed.
Lemma quiet_now : quiet now any.
Proof. by apply does_sys. Qed.

(** ** The system calls *)

Definition elsewhere (p : bytes) : Prop := ∀ n, p ≠ gen base n.


Lemma chain_ext m m' : (∀ n, m' !! gen base n = m !! gen base n) → same_chain m m'.
Proof. intros Hm. split; [unfold held; f_equal; apply (Hm 0%nat)|intros n; apply Hm]. Qed.
Lemma next_fault_files os : os_files (next_fault os).2 = os_files os.
Proof. unfold next_fault. by destruct (os_faults os). Qed.

(** A call whose change, if any, is [f] on the disk. *)
Ltac call os :=
  let E := fresh in pose proof (next_fault_files os) as E; destruct (next_fault os) as [[?|] ?]; cbn in E |- *; rewrite ?E.

Lemma quiet_exists p : quiet (sys (fs_exists p)) any.
Proof. apply does_sys. intros os. unfold fs_exists. by call os. Qed.
Lemma quiet_size p : quiet (sys (fs_file_size p)) any.
Proof. apply does_sys. intros os. unfold fs_file_size. call os; [done|]. destruct (os_files os !! p); cbn; by rewrite ?H0. Qed.
Lemma chain_insert p c m : elsewhere p → same_chain m (<[p := c]> m).
Proof. intros Hp. apply chain_ext. intros n. by rewrite lookup_insert_ne. Qed.
Lemma chain_delete p m : elsewhere p → same_chain m (delete p m).
Proof. intros Hp. apply chain_ext. intros n. by rewrite lookup_delete_ne. Qed.

Lemma other_elsewhere wh' n :
  wh' ≠ wh → sv_empty (file_in wh' cfg) = false → elsewhere (gen (file_in wh' cfg) n).
Proof.
  intros Hw Hne i. unfold chains_apart in chains. unfold base in *.
  destruct wh, wh'; try done; cbn in *; [apply not_eq_sym|]; by apply chains.
Qed.
Lemma which_ne (w1 w2 : Which) : {w1 = w2} + {w1 ≠ w2}.
Proof. decide equality. Defined.
Lemma empty_elsewhere : elsewhere [].
Proof.
  intros [|n] E; cbn in E; [by rewrite <- E in configured|].
  apply (f_equal length) in E. unfold rotatedPath in E. destruct (split_path base), (split_name _).
  rewrite !length_app in E. change (length (lit ".")) with 1%nat in E. cbn in E. lia.
Qed.
Lemma other_file wh' : wh' ≠ wh → elsewhere (file_in wh' cfg).
Proof.
  intros Hw. destruct (sv_empty (file_in wh' cfg)) eqn:He; [|by apply (other_elsewhere wh' 0)].
  replace (file_in wh' cfg) with (@nil Byte.byte) by (by destruct (file_in wh' cfg)). apply empty_elsewhere.
Qed.
Lemma other_rotated wh' n : wh' ≠ wh → sv_empty (file_in wh' cfg) = false → (0 < n)%nat → elsewhere (rotatedPath (file_in wh' cfg) n).
Proof. intros Hw Hne Hn. destruct n as [|n]; [lia|]. by apply (other_elsewhere wh' (S n)). Qed.

(** Opening creates an empty file at most. *)
Lemma quiet_open wh' : quiet (sys (fs_open (file_in wh' cfg))) any.
Proof.
  apply does_sys. intros os. unfold fs_open. call os; [done|].
  destruct (os_files os !! _) eqn:Hp; cbn; rewrite ?H0; [done|].
  destruct (which_ne wh' wh) as [->|Hne]; [|by apply chain_insert, other_file]. fold base in Hp |- *. split.
  - unfold held. by rewrite lookup_insert_eq, Hp.
  - intros n. apply lookup_insert_ne. apply (gen_ne base 0). lia.
Qed.
Lemma quiet_remove p : elsewhere p → quiet (sys (fs_remove p)) any.
Proof. intros Hp. apply does_sys. intros os. unfold fs_remove. call os; [done|]. by apply chain_delete. Qed.
Lemma quiet_rename p q : elsewhere p → elsewhere q → quiet (sys (fs_rename p q)) any.
Proof.
  intros Hp Hq. apply does_sys. intros os. unfold fs_rename. call os; [done|].
  destruct (os_files os !! p); cbn; rewrite ?H0; [|done].
  by eapply same_chain_trans; [apply chain_delete|apply chain_insert].
Qed.
Lemma quiet_append p d : elsewhere p → quiet (sys (fs_append p d)) any.
Proof.
  intros Hp. apply does_sys. intros os. unfold fs_append.
  call os; (destruct (os_files os !! p); cbn; rewrite ?H0; [by apply chain_insert|done]).
Qed.
(** A write appends a part of the line, the whole if it succeeds. *)
Lemma add_append d : does (add_end d) (sys (fs_append base d)) any.
Proof.
  apply does_sys. intros os. unfold fs_append, add_end, kept_log.
  call os; (destruct (os_files os !! base) as [c|] eqn:Hc; cbn; rewrite ?H0;
    [rewrite (retained_append base _ _ c) by done|exists []; split; [apply prefix_nil|apply app_nil_r]]).
  - exists (take n d). split; [apply prefix_take|done].
  - by exists d.
Qed.

(** ** The member functions *)

Lemma quiet_bind {A B : Type} (m : IO A) (f : A → IO B) (P : A → Prop) (Q : B → Prop) :
  quiet m P → (∀ a, P a → quiet (f a) Q) → quiet (m ≫= f) Q.
Proof. apply quiet_then, absorbing_same. Qed.
Create HintDb quiet.
Hint Resolve quiet_exists quiet_size quiet_open quiet_remove quiet_rename quiet_append : quiet.
Hint Resolve other_file other_rotated Nat.lt_0_succ : quiet.

Ltac quiet_go :=
  repeat first
    [ apply quiet_ret | apply quiet_log | apply quiet_now | apply quiet_pure
    | apply quiet_assign; intros ?; solve [done | by destruct wh | by match goal with w : Which |- _ => destruct w end]
    | solve [eauto with quiet]
    | apply quiet_this
    | match goal with
      | |- quiet (if ?b then _ else _) _ => destruct b
      | |- quiet (match ?o with Some _ => _ | None => _ end) _ => destruct o as [[]|]
      | |- quiet (match ?o with Some _ => _ | None => _ end) _ => destruct o
      end
    | eapply quiet_bind; [|intros ? _] ].

Lemma quiet_closeFiles : quiet closeFiles any.
Proof. unfold closeFiles. quiet_go. Qed.
Lemma quiet_scheduleRetry : quiet scheduleRetry any.
Proof. unfold scheduleRetry. quiet_go. Qed.
Hint Resolve quiet_closeFiles quiet_scheduleRetry : quiet.
Lemma quiet_failSink reason : quiet (failSink reason) any.
Proof. unfold failSink. quiet_go. destruct (SinkRecovery.onFailure _ _) as [r d]. quiet_go. Qed.
Hint Resolve quiet_failSink : quiet.
Lemma quiet_open_one wh' : quiet (open_one wh') any.
Proof.
  unfold open_one. eapply quiet_bind; [apply quiet_file|]. intros f ->. quiet_go.
Qed.
Hint Resolve quiet_open_one : quiet.
Lemma quiet_openFiles : quiet openFiles any.
Proof. unfold openFiles. quiet_go. Qed.
Hint Resolve quiet_openFiles : quiet.

(** The other chain. *)
Section other.
Context (wh' : Which) (Hother : wh' ≠ wh) (Hset : sv_empty (file_in wh' cfg) = false).
Let other := file_in wh' cfg.

Lemma quiet_probe p : quiet (probe p) any.
Proof. unfold probe. quiet_go. Qed.
Hint Resolve quiet_probe : quiet.
Lemma quiet_rename_step p q : elsewhere p → elsewhere q → quiet (rename_step p q) any.
Proof. intros Hp Hq. unfold rename_step. quiet_go. Qed.
Hint Resolve quiet_rename_step : quiet.
Lemma quiet_probe_loop n count highest : quiet (probe_loop other n count highest) any.
Proof. revert n highest. induction count as [|count IH]; intros n highest; cbn [probe_loop]; quiet_go. Qed.
Lemma quiet_shift_loop n : quiet (shift_loop other n) any.
Proof. induction n as [|n IH]; cbn [shift_loop]; quiet_go. Qed.
Lemma quiet_delete_loop n count : (count ≤ n)%nat → quiet (delete_loop other n count) any.
Proof.
  revert n. induction count as [|count IH]; intros n Hn; cbn [delete_loop]; [quiet_go|].
  assert (quiet (delete_loop other (n - 1) count) any) by (apply IH; lia).
  assert (elsewhere (rotatedPath other n)) by (apply other_rotated; [done..|lia]). quiet_go.
Qed.
Hint Resolve quiet_probe_loop quiet_shift_loop : quiet.
Lemma quiet_shiftFiles : quiet (shiftFiles other) any.
Proof.
  unfold shiftFiles. eapply quiet_bind; [apply quiet_this|]. intros max _.
  eapply quiet_bind; [apply quiet_probe_loop|]. intros [h|] _; [|quiet_go].
  eapply quiet_bind; [|intros ? _; quiet_go]. destruct ((0 <? max) && (max <=? Z.of_nat h)) eqn:E; [|quiet_go].
  assert (quiet (delete_loop other h (h + 1 - Z.to_nat max)) any) by (apply quiet_delete_loop; lia). quiet_go.
Qed.
End other.

(** This chain. *)
Lemma cut_shiftFiles : oc_maxSize cfg ≠ 0 → does cut_front (shiftFiles base) any.
Proof.
  intros Hmax w a w' Hw E. destruct (shiftFiles_spec base w) as (ok & w1 & E1 & _ & _ & d & Hd & Hf & Ho).
  rewrite E in E1. injection E1 as <- <-. split; [done|]. split.
  { destruct a; [destruct Ho as (_ & -> & _); done|]. by destruct Ho as [-> _]. }
  rewrite Hw in Hd. destruct (rotation_log base k _ d limit Hd) as (gone & Hc & Hl).
  exists gone. rewrite Hf. split; [|done]. destruct Hc; auto.
Qed.
Lemma quiet_shift_other wh' : wh' ≠ wh → quiet (shift_one wh') any.
Proof.
  intros Hne. unfold shift_one. eapply quiet_bind; [apply quiet_file|]. intros f ->.
  destruct (sv_empty (file_in wh' cfg)) eqn:E; [quiet_go|by apply quiet_shiftFiles].
Qed.
Lemma cut_shift_one : oc_maxSize cfg ≠ 0 → does cut_front (shift_one wh) any.
Proof.
  intros Hmax. unfold shift_one. eapply quiet_then; [apply absorbing_cut|apply quiet_file|]. intros f ->.
  fold base. rewrite configured. by apply cut_shiftFiles.
Qed.

Lemma cut_rotate : oc_maxSize cfg ≠ 0 → does cut_front rotate any.
Proof.
  intros Hmax. unfold rotate. eapply quiet_then; [apply absorbing_cut|apply quiet_closeFiles|]. intros _ _.
  destruct (which_ne wh Text) as [E|E].
  - eapply then_quiet; [apply absorbing_cut|rewrite <- E; by apply cut_shift_one|]. intros ok _.
    assert (quiet (shift_one Jsonl) any) by (apply quiet_shift_other; by rewrite E). quiet_go.
  - eapply quiet_then; [apply absorbing_cut|apply quiet_shift_other; by apply not_eq_sym|]. intros ok _.
    destruct (negb ok); [apply quiet_does; [apply absorbing_cut|quiet_go]|].
    eapply then_quiet; [apply absorbing_cut| |intros ? _; quiet_go].
    rewrite (not_text wh E). by apply cut_shift_one.
Qed.
Lemma quiet_maxSize : quiet (this (λ s, oc_maxSize (LogFile.m_cfg s))) (λ max, max = oc_maxSize cfg).
Proof. intros w a w' Hw [= <- <-]. by rewrite Hw. Qed.
Lemma cut_rotateIfNeeded : does cut_front rotateIfNeeded any.
Proof.
  unfold rotateIfNeeded. eapply quiet_then; [apply absorbing_cut|apply quiet_maxSize|]. intros max ->.
  destruct (oc_maxSize cfg =? 0) eqn:E; [apply quiet_does; [apply absorbing_cut|apply quiet_ret]|].
  eapply quiet_then; [apply absorbing_cut|apply quiet_this|intros ts _].
  eapply quiet_then; [apply absorbing_cut|apply quiet_this|intros js _].
  destruct (_ || _); [apply cut_rotate; lia|apply quiet_does; [apply absorbing_cut|apply quiet_ret]].
Qed.

(** ** The handlers *)

Lemma quiet_write_other wh' record : wh' ≠ wh → quiet (write_one wh' record) any.
Proof.
  intros Hne. unfold write_one. eapply quiet_bind; [apply quiet_this|]. intros st _.
  destruct (negb (st_open st)); [quiet_go|]. eapply quiet_bind; [apply quiet_file|]. intros f ->. quiet_go.
Qed.
Lemma quiet_line (r : bytes) : quiet (pure (r' ← (mret r : M bytes); mret (r' ++ [x0a]))) (λ line, line = r ++ [x0a]).
Proof. by intros w a w' Hw [= <- <-]. Qed.
Lemma add_write_one r : does (add_end (r ++ [x0a])) (write_one wh (mret r)) any.
Proof.
  unfold write_one. eapply quiet_then; [apply absorbing_add|apply quiet_this|]. intros st _.
  destruct (negb (st_open st)); [apply quiet_does; [apply absorbing_add|quiet_go]|].
  eapply quiet_then; [apply absorbing_add|apply quiet_file|]. intros f ->. fold base.
  eapply quiet_then; [apply absorbing_add|apply (quiet_line r)|]. intros line ->.
  eapply then_quiet; [apply absorbing_add| |intros ? _; quiet_go].
  destruct (st_good st); [apply add_append|apply quiet_does; [apply absorbing_add|quiet_go]].
Qed.

(** The line a message is in each of the files. *)
Definition record_of (w : Which) (msg : SyslogMessage) (rcv : bytes) : M bytes :=
  match w with Text => escapeControlChars (raw msg) | Jsonl => toJsonlRecord msg rcv end.
Definition line_of (w : Which) (msg : SyslogMessage) (rcv : bytes) : bytes :=
  match record_of w msg rcv with Ret r => r ++ [x0a] | _ => [] end.
Definition event_line (w : Which) (e : SinkEvent) : bytes :=
  match e with SWrite msg rcv => line_of w msg rcv | _ => [] end.

Lemma record_returns w msg rcv : ∃ r, record_of w msg rcv = mret r.
Proof.
  destruct w; [destruct (escape_returns (raw msg)) as (l & Hl & _); by exists l|apply toJsonlRecord_returns].
Qed.
Lemma add_records msg rcv :
  does (add_end (line_of wh msg rcv))
    (ok ← write_one Text (record_of Text msg rcv);
     if ok : bool then write_one Jsonl (record_of Jsonl msg rcv);; mret tt else mret tt) any.
Proof.
  assert (Hown : does (add_end (line_of wh msg rcv)) (write_one wh (record_of wh msg rcv)) any).
  { unfold line_of. destruct (record_returns wh msg rcv) as [r Hr]. rewrite Hr. apply add_write_one. }
  destruct (which_ne wh Text) as [E|E].
  - eapply then_quiet; [apply absorbing_add| |intros ok _].
    { replace (write_one Text _) with (write_one wh (record_of wh msg rcv)) by by rewrite E. exact Hown. }
    assert (quiet (write_one Jsonl (record_of Jsonl msg rcv)) any) by (apply quiet_write_other; by rewrite E). quiet_go.
  - eapply quiet_then; [apply absorbing_add|apply quiet_write_other; by apply not_eq_sym|]. intros ok _.
    destruct ok; [|apply quiet_does; [apply absorbing_add|quiet_go]].
    eapply then_quiet; [apply absorbing_add| |intros ? _; quiet_go].
    rewrite (not_text wh E). exact Hown.
Qed.

Lemma log_doWrite msg rcv : does (log_grows (line_of wh msg rcv)) (doWrite msg rcv) any.
Proof.
  assert (Htail : does (log_grows (line_of wh msg rcv)) (write_tail (record_of Text msg rcv) (record_of Jsonl msg rcv)) any).
  { unfold write_tail. eapply does_then; [apply cut_add|apply cut_rotateIfNeeded|]. intros _ _. apply add_records. }
  assert (Hnone : ∀ A (m : IO A), quiet m any → does (log_grows (line_of wh msg rcv)) m any).
  { intros A m Hm w a w' Hw E. destruct (Hm w a w' Hw E) as (? & ? & ?). split_and!; [done..|]. by apply same_grows. }
  assert (Hthen : ∀ A (m : IO A) (f : A → IO unit), quiet m any →
    (∀ a, does (log_grows (line_of wh msg rcv)) (f a) any) → does (log_grows (line_of wh msg rcv)) (m ≫= f) any).
  { intros A m f Hm Hf. eapply does_then; [|exact Hm|by intros a _]. intros m1 m2 m3 Hs (gone & added & Hc & Ha & Hl).
    exists gone, added. rewrite <- (same_chain_log _ _ Hs). split_and!; [|done|done].
    destruct Hs as [_ Hr], (reach_pos k limit) as [n Hn]. rewrite Hn in *. specialize (Hr n). cbn [gen] in Hr. by rewrite <- Hr. }
  unfold doWrite. apply Hthen; [apply quiet_this|intros [|]; [apply Hnone, quiet_ret|]].
  apply Hthen; [apply quiet_this|intros [|]; [apply Hnone, quiet_ret|]].
  apply Hthen; [apply quiet_this|intros need]. apply Hthen; [quiet_go|intros _; exact Htail].
Qed.

Lemma quiet_attemptReopen : quiet attemptReopen any.
Proof. unfold attemptReopen. quiet_go. destruct (SinkRecovery.onRecovered _ _) as [rec o]. quiet_go. Qed.
Hint Resolve quiet_attemptReopen : quiet.
Lemma quiet_handle e : (∀ msg rcv, e ≠ SWrite msg rcv) → of_sink e → quiet (handle e) any.
Proof.
  intros Hw He. destruct e as [msg rcv|cancelled| |what|t faults]; cbn [handle of_sink] in *; [by destruct (Hw msg rcv)| | | |done].
  - unfold onRetryTimer. quiet_go.
  - unfold close. quiet_go.
  - unfold failSinkFromHandler. quiet_go.
Qed.
(** Any handler, whatever fails. *)
Lemma log_handle e : of_sink e → does (log_grows (event_line wh e)) (handle e) any.
Proof.
  intros He. assert (Hs : (∃ msg rcv, e = SWrite msg rcv) ∨ ∀ msg rcv, e ≠ SWrite msg rcv)
    by (destruct e; eauto; by right).
  destruct Hs as [(msg & rcv & ->)|Hs]; [apply log_doWrite|].
  intros w a w' Hw E. destruct (quiet_handle e Hs He w a w' Hw E) as (? & ? & ?).
  split_and!; [done..|by apply same_grows].
Qed.

(** ** A message the sink takes *)

Lemma chain_touch_if wh' m : same_chain m (touch_if (file_in wh' cfg) m).
Proof.
  unfold touch_if, touch. destruct (sv_empty (file_in wh' cfg)) eqn:He; [done|].
  destruct (m !! file_in wh' cfg) eqn:Hm; [done|]. destruct (which_ne wh' wh) as [->|Hne]; [|by apply chain_insert, other_file].
  fold base in Hm |- *. split; [unfold held; by rewrite lookup_insert_eq, Hm|].
  intros n. apply lookup_insert_ne, (gen_ne base 0). lia.
Qed.
Lemma chain_rotate_other wh' m : wh' ≠ wh → same_chain m (rotate_map k (file_in wh' cfg) m).
Proof.
  intros Hne. unfold rotate_map. destruct (sv_empty (file_in wh' cfg)) eqn:He; [done|]. apply chain_ext. intros n.
  destruct (rotation_moves_rotated (file_in wh' cfg) k m limit) as (_ & _ & _ & _ & Hp).
  apply Hp; [apply not_eq_sym, (other_elsewhere wh' 0 Hne He)|]. intros i Hi.
  destruct i as [|i]; [lia|]. apply not_eq_sym, (other_elsewhere wh' (S i) Hne He).
Qed.
Lemma cut_rotate_own m : oc_maxSize cfg ≠ 0 → cut_front m (rotate_map k base m).
Proof.
  intros Hmax. unfold rotate_map. rewrite configured.
  destruct (rotation_log base k m _ limit (reflexivity _)) as (gone & Hc & Hl). exists gone. split; [|done].
  destruct Hc; auto.
Qed.
Lemma cut_rotate_disk s m : LogFile.m_cfg s = cfg → oc_maxSize cfg ≠ 0 → cut_front m (rotate_disk s m).
Proof.
  intros Hc Hmax. unfold rotate_disk. rewrite Hc. fold k.
  replace (file_of Text s) with (file_in Text cfg) by (by rewrite <- Hc).
  replace (file_of Jsonl s) with (file_in Jsonl cfg) by (by rewrite <- Hc).
  eapply (ef_right _ absorbing_cut); [|apply chain_touch_if].
  eapply (ef_right _ absorbing_cut); [|apply chain_touch_if]. destruct (which_ne wh Text) as [E|E].
  - eapply (ef_right _ absorbing_cut); [|apply chain_rotate_other; by rewrite E]. rewrite <- E. by apply cut_rotate_own.
  - eapply (ef_left _ absorbing_cut); [apply chain_rotate_other; by apply not_eq_sym|]. rewrite (not_text wh E). by apply cut_rotate_own.
Qed.

Lemma file_of_in w s : LogFile.m_cfg s = cfg → file_of w s = file_in w cfg.
Proof. intros <-. by destruct w. Qed.
Lemma wrote_other wh' line w w' :
  wh' ≠ wh → LogFile.m_cfg (w_sink w) = cfg → wrote wh' line w w' → same_chain (os_files (w_os w)) (os_files (w_os w')).
Proof.
  intros Hne Hc. unfold wrote. destruct (st_open _); [|by intros ->]. rewrite (file_of_in _ _ Hc).
  intros (c & _ & -> & _). by apply chain_insert, other_file.
Qed.
Lemma wrote_own line w w' :
  LogFile.m_cfg (w_sink w) = cfg → in_service (w_os w) (w_sink w) → wrote wh line w w' →
  kept_log k base (os_files (w_os w)) ++ line = kept_log k base (os_files (w_os w')).
Proof.
  intros Hc Hin. specialize (Hin wh). unfold wrote. rewrite (file_of_in _ _ Hc) in *. fold base in Hin |- *.
  rewrite configured in Hin. destruct Hin as [-> _]. cbn [st_open]. intros (c & Hb & -> & _).
  symmetry. by apply retained_append.
Qed.

(** Both records, from a sink in service. *)
Lemma wrote_both t j w1 w2 w' :
  LogFile.m_cfg (w_sink w1) = cfg → file_of Text (w_sink w1) ≠ file_of Jsonl (w_sink w1) →
  in_service (w_os w1) (w_sink w1) → wrote Text t w1 w2 → wrote Jsonl j w2 w' →
  kept_log k base (os_files (w_os w1)) ++ (match wh with Text => t | Jsonl => j end) =
  kept_log k base (os_files (w_os w')).
Proof.
  intros Hc Hne Hin Ht Hj. destruct (wrote_members _ _ _ _ Ht) as [Hc2 _]. rewrite Hc in Hc2.
  pose proof (wrote_in_service _ _ _ _ Hne Hin Ht) as Hin2. destruct (which_ne wh Text) as [E|E].
  - rewrite (same_chain_log (os_files (w_os w2)) (os_files (w_os w')));
      [|apply (wrote_other Jsonl j); [by rewrite E|done|done]].
    replace (match wh with Text => t | Jsonl => j end) with t by by rewrite E.
    apply wrote_own; [done|done|by rewrite E].
  - rewrite <- (same_chain_log (os_files (w_os w1)) (os_files (w_os w2)));
      [|apply (wrote_other Text t); [by apply not_eq_sym|done|done]].
    replace (match wh with Text => t | Jsonl => j end) with j by by rewrite <- (not_text wh E).
    apply wrote_own; [done|done|by rewrite <- (not_text wh E)].
Qed.

Lemma whole_doWrite msg rcv w w' :
  Inv w → LogFile.m_cfg (w_sink w) = cfg → LogFile.m_closed (w_sink w) = false → wanted msg (w_sink w) = true →
  doWrite msg rcv w = Ret (tt, w') → LogFile.m_closed (w_sink w') = false →
  ∃ gone, (gone = [] ∨ oc_maxSize cfg ≠ 0 ∧ os_files (w_os w) !! rotatedPath base (reach k) = Some gone) ∧
    kept_log k base (os_files (w_os w)) ++ line_of wh msg rcv = gone ++ kept_log k base (os_files (w_os w')).
Proof.
  intros Hi Hc Hopen Hw E Hopen'. destruct (record_returns Text msg rcv) as [l Hl], (record_returns Jsonl msg rcv) as [j Hj].
  destruct (doWrite_spec msg rcv w l j Hl Hj Hi Hopen Hw) as ([] & w1 & E1 & _ & Hd).
  rewrite E in E1. injection E1 as <-. destruct Hd as [(Hd & _)|(_ & _ & _ & Hcl & _)]; [|congruence].
  destruct Hd as (w0 & w1 & w2 & (Hin0 & Hm0 & Hf0) & (Hin1 & Hm1 & Hf1) & Ht & Hjs).
  pose proof (proj1 Hm0) as Hc0. pose proof (proj1 Hm1) as Hc1. rewrite Hc in Hc0, Hc1.
  assert (Hline : line_of wh msg rcv = match wh with Text => l ++ [x0a] | Jsonl => j ++ [x0a] end)
    by (unfold line_of; destruct (which_ne wh Text) as [->|Hn]; [by rewrite Hl|rewrite <- (not_text wh Hn); by rewrite Hj]).
  assert (Hcut : cut_front (os_files (w_os w)) (os_files (w_os w1))).
  { eapply (ef_left _ absorbing_cut (os_files (w_os w)) (os_files (w_os w0))).
    - rewrite Hf0. unfold open_disk. rewrite !(file_of_in _ _ Hc). eapply same_chain_trans; apply chain_touch_if.
    - destruct (due (w_sink w0)) eqn:Hdue; [|rewrite Hf1; by apply absorbing_cut]. rewrite Hf1.
      apply cut_rotate_disk; [done|]. unfold due in Hdue. rewrite Hc0 in Hdue. intros Hz. by rewrite Hz in Hdue. }
  destruct Hcut as (gone & Hg & Hlog). exists gone. split; [done|]. rewrite Hlog, <- app_assoc. f_equal.
  rewrite Hline. apply (wrote_both _ _ w1 w2 w'); try done.
  rewrite !(same_members_file _ _ _ Hm1). apply (inv_valid _ Hi).
Qed.

(** What a task of the strand adds to this file. *)
Definition written (x : Task * bytes * Outcome) (p : bytes) : Prop :=
  match x with
  | (TWrite msg, rcv, Whole) => p = line_of wh msg rcv
  | (TWrite msg, rcv, Part) => p `prefix_of` line_of wh msg rcv
  | _ => p = []
  end.

Lemma log_task t rcv w w' :
  Inv w → LogFile.m_cfg (w_sink w) = cfg → handle (task_event t rcv) w = Ret (tt, w') →
  ∃ gone p, (gone = [] ∨ oc_maxSize cfg ≠ 0 ∧ os_files (w_os w) !! rotatedPath base (reach k) = Some gone) ∧
    written (t, rcv, outcome t (w_sink w) (w_sink w')) p ∧
    kept_log k base (os_files (w_os w)) ++ p = gone ++ kept_log k base (os_files (w_os w')).
Proof.
  intros Hi Hc E. unfold written, outcome. destruct t as [msg|]; cbn [task_event] in E.
  - destruct (LogFile.m_closed (w_sink w)) eqn:Hcl; [|destruct (wanted msg (w_sink w)) eqn:Hw]; cbn [orb negb].
    1, 3: destruct (doWrite_dropped msg rcv w) as ([] & w1 & E1 & ->); [auto|];
      cbn [handle] in E; rewrite E1 in E; injection E as <-; exists [], []; split_and!; [by left|done|by rewrite app_nil_r].
    destruct (LogFile.m_closed (w_sink w')) eqn:Hcl'.
    + destruct (log_handle (SWrite msg rcv) I w tt w' Hc E) as (_ & _ & gone & p & ? & ? & ?). by exists gone, p.
    + destruct (whole_doWrite msg rcv w w' Hi Hc Hcl Hw E Hcl') as (gone & ? & ?). by exists gone, (line_of wh msg rcv).
  - destruct (log_handle SClose I w tt w' Hc E) as (_ & _ & gone & p & ? & Hp & ?).
    apply prefix_nil_inv in Hp as ->. by exists gone, [].
Qed.
End handlers.

(** ** A rotation that cannot rename the active file *)

(** The last rename of a rotation fails, the sink retries, and the next message
    rotates again: each attempt moves the older generations up and cuts the
    oldest. After as many attempts as generations are kept, none is left, with
    not one byte written. *)
Definition eroding_config : OutputConfig := mkOutput (lit "all") (lit "/l/a.log") [] 3 3 [] [] true.
Definition eroding_world : World :=
  mkWorld (mkOs (list_to_map [(lit "/l/a.log", lit "now"); (lit "/l/a.1.log", lit "one"); (lit "/l/a.2.log", lit "two");
                              (lit "/l/a.3.log", lit "three")]) [] 0 [])
          (new_LogFile eroding_config 30000).
(** [n] calls succeed, the rename of the active file does not; then the retry timer. *)
Definition failing_attempt (n : nat) : list SinkEvent :=
  [SEnvironment 0 (repeat None n ++ [Some 0%nat]); SWrite message0 (lit "T"); SEnvironment 0 []; STimer false].
Example rotation_erodes :
  match @handle_all example_env (failing_attempt 12 ++ failing_attempt 9 ++ failing_attempt 8) eroding_world with
  | Ret (_, w) =>
      ((λ p, os_files (w_os w) !! lit p) <$> ["/l/a.log"; "/l/a.1.log"; "/l/a.2.log"; "/l/a.3.log"]%string) =
        [Some (lit "now"); None; None; None]
  | _ => False
  end.
Proof. vm_compute. reflexivity. Qed.

(** ** Telling chains apart *)

(** Two files with different extensions never share a name, however often they rotate. *)
Definition extension (p : bytes) : bytes := (split_name (split_path p).2).2.
Lemma gen_last base n : extension base ≠ [] → last (gen base n) = last (extension base).
Proof.
  intros Hne. assert (Hl : ∀ x, last (x ++ extension base) = last (extension base)).
  { intros x. rewrite last_app. destruct (last (extension base)) eqn:E; [done|]. by apply last_None in E. }
  destruct n as [|n]; cbn [gen].
  - rewrite <- (split_path_app base) at 1. rewrite <- (split_name_app (split_path base).2), app_assoc. apply Hl.
  - unfold rotatedPath. unfold extension in *. destruct (split_path base) as [d nm]. cbn [snd] in *.
    destruct (split_name nm) as [s e].
    cbn [fst snd] in *. rewrite !app_assoc. apply Hl.
Qed.
Lemma extensions_apart cfg :
  (sv_empty (oc_textFile cfg) || sv_empty (oc_jsonlFile cfg) ||
   negb (sv_empty (extension (oc_textFile cfg)) || sv_empty (extension (oc_jsonlFile cfg)) ||
         bool_decide (last (extension (oc_textFile cfg)) = last (extension (oc_jsonlFile cfg))))) = true →
  chains_apart cfg.
Proof.
  intros Hb Ht Hj n n' E. rewrite Ht, Hj in Hb. cbn [orb] in Hb. apply negb_true_iff in Hb.
  apply orb_false_iff in Hb as [Hb Hl]. apply orb_false_iff in Hb as [Hte Hje]. apply bool_decide_eq_false in Hl.
  apply Hl. rewrite <- (gen_last _ n), <- (gen_last _ n'); [by rewrite E| |]; intros Hz.
  - by rewrite Hz in Hje.
  - by rewrite Hz in Hte.
Qed.
