(* ===== verification/DiskHistory.v ===== *)
(** * Nothing written is lost, over a whole run

    The log of every section's files while the server runs, under any schedule of
    its strands, timers and workers and any pattern of failing calls. *)

From S2P Require Import Prelude Names Parser Platform Config ConfigSpec Escape Admission Backoff FileSystem LogFile LogFileSpec Rotation Lifecycle Sinks OutputManager Forwarder UdpServer Server Isolation Interleaving Process Shutdown Delivery Retention.

Section history.
Context `{LogEnv}.

(** What the strand of sink [i] does in one step: the task, its time stamp, and
    what became of it. *)
Definition handled (i : nat) (y : Process) (e : SysEvent) : list (Task * bytes * Outcome) :=
  match e with
  | YStrand j rcv =>
      match sys_step y e, m_sinks (y_outputs y) !! j with
      | Ret y', Some s =>
          match ms_queue s, m_sinks (y_outputs y') !! j with
          | t :: _, Some s' => if decide (j = i) then [(t, rcv, outcome t (ms_file s) (ms_file s'))] else []
          | _, _ => []
          end
      | _, _ => []
      end
  | _ => []
  end.
Fixpoint history (i : nat) (y : Process) (es : list SysEvent) : list (Task * bytes * Outcome) :=
  match es with
  | [] => []
  | e :: es' => handled i y e ++ match sys_step y e with Ret y' => history i y' es' | _ => [] end
  end.

Lemma history_snoc i y es y1 e : path y es y1 → history i y (es ++ [e]) = history i y es ++ handled i y1 e.
Proof.
  intros Hp. assert (Happ : ∀ es', history i y (es ++ es') = history i y es ++ history i y1 es').
  { induction Hp as [|es y1 e' y2 _ IH _ Hs]; intros es'; [done|].
    rewrite <- app_assoc, (IH ([e'] ++ es')), (IH [e']). cbn. rewrite Hs. by rewrite app_nil_r, <- app_assoc. }
  rewrite Happ. cbn. f_equal. destruct (sys_step y1 e); by rewrite app_nil_r.
Qed.

(** ** One step *)

Section sink.
Context (cfg : OutputConfig) (wh : Which).
Let base := file_in wh cfg.
Let k := oc_maxFiles cfg.
Context (configured : sv_empty base = false) (chains : chains_apart cfg) (limit : 0 <= k).

Lemma gen_footprint n : footprint cfg (gen base n).
Proof. exists wh. split; [done|]. destruct n as [|n]; [by left|right; by exists (S n)]. Qed.

(** Where [m'] is [m] after a step that added [p] to the file of sink [i]. *)
Definition grew (i : nat) (m m' : Manager) (p : bytes) : Prop :=
  (config_of <$> m_sinks m' !! i) = (config_of <$> m_sinks m !! i) ∧
  ∃ gone, (gone = [] ∨ oc_maxSize cfg ≠ 0 ∧ os_files (m_os m) !! rotatedPath base (reach k) = Some gone) ∧
    kept_log k base (os_files (m_os m)) ++ p = gone ++ kept_log k base (os_files (m_os m')).

Lemma grew_same i m m' :
  os_files (m_os m') = os_files (m_os m) → ms_file <$> m_sinks m' = ms_file <$> m_sinks m → grew i m m' [].
Proof.
  intros Ho Hf. split.
  - assert (Hi : (ms_file <$> m_sinks m' !! i) = (ms_file <$> m_sinks m !! i)) by (by rewrite <- !list_lookup_fmap, Hf).
    unfold config_of. destruct (m_sinks m' !! i), (m_sinks m !! i); cbn in *; congruence.
  - exists []. split; [by left|]. by rewrite Ho, app_nil_r.
Qed.

(** A handler of sink [j]. *)
Lemma handler_grew i j e m s w' g p :
  Running m → m_sinks m !! i = Some s → config_of s = cfg → of_sink e →
  ∀ sj, m_sinks m !! j = Some sj → handle e (mkWorld (m_os m) (ms_file sj)) = Ret (tt, w') →
  (∀ x, ms_file (g x) = w_sink w') →
  (if decide (j = i) then
     ∃ gone, (gone = [] ∨ oc_maxSize cfg ≠ 0 ∧ os_files (m_os m) !! rotatedPath base (reach k) = Some gone) ∧
       kept_log k base (os_files (m_os m)) ++ p = gone ++ kept_log k base (os_files (w_os w'))
   else p = []) →
  grew i m (mkManager (w_os w') (<[j := g sj]> (m_sinks m))) p.
Proof.
  intros [Hi Ha] Hs Hc He sj Hj Hh Hg Hown. rewrite Forall_lookup in Hi.
  destruct (handle_frame e _ _ He (Hi _ _ Hj)) as (os1 & f1 & Hh1 & _ & Hc1 & Hu).
  rewrite Hh in Hh1. injection Hh1 as ->. cbn [w_os w_sink] in *. destruct (decide (j = i)) as [->|Hne].
  - split; cbn [m_sinks m_os]; [|exact Hown]. rewrite list_lookup_insert_eq by (by eapply lookup_lt_Some).
    rewrite Hs in Hj |- *. injection Hj as <-. cbn. f_equal. unfold config_of. by rewrite Hg.
  - subst p. split; cbn [m_sinks m_os]; [by rewrite list_lookup_insert_ne|]. exists []. split; [by left|].
    rewrite app_nil_r. symmetry. apply (same_chain_log cfg wh), chain_ext. intros n.
    apply (un_files _ _ _ Hu). intros Hf.
    eapply (Ha j i (config_of sj) cfg); [done| | |exact Hf|apply gen_footprint]; rewrite list_lookup_fmap;
      [by rewrite Hj|by rewrite Hs, <- Hc].
Qed.

Lemma step_grew B i y e y' s :
  PInv B y → enabled y e = true → sys_step y e = Ret y' →
  m_sinks (y_outputs y) !! i = Some s → config_of s = cfg →
  ∃ ps, Forall2 (written wh) (handled i y e) ps ∧ grew i (y_outputs y) (y_outputs y') (concat ps).
Proof.
  intros Hy He Hs Hsi Hc. pose proof (step_effect B y e y' Hy He Hs) as Hf. pose proof (pi_running _ _ Hy) as Hrun.
  destruct e as [ec data srcIp now oom| |now|n|j rcv|j|sent|ec results opened| |j| |t faults]; cbn [effect] in Hf;
    try (destruct Hf as [_ ->]; exists []; by split; [|apply grew_same]).
  - destruct Hf as (_ & -> & _). exists []. by split; [|apply grew_same].
  - destruct Hf as (p & msg & _ & _ & _ & ->). exists []. split; [done|]. apply grew_same; [done|].
    apply kept_queues_fmap. intros x. by destruct (accepts msg x).
  - destruct Hf as [_ Hr]. cbn [enabled] in He. destruct (m_sinks (y_outputs y) !! j) as [sj|] eqn:Hj; [|done].
    destruct (ms_queue sj) as [|t q] eqn:Hq; [done|].
    destruct (run_strand_result _ _ _ _ _ _ _ Hj Hq Hr) as (w' & Hh & Hm').
    assert (Hhd : handled i y (YStrand j rcv) = if decide (j = i) then [(t, rcv, outcome t (ms_file sj) (w_sink w'))] else []).
    { cbn [handled]. rewrite Hs, Hj, Hq, Hm'. cbn [m_sinks]. by rewrite list_lookup_insert_eq by (by eapply lookup_lt_Some). }
    rewrite Hhd, Hm'. pose proof (rn_inv _ Hrun) as Hinv. rewrite Forall_lookup in Hinv.
    destruct (decide (j = i)) as [->|Hne].
    + rewrite Hsi in Hj. injection Hj as ->.
      destruct (log_task cfg wh configured chains limit t rcv _ _ (Hinv _ _ Hsi) Hc Hh) as (gone & p & Hg & Hp & Hl).
      exists [p]. split; [by repeat constructor|]. cbn. rewrite app_nil_r.
      eapply (handler_grew i i (task_event t rcv) _ sj w' (λ x, set_queue q (set_sink (w_sink w') x)) p); try done; [by destruct t|].
      rewrite decide_True by done. by exists gone.
    + exists []. split; [done|].
      eapply (handler_grew i j (task_event t rcv) _ s w' (λ x, set_queue q (set_sink (w_sink w') x)) []); try done; [by destruct t|].
      by rewrite decide_False.
  - destruct Hf as [_ Hr]. exists []. split; [done|]. unfold on_sink in Hr.
    destruct (m_sinks (y_outputs y) !! j) as [sj|] eqn:Hj; [|injection Hr as <-; by apply grew_same].
    destruct (handle (STimer false) _) as [[[] w']| |] eqn:Hh; [|done|done]. injection Hr as <-.
    eapply (handler_grew i j (STimer false) _ s w' (set_sink (w_sink w')) []); try done.
    destruct (decide (j = i)) as [->|]; [|done]. rewrite Hsi in Hj. injection Hj as ->.
    destruct (log_handle cfg wh configured chains limit (STimer false) I (mkWorld _ (ms_file sj)) tt w' Hc Hh) as (_ & _ & gone & p & ? & Hp & ?).
    apply prefix_nil_inv in Hp as ->. by exists gone.
  - destruct Hf as [_ ->]. exists []. split; [done|]. apply grew_same; [done|]. by apply kept_queues_fmap.
Qed.

(** ** A whole run *)

(** A whole generation that was the oldest a rotation keeps, on a disk of the run. *)
Definition was_oldest (y0 : Process) (es : list SysEvent) (g : bytes) : Prop :=
  oc_maxSize cfg ≠ 0 ∧ ∃ es1 y1, es1 `prefix_of` es ∧ path y0 es1 y1 ∧
    os_files (m_os (y_outputs y1)) !! rotatedPath base (reach k) = Some g.

Lemma was_oldest_snoc y0 es e g : was_oldest y0 es g → was_oldest y0 (es ++ [e]) g.
Proof.
  intros (Hm & es1 & y1 & Hp & ?). split; [done|]. exists es1, y1. split; [|done]. by apply prefix_app_r.
Qed.

Lemma path_grew B i y0 es y s0 :
  0 <= B ∧ B + BUFFER_SIZE < 2 ^ 64 → PInv B y0 → path y0 es y →
  m_sinks (y_outputs y0) !! i = Some s0 → config_of s0 = cfg →
  (∃ s, m_sinks (y_outputs y) !! i = Some s ∧ config_of s = cfg) ∧
  ∃ ps gs, Forall2 (written wh) (history i y0 es) ps ∧ Forall (was_oldest y0 es) gs ∧
    kept_log k base (os_files (m_os (y_outputs y0))) ++ concat ps =
    concat gs ++ kept_log k base (os_files (m_os (y_outputs y))).
Proof.
  intros Hnw Hi Hp H0 Hc0. induction Hp as [|es y1 e y2 Hp IH He Hs].
  - split; [by exists s0|]. exists [], []. split_and!; [done|done|apply app_nil_r].
  - destruct IH as ((s & Hs1 & Hc) & ps & gs & Hps & Hgs & Hl).
    pose proof (path_PInv B Hnw y0 es y1 Hi Hp) as Hi1.
    destruct (step_grew B i y1 e y2 s Hi1 He Hs Hs1 Hc) as (qs & Hqs & Hcfg & gone & Hg & Hl2). split.
    + rewrite Hs1 in Hcfg. destruct (m_sinks (y_outputs y2) !! i) as [s2|]; [|done]. injection Hcfg as Hcfg.
      exists s2. split; [done|congruence].
    + rewrite (history_snoc i y0 es y1 e Hp).
      exists (ps ++ qs), (gs ++ if decide (gone = []) then [] else [gone]). split_and!.
      * by apply Forall2_app.
      * apply Forall_app. split; [eapply Forall_impl; [done|intros; by apply was_oldest_snoc]|].
        destruct (decide (gone = [])) as [|Hne]; [done|]. destruct Hg as [|[Hm Hg]]; [done|].
        constructor; [|done]. split; [done|]. exists es, y1. split_and!; [by apply prefix_app_r|done|done].
      * rewrite !concat_app, app_assoc, Hl, <- !app_assoc, Hl2. f_equal.
        destruct (decide (gone = [])) as [->|]; [done|]. cbn. by rewrite app_nil_r.
Qed.
End sink.

(** The tasks are those the sink is seen to run. *)
Lemma history_ran i y es y' : path y es y' → (history i y es).*1 = omap (ran_by i) (observed y es).
Proof.
  intros Hp. induction Hp as [|es y1 e y2 Hp IH He Hs]; [done|].
  rewrite (history_snoc i y es y1 e Hp), (observed_snoc y es y1 e Hp), fmap_app, omap_app, IH. f_equal.
  destruct e as [ec data srcIp now oom| |now|n|j rcv|j|sent|ec results opened| |j| |t faults]; cbn [handled observe]; try done.
  - by destruct (_ =? _)%nat.
  - by repeat case_match.
  - rewrite Hs. cbn [enabled] in He. cbn [sys_step] in Hs. destruct (m_sinks (y_outputs y1) !! j) as [sj|] eqn:Hj; [|done].
    destruct (ms_queue sj) as [|t q] eqn:Hq; [done|].
    destruct (run_strand j rcv (y_outputs y1)) as [m| |] eqn:Hr; [|done|done]. injection Hs as <-.
    destruct (run_strand_result _ _ _ _ _ _ _ Hj Hq Hr) as (w' & _ & ->). cbn.
    rewrite list_lookup_insert_eq by (by eapply lookup_lt_Some). by destruct (decide (j = i)).
Qed.
End history.

Section run.
Context `{PropertyTree T} `{BoostStrings} `{Machine} `{LogEnv}.

Lemma started_limits (env : ServerEnv T) r sd i s0 :
  runServer env = Ret r → rn_started r = Some sd → apart (cfg_outputs (u_cfg (sd_server sd))) →
  m_sinks (sd_outputs sd) !! i = Some s0 →
  config_of s0 ∈ cfg_outputs (u_cfg (sd_server sd)) ∧ 0 <= oc_maxFiles (config_of s0).
Proof.
  intros Hr Hs Ha Hi. destruct (started_parts env r sd Hr Hs) as (tree & cfg & Hl & Ho & _ & _ & Hu). rewrite Hu in *.
  destruct (open_all_running cfg (ev_os env) (sd_outputs sd) (loaded_outputs _ _ Hl) Ha Ho) as (_ & Hm & _).
  assert (Hin : cfg_outputs cfg !! i = Some (config_of s0)) by (by rewrite <- Hm, list_lookup_fmap, Hi).
  split; [by eapply list_elem_of_lookup_2|]. destruct (lf_outputs _ _ Hl) as [_ Hos].
  destruct (Forall2_lookup_r _ _ _ _ _ Hos Hin) as (nt & _ & Hof). apply (oo_files_range _ _ _ Hof).
Qed.

(** C4. No byte that reached a file is lost before its generation is the oldest:
    under any schedule of the strands, timers and workers, and whatever calls
    fail, the generations and the active file of a section, read oldest first,
    are what was there at the start followed, in order, by what its strand made
    of each message, less whole generations cut from the front, each of which was
    the oldest that rotation keeps when it was cut; with max_size = 0 none is cut.
    A message adds its whole line when the sink is in service before and after it,
    a part of it when a call failed, and nothing when the sink was closed or does
    not take it. *)
Theorem log_retained (env : ServerEnv T) r sd es y i s0 wh :
  runServer env = Ret r → rn_started r = Some sd →
  let cfg := config_of s0 in let base := file_in wh cfg in
  apart (cfg_outputs (u_cfg (sd_server sd))) → Forall chains_apart (cfg_outputs (u_cfg (sd_server sd))) →
  cfg_maxQueueBytes (u_cfg (sd_server sd)) + BUFFER_SIZE < 2 ^ 64 →
  path (process_of sd) es y → m_sinks (sd_outputs sd) !! i = Some s0 → sv_empty base = false →
  let h := history i (process_of sd) es in
  h.*1 = omap (ran_by i) (observed (process_of sd) es) ∧
  ∃ lines gone, Forall2 (written wh) h lines ∧ Forall (was_oldest cfg wh (process_of sd) es) gone ∧
    kept_log (oc_maxFiles cfg) base (os_files (m_os (sd_outputs sd))) ++ concat lines =
    concat gone ++ kept_log (oc_maxFiles cfg) base (os_files (m_os (y_outputs y))).
Proof.
  intros Hr Hs cfg base Ha Hch Hw Hp Hs0 Hb h. destruct (started_PInv env r sd Hr Hs Ha Hw) as [Hge Hi0].
  destruct (started_limits env r sd i s0 Hr Hs Ha Hs0) as [Hin Hk]. rewrite Forall_forall in Hch.
  split; [by eapply history_ran|].
  by destruct (path_grew cfg wh Hb (Hch _ Hin) Hk _ i _ es y s0 (conj Hge Hw) Hi0 Hp Hs0 eq_refl) as (_ & Hg).
Qed.
End run.

(** ** A concrete run: a write that fails half way, and a shutdown *)

Lemma the_run_chains : Forall chains_apart (cfg_outputs (u_cfg (sd_server the_start))).
Proof. rewrite the_run_outputs. unfold run_outputs. rewrite !Forall_cons. split_and!; [..|done]; apply extensions_apart; vm_compute; reflexivity. Qed.

Lemma log_retained_witness :
  match m_sinks (sd_outputs the_start) !! 0%nat with
  | Some s0 =>
      let cfg := config_of s0 in let base := file_in Text cfg in
      let h := @history example_env 0 (process_of the_start) before_stop in
      h.*1 = omap (ran_by 0) (@observed example_env (process_of the_start) before_stop) ∧
      ∃ lines gone, Forall2 (@written example_env Text) h lines ∧
        Forall (@was_oldest example_env cfg Text (process_of the_start) before_stop) gone ∧
        kept_log (oc_maxFiles cfg) base (os_files (m_os (sd_outputs the_start))) ++ concat lines =
        concat gone ++ kept_log (oc_maxFiles cfg) base (os_files (m_os (y_outputs at_stop)))
  | None => False
  end.
Proof.
  destruct (m_sinks (sd_outputs the_start) !! 0%nat) as [s0|] eqn:Hs0; [|by vm_compute in Hs0].
  apply (@log_retained ini ini_tree linux_strings linux_machine example_env run_env the_run the_start before_stop);
    [| | | | | |exact Hs0|].
  - exact (proj1 the_run_eq).
  - exact (proj2 the_run_eq).
  - exact the_run_apart.
  - exact the_run_chains.
  - vm_compute. reflexivity.
  - exact before_stop_path.
  - assert (E : (λ s, sv_empty (file_in Text (config_of s))) <$> (m_sinks (sd_outputs the_start) !! 0%nat) = Some false)
      by (vm_compute; reflexivity).
    rewrite Hs0 in E. by injection E.
Defined.
(** Four bytes of the first message reached the file before its write failed. *)
Example the_history :
  map snd (@history example_env 0 (process_of the_start) before_stop) = [Part] ∧
  map snd (@history example_env 1 (process_of the_start) (before_stop ++ after_stop)) = [Whole; Nothing] ∧
  kept_log 10 (lit "/l/a.log") (os_files (m_os (y_outputs at_stop))) = lit "<34".
Proof. vm_compute. auto. Qed.
