(* ===== verification/Outages.v ===== *)
(** * No message is lost in silence

    What the server says about a sink that is out of service. The lines about one
    sink are shown to be those of its outages - a closing, then reminders, then a
    reopening, with the times they tell - and, over a whole run, every message a
    sink did not write whole to fall into an outage that was announced, or into the
    shutdown. *)

From S2P Require Import Prelude Names Parser Platform Config ConfigSpec Escape Admission Backoff FileSystem LogFile LogFileSpec Rotation Lifecycle Sinks OutputManager Forwarder UdpServer Server Isolation Interleaving Process Shutdown Delivery Retention DiskHistory.

(** ** What is said of a sink *)

Inductive Said :=
| Closing (reason : bytes)
| StillClosed (for_seconds attempts : Z) (reason : bytes)
| Reopened (for_seconds failures : Z).

(** The line it is in the system log. *)
Definition said_line (s : Sink) (x : Said) : LogLine :=
  match x with
  | Closing reason =>
      (LError, lit "minilog: " ++ reason ++ lit "; closing " ++ sinkName s ++ lit ", retrying every " ++
               formatInterval (m_retryInterval s))
  | StillClosed n attempts reason =>
      (LError, lit "minilog: " ++ sinkName s ++ lit " still closed after " ++ to_string n ++ lit " s: " ++ reason ++
      lit " (" ++ to_string attempts ++ lit " failed attempt(s) to reopen it since the last report)")
  | Reopened n failures =>
      (LInfo, lit "minilog: " ++ sinkName s ++ lit " reopened after " ++ to_string n ++ lit " s and " ++ to_string failures ++
      lit " failure(s); messages routed to it during that time were dropped")
  end.

(** What is announced after something was said, and when: an outage, with the time
    of its closing and of the last line about it. A reminder comes a minute or more
    after that line and tells how long the sink has been closed; so does a
    reopening. The count of failures wraps at 2^64, and where it has, a closing may
    follow another and a reopening tells of no failure. *)
Abbreviation notice := (option (Z * Z)).
Definition says (g : notice) (e : Z * Said) : option notice :=
  let '(t, x) := e in
  match x, g with
  | Closing _, _ => Some (Some (t, t))
  | StillClosed n _ _, Some (since, last) =>
      if (SinkRecovery.kReportInterval <=? t - last) && (n =? to_seconds (t - since)) then Some (Some (since, t)) else None
  | Reopened n failures, Some (since, _) =>
      if (n =? to_seconds (t - since)) || (failures =? 0) then Some None else None
  | _, None => None
  end.
Definition tells (g : notice) (l : list (Z * Said)) : option notice := foldl (λ o x, g ← o; says g x) (Some g) l.

Lemma tells_app g l k : tells g (l ++ k) = (g' ← tells g l; tells g' k).
Proof.
  unfold tells. rewrite foldl_app. destruct (foldl _ _ l) as [g'|]; [done|].
  cbn. induction k as [|x k IH]; [done|exact IH].
Qed.
Lemma tells_cons g x l : tells g (x :: l) = (g' ← says g x; tells g' l).
Proof. exact (tells_app g [x] l). Qed.
Definition failure (e : Z * Said) : Prop := match e.2 with Reopened _ _ => False | _ => True end.
Lemma tells_failures l g g' : Forall failure l → is_Some g → tells g l = Some g' → is_Some g'.
Proof.
  intros Hl. revert g. induction Hl as [|[t x] l Hx _ IH]; intros g Hg; [by intros [= <-]|].
  rewrite tells_cons. destruct Hg as [[since last] ->]. destruct x as [r|n a r|n k]; [by apply IH| |done].
  cbn [says]. destruct (_ && _); [|done]. by apply IH.
Qed.

(** A reminder comes a minute or more after the line before it about the same
    outage, and tells the whole seconds since its closing. *)
Lemma reminder_told l t0 x t n attempts reason g :
  tells None (l ++ [(t0, x)] ++ [(t, StillClosed n attempts reason)]) = Some g →
  ∃ since, g = Some (since, t) ∧ seconds 60 <= t - t0 ∧ n = to_seconds (t - since).
Proof.
  rewrite app_assoc, tells_app. destruct (tells None (l ++ _)) as [[[since last]|]|] eqn:Hl; [|done..].
  assert (last = t0) as ->.
  { rewrite tells_app in Hl. destruct (tells None l) as [[[a b]|]|]; [| |done]; destruct x as [r'|n' a' r'|n' k]; cbn in Hl;
      try (by simplify_eq); by repeat case_match; simplify_eq. }
  cbn. destruct (SinkRecovery.kReportInterval <=? t - t0) eqn:Hle; [|done]. destruct (Z.eqb_spec n (to_seconds (t - since))) as [->|]; [|done].
  intros [= <-]. exists since. split_and!; [done| |done]. by apply Z.leb_le.
Qed.

(** ** A handler *)

Section handlers.
Context `{LogEnv}.

(** The members a sink has in an outage that is, or is not, announced. *)
Record steady (g : notice) (s : Sink) : Prop := {
  st_started : m_startingUp s = false;
  st_recovery : SinkRecovery.closed (m_recovery s) = true → is_Some g;
  st_since : ∀ since last, g = Some (since, last) →
    SinkRecovery.m_closedSince (m_recovery s) = since ∧ SinkRecovery.m_lastReport (m_recovery s) = last;
  st_closed : LogFile.m_closed s = true → m_shuttingDown s = true ∨ is_Some g
}.
Definition line_at (s : Sink) (e : Z * Said) : Z * LogLine := (e.1, said_line s e.2).
(** From [w] to [w'] failures may have been said, and no reopening. *)
Record told (g : notice) (w : World) (l : list (Z * Said)) (g' : notice) (w' : World) : Prop := {
  td_log : os_log (w_os w') = reverse (line_at (w_sink w) <$> l) ++ os_log (w_os w);
  td_tells : tells g l = Some g';
  td_failures : Forall failure l;
  td_steady : steady g' (w_sink w');
  td_config : same_config (w_sink w) (w_sink w');
  td_down : m_shuttingDown (w_sink w') = m_shuttingDown (w_sink w);
  td_marked : is_Some g' → is_Some g ∨ LogFile.m_closed (w_sink w') = true;
  td_closed : LogFile.m_closed (w_sink w) = true → LogFile.m_closed (w_sink w') = true
}.

Lemma said_line_config s s' : same_config s s' → line_at s' = line_at s :> (Z * Said → Z * LogLine).
Proof. intros [Hc Hi]. unfold line_at, said_line, sinkName. by rewrite Hc, Hi. Qed.
Lemma told_refl g w w' :
  os_log (w_os w') = os_log (w_os w) → w_sink w' = w_sink w → steady g (w_sink w) → told g w [] g w'.
Proof. intros Hl Hs Hst. constructor; rewrite ?Hs; try done. by left. Qed.
Lemma told_trans g1 w1 l1 g2 w2 l2 g3 w3 : told g1 w1 l1 g2 w2 → told g2 w2 l2 g3 w3 → told g1 w1 (l1 ++ l2) g3 w3.
Proof.
  intros [L1 T1 F1 S1 C1 D1 M1 K1] [L2 T2 F2 S2 C2 D2 M2 K2]. constructor.
  - rewrite L2, L1, fmap_app, reverse_app, (said_line_config _ _ C1). by rewrite app_assoc.
  - by rewrite tells_app, T1.
  - by apply Forall_app.
  - done.
  - destruct C1, C2. split; congruence.
  - congruence.
  - intros Hg. destruct (M2 Hg) as [Hg2|]; [|by right]. destruct (M1 Hg2); auto.
  - auto.
Qed.

(** A computation that says only what happened to it. *)
Definition speaks {A : Type} (m : IO A) : Prop :=
  ∀ w a w' g, steady g (w_sink w) → m w = Ret (a, w') → ∃ l g', told g w l g' w'.

Lemma speaks_ret {A : Type} (a : A) : speaks (mret a).
Proof. intros w b w' g Hs [= <- <-]. exists [], g. by apply told_refl. Qed.
Lemma speaks_this {A : Type} (f : Sink → A) : speaks (this f).
Proof. intros w b w' g Hs [= <- <-]. exists [], g. by apply told_refl. Qed.
Lemma speaks_pure {A : Type} (m : M A) : speaks (pure m).
Proof. intros w b w' g Hs E. unfold pure in E. destruct m; simplify_eq. exists [], g. by apply told_refl. Qed.
Lemma speaks_bind {A B : Type} (m : IO A) (f : A → IO B) : speaks m → (∀ a, speaks (f a)) → speaks (m ≫= f).
Proof.
  intros Hm Hf w b w' g Hs E. unfold mbind, IO_bind in E. destruct (m w) as [[a w1]| |] eqn:Em; [|done..].
  destruct (Hm w a w1 g Hs Em) as (l1 & g1 & H1). destruct (Hf a w1 b w' g1 (td_steady _ _ _ _ _ H1) E) as (l2 & g2 & H2).
  exists (l1 ++ l2), g2. by eapply told_trans.
Qed.
Lemma speaks_sys {A : Type} (f : Os → A * Os) : (∀ os, os_log (f os).2 = os_log os) → speaks (sys f).
Proof.
  intros Hf w b w' g Hs E. unfold sys in E. specialize (Hf (w_os w)). destruct (f (w_os w)) as [x os']. injection E as <- <-.
  exists [], g. by apply told_refl.
Qed.
(** An assignment of members that say nothing about service. *)
Definition service (s : Sink) := (LogFile.m_cfg s, m_retryInterval s, m_startingUp s, m_recovery s, LogFile.m_closed s, m_shuttingDown s).
Lemma speaks_assign f : (∀ s, service (f s) = service s) → speaks (assign f).
Proof.
  intros Hf w b w' g Hs [= <- <-]. specialize (Hf (w_sink w)). injection Hf as Hc Hi Hu Hr Hcl Hd.
  exists [], g. destruct Hs as [H1 H2 H3 H4]. constructor; cbn; rewrite ?Hcl; try done; [|by left].
  constructor; rewrite ?Hu, ?Hr, ?Hcl, ?Hd; done.
Qed.

Lemma speaks_exists p : speaks (sys (fs_exists p)).
Proof. apply speaks_sys. intros os. unfold fs_exists, next_fault. by destruct (os_faults os) as [|[]]. Qed.
Lemma speaks_remove p : speaks (sys (fs_remove p)).
Proof. apply speaks_sys. intros os. unfold fs_remove, next_fault. by destruct (os_faults os) as [|[]]. Qed.
Lemma speaks_rename p q : speaks (sys (fs_rename p q)).
Proof. apply speaks_sys. intros os. unfold fs_rename, next_fault. destruct (os_faults os) as [|[]]; cbn; by destruct (os_files os !! p). Qed.
Lemma speaks_file_size p : speaks (sys (fs_file_size p)).
Proof. apply speaks_sys. intros os. unfold fs_file_size, next_fault. destruct (os_faults os) as [|[]]; cbn; by destruct (os_files os !! p). Qed.
Lemma speaks_open p : speaks (sys (fs_open p)).
Proof. apply speaks_sys. intros os. unfold fs_open, next_fault. destruct (os_faults os) as [|[]]; cbn; by destruct (os_files os !! p). Qed.
Lemma speaks_append p d : speaks (sys (fs_append p d)).
Proof. apply speaks_sys. intros os. unfold fs_append, next_fault. destruct (os_faults os) as [|[]]; cbn; by destruct (os_files os !! p). Qed.
Lemma speaks_now : speaks now.
Proof. by apply speaks_sys. Qed.

(** What [failSink] says. *)
Definition failure_said (t : Z) (reason : bytes) (r : SinkRecovery.t) : list (Z * Said) :=
  let d := (SinkRecovery.onFailure t r).2 in
  if SinkRecovery.report d then
    [(t, if SinkRecovery.firstFailure d then Closing reason
         else StillClosed (SinkRecovery.closedFor d) (SinkRecovery.suppressed d) reason)]
  else [].
Lemma failSink_says reason w :
  m_startingUp (w_sink w) = false →
  wp (failSink reason) w (λ _ w',
    os_log (w_os w') = reverse (line_at (w_sink w) <$> failure_said (os_now (w_os w)) reason (m_recovery (w_sink w))) ++ os_log (w_os w)).
Proof.
  intros Hst. destruct w as [os s]. cbn [w_sink] in Hst. unfold failSink, closeFiles, scheduleRetry, close_one, failure_said.
  repeat (wp_step; cbn beta). cbn [w_sink]. rewrite Hst. wp_go. cbn [w_sink w_os fst snd].
  destruct (SinkRecovery.onFailure (os_now os) (m_recovery s)) as [r d] eqn:Hd. wp_go. cbn [w_sink w_os fst snd].
  destruct (SinkRecovery.report d); [destruct (SinkRecovery.firstFailure d)|]; wp_go; cbn;
    destruct (m_shuttingDown s) eqn:Hsd; wp_go; cbn; done.
Qed.
Lemma speaks_failSink reason : speaks (failSink reason).
Proof.
  intros w [] w' g [Hst Hr Hsi Hcl] E. destruct (failSink_says reason w Hst) as ([] & w1 & E1 & Hlog).
  destruct (failSink_spec reason w) as ([] & w2 & E2 & _ & Hs). rewrite E in E1, E2. injection E1 as <-. injection E2 as <-.
  set (t := os_now (w_os w)) in *. set (r := m_recovery (w_sink w)) in *.
  assert (Hsays : ∃ g', tells g (failure_said t reason r) = Some (Some g') ∧
    g' = (SinkRecovery.m_closedSince (SinkRecovery.onFailure t r).1, SinkRecovery.m_lastReport (SinkRecovery.onFailure t r).1)).
  { unfold failure_said, SinkRecovery.onFailure. destruct (SinkRecovery.m_failures r =? 0) eqn:Hz; [by eexists|].
    destruct g as [[since last]|]; [|unfold SinkRecovery.closed in Hr; rewrite Hz in Hr; by destruct (Hr eq_refl)].
    destruct (Hsi since last eq_refl) as [<- <-]. destruct (_ <=? _) eqn:Hle; [|by eexists].
    cbn. rewrite Hle, Z.eqb_refl. by eexists. }
  destruct Hsays as (g' & Htells & Hg'). exists (failure_said t reason r), (Some g').
  assert (Hfail : Forall failure (failure_said t reason (m_recovery (w_sink w))))
    by (unfold failure_said; destruct (SinkRecovery.report _); [|done]; repeat constructor; by destruct (SinkRecovery.firstFailure _)).
  constructor; try done; try (rewrite Hs; done).
  - rewrite Hs. unfold failed. rewrite Hst. constructor; cbn; [done|done| |by right].
    intros since last [= ->]. by injection Hg' as -> ->.
  - rewrite Hs. by right.
Qed.

(** ** The member functions *)

Create HintDb speaks.
Hint Resolve speaks_exists speaks_remove speaks_rename speaks_file_size speaks_open speaks_append speaks_now speaks_failSink : speaks.
Ltac speaks_go :=
  repeat first
    [ apply speaks_ret | apply speaks_pure
    | apply speaks_assign; intros ?; solve [done | by destruct_which]
    | solve [eauto with speaks]
    | apply speaks_this
    | match goal with
      | |- speaks (if ?b then _ else _) => destruct b
      | |- speaks (match ?o with Some _ => _ | None => _ end) => destruct o as [[]|]
      | |- speaks (match ?o with Some _ => _ | None => _ end) => destruct o
      end
    | apply speaks_bind; [|intros ?] ]
with destruct_which := match goal with w : Which |- _ => destruct w end.

Lemma speaks_closeFiles : speaks closeFiles.
Proof. unfold closeFiles. speaks_go. Qed.
Lemma speaks_open_one wh : speaks (open_one wh).
Proof. unfold open_one. speaks_go. Qed.
Hint Resolve speaks_closeFiles speaks_open_one : speaks.
Lemma speaks_openFiles : speaks openFiles.
Proof. unfold openFiles. speaks_go. Qed.
Lemma speaks_probe p : speaks (probe p).
Proof. unfold probe. speaks_go. Qed.
Hint Resolve speaks_openFiles speaks_probe : speaks.
Lemma speaks_rename_step p q : speaks (rename_step p q).
Proof. unfold rename_step. speaks_go. Qed.
Hint Resolve speaks_rename_step : speaks.
Lemma speaks_probe_loop base n count highest : speaks (probe_loop base n count highest).
Proof. revert n highest. induction count as [|count IH]; intros n highest; cbn [probe_loop]; speaks_go. Qed.
Lemma speaks_delete_loop base n count : speaks (delete_loop base n count).
Proof. revert n. induction count as [|count IH]; intros n; cbn [delete_loop]; speaks_go. Qed.
Lemma speaks_shift_loop base n : speaks (shift_loop base n).
Proof. induction n as [|n IH]; cbn [shift_loop]; speaks_go. Qed.
Hint Resolve speaks_probe_loop speaks_delete_loop speaks_shift_loop : speaks.
Lemma speaks_shift_one wh : speaks (shift_one wh).
Proof. unfold shift_one, shiftFiles. speaks_go. Qed.
Hint Resolve speaks_shift_one : speaks.
Lemma speaks_rotateIfNeeded : speaks rotateIfNeeded.
Proof. unfold rotateIfNeeded, rotate. speaks_go. Qed.
Lemma speaks_write_one wh record : speaks (write_one wh record).
Proof. unfold write_one. speaks_go. Qed.
Hint Resolve speaks_rotateIfNeeded speaks_write_one : speaks.
Lemma speaks_doWrite msg rcv : speaks (doWrite msg rcv).
Proof. unfold doWrite. speaks_go. Qed.

(** ** The handlers *)

(** Between handlers a sink in service has no announced outage. *)
Definition settled (g : notice) (s : Sink) : Prop := steady g s ∧ (LogFile.m_closed s = false → g = None).
(** What a handler says, and what that leaves announced. *)
Definition spoke (g : notice) (w : World) (l : list (Z * Said)) (g' : notice) (w' : World) : Prop :=
  os_log (w_os w') = reverse (line_at (w_sink w) <$> l) ++ os_log (w_os w) ∧ tells g l = Some g' ∧
  settled g' (w_sink w') ∧ same_config (w_sink w) (w_sink w').

Lemma told_spoke g w l g' w' : (is_Some g → LogFile.m_closed (w_sink w) = true) → told g w l g' w' → spoke g w l g' w'.
Proof.
  intros Hg []. split_and!; [done|done| |done]. split; [done|]. intros Hc. destruct g'; [|done].
  destruct (td_marked0 (mk_is_Some _ _ eq_refl)) as [Hg'|Hc']; [|congruence]. rewrite td_closed0 in Hc by auto. done.
Qed.

(** What [attemptReopen] does once it has tried the files. *)
Definition after_reopening (w1 : World) : World :=
  let s := w_sink w1 in
  if LogFile.m_closed s then w1 else
  let '(r, o) := SinkRecovery.onRecovered (os_now (w_os w1)) (m_recovery s) in
  mkWorld (log_line (said_line s (Reopened (SinkRecovery.out_closedFor o) (SinkRecovery.out_failures o))) (w_os w1)) (set_recovery r s).
Lemma attemptReopen_eq w :
  attemptReopen w = (match openFiles (mkWorld (w_os w) (set_closed false (w_sink w))) with
                     | Ret (_, w1) => Ret (tt, after_reopening w1) | Throw e => Throw e | UB => UB end).
Proof.
  unfold attemptReopen, after_reopening, this, now, sys, assign, log, mbind, IO_bind. cbn beta.
  destruct (openFiles _) as [[[] w1]| |]; [|done..]. cbn beta. destruct (LogFile.m_closed (w_sink w1)); [done|].
  destruct (SinkRecovery.onRecovered _ _) as [r o]. done.
Qed.

Lemma attemptReopen_speaks w w' :
  ∀ p, steady (Some p) (w_sink w) → m_shuttingDown (w_sink w) = false → attemptReopen w = Ret (tt, w') →
  ∃ l g', spoke (Some p) w l g' w'.
Proof.
  intros p Hst Hd. rewrite attemptReopen_eq. set (w0 := mkWorld (w_os w) (set_closed false (w_sink w))).
  assert (Hst0 : steady (Some p) (w_sink w0)) by (destruct Hst; by constructor).
  destruct (openFiles w0) as [[[] w1]| |] eqn:E1; [|done..].
  destruct (speaks_openFiles w0 tt w1 (Some p) Hst0 E1) as (l & g' & [L1 T1 F1 S1 C1 D1 _ _]).
  assert (is_Some g') as [[since last] ->] by (eapply tells_failures; [exact F1|by eexists|exact T1]). unfold after_reopening.
  destruct (LogFile.m_closed (w_sink w1)) eqn:Hc1.
  - intros [= <-]. exists l, (Some (since, last)). split_and!; [done|done| |done]. split; [done|congruence].
  - destruct (SinkRecovery.onRecovered (os_now (w_os w1)) (m_recovery (w_sink w1))) as [r o] eqn:Hrec.
    set (x := Reopened (SinkRecovery.out_closedFor o) (SinkRecovery.out_failures o)). intros Hw'.
    assert (w' = mkWorld (log_line (said_line (w_sink w1) x) (w_os w1)) (set_recovery r (w_sink w1))) as -> by congruence.
    exists (l ++ [(os_now (w_os w1), x)]), None.
    split_and!.
    + cbn [w_os log_line os_log]. rewrite fmap_app, reverse_app, L1.
      assert (Hc : same_config (w_sink w) (w_sink w1)) by exact C1. by rewrite <- (said_line_config _ _ Hc), <- (said_line_config _ _ C1).
    + rewrite tells_app, T1. cbn [mbind option_bind tells foldl says x]. destruct (st_since _ _ S1 _ _ eq_refl) as [Hsi _].
      unfold SinkRecovery.onRecovered in Hrec. destruct (SinkRecovery.m_failures _ =? 0); injection Hrec as _ <-; [by rewrite orb_true_r|].
      cbn. by rewrite Hsi, Z.eqb_refl.
    + split; [|done]. pose proof (recovered_open (os_now (w_os w1)) (m_recovery (w_sink w1))) as Hro. rewrite Hrec in Hro. cbn in Hro.
      destruct S1 as [H1 _ _ _]. constructor; cbn; [done|congruence|done|congruence].
    + done.
Qed.

Lemma spoke_nothing g w w' :
  settled g (w_sink w') → same_config (w_sink w) (w_sink w') → os_log (w_os w') = os_log (w_os w) → spoke g w [] g w'.
Proof. intros. by split_and!. Qed.

Lemma onRetryTimer_speaks cancelled w w' g :
  Inv w → settled g (w_sink w) → LogFile.m_retryTimer (w_sink w) || m_shuttingDown (w_sink w) || cancelled = true →
  onRetryTimer cancelled w = Ret (tt, w') → ∃ l g', spoke g w l g' w'.
Proof.
  intros Hi [Hst Hset] Hen E. destruct w as [os s]. cbn [w_sink] in *. unfold onRetryTimer, this, assign, mbind, IO_bind in E.
  destruct cancelled; cbn [w_os w_sink orb] in E; [injection E as <-; exists [], g; by apply spoke_nothing|].
  cbn [m_shuttingDown set_retryTimer] in E. destruct (m_shuttingDown s) eqn:Hd.
  - injection E as <-. exists [], g. apply spoke_nothing; [|done|done]. split; [|exact Hset]. destruct Hst. by constructor.
  - rewrite !orb_false_r in Hen. pose proof (inv_retry _ Hi) as Hr. cbn in Hr. rewrite Hen, Hd, andb_true_r in Hr.
    destruct Hst as [H1 H2 H3 H4]. destruct (H4 (eq_sym Hr)) as [|[p ->]]; [congruence|].
    destruct (attemptReopen_speaks (mkWorld os (set_retryTimer false s)) w' p) as (l & g' & L & T & S & C);
      [by constructor|done|exact E|]. by exists l, g'.
Qed.

Lemma handle_speaks e w w' g :
  of_sink e → Inv w → settled g (w_sink w) → handle e w = Ret (tt, w') → ∃ l g', spoke g w l g' w'.
Proof.
  intros He Hi [Hst Hset] E. assert (Hg : is_Some g → LogFile.m_closed (w_sink w) = true)
    by (intros [p ->]; destruct (LogFile.m_closed (w_sink w)) eqn:Hc; [done|by discriminate (Hset eq_refl)]).
  assert (Hspeaks : speaks (handle e) → ∃ l g', spoke g w l g' w').
  { intros Hs. destruct (Hs w tt w' g Hst E) as (l & g' & Ht). exists l, g'. by apply told_spoke. }
  destruct e as [msg rcv|cancelled| |what|t faults]; cbn [handle of_sink] in *;
    [apply Hspeaks, speaks_doWrite| | |apply Hspeaks, speaks_failSink|done].
  - unfold this, mbind, IO_bind in E. destruct (LogFile.m_retryTimer (w_sink w) || m_shuttingDown (w_sink w) || cancelled) eqn:Hen.
    + by eapply onRetryTimer_speaks.
    + injection E as <-. exists [], g. by apply spoke_nothing.
  - destruct (close_spec w Hi) as ([] & w1 & E1 & Hi1 & Hc & Hcl & Hd & Ho). rewrite E in E1. injection E1 as <-.
    exists [], g. apply spoke_nothing; [|done|by rewrite Ho]. split; [|congruence]. destruct Hst as [H1 H2 H3 H4].
    assert (Hr : m_recovery (w_sink w') = m_recovery (w_sink w)).
    { unfold close, closeFiles, close_one, assign, mbind, IO_bind in E. injection E as <-. by repeat case_match. }
    constructor; [apply Hi1|by rewrite Hr|by rewrite Hr|by left].
Qed.
End handlers.

(** ** Over a whole run *)

(** Who said what, when and in order; [about i] is what was said of sink [i]. *)
Definition about (i : nat) (l : list (nat * (Z * Said))) : list (Z * Said) :=
  omap (λ p : nat * (Z * Said), if decide (p.1 = i) then Some p.2 else None) l.
Definition chronicle (m : Manager) (p : nat * (Z * Said)) : Z * LogLine :=
  match m_sinks m !! p.1 with Some s => line_at (ms_file s) p.2 | None => (0, (LError, [])) end.
(** Sink [i] has been said to be out of service, and not to be back. *)
Definition outage (i : nat) (l : list (nat * (Z * Said))) : Prop := ∃ p, tells None (about i l) = Some (Some p).

(** The log since [m0] is what [l] says, sink by sink a sequence of outages; a sink
    in service has none, and one that is closed has, unless it is shutting down. *)
Record chronicled (m0 m : Manager) (l : list (nat * (Z * Said))) : Prop := {
  ch_log : os_log (m_os m) = reverse (chronicle m0 <$> l) ++ os_log (m_os m0);
  ch_length : length (m_sinks m) = length (m_sinks m0);
  ch_sinks : ∀ i s0 s, m_sinks m0 !! i = Some s0 → m_sinks m !! i = Some s →
    same_config (ms_file s0) (ms_file s) ∧ ∃ g, tells None (about i l) = Some g ∧ settled g (ms_file s)
}.

Lemma about_app i l k : about i (l ++ k) = about i l ++ about i k.
Proof. apply omap_app. Qed.
Lemma about_own i l : about i (pair i <$> l) = l.
Proof. induction l as [|x l IH]; [done|]. cbn. rewrite decide_True by done. by rewrite <- IH at 2. Qed.
Lemma about_other i j l : i ≠ j → about j (pair i <$> l) = [].
Proof. intros Hne. induction l as [|x l IH]; [done|]. cbn. by rewrite decide_False. Qed.

Lemma chronicled_refl m :
  Forall (λ s, Inv (mkWorld (m_os m) (ms_file s)) ∧ m_closed (ms_file s) = false) (m_sinks m) → chronicled m m [].
Proof.
  intros Hs. constructor; [done|done|]. intros i s0 s H0 H1. rewrite H0 in H1. injection H1 as ->. split; [done|].
  rewrite Forall_lookup in Hs. destruct (Hs i s H0) as [Hi Hc]. exists None. split; [done|]. split; [|done].
  pose proof (inv_recovery _ Hi Hc) as Hr. constructor; [apply Hi|by cbn in Hr; rewrite Hr|done|by rewrite Hc].
Qed.

(** Nothing said, no sink changed. *)
Lemma chronicled_same m0 m m' l :
  os_log (m_os m') = os_log (m_os m) → ms_file <$> m_sinks m' = ms_file <$> m_sinks m → chronicled m0 m l → chronicled m0 m' l.
Proof.
  intros Hl Hf [L1 L2 L3]. constructor; [congruence|by rewrite <- L2, <- (length_fmap ms_file (m_sinks m')), Hf, length_fmap|].
  intros i s0 s H0 Hs. assert (Hi : ms_file <$> (m_sinks m !! i) = Some (ms_file s)) by (by rewrite <- list_lookup_fmap, <- Hf, list_lookup_fmap, Hs).
  destruct (m_sinks m !! i) as [s1|] eqn:H1; [|done]. injection Hi as <-. by apply (L3 i s0 s1).
Qed.

Section run.
Context `{LogEnv}.

(** A handler of sink [i]. *)
Lemma chronicled_handler m0 m l i s e w (f : MSink → MSink) :
  chronicled m0 m l → m_sinks m !! i = Some s → of_sink e → Inv (mkWorld (m_os m) (ms_file s)) →
  handle e (mkWorld (m_os m) (ms_file s)) = Ret (tt, w) → ms_file (f s) = w_sink w →
  ∃ l', chronicled m0 (mkManager (w_os w) (<[i := f s]> (m_sinks m))) l'.
Proof.
  intros [L1 L2 L3] Hs He Hi Hh Hf.
  destruct (lookup_lt_is_Some_2 (m_sinks m0) i) as [s0 H0]; [rewrite <- L2; by eapply lookup_lt_Some|].
  destruct (L3 i s0 s H0 Hs) as (Hc0 & g & Hg & Hset).
  destruct (handle_speaks e _ w g He Hi Hset Hh) as (k & g' & Hlog & Htells & Hset' & Hc). cbn [w_os w_sink] in *.
  exists (l ++ (pair i <$> k)). constructor; cbn [m_os m_sinks].
  - rewrite Hlog, L1, fmap_app, reverse_app, app_assoc. do 2 f_equal. rewrite <- list_fmap_compose.
    rewrite (said_line_config _ _ Hc0). f_equal. apply list_fmap_ext. intros n x _. unfold chronicle. cbn. by rewrite H0.
  - by rewrite length_insert.
  - intros j t0 t Ht0 Ht. rewrite about_app, tells_app. destruct (decide (i = j)) as [<-|Hne].
    + rewrite list_lookup_insert_eq in Ht by (by eapply lookup_lt_Some). injection Ht as <-. rewrite H0 in Ht0. injection Ht0 as <-.
      rewrite Hf. split; [destruct Hc0, Hc; split; congruence|]. exists g'. by rewrite Hg, about_own.
    + rewrite list_lookup_insert_ne in Ht by done. destruct (L3 j t0 t Ht0 Ht) as (? & gj & Hgj & ?). split; [done|].
      exists gj. by rewrite Hgj, about_other.
Qed.

Lemma step_chronicled B m0 y e y' l :
  PInv B y → enabled y e = true → sys_step y e = Ret y' → chronicled m0 (y_outputs y) l →
  ∃ l', chronicled m0 (y_outputs y') l'.
Proof.
  intros Hy He Hs Hl. pose proof (step_effect B y e y' Hy He Hs) as Hf. pose proof (rn_inv _ (pi_running _ _ Hy)) as Hinv.
  rewrite Forall_lookup in Hinv.
  destruct e as [ec data srcIp now oom| |now|n|j rcv|j|sent|ec results opened| |j| |t faults]; cbn [effect] in Hf;
    try (destruct Hf as [_ ->]; exists l; by apply (chronicled_same m0 (y_outputs y))).
  - destruct Hf as (_ & -> & _). by exists l.
  - destruct Hf as (p & msg & _ & _ & _ & ->). exists l. apply (chronicled_same m0 (y_outputs y)); [done| |done].
    apply kept_queues_fmap. intros s. by destruct (accepts msg s).
  - destruct Hf as [_ Hr]. cbn [enabled] in He. destruct (m_sinks (y_outputs y) !! j) as [sj|] eqn:Hj; [|done].
    destruct (ms_queue sj) as [|t q] eqn:Hq; [done|].
    destruct (run_strand_result _ _ _ _ _ _ _ Hj Hq Hr) as (w & Hh & ->).
    eapply (chronicled_handler m0 _ l j sj (task_event t rcv) w (λ x, set_queue q (set_sink (w_sink w) x))); try done;
      [by destruct t|by eapply Hinv].
  - destruct Hf as [_ Hr]. unfold on_sink in Hr. destruct (m_sinks (y_outputs y) !! j) as [sj|] eqn:Hj; [|injection Hr as <-; by exists l].
    destruct (handle (STimer false) _) as [[[] w]| |] eqn:Hh; [|done|done]. injection Hr as <-.
    eapply (chronicled_handler m0 _ l j sj (STimer false) w (set_sink (w_sink w))); try done. by eapply Hinv.
  - destruct Hf as [_ ->]. exists l. apply (chronicled_same m0 (y_outputs y)); [done| |done]. by apply kept_queues_fmap.
Qed.

Lemma path_chronicled B y0 es y :
  0 <= B ∧ B + BUFFER_SIZE < 2 ^ 64 → PInv B y0 → Forall (λ s, m_closed (ms_file s) = false) (m_sinks (y_outputs y0)) →
  path y0 es y → ∃ l, chronicled (y_outputs y0) (y_outputs y) l.
Proof.
  intros Hnw Hi Hc Hp. induction Hp as [|es y1 e y2 Hp [l Hl] He Hs].
  - exists []. apply chronicled_refl. apply Forall_and. split; [apply Hi|done].
  - eapply step_chronicled; [by eapply (path_PInv B Hnw)|done..].
Qed.

(** A message that is wanted and not written whole leaves its sink out of service. *)
Lemma loss_closes B i y e y' msg rcv o s :
  PInv B y → sys_step y e = Ret y' → (TWrite msg, rcv, o) ∈ handled i y e → m_sinks (y_outputs y) !! i = Some s →
  wanted msg (ms_file s) = true → o ≠ Whole →
  ∃ s', m_sinks (y_outputs y') !! i = Some s' ∧ m_closed (ms_file s') = true.
Proof.
  intros Hy Hs Hin Hsi Hw Ho. destruct e as [ | | | |j rcv'| | | | | | | ]; try (by apply not_elem_of_nil in Hin).
  cbn [handled] in Hin. rewrite Hs in Hin. cbn [sys_step] in Hs.
  destruct (m_sinks (y_outputs y) !! j) as [sj|] eqn:Hj; [|by apply not_elem_of_nil in Hin].
  destruct (ms_queue sj) as [|t q] eqn:Hq; [by apply not_elem_of_nil in Hin|].
  destruct (run_strand j rcv' (y_outputs y)) as [m'| |] eqn:Hr; [|done|done]. injection Hs as <-.
  destruct (run_strand_result _ _ _ _ _ _ _ Hj Hq Hr) as (w & Hh & ->). cbn [y_outputs set_outputs m_sinks] in *.
  rewrite list_lookup_insert_eq in Hin by (by eapply lookup_lt_Some). destruct (decide (j = i)) as [->|]; [|by apply not_elem_of_nil in Hin].
  apply list_elem_of_singleton in Hin. injection Hin as <- <- ->. rewrite Hsi in Hj. injection Hj as <-.
  exists (set_queue q (set_sink (w_sink w) s)). split; [apply list_lookup_insert_eq; by eapply lookup_lt_Some|].
  cbn [outcome] in Ho. change (ms_file (set_queue q (set_sink (w_sink w) s))) with (w_sink w) in *. rewrite Hw, orb_false_r in Ho.
  destruct (LogFile.m_closed (ms_file s)) eqn:Hc; [|by destruct (LogFile.m_closed (w_sink w))].
  destruct (doWrite_dropped msg rcv (mkWorld (m_os (y_outputs y)) (ms_file s)) (or_introl Hc)) as ([] & w1 & E1 & ->).
  cbn [task_event handle] in Hh. rewrite Hh in E1. by injection E1 as ->.
Qed.
End run.

Section start.
Context `{PropertyTree T} `{BoostStrings} `{Machine} `{LogEnv}.

(** C6. No message is lost in silence: under any schedule and whatever calls fail,
    what the system log says of each sink is a sequence of outages, each a closing,
    then reminders a minute or more apart, then a reopening, with the true length of
    the outage in each; a sink in service has none that is open. And
    whenever a sink is handed a message its section wants and does not write it
    whole, the log says that the sink is out of service, or the sink has been shut
    down. *)
Theorem losses_announced (env : ServerEnv T) r sd es y e y' :
  runServer env = Ret r → rn_started r = Some sd →
  apart (cfg_outputs (u_cfg (sd_server sd))) → cfg_maxQueueBytes (u_cfg (sd_server sd)) + BUFFER_SIZE < 2 ^ 64 →
  path (process_of sd) es y → enabled y e = true → sys_step y e = Ret y' →
  ∃ l, chronicled (sd_outputs sd) (y_outputs y') l ∧
    ∀ i s msg rcv o, m_sinks (y_outputs y) !! i = Some s → (TWrite msg, rcv, o) ∈ handled i y e →
      wanted msg (ms_file s) = true → o ≠ Whole →
      outage i l ∨ ∃ s', m_sinks (y_outputs y') !! i = Some s' ∧ m_shuttingDown (ms_file s') = true.
Proof.
  intros Hr Hs Ha Hw Hp He Hstep. destruct (started_PInv env r sd Hr Hs Ha Hw) as [Hge Hi0].
  destruct (started_sinks env r sd Hr Hs) as (_ & _ & Hc). pose proof (conj Hge Hw) as Hnw.
  destruct (path_chronicled _ (process_of sd) (es ++ [e]) y' Hnw Hi0 Hc) as [l Hl]; [by eapply path_snoc|].
  change (y_outputs (process_of sd)) with (sd_outputs sd) in Hl. exists l. split; [exact Hl|]. intros i s msg rcv o Hsi Hin Hwant Ho.
  destruct (loss_closes _ i y e y' msg rcv o s (path_PInv _ Hnw _ _ _ Hi0 Hp) Hstep Hin Hsi Hwant Ho) as (s' & Hs' & Hcl).
  destruct (lookup_lt_is_Some_2 (m_sinks (sd_outputs sd)) i) as [s0 Hs0]; [rewrite <- (ch_length _ _ _ Hl); by eapply lookup_lt_Some|].
  destruct (ch_sinks _ _ _ Hl i s0 s' Hs0 Hs') as (_ & g & Hg & [[_ _ _ Hst] _]).
  destruct (Hst Hcl) as [|[p ->]]; [right; by exists s'|left; by exists p].
Qed.
End start.

(** ** A concrete run: a write that fails half way *)

Definition at_failure : Process :=
  default (process_of the_start) (@follow example_env (process_of the_start) (take 4 before_stop)).
Definition failing_write : SysEvent := YStrand 0 (lit "T").
Definition after_failure : Process :=
  match @sys_step example_env at_failure failing_write with Ret y => y | _ => at_failure end.

Lemma losses_announced_witness :
  ∃ l, chronicled (sd_outputs the_start) (y_outputs after_failure) l ∧
    ∀ i s msg rcv o, m_sinks (y_outputs at_failure) !! i = Some s →
      (TWrite msg, rcv, o) ∈ @handled example_env i at_failure failing_write → wanted msg (ms_file s) = true → o ≠ Whole →
      outage i l ∨ ∃ s', m_sinks (y_outputs after_failure) !! i = Some s' ∧ m_shuttingDown (ms_file s') = true.
Proof.
  apply (@losses_announced ini ini_tree linux_strings linux_machine example_env run_env the_run the_start (take 4 before_stop)).
  - exact (proj1 the_run_eq).
  - exact (proj2 the_run_eq).
  - exact the_run_apart.
  - vm_compute. reflexivity.
  - apply follow_path, follow_default. vm_compute. reflexivity.
  - vm_compute. reflexivity.
  - vm_compute. reflexivity.
Defined.
Example the_loss :
  map snd (@handled example_env 0 at_failure failing_write) = [Part] ∧
  os_log (m_os (y_outputs after_failure)) =
    [(5, (LError, lit "minilog: write to '/l/a.log' failed; closing sink 'all', retrying every 30 s"))].
Proof. vm_compute. auto. Qed.
