(* ===== verification/Readback.v ===== *)
(** * Reading the logs back

    What someone who opens a section's files finds there. A reader takes the
    generations and the active file, oldest first, as one text, cuts it into
    lines and undoes the encoding of each. What a line means is an interface,
    with an instance for the text file and one for the JSON file; the theorems
    are proved for any instance: while no call fails the log reads back as the
    messages the section took, in order. *)

From S2P Require Import Prelude Lines Names Parser Platform Config ConfigSpec Escape Admission Backoff FileSystem LogFile LogFileSpec Rotation Lifecycle Sinks OutputManager Forwarder UdpServer Server Isolation Interleaving Process Shutdown Delivery Retention DiskHistory.

(** ** What a line means *)

(** A reader of the lines of one kind of file, for the messages it is meant for:
    a record is one line, and the reader gets its content back. *)
Class LineReader `{LogEnv} (wh : Which) (X : Type) := {
  read_line : bytes → option X;
  content : SyslogMessage → bytes → X;
  fit : SyslogMessage → bytes → Prop;
  record_one_line : ∀ msg rcv r, record_of wh msg rcv = Ret r → x0a ∉ r;
  record_reads : ∀ msg rcv r, fit msg rcv → record_of wh msg rcv = Ret r → read_line r = Some (content msg rcv)
}.

(** The text file gives back every datagram, whatever its bytes. *)
#[export] Program Instance text_reader `{LogEnv} : LineReader Text bytes := {|
  read_line := unescape;
  content msg _ := raw msg;
  fit _ _ := True
|}.
Next Obligation.
  intros E msg rcv r Hr. cbn in Hr. destruct (escape_returns (raw msg)) as (out & He & Hp). rewrite He in Hr.
  injection Hr as <-. destruct (Pieces_safe _ _ Hp) as (Hpr & _). rewrite Forall_forall in Hpr.
  intros Hin. by destruct (Hpr _ Hin) as [[?|?] _].
Qed.
Next Obligation.
  intros E msg rcv r _ Hr. cbn in Hr. destruct (escape_returns (raw msg)) as (out & He & Hp). rewrite He in Hr.
  injection Hr as <-. by apply Pieces_unescape.
Qed.

(** ** The JSON file *)

(** The fields of a record, in order. *)
Definition sane (s : bytes) : bytes := match sanitizeUtf8 s with Ret t => t | _ => s end.
Definition protocol_name (msg : SyslogMessage) : bytes :=
  match protocol msg with RFC3164 => lit "RFC3164" | RFC5424 => lit "RFC5424" | Unknown => lit "UNKNOWN" end.
Definition json_fields (msg : SyslogMessage) (rcv : bytes) : list (bytes * option bytes) :=
  [ (lit "rcv", Some rcv); (lit "src", Some (srcIp msg)); (lit "proto", Some (protocol_name msg));
    (lit "facility", sane <$> facilityName msg); (lit "severity", sane <$> severityName msg);
    (lit "hostname", sane <$> hostname msg); (lit "app", sane <$> appName msg); (lit "pid", sane <$> procId msg);
    (lit "msgid", sane <$> msgId msg); (lit "msg_time", sane <$> timestamp msg);
    (lit "message", Some (sane (message msg))) ].

Lemma sane_eval s : sanitizeUtf8 s = Ret (sane s).
Proof. unfold sane. by destruct (sanitizeUtf8_returns s) as (t & -> & _). Qed.
Lemma sane_valid s : valid_utf8 (sane s).
Proof. unfold sane. destruct (sanitizeUtf8_returns s) as (t & -> & Ht). by eapply Sanitized_valid. Qed.
Lemma optStr_eval o : optStr o = Ret (sane <$> o).
Proof. destruct o as [s|]; cbn; [by rewrite sane_eval|done]. Qed.
Lemma toJsonlRecord_eval `{LogEnv} msg rcv : toJsonlRecord msg rcv = Ret (serialize (json_fields msg rcv)).
Proof. unfold toJsonlRecord. rewrite !optStr_eval, sane_eval. by destruct msg as [? ? ? ? ? ? ? ? ? ? ? ? ? []]. Qed.

Lemma ascii_valid s : Forall (λ b, bval b < 0x80) s → valid_utf8 s.
Proof.
  intros Hs. exists (bval <$> s). induction Hs as [|b s Hb _ (Hsc & IH)]; [done|]. split.
  - constructor; [|done]. pose proof (bval_range b). unfold scalar. lia.
  - cbn. rewrite <- IH, decode1 by lia. done.
Qed.

(** A JSON parser gives back an object of valid UTF-8 strings. *)
Class JsonParser `{LogEnv} := {
  parse_object : bytes → option (list (bytes * option bytes));
  parse_serialize : ∀ obj, Forall (λ kv, valid_utf8 kv.1 ∧ opt_all valid_utf8 kv.2) obj →
    parse_object (serialize obj) = Some obj
}.
#[export] Program Instance json_reader `{JsonParser} : LineReader Jsonl (list (bytes * option bytes)) := {|
  read_line := parse_object;
  content := json_fields;
  fit msg rcv := valid_utf8 rcv ∧ valid_utf8 (srcIp msg)
|}.
Next Obligation.
  intros E J msg rcv r Hr. cbn in Hr. rewrite toJsonlRecord_eval in Hr. injection Hr as <-. apply serialize_law.
Qed.
Next Obligation.
  intros E J msg rcv r [Hrcv Hsrc] Hr. cbn in Hr. rewrite toJsonlRecord_eval in Hr. injection Hr as <-.
  apply parse_serialize. unfold json_fields.
  assert (Hopt : ∀ o, opt_all valid_utf8 (sane <$> o)) by (intros [s|]; [apply sane_valid|done]).
  assert (Hp : valid_utf8 (protocol_name msg)) by (apply ascii_valid; unfold protocol_name; destruct (protocol msg); by_decision).
  repeat constructor; cbn [fst snd]; try (apply ascii_valid; by_decision); try apply Hopt; try done; apply sane_valid.
Qed.

(** ** A text of records *)

Section reading.
Context `{LineReader wh X}.

Definition read_log (s : bytes) : option (list X) := ls ← read_lines s; mapM read_line ls.

Lemma read_log_app s t xs ys : read_log s = Some xs → read_log t = Some ys → read_log (s ++ t) = Some (xs ++ ys).
Proof.
  unfold read_log. intros Hs Ht. destruct (read_lines s) as [ls|] eqn:Es; [|done].
  destruct (read_lines t) as [ks|] eqn:Et; [|done]. cbn in Hs, Ht. rewrite (read_lines_app s t ls ks Es Et). cbn.
  apply mapM_Some, Forall2_app; by apply mapM_Some.
Qed.
Lemma read_record msg rcv : fit msg rcv → read_log (line_of wh msg rcv) = Some [content msg rcv].
Proof.
  intros Hfit. unfold line_of, read_log. destruct (record_returns wh msg rcv) as [r Hr]. rewrite Hr. unfold mret, M_ret.
  rewrite (read_lines_line r [] []); [|by eapply record_one_line|done]. cbn.
  by rewrite (record_reads msg rcv r Hfit Hr).
Qed.

(** ** A section's files *)

Section section.
Context (cfg : OutputConfig).
Let base := file_in wh cfg.
Let k := oc_maxFiles cfg.
Context (configured : sv_empty base = false) (chains : chains_apart cfg) (limit : 0 <= k).
Abbreviation disk := (gmap bytes bytes).

(** Every generation reads, so no record is split between two. *)
Definition readable (m : disk) : Prop := ∀ n, is_Some (read_log (held m (gen base n))).

Lemma same_readable m m' : same_chain cfg wh m m' → readable m → readable m'.
Proof.
  intros [Hb Hg] Hm [|n]; fold base in Hb, Hg.
  - cbn [gen]. rewrite Hb. apply (Hm 0%nat).
  - unfold held. rewrite Hg. apply (Hm (S n)).
Qed.
Lemma readable_log m : readable m → is_Some (read_log (kept_log k base m)).
Proof.
  intros Hm. unfold kept_log. induction (reach k) as [|n [xs IH]]; cbn [retained]; [apply (Hm 0%nat)|].
  destruct (Hm (S n)) as [ys Hy]. exists (ys ++ xs). by apply read_log_app.
Qed.

(** A rotation moves generations, and makes none. *)
Definition within (mv : Move) : Prop := match mv with Rename from _ => ∃ n, from = gen base n | Remove _ => True end.
Lemma move_readable mv m : within mv → readable m → readable (apply_move mv m).
Proof.
  intros Hw Hm n. unfold held. destruct mv as [p|from to]; cbn [apply_move within] in *.
  - destruct (decide (p = gen base n)) as [->|]; [rewrite lookup_delete_eq; by exists []|].
    rewrite lookup_delete_ne by done. apply Hm.
  - destruct Hw as [i ->]. destruct (m !! gen base i) as [c|] eqn:Hc; [|apply Hm].
    destruct (decide (to = gen base n)) as [->|Hne].
    + rewrite lookup_insert_eq. cbn. specialize (Hm i). unfold held in Hm. by rewrite Hc in Hm.
    + rewrite lookup_insert_ne by done. destruct (decide (i = n)) as [->|]; [rewrite lookup_delete_eq; by exists []|].
      rewrite lookup_delete_ne by (by apply gen_ne). apply Hm.
Qed.
Lemma moves_readable d m : Forall within d → readable m → readable (apply_moves d m).
Proof.
  intros Hd. revert m. induction Hd as [|mv d Hw _ IH]; intros m Hm; [done|].
  change (apply_moves (mv :: d) m) with (apply_moves d (apply_move mv m)). by apply IH, move_readable.
Qed.
Lemma shift_within n : Forall within (shift_moves base n).
Proof. induction n as [|n IH]; [done|]. constructor; [by exists (S n)|done]. Qed.
Lemma rotation_within m : Forall within (rotation_moves base k m).
Proof.
  unfold rotation_moves. apply Forall_app. split; [|repeat constructor; by exists 0%nat].
  destruct (_ && _); [constructor; [done|]|]; apply shift_within.
Qed.
Lemma rotate_map_readable wh' m : readable m → readable (rotate_map k (file_in wh' cfg) m).
Proof.
  intros Hm. destruct (which_ne wh' wh) as [->|Hne].
  - unfold rotate_map. destruct (sv_empty _); [done|]. apply moves_readable; [apply rotation_within|done].
  - eapply same_readable; [by apply (chain_rotate_other cfg wh)|done].
Qed.
Lemma touch_readable wh' m : readable m → readable (touch_if (file_in wh' cfg) m).
Proof. apply same_readable. by apply chain_touch_if. Qed.

(** One more record. *)
Lemma append_log d m :
  kept_log k base (append_to base d m) = kept_log k base m ++ d ∧
  (readable m → is_Some (read_log d) → readable (append_to base d m)).
Proof.
  unfold append_to. fold base in configured. rewrite configured. fold (held m base). split.
  - assert (Ht : same_chain cfg wh m (touch base m)).
    { pose proof (chain_touch_if cfg wh configured chains wh m) as Ht. unfold touch_if in Ht. fold base in Ht.
      by rewrite configured in Ht. }
    apply same_chain_log in Ht. fold base k in Ht. rewrite <- Ht. unfold kept_log.
    rewrite <- (retained_append base (reach k) (touch base m) (held m base) d) by apply touch_self.
    apply retained_ext. intros i _. unfold held. destruct i as [|i]; cbn [gen]; [by rewrite !lookup_insert_eq|].
    rewrite !lookup_insert_ne by (apply not_eq_sym, rotatedPath_base). by rewrite touch_ne by (apply not_eq_sym, rotatedPath_base).
  - intros Hm [ys Hd] [|n]; unfold held; cbn [gen].
    + rewrite lookup_insert_eq. destruct (Hm 0%nat) as [xs Hx]. exists (xs ++ ys). by apply read_log_app.
    + rewrite lookup_insert_ne by (apply not_eq_sym, rotatedPath_base). apply (Hm (S n)).
Qed.
Lemma append_other wh' d m : wh' ≠ wh → same_chain cfg wh m (append_to (file_in wh' cfg) d m).
Proof.
  intros Hne. unfold append_to. destruct (sv_empty (file_in wh' cfg)); [done|]. by apply chain_insert, other_file.
Qed.

Lemma append_both t j m :
  let m' := append_to (file_in Jsonl cfg) j (append_to (file_in Text cfg) t m) in
  let d := match wh with Text => t | Jsonl => j end in
  kept_log k base m' = kept_log k base m ++ d ∧ (readable m → is_Some (read_log d) → readable m').
Proof.
  cbv zeta. destruct (which_ne wh Text) as [E|E].
  - assert (Hs : ∀ m1, same_chain cfg wh m1 (append_to (file_in Jsonl cfg) j m1)) by (intros; apply append_other; by rewrite E).
    replace (match wh with Text => t | Jsonl => j end) with t by by rewrite E.
    assert (Hb : file_in Text cfg = base) by (unfold base; by rewrite E). rewrite Hb. split.
    + rewrite (same_chain_log cfg wh _ _ (Hs _)). apply append_log.
    + intros Hm Hd. eapply same_readable; [apply Hs|]. by apply append_log.
  - assert (Hs : same_chain cfg wh m (append_to (file_in Text cfg) t m)) by (apply append_other; by apply not_eq_sym).
    replace (match wh with Text => t | Jsonl => j end) with j by by rewrite <- (not_text wh E).
    assert (Hb : file_in Jsonl cfg = base) by (unfold base; by rewrite (not_text wh E)). rewrite Hb. split.
    + fold base k in Hs. rewrite (proj1 (append_log j _)). f_equal. by apply (same_chain_log cfg wh).
    + intros Hm Hd. apply append_log; [by eapply same_readable|done].
Qed.

(** What a rotation, if one is due, makes of them. *)
Lemma open_readable s m : LogFile.m_cfg s = cfg → readable m → readable (open_disk s m).
Proof. intros Hc Hm. unfold open_disk. rewrite !(file_of_in cfg wh configured chains limit _ s Hc). by do 2 apply touch_readable. Qed.
Lemma rotate_readable s m : LogFile.m_cfg s = cfg → readable m → readable (rotate_disk s m).
Proof.
  intros Hc Hm. unfold rotate_disk. rewrite !(file_of_in cfg wh configured chains limit _ s Hc), Hc. fold k.
  do 2 apply touch_readable. by do 2 apply rotate_map_readable.
Qed.
Lemma front_reads gone m :
  gone = [] ∨ oc_maxSize cfg ≠ 0 ∧ m !! rotatedPath base (reach k) = Some gone → readable m →
  is_Some (read_log gone) ∧ (gone = [] ∨ oc_maxSize cfg ≠ 0).
Proof.
  intros [->|[Hmax Hg]] Hm; [split; [by exists []|by left]|]. split; [|by right].
  specialize (Hm (reach k)). rewrite (gen_reach base k limit) in Hm. unfold held in Hm. by rewrite Hg in Hm.
Qed.

(** What one message makes of the files. *)
Definition takes (msg : SyslogMessage) : bool := wanted msg (new_LogFile cfg kRetryIntervalMs).

Lemma record_in_reads msg rcv m :
  takes msg = true → fit msg rcv → readable m →
  readable (record_in cfg msg rcv m) ∧
  ∃ gone older, is_Some (read_log gone) ∧ (gone = [] ∨ oc_maxSize cfg ≠ 0) ∧ is_Some (read_log older) ∧
    kept_log k base m = gone ++ older ∧ kept_log k base (record_in cfg msg rcv m) = older ++ line_of wh msg rcv.
Proof.
  intros Ht Hfit Hm. unfold record_in. fold (takes msg). rewrite Ht.
  destruct (record_returns Text msg rcv) as [t Et], (record_returns Jsonl msg rcv) as [j Ej]. cbn [record_of] in Et, Ej.
  rewrite Et, Ej. unfold Sinks.written. set (s := new_LogFile cfg kRetryIntervalMs).
  assert (Hc : LogFile.m_cfg s = cfg) by done. rewrite !(file_of_in cfg wh configured chains limit _ s Hc).
  assert (Hline : line_of wh msg rcv = match wh with Text => t ++ [x0a] | Jsonl => j ++ [x0a] end)
    by (unfold line_of; destruct (which_ne wh Text) as [E|Hn]; [rewrite E; cbn [record_of]; by rewrite Et|rewrite <- (not_text wh Hn); cbn [record_of]; by rewrite Ej]).
  pose proof (open_readable s m Hc Hm) as Ho.
  assert (Hlog : kept_log k base (open_disk s m) = kept_log k base m).
  { apply (same_chain_log cfg wh). unfold open_disk. rewrite !(file_of_in cfg wh configured chains limit _ s Hc).
    eapply same_chain_trans; by apply chain_touch_if. }
  set (mid := if disk_full s m then rotate_disk s (open_disk s m) else open_disk s m).
  assert (Hmid : readable mid) by (unfold mid; destruct (disk_full s m); [by apply rotate_readable|done]).
  destruct (append_both (t ++ [x0a]) (j ++ [x0a]) mid) as [Ha Hr]. rewrite <- Hline in Ha, Hr.
  split; [apply Hr; [done|]; eexists; by apply read_record|].
  assert (Hcut : ∃ gone, (gone = [] ∨ oc_maxSize cfg ≠ 0 ∧ open_disk s m !! rotatedPath base (reach k) = Some gone) ∧
    kept_log k base (open_disk s m) = gone ++ kept_log k base mid).
  { unfold mid. destruct (disk_full s m) eqn:Hfull; [|exists []; by split; [left|]].
    apply (cut_rotate_disk cfg wh); try done. unfold disk_full in Hfull. rewrite Hc in Hfull. intros Hz. by rewrite Hz in Hfull. }
  destruct Hcut as (gone & Hg & Hl). destruct (front_reads gone _ Hg Ho) as [Hrd Hmax]. exists gone, (kept_log k base mid).
  split_and!; [done|done|by apply readable_log|congruence|done].
Qed.

(** The messages among the tasks of a strand that the section takes: all it wants, until the shutdown. *)
Fixpoint taken (ran : list (Task * bytes)) : list (SyslogMessage * bytes) :=
  match ran with
  | (TWrite msg, rcv) :: ran' => if takes msg then (msg, rcv) :: taken ran' else taken ran'
  | _ => []
  end.
Definition contents (l : list (SyslogMessage * bytes)) : list X := (λ x, content x.1 x.2) <$> l.

(** [m] reads as the last of [all]: nothing is cut unless files rotate, and never the newest. *)
Definition reads_as (all : list X) (m : disk) : Prop :=
  ∃ gone left, read_log (kept_log k base m) = Some left ∧ all = gone ++ left ∧
    (oc_maxSize cfg = 0 → gone = []) ∧ last left = last all.

Lemma reads_as_more gs os c news m :
  (oc_maxSize cfg = 0 → gs = []) → reads_as ((os ++ [c]) ++ news) m → reads_as ((gs ++ os) ++ c :: news) m.
Proof.
  intros Hgs (gone & left & Hr & Hall & Hz & Hlast).
  assert (E : (gs ++ os) ++ c :: news = gs ++ ((os ++ [c]) ++ news)) by (by rewrite <- !app_assoc).
  exists (gs ++ gone), left. rewrite E. split_and!; [done|by rewrite Hall, <- app_assoc| |].
  - intros Hz0. by rewrite (Hz Hz0), (Hgs Hz0).
  - rewrite Hlast, (last_app gs). destruct (last (_ ++ news)) eqn:El; [done|].
    apply last_None in El. by destruct os.
Qed.

Lemma section_log_reads ran m olds :
  readable m → read_log (kept_log k base m) = Some olds → Forall (λ x, fit x.1 x.2) (taken ran) →
  let m' := (section_log cfg ran m).2 in
  readable m' ∧ reads_as (olds ++ contents (taken ran)) m'.
Proof.
  revert m olds. induction ran as [|[[msg|] rcv] ran IH]; intros m olds Hm Ho Hfit; cbn [taken].
  - split; [done|]. exists [], olds. by rewrite app_nil_r.
  - change (section_log cfg ((TWrite msg, rcv) :: ran) m) with (section_log cfg ran (record_in cfg msg rcv m)).
    cbn [taken] in Hfit. destruct (takes msg) eqn:Ht.
    + apply Forall_cons in Hfit as [Hf Hfit]. cbn [fst snd] in Hf.
      destruct (record_in_reads msg rcv m Ht Hf Hm) as (Hm1 & gone & older & [gs Hg] & Hmax & [os Hos] & Hl & Hl').
      assert (Ho1 : read_log (kept_log k base (record_in cfg msg rcv m)) = Some (os ++ [content msg rcv]))
        by (rewrite Hl'; apply read_log_app; [done|by apply read_record]).
      assert (olds = gs ++ os) as -> by (rewrite Hl, (read_log_app gone older gs os) in Ho by done; by injection Ho).
      destruct (IH _ _ Hm1 Ho1 Hfit) as [Hm2 Hr]. split; [done|]. apply reads_as_more; [|exact Hr].
      intros Hz. destruct Hmax as [->|]; [|done]. by injection Hg.
    + assert (record_in cfg msg rcv m = m) as -> by (unfold record_in; fold (takes msg); by rewrite Ht).
      by apply IH.
  - assert (E : (section_log cfg ((TClose, rcv) :: ran) m).2 = m).
    { change (section_log cfg ((TClose, rcv) :: ran) m) with (foldl (log_step cfg) (false, m) ran). clear.
      by induction ran. }
    rewrite E. split; [done|]. exists [], olds. by rewrite app_nil_r.
Qed.
End section.
End reading.

(** ** From the start of the server *)

Section run.
Context `{PropertyTree T} `{BoostStrings} `{Machine} `{LineReader wh X}.

(** C5. The logs read back. While no call fails, at every point of every schedule,
    a section's generations and active file, read oldest first, line by line, are
    what they held at the start followed by the messages the section took from its
    queue, each exactly once, in order and whole, less a number of the oldest; none
    is missing with max_size = 0, and the newest is always there. No record is ever
    split between two generations. This holds of the text file, read by undoing
    escapeControlChars, whatever bytes the datagrams have, and of the JSON file,
    read by a parser of valid UTF-8. *)
Theorem log_reads_back (env : ServerEnv T) r sd es y i s0 olds :
  runServer env = Ret r → rn_started r = Some sd →
  let cfg := config_of s0 in let base := file_in wh cfg in
  apart (cfg_outputs (u_cfg (sd_server sd))) → Forall chains_apart (cfg_outputs (u_cfg (sd_server sd))) →
  cfg_maxQueueBytes (u_cfg (sd_server sd)) + BUFFER_SIZE < 2 ^ 64 →
  path (process_of sd) es y → os_faults (m_os (sd_outputs sd)) = [] → Forall no_faults es →
  m_sinks (sd_outputs sd) !! i = Some s0 → sv_empty base = false →
  let disk := os_files (m_os (sd_outputs sd)) in
  readable cfg disk → read_log (kept_log (oc_maxFiles cfg) base disk) = Some olds →
  let took := taken cfg (omap (ran_by i) (observed (process_of sd) es)) in
  Forall (λ x, fit x.1 x.2) took →
  readable cfg (os_files (m_os (y_outputs y))) ∧ reads_as cfg (olds ++ contents took) (os_files (m_os (y_outputs y))).
Proof.
  intros Hr Hs cfg base Ha Hch Hw Hp Hnf Hnfs Hs0 Hb disk Hread Holds took Hfit.
  destruct (started_PInv env r sd Hr Hs Ha Hw) as [Hge Hi0]. destruct (started_sinks env r sd Hr Hs) as (Hpo & Hq & Hc).
  destruct (started_limits env r sd i s0 Hr Hs Ha Hs0) as [Hin Hk]. rewrite Forall_forall in Hch.
  destruct (path_delivers _ (process_of sd) es y (conj Hge Hw) Hi0 Hpo Hq Hp) as (_ & Hl & _).
  destruct (path_logs _ (process_of sd) es y (conj Hge Hw) Hi0 Hpo Hq Hnf Hc Hp Hnfs) as [_ Hall].
  destruct (lookup_lt_is_Some_2 (m_sinks (y_outputs y)) i) as [s Hs1]; [rewrite <- Hl; by eapply lookup_lt_Some|].
  destruct (Hall i s0 s Hs0 Hs1) as (_ & _ & Hd). pose proof (Hch _ Hin) as Hca. fold cfg in Hd, Hca, Hk.
  destruct (section_log_reads cfg Hb Hca Hk _ disk olds Hread Holds Hfit) as [Hr2 Has].
  set (m2 := (section_log cfg _ disk).2) in *.
  assert (Hsame : same_chain cfg wh m2 (os_files (m_os (y_outputs y))))
    by (apply chain_ext; intros n; apply Hd; by apply gen_footprint).
  split; [by eapply same_readable|]. unfold reads_as in *. by rewrite (same_chain_log cfg wh _ _ Hsame).
Qed.
End run.

(** ** A parser for the example writer *)

Fixpoint read_chars (s : bytes) : option (bytes * bytes) :=
  match s with
  | [] => None
  | c :: t =>
      if decide (c = x22) then Some ([], t)
      else if decide (c = x5c) then
        match t with
        | d :: t1 =>
            if decide (d = "u"%byte) then
              match t1 with _ :: _ :: h :: l :: t2 => (λ p, (unhex h l :: p.1, p.2)) <$> read_chars t2 | _ => None end
            else (λ p, (d :: p.1, p.2)) <$> read_chars t1
        | [] => None
        end
      else (λ p, (c :: p.1, p.2)) <$> read_chars t
  end.
Definition read_member (s : bytes) : option (bytes * option bytes * bytes) :=
  match s with
  | q :: s1 =>
      '(key, s2) ← (if decide (q = x22) then read_chars s1 else None);
      match s2 with
      | _ :: v :: s3 => if decide (v = x22) then '(value, s4) ← read_chars s3; Some (key, Some value, s4)
                        else Some (key, None, drop 3 s3)
      | _ => None
      end
  | [] => None
  end.
Fixpoint read_members (fuel : nat) (s : bytes) : option (list (bytes * option bytes)) :=
  match fuel with
  | O => None
  | S fuel' =>
      '(kv, s1) ← read_member s;
      match s1 with
      | c :: s2 => if decide (c = ","%byte) then cons kv <$> read_members fuel' s2 else Some [kv]
      | [] => None
      end
  end.
Definition read_object (s : bytes) : option (list (bytes * option bytes)) :=
  match s with
  | _ :: c :: s' => if decide (c = "}"%byte) then Some [] else read_members (length s) (c :: s')
  | _ => None
  end.

Lemma read_chars_byte b s p : read_chars s = Some p → read_chars (json_byte b ++ s) = Some (b :: p.1, p.2).
Proof.
  intros Hs. unfold json_byte. destruct (decide (b = x22)) as [->|Hq]; [cbn; by rewrite Hs|].
  destruct (decide (b = x5c)) as [->|Hb]; [cbn; by rewrite Hs|]. destruct (_ <? _).
  - rewrite <- app_assoc. destruct (unhex_hex2 b s) as (h & l & -> & He). unfold lit. cbn. by rewrite Hs, <- He.
  - cbn. by rewrite !decide_False, Hs by done.
Qed.
Lemma read_chars_string s rest : read_chars (flat_map json_byte s ++ x22 :: rest) = Some (s, rest).
Proof. induction s as [|b s IH]; [done|]. cbn [flat_map]. rewrite <- app_assoc. by rewrite (read_chars_byte b _ _ IH). Qed.
Lemma read_member_pair kv rest : read_member (json_pair kv ++ rest) = Some (kv, rest).
Proof.
  destruct kv as [key v]. unfold json_pair, json_string, read_member. cbn [fst snd]. rewrite <- !app_assoc. cbn [app].
  rewrite decide_True, <- !app_assoc by done. cbn [app]. rewrite read_chars_string.
  destruct v as [v|]; unfold lit; cbn; [|done]. rewrite <- app_assoc. cbn. by rewrite read_chars_string.
Qed.
Lemma json_pair_length kv : (1 ≤ length (json_pair kv))%nat.
Proof. unfold json_pair, json_string. cbn. lia. Qed.
Lemma read_members_pairs l fuel :
  l ≠ [] → (length (json_pairs l) ≤ fuel)%nat → read_members fuel (json_pairs l ++ lit "}") = Some l.
Proof.
  revert fuel. induction l as [|kv [|kv' l] IH]; intros fuel Hne Hf; [done|..].
  all: pose proof (json_pair_length kv); cbn [json_pairs] in *; destruct fuel as [|fuel]; [rewrite ?length_app in Hf; lia|].
  - cbn [read_members]. by rewrite read_member_pair.
  - cbn [read_members]. rewrite <- !app_assoc, read_member_pair. cbn [app lit mbind option_bind].
    rewrite !length_app in Hf. change (lit ",") with [","%byte] in *. cbn [app length] in *. rewrite decide_True by done.
    rewrite IH; [done|done|]. cbn [json_pairs]. lia.
Qed.
Lemma read_object_object l : read_object (json_object l) = Some l.
Proof.
  destruct l as [|kv l]; [done|]. unfold json_object, read_object. cbn [app].
  assert (Hc : ∃ t, json_pairs (kv :: l) = x22 :: t) by (destruct l; cbn [json_pairs]; unfold json_pair, json_string; cbn; by eexists).
  destruct Hc as [t Ht]. pose proof (read_members_pairs (kv :: l)) as Hm. rewrite Ht in *. change (lit "{") with ["{"%byte]. cbn [app].
  rewrite decide_False by done. apply Hm; [done|]. cbn [length]. rewrite length_app. lia.
Qed.
Lemma read_object_serialized obj : read_object (@serialize example_env obj) = Some obj.
Proof. apply read_object_object. Qed.
Definition example_parser : @JsonParser example_env :=
  @Build_JsonParser example_env read_object (λ obj _, read_object_serialized obj).

(** ** A concrete run *)

Lemma empty_held m p : map_Forall (λ _ c, c = []) m → held m p = [].
Proof. intros Hm. unfold held. destruct (m !! p) as [c|] eqn:Hc; [by apply Hm in Hc as ->|done]. Qed.
Lemma empty_reads `{LineReader wh X} cfg m :
  map_Forall (λ _ c, c = []) m → readable cfg m ∧ ∀ k, read_log (kept_log k (file_in wh cfg) m) = Some [].
Proof.
  intros Hm. split; [intros n; rewrite empty_held by done; by exists []|]. intros k. unfold kept_log.
  induction (reach k) as [|n IH]; cbn [retained]; by rewrite empty_held.
Qed.
Lemma the_run_empty : map_Forall (λ _ c, c = []) (os_files (m_os (sd_outputs the_start))).
Proof. by_decision. Qed.

(** Both files of the first section, which are empty at the start. *)
Lemma log_reads_back_witness :
  match m_sinks (sd_outputs the_start) !! 0%nat with
  | Some s0 =>
      let cfg := config_of s0 in let after := os_files (m_os (y_outputs good_end)) in
      let took := taken cfg (omap (ran_by 0) (@observed example_env (process_of the_start) good_run)) in
      (@readable example_env Text bytes text_reader cfg after ∧
       @reads_as example_env Text bytes text_reader cfg ([] ++ @contents example_env Text bytes text_reader took) after) ∧
      (@readable example_env Jsonl _ (@json_reader example_env example_parser) cfg after ∧
       @reads_as example_env Jsonl _ (@json_reader example_env example_parser) cfg
         ([] ++ @contents example_env Jsonl _ (@json_reader example_env example_parser) took) after)
  | None => False
  end.
Proof.
  destruct (m_sinks (sd_outputs the_start) !! 0%nat) as [s0|] eqn:Hs0; [|by vm_compute in Hs0].
  assert (E : (λ s, (sv_empty (file_in Text (config_of s)), sv_empty (file_in Jsonl (config_of s)))) <$>
    (m_sinks (sd_outputs the_start) !! 0%nat) = Some (false, false)) by (vm_compute; reflexivity).
  assert (F : (λ s, bool_decide (Forall (λ x : SyslogMessage * bytes, Forall (λ b, bval b < 0x80) x.2 ∧ Forall (λ b, bval b < 0x80) (srcIp x.1))
      (taken (config_of s) (omap (ran_by 0) (@observed example_env (process_of the_start) good_run))))) <$>
    (m_sinks (sd_outputs the_start) !! 0%nat) = Some true) by (vm_compute; reflexivity).
  rewrite Hs0 in E, F. injection E as Et Ej. apply (inj Some) in F. apply bool_decide_eq_true in F.
  split;
    (eapply (@log_reads_back ini ini_tree linux_strings linux_machine example_env _ _ _ run_env the_run the_start good_run);
      [exact (proj1 the_run_eq)|exact (proj2 the_run_eq)|exact the_run_apart|exact the_run_chains|vm_compute; reflexivity
      |exact good_run_path|vm_compute; reflexivity|repeat constructor|exact Hs0|assumption
      |apply empty_reads, the_run_empty|apply empty_reads, the_run_empty|]).
  - by apply Forall_true.
  - eapply Forall_impl; [exact F|]. intros x [? ?]. split; by apply ascii_valid.
Defined.
Example good_run_reads :
  let after := os_files (m_os (y_outputs good_end)) in
  @read_log example_env Text _ text_reader (held after (lit "/l/a.log")) =
    Some (repeat (lit "<34>Oct 11 22:14:15 host su: failed") 2) ∧
  (map (map snd ∘ take 3)) <$> @read_log example_env Jsonl _ (@json_reader example_env example_parser) (held after (lit "/l/a.jsonl")) =
    Some [[Some (lit "T"); Some (lit "10.0.0.1"); Some (lit "RFC3164")]; [Some (lit "U"); Some (lit "10.0.0.2"); Some (lit "RFC3164")]].
Proof. vm_compute. auto. Qed.
