(* ===== verification/EndToEnd.v ===== *)
(** * From minilog-send to the logs of minilog

    The two programs meet only in the bytes of a datagram. What minilog-send was
    asked to say is followed through [buildDatagram], the network, the posted task
    and a sink's strand to the fields of the JSON record. *)

From S2P Require Import Prelude Lines Names Parser ParserSpec SendFormat Platform Config Escape Admission Backoff FileSystem LogFile LogFileSpec Rotation Lifecycle Sinks OutputManager Forwarder UdpServer Readback.

(** ** Text that sanitizing leaves alone *)

Definition ascii (s : bytes) : Prop := Forall (λ b, bval b < 0x80) s.

Lemma sane_ascii s : ascii s → sane s = s.
Proof.
  intros Hs%ascii_valid%Sanitized_id. pose proof (sane_eval s) as He.
  destruct (sanitizeUtf8_returns s) as (t & Ht & Hst). rewrite He in Ht. injection Ht as ->.
  by eapply Sanitized_fun.
Qed.
Lemma sane_option o : opt_all ascii o → sane <$> o = o.
Proof. destruct o as [s|]; cbn; [|done]. intros Hs. by rewrite sane_ascii. Qed.
Lemma sane_app s t : ascii s → sane (s ++ t) = s ++ sane t.
Proof.
  intros Hs. destruct (sanitizeUtf8_returns t) as (o & Ho & Ht). rewrite sane_eval in Ho. injection Ho as ->.
  assert (Hst : Sanitized (s ++ t) (s ++ o)).
  { induction Hs as [|b s Hb _ IH]; [done|]. pose proof (bval_range b).
    change ((b :: s) ++ t) with ([b] ++ (s ++ t)). change ((b :: s) ++ o) with ([b] ++ (s ++ o)).
    rewrite <- (decode1 b) by lia. apply sanitized_keep; [unfold scalar; lia|done]. }
  destruct (sanitizeUtf8_returns (s ++ t)) as (u & Hu & Hsu). rewrite sane_eval in Hu. injection Hu as ->.
  by eapply Sanitized_fun.
Qed.

Lemma ascii_app s t : ascii s → ascii t → ascii (s ++ t).
Proof. intros Hs Ht. by apply Forall_app. Qed.
Lemma ascii_token s : token s → ascii s.
Proof. intros [_ Hs]. eapply Forall_impl; [exact Hs|]. cbn. lia. Qed.
Lemma ascii_nil_field s : ascii s → opt_all ascii (nil_field s).
Proof. unfold nil_field. by destruct (decide _). Qed.
Lemma ascii_bind o : opt_all ascii o → opt_all ascii (o ≫= nil_field).
Proof. destruct o; cbn; [apply ascii_nil_field|done]. Qed.
Lemma ascii_lookup names n : Forall ascii names → opt_all ascii (names !! n).
Proof. intros Hn. destruct (names !! n) as [s|] eqn:Hs; [|done]. rewrite Forall_lookup in Hn. by eapply Hn. Qed.
Lemma ascii_padded v n fill : bval fill < 0x80 → ascii (padded v n fill).
Proof.
  intros Hfill. assert (Hv : ascii (to_string v)).
  { eapply Forall_impl; [apply to_string_bytes|]. intros c [Hc| ->]; [|vm_compute; reflexivity]. revert c Hc. by_bytes. }
  unfold padded. destruct (_ <=? _)%nat; [done|]. apply ascii_app; [|done]. apply Forall_forall. by intros b [-> _]%elem_of_replicate.
Qed.
Ltac ascii_go :=
  repeat match goal with
    | |- ascii (_ ++ _) => apply ascii_app
    | |- _ (padded _ _ _) => apply ascii_padded; vm_compute; reflexivity
    | |- ascii (_ :: _) => apply Forall_cons; split; [vm_compute; reflexivity|]
    | |- Forall _ (_ ++ _) => apply ascii_app
    | |- ascii (lit _) => by_decision
    end.
Lemma ascii_timestamp rfc3164 now ts : send_timestamp rfc3164 now = Ret ts → ascii ts.
Proof.
  destruct rfc3164; cbn; [|intros [= <-]]; unfold rfc3164Timestamp, rfc5424Timestamp.
  - unfold name_at. destruct (kMonths !! _) as [mon|] eqn:Hm; [|done]. destruct (_ <? 0); [done|]. intros [= <-].
    assert (ascii mon) by (assert (Hk : Forall ascii kMonths) by by_decision; rewrite Forall_lookup in Hk; by eapply Hk).
    by ascii_go.
  - ascii_go. destruct (_ <? 0); by_decision.
Qed.

(** ** The record of a message that was sent *)

(** The JSON fields of a message built from [base]: a field of RFC 5424 that is [-] reads as absent. *)
Definition field_read (rfc3164 : bool) (v : option bytes) : option bytes := if rfc3164 then v else v ≫= nil_field.
Definition sent_fields (base : SyslogFields) (rfc3164 : bool) (ts text srcIp rcv : bytes) : list (bytes * option bytes) :=
  [ (lit "rcv", Some rcv); (lit "src", Some srcIp); (lit "proto", Some (lit (if rfc3164 then "RFC3164" else "RFC5424")));
    (lit "facility", kFacilityNames !! Z.to_nat (sf_facility base));
    (lit "severity", kSeverityNames !! Z.to_nat (sf_severity base));
    (lit "hostname", field_read rfc3164 (Some (sf_hostname base))); (lit "app", field_read rfc3164 (Some (sf_app base)));
    (lit "pid", field_read rfc3164 (sf_pid base)); (lit "msgid", if rfc3164 then None else field_read false (sf_msgid base));
    (lit "msg_time", Some ts); (lit "message", Some ((if rfc3164 then [] else lit "- ") ++ sane text)) ].

Lemma sent_json base rfc3164 now ts msg d text ip k rcv :
  send_timestamp rfc3164 now = Ret ts → ValidFields (with_message base ts msg) rfc3164 →
  json_fields (with_source ip k (sent_message base ts d text rfc3164)) rcv = sent_fields base rfc3164 ts text ip rcv.
Proof.
  intros Hts (Hf & Hs & Hh%ascii_token & Ha%ascii_token & Hp & Hm & _). cbn in Hf, Hs, Hh, Ha, Hp, Hm.
  assert (Hp' : opt_all ascii (sf_pid base)) by (destruct (sf_pid base); cbn in *; [by apply ascii_token|done]).
  assert (Hfac : Forall ascii kFacilityNames) by by_decision. assert (Hsev : Forall ascii kSeverityNames) by by_decision.
  pose proof (ascii_timestamp _ _ _ Hts) as Ht. destruct (pri_split _ _ Hf Hs) as [Hq Hr].
  unfold json_fields, sent_fields, field_read, protocol_name. destruct rfc3164; cbn [sent_message priMessage with_source
    protocol srcIp facilityName severityName hostname appName procId msgId timestamp message mbind option_bind]; rewrite Hq, Hr.
  - rewrite !sane_option by (try done; by apply ascii_lookup). done.
  - assert (Hm' : opt_all ascii (sf_msgid base)) by (destruct (sf_msgid base); cbn in *; [apply ascii_token; tauto|done]).
    injection Hts as <-. rewrite (proj2 (rfc5424Timestamp_field now)), sane_app by by_decision.
    rewrite !sane_option by (try done; first [by apply ascii_lookup|by apply ascii_nil_field|by apply ascii_bind]). done.
Qed.

(** ** Through the server *)

Section received.
Context `{LogEnv}.

End received.

(** ** A concrete message *)

Definition any_sink : MSink := mkMSink [] [] sink0 [].
Definition any_manager : Manager := mkManager (mkOs ∅ [] 0 []) [any_sink].
Definition hello : bytes := lit "hello" ++ [x0a].
Definition hello_sent : bytes := match buildDatagram example_fields hello false example_time with Ret d => d | _ => [] end.

Lemma hello_stripped : Stripped hello (lit "hello").
Proof.
  exists [x0a]. split; [reflexivity|]. split; [apply Forall_singleton; reflexivity|].
  intros d' c. change (lit "hello") with (lit "hell" ++ ["o"%byte]). by intros [_ <-]%app_inj_tail.
Qed.
Example hello_record :
  match process (mkPosted hello_sent (lit "10.0.0.9")) 7 any_manager None with
  | Ret (m1, _) =>
      match @run_strand example_env 0 (lit "T") m1 with
      | Ret m2 => map snd <$> (os_files (m_os m2) !! jsonl0 ≫= read_object) =
          Some [Some (lit "T"); Some (lit "10.0.0.9"); Some (lit "RFC5424"); Some (lit "user"); Some (lit "INFO"); Some (lit "host");
                Some (lit "app"); Some (lit "12"); None; Some (lit "2026-09-03T14:07:31.123456+02:00"); Some (lit "- hello")]
      | _ => False
      end
  | _ => False
  end.
Proof. vm_compute. reflexivity. Qed.
