(* ===== verification/Forwarding.v ===== *)
(** * What the server forwards

    The forwarder inside the running server: under any schedule its strand runs the
    messages that were parsed, in order, and what it hands to the socket are
    their datagrams, in that order, short of the first ones, which the log counts. *)

From S2P Require Import Prelude Names Parser ParserSpec Platform Config ConfigSpec Escape Admission Backoff FileSystem LogFile LogFileSpec Lifecycle Sinks OutputManager Forwarder UdpServer Server Isolation Interleaving Process Shutdown Delivery.

(** ** The forwarder's part of a run *)

(** What is posted to the forwarder's strand, and the task an event of it runs. *)
Definition forward_posts (x : Seen) : option FTask :=
  match x with Parsed _ msg => Some (FForward msg) | Stopped => Some FStop | _ => None end.
Definition task_run (e : Forwarder.Event) : option FTask :=
  match e with Forward msg _ => Some (FForward msg) | Forwarder.Stop => Some FStop | _ => None end.

(** The forwarder's own event in a step of the server. *)
Definition forwarder_event (y : Process) (e : SysEvent) : list Forwarder.Event :=
  match e with
  | YForward sent =>
      match forward_tasks y with FForward msg :: _ => [Forward msg sent] | FStop :: _ => [Forwarder.Stop] | [] => [] end
  | YResolved ec results opened => [Resolved ec results opened]
  | YRetry => [Retry false]
  | _ => []
  end.

Section forwarding.
Context `{LogEnv}.

Fixpoint forwarder_history (y : Process) (es : list SysEvent) : list Forwarder.Event :=
  match es with
  | [] => []
  | e :: es' => forwarder_event y e ++ match sys_step y e with Ret y' => forwarder_history y' es' | _ => [] end
  end.

Lemma forwarder_history_snoc y es y1 e :
  path y es y1 → forwarder_history y (es ++ [e]) = forwarder_history y es ++ forwarder_event y1 e.
Proof.
  assert (Happ : ∀ es', path y es y1 → forwarder_history y (es ++ es') = forwarder_history y es ++ forwarder_history y1 es').
  { intros es' Hp. revert es'. induction Hp as [|es y1 e1 y2 _ IH _ Hs]; intros es'; [done|].
    rewrite <- app_assoc, (IH ([e1] ++ es')), (IH [e1]). cbn. rewrite Hs. by rewrite !app_nil_r, <- !app_assoc. }
  intros Hp. rewrite (Happ [e] Hp). cbn. by destruct (sys_step y1 e); rewrite app_nil_r.
Qed.

Lemma forwarder_history_length y es : zlen (forwarder_history y es) <= zlen es.
Proof.
  revert y. induction es as [|e es IH]; intros y; [done|]. cbn [forwarder_history]. unfold zlen in *.
  rewrite length_app. cbn [length]. assert (length (forwarder_event y e) <= 1)%nat.
  { destruct e; cbn; try lia. destruct (forward_tasks y) as [|[msg|] q]; cbn; lia. }
  destruct (sys_step y e) as [y'| |]; cbn; [specialize (IH y')|..]; lia.
Qed.

(** One step: the forwarder makes its own step, and its queue loses what was run
    and gains what was posted. *)
Lemma step_forwards B y e y' :
  PInv B y → enabled y e = true → sys_step y e = Ret y' →
  match y_forwarder y with
  | None => y_forwarder y' = None
  | Some (f, q) => ∃ f' q', y_forwarder y' = Some (f', q') ∧ Forwarder.run f (forwarder_event y e) = Ret f' ∧
      q ++ omap forward_posts (observe y e) = omap task_run (forwarder_event y e) ++ q'
  end.
Proof.
  intros Hy He Hs. pose proof (step_effect B y e y' Hy He Hs) as Hf.
  assert (Hsame : y_forwarder y' = y_forwarder y → omap forward_posts (observe y e) = [] → forwarder_event y e = [] →
    match y_forwarder y with
    | None => y_forwarder y' = None
    | Some (f, q) => ∃ f' q', y_forwarder y' = Some (f', q') ∧ Forwarder.run f (forwarder_event y e) = Ret f' ∧
        q ++ omap forward_posts (observe y e) = omap task_run (forwarder_event y e) ++ q'
    end).
  { intros -> -> ->. destruct (y_forwarder y) as [[f q]|]; [|done]. exists f, q. by rewrite app_nil_r. }
  destruct e as [ec data srcIp now oom|cancelled|now|k|i rcv|i|sent|ec results opened| |j| |t faults]; cbn [effect sys_step] in *;
    try (apply Hsame; [by injection Hs as <-|done|done]).
  - destruct Hf as (_ & _ & _ & _ & _). apply Hsame; [|cbn; by destruct (_ =? _)%nat|done].
    injection Hs as <-. unfold on_receive. by destruct (_ =? _)%nat.
  - destruct Hf as (p & msg & Hp & Ho & _). unfold observe in Ho. rewrite Hp in Ho. unfold run_posted, process in Hs.
    rewrite Hp in Hs. destruct (y_ids y !! k) as [tok|] eqn:Ht; [|done].
    destruct (parseSyslog (po_data p)) as [m| |] eqn:Hm; [|done|done].
    injection Hs as <-. cbn [observe forwarder_event]. rewrite Hp, Ht, Hm.
    destruct (y_forwarder y) as [[f q]|] eqn:Hfw; [|cbn; by rewrite ?Hfw].
    eexists f, _. cbn. by rewrite ?Hfw.
  - destruct Hf as [_ Hr]. apply Hsame; [|cbn; by repeat case_match|done]. rewrite Hr in Hs. by injection Hs as <-.
  - destruct Hf as [_ Hr]. apply Hsame; [|done|done]. rewrite Hr in Hs. by injection Hs as <-.
  - unfold run_forwarder in Hs. cbn [enabled] in He. unfold forward_tasks in He. cbn [forwarder_event observe].
    unfold forward_tasks. destruct (y_forwarder y) as [[f [|[msg|] q]]|] eqn:Hfw; [done| | |done].
    + destruct (doForward msg sent f) as [f'| |] eqn:Hd; [|done|done]. injection Hs as <-. exists f', q. cbn.
      rewrite Hd. by rewrite app_nil_r.
    + injection Hs as <-. exists (Forwarder.stop f), q. cbn. by rewrite app_nil_r.
  - injection Hs as <-. unfold on_forwarder. cbn. destruct (y_forwarder y) as [[f q]|] eqn:Hfw; [|done].
    eexists _, q. cbn. split; [done|]. split; [done|]. by rewrite app_nil_r.
  - injection Hs as <-. unfold on_forwarder. cbn. cbn [enabled] in He. destruct (y_forwarder y) as [[f q]|] eqn:Hfw; [|done].
    eexists _, q. cbn. split; [done|]. rewrite He. cbn. split; [done|]. by rewrite app_nil_r.
  - injection Hs as <-. cbn. destruct (y_forwarder y) as [[f q]|] eqn:Hfw; [|done]. by eexists f, _.
Qed.

(** The forwarder after a schedule is the one its own history leads to, and its
    strand has run what was posted, in order. *)
Definition forwards (f0 : Forwarder) (h : list Seen) (ran : list Forwarder.Event) (y : Process) : Prop :=
  ∃ f q, y_forwarder y = Some (f, q) ∧ Forwarder.run f0 ran = Ret f ∧
    omap forward_posts h = omap task_run ran ++ q.

Lemma path_forwards B y0 es y f0 :
  0 <= B ∧ B + BUFFER_SIZE < 2 ^ 64 → PInv B y0 → y_forwarder y0 = Some (f0, []) → path y0 es y →
  forwards f0 (observed y0 es) (forwarder_history y0 es) y.
Proof.
  intros Hnw Hi H0 Hpath. induction Hpath as [|es y1 e y2 Hpath IH He Hs]; [by exists f0, []|].
  destruct IH as (f & q & Hf & Hr & Hp). pose proof (path_PInv B Hnw y0 es y1 Hi Hpath) as Hi1.
  pose proof (step_forwards B y1 e y2 Hi1 He Hs) as Hstep. rewrite Hf in Hstep.
  destruct Hstep as (f' & q' & Hf' & Hr' & Hq'). exists f', q'. split; [done|].
  rewrite (observed_snoc y0 es y1 e Hpath), (forwarder_history_snoc y0 es y1 e Hpath). split.
  - rewrite Forwarder.run_app, Hr. exact Hr'.
  - by rewrite !omap_app, Hp, <- !app_assoc, Hq'.
Qed.
Lemma path_no_forwarder B y0 es y :
  0 <= B ∧ B + BUFFER_SIZE < 2 ^ 64 → PInv B y0 → y_forwarder y0 = None → path y0 es y → y_forwarder y = None.
Proof.
  intros Hnw Hi H0 Hpath. induction Hpath as [|es y1 e y2 Hpath IH He Hs]; [done|].
  pose proof (step_forwards B y1 e y2 (path_PInv B Hnw y0 es y1 Hi Hpath) He Hs) as Hstep. by rewrite IH in Hstep.
Qed.
End forwarding.

(** ** From the start of the server *)

Section run.
Context `{PropertyTree T} `{BoostStrings} `{Machine} `{LogEnv}.

Lemma started_forwarder (env : ServerEnv T) r sd f0 :
  runServer env = Ret r → rn_started r = Some sd → sd_forwarder sd = Some f0 →
  FInv f0 ∧ Accounted (cfg_forwarding (u_cfg (sd_server sd))) [] f0.
Proof.
  intros Hr Hs Hf. destruct (started_parts env r sd Hr Hs) as (tree & cfg & Hl & _ & Hfwd & _ & ->).
  rewrite Hf in Hfwd. unfold make_forwarder in Hfwd. destruct (fc_enabled _) eqn:Hen; [|done].
  destruct (ev_forwarder_throws env); [done|]. injection Hfwd as <-. split; [|apply new_accounted].
  apply new_FInv. pose proof (lf_forwarding _ _ Hl) as Hfo.
  destruct (pt_child tree (lit "forwarding")) as [fo|]; [by destruct (fo_size_range _ _ Hfo)|by rewrite Hfo].
Qed.

(** C33. Forwarding over a whole run, under any schedule: the forwarder's strand has
    run a prefix of what was parsed, in order, and the rest waits in its queue;
    what it handed to the socket are the datagrams of all the messages the
    configuration selects, cut to the configured size, in that order, but for the
    first ones. Those are as many as the line of the resolution in the log says,
    once the destination is known, and until then all of them, counted for that
    line: a lookup that succeeds announces exactly the count. A stop that comes
    before leaves them unannounced for good. Without forwarding nothing is sent. *)
Theorem datagrams_forwarded (env : ServerEnv T) r sd es y :
  runServer env = Ret r → rn_started r = Some sd →
  apart (cfg_outputs (u_cfg (sd_server sd))) → cfg_maxQueueBytes (u_cfg (sd_server sd)) + BUFFER_SIZE < 2 ^ 64 →
  path (process_of sd) es y → zlen es < 2 ^ 64 - 1 →
  let h := observed (process_of sd) es in
  let ran := forwarder_history (process_of sd) es in
  let wanted := omap (payload (cfg_forwarding (u_cfg (sd_server sd)))) ran in
  match sd_forwarder sd with
  | None => y_forwarder y = None
  | Some f0 => ∃ f q, y_forwarder y = Some (f, q) ∧
      omap forward_posts h = omap task_run ran ++ q ∧
      let lost := m_droppedUnresolved f + announced f in
      0 <= lost <= zlen wanted ∧ sent_payloads f = drop (Z.to_nat lost) wanted ∧
      if m_resolved f then m_droppedUnresolved f = 0
      else announced f = 0 ∧
           if Forwarder.m_stopping f then ∀ ran' f', Forwarder.run f ran' = Ret f' → announced f' = 0
           else ∀ first address rest,
                  announced (onResolved None (address :: rest) None first f) = m_droppedUnresolved f
  end.
Proof.
  intros Hr Hs Ha Hw Hp Hlen h ran wanted. destruct (started_PInv env r sd Hr Hs Ha Hw) as [Hge Hi0].
  destruct (sd_forwarder sd) as [f0|] eqn:Hf0.
  - assert (Hy0 : y_forwarder (process_of sd) = Some (f0, [])) by (cbn; by rewrite Hf0).
    destruct (path_forwards _ _ es y f0 (conj Hge Hw) Hi0 Hy0 Hp) as (f & q & Hf & Hrun & Hq).
    destruct (started_forwarder env r sd f0 Hr Hs Hf0) as (Hi & Hac). exists f, q.
    split; [done|]. split; [done|]. pose proof (forwarder_history_length (process_of sd) es) as Hfl.
    destruct (run_accounted _ [] f0 ran f Hi Hac) as [Hif Hacf]; [unfold ran, zlen in *; cbn; lia|done|].
    destruct (accounted_exact _ _ _ Hif Hacf) as (Hb & Hsent & Hst). split; [exact Hb|]. split; [exact Hsent|].
    destruct (m_resolved f) eqn:Hres; [done|]. split; [done|]. destruct (Forwarder.m_stopping f) eqn:Hstop.
    + intros ran' f' Hr'. by destruct (stopped_silent f ran' f' Hif Hres Hstop Hr').
    + intros first address rest. eapply resolution_announces; [|done|done]. by rewrite (ac_cfg _ _ _ Hacf).
  - apply (path_no_forwarder _ (process_of sd) es y (conj Hge Hw) Hi0); [cbn; by rewrite Hf0|done].
Qed.
End run.

Lemma datagrams_forwarded_witness :
  let h := @observed example_env (process_of the_start) good_run in
  let ran := @forwarder_history example_env (process_of the_start) good_run in
  let wanted := omap (payload (cfg_forwarding (u_cfg (sd_server the_start)))) ran in
  wanted = [lit "<34>Oct 11 22:14:15 host su: failed"] ∧
  match sd_forwarder the_start with
  | None => y_forwarder good_end = None
  | Some f0 => ∃ f q, y_forwarder good_end = Some (f, q) ∧
      omap forward_posts h = omap task_run ran ++ q ∧
      let lost := m_droppedUnresolved f + announced f in
      0 <= lost <= zlen wanted ∧ sent_payloads f = drop (Z.to_nat lost) wanted ∧
      if m_resolved f then m_droppedUnresolved f = 0
      else announced f = 0 ∧
           if Forwarder.m_stopping f then ∀ ran' f', Forwarder.run f ran' = Ret f' → announced f' = 0
           else ∀ first address rest,
                  announced (onResolved None (address :: rest) None first f) = m_droppedUnresolved f
  end.
Proof.
  split; [vm_compute; reflexivity|].
  apply (@datagrams_forwarded ini ini_tree linux_strings linux_machine example_env run_env the_run the_start good_run).
  - exact (proj1 the_run_eq).
  - exact (proj2 the_run_eq).
  - exact the_run_apart.
  - vm_compute. reflexivity.
  - exact good_run_path.
  - vm_compute. reflexivity.
Defined.
