(* ===== verification/Completion.v ===== *)
(** * No datagram is left behind

    Once the datagrams stop coming, the workers clear the backlog, whatever the
    order in which they run and whatever fails: every handler takes from what is
    left, something can always run, and at the end every admitted datagram has
    been parsed and handled by every sink that wants it. *)

From S2P Require Import Prelude Names Parser ParserSpec Platform Config ConfigSpec Escape Admission Backoff FileSystem LogFile LogFileSpec Lifecycle Sinks OutputManager Forwarder UdpServer Server Isolation Interleaving Process Shutdown Delivery Forwarding.

(** The tasks that are posted, or will be by one that is. *)
Definition backlog (y : Process) : nat :=
  length (u_posted (y_server y)) * (length (m_sinks (y_outputs y)) + 2) + qlen (queues (y_outputs y)) +
  length (forward_tasks y).

(** The workers run a task. *)
Definition handler (e : SysEvent) : bool :=
  match e with YPosted _ | YStrand _ _ | YForward _ => true | _ => false end.
(** No datagram arrives, and no shutdown. *)
Definition calm (e : SysEvent) : bool := match e with YReceive _ _ _ _ _ | YShutdown => false | _ => true end.

Section completion.
Context `{LogEnv}.

(** What a step does to the forwarder's queue, by length. *)
Lemma step_forward_tasks B y e y' :
  PInv B y → enabled y e = true → sys_step y e = Ret y' →
  (length (forward_tasks y') + (match e with YForward _ => 1 | _ => 0 end) <=
   length (forward_tasks y) + length (omap forward_posts (observe y e)))%nat.
Proof.
  intros Hy He Hs. pose proof (step_forwards B y e y' Hy He Hs) as Hf. unfold forward_tasks at 1 2.
  destruct (y_forwarder y) as [[f q]|] eqn:Hfw.
  - destruct Hf as (f' & q' & -> & _ & Hq). apply (f_equal length) in Hq. rewrite !length_app in Hq.
    destruct e; try (cbn in *; lia). cbn [forwarder_event enabled] in *. unfold forward_tasks in *. rewrite Hfw in *.
    destruct q as [|[msg|] q]; [done|cbn in *; lia..].
  - rewrite Hf. destruct e; try (cbn; lia). cbn [enabled] in He. unfold forward_tasks in He. by rewrite Hfw in He.
Qed.

Lemma step_backlog B y e y' :
  PInv B y → enabled y e = true → sys_step y e = Ret y' → calm e = true →
  (backlog y' + (if handler e then 1 else 0) <= backlog y)%nat.
Proof.
  intros Hy He Hs Hc. pose proof (step_effect B y e y' Hy He Hs) as Hf.
  pose proof (step_forward_tasks B y e y' Hy He Hs) as Hq. pose proof (rn_inv _ (pi_running _ _ Hy)) as Hi.
  unfold backlog.
  destruct e as [ec data srcIp now oom|cancelled|now|k|i rcv|i|sent|ec results opened| |j| |t faults]; cbn [effect handler] in *;
    try done; try (destruct Hf as [-> ->]; cbn in Hq; cbn; lia).
  - destruct Hf as (p & msg & Hp & Ho & -> & ->). rewrite Ho in Hq. cbn in Hq.
    pose proof (qlen_dispatch msg (y_outputs y)) as Hd. cbn [m_sinks dispatch]. rewrite length_fmap, length_delete by by eexists.
    pose proof (lookup_lt_Some _ _ _ Hp) as Hlt. cbn [m_sinks dispatch] in Hd.
    destruct (length (u_posted (y_server y))) as [|n]; [lia|]. replace (S n - 1)%nat with n by lia. lia.
  - destruct Hf as [-> Hr]. cbn [enabled observe] in *. destruct (m_sinks (y_outputs y) !! i) as [s|] eqn:Hsi; [|done].
    destruct (ms_queue s) as [|t q] eqn:Hqs; [done|]. cbn in Hq.
    destruct (run_strand_queues i rcv (y_outputs y) (y_outputs y') s t q Hi Hsi Hqs Hr) as [Hq' _].
    assert (Hpop : S (qlen (queues (y_outputs y'))) = qlen (queues (y_outputs y))).
    { unfold queues. rewrite Hq'. apply qlen_pop with (t := t). by rewrite list_lookup_fmap, Hsi; cbn; rewrite Hqs. }
    assert (Hl : length (m_sinks (y_outputs y')) = length (m_sinks (y_outputs y))).
    { rewrite <- (length_fmap ms_queue), Hq', length_insert. by rewrite length_fmap. }
    rewrite Hl. lia.
  - destruct Hf as [-> Hr]. cbn [observe] in Hq. cbn in Hq.
    destruct (on_sink_queues i (STimer false) (y_outputs y) (y_outputs y') Hi Hr) as [Hq' _].
    unfold queues. rewrite Hq', (on_sink_length _ _ _ _ Hr). lia.
  - destruct Hf as [-> ->]. cbn in Hq |- *. unfold queues. cbn. lia.
Qed.

(** With tasks left, a worker can run one. *)
Lemma backlog_runs y : (0 < backlog y)%nat → ∃ e, handler e = true ∧ enabled y e = true.
Proof.
  intros Hb. unfold backlog in Hb. destruct (u_posted (y_server y)) as [|p l] eqn:Hp.
  - destruct (forward_tasks y) as [|t q] eqn:Hf; [|exists (YForward None); split; [done|cbn; by rewrite Hf]].
    cbn in Hb. assert (Hex : Exists (λ s, ms_queue s ≠ []) (m_sinks (y_outputs y))).
    { unfold queues in Hb. induction (m_sinks (y_outputs y)) as [|s l IH]; [cbn in Hb; lia|].
      destruct (ms_queue s) as [|t q] eqn:Hq; [right; apply IH; cbn in Hb; rewrite Hq in Hb; cbn in Hb; lia|left; by rewrite Hq]. }
    apply Exists_exists in Hex as (s & Hin & Hq). apply list_elem_of_lookup in Hin as [i Hi].
    exists (YStrand i []). split; [done|]. cbn. rewrite Hi. by rewrite bool_decide_eq_false_2.
  - exists (YPosted 0). split; [done|]. cbn. rewrite Hp. done.
Qed.

Lemma backlog_none y :
  backlog y = 0%nat → u_posted (y_server y) = [] ∧ Forall (λ s, ms_queue s = []) (m_sinks (y_outputs y)) ∧ forward_tasks y = [].
Proof.
  unfold backlog. intros Hb. destruct (u_posted (y_server y)); [|cbn in Hb; lia].
  destruct (forward_tasks y); [|cbn in Hb; lia]. split; [done|]. split; [|done].
  change (Forall ((λ q, q = []) ∘ ms_queue) (m_sinks (y_outputs y))). apply Forall_fmap, qlen_zero. unfold queues in Hb. lia.
Qed.

Lemma path_app y0 es y es' y' : path y0 es y → path y es' y' → path y0 (es ++ es') y'.
Proof.
  intros Hp Hp'. induction Hp' as [|es' y1 e y2 _ IH He Hs]; [by rewrite app_nil_r|].
  rewrite app_assoc. by eapply path_snoc.
Qed.

Lemma path_backlog B y es y' :
  0 <= B ∧ B + BUFFER_SIZE < 2 ^ 64 → PInv B y → path y es y' → Forall (λ e, calm e = true) es →
  (length (filter (λ e, handler e = true) es) + backlog y' <= backlog y)%nat.
Proof.
  intros Hnw Hy Hp. induction Hp as [|es y1 e y2 Hp IH He Hs]; intros Hc; [cbn; lia|].
  apply Forall_app in Hc as [Hc Hce]. apply Forall_inv in Hce. specialize (IH Hc).
  pose proof (step_backlog B y1 e y2 (path_PInv B Hnw y es y1 Hy Hp) He Hs Hce) as Hstep.
  rewrite filter_app, length_app. destruct (handler e) eqn:Hh.
  - rewrite filter_cons_True by done. cbn. lia.
  - rewrite filter_cons_False by congruence. cbn. lia.
Qed.
End completion.

(** ** From the start of the server *)

Section run.
Context `{PropertyTree T} `{BoostStrings} `{Machine} `{LogEnv}.

(** C7. Every datagram gets there: when no more arrive, whatever else happens and in
    whatever order the workers run, each task they run takes from the backlog and
    nothing adds to it; while there is a backlog some worker can run, and its
    handler returns; and when there is none, every admitted datagram has been
    parsed exactly once, every sink has handled all the messages its section
    accepts, in order, and so has the forwarder. *)
Theorem backlog_clears (env : ServerEnv T) r sd es0 y es y1 :
  runServer env = Ret r → rn_started r = Some sd →
  apart (cfg_outputs (u_cfg (sd_server sd))) → cfg_maxQueueBytes (u_cfg (sd_server sd)) + BUFFER_SIZE < 2 ^ 64 →
  path (process_of sd) es0 y → path y es y1 → Forall (λ e, calm e = true) es →
  (length (filter (λ e, handler e = true) es) + backlog y1 <= backlog y)%nat ∧
  ((0 < backlog y1)%nat → ∃ e y2, handler e = true ∧ enabled y1 e = true ∧ sys_step y1 e = Ret y2) ∧
  (backlog y1 = 0%nat →
   let h := observed (process_of sd) (es0 ++ es) in
   omap admitted h ≡ₚ omap parsed h ∧
   (∀ i s0, m_sinks (sd_outputs sd) !! i = Some s0 →
      filter (λ t, meant_for s0 t = true) (omap posts h) = (omap (ran_by i) h).*1) ∧
   (is_Some (sd_forwarder sd) →
      omap forward_posts h = omap task_run (forwarder_history (process_of sd) (es0 ++ es)))).
Proof.
  intros Hr Hs Ha Hw Hp0 Hp Hc. destruct (started_PInv env r sd Hr Hs Ha Hw) as [Hge Hi0].
  destruct (started_sinks env r sd Hr Hs) as (Hpo & Hq & _).
  pose proof (path_PInv _ (conj Hge Hw) _ _ _ Hi0 Hp0) as Hi. pose proof (path_app _ _ _ _ _ Hp0 Hp) as Hpath.
  pose proof (path_PInv _ (conj Hge Hw) _ _ _ Hi0 Hpath) as Hi1.
  split; [by eapply path_backlog|]. split.
  - intros Hb. destruct (backlog_runs y1 Hb) as (e & Hh & He).
    destruct (sys_step_PInv _ (conj Hge Hw) y1 e Hi1 He) as (y2 & Hs2 & _). by exists e, y2.
  - intros Hb h. destruct (backlog_none y1 Hb) as (Hp1 & Hq1 & Hf1).
    destruct (path_delivers _ (process_of sd) (es0 ++ es) y1 (conj Hge Hw) Hi0 Hpo Hq Hpath) as (Hn & Hl & Hall).
    unfold none_lost in Hn. rewrite Hp1, app_nil_r in Hn. split; [done|]. split.
    + intros i s0 Hs0. destruct (lookup_lt_is_Some_2 (m_sinks (y_outputs y1)) i) as [s Hs1];
        [rewrite <- Hl; by eapply lookup_lt_Some|].
      destruct (Hall i s0 s Hs0 Hs1) as (_ & _ & Hf). rewrite Forall_lookup in Hq1.
      by rewrite (Hq1 i s Hs1), app_nil_r in Hf.
    + intros [f0 Hf0]. assert (Hy0 : y_forwarder (process_of sd) = Some (f0, [])) by (cbn; by rewrite Hf0).
      destruct (path_forwards _ _ _ y1 f0 (conj Hge Hw) Hi0 Hy0 Hpath) as (f & q & Hf & _ & Hq').
      unfold forward_tasks in Hf1. rewrite Hf in Hf1. subst q. by rewrite app_nil_r in Hq'.
Qed.
End run.

(** ** A concrete run *)

(** Both datagrams have arrived; then the workers run what is left, the sinks in
    the other order, while a call fails. *)
Definition arrivals : list SysEvent := take 7 good_run.
Definition clearing : list SysEvent :=
  [YEnvironment 5 [Some 0%nat]; YPosted 0; YStrand 1 (lit "V"); YForward None; YStrand 0 (lit "U"); YTimer 1].
Definition at_arrival : Process := default (process_of the_start) (@follow example_env (process_of the_start) arrivals).
Definition cleared : Process := default at_arrival (@follow example_env at_arrival clearing).

Example cleared_run : backlog at_arrival = 4%nat ∧ backlog cleared = 0%nat.
Proof. vm_compute. auto. Qed.

Lemma backlog_clears_witness :
  let h := @observed example_env (process_of the_start) (arrivals ++ clearing) in
  omap admitted h ≡ₚ omap parsed h ∧
  (length (filter (λ e, handler e = true) clearing) + backlog cleared <= backlog at_arrival)%nat.
Proof.
  destruct (@backlog_clears ini ini_tree linux_strings linux_machine example_env run_env the_run the_start
              arrivals at_arrival clearing cleared) as (Hl & _ & He).
  - exact (proj1 the_run_eq).
  - exact (proj2 the_run_eq).
  - exact the_run_apart.
  - vm_compute. reflexivity.
  - apply follow_path, follow_default. vm_compute. reflexivity.
  - apply follow_path, follow_default. vm_compute. reflexivity.
  - repeat constructor.
  - split; [|exact Hl]. apply (He ltac:(vm_compute; reflexivity)).
Defined.
