(* ===== verification/ServiceControl.v ===== *)
(** * Controlling the Windows service (src/src/server/platform/service_win.cpp)

    [--install], [--stop] and [--uninstall], and the query of [--check]: what the
    service manager and the kernel answer is a record, some of it over time, and
    every command that changes something is in a trace, the failed ones included.
    [stopAndWait] runs on [waitUntil]. *)

From Stdlib Require Import Bool.
From S2P Require Import Prelude Platform Backoff WaitUntil Preflight Service.

(** ** The machine *)

Definition ERROR_SERVICE_DOES_NOT_EXIST : Z := 1060.
Definition ERROR_SERVICE_CANNOT_ACCEPT_CTRL : Z := 1061.
Definition ERROR_SERVICE_NOT_ACTIVE : Z := 1062.
Definition ERROR_SERVICE_EXISTS : Z := 1073.
Definition WAIT_OBJECT_0 : Z := 0.
Definition STOP_POLL_INTERVAL : Z := 200000000.
Definition RESTART_DELAY_MS : Z := 5000.
Definition FAILURE_RESET_PERIOD_S : Z := 300.

(** How long each call of a wait takes, and how late each sleep ends. *)
Record Pace := mkPace { pa_start : Z; pa_cost : nat → Z; pa_late : nat → Z }.

(** Each call gives its error, or nothing when it succeeds; times are those of
    the steady clock, in nanoseconds. *)
Record Scm := mkScm {
  sc_manager : option Z;                  (* OpenSCManager *)
  sc_service : option Z;                  (* OpenService *)
  sc_query : Z → (SvcState * Z) + Z;      (* QueryServiceStatusEx: state and process id *)
  sc_control : Z → option Z;              (* ControlService(SERVICE_CONTROL_STOP) *)
  sc_open_process : Z → option Z;         (* OpenProcess *)
  sc_wait : Z → Z → Z;                    (* WaitForSingleObject, at a time, for so many ms *)
  sc_delete : option Z;                   (* DeleteService *)
  sc_create : option Z;                   (* CreateService *)
  sc_change : option Z;                   (* ChangeServiceConfig *)
  sc_actions : option Z;                  (* ChangeServiceConfig2: the recovery actions *)
  sc_flag : option Z;                     (* ChangeServiceConfig2: their flag *)
  sc_event_key : option Z;                (* RegCreateKeyEx *)
  sc_module : Z → Z + (Z * bytes);        (* GetModuleFileName, into a buffer of a size *)
  sc_clock : nat → Z;                     (* the reads of the clock in stopAndWait *)
  sc_accept : Pace;                       (* the wait until the stop is accepted *)
  sc_stopped : Pace                       (* the wait until the service is stopped *)
}.

Inductive RecoveryAction := SC_ACTION_NONE | SC_ACTION_RESTART.

(** Commands, and lines of the system log. *)
Inductive Command :=
| DeleteService
| DeleteEventSource
| WaitForProcess
| CreateService (binPath : bytes)
| ChangeServiceConfig (binPath : bytes)
| SetDescription
| SetFailureActions (actions : list (RecoveryAction * Z)) (resetPeriod : Z)
| SetFailureFlag
| SetEventSource (exePath : bytes)
| LogInfo (line : bytes)
| LogError (line : bytes).

(** A call with its trace; an exception keeps what was done before it. *)
Definition Ctl (A : Type) : Type := list Command * M A.
#[export] Instance Ctl_ret : MRet Ctl := λ A a, ([], Ret a).
#[export] Instance Ctl_bind : MBind Ctl := λ A B f m,
  match m with
  | (t, Ret a) => let '(t', r) := f a in (t ++ t', r)
  | (t, Throw e) => (t, Throw e)
  | (t, UB) => (t, UB)
  end.
Definition do_ (c : Command) : Ctl unit := ([c], Ret tt).
Definition lift {A} (m : M A) : Ctl A := ([], m).
Definition fail_with {A} (what : bytes) (err : Z) : Ctl A :=
  lift (Throw (RuntimeError (what ++ to_string err))).

Section control.
Variable scm : Scm.

Definition queryServiceStatus (t : Z) : M (SvcState * Z) :=
  match sc_query scm t with
  | inl status => mret status
  | inr err => Throw (RuntimeError (lit "QueryServiceStatusEx failed: " ++ to_string err))
  end.

Definition requestStop (t : Z) : M bool :=
  match sc_control scm t with
  | None => mret true
  | Some err =>
      if err =? ERROR_SERVICE_NOT_ACTIVE then mret true
      else if err =? ERROR_SERVICE_CANNOT_ACCEPT_CTRL then mret false
      else Throw (RuntimeError (lit "failed to stop the minilog service: " ++ to_string err))
  end.

Definition is_stopped (t : Z) : M bool :=
  '(state, _) ← queryServiceStatus t; mret (bool_decide (state = SERVICE_STOPPED)).

(** One of the two waits, with enough rounds. *)
Definition wait_for (isDone : Z → M bool) (timeout : Z) (p : Pace) : M bool :=
  waitUntil (λ _, isDone) (pa_cost p) (pa_late p) (rounds timeout STOP_POLL_INTERVAL) timeout
    STOP_POLL_INTERVAL (pa_start p).

Definition stopAndWait (timeout : Z) : Ctl unit :=
  let deadline := sc_clock scm 0 + seconds timeout in
  '(state, pid) ← lift (queryServiceStatus (sc_clock scm 0));
  if bool_decide (state = SERVICE_STOPPED) then mret tt else
  let openError := if pid =? 0 then None else sc_open_process scm pid in
  let process := negb (pid =? 0) && bool_decide (openError = None) in
  (if process then mret tt
   else do_ (LogInfo (lit "minilog: waiting on the service state alone, not on process exit (" ++
                      match openError with
                      | Some err => lit "OpenProcess failed: " ++ to_string err
                      | None => lit "the SCM reported no process id"
                      end ++ lit ")")));;
  (if bool_decide (state = SERVICE_STOP_PENDING) then mret tt else
   accepted ← lift (wait_for requestStop (deadline - sc_clock scm 1) (sc_accept scm));
   if accepted : bool then mret tt
   else lift (Throw (RuntimeError (lit "the minilog service was still starting and would not accept a stop within " ++
                                   to_string timeout ++ lit " s"))));;
  stopped ← lift (wait_for is_stopped (deadline - sc_clock scm 2) (sc_stopped scm));
  if negb stopped then
    lift (Throw (RuntimeError (lit "the minilog service did not stop within " ++ to_string timeout ++ lit " s")))
  else if negb process then mret tt else
  let remaining := Z.quot (deadline - sc_clock scm 3) 1000000 in
  let remainingMs := if 0 <? remaining then u32 remaining else 0 in
  do_ WaitForProcess;;
  if sc_wait scm (sc_clock scm 3) remainingMs =? WAIT_OBJECT_0 then mret tt
  else lift (Throw (RuntimeError (lit "the minilog service reported itself stopped but its process was still running after " ++
                                  to_string timeout ++ lit " s"))).

Definition stopService (timeout : Z) : Ctl unit :=
  match sc_manager scm with
  | Some err => fail_with (lit "OpenSCManager failed: ") err
  | None =>
      match sc_service scm with
      | Some err =>
          if err =? ERROR_SERVICE_DOES_NOT_EXIST
          then do_ (LogInfo (lit "minilog service is not registered; nothing to stop"))
          else fail_with (lit "OpenService failed: ") err
      | None => stopAndWait timeout;; do_ (LogInfo (lit "minilog service stopped"))
      end
  end.

Definition queryServiceState : ServiceState :=
  match sc_manager scm with
  | Some _ => Unknown
  | None =>
      match sc_service scm with
      | Some err => if err =? ERROR_SERVICE_DOES_NOT_EXIST then NotInstalled else Unknown
      | None =>
          match queryServiceStatus (sc_clock scm 0) with
          | Ret (state, _) => if bool_decide (state = SERVICE_STOPPED) then NotRunning else Running
          | _ => Unknown
          end
      end
  end.

Definition uninstallService (timeout : Z) : Ctl unit :=
  match sc_manager scm with
  | Some err => fail_with (lit "OpenSCManager failed: ") err
  | None =>
      (match sc_service scm with
       | None =>
           stopAndWait timeout;;
           do_ DeleteService;;
           match sc_delete scm with
           | Some err => fail_with (lit "DeleteService failed: ") err
           | None => mret tt
           end
       | Some err =>
           if err =? ERROR_SERVICE_DOES_NOT_EXIST then mret tt
           else fail_with (lit "OpenService failed: ") err
       end);;
      do_ (LogInfo (match sc_service scm with
                    | None => lit "minilog service uninstalled"
                    | Some _ => lit "minilog service is not registered; nothing to remove"
                    end));;
      do_ DeleteEventSource
  end.

(** ** Installing *)

Definition MAX_PATH : Z := 260.

(** The buffer doubles until the name fits with room to spare. *)
Fixpoint executable_loop (fuel : nat) (size : Z) : M bytes :=
  match fuel with
  | O => UB
  | S f =>
      match sc_module scm (u32 size) with
      | inl err => Throw (RuntimeError (lit "GetModuleFileName failed: " ++ to_string err))
      | inr (written, buffer) =>
          if written <? size then mret (take (Z.to_nat written) buffer) else executable_loop f (size * 2)
      end
  end.
Definition currentExecutablePath (fuel : nat) : M bytes := executable_loop fuel MAX_PATH.

Definition quoted (p : bytes) : bytes := [x22] ++ p ++ [x22].

Definition recovery_actions : list (RecoveryAction * Z) :=
  [(SC_ACTION_RESTART, RESTART_DELAY_MS); (SC_ACTION_RESTART, RESTART_DELAY_MS); (SC_ACTION_NONE, 0)].

(** The registration itself: whether the service was created. *)
Definition register (binPath : bytes) : Ctl bool :=
  do_ (CreateService binPath);;
  match sc_create scm with
  | None => mret true
  | Some err =>
      if negb (err =? ERROR_SERVICE_EXISTS) then fail_with (lit "CreateService failed: ") err else
      match sc_service scm with
      | Some err => fail_with (lit "OpenService failed: ") err
      | None =>
          do_ (ChangeServiceConfig binPath);;
          match sc_change scm with
          | Some err => fail_with (lit "ChangeServiceConfig failed: ") err
          | None => mret false
          end
      end
  end.

(** A command whose failure is only reported. *)
Definition attempt (c : Command) (result : option Z) (what : bytes) : Ctl unit :=
  do_ c;;
  match result with Some err => do_ (LogError (what ++ to_string err)) | None => mret tt end.

Definition installService (fuel : nat) (configPath : bytes) : Ctl unit :=
  exePath ← lift (currentExecutablePath fuel);
  match sc_manager scm with
  | Some err => fail_with (lit "OpenSCManager failed: ") err
  | None =>
      let binPath := quoted exePath ++ lit " " ++ quoted configPath in
      created ← register binPath;
      do_ SetDescription;;                        (* whatever it answers *)
      attempt (SetFailureActions recovery_actions FAILURE_RESET_PERIOD_S) (sc_actions scm)
        (lit "minilog: failed to configure service recovery actions: ");;
      attempt SetFailureFlag (sc_flag scm)
        (lit "minilog: failed to enable recovery actions on non-crash failures: ");;
      match sc_event_key scm with None => do_ (SetEventSource exePath) | Some _ => mret tt end;;
      do_ (LogInfo (if created : bool then lit "minilog service installed (" ++ binPath ++ lit ")"
                    else lit "minilog service updated (" ++ binPath ++
                         lit ") — restart the service to run the new registration"))
  end.
End control.

(** ** Stopping *)

Lemma Ctl_bind_inv {A B} (m : Ctl A) (f : A → Ctl B) t r :
  (m ≫= f) = (t, r) →
  (∃ t1 a t2, m = (t1, Ret a) ∧ f a = (t2, r) ∧ t = t1 ++ t2) ∨
  (∃ e, m = (t, Throw e) ∧ r = Throw e) ∨ (m = (t, UB) ∧ r = UB).
Proof.
  destruct m as [t1 [a|e|]]; unfold mbind, Ctl_bind.
  - destruct (f a) as [t2 r2] eqn:Hf. intros [= <- <-]. left. by exists t1, a, t2.
  - intros [= <- <-]. right. left. by exists e.
  - intros [= <- <-]. by right; right.
Qed.

Section promises.
Context (scm : Scm).

(** Time passes, and a wait for the process that ends with WAIT_OBJECT_0 means that
    the process has exited, at a time within it. *)
Definition steady (p : Pace) : Prop := ∀ i, 0 <= pa_cost p i ∧ 0 <= pa_late p i.
Variable exited : Z → Prop.
Hypothesis accept_steady : steady (sc_accept scm).
Hypothesis stopped_steady : steady (sc_stopped scm).
Hypothesis wait_means : ∀ t ms, 0 <= ms → sc_wait scm t ms = WAIT_OBJECT_0 → ∃ t', t <= t' <= t + ms * 1000000 ∧ exited t'.

Lemma wait_for_answer (isDone : Z → M bool) timeout p :
  steady p → (∀ t, isDone t ≠ UB) → ∃ t, wait_for isDone timeout p = isDone t ∧ pa_start p <= t.
Proof.
  intros Hp Hd.
  destruct (waitUntil_answer (λ _, isDone) (pa_cost p) (pa_late p) (λ i, proj1 (Hp i)) (λ i, proj2 (Hp i))
              (λ _, Hd) timeout STOP_POLL_INTERVAL (pa_start p)) as (i & t & He & Ht); [done|].
  by exists t.
Qed.

(** The manager accepted a stop, or had nothing to stop, at some time. *)
Definition stop_accepted : Prop :=
  ∃ t, sc_control scm t = None ∨ sc_control scm t = Some ERROR_SERVICE_NOT_ACTIVE.
Definition said_stopped (t : Z) : Prop := ∃ pid, sc_query scm t = inl (SERVICE_STOPPED, pid).

(** What a stop that succeeded means. Without a handle to the process only the
    manager's word is left, and the log says so. *)
Inductive StopDone (timeout : Z) (trace : list Command) : Prop :=
| already_stopped : said_stopped (sc_clock scm 0) → trace = [] → StopDone timeout trace
| process_gone t t' :
    said_stopped t → pa_start (sc_stopped scm) <= t → exited t' →
    t' <= Z.max (sc_clock scm 3) (sc_clock scm 0 + seconds timeout) →
    (∃ pid, sc_query scm (sc_clock scm 0) = inl (SERVICE_STOP_PENDING, pid)) ∨ stop_accepted →
    trace = [WaitForProcess] → StopDone timeout trace
| only_the_word t line :
    said_stopped t → pa_start (sc_stopped scm) <= t →
    (∃ state pid, sc_query scm (sc_clock scm 0) = inl (state, pid) ∧ (pid = 0 ∨ is_Some (sc_open_process scm pid))) →
    (∃ pid, sc_query scm (sc_clock scm 0) = inl (SERVICE_STOP_PENDING, pid)) ∨ stop_accepted →
    trace = [LogInfo line] → StopDone timeout trace.

(** No exception but [std::runtime_error]. *)
Definition reported {A} (r : M A) : Prop :=
  match r with Ret _ => True | Throw (RuntimeError _) => True | _ => False end.

(** Only waiting and logging. *)
Definition harmless (c : Command) : Prop := match c with WaitForProcess | LogInfo _ => True | _ => False end.
Definition StopResult (timeout : Z) (trace : list Command) (r : M unit) : Prop :=
  Forall harmless trace ∧
  match r with Ret _ => StopDone timeout trace | Throw (RuntimeError _) => True | _ => False end.

Lemma queryServiceStatus_cases t :
  (∃ st, queryServiceStatus scm t = Ret st ∧ sc_query scm t = inl st) ∨
  (∃ w, queryServiceStatus scm t = Throw (RuntimeError w)).
Proof. unfold queryServiceStatus. destruct (sc_query scm t) as [st|err]; [left; by exists st|right; by eexists]. Qed.

Lemma is_stopped_cases t :
  (∃ b, is_stopped scm t = Ret b ∧ (b = true → said_stopped t)) ∨ (∃ w, is_stopped scm t = Throw (RuntimeError w)).
Proof.
  unfold is_stopped. destruct (queryServiceStatus_cases t) as [([state pid] & -> & Hq)|(w & ->)]; cbn.
  - left. eexists. split; [done|]. intros ->%bool_decide_eq_true. by exists pid.
  - right. by exists w.
Qed.
Lemma requestStop_cases t :
  (∃ b, requestStop scm t = Ret b ∧ (b = true → stop_accepted)) ∨ (∃ w, requestStop scm t = Throw (RuntimeError w)).
Proof.
  unfold requestStop. destruct (sc_control scm t) as [err|] eqn:Hc.
  - destruct (Z.eqb_spec err ERROR_SERVICE_NOT_ACTIVE) as [->|]; [left; eexists; split; [done|]; intros _; exists t; by right|].
    destruct (err =? ERROR_SERVICE_CANNOT_ACCEPT_CTRL); [left|right]; by eexists.
  - left. eexists. split; [done|]. intros _. exists t. by left.
Qed.

(** The two waits: they end with a yes, which means what was asked, or no, or a
    reported error. *)
Lemma accept_wait timeout :
  (∃ b, wait_for (requestStop scm) timeout (sc_accept scm) = Ret b ∧ (b = true → stop_accepted)) ∨
  (∃ w, wait_for (requestStop scm) timeout (sc_accept scm) = Throw (RuntimeError w)).
Proof.
  destruct (wait_for_answer (requestStop scm) timeout _ accept_steady) as (t & -> & _); [|apply requestStop_cases].
  intros t. by destruct (requestStop_cases t) as [(b & -> & _)|(w & ->)].
Qed.
Lemma stopped_wait timeout :
  (∃ b, wait_for (is_stopped scm) timeout (sc_stopped scm) = Ret b ∧
        (b = true → ∃ t, said_stopped t ∧ pa_start (sc_stopped scm) <= t)) ∨
  (∃ w, wait_for (is_stopped scm) timeout (sc_stopped scm) = Throw (RuntimeError w)).
Proof.
  destruct (wait_for_answer (is_stopped scm) timeout _ stopped_steady) as (t & -> & Ht).
  { intros t. by destruct (is_stopped_cases t) as [(b & -> & _)|(w & ->)]. }
  destruct (is_stopped_cases t) as [(b & -> & Hb)|(w & ->)]; [left; exists b|right; by exists w].
  split; [done|]. intros Hbt. exists t. split; [by apply Hb|done].
Qed.

Lemma u32_le z : 0 <= z → 0 <= u32 z <= z.
Proof. intros Hz. unfold u32. split; [by apply Z.mod_pos_bound|]. by apply Z.mod_le. Qed.

Lemma remainingMs_nonneg remaining : 0 <= (if 0 <? remaining then u32 remaining else 0).
Proof. destruct (Z.ltb_spec 0 remaining); [apply u32_le|]; lia. Qed.

(** The wait for the process ends by the deadline, or at once after it. *)
Lemma remaining_bound deadline now t' :
  let remaining := Z.quot (deadline - now) 1000000 in
  now <= t' <= now + (if 0 <? remaining then u32 remaining else 0) * 1000000 → t' <= Z.max now deadline.
Proof.
  cbv zeta. destruct (Z.ltb_spec 0 (Z.quot (deadline - now) 1000000)) as [Hr|]; [|lia].
  pose proof (u32_le (Z.quot (deadline - now) 1000000)) as Hu.
  pose proof (Z.mul_quot_le (deadline - now) 1000000) as Hm.
  destruct (Z.leb_spec 0 (deadline - now)) as [Hd|Hd]; [lia|].
  pose proof (Z.quot_opp_l (deadline - now) 1000000). pose proof (Z.quot_pos (- (deadline - now)) 1000000). lia.
Qed.

Lemma stopAndWait_result timeout trace r :
  stopAndWait scm timeout = (trace, r) → StopResult timeout trace r.
Proof.
  unfold stopAndWait. destruct (queryServiceStatus_cases (sc_clock scm 0)) as [([state pid] & -> & Hq)|(w & ->)];
    [|by intros [= <- <-]; split; [constructor|]].
  cbn [lift mbind Ctl_bind mret Ctl_ret app]. destruct (bool_decide (state = SERVICE_STOPPED)) eqn:Hs0.
  { apply bool_decide_eq_true in Hs0 as ->. intros [= <- <-]. split; [constructor|]. apply already_stopped; [by exists pid|done]. }
  set (openError := if pid =? 0 then None else sc_open_process scm pid).
  set (process := negb (pid =? 0) && bool_decide (openError = None)).
  set (note := if process then mret tt else do_ _).
  assert (Hnote : ∃ t0, note = (t0, Ret tt) ∧ Forall harmless t0 ∧
    if process then t0 = [] else ∃ line, t0 = [LogInfo line]).
  { unfold note. destruct process; eexists; (split; [done|]); (split; [by repeat constructor|]); [done|by eexists]. }
  destruct Hnote as (t0 & -> & Ht0 & Hshape). cbn [mbind Ctl_bind].
  set (ask := if bool_decide (state = SERVICE_STOP_PENDING) then mret tt else _).
  assert (Hask : (ask = ([], Ret tt) ∧ ((∃ pid, sc_query scm (sc_clock scm 0) = inl (SERVICE_STOP_PENDING, pid)) ∨ stop_accepted)) ∨
                 ∃ w, ask = ([], Throw (RuntimeError w))).
  { unfold ask. destruct (bool_decide (state = SERVICE_STOP_PENDING)) eqn:Hp.
    - apply bool_decide_eq_true in Hp as ->. left. split; [done|]. left. by exists pid.
    - destruct (accept_wait (sc_clock scm 0 + seconds timeout - sc_clock scm 1)) as [([|] & -> & Hb)|(w & ->)]; cbn;
        [left; split; [done|right; by apply Hb]|right; by eexists|right; by eexists]. }
  destruct Hask as [[-> Hreq]|(w & ->)]; cbn [mbind Ctl_bind app];
    [|intros [= <- <-]; split; [by rewrite app_nil_r|done]].
  destruct (stopped_wait (sc_clock scm 0 + seconds timeout - sc_clock scm 2)) as [([|] & -> & Hb)|(w & ->)];
    cbn [lift mbind Ctl_bind app negb]; [|intros [= <- <-]; split; [by rewrite app_nil_r|done]..].
  destruct (Hb eq_refl) as (t & Ht & Hlate). destruct process eqn:Hproc; cbn [negb].
  - subst t0. cbn [do_ mbind Ctl_bind app]. destruct (_ =? WAIT_OBJECT_0) eqn:Hw;
      cbn; intros [= <- <-]; (split; [by repeat constructor|]); [|done].
    apply Z.eqb_eq in Hw. destruct (wait_means _ _ (remainingMs_nonneg _) Hw) as (t' & Hb' & Hex). eapply process_gone; [done|done|done| |done|done].
    by apply (remaining_bound _ _ t' Hb').
  - destruct Hshape as [line ->]. intros [= <- <-]. split; [by repeat constructor|].
    eapply only_the_word; [done|done| |done|done]. exists state, pid. split; [done|].
    unfold process, openError in Hproc. destruct (Z.eqb_spec pid 0) as [->|]; [by left|right].
    cbn in Hproc. apply bool_decide_eq_false in Hproc. by destruct (sc_open_process scm pid).
Qed.

(** C26. --stop says yes only when it is true: stopService ends, with success or a
    reported error and nothing else. When it succeeds the service is not
    registered, or it was stopped already, or the manager accepted the stop (or
    was already stopping), later said the service is stopped, and the process
    has exited by the deadline; only when the process cannot be opened is the
    manager's word all there is, and then the log says so. *)
Theorem stopService_stops timeout :
  ∃ trace r, stopService scm timeout = (trace, r) ∧ reported r ∧ Forall harmless trace ∧
    (r = Ret tt →
     (sc_manager scm = None ∧ sc_service scm = Some ERROR_SERVICE_DOES_NOT_EXIST) ∨
     (sc_manager scm = None ∧ sc_service scm = None ∧
      ∃ waited, StopDone timeout waited ∧ trace = waited ++ [LogInfo (lit "minilog service stopped")])).
Proof.
  unfold stopService. destruct (sc_manager scm) as [err|]; [eexists _, _; split_and!; done|].
  destruct (sc_service scm) as [err|].
  - destruct (Z.eqb_spec err ERROR_SERVICE_DOES_NOT_EXIST) as [->|]; eexists _, _; (split_and!; [done|done|by repeat constructor|]);
      [by left|done].
  - destruct (stopAndWait scm timeout) as [t r] eqn:E. pose proof (stopAndWait_result _ _ _ E) as [Hh Hr].
    destruct r as [[]|[w|w|w|w]|]; try done; cbn [mbind Ctl_bind]; eexists _, _; (split_and!; [done|done| |]).
    + apply Forall_app. split; [done|by repeat constructor].
    + intros _. right. split; [done|]. split; [done|]. by exists t.
    + done.
    + done.
Qed.

(** --uninstall deletes nothing under a running process: a service is deleted
    only after it was stopped as --stop does; uninstallService ends, with success
    or a reported error; and when it succeeds the service was not registered or
    has been deleted, and in both cases the event source is removed, last. *)
Theorem uninstallService_deletes timeout :
  ∃ trace r, uninstallService scm timeout = (trace, r) ∧ reported r ∧
    (DeleteService ∈ trace → ∃ waited rest, trace = waited ++ DeleteService :: rest ∧
       Forall harmless waited ∧ StopDone timeout waited ∧ DeleteService ∉ rest) ∧
    (r = Ret tt ↔ last trace = Some DeleteEventSource) ∧
    (r = Ret tt → (sc_service scm = Some ERROR_SERVICE_DOES_NOT_EXIST ∧ DeleteService ∉ trace) ∨
                  (sc_service scm = None ∧ sc_delete scm = None ∧ DeleteService ∈ trace)).
Proof.
  unfold uninstallService. destruct (sc_manager scm) as [err|].
  { eexists _, _. split_and!; try done. by intros ?%not_elem_of_nil. }
  destruct (sc_service scm) as [err|].
  - destruct (Z.eqb_spec err ERROR_SERVICE_DOES_NOT_EXIST) as [->|]; cbn;
      (eexists _, _; split_and!; [done|done| | |]); try done.
    + intros Hin. by repeat (apply elem_of_cons in Hin as [?|Hin]; [done|]); apply not_elem_of_nil in Hin.
    + intros _. left. split; [done|]. intros Hin.
      by repeat (apply elem_of_cons in Hin as [?|Hin]; [done|]); apply not_elem_of_nil in Hin.
    + by intros ?%not_elem_of_nil.
  - destruct (stopAndWait scm timeout) as [t r] eqn:E. pose proof (stopAndWait_result _ _ _ E) as [Hh Hr].
    assert (Hno : DeleteService ∉ t) by (intros Hin; rewrite Forall_forall in Hh; by apply (Hh _ Hin)).
    assert (Hlast : ∀ c, last t = Some c → c ≠ DeleteEventSource).
    { intros c Hc ->. rewrite Forall_forall in Hh. apply (Hh DeleteEventSource).
      apply last_Some in Hc as [t' ->]. apply elem_of_app. right. by left. }
    destruct r as [[]|[w|w|w|w]|]; try done; cbn [mbind Ctl_bind do_ app].
    + destruct (sc_delete scm) as [err|]; cbn; (eexists _, _; split_and!; [done|done| | |]).
      * intros _. exists t, []. split; [done|]. split_and!; [done|done|by apply not_elem_of_nil].
      * split; [done|]. intros Hl. by rewrite last_snoc in Hl.
      * done.
      * intros _. eexists t, _. split; [rewrite <- ?app_assoc; reflexivity|]. split_and!; [done|done|].
        intros Hin. by repeat (apply elem_of_cons in Hin as [?|Hin]; [done|]); apply not_elem_of_nil in Hin.
      * split; [|done]. intros _. by rewrite last_app_cons.
      * intros _. right. split; [done|]. split; [done|]. rewrite !elem_of_app. left. right. by left.
    + eexists _, _. split_and!; [done|done|done| |done]. split; [done|]. intros Hl. by apply Hlast in Hl.
Qed.

(** ** Installing *)

(** GetModuleFileName as documented, for a name of [name]: truncated to the
    buffer when it does not fit with its terminator. *)
Definition module_named (name : bytes) : Prop :=
  ∀ size, 0 < size → sc_module scm size =
    inr (if zlen name <? size then (zlen name, name) else (size, take (Z.to_nat size) name)).

Lemma executable_loop_finds name fuel size :
  module_named name → 0 < size → zlen name < size * 2 ^ (Z.of_nat fuel - 1) → size * 2 ^ Z.of_nat fuel < 2 ^ 32 →
  (0 < fuel)%nat → executable_loop scm fuel size = Ret name.
Proof.
  intros Hn. revert size. induction fuel as [|fuel IH]; intros size Hs Hl Hw Hf; [lia|]. cbn [executable_loop].
  assert (Hp : 1 <= 2 ^ Z.of_nat fuel) by (pose proof (Z.pow_pos_nonneg 2 (Z.of_nat fuel)); lia).
  rewrite Nat2Z.inj_succ, Z.pow_succ_r in Hw by lia.
  assert (Hu : u32 size = size) by (apply Z.mod_small; nia). rewrite Hu, Hn by done.
  replace (Z.of_nat (S fuel) - 1) with (Z.of_nat fuel) in Hl by lia.
  destruct (Z.ltb_spec (zlen name) size) as [Hlt|Hge].
  - rewrite (proj2 (Z.ltb_lt _ _)) by done. unfold zlen. by rewrite Nat2Z.id, firstn_all.
  - rewrite Z.ltb_irrefl. destruct fuel as [|fuel]; [cbn in Hl; lia|].
    rewrite Nat2Z.inj_succ, Z.pow_succ_r in Hl, Hw by lia. rewrite Nat2Z.inj_succ, Z.pow_succ_r in Hp by lia.
    apply IH; [lia| | |lia].
    + replace (Z.of_nat (S fuel) - 1) with (Z.of_nat fuel) by lia. lia.
    + rewrite Nat2Z.inj_succ, Z.pow_succ_r by lia. lia.
Qed.

(** The executable's path is found whatever its length, up to 32767 characters,
    the longest Windows allows. *)
Lemma currentExecutablePath_finds name :
  module_named name → zlen name <= 32767 → currentExecutablePath scm 8 = Ret name.
Proof. intros Hn Hl. apply executable_loop_finds; try done; unfold MAX_PATH; cbn; lia. Qed.

(** The line in the system log for a call that failed. *)
Definition failure_line (what : bytes) (result : option Z) : list Command :=
  match result with Some err => [LogError (what ++ to_string err)] | None => [] end.
Lemma attempt_result c result what : attempt c result what = (c :: failure_line what result, Ret tt).
Proof. unfold attempt. by destruct result. Qed.

(** The registration was made, or an existing one changed. *)
Definition registered : Prop :=
  sc_create scm = None ∨ (sc_create scm = Some ERROR_SERVICE_EXISTS ∧ sc_service scm = None ∧ sc_change scm = None).

Lemma register_result binPath :
  ∃ trace r, register scm binPath = (trace, r) ∧
    trace = CreateService binPath ::
      (if bool_decide (sc_create scm = Some ERROR_SERVICE_EXISTS) && bool_decide (sc_service scm = None)
       then [ChangeServiceConfig binPath] else []) ∧
    ((r = Ret (bool_decide (sc_create scm = None)) ∧ registered) ∨ ((∃ w, r = Throw (RuntimeError w)) ∧ ¬ registered)).
Proof.
  unfold register, registered. destruct (sc_create scm) as [err|] eqn:Hc.
  2: { eexists _, _. split_and!; [done|done|]. left. split; [done|by left]. }
  cbn [mbind Ctl_bind do_]. destruct (Z.eqb_spec err ERROR_SERVICE_EXISTS) as [->|Hne]; cbn [negb].
  - rewrite (bool_decide_eq_true_2 (Some ERROR_SERVICE_EXISTS = _)) by done. destruct (sc_service scm) as [err|]; cbn.
    + eexists _, _. split_and!; [done|done|]. right. split; [by eexists|]. by intros [?|(_ & ? & _)].
    + destruct (sc_change scm) as [err|]; eexists _, _; (split_and!; [done|done|]).
      * right. split; [by eexists|]. by intros [?|(_ & _ & ?)].
      * left. split; [done|]. by right.
  - rewrite (bool_decide_eq_false_2 (Some err = _)) by congruence. eexists _, _. split_and!; [done|done|].
    right. split; [by eexists|]. intros [?|(? & _)]; congruence.
Qed.

(** The commands of an installation that succeeds, and its lines, in order. *)
Definition installed (name bin : bytes) : list Command :=
  CreateService bin :: (if bool_decide (sc_create scm = None) then [] else [ChangeServiceConfig bin]) ++
  [SetDescription; SetFailureActions [(SC_ACTION_RESTART, 5000); (SC_ACTION_RESTART, 5000); (SC_ACTION_NONE, 0)] 300] ++
  failure_line (lit "minilog: failed to configure service recovery actions: ") (sc_actions scm) ++
  [SetFailureFlag] ++
  failure_line (lit "minilog: failed to enable recovery actions on non-crash failures: ") (sc_flag scm) ++
  (match sc_event_key scm with None => [SetEventSource name] | Some _ => [] end) ++
  [LogInfo (if bool_decide (sc_create scm = None) then lit "minilog service installed (" ++ bin ++ lit ")"
            else lit "minilog service updated (" ++ bin ++ lit ") — restart the service to run the new registration")].

(** C27. --install issues the same commands whether or not there was a registration:
    it succeeds exactly when the manager can be opened and the service was created,
    or existed and was changed. Then its commands and its lines in the system log
    are exactly these, in this order: the service is created or changed to run this
    executable with this configuration, both quoted; a description is set; recovery
    actions are set that restart it twice after a failure and then leave it down,
    then the flag that counts a non-zero exit as a failure, and a failure of either
    of these two is reported and is all that is; the event source is set to this
    executable when its key can be opened, and silently left alone when it cannot;
    the last line says whether the service was installed or updated. Otherwise it
    ends with a reported error, and the only commands are those that create the
    service or change its registration. *)
Theorem installService_registers name configPath :
  module_named name → zlen name <= 32767 →
  let bin := quoted name ++ lit " " ++ quoted configPath in
  ∃ trace r, installService scm 8 configPath = (trace, r) ∧ reported r ∧
    (r = Ret tt ↔ sc_manager scm = None ∧ registered) ∧
    (r = Ret tt → trace = installed name bin) ∧
    (r ≠ Ret tt → ∀ c, c ∈ trace → c = CreateService bin ∨ c = ChangeServiceConfig bin).
Proof.
  intros Hn Hl bin. unfold installService. rewrite (currentExecutablePath_finds name) by done.
  cbn [lift mbind Ctl_bind]. destruct (sc_manager scm) as [err|].
  { eexists _, _. split_and!; [done|done|by split; [|intros [? _]]|done|].
    intros _ c Hc. by apply not_elem_of_nil in Hc. }
  fold bin. destruct (register_result bin) as (t & r & -> & -> & [[-> Hreg]|[[w ->] Hreg]]).
  - cbn [mbind Ctl_bind do_]. rewrite !attempt_result.
    assert (Hchange : bool_decide (sc_create scm = Some ERROR_SERVICE_EXISTS) && bool_decide (sc_service scm = None) =
                      negb (bool_decide (sc_create scm = None))).
    { destruct Hreg as [->|(-> & -> & _)]; done. }
    rewrite Hchange, if_negb. unfold installed.
    destruct (sc_event_key scm) as [err|]; cbn [mret Ctl_ret do_]; (eexists _, _; split_and!;
      [reflexivity|done|by split|intros _|done]); cbn; by rewrite <- ?app_assoc.
  - cbn [mbind Ctl_bind]. eexists _, _. split_and!; [done|done|by split; [|intros [_ ?]]|done|].
    intros _ c Hc. apply elem_of_cons in Hc as [->|Hc]; [by left|right].
    destruct (_ && _); [by apply list_elem_of_singleton in Hc|by apply not_elem_of_nil in Hc].
Qed.
End promises.

(** ** A concrete machine *)

(** It takes the service 0.7 s to stop and its process 1 s to exit. *)
Definition pace0 : Pace := mkPace 2000000 (λ _, 1000000) (λ _, 500000).
Definition scm0 (service create : option Z) : Scm :=
  mkScm None service
    (λ t, inl (if t <? 300000000 then SERVICE_RUNNING else if t <? 700000000 then SERVICE_STOP_PENDING else SERVICE_STOPPED, 7))
    (λ _, None) (λ _, None) (λ t ms, if 1000000000 <=? t + ms * 1000000 then WAIT_OBJECT_0 else 258)
    None create None (Some 5) None None
    (λ size, let name := lit "C:\minilog\minilog.exe" in
             inr (if zlen name <? size then (zlen name, name) else (size, take (Z.to_nat size) name)))
    (λ i, 1000000 * Z.of_nat i) pace0 pace0.
Definition exited0 (t : Z) : Prop := 1000000000 <= t.

Lemma pace0_steady : steady pace0.
Proof. intros i. cbn. lia. Qed.
Lemma scm0_wait_means service create t ms :
  0 <= ms → sc_wait (scm0 service create) t ms = WAIT_OBJECT_0 → ∃ t', t <= t' <= t + ms * 1000000 ∧ exited0 t'.
Proof.
  cbn. destruct (Z.leb_spec 1000000000 (t + ms * 1000000)) as [Hl|]; [|done]. intros Hms _. unfold exited0.
  exists (t + ms * 1000000). lia.
Qed.
Lemma scm0_module service create : module_named (scm0 service create) (lit "C:\minilog\minilog.exe").
Proof. by intros size Hs. Qed.

Example stop_in_time : stopService (scm0 None None) 2 = ([WaitForProcess; LogInfo (lit "minilog service stopped")], Ret tt).
Proof. vm_compute. reflexivity. Qed.
Example stop_too_late : ∃ t w, stopService (scm0 None None) 0 = (t, Throw (RuntimeError w)).
Proof. vm_compute. by eexists _, _. Qed.

(** A service that is already stopped is a success at once, even while its process
    runs on: the wait for the process would not have ended. *)
Example stopped_not_exited :
  let scm := mkScm None None (λ _, inl (SERVICE_STOPPED, 7)) (λ _, None) (λ _, None) (λ _ _, 258)
               None None None None None None (λ _, inl 5) (λ i, 1000000 * Z.of_nat i) pace0 pace0 in
  stopService scm 30 = ([LogInfo (lit "minilog service stopped")], Ret tt) ∧
  ∀ t ms, sc_wait scm t ms ≠ WAIT_OBJECT_0.
Proof. split; [vm_compute; reflexivity|done]. Qed.

Lemma stopService_stops_witness :
  ∃ trace r, stopService (scm0 None None) 2 = (trace, r) ∧ reported r ∧ Forall harmless trace ∧
    (r = Ret tt →
     (sc_manager (scm0 None None) = None ∧ sc_service (scm0 None None) = Some ERROR_SERVICE_DOES_NOT_EXIST) ∨
     (sc_manager (scm0 None None) = None ∧ sc_service (scm0 None None) = None ∧
      ∃ waited, StopDone (scm0 None None) exited0 2 waited ∧ trace = waited ++ [LogInfo (lit "minilog service stopped")])).
Proof.
  apply (stopService_stops (scm0 None None) exited0 pace0_steady pace0_steady (scm0_wait_means None None) 2).
Defined.

Lemma uninstallService_deletes_witness :
  ∃ trace r, uninstallService (scm0 None None) 2 = (trace, r) ∧ reported r ∧
    (DeleteService ∈ trace → ∃ waited rest, trace = waited ++ DeleteService :: rest ∧
       Forall harmless waited ∧ StopDone (scm0 None None) exited0 2 waited ∧ DeleteService ∉ rest) ∧
    (r = Ret tt ↔ last trace = Some DeleteEventSource) ∧
    (r = Ret tt → (sc_service (scm0 None None) = Some ERROR_SERVICE_DOES_NOT_EXIST ∧ DeleteService ∉ trace) ∨
                  (sc_service (scm0 None None) = None ∧ sc_delete (scm0 None None) = None ∧ DeleteService ∈ trace)).
Proof.
  apply (uninstallService_deletes (scm0 None None) exited0 pace0_steady pace0_steady (scm0_wait_means None None) 2).
Defined.

Lemma installService_registers_witness :
  let scm := scm0 None (Some ERROR_SERVICE_EXISTS) in
  let name := lit "C:\minilog\minilog.exe" in
  let bin := quoted name ++ lit " " ++ quoted (lit "C:\minilog\my config.ini") in
  ∃ trace r, installService scm 8 (lit "C:\minilog\my config.ini") = (trace, r) ∧ reported r ∧
    (r = Ret tt ↔ sc_manager scm = None ∧ registered scm) ∧
    (r = Ret tt → trace = installed scm name bin) ∧
    (r ≠ Ret tt → ∀ c, c ∈ trace → c = CreateService bin ∨ c = ChangeServiceConfig bin).
Proof.
  apply (installService_registers (scm0 None (Some ERROR_SERVICE_EXISTS))); [apply scm0_module|vm_compute; congruence].
Defined.
