(* ===== verification/Main.v ===== *)
(** * The command line of minilog (src/src/server/main.cpp)

    [main]: the options, what each asks for and the exit status. On Windows the
    service functions are those of service_win.cpp; elsewhere they do nothing
    (service_linux.cpp). *)

From S2P Require Import Prelude Platform Config ConfigSpec Admission Backoff FileSystem LogFile Lifecycle Sinks OutputManager Forwarder UdpServer Server WaitUntil Preflight SendOptions Service ServiceControl.

Definition DEFAULT_STOP_TIMEOUT_S : Z := 30.

Definition main_options (windows : bool) : option_table :=
  [(lit "help", Flag); (lit "check", Flag); (lit "config-path", Value None)] ++
  if windows then [(lit "install", Flag); (lit "stop", Flag); (lit "uninstall", Flag);
                   (lit "timeout", Value (Some (to_string DEFAULT_STOP_TIMEOUT_S)))] else [].

(** [vm.count(k)] *)
Definition has (table : option_table) (vm : list (bytes * list bytes)) (k : bytes) : bool :=
  match assoc k vm, assoc k table with Some _, _ | None, Some (Value (Some _)) => true | _, _ => false end.

(** What the machine answers to the whole program. *)
Record MainEnv (T : Type) := mkMainEnv {
  me_windows : bool;
  me_scm : Scm;
  me_server : bytes → ServerEnv T;               (* for the configuration at a path *)
  me_preflight : PreEnv;
  me_absolute : bytes → bytes + bytes;           (* its error, or the absolute, normal path *)
  me_readable : bytes → bool;
  me_dispatched : option Z;                      (* StartServiceCtrlDispatcher *)
  me_registered : bool;                          (* RegisterServiceCtrlHandler *)
  me_created : bool;                             (* CreateEvent *)
  me_before : list Z;                            (* controls before the start is reported *)
  me_after : list Z;                             (* and after it *)
  me_late : list Z                               (* and when the server has ended *)
}.
Arguments me_windows {T}. Arguments me_scm {T}. Arguments me_server {T}. Arguments me_preflight {T}.
Arguments me_absolute {T}. Arguments me_readable {T}. Arguments me_dispatched {T}. Arguments me_registered {T}.
Arguments me_created {T}. Arguments me_before {T}. Arguments me_after {T}. Arguments me_late {T}.

(** What was done. *)
Inductive Did :=
| DidUsage (line : bytes)                         (* refused, on stderr *)
| DidHelp
| DidStop (uninstall : bool) (timeout : Z) (trace : list Command)
| DidCheck (text : bytes) (report : PreflightReport) (kept : list bytes)
| DidInstall (config : bytes) (trace : list Command)
| DidRun (run : ServerRun)                        (* in the console *)
| DidService (told : Globals) (run : option ServerRun).
(** [mn_log] is what main itself gives to [osLogError]. *)
Record MainRun := mkMainRun { mn_status : Z; mn_did : Did; mn_log : option bytes }.

(** A call whose exception is logged, and is a failure. *)
Definition caught (r : M unit) (did : Did) : M MainRun :=
  match r with
  | Ret _ => mret (mkMainRun EXIT_SUCCESS did None)
  | Throw e => mret (mkMainRun EXIT_FAILURE did (Some (exn_what e)))
  | UB => UB
  end.

Section main.
Context `{PropertyTree T} `{BoostStrings} `{Machine} `{LogEnv} `{ProgramOptions}.
(** [as<int>()], of a text the parser accepted as an integer. *)
Context (as_int : bytes → option Z) (env : MainEnv T).

Let table := main_options (me_windows env).

(** service_linux.cpp: the functions that need a service manager do nothing. *)
Definition on_windows {A} (f : Ctl A) (linux : A) : Ctl A := if me_windows env then f else mret linux.
Definition stop_service (uninstall : bool) (timeout : Z) : Ctl unit :=
  on_windows (if uninstall then uninstallService (me_scm env) timeout else stopService (me_scm env) timeout) tt.
Definition service_state : ServiceState := if me_windows env then queryServiceState (me_scm env) else NotApplicable.

Definition main_stop (vm : list (bytes * list bytes)) : M MainRun :=
  let timeout := match assoc (lit "timeout") vm with
                 | Some [v] => as_int v
                 | _ => Some DEFAULT_STOP_TIMEOUT_S
                 end in
  match timeout with
  | None => UB
  | Some timeout =>
      if timeout <=? 0 then
        mret (mkMainRun EXIT_FAILURE (DidUsage (lit "minilog: --timeout must be at least 1 second")) None)
      else
        let uninstall := has table vm (lit "uninstall") in
        let '(trace, r) := stop_service uninstall timeout in caught r (DidStop uninstall timeout trace)
  end.

Definition main_check (configPath : bytes) : M MainRun :=
  '(report, kept) ← preflight (me_preflight env) (ev_config (me_server env configPath)) service_state;
  let '(text, status) := printPreflight report configPath in
  mret (mkMainRun status (DidCheck text report kept) None).

Definition main_install (configPath : bytes) : M MainRun :=
  match me_absolute env configPath with
  | inl what => caught (Throw (RuntimeError what)) (DidInstall configPath [])
  | inr absConfig =>
      if negb (me_readable env absConfig) then
        caught (Throw (RuntimeError (lit "minilog: cannot read config file " ++ absConfig ++
                                     lit " — service not installed"))) (DidInstall absConfig [])
      else let '(trace, r) := on_windows (installService (me_scm env) 8 absConfig) tt in
           caught r (DidInstall absConfig trace)
  end.

(** What reaches the service: its start, when the server reports it, between controls. *)
Definition meanwhile (run : ServerRun) : list ServiceEvent :=
  (Control <$> me_before env) ++ (match rn_started run with Some _ => [Started] | None => [] end) ++ (Control <$> me_after env).

(** The service layer's globals when the server runs: in the console, and after the
    manager was told that the service starts. *)
Definition server_in (g : Globals) (configPath : bytes) : ServerEnv T :=
  let e := me_server env configPath in
  mkServerEnv T (ev_config e) (ev_os e) (ev_forwarder_throws e) (ev_forwarder_open e) (ev_address_error e) (ev_bind e)
    (ev_thread_fails e) (ev_thrown e) (if me_windows env then Some g else None).
Definition in_console : bytes → ServerEnv T := server_in initial_Globals.
Definition in_service : bytes → ServerEnv T :=
  server_in (reportStatus SERVICE_START_PENDING NO_ERROR STARTUP_WAIT_HINT_MS 0
               (set_event (Some false) (set_handle true initial_Globals))).

(** As a service when the manager started the process, or in the console. *)
Definition main_serve (configPath : bytes) : M MainRun :=
  let console := run ← runServer (in_console configPath); mret (mkMainRun (rn_status run) (DidRun run) None) in
  if negb (me_windows env) then
    match tryRunAsService_linux console with
    | Some c => mret (mkMainRun c (DidService initial_Globals None) None)
    | None => console
    end
  else
  match me_dispatched env with
  | None =>
      if me_registered env && me_created env then
        run ← runServer (in_service configPath);
        let g := serviceMsgMain true true (meanwhile run) (rn_status run) (me_late env) initial_Globals in
        mret (mkMainRun (g_serviceExitCode g) (DidService g (Some run)) None)
      else
        let g := serviceMsgMain (me_registered env) (me_created env) [] 0 [] initial_Globals in
        mret (mkMainRun (g_serviceExitCode g) (DidService g None) None)
  | Some _ =>
      code ← tryRunAsService (me_dispatched env) initial_Globals;
      match code with Some c => mret (mkMainRun c (DidService initial_Globals None) None) | None => console end
  end.

Definition main (args : list bytes) : M MainRun :=
  match po_run table (lit "config-path") args with
  | inl what => mret (mkMainRun EXIT_FAILURE (DidUsage (lit "minilog: " ++ what)) None)
  | inr vm =>
      if has table vm (lit "help") then mret (mkMainRun EXIT_SUCCESS DidHelp None) else
      if has table vm (lit "stop") || has table vm (lit "uninstall") then main_stop vm else
      match assoc (lit "config-path") vm with
      | Some [configPath] =>
          if has table vm (lit "check") then main_check configPath else
          if has table vm (lit "install") then main_install configPath else
          main_serve configPath
      | Some _ => UB
      | None => mret (mkMainRun EXIT_FAILURE (DidUsage (lit "minilog: config-path is required")) None)
      end
  end.
End main.

(** ** What the exit status says *)

Section status.
Context `{PropertyTree T} `{BoostStrings} `{Machine} `{LogEnv} `{ProgramOptions}.
Context (as_int : bytes → option Z) (env : MainEnv T) (exited : Z → Prop) (exe : bytes).
Hypothesis as_int_stored : ∀ args vm v,
  po_run (main_options (me_windows env)) (lit "config-path") args = inr vm → assoc (lit "timeout") vm = Some [v] → is_Some (as_int v).
Hypothesis accept_steady : steady (sc_accept (me_scm env)).
Hypothesis stopped_steady : steady (sc_stopped (me_scm env)).
Hypothesis wait_means : ∀ t ms, 0 <= ms → sc_wait (me_scm env) t ms = WAIT_OBJECT_0 →
  ∃ t', t <= t' <= t + ms * 1000000 ∧ exited t'.
Hypothesis exe_named : module_named (me_scm env) exe.
Hypothesis exe_length : zlen exe <= 32767.

(** The server started, and no worker caught an exception. *)
Definition served (server : ServerEnv T) (run : ServerRun) : Prop :=
  ∃ sd, rn_started run = Some sd ∧ ∀ i, (i <= sd_threads sd)%nat → ev_thrown server i = [].

(** What was asked was done. *)
Definition done_as_asked (did : Did) : Prop :=
  match did with
  | DidUsage _ => False
  | DidHelp => True
  | DidStop uninstall timeout _ => me_windows env = true → sc_manager (me_scm env) = None ∧
      (sc_service (me_scm env) = Some ERROR_SERVICE_DOES_NOT_EXIST ∨
       sc_service (me_scm env) = None ∧ (∃ waited, StopDone (me_scm env) exited timeout waited) ∧
       (uninstall = true → sc_delete (me_scm env) = None))
  | DidCheck _ report _ => failed report = false
  | DidInstall config _ => me_readable env config = true ∧ (∃ path, me_absolute env path = inr config) ∧
      (me_windows env = true → sc_manager (me_scm env) = None ∧ registered (me_scm env))
  | DidRun run => ∃ path, runServer (in_console env path) = Ret run ∧ served (in_console env path) run
  | DidService _ run => ∃ path r, run = Some r ∧ runServer (in_service env path) = Ret r ∧ served (in_service env path) r
  end.

(** The first of these that is asked for: help, a stop, a check, an installation,
    a run. *)
Definition asked (vm : list (bytes * list bytes)) (did : Did) : Prop :=
  let has k := has (main_options (me_windows env)) vm (lit k) in
  let stop := has "stop" || has "uninstall" in
  match did with
  | DidUsage _ => has "help" = false
  | DidHelp => has "help" = true
  | DidStop uninstall timeout _ =>
      has "help" = false ∧ stop = true ∧ uninstall = has "uninstall" ∧ 1 <= timeout
  | DidCheck _ _ _ => has "help" = false ∧ stop = false ∧ has "check" = true
  | DidInstall _ _ => has "help" = false ∧ stop = false ∧ has "check" = false ∧ has "install" = true
  | DidRun _ | DidService _ _ =>
      has "help" = false ∧ stop = false ∧ has "check" = false ∧ has "install" = false
  end.

(** A run of the server whose last line is an error. *)
Definition says_why (run : ServerRun) : Prop := ∃ what rest, rn_log run = (LError, what) :: rest.
(** The only report of a service for which the stop event cannot be created. *)
Definition status_no_event : Status := mkStatus SERVICE_STOPPED false ERROR_OUTOFMEMORY 0 0 0.
(** A failure leaves an error in the system log, a usage error or a failed report;
    but a service that cannot register its control handler leaves nothing at all, and
    one that cannot create its stop event only what the manager is told. *)
Definition told (r : MainRun) : Prop :=
  match mn_did r with
  | DidUsage line => line ≠ []
  | DidHelp => False
  | DidStop _ _ _ | DidInstall _ _ => ∃ line, mn_log r = Some line
  | DidCheck _ report _ => failed report = true
  | DidRun run => says_why run
  | DidService _ (Some run) => says_why run
  | DidService g None => mn_log r = None ∧
      (me_registered env = false ∧ g_reported g = [] ∨
       me_registered env = true ∧ me_created env = false ∧ g_reported g = [status_no_event])
  end.

Definition outcome (vm : list (bytes * list bytes)) (m : M MainRun) : Prop :=
  match m with
  | Ret r => asked vm (mn_did r) ∧ (mn_status r = 0 ∧ done_as_asked (mn_did r) ∨ mn_status r = 1 ∧ told r)
  | Throw (RuntimeError _) => me_windows env = true ∧
      ∃ err, me_dispatched env = Some err ∧ err ≠ ERROR_FAILED_SERVICE_CONTROLLER_CONNECT
  | _ => False
  end.

Lemma caught_outcome vm r did :
  asked vm did → reported r → (match did with DidStop _ _ _ | DidInstall _ _ => True | _ => False end) →
  (r = Ret tt → done_as_asked did) → outcome vm (caught r did).
Proof.
  intros Ha Hr Hd Hok. destruct r as [[]|[w|w|w|w]|]; cbn in Hr |- *; try done; (split; [done|]).
  - left. split; [done|by apply Hok].
  - right. split; [done|]. unfold told. cbn. destruct did; try done; by eexists.
Qed.

Lemma stop_service_result uninstall timeout :
  ∃ trace r, stop_service env uninstall timeout = (trace, r) ∧ reported r ∧
    (r = Ret tt → ∀ t, done_as_asked (DidStop uninstall timeout t)).
Proof.
  unfold stop_service, on_windows. cbn [done_as_asked]. destruct (me_windows env); [|by eexists _, _].
  unfold stopService, uninstallService. destruct (stopAndWait (me_scm env) timeout) as [t r] eqn:E.
  pose proof (stopAndWait_result _ exited accept_steady stopped_steady wait_means _ _ _ E) as [_ Hr].
  destruct uninstall, (sc_manager (me_scm env)) as [err|]; try (by eexists _, _);
    destruct (sc_service (me_scm env)) as [err|];
    try (destruct (Z.eqb_spec err ERROR_SERVICE_DOES_NOT_EXIST) as [->|];
         eexists _, _; (split; [reflexivity|split; [done|]]); [intros _ t' _; split; [done|by left]|done]);
    destruct r as [[]|[w|w|w|w]|]; try done; cbn [mbind Ctl_bind do_ app];
    try (by eexists _, _); try destruct (sc_delete (me_scm env)); cbn; eexists _, _;
    (split; [reflexivity|split; [done|]]); try done; intros _ t' _; (split; [done|right]); split_and!; try done; by exists t.
Qed.

Lemma install_result config :
  ∃ trace r, on_windows env (installService (me_scm env) 8 config) tt = (trace, r) ∧ reported r ∧
    (r = Ret tt → me_windows env = true → sc_manager (me_scm env) = None ∧ registered (me_scm env)).
Proof.
  unfold on_windows. destruct (me_windows env); [|by eexists _, _].
  unfold installService. rewrite (currentExecutablePath_finds _ exe exe_named exe_length). cbn [lift mbind Ctl_bind].
  destruct (sc_manager (me_scm env)) as [err|]; [by eexists _, _|].
  destruct (register_result (me_scm env) (quoted exe ++ lit " " ++ quoted config)) as (t & r & -> & _ & [[-> Hreg]|[[w ->] _]]);
    cbn [mbind Ctl_bind]; [|by eexists _, _].
  unfold attempt. destruct (sc_actions (me_scm env)), (sc_flag (me_scm env)), (sc_event_key (me_scm env)); by eexists _, _.
Qed.

Lemma preflight_returns parsed service : ∃ r kept, preflight (me_preflight env) parsed service = Ret (r, kept).
Proof.
  destruct (yields_cases _ _ (loadConfig_yields parsed)) as [(cfg & Hcfg & _)|(w & Hcfg)].
  - destruct (preflight_eval (me_preflight env) parsed service cfg Hcfg) as (r & p & Hr & _). by eexists _, _.
  - unfold preflight. rewrite Hcfg. by eexists _, _.
Qed.

Lemma printed report path : (printPreflight report path).2 = if failed report then 1 else 0.
Proof. unfold printPreflight, failed, count. by destruct (findings report). Qed.

(** A run's status, which is that of the service too. *)
Lemma run_result (server : ServerEnv T) :
  ∃ run, runServer server = Ret run ∧
    (rn_status run = 0 ∧ served server run ∨ rn_status run = 1 ∧ says_why run).
Proof.
  destruct (runServer_spec server) as (run & Hrun & _ & _ & Hwhy & Hs). exists run. split; [done|].
  unfold served. destruct (rn_started run) as [sd|]; [|by right; split; [|apply Hwhy]].
  destruct Hs as (_ & Hok & [E|E]); [left|by right; split; [|apply Hwhy]]. split; [done|]. exists sd. split; [done|by apply Hok].
Qed.

Lemma service_status es status late : g_serviceExitCode (serviceMsgMain true true es status late initial_Globals) = status.
Proof.
  unfold serviceMsgMain. cbn [negb]. set (g := foldl service_event (set_event None _) _).
  assert (Hg : g_serviceExitCode g = status) by apply exit_code_kept. rewrite Hg.
  by destruct (status =? EXIT_SUCCESS).
Qed.

Lemma serve_outcome vm path :
  asked vm (DidRun (failed_start None [])) → outcome vm (main_serve env path).
Proof.
  intros Ha. unfold main_serve. destruct (run_result (in_console env path)) as (run & Hrun & Hs). rewrite Hrun.
  destruct (run_result (in_service env path)) as (srun & Hsrun & Hss). rewrite Hsrun.
  cbn [mbind M_bind mret M_ret tryRunAsService_linux].
  assert (Hcons : outcome vm (Ret (mkMainRun (rn_status run) (DidRun run) None))).
  { split; [done|]. destruct Hs as [[E Hs]|[E Hs]]; [left; split; [done|]; by exists path|by right]. }
  destruct (me_windows env) eqn:Hw; [cbn [negb]|done].
  destruct (me_dispatched env) as [err|] eqn:Hd.
  - unfold tryRunAsService. destruct (Z.eqb_spec err ERROR_FAILED_SERVICE_CONTROLLER_CONNECT); cbn [mbind M_bind mret M_ret]; [done|].
    split; [done|]. by exists err.
  - destruct (me_registered env) eqn:Hr, (me_created env) eqn:Hcr; cbn [andb];
      try (split; [done|right; split; [done|]; (split; [done|]); rewrite Hr; auto]; fail).
    split; [done|]. cbn [mn_status]. rewrite service_status.
    destruct Hss as [[E Hss]|[E Hss]]; [left; split; [done|]; by exists path, srun|right; split; [done|]; exact Hss].
Qed.

Lemma stop_outcome args vm :
  po_run (main_options (me_windows env)) (lit "config-path") args = inr vm →
  has (main_options (me_windows env)) vm (lit "help") = false →
  has (main_options (me_windows env)) vm (lit "stop") || has (main_options (me_windows env)) vm (lit "uninstall") = true →
  outcome vm (main_stop as_int env vm).
Proof.
  intros Hp Hh Hs. unfold main_stop.
  assert (Ht : ∃ t, match assoc (lit "timeout") vm with Some [v] => as_int v | _ => Some DEFAULT_STOP_TIMEOUT_S end = Some t).
  { destruct (assoc (lit "timeout") vm) as [[|v [|]]|] eqn:E; try by eexists.
    destruct (as_int_stored args vm v Hp E) as [t Ht]. by exists t. }
  destruct Ht as (t & ->). destruct (Z.leb_spec t 0) as [|Hpos]; [by split; [|right]|].
  destruct (stop_service_result (has (main_options (me_windows env)) vm (lit "uninstall")) t) as (trace & r & -> & Hr & Hok).
  apply caught_outcome; [|done|done|by intros ->; apply Hok]. cbn. split_and!; [done|done|done|lia].
Qed.

(** C25. Every command line is answered, and the exit status tells the truth: 0
    means that help was shown, the stop, check or installation that was asked for
    was done, or the server ran and no worker caught an exception; any other status
    is a 1. A 1 comes with a line that says why - on stderr, in the report of a
    check, or in the system log, where it is an error for a run of the server - with
    one exception: a service that the manager started and that cannot register its
    control handler or create its stop event ends with a 1 and logs nothing, and
    only in the second case has the manager been told (stopped, out of memory).
    Help comes before a stop, a stop before a check, a check before an installation
    and that before a run. The only exception to escape is that of a service
    dispatcher that fails. *)
Theorem main_exit_status args :
  match po_run (main_options (me_windows env)) (lit "config-path") args with
  | inl what => ∃ r, main as_int env args = Ret r ∧ mn_status r = 1 ∧ mn_did r = DidUsage (lit "minilog: " ++ what)
  | inr vm => outcome vm (main as_int env args)
  end.
Proof.
  unfold main. destruct (po_run _ _ args) as [what|vm] eqn:Hp; [by eexists|].
  destruct (has _ vm (lit "help")) eqn:Hh; [by split; [|left]|].
  destruct (has _ vm (lit "stop") || has _ vm (lit "uninstall")) eqn:Hs; [by eapply stop_outcome|].
  destruct (assoc (lit "config-path") vm) as [vs|] eqn:Hc; [|by split; [|right]].
  destruct (po_run_law _ _ _ _ _ _ Hp Hc) as (kind & Hk & Hv).
  assert (kind = Value None) as -> by (by destruct (me_windows env); vm_compute in Hk; injection Hk).
  destruct vs as [|path [|]]; try done. clear Hv.
  destruct (has _ vm (lit "check")) eqn:Hck.
  { unfold main_check. destruct (preflight_returns (ev_config (me_server env path)) (service_state env)) as (r & kept & ->).
    cbn [mbind M_bind]. pose proof (printed r path) as Hp2. destruct (printPreflight r path) as [text status]. cbn in Hp2.
    split; [done|]. cbn. rewrite Hp2. destruct (failed r) eqn:Hf; [by right|by left]. }
  destruct (has _ vm (lit "install")) eqn:Hi; [|by apply serve_outcome].
  unfold main_install. destruct (me_absolute env path) as [what|abs] eqn:Habs; [by split; [|right; split; [|eexists]]|].
  destruct (me_readable env abs) eqn:Hread; cbn [negb]; [|by split; [|right; split; [|eexists]]].
  destruct (install_result abs) as (trace & r & -> & Hr & Hok).
  apply caught_outcome; [done|done|done|]. intros ->. split_and!; [done|by exists path|by apply Hok].
Qed.
End status.

(** ** Concrete command lines *)

Definition as_int0 (v : bytes) : option Z := match stoi v with Ret (z, _) => Some z | _ => Some 0 end.
Definition main_env0 (windows : bool) (dispatched : option Z) : MainEnv ini :=
  mkMainEnv ini windows (scm0 None None) (λ _, server_env [] None (λ _, [])) (env0 false)
    (λ p, inr (lit "C:\minilog\" ++ p)) (λ _, true) dispatched true true [SERVICE_CONTROL_STOP] [SERVICE_CONTROL_STOP] [].
Definition main0 (windows : bool) (dispatched : option Z) (args : list string) : M MainRun :=
  @main ini ini_tree linux_strings linux_machine example_env gnu_options as_int0 (main_env0 windows dispatched) (lit <$> args).

Definition brief (m : M MainRun) : option (Z * string) :=
  match m with
  | Ret r => Some (mn_status r, match mn_did r with
      | DidUsage _ => "usage" | DidHelp => "help" | DidStop _ _ _ => "stop" | DidCheck _ _ _ => "check"
      | DidInstall _ _ => "install" | DidRun _ => "run" | DidService _ _ => "service" end)
  | _ => None
  end%string.

Example main_examples :
  brief <$> [main0 true None ["--stop"; "--timeout"; "2"]; main0 true None ["--stop"; "--timeout"; "0"];
             main0 false None ["--stop"]; main0 true None ["my.ini"]; main0 true (Some 1063) ["my.ini"];
             main0 true (Some 5) ["my.ini"]; main0 true None ["--install"; "my.ini"];
             main0 false None ["--check"; "my.ini"]; main0 false None ["--check"; "--help"]; main0 false None []]%string =
  (Some <$> [(0, "stop"); (1, "usage"); (1, "usage"); (0, "service"); (0, "run")]%string) ++
  None :: (Some <$> [(0, "install"); (0, "check"); (0, "help"); (1, "usage")]%string).
Proof. vm_compute. reflexivity. Qed.

Lemma main_exit_status_witness :
  let args := lit <$> ["--stop"; "--timeout"; "2"]%string in
  match @po_run gnu_options (main_options true) (lit "config-path") args with
  | inl what => False
  | inr vm => @outcome ini ini_tree linux_strings linux_machine example_env (main_env0 true None) exited0 vm
                (main0 true None ["--stop"; "--timeout"; "2"]%string)
  end.
Proof.
  pose proof (@main_exit_status ini ini_tree linux_strings linux_machine example_env gnu_options as_int0
    (main_env0 true None) exited0 (lit "C:\minilog\minilog.exe")
    (λ _ _ v _ _, ltac:(unfold as_int0; by destruct (stoi v) as [[? ?]| |]))
    pace0_steady pace0_steady (scm0_wait_means None None) (scm0_module None None) ltac:(vm_compute; congruence)
    (lit <$> ["--stop"; "--timeout"; "2"]%string)) as H.
  exact H.
Defined.
